(* ===== verification/_CoqProject ===== *)
-Q . S2P
Prelude.v
Os.v
Scripted.v
UniqueFd.v
Codec.v
Handler.v
BoundedQueue.v
WorkerPool.v
Connection.v
ConnectionRegistry.v
EpollServer.v
ServerFrame.v
ServerInvariant.v
ServerProofs.v
ServerTheorems.v
ServerQuiescence.v
ServerStart.v
BlockingTcp.v
BlockingTheorems.v
SignalMask.v
ServerLife.v
CommandLine.v
ServerScope.v
EpollMain.v
ClientMain.v
ServerMain.v
Doubles.v
BenchmarkMain.v
BenchmarkClient.v
BenchmarkThreads.v
BenchmarkReport.v
BenchmarkProcess.v
UnitTests.v
