(* ===== verification/Prelude.v ===== *)
(** * PulseCore: a verification library

    PulseCore (under [src/]) is a C++20 TCP server for Linux: a binary
    request/response protocol, a reactor on [epoll] that hands requests to a pool
    of worker threads and writes the responses back in order, a blocking server
    and client for the same protocol, and four programs.  This library models
    that code and proves it correct.  This file is its root: it documents the
    whole, and holds what all the files share (machine integers, lists indexed by
    [Z], results and effects, weakest preconditions, big-endian bytes).

    *** The program and the files that model it

    - [Codec] ([protocol/codec]): frames, [EncodeMessage], [TryDecodeFrame], the
      incremental [FrameDecoder].
    - [Handler] ([core/handler]): the response to a request; the work digest.
    - [BoundedQueue] ([core/bounded_queue.hpp]) and [WorkerPool]
      ([network/worker_pool]): critical sections as functions, threads, mutexes
      and condition variables as transition systems over them.
    - [UniqueFd] ([common/unique_fd]): owning descriptors, with moves between
      objects that may be the same one.
    - [Connection] ([network/connection]) and [ConnectionRegistry]
      ([network/connection_registry]): non-blocking reads and writes with budgets
      and limits; ids and ownership.
    - [EpollServer] ([network/epoll_echo_server]): [Run] and every handler it
      dispatches to, the completion callback of the workers, [Stop].
      [ServerFrame], [ServerInvariant], [ServerProofs] and [ServerTheorems] hold
      its invariant, the proof that each handler keeps it, and its properties;
      [ServerQuiescence] shows that no result and no request is left behind.
      [ServerStart] models the constructor, [SignalMask] the object that restores
      the signal mask, [ServerLife] the destructor.
    - [BlockingTcp] ([network/blocking_tcp]): the blocking server and the client;
      [BlockingTheorems] has their properties.
    - [CommandLine], [EpollMain], [ClientMain], [ServerMain] ([apps/]): reading
      numbers and options, output, and [main] of the three programs; [ServerScope]:
      an epoll server declared in [main].
    - [BenchmarkMain], [BenchmarkClient], [BenchmarkThreads], [BenchmarkReport],
      [BenchmarkProcess] ([apps/benchmark]): the options, requests and percentiles
      of the benchmark; one client; the threads, as a transition system on the
      variables they share; the report; and [main], which composes them with the
      server.  [Doubles] has the floating-point numbers and how they are printed.
    - [UnitTests]: what [tests/unit] asserts, evaluated on the model.

    [Os] is the interface to the kernel and [Scripted] an instance of it for
    concrete runs.

    *** How code is represented

    Integers are [Z] with the conversions of the code written out ([u16], [u32],
    [u64]); bytes are [Z] below 2^8.  A function that may throw, has undefined
    behaviour in C++ (a read out of range, a dangling pointer, an empty optional
    dereferenced) or loops is a computation in [M S]: from a state it gives a
    [Result] ([Return], [Throw], [Undefined], [OutOfFuel]) and a new state.  Pure
    code that can only be undefined is in [option].  Objects are records with the
    members of the class, and methods compute on [St X]: the object and the
    history of the system calls of the process.

    The kernel is not part of the program.  It is the class [OS]: every system
    call is answered by an arbitrary function of the history so far, so that a
    theorem holds for all behaviours of the network.  What the code relies on is
    stated as classes: [OSLaws] (a call does not return more than it was asked
    for), [EpollLaws] and [SetupLaws] (new descriptors are new), [EventfdLaws] (a
    write to an event counter fails only when interrupted or the counter is full),
    [ShortRun] (fewer than 2^64 bytes are received), [FewInterrupts n] (at most [n] calls are
    interrupted; for termination only).  [scripted] obeys them all.  Other threads
    are the class [Environment] of [EpollServer]: at each point where the reactor
    waits or takes a lock, any sequence of steps of the workers and of calls of
    [Stop] may run.

    Pointers and iterators into maps are keys; a use after the entry is gone is
    [Undefined], so that "never [Undefined]" says that no dangling pointer is used.
    Destructors are explicit calls at the end of a scope, also when an exception
    leaves it ([on_exception], [holding], [scoped], [server_block]).

    *** What is proved

    - End to end: the client program and the epoll server, and the client and the
      blocking server, over a connection that carries bytes in order: what the
      client reports is what the response table ([respond_spec]) gives.
    - The epoll server: each connection is sent the responses to its own requests
      in the order received, under every schedule; it has no undefined behaviour;
      work is conserved, and a server at rest has answered everything it received; connections, queues, buffers are bounded; epoll watches
      what is needed; every socket is owned once; a stop request ends the run and
      closes every connection; start and destruction are all or nothing.
    - The blocking server and the client: exactly the bytes of the frames, sockets
      closed in every outcome, termination; a failure is the error of the last
      system call, or a verdict that this call and the bytes received justify.
    - The programs: exit codes, output and cleanup, tied to the command line and to
      what the constructor, [Run] or [ServeOne] did.  The options of the epoll server
      and of the client are specified by grammars that do not refer to the parsers
      ([EpollMain.reads], [EpollMain.configured], [ClientMain.described]), with the
      errors of the lists that are not in them; the request of an accepted command
      line is a valid message.
    - The benchmark: no client reports an unexpected response, requests have
      identifiers and latencies of their own, percentiles are those of the nearest
      rank, the process prints the report of the latencies that the clients stored,
      or the reason there is none.  The threads cannot deadlock while the server
      works, and [main] goes on after them only with the error of a thread if one
      failed.  Three behaviours are shown that the program does not intend: a server
      that fails while clients wait leaves [main] waiting ([benchmark_hangs]); a
      thread that cannot be created after others ends the process
      ([benchmark_aborts]); a server that fails before the member [error_] of
      [ServerThread] is constructed makes the behaviour undefined
      ([benchmark_error_lost]).
    - The components: round trips and totality of the codec, losslessness of the
      decoder and of connections for every chunking, the work digest and its
      limits, FIFO order and wake-ups of the queue, exactly-once processing by the
      pool, ids never reused, descriptors closed exactly once.

    *** Fuel

    Loops that make system calls have fuel, because the kernel may interrupt a
    call again and again.  A theorem about such a loop also says when the fuel
    suffices: one unit for each interrupted call that may come, one for each byte
    of the budget or of the largest frame, and one to return ([enough], [ample]).
    [turns] bounds the rounds of a server loop, which runs until it is stopped:
    [server_stop_terminates] shows that one round is enough after a stop request,
    the other theorems hold at every point of every run.  Loops over data are
    structural or have the length of the data as fuel, proved to suffice.

    *** Not modelled

    - The layout of [sockaddr_in] in memory (it is a record, of numbers in network
      byte order as a little-endian host has them), and the time that [epoll_wait]
      waits (it may return with no events at any time).
    - Allocation failure ([std::bad_alloc]) but for the two vectors of the benchmark's
      [main]; [std::length_error] is modelled where a size comes from the command line
      (the threads of the pool, those vectors).  Errors of the output streams, and
      the sign of a NaN.
    - The memory model: shared variables are accessed in the critical sections
      and atomics of the code, whose steps are taken as atomic.  ([error_] of the
      benchmark, which is neither, is undefined where it is assigned before its
      construction.)
    - What the kernel makes of the calls of several processes or threads together:
      each has a history of its own.  The end-to-end theorems say by hypotheses that
      what one side receives is what the other sent.
    - The integration tests (they are runs of what the end-to-end theorems are
      about), the build files and the documents. *)

From Stdlib Require Export ZArith Lia.
From stdpp Require Export base list gmap strings option relations numbers.

#[global] Set Default Goal Selector "!".

Declare Scope pulse_scope.
Delimit Scope pulse_scope with pulse.

#[global] Open Scope Z_scope.
#[global] Open Scope pulse_scope.

(** ** Machine integers *)

(** The unsigned integer types of the program: values are [Z], and every
    conversion to a narrower type wraps around. *)
Definition u8 (z : Z) : Z := z mod 2 ^ 8.
Definition u16 (z : Z) : Z := z mod 2 ^ 16.
Definition u32 (z : Z) : Z := z mod 2 ^ 32.
Definition u64 (z : Z) : Z := z mod 2 ^ 64.

Definition is_u8 (z : Z) : Prop := 0 <= z < 2 ^ 8.
Definition is_u16 (z : Z) : Prop := 0 <= z < 2 ^ 16.
Definition is_u32 (z : Z) : Prop := 0 <= z < 2 ^ 32.
Definition is_u64 (z : Z) : Prop := 0 <= z < 2 ^ 64.

(** Proves a decidable statement about concrete values by evaluation. *)
Ltac by_decide := apply (bool_decide_unpack _); vm_compute; exact I.

(** [std::numeric_limits<std::uint64_t>::max()] (and that of [std::size_t] on
    the 64-bit targets of the program). *)
Definition u64_max : Z := 2 ^ 64 - 1.

#[export] Instance is_u8_dec z : Decision (is_u8 z).
Proof. unfold is_u8. apply _. Defined.
#[export] Instance is_u16_dec z : Decision (is_u16 z).
Proof. unfold is_u16. apply _. Defined.
#[export] Instance is_u64_dec z : Decision (is_u64 z).
Proof. unfold is_u64. apply _. Defined.

Create HintDb pulse discriminated.
Create Rewrite HintDb pulse_rw.

Lemma is_u8_u8 z : is_u8 (u8 z).
Proof. apply Z.mod_pos_bound. lia. Qed.
Lemma is_u64_u64 z : is_u64 (u64 z).
Proof. apply Z.mod_pos_bound. lia. Qed.
Lemma u8_id z : is_u8 z -> u8 z = z.
Proof. apply Z.mod_small. Qed.
Lemma u16_id z : is_u16 z -> u16 z = z.
Proof. apply Z.mod_small. Qed.
Lemma u32_id z : is_u32 z -> u32 z = z.
Proof. apply Z.mod_small. Qed.
Lemma u64_id z : is_u64 z -> u64 z = z.
Proof. apply Z.mod_small. Qed.
#[export] Hint Resolve is_u8_u8 is_u64_u64 : pulse.

(** [x | y] of a value shifted left by [k] bits and one of fewer than [k + 1]
    bits is their sum: the shape of every big-endian read. *)
Lemma lor_shiftl_add a b k :
  0 <= k -> 0 <= b < 2 ^ k -> Z.lor (Z.shiftl a k) b = a * 2 ^ k + b.
Proof.
  intros Hk Hb. rewrite <- Z.shiftl_mul_pow2 by lia. symmetry.
  assert (Z.land (Z.shiftl a k) b = 0) as Hland.
  2: { rewrite <- Z.lxor_lor by done. by apply Z.add_nocarry_lxor. }
  apply Z.bits_inj'. intros i Hi.
  rewrite Z.land_spec, Z.bits_0. destruct (Z_lt_le_dec i k) as [H|H].
  - by rewrite Z.shiftl_spec_low.
  - rewrite <- (Z.mod_small b (2 ^ k)) by done.
    by rewrite Z.mod_pow2_bits_high, andb_false_r by lia.
Qed.

(** [(x >> k) & 0xFF] is the byte at bit position [k]. *)
Lemma shiftr_land_byte x k :
  0 <= k -> Z.land (Z.shiftr x k) 255 = (x / 2 ^ k) mod 2 ^ 8.
Proof.
  intros Hk. change 255 with (Z.ones 8).
  by rewrite Z.land_ones, Z.shiftr_div_pow2 by lia.
Qed.

(** ** Lists with sizes in [Z] *)

Definition len {A} (l : list A) : Z := Z.of_nat (length l).

Lemma len_nonneg {A} (l : list A) : 0 <= len l.
Proof. unfold len. lia. Qed.
Lemma len_nil {A} : len (@nil A) = 0.
Proof. done. Qed.
Lemma len_cons {A} (x : A) l : len (x :: l) = len l + 1.
Proof. unfold len. simpl. lia. Qed.
Lemma len_app {A} (l k : list A) : len (l ++ k) = len l + len k.
Proof. unfold len. rewrite length_app. lia. Qed.
Lemma len_zero {A} (l : list A) : len l = 0 -> l = [].
Proof. destruct l; unfold len; simpl; [done|lia]. Qed.

(** [ztake n l], [zdrop n l]: the first [n] elements and the rest, with [n] a
    machine integer. *)
Definition ztake {A} (n : Z) (l : list A) : list A := take (Z.to_nat n) l.
Definition zdrop {A} (n : Z) (l : list A) : list A := drop (Z.to_nat n) l.

Lemma ztake_zdrop {A} n (l : list A) : ztake n l ++ zdrop n l = l.
Proof. apply take_drop. Qed.
Lemma len_zdrop {A} n (l : list A) : 0 <= n <= len l -> len (zdrop n l) = len l - n.
Proof. unfold len, zdrop. rewrite length_drop. lia. Qed.
Lemma len_ztake {A} n (l : list A) : 0 <= n <= len l -> len (ztake n l) = n.
Proof. unfold len, ztake. rewrite length_take. lia. Qed.
Lemma zdrop_0 {A} (l : list A) : zdrop 0 l = l.
Proof. done. Qed.
Lemma zdrop_all {A} (l : list A) n : len l <= n -> zdrop n l = [].
Proof. intros. unfold zdrop. apply drop_ge. unfold len in *. lia. Qed.
Lemma zdrop_zdrop {A} (l : list A) n k :
  0 <= n -> 0 <= k -> zdrop k (zdrop n l) = zdrop (n + k) l.
Proof. intros. unfold zdrop. rewrite drop_drop. f_equal. lia. Qed.
Lemma zdrop_app_le {A} (l k : list A) n :
  n <= len l -> zdrop n (l ++ k) = zdrop n l ++ k.
Proof. intros. unfold zdrop. apply drop_app_le. unfold len in *. lia. Qed.
Lemma zdrop_app_len {A} (l k : list A) n : n = len l -> zdrop n (l ++ k) = k.
Proof. intros ->. unfold zdrop. apply drop_app_length'. unfold len. lia. Qed.
Lemma ztake_app_len {A} (l k : list A) n : n = len l -> ztake n (l ++ k) = l.
Proof. intros ->. unfold ztake. apply take_app_length'. unfold len. lia. Qed.
Lemma ztake_app_le {A} (l k : list A) n :
  n <= len l -> ztake n (l ++ k) = ztake n l.
Proof. intros. unfold ztake. apply take_app_le. unfold len in *. lia. Qed.
Lemma ztake_all {A} (l : list A) n : len l <= n -> ztake n l = l.
Proof. intros. unfold ztake. apply take_ge. unfold len in *. lia. Qed.
Lemma Forall_ztake {A} (P : A -> Prop) n l : Forall P l -> Forall P (ztake n l).
Proof. apply Forall_take. Qed.
Lemma Forall_zdrop {A} (P : A -> Prop) n l : Forall P l -> Forall P (zdrop n l).
Proof. apply Forall_drop. Qed.
#[export] Hint Resolve len_nonneg Forall_ztake Forall_zdrop : pulse.
#[export] Hint Resolve Forall_nil_2 Forall_cons_2 Forall_app_2 : pulse.
#[export] Hint Rewrite @len_nil @len_cons @len_app : pulse_rw.

(** [zlookup l i]: the element of a vector at a machine-integer index.
    [None] is an access out of range, which is undefined behaviour. *)
Definition zlookup {A} (l : list A) (i : Z) : option A :=
  if bool_decide (0 <= i) then l !! Z.to_nat i else None.

Lemma zlookup_app_l {A} (l k : list A) i :
  i < len l -> zlookup (l ++ k) i = zlookup l i.
Proof.
  intros. unfold zlookup. case_bool_decide; [|done].
  apply lookup_app_l. unfold len in *. lia.
Qed.

Lemma zlookup_zdrop {A} (l : list A) n i :
  0 <= n -> 0 <= i -> zlookup l (n + i) = zlookup (zdrop n l) i.
Proof.
  intros. unfold zlookup, zdrop. rewrite !bool_decide_eq_true_2 by lia.
  rewrite lookup_drop. f_equal. lia.
Qed.

Lemma zlookup_ztake {A} (l : list A) n i :
  i < n -> zlookup (ztake n l) i = zlookup l i.
Proof.
  intros. unfold zlookup, ztake. case_bool_decide; [|done].
  apply lookup_take_lt. lia.
Qed.

(** [std::vector::max_size()] for elements of [element] bytes: [reserve] and the
    constructor throw [std::length_error] above it. *)
Definition max_size (element : Z) : Z := (2 ^ 63 - 1) / element.
Definition sizeof_thread : Z := 8.
Definition sizeof_double : Z := 8.

(** Closes arithmetic goals about the sizes of lists. *)
Ltac len_lia :=
  autorewrite with pulse_rw in *;
  repeat match goal with
  | |- context [len ?l] =>
      lazymatch goal with
      | _ : 0 <= len l |- _ => fail
      | _ => pose proof (len_nonneg l)
      end
  | _ : context [len ?l] |- _ =>
      lazymatch goal with
      | _ : 0 <= len l |- _ => fail
      | _ => pose proof (len_nonneg l)
      end
  end; lia.

(** ** Results and effects *)

(** The exceptions the program throws.  [SyscallRuntimeError op e] is the
    [std::runtime_error] whose text is [op] followed by [strerror e]. *)
Inductive Exception : Type :=
| RuntimeError (what : string)
| SyscallRuntimeError (operation : string) (error : Z)
| InvalidArgument (what : string)
| OutOfRange (what : string)
| LogicError (what : string)
| SystemError (error : Z)                  (** of the creation of a thread *)
| BadAlloc.

#[export] Instance Exception_eq_dec : EqDecision Exception.
Proof. solve_decision. Defined.

(** How a C++ statement can end: normally, by an exception, with undefined
    behaviour, or (of the model only) with the loop fuel used up. *)
Inductive Result (A : Type) : Type :=
| Return (a : A)
| Throw (e : Exception)
| Undefined
| OutOfFuel.
Arguments Return {A} a.
Arguments Throw {A} e.
Arguments Undefined {A}.
Arguments OutOfFuel {A}.

(** Stateful computations. *)
Definition M (S A : Type) : Type := S -> Result A * S.

#[export] Instance M_ret S : MRet (M S) := fun A a s => (Return a, s).
#[export] Instance M_bind S : MBind (M S) := fun A B f m s =>
  match m s with
  | (Return a, s') => f a s'
  | (Throw e, s') => (Throw e, s')
  | (Undefined, s') => (Undefined, s')
  | (OutOfFuel, s') => (OutOfFuel, s')
  end.

Definition throw {S A} (e : Exception) : M S A := fun s => (Throw e, s).
Definition undefined {S A} : M S A := fun s => (Undefined, s).
Definition out_of_fuel {S A} : M S A := fun s => (OutOfFuel, s).
Definition gets {S A} (f : S -> A) : M S A := fun s => (Return (f s), s).
Definition modify {S} (f : S -> S) : M S unit := fun s => (Return tt, f s).
(** A value the C++ code assumes to be present. *)
Definition the {S A} (o : option A) : M S A :=
  match o with Some a => mret a | None => undefined end.
(** [try { m } catch (const std::exception& e) { handler e }]; a handler that
    stands for several [catch] clauses rethrows what none of them catches. *)
Definition try_catch {S A} (m : M S A) (handler : Exception -> M S A) : M S A := fun s =>
  match m s with
  | (Throw e, s') => handler e s'
  | r => r
  end.
(** [try { m } catch (...) { handler; throw; }] *)
Definition on_exception {S A} (m : M S A) (handler : M S unit) : M S A := fun s =>
  match m s with
  | (Throw e, s') => (handler ;; throw e) s'
  | r => r
  end.

Lemma bind_return {S A B} (m : M S A) (f : A -> M S B) s a s' :
  m s = (Return a, s') -> (m ≫= f) s = f a s'.
Proof. unfold mbind, M_bind. by intros ->. Qed.
Lemma bind_throw {S A B} (m : M S A) (f : A -> M S B) s e s' :
  m s = (Throw e, s') -> (m ≫= f) s = (Throw e, s').
Proof. unfold mbind, M_bind. by intros ->. Qed.

Lemma on_exception_return {S A} (m : M S A) h s a s' :
  m s = (Return a, s') -> on_exception m h s = (Return a, s').
Proof. unfold on_exception. by intros ->. Qed.
Lemma on_exception_throw {S A} (m : M S A) h s e s1 s2 :
  m s = (Throw e, s1) -> h s1 = (Return tt, s2) -> on_exception m h s = (Throw e, s2).
Proof. unfold on_exception, mbind, M_bind. by intros -> ->. Qed.

(** ** Weakest preconditions

    [wp m Q E s]: run from [s], the computation [m] has no undefined
    behaviour; if it returns [a] in state [s'] then [Q a s'] holds, if an
    exception [e] leaves it then [E (Some e) s'], and if it runs out of fuel
    then [E None s']. *)
Definition wp {S A} (m : M S A) (Q : A -> S -> Prop) (E : option Exception -> S -> Prop)
    (s : S) : Prop :=
  match m s with
  | (Return a, s') => Q a s'
  | (Throw e, s') => E (Some e) s'
  | (Undefined, _) => False
  | (OutOfFuel, s') => E None s'
  end.

Section WP.
Context {S : Type}.
Implicit Types (s : S) (E : option Exception -> S -> Prop).

Lemma wp_ret {A} (a : A) Q E s : Q a s -> wp (mret a : M S A) Q E s.
Proof. done. Qed.

Lemma wp_bind {A B} (m : M S A) (f : A -> M S B) Q E s :
  wp m (fun a => wp (f a) Q E) E s -> wp (m ≫= f) Q E s.
Proof. unfold wp, mbind, M_bind. by destruct (m s) as [[]]. Qed.

Lemma wp_mono {A} (m : M S A) (Q Q' : A -> S -> Prop) E E' s :
  wp m Q E s ->
  (forall a s', Q a s' -> Q' a s') -> (forall o s', E o s' -> E' o s') ->
  wp m Q' E' s.
Proof. unfold wp. destruct (m s) as [[]]; auto. Qed.

(** The rule of consequence, for a call whose specification is [H]. *)
Lemma wp_call {A B} (m : M S A) (f : A -> M S B) (Q1 : A -> S -> Prop) E1 Q E s :
  wp m Q1 E1 s ->
  (forall a s', Q1 a s' -> wp (f a) Q E s') -> (forall o s', E1 o s' -> E o s') ->
  wp (m ≫= f) Q E s.
Proof. intros Hm HQ HE. apply wp_bind. eapply wp_mono; [exact Hm|exact HQ|exact HE]. Qed.

(** A call whose outcome is known. *)
(** The run itself is known in the postcondition. *)
Lemma wp_remember {A} (m : M S A) Q E s :
  wp m Q E s -> wp m (fun a s' => m s = (Return a, s') /\ Q a s') E s.
Proof. unfold wp. by destruct (m s) as [[]]. Qed.

Lemma wp_known {A B} (m : M S A) (f : A -> M S B) a s' Q E s :
  m s = (Return a, s') -> wp (f a) Q E s' -> wp (m ≫= f) Q E s.
Proof. intros Hm Hf. apply wp_bind. unfold wp. by rewrite Hm. Qed.

Lemma wp_gets {A} (f : S -> A) Q E s : Q (f s) s -> wp (gets f) Q E s.
Proof. done. Qed.
Lemma wp_modify (f : S -> S) Q E s : Q tt (f s) -> wp (modify f) Q E s.
Proof. done. Qed.
Lemma wp_throw {A} e (Q : A -> S -> Prop) E s : E (Some e) s -> wp (throw e) Q E s.
Proof. done. Qed.
Lemma wp_out_of_fuel {A} (Q : A -> S -> Prop) E s : E None s -> wp out_of_fuel Q E s.
Proof. done. Qed.
Lemma wp_the {A} (o : option A) a Q E s : o = Some a -> Q a s -> wp (the o) Q E s.
Proof. by intros ->. Qed.

(** The handler runs for exceptions only, and does not replace the exception. *)
Lemma wp_on_exception {A} (m : M S A) h Q E s :
  wp m Q (fun o s' => match o with
                      | Some e => wp h (fun _ => E (Some e)) E s'
                      | None => E None s' end) s ->
  wp (on_exception m h) Q E s.
Proof.
  unfold wp, on_exception, mbind, M_bind, throw.
  destruct (m s) as [[] s']; try done. intros H. by destruct (h s') as [[]].
Qed.

(** What a [wp] says of a run. *)
Lemma wp_try_catch {A} (m : M S A) h Q E s :
  wp m Q (fun o s' => match o with
                      | Some e => wp (h e) Q E s'
                      | None => E None s'
                      end) s ->
  wp (try_catch m h) Q E s.
Proof. unfold wp, try_catch. by destruct (m s) as [[]]. Qed.

Lemma wp_run {A} (m : M S A) Q E s r s' :
  wp m Q E s -> m s = (r, s') ->
  match r with
  | Return a => Q a s' | Throw e => E (Some e) s' | OutOfFuel => E None s'
  | Undefined => False
  end.
Proof. unfold wp. intros H Heq. by rewrite Heq in H. Qed.
End WP.

(** One step of a proof about a straight-line program. *)
Ltac wp_step :=
  lazymatch goal with
  | |- wp (mbind _ _) _ _ _ => apply wp_bind
  | |- wp (mret _) _ _ _ => apply wp_ret
  | |- wp (gets _) _ _ _ => apply wp_gets
  | |- wp (modify _) _ _ _ => apply wp_modify
  | |- wp (throw _) _ _ _ => apply wp_throw
  | |- wp out_of_fuel _ _ _ => apply wp_out_of_fuel
  | |- wp (match ?x with _ => _ end) _ _ _ => destruct x eqn:?
  end.
Ltac wp_steps := repeat wp_step.

(** ** Big-endian byte strings *)

(** [lia] with divisions and remainders by constants. *)
Ltac div_lia := change (2 ^ 8) with 256 in *; Z.div_mod_to_equations; lia.

(** [be_bytes n z]: the [n] low bytes of [z], most significant first;
    [be_value l]: the number a byte string denotes. *)
Fixpoint be_bytes (n : nat) (z : Z) : list Z :=
  match n with
  | O => []
  | S n' => be_bytes n' (z / 2 ^ 8) ++ [z mod 2 ^ 8]
  end.

Definition be_value (l : list Z) : Z := foldl (fun acc b => acc * 2 ^ 8 + b) 0 l.

Lemma be_value_snoc l b : be_value (l ++ [b]) = be_value l * 2 ^ 8 + b.
Proof. unfold be_value. by rewrite foldl_app. Qed.

Lemma length_be_bytes n z : length (be_bytes n z) = n.
Proof. revert z; induction n as [|n IH]; intros z; simpl; [done|]. rewrite length_app, IH. simpl. lia. Qed.

Lemma len_be_bytes n z : len (be_bytes n z) = Z.of_nat n.
Proof. unfold len. by rewrite length_be_bytes. Qed.

Lemma be_bytes_is_u8 n z : Forall is_u8 (be_bytes n z).
Proof.
  revert z; induction n as [|n IH]; intros z; simpl; [done|].
  apply Forall_app_2; [done|]. apply Forall_singleton. apply Z.mod_pos_bound. lia.
Qed.

Lemma be_value_be_bytes n z :
  0 <= z < 2 ^ (8 * Z.of_nat n) -> be_value (be_bytes n z) = z.
Proof.
  revert z; induction n as [|n IH]; intros z Hz; simpl.
  { change (2 ^ _) with 1 in Hz. cbn. lia. }
  rewrite be_value_snoc, IH; [div_lia|].
  replace (8 * Z.of_nat (S n)) with (8 * Z.of_nat n + 8) in Hz by lia.
  rewrite Z.pow_add_r in Hz by lia. div_lia.
Qed.

Lemma be_bytes_be_value l : Forall is_u8 l -> be_bytes (length l) (be_value l) = l.
Proof.
  induction l as [|b l IH] using rev_ind; [done|].
  intros [Hl Hb]%Forall_app. pose proof (Forall_inv Hb) as Hb'. unfold is_u8 in Hb'.
  rewrite length_app, Nat.add_comm, be_value_snoc. simpl.
  f_equal; [|f_equal; div_lia]. 
  transitivity (be_bytes (length l) (be_value l)); [f_equal; div_lia|auto].
Qed.

Lemma be_value_bound l :
  Forall is_u8 l -> 0 <= be_value l < 2 ^ (8 * len l).
Proof.
  induction l as [|b l IH] using rev_ind; [done|].
  intros [Hl Hb%Forall_inv]%Forall_app. unfold is_u8 in Hb. specialize (IH Hl).
  rewrite be_value_snoc, len_app, Z.mul_add_distr_l, Z.pow_add_r by len_lia.
  change (2 ^ (8 * len [b])) with (2 ^ 8). lia.
Qed.

(** One more byte of a big-endian read: [v] shifted left past the byte, [|] the
    byte. *)
Lemma lor_be v b e1 e2 :
  0 <= e2 -> e1 = e2 + 8 -> is_u8 b ->
  Z.lor (v * 2 ^ e1) (b * 2 ^ e2) = (v * 2 ^ 8 + b) * 2 ^ e2.
Proof.
  intros He -> Hb. unfold is_u8 in Hb.
  rewrite <- Z.shiftl_mul_pow2 by lia. rewrite lor_shiftl_add; [|lia|].
  - rewrite Z.pow_add_r by lia. ring.
  - rewrite Z.pow_add_r by lia. split; [lia|]. rewrite (Z.mul_comm (2 ^ e2)).
    apply Z.mul_lt_mono_pos_r; lia.
Qed.
#[export] Hint Rewrite @len_be_bytes : pulse_rw.
#[export] Hint Resolve be_bytes_is_u8 : pulse.
