(* ===== verification/Os.v ===== *)
(** * The operating system interface

    The system calls the program makes.  The kernel is not part of the
    repository: it is a parameter, an oracle that answers every call as an
    arbitrary function of the history of all the calls made so far.  [OSLaws]
    are the documented bounds on the answers that the program relies on. *)

From S2P Require Import Prelude.

(** ** Error numbers (Linux) *)

Definition ENOENT : Z := 2.
Definition EINTR : Z := 4.
Definition EAGAIN : Z := 11.
Definition EWOULDBLOCK : Z := 11.
Definition EMFILE : Z := 24.
Definition EPIPE : Z := 32.
Definition ECONNRESET : Z := 104.

Definition O_NONBLOCK : Z := 0x800.

(** The result of a call: a value, or -1 with [errno]. *)
Inductive IoResult (A : Type) : Type :=
| IoOk (a : A)
| IoErr (errno : Z).
Arguments IoOk {A} a.
Arguments IoErr {A} errno.

(** ** Epoll data *)

Definition EPOLLIN : Z := 0x001.
Definition EPOLLOUT : Z := 0x004.
Definition EPOLLERR : Z := 0x008.
Definition EPOLLHUP : Z := 0x010.
Definition EPOLLRDHUP : Z := 0x2000.

Inductive EpollOp : Type := EPOLL_CTL_ADD | EPOLL_CTL_DEL | EPOLL_CTL_MOD.

(** [struct epoll_event]; [key] is [data.u64]. *)
Record EpollEvent : Type := { events : Z; key : Z }.

#[export] Instance EpollOp_eq_dec : EqDecision EpollOp.
Proof. solve_decision. Defined.
#[export] Instance EpollEvent_eq_dec : EqDecision EpollEvent.
Proof. solve_decision. Defined.

(** ** Addresses

    The fields of [struct sockaddr_in], in network byte order where the C types
    are; the host is little-endian. *)
Definition htons (x : Z) : Z := u16 (Z.lor (Z.shiftl x 8) (Z.shiftr x 8)).
Definition ntohs (x : Z) : Z := htons x.
Definition htonl (x : Z) : Z :=
  Z.lor (Z.shiftl (htons (Z.land x 0xFFFF)) 16) (htons (Z.shiftr x 16)).

Definition AF_INET : Z := 2.
Definition INADDR_LOOPBACK : Z := 0x7F000001.

Record sockaddr_in : Type := { sin_family : Z; sin_port : Z; sin_addr : Z }.

#[export] Instance sockaddr_in_eq_dec : EqDecision sockaddr_in.
Proof. solve_decision. Defined.

Lemma htons_swaps x : is_u16 x -> htons x = x mod 2 ^ 8 * 2 ^ 8 + x / 2 ^ 8.
Proof.
  unfold is_u16, htons, u16. intros Hx. rewrite lor_shiftl_add by (rewrite ?Z.shiftr_div_pow2 by lia; div_lia).
  rewrite Z.shiftr_div_pow2 by lia. change (2 ^ 16) with 65536 in *. div_lia.
Qed.

Lemma ntohs_htons port : is_u16 port -> ntohs (htons port) = port.
Proof.
  intros Hp. unfold ntohs. unfold is_u16 in Hp. rewrite (htons_swaps port) by done.
  rewrite htons_swaps by (unfold is_u16; change (2 ^ 16) with 65536 in *; div_lia). div_lia.
Qed.

(** ** Calls that set a server up

    [socket], [setsockopt(SO_REUSEADDR)], [bind], [listen], [getsockname] (the
    answer is [sin_port]), [epoll_create1], [eventfd], [signalfd], [sigemptyset],
    [sigaddset], [pthread_sigmask] (it answers with the error instead of setting
    [errno]) and the creation of a thread.  A signal set is a [gset Z]. *)
Inductive SetupCall : Type :=
| CallSocket | CallReuseAddress (fd : Z) | CallBind (fd : Z) (address : sockaddr_in)
| CallListen (fd backlog : Z) | CallGetsockname (fd : Z)
| CallEpollCreate | CallEventfd | CallSignalfd (signals : gset Z)
| CallSigemptyset | CallSigaddset (signal : Z)
| CallSigBlock (signals : gset Z) | CallSigSetmask (mask : gset Z)
| CallStartThread (i : nat).

(** The calls that create a descriptor. *)
Definition creates (c : SetupCall) : bool :=
  match c with CallSocket | CallEpollCreate | CallEventfd | CallSignalfd _ => true | _ => false end.

(** ** Histories

    One event per system call, with its answer.  [owner] in the socket events
    is an annotation of the model: the connection the call is made for. *)
Inductive SysEvent : Type :=
| EvRecv (owner fd size : Z) (r : IoResult (list Z))
| EvSend (owner fd : Z) (bytes : list Z) (r : IoResult Z)
| EvClose (fd : Z)
| EvGetFlags (fd : Z) (r : IoResult Z)
| EvSetFlags (fd flags : Z) (r : IoResult unit)
| EvAccept (listener : Z) (r : IoResult Z)
| EvEpollCtl (op : EpollOp) (fd : Z) (event : option EpollEvent) (r : IoResult unit)
| EvEpollWait (r : IoResult (list EpollEvent))
| EvReadCounter (fd : Z) (r : IoResult Z)
| EvWriteCounter (fd : Z) (r : IoResult Z)
| EvReadSignal (fd : Z) (r : IoResult Z)
| EvConnect (fd : Z) (address : sockaddr_in) (r : IoResult unit)
| EvSetup (call : SetupCall) (r : IoResult Z)
| EvYield.   (** a point of the model at which other threads of the program run *)

Definition History : Type := list SysEvent.

(** The kernel.  Sizes and counts are the values of [ssize_t] results. *)
Class OS : Type := {
  os_recv : History -> Z -> Z -> IoResult (list Z);
  os_send : History -> Z -> list Z -> IoResult Z;
  os_fcntl_getfl : History -> Z -> IoResult Z;
  os_fcntl_setfl : History -> Z -> Z -> IoResult unit;
  os_accept : History -> Z -> IoResult Z;
  os_epoll_ctl : History -> EpollOp -> Z -> option EpollEvent -> IoResult unit;
  os_epoll_wait : History -> Z -> IoResult (list EpollEvent);
  os_read_counter : History -> Z -> IoResult Z;
  os_write_counter : History -> Z -> IoResult Z;
  os_read_signal : History -> Z -> IoResult Z;
  os_connect : History -> Z -> sockaddr_in -> IoResult unit;
  os_setup : History -> SetupCall -> IoResult Z;
}.

(** [recv] returns at most the bytes asked for, [send] accepts at most the
    bytes offered, a descriptor is not negative, [epoll_wait] returns at most
    the number of events asked for. *)
Class OSLaws (O : OS) : Prop := {
  recv_bytes h fd n bs : os_recv h fd n = IoOk bs -> Forall is_u8 bs;
  recv_len h fd n bs : 0 < n -> os_recv h fd n = IoOk bs -> len bs <= n;
  send_len h fd bytes k : os_send h fd bytes = IoOk k -> 0 <= k <= len bytes;
  accept_fd h fd client : os_accept h fd = IoOk client -> 0 <= client;
}.

(** ** Interrupted calls *)

Definition interrupted {A} (r : IoResult A) : bool :=
  match r with IoErr e => bool_decide (e = EINTR) | IoOk _ => false end.

Definition is_interrupt (e : SysEvent) : bool :=
  match e with
  | EvRecv _ _ _ r => interrupted r
  | EvSend _ _ _ r => interrupted r
  | EvAccept _ r => interrupted r
  | EvEpollWait r => interrupted r
  | EvReadCounter _ r => interrupted r
  | EvWriteCounter _ r => interrupted r
  | EvReadSignal _ r => interrupted r
  | EvConnect _ _ r => interrupted r
  | _ => false
  end.

Definition interrupts (h : History) : nat := length (List.filter is_interrupt h).

(** At most [n] calls of a run are interrupted by a signal. *)
Class FewInterrupts (O : OS) (n : nat) : Prop := {
  few_recv h fd k : (n <= interrupts h)%nat -> interrupted (os_recv h fd k) = false;
  few_send h fd bs : (n <= interrupts h)%nat -> interrupted (os_send h fd bs) = false;
  few_write_counter h fd : (n <= interrupts h)%nat -> interrupted (os_write_counter h fd) = false;
  few_accept h fd : (n <= interrupts h)%nat -> interrupted (os_accept h fd) = false;
  few_connect h fd address : (n <= interrupts h)%nat -> interrupted (os_connect h fd address) = false;
}.

(** ** Computations that make system calls on behalf of an object *)

Record St (X : Type) : Type := mkSt { self : X; hist : History }.
Arguments mkSt {X} self hist.
Arguments self {X} s.
Arguments hist {X} s.

Definition get_self {X} : M (St X) X := gets self.
Definition put_self {X} (x : X) : M (St X) unit := modify (fun s => mkSt x (hist s)).

Definition syscall {X R} (answer : History -> R) (event : R -> SysEvent) : M (St X) R :=
  fun s => let r := answer (hist s) in
           (Return r, mkSt (self s) (hist s ++ [event r])).

Section Calls.
Context `{O : OS} {X : Type}.

Definition recv (owner fd size : Z) : M (St X) (IoResult (list Z)) :=
  syscall (fun h => os_recv h fd size) (EvRecv owner fd size).
Definition send (owner fd : Z) (bytes : list Z) : M (St X) (IoResult Z) :=
  syscall (fun h => os_send h fd bytes) (EvSend owner fd bytes).
Definition close (fd : Z) : M (St X) unit :=
  syscall (fun _ => tt) (fun _ => EvClose fd).
Definition fcntl_getfl (fd : Z) : M (St X) (IoResult Z) :=
  syscall (fun h => os_fcntl_getfl h fd) (EvGetFlags fd).
Definition fcntl_setfl (fd flags : Z) : M (St X) (IoResult unit) :=
  syscall (fun h => os_fcntl_setfl h fd flags) (EvSetFlags fd flags).
Definition accept4 (listener : Z) : M (St X) (IoResult Z) :=
  syscall (fun h => os_accept h listener) (EvAccept listener).
Definition epoll_ctl (op : EpollOp) (fd : Z) (event : option EpollEvent) :
    M (St X) (IoResult unit) :=
  syscall (fun h => os_epoll_ctl h op fd event) (EvEpollCtl op fd event).
Definition epoll_wait (max_events : Z) : M (St X) (IoResult (list EpollEvent)) :=
  syscall (fun h => os_epoll_wait h max_events) EvEpollWait.
Definition read_counter (fd : Z) : M (St X) (IoResult Z) :=
  syscall (fun h => os_read_counter h fd) (EvReadCounter fd).
Definition write_counter (fd : Z) : M (St X) (IoResult Z) :=
  syscall (fun h => os_write_counter h fd) (EvWriteCounter fd).
Definition read_signal (fd : Z) : M (St X) (IoResult Z) :=
  syscall (fun h => os_read_signal h fd) (EvReadSignal fd).
Definition setup (c : SetupCall) : M (St X) (IoResult Z) :=
  syscall (fun h => os_setup h c) (EvSetup c).

(** A call with the error handling of [ThrowLastError]. *)
Definition setup_or_throw (c : SetupCall) (operation : string) : M (St X) Z :=
  r ← setup c;
  match r with
  | IoErr e => throw (SyscallRuntimeError operation e)
  | IoOk v => mret v
  end.
End Calls.

(** Runs a method of a part of an object: [get] finds the part, [set] puts it
    back.  If the part is not there the access is undefined behaviour. *)
Definition zoom {X Y A} (get : X -> option Y) (set : Y -> X -> X)
    (m : M (St Y) A) : M (St X) A := fun s =>
  match get (self s) with
  | None => (Undefined, s)
  | Some y =>
    let '(r, s') := m (mkSt y (hist s)) in
    (r, mkSt (set (self s') (self s)) (hist s'))
  end.

Section Rules.
Context {X : Type}.
Implicit Types (E : option Exception -> St X -> Prop).

Lemma wp_syscall {R} (answer : History -> R) ev Q E s :
  Q (answer (hist s)) (mkSt (self s) (hist s ++ [ev (answer (hist s))])) ->
  wp (syscall answer ev) Q E s.
Proof. done. Qed.

Lemma wp_get_self Q E s : Q (self s) s -> wp get_self Q E s.
Proof. done. Qed.
Lemma wp_put_self x Q E s : Q tt (mkSt x (hist s)) -> wp (put_self x) Q E s.
Proof. done. Qed.

Lemma wp_zoom {Y A} (get : X -> option Y) set (m : M (St Y) A) Q E s y :
  get (self s) = Some y ->
  wp m (fun a (s' : St Y) => Q a (mkSt (set (self s') (self s)) (hist s')))
       (fun o (s' : St Y) => E o (mkSt (set (self s') (self s)) (hist s'))) (mkSt y (hist s)) ->
  wp (zoom get set m) Q E s.
Proof. unfold wp, zoom. intros ->. by destruct (m _) as [[] s']. Qed.
End Rules.

(** ** Logs: what a history says happened *)

Definition last_call (h : History) : option SysEvent := list.last h.

Lemma last_call_snoc h e : last_call (h ++ [e]) = Some e.
Proof. apply last_snoc. Qed.

Lemma last_call_app h h' e : last_call (h ++ h') = Some e -> last_call h' = Some e \/ (h' = [] /\ last_call h = Some e).
Proof.
  unfold last_call. intros [H|[H1%last_None H]]%last_app_Some; [by left|by right].
Qed.

Definition log {B} (f : SysEvent -> list B) (h : History) : list B := mjoin (f <$> h).

Lemma log_app {B} (f : SysEvent -> list B) h h' : log f (h ++ h') = log f h ++ log f h'.
Proof. unfold log. by rewrite fmap_app, join_app. Qed.
Lemma log_snoc {B} (f : SysEvent -> list B) h e : log f (h ++ [e]) = log f h ++ f e.
Proof. rewrite log_app. unfold log. simpl. by rewrite app_nil_r. Qed.

(** The bytes received and sent for an owner, the descriptors closed. *)
Definition received_of (owner : Z) : History -> list Z :=
  log (fun e => match e with
                | EvRecv o _ _ (IoOk bs) => if bool_decide (o = owner) then bs else []
                | _ => [] end).
Definition sent_of (owner : Z) : History -> list Z :=
  log (fun e => match e with
                | EvSend o _ bytes (IoOk k) =>
                    if bool_decide (o = owner) then ztake k bytes else []
                | _ => [] end).
Definition closed_fds : History -> list Z :=
  log (fun e => match e with EvClose fd => [fd] | _ => [] end).

(** The descriptors created by set-up calls. *)
Definition created_fds : History -> list Z :=
  log (fun e => match e with EvSetup c (IoOk fd) => if creates c then [fd] else [] | _ => [] end).

(** The signal mask of the thread that runs the program, from the one it had. *)
Definition mask_step (m : gset Z) (e : SysEvent) : gset Z :=
  match e with
  | EvSetup (CallSigBlock s) (IoOk _) => m ∪ s
  | EvSetup (CallSigSetmask s) (IoOk _) => s
  | _ => m
  end.
Definition signal_mask (initial : gset Z) (h : History) : gset Z := foldl mask_step initial h.

(** What a history says of a descriptor: is it an accepted socket that is still
    open, and what does the epoll instance watch it for ([close] ends that). *)
Definition is_open (fd : Z) : History -> bool :=
  foldl (fun b e => match e with
    | EvAccept _ (IoOk f) => if bool_decide (f = fd) then true else b
    | EvClose f => if bool_decide (f = fd) then false else b
    | _ => b end) false.

Definition interest (fd : Z) : History -> option EpollEvent :=
  foldl (fun i e => match e with
    | EvEpollCtl EPOLL_CTL_DEL f _ (IoOk _) | EvClose f => if bool_decide (f = fd) then None else i
    | EvEpollCtl _ f ev (IoOk _) => if bool_decide (f = fd) then ev else i
    | _ => i end) None.

(** [accept] returns a new descriptor: it is not open, and not watched;
    [EPOLL_CTL_DEL] fails with [ENOENT] only for a descriptor that is not
    watched. *)
Class EpollLaws (O : OS) : Prop := {
  accept_fresh h l fd : os_accept h l = IoOk fd -> is_open fd h = false /\ interest fd h = None;
  del_enoent h fd : os_epoll_ctl h EPOLL_CTL_DEL fd None = IoErr ENOENT -> interest fd h = None;
}.

(** A created descriptor is not one that is still open; restoring a signal mask
    does not fail. *)
Class SetupLaws (O : OS) : Prop := {
  setmask_ok h mask : exists v, os_setup h (CallSigSetmask mask) = IoOk v;
  setup_fresh h c fd : creates c = true -> os_setup h c = IoOk fd ->
    0 <= fd /\ (fd ∈ created_fds h -> fd ∈ closed_fds h);
}.

(** All the bytes received in a history, whoever they are for. *)
Definition all_received : History -> list Z :=
  log (fun e => match e with EvRecv _ _ _ (IoOk bs) => bs | _ => [] end).

Lemma log_none {B} (f : SysEvent -> list B) h : Forall (fun e => f e = []) h -> log f h = [].
Proof. unfold log. induction 1 as [|e h He _ IH]; [done|]. simpl. by rewrite He. Qed.

Lemma received_of_le o h : len (received_of o h) <= len (all_received h).
Proof.
  induction h as [|e h IH] using rev_ind; [done|].
  unfold received_of, all_received in *. rewrite !log_snoc, !len_app.
  destruct e as [o' fd size [bs|err]| | | | | | | | | | | | |]; try lia.
  case_bool_decide; [lia|]. pose proof (len_nonneg bs). rewrite len_nil. lia.
Qed.

(** A run receives fewer than 2^64 bytes in all (16 EiB). *)
Class ShortRun (O : OS) : Prop := {
  short_run h fd n bs : os_recv h fd n = IoOk bs -> len (all_received h) + len bs < 2 ^ 64;
}.

Lemma interrupts_app h h' : interrupts (h ++ h') = (interrupts h + interrupts h')%nat.
Proof. unfold interrupts. by rewrite List.filter_app, length_app. Qed.

Lemma interrupts_snoc h e :
  interrupts (h ++ [e]) = (interrupts h + if is_interrupt e then 1 else 0)%nat.
Proof.
  unfold interrupts. rewrite List.filter_app, length_app. f_equal. simpl.
  by destruct (is_interrupt e).
Qed.
