(* ===== verification/Scripted.v ===== *)
(** * A scripted kernel

    An instance of [OS] that answers from lists and obeys the laws whatever the
    lists are: the witnesses of the theorems about system calls run on it. *)

From S2P Require Import Prelude Os.

Record Script : Type := {
  script_interrupts : nat;                     (** at most this many [EINTR]s *)
  script_recv : list (IoResult (list Z));
  script_send : list (IoResult Z);
  script_accept : list (IoResult Z);
  script_wait : list (IoResult (list EpollEvent));
  script_setup : list (IoResult Z);
}.

(** The answer number [k] of a script; interruptions only while allowed. *)
Definition answer {A} (allowed : nat) (script : list (IoResult A)) (default : IoResult A)
    (k : nat) (h : History) : IoResult A :=
  match script !! k with
  | Some (IoErr e) =>
      if (e =? EINTR) && (allowed <=? interrupts h)%nat then IoErr EAGAIN else IoErr e
  | Some r => r
  | None => default
  end.

Definition calls (f : SysEvent -> bool) (h : History) : nat := length (List.filter f h).

Definition scripted_recv (sc : Script) (h : History) (fd n : Z) : IoResult (list Z) :=
  let k := calls (fun e => match e with EvRecv _ _ _ _ => true | _ => false end) h in
  match answer (script_interrupts sc) (script_recv sc) (IoErr EAGAIN) k h with
  | IoOk bs =>
    let bs := u8 <$> ztake n bs in
    if len (all_received h) + len bs <? 2 ^ 64 then IoOk bs else IoErr EAGAIN
  | r => r
  end.

Definition scripted_send (sc : Script) (h : History) (fd : Z) (bytes : list Z) : IoResult Z :=
  let k := calls (fun e => match e with EvSend _ _ _ _ => true | _ => false end) h in
  match answer (script_interrupts sc) (script_send sc) (IoOk (len bytes)) k h with
  | IoOk n => IoOk (Z.max 0 (Z.min n (len bytes)))
  | r => r
  end.

Definition scripted_accept (sc : Script) (h : History) (fd : Z) : IoResult Z :=
  let k := calls (fun e => match e with EvAccept _ _ => true | _ => false end) h in
  match answer (script_interrupts sc) (script_accept sc) (IoErr EAGAIN) k h with
  | IoOk client => if (client <? 0) || is_open client h || bool_decide (interest client h <> None)
    then IoErr EAGAIN else IoOk client
  | r => r
  end.

Definition scripted_wait (sc : Script) (h : History) (max : Z) : IoResult (list EpollEvent) :=
  let k := calls (fun e => match e with EvEpollWait _ => true | _ => false end) h in
  match answer (script_interrupts sc) (script_wait sc) (IoOk []) k h with
  | IoOk evs => IoOk (ztake max evs)
  | r => r
  end.

(** Set-up calls succeed beyond the script; descriptors are numbered from 3. *)
Definition scripted_setup (sc : Script) (h : History) (c : SetupCall) : IoResult Z :=
  let k := calls (fun e => match e with EvSetup _ _ => true | _ => false end) h in
  match c with CallSigSetmask _ => IoOk 0 | _ =>
  match default (IoOk (3 + len (created_fds h))) (script_setup sc !! k) with
  | IoErr e => IoErr e
  | IoOk v =>
    if creates c && ((v <? 0) || bool_decide (v ∈ created_fds h)) then IoErr EMFILE else IoOk v
  end end.

Definition scripted (sc : Script) : OS := {|
  os_recv := scripted_recv sc;
  os_send := scripted_send sc;
  os_fcntl_getfl := fun _ _ => IoOk O_NONBLOCK;
  os_fcntl_setfl := fun _ _ _ => IoOk tt;
  os_accept := scripted_accept sc;
  os_epoll_ctl := fun _ _ _ _ => IoOk tt;
  os_epoll_wait := scripted_wait sc;
  os_read_counter := fun _ _ => IoErr EAGAIN;
  os_write_counter := fun _ _ => IoOk 8;
  os_read_signal := fun _ _ => IoErr EAGAIN;
  os_connect := fun _ _ _ => IoOk tt;
  os_setup := scripted_setup sc;
|}.

#[export] Instance scripted_laws sc : OSLaws (scripted sc).
Proof.
  split.
  - intros h fd n bs. simpl. unfold scripted_recv. destruct (answer _ _ _ _ _); [|done].
    destruct (_ <? _); [|done]. intros [= <-]. apply Forall_fmap, Forall_true.
    intros b. apply is_u8_u8.
  - intros h fd n bs Hn. simpl. unfold scripted_recv. destruct (answer _ _ _ _ _); [|done].
    destruct (_ <? _); [|done]. intros [= <-]. unfold len, ztake.
    rewrite length_fmap, length_take. lia.
  - intros h fd bytes k. simpl. unfold scripted_send. destruct (answer _ _ _ _ _); [|done].
    intros [= <-]. pose proof (len_nonneg bytes). lia.
  - intros h fd client. simpl. unfold scripted_accept. destruct (answer _ _ _ _ _); [|done].
    destruct (Z.ltb_spec a 0); [done|]. destruct (is_open a h); [done|].
    destruct (bool_decide _); [done|]. by intros [= <-].
Qed.

#[export] Instance scripted_short sc : ShortRun (scripted sc).
Proof.
  split. intros h fd n bs. simpl. unfold scripted_recv. destruct (answer _ _ _ _ _); [|done].
  destruct (Z.ltb_spec (len (all_received h) + len (u8 <$> ztake n a)) (2 ^ 64)); [|done].
  by intros [= <-].
Qed.

Lemma answer_interrupted {A} allowed (script : list (IoResult A)) d k h :
  interrupted d = false -> (allowed <= interrupts h)%nat ->
  interrupted (answer allowed script d k h) = false.
Proof.
  intros Hd Hle. unfold answer. destruct (script !! k) as [[a|e]|]; [done| |done].
  rewrite (proj2 (Nat.leb_le _ _) Hle), andb_true_r.
  destruct (Z.eqb_spec e EINTR); simpl; [done|]. by apply bool_decide_eq_false.
Qed.

#[export] Instance scripted_few sc : FewInterrupts (scripted sc) (script_interrupts sc).
Proof.
  split; [intros h fd x Hle|intros h fd x Hle|done|intros h fd Hle|done];
    simpl; unfold scripted_recv, scripted_send, scripted_accept.
  - pose proof (answer_interrupted (script_interrupts sc) (script_recv sc) (IoErr EAGAIN)
      (calls (fun e => match e with EvRecv _ _ _ _ => true | _ => false end) h) h eq_refl Hle) as H.
    destruct (answer _ _ _ _ _); [|done]. by destruct (_ <? _).
  - pose proof (answer_interrupted (script_interrupts sc) (script_send sc) (IoOk (len x))
      (calls (fun e => match e with EvSend _ _ _ _ => true | _ => false end) h) h eq_refl Hle) as H.
    by destruct (answer _ _ _ _ _).
  - pose proof (answer_interrupted (script_interrupts sc) (script_accept sc) (IoErr EAGAIN)
      (calls (fun e => match e with EvAccept _ _ => true | _ => false end) h) h eq_refl Hle) as H.
    destruct (answer _ _ _ _ _); [|done]. by destruct (_ || _).
Qed.

#[export] Instance scripted_setup_laws sc : SetupLaws (scripted sc).
Proof.
  split; [by eexists|]. intros h c fd Hc. simpl. unfold scripted_setup. rewrite Hc.
  destruct c; try done; simpl;
    (destruct (default _ _) as [v|]; [|done]); (destruct (Z.ltb_spec v 0); [done|]); simpl;
    (case_bool_decide; [done|]); by intros [= <-].
Qed.

#[export] Instance scripted_epoll sc : EpollLaws (scripted sc).
Proof.
  split; [|done]. intros h l fd. simpl. unfold scripted_accept.
  destruct (answer _ _ _ _ _) as [a|]; [|done].
  destruct (a <? 0); [done|]. destruct (is_open a h) eqn:Ho; [done|]. simpl.
  case_bool_decide as Hi; [done|]. intros [= <-]. split; [done|].
  destruct (interest a h); [|done]. by destruct Hi.
Qed.
