(* ===== verification/UniqueFd.v ===== *)
(** * Owning file descriptors

    [include/pulsecore/common/unique_fd.hpp], [src/common/unique_fd.cpp]. *)

From S2P Require Import Prelude Os.
From Stdlib Require Import Permutation.

Definition kInvalidFd : Z := -1.

Record UniqueFd : Type := { fd_ : Z }.

#[export] Instance UniqueFd_eq_dec : EqDecision UniqueFd.
Proof. solve_decision. Defined.

(** ** The class *)

Definition UniqueFd_default : UniqueFd := {| fd_ := kInvalidFd |}.
Definition UniqueFd_make (fd : Z) : UniqueFd := {| fd_ := fd |}.

Definition UniqueFd_get (u : UniqueFd) : Z := fd_ u.
Definition UniqueFd_is_valid (u : UniqueFd) : bool := negb (fd_ u =? kInvalidFd).

(** [std::exchange(fd_, kInvalidFd)]: the old value and the emptied object. *)
Definition UniqueFd_release (u : UniqueFd) : Z * UniqueFd := (fd_ u, UniqueFd_default).

Definition UniqueFd_reset (fd : Z) : M (St UniqueFd) unit :=
  this ← get_self;
  if fd_ this =? fd then mret tt else
  (if negb (fd_ this =? kInvalidFd) then close (fd_ this) else mret tt) ;;
  put_self {| fd_ := fd |}.

(** The destructor of an object that goes out of scope. *)
Definition UniqueFd_destroy {X} (u : UniqueFd) : M (St X) unit := fun s =>
  let '(r, s') := UniqueFd_reset kInvalidFd (mkSt u (hist s)) in
  (r, mkSt (self s) (hist s')).

(** A local or a member that has been built is destroyed when an exception
    leaves what follows. *)
Definition holding {X A} (fd : UniqueFd) (m : M (St X) A) : M (St X) A :=
  on_exception m (UniqueFd_destroy fd).

(** ** Objects in memory

    Move construction and assignment work on two objects that may be the same
    one: the model has a store of objects by address. *)
Abbreviation Objects := (gmap Z UniqueFd).

Definition at_object {A} (this : Z) (m : M (St UniqueFd) A) : M (St Objects) A :=
  zoom (fun o : Objects => o !! this) (fun u o => <[this := u]> o) m.

Definition release_at (this : Z) : M (St Objects) Z :=
  at_object this (u ← get_self; let '(fd, u') := UniqueFd_release u in
                  put_self u' ;; mret fd).

Definition construct_at (this fd : Z) : M (St Objects) unit :=
  o ← get_self; put_self (<[this := UniqueFd_make fd]> o).

Definition UniqueFd_move_construct (this other : Z) : M (St Objects) unit :=
  fd ← release_at other;
  construct_at this fd.

Definition UniqueFd_move_assign (this other : Z) : M (St Objects) unit :=
  if negb (this =? other) then
    fd ← release_at other;
    at_object this (UniqueFd_reset fd)
  else mret tt.

Definition destroy_at (this : Z) : M (St Objects) unit :=
  at_object this (UniqueFd_reset kInvalidFd) ;;
  o ← get_self; put_self (delete this o).

(** ** A client of the class, with its ledger *)

Inductive FdOp : Type :=
| OpConstruct (this fd : Z)
| OpMoveConstruct (this other : Z)
| OpMoveAssign (this other : Z)
| OpReset (this fd : Z)
| OpRelease (this : Z)
| OpDestroy (this : Z).

Definition fd_op_run (op : FdOp) : M (St Objects) (option Z) :=
  match op with
  | OpConstruct this fd => construct_at this fd ;; mret None
  | OpMoveConstruct this other => UniqueFd_move_construct this other ;; mret None
  | OpMoveAssign this other => UniqueFd_move_assign this other ;; mret None
  | OpReset this fd => at_object this (UniqueFd_reset fd) ;; mret None
  | OpRelease this => fd ← release_at this; mret (Some fd)
  | OpDestroy this => destroy_at this ;; mret None
  end.

(** What the client handed to the class, and what [release] gave back. *)
Record Ledger : Type := { handed : list Z; released : list Z }.

Definition ledger_step (op : FdOp) (r : option Z) (l : Ledger) : Ledger :=
  {| handed := handed l ++ match op with
                           | OpConstruct _ fd | OpReset _ fd => [fd]
                           | _ => [] end;
     released := released l ++ option_list r |}.

Fixpoint fd_run (ops : list FdOp) (s : St Objects) (l : Ledger) : option (St Objects * Ledger) :=
  match ops with
  | [] => Some (s, l)
  | op :: ops =>
    match fd_op_run op s with
    | (Return r, s') => fd_run ops s' (ledger_step op r l)
    | _ => None
    end
  end.

(** What destroying an object does. *)
Definition close_of (fd : UniqueFd) : History :=
  if UniqueFd_is_valid fd then [EvClose (UniqueFd_get fd)] else [].

Lemma UniqueFd_destroy_run {X} u (x : X) h :
  UniqueFd_destroy u (mkSt x h) = (Return tt, mkSt x (h ++ close_of u)).
Proof.
  destruct u as [fd]. unfold close_of, UniqueFd_destroy, UniqueFd_reset, UniqueFd_is_valid, UniqueFd_get.
  unfold get_self, put_self, close, syscall, gets, modify, mbind, M_bind, mret, M_ret. simpl.
  destruct (Z.eqb_spec fd kInvalidFd); simpl; [by rewrite app_nil_r|done].
Qed.

Lemma close_of_valid fd : 0 <= fd -> close_of (UniqueFd_make fd) = [EvClose fd].
Proof.
  intros H. unfold close_of, UniqueFd_is_valid, UniqueFd_make. simpl.
  destruct (Z.eqb_spec fd kInvalidFd); [unfold kInvalidFd in *; lia|done].
Qed.
(** ** Accounting *)

(** How many objects hold [fd]. *)
Definition holders (o : Objects) (fd : Z) : nat :=
  size (filter (fun p => fd_ p.2 = fd) o).

(** The client plays by the rules: it constructs at fresh addresses, uses live
    objects, and hands in descriptors that no object holds. *)
Definition fresh_fd (o : Objects) (fd : Z) : Prop := fd = kInvalidFd \/ holders o fd = 0%nat.

Definition op_ok (o : Objects) (op : FdOp) : Prop :=
  match op with
  | OpConstruct this fd => o !! this = None /\ fresh_fd o fd
  | OpMoveConstruct this other => o !! this = None /\ is_Some (o !! other)
  | OpMoveAssign this other => is_Some (o !! this) /\ is_Some (o !! other)
  | OpReset this fd => is_Some (o !! this) /\ fresh_fd o fd
  | OpRelease this | OpDestroy this => is_Some (o !! this)
  end.

#[export] Instance fresh_fd_dec o fd : Decision (fresh_fd o fd).
Proof. unfold fresh_fd. apply _. Defined.
#[export] Instance op_ok_dec o op : Decision (op_ok o op).
Proof. destruct op; simpl; apply _. Defined.

Fixpoint ops_ok (ops : list FdOp) (s : St Objects) : Prop :=
  match ops with
  | [] => True
  | op :: ops => op_ok (self s) op /\ ops_ok ops (fd_op_run op s).2
  end.

#[export] Instance ops_ok_dec ops s : Decision (ops_ok ops s).
Proof. revert s. induction ops as [|op ops IH]; intros s; simpl; apply _. Defined.

Definition occ (fd : Z) (l : list Z) : nat := count_occ Z.eq_dec l fd.

Lemma occ_app fd l k : occ fd (l ++ k) = (occ fd l + occ fd k)%nat.
Proof. apply count_occ_app. Qed.
Lemma occ_cons fd x l : occ fd (x :: l) = ((if decide (x = fd) then 1 else 0) + occ fd l)%nat.
Proof. unfold occ. simpl. by destruct (Z.eq_dec x fd), (decide (x = fd)). Qed.

(** Every descriptor handed in is held by exactly one object, or was released
    to the client, or closed: as many times as it was handed in. *)
Definition accounted (s : St Objects) (l : Ledger) : Prop :=
  forall fd, fd <> kInvalidFd ->
    (holders (self s) fd <= 1)%nat /\
    occ fd (handed l) =
      (holders (self s) fd + occ fd (released l) + occ fd (closed_fds (hist s)))%nat.

Definition holds (u : UniqueFd) (fd : Z) : nat := if decide (fd_ u = fd) then 1 else 0.

Lemma holders_insert o this u fd :
  o !! this = None -> holders (<[this := u]> o) fd = (holds u fd + holders o fd)%nat.
Proof.
  intros H. unfold holders, holds. rewrite map_filter_insert. simpl. case_decide.
  - rewrite map_size_insert_None; [lia|]. rewrite map_lookup_filter. by rewrite H.
  - by rewrite delete_id.
Qed.

Lemma holders_delete o this u fd :
  o !! this = Some u -> (holds u fd + holders (delete this o) fd)%nat = holders o fd.
Proof.
  intros H. rewrite <- (holders_insert _ this); [|apply lookup_delete_eq].
  by rewrite insert_delete_eq, insert_id.
Qed.

Lemma holders_update o this u u' fd :
  o !! this = Some u ->
  (holders (<[this := u']> o) fd + holds u fd = holders o fd + holds u' fd)%nat.
Proof.
  intros H. rewrite <- (holders_delete o this u fd H), <- insert_delete_eq.
  rewrite holders_insert by apply lookup_delete_eq. lia.
Qed.

(** *** Each operation, on a store that has the objects *)

Lemma reset_at_spec o h this u fd :
  o !! this = Some u ->
  at_object this (UniqueFd_reset fd) (mkSt o h) =
    (Return tt, mkSt (<[this := {| fd_ := fd |}]> o)
       (h ++ if decide (fd_ u = fd \/ fd_ u = kInvalidFd) then [] else [EvClose (fd_ u)])).
Proof.
  intros H. unfold at_object, zoom. simpl. rewrite H.
  unfold UniqueFd_reset, get_self, gets, mbind, M_bind, mret, M_ret. simpl.
  destruct u as [ufd]. simpl. destruct (Z.eqb_spec ufd fd) as [->|].
  - simpl. rewrite decide_True by auto. by rewrite app_nil_r.
  - destruct (Z.eqb_spec ufd kInvalidFd) as [->|]; simpl.
    + rewrite decide_True by auto. by rewrite app_nil_r.
    + rewrite decide_False; [done|]. by intros [].
Qed.

Lemma release_at_spec o h this u :
  o !! this = Some u ->
  release_at this (mkSt o h) =
    (Return (fd_ u), mkSt (<[this := {| fd_ := kInvalidFd |}]> o) h).
Proof. intros H. unfold release_at, at_object, zoom. simpl. by rewrite H. Qed.

Lemma closed_fds_snoc h fd : closed_fds (h ++ [EvClose fd]) = closed_fds h ++ [fd].
Proof. unfold closed_fds. by rewrite log_snoc. Qed.

(** Unfolds the books and leaves arithmetic. *)
Ltac account :=
  unfold holds in *; simpl fd_ in *; simpl handed in *; simpl released in *;
  rewrite ?occ_app, ?occ_cons in *; repeat case_decide; subst;
  rewrite ?app_nil_r, ?closed_fds_snoc, ?occ_app, ?occ_cons in *;
  repeat match goal with |- context [occ ?f []] => change (occ f []) with 0%nat end;
  repeat case_decide; subst; try congruence; try lia; try tauto.

Lemma holders_pos o this u : o !! this = Some u -> (0 < holders o (fd_ u))%nat.
Proof.
  intros H. pose proof (holders_delete o this u (fd_ u) H) as Hd. unfold holds in Hd.
  rewrite decide_True in Hd by done. lia.
Qed.

(** Replacing the descriptor of an object: the old one is closed unless it is
    the new one or there is none. *)
Lemma reset_accounted o h l this u fd :
  o !! this = Some u -> fresh_fd o fd -> accounted (mkSt o h) l ->
  accounted (mkSt (<[this := {| fd_ := fd |}]> o)
     (h ++ if decide (fd_ u = fd \/ fd_ u = kInvalidFd) then [] else [EvClose (fd_ u)]))
    {| handed := handed l ++ [fd]; released := released l |}.
Proof.
  intros H Hfresh Hacc f Hf. destruct (Hacc f Hf) as [H1 H2]. simpl in *.
  pose proof (holders_update o this u {| fd_ := fd |} f H) as Hu.
  pose proof (holders_pos o this u H) as Hpos.
  destruct Hfresh as [->|Hfresh]; [account|].
  assert (fd_ u <> fd) by (intros <-; lia). account.
Qed.

Lemma release_accounted o h l this u :
  o !! this = Some u -> accounted (mkSt o h) l ->
  let o' := <[this := {| fd_ := kInvalidFd |}]> o in
  fresh_fd o' (fd_ u) /\
  accounted (mkSt o' h) {| handed := handed l; released := released l ++ [fd_ u] |}.
Proof.
  intros H Hacc o'. split.
  - destruct (decide (fd_ u = kInvalidFd)) as [|Hne]; [by left|right].
    destruct (Hacc _ Hne) as [H1 _]. simpl in H1.
    pose proof (holders_update o this u {| fd_ := kInvalidFd |} (fd_ u) H) as Hu.
    subst o'. account.
  - intros f Hf. destruct (Hacc f Hf) as [H1 H2]. simpl in *.
    pose proof (holders_update o this u {| fd_ := kInvalidFd |} f H) as Hu.
    subst o'. account.
Qed.

Lemma construct_accounted o h l this fd :
  o !! this = None -> fresh_fd o fd -> accounted (mkSt o h) l ->
  accounted (mkSt (<[this := UniqueFd_make fd]> o) h)
    {| handed := handed l ++ [fd]; released := released l |}.
Proof.
  intros H Hfresh Hacc f Hf. destruct (Hacc f Hf) as [H1 H2]. simpl in *.
  rewrite holders_insert by done. destruct Hfresh as [->|Hfresh]; account.
Qed.

(** A descriptor handed back in after a release: a move. *)
Lemma accounted_cancel s l fd :
  accounted s {| handed := handed l ++ [fd]; released := released l ++ [fd] |} ->
  accounted s l.
Proof.
  intros H f Hf. destruct (H f Hf) as [H1 H2]. simpl in H2.
  rewrite !occ_app in H2. lia.
Qed.

Lemma accounted_delete o h l this :
  o !! this = Some {| fd_ := kInvalidFd |} -> accounted (mkSt o h) l ->
  accounted (mkSt (delete this o) h) l.
Proof.
  intros H Hacc f Hf. destruct (Hacc f Hf) as [H1 H2]. simpl in *.
  pose proof (holders_delete o this _ f H) as Hd. account.
Qed.

Lemma accounted_invalid s l :
  accounted s {| handed := handed l ++ [kInvalidFd]; released := released l |} -> accounted s l.
Proof.
  intros H f Hf. destruct (H f Hf) as [H1 H2]. simpl in H2.
  rewrite occ_app, occ_cons, decide_False in H2 by congruence.
  change (occ f []) with 0%nat in H2. lia.
Qed.

Lemma ledger_plain op l :
  match op with OpConstruct _ _ | OpReset _ _ => False | _ => True end ->
  ledger_step op None l = l.
Proof. destruct l, op; try done; intros _; unfold ledger_step; simpl; by rewrite !app_nil_r. Qed.

Lemma fd_op_accounted op s l :
  op_ok (self s) op -> accounted s l ->
  exists r s', fd_op_run op s = (Return r, s') /\ accounted s' (ledger_step op r l).
Proof.
  destruct s as [o h]. destruct op as [this fd|this other|this other|this fd|this|this];
    intros Hok Hacc; simpl in Hok; unfold fd_op_run.
  - destruct Hok as [Hthis Hfresh]. eexists None, _. split; [done|].
    unfold ledger_step. simpl. rewrite app_nil_r. by apply construct_accounted.
  - destruct Hok as [Hthis [u Hu]]. assert (this <> other) by congruence.
    destruct (release_accounted o h l other u Hu Hacc) as [Hf Ha].
    eexists None, _. unfold UniqueFd_move_construct, mbind, M_bind.
    rewrite (release_at_spec o h other u Hu). split; [done|].
    rewrite ledger_plain by done. apply (accounted_cancel _ _ (fd_ u)).
    apply (construct_accounted _ _ {| handed := handed l; released := released l ++ [fd_ u] |});
      [simpl; by rewrite lookup_insert_ne|done|exact Ha].
  - destruct Hok as [[v Hv] [u Hu]]. unfold UniqueFd_move_assign.
    destruct (Z.eqb_spec this other) as [|Hne].
    { eexists None, _. split; [done|]. by rewrite ledger_plain. }
    destruct (release_accounted o h l other u Hu Hacc) as [Hf Ha].
    eexists None, _. unfold mbind, M_bind. change (negb false) with true. cbv beta iota.
    rewrite (release_at_spec o h other u Hu).
    rewrite (reset_at_spec _ h this v (fd_ u)) by (by rewrite lookup_insert_ne).
    split; [done|]. rewrite ledger_plain by done. apply (accounted_cancel _ _ (fd_ u)).
    apply (reset_accounted _ _ {| handed := handed l; released := released l ++ [fd_ u] |});
      [simpl; by rewrite lookup_insert_ne|done|exact Ha].
  - destruct Hok as [[u Hu] Hfresh]. eexists None, _. unfold mbind, M_bind.
    rewrite (reset_at_spec o h this u fd Hu). split; [done|].
    unfold ledger_step. simpl. rewrite app_nil_r. by apply reset_accounted.
  - destruct Hok as [u Hu]. eexists (Some _), _. unfold mbind, M_bind.
    rewrite (release_at_spec o h this u Hu). split; [done|].
    unfold ledger_step. simpl. rewrite app_nil_r. by apply release_accounted.
  - destruct Hok as [u Hu]. eexists None, _. unfold destroy_at, mbind, M_bind.
    rewrite (reset_at_spec o h this u kInvalidFd Hu). split; [done|].
    rewrite ledger_plain by done. apply accounted_delete; [apply lookup_insert_eq|].
    apply accounted_invalid. by apply reset_accounted; [|left|].
Qed.

(** ** Properties *)

Section Properties.

(** C40.  Exactly-once ownership: for every sequence of constructions, moves
    (self-assignment included), resets, releases and destructions that uses
    live objects and hands in descriptors nobody holds, nothing is undefined,
    each descriptor handed in is held by at most one object, and it was closed
    or released exactly as often as it was handed in and is no longer held: no
    double close and no leak. *)
Theorem unique_fd_exactly_once ops h :
  closed_fds h = [] -> ops_ok ops (mkSt ∅ h) ->
  exists s l, fd_run ops (mkSt ∅ h) {| handed := []; released := [] |} = Some (s, l) /\
    forall fd, fd <> kInvalidFd ->
      (holders (self s) fd <= 1)%nat /\
      occ fd (handed l) =
        (holders (self s) fd + occ fd (released l) + occ fd (closed_fds (hist s)))%nat.
Proof.
  intros Hh Hok.
  assert (accounted (mkSt ∅ h) {| handed := []; released := [] |}) as Hacc.
  { intros fd _. unfold accounted. simpl. rewrite Hh. split; [|done].
    unfold holders. rewrite map_filter_empty, map_size_empty. lia. }
  revert Hok Hacc. generalize {| handed := []; released := [] |} as l.
  generalize (mkSt (∅ : Objects) h) as s. clear h Hh.
  induction ops as [|op ops IH]; intros s l Hok Hacc; simpl in *.
  { by exists s, l. }
  destruct Hok as [Hop Hok].
  destruct (fd_op_accounted op s l Hop Hacc) as (r & s' & Hrun & Hacc').
  rewrite Hrun in *. by apply IH.
Qed.

End Properties.

Section Witnesses.

(** Construct, self-move, move into another object, replace its descriptor,
    release, destroy. *)
Definition sample_ops : list FdOp :=
  [OpConstruct 1 7; OpMoveAssign 1 1; OpConstruct 2 8; OpMoveAssign 1 2; OpReset 1 9;
   OpMoveConstruct 3 1; OpRelease 3; OpConstruct 4 7; OpDestroy 4; OpDestroy 3;
   OpDestroy 2; OpDestroy 1].

Lemma unique_fd_exactly_once_witness :
  exists s l, fd_run sample_ops (mkSt ∅ []) {| handed := []; released := [] |} = Some (s, l) /\
    closed_fds (hist s) = [7; 8; 7] /\ released l = [9].
Proof.
  destruct (unique_fd_exactly_once sample_ops []) as (s & l & Hrun & _).
  - reflexivity.
  - by_decide.
  - exists s, l. split; [exact Hrun|]. vm_compute in Hrun. by injection Hrun as <- <-.
Defined.

End Witnesses.
