(* ===== verification/Codec.v ===== *)
(** * The binary protocol codec

    [include/pulsecore/protocol/codec.hpp], [src/protocol/codec.cpp]: the frame
    format, [EncodeMessage], [TryDecodeFrame] and the incremental
    [FrameDecoder]. *)

From S2P Require Import Prelude.

(** ** Data *)

(** [using Byte = std::uint8_t]: an integer, in range when [is_byte] holds. *)
Abbreviation Byte := Z (only parsing).
Abbreviation is_byte := is_u8 (only parsing).

Definition kMagic : Z := 0x50554C53.
Definition kVersion : Z := 1.
Definition kHeaderSize : Z := 20.
Definition kMaxPayloadSize : Z := 64 * 1024.

(** [enum class MessageType : std::uint16_t].  A variable of the C++ type can
    hold every value of the underlying type; [kUnlisted] is a value that is
    none of the enumerators. *)
Inductive MessageType : Type :=
| kEchoRequest
| kEchoResponse
| kWorkRequest
| kWorkResponse
| kErrorResponse
| kUnlisted (raw : Z).

#[export] Instance MessageType_eq_dec : EqDecision MessageType.
Proof. solve_decision. Defined.

(** [static_cast<MessageType>(type)] and [static_cast<std::uint16_t>(type)]. *)
Definition MessageType_of_u16 (type : Z) : MessageType :=
  match type with
  | 1 => kEchoRequest
  | 2 => kEchoResponse
  | 3 => kWorkRequest
  | 4 => kWorkResponse
  | 5 => kErrorResponse
  | _ => kUnlisted type
  end.

Definition u16_of_MessageType (type : MessageType) : Z :=
  match type with
  | kEchoRequest => 1
  | kEchoResponse => 2
  | kWorkRequest => 3
  | kWorkResponse => 4
  | kErrorResponse => 5
  | kUnlisted raw => raw
  end.

Record Message : Type := {
  type : MessageType;
  request_id : Z;
  payload : list Byte;
}.

#[export] Instance Message_eq_dec : EqDecision Message.
Proof. solve_decision. Defined.

Inductive ProtocolError : Type :=
| kInvalidMagic
| kUnsupportedVersion
| kUnknownMessageType
| kPayloadTooLarge
| kFrameSizeOverflow.

#[export] Instance ProtocolError_eq_dec : EqDecision ProtocolError.
Proof. solve_decision. Defined.

Inductive DecodeStatus : Type :=
| kNeedMoreData
| kDecoded
| kError.

#[export] Instance DecodeStatus_eq_dec : EqDecision DecodeStatus.
Proof. solve_decision. Defined.

Record DecodeResult : Type := {
  status : DecodeStatus;
  message : option Message;
  error : option ProtocolError;
  bytes_consumed : Z;
}.

Definition DecodeResult_NeedMoreData : DecodeResult :=
  {| status := kNeedMoreData; message := None; error := None; bytes_consumed := 0 |}.
Definition DecodeResult_Decoded (m : Message) (consumed : Z) : DecodeResult :=
  {| status := kDecoded; message := Some m; error := None; bytes_consumed := consumed |}.
Definition DecodeResult_Error (e : ProtocolError) : DecodeResult :=
  {| status := kError; message := None; error := Some e; bytes_consumed := 0 |}.

(** ** Byte-level writers and readers

    Indexing a span out of range is undefined behaviour: the readers return
    [None] there. *)

Definition AppendU16 (out : list Byte) (value : Z) : list Byte :=
  let out := out ++ [u8 (Z.land (Z.shiftr value 8) 0xFF)] in
  out ++ [u8 (Z.land value 0xFF)].

Definition AppendU32 (out : list Byte) (value : Z) : list Byte :=
  let out := out ++ [u8 (Z.land (Z.shiftr value 24) 0xFF)] in
  let out := out ++ [u8 (Z.land (Z.shiftr value 16) 0xFF)] in
  let out := out ++ [u8 (Z.land (Z.shiftr value 8) 0xFF)] in
  out ++ [u8 (Z.land value 0xFF)].

Definition AppendU64 (out : list Byte) (value : Z) : list Byte :=
  let out := out ++ [u8 (Z.land (Z.shiftr value 56) 0xFF)] in
  let out := out ++ [u8 (Z.land (Z.shiftr value 48) 0xFF)] in
  let out := out ++ [u8 (Z.land (Z.shiftr value 40) 0xFF)] in
  let out := out ++ [u8 (Z.land (Z.shiftr value 32) 0xFF)] in
  let out := out ++ [u8 (Z.land (Z.shiftr value 24) 0xFF)] in
  let out := out ++ [u8 (Z.land (Z.shiftr value 16) 0xFF)] in
  let out := out ++ [u8 (Z.land (Z.shiftr value 8) 0xFF)] in
  out ++ [u8 (Z.land value 0xFF)].

Definition ReadU16 (bytes : list Byte) (offset : Z) : option Z :=
  b0 ← zlookup bytes offset;
  b1 ← zlookup bytes (offset + 1);
  Some (u16 (Z.lor (Z.shiftl b0 8) b1)).

Definition ReadU32 (bytes : list Byte) (offset : Z) : option Z :=
  b0 ← zlookup bytes offset;
  b1 ← zlookup bytes (offset + 1);
  b2 ← zlookup bytes (offset + 2);
  b3 ← zlookup bytes (offset + 3);
  Some (Z.lor (Z.lor (Z.lor (u32 (Z.shiftl b0 24)) (u32 (Z.shiftl b1 16)))
                     (u32 (Z.shiftl b2 8))) b3).

Definition ReadU64 (bytes : list Byte) (offset : Z) : option Z :=
  b0 ← zlookup bytes offset;
  b1 ← zlookup bytes (offset + 1);
  b2 ← zlookup bytes (offset + 2);
  b3 ← zlookup bytes (offset + 3);
  b4 ← zlookup bytes (offset + 4);
  b5 ← zlookup bytes (offset + 5);
  b6 ← zlookup bytes (offset + 6);
  b7 ← zlookup bytes (offset + 7);
  Some (Z.lor (Z.lor (Z.lor (Z.lor (Z.lor (Z.lor (Z.lor
    (u64 (Z.shiftl b0 56)) (u64 (Z.shiftl b1 48))) (u64 (Z.shiftl b2 40)))
    (u64 (Z.shiftl b3 32))) (u64 (Z.shiftl b4 24))) (u64 (Z.shiftl b5 16)))
    (u64 (Z.shiftl b6 8))) b7).

(** [std::vector<Byte>(bytes.begin() + first, bytes.begin() + last)]: an
    iterator range outside the span is undefined behaviour. *)
Definition byte_range (bytes : list Byte) (first last : Z) : option (list Byte) :=
  if bool_decide (0 <= first <= last /\ last <= len bytes)
  then Some (ztake (last - first) (zdrop first bytes)) else None.

(** ** Encoding and decoding one frame *)

Definition IsKnownMessageType (type : Z) : bool :=
  match MessageType_of_u16 type with
  | kEchoRequest | kEchoResponse | kWorkRequest | kWorkResponse | kErrorResponse => true
  | kUnlisted _ => false
  end.

Definition ToMessageType (type : Z) : option MessageType :=
  if negb (IsKnownMessageType type) then None
  else Some (MessageType_of_u16 type).

Definition EncodeMessage (message : Message) : option (list Byte) :=
  if kMaxPayloadSize <? len (payload message) then None else
  let raw_type := u16_of_MessageType (type message) in
  if negb (IsKnownMessageType raw_type) then None else
  let out := [] in
  let out := AppendU32 out kMagic in
  let out := AppendU16 out kVersion in
  let out := AppendU16 out raw_type in
  let out := AppendU32 out (u32 (len (payload message))) in
  let out := AppendU64 out (request_id message) in
  let out := out ++ payload message in
  Some out.

Definition TryDecodeFrame (bytes : list Byte) : option DecodeResult :=
  if len bytes <? kHeaderSize then Some DecodeResult_NeedMoreData else
  magic ← ReadU32 bytes 0;
  if negb (magic =? kMagic) then Some (DecodeResult_Error kInvalidMagic) else
  version ← ReadU16 bytes 4;
  if negb (version =? kVersion) then Some (DecodeResult_Error kUnsupportedVersion) else
  raw_type ← ReadU16 bytes 6;
  match ToMessageType raw_type with
  | None => Some (DecodeResult_Error kUnknownMessageType)
  | Some message_type =>
    payload_size ← ReadU32 bytes 8;
    if kMaxPayloadSize <? payload_size then Some (DecodeResult_Error kPayloadTooLarge) else
    let max_size := u64_max in
    if max_size - kHeaderSize <? payload_size
    then Some (DecodeResult_Error kFrameSizeOverflow) else
    let frame_size := u64 (kHeaderSize + payload_size) in
    if len bytes <? frame_size then Some DecodeResult_NeedMoreData else
    id ← ReadU64 bytes 12;
    body ← byte_range bytes kHeaderSize frame_size;
    Some (DecodeResult_Decoded
            {| type := message_type; request_id := id; payload := body |} frame_size)
  end.

(** ** The incremental decoder *)

Record FrameDecoder : Type := {
  buffer_ : list Byte;
  read_offset_ : Z;
}.

Definition FrameDecoder_new : FrameDecoder := {| buffer_ := []; read_offset_ := 0 |}.

Definition FrameDecoder_Append (d : FrameDecoder) (bytes : list Byte) : FrameDecoder :=
  {| buffer_ := buffer_ d ++ bytes; read_offset_ := read_offset_ d |}.

Definition FrameDecoder_CompactIfNeeded (d : FrameDecoder) : FrameDecoder :=
  if read_offset_ d =? 0 then d else
  if read_offset_ d =? len (buffer_ d) then {| buffer_ := []; read_offset_ := 0 |} else
  if len (buffer_ d) / 2 <=? read_offset_ d
  then {| buffer_ := zdrop (read_offset_ d) (buffer_ d); read_offset_ := 0 |}
  else d.

(** [subspan] past the end of the buffer is undefined behaviour. *)
Definition FrameDecoder_Next (d : FrameDecoder) : option (DecodeResult * FrameDecoder) :=
  if len (buffer_ d) <? read_offset_ d then None else
  let pending := zdrop (read_offset_ d) (buffer_ d) in
  result ← TryDecodeFrame pending;
  if bool_decide (status result = kDecoded) then
    let d := {| buffer_ := buffer_ d;
                read_offset_ := u64 (read_offset_ d + bytes_consumed result) |} in
    Some (result, FrameDecoder_CompactIfNeeded d)
  else Some (result, d).

Definition FrameDecoder_BufferedSize (d : FrameDecoder) : Z :=
  u64 (len (buffer_ d) - read_offset_ d).

(** ** Readers and writers are big-endian *)

Lemma land_byte v : Z.land v 255 = v mod 2 ^ 8.
Proof. change 255 with (Z.ones 8). by rewrite Z.land_ones by lia. Qed.

(** Rewrites a chain of [push_back(static_cast<Byte>((value >> k) & 0xFF))]. *)
Ltac append_be :=
  rewrite <- !app_assoc; cbn [be_bytes app];
  rewrite !shiftr_land_byte, land_byte by lia;
  rewrite ?Z.div_div by lia;
  unfold u8; rewrite !Z.mod_mod by lia;
  reflexivity.

Lemma AppendU16_be out v : AppendU16 out v = out ++ be_bytes 2 v.
Proof. unfold AppendU16. append_be. Qed.
Lemma AppendU32_be out v : AppendU32 out v = out ++ be_bytes 4 v.
Proof. unfold AppendU32. append_be. Qed.
Lemma AppendU64_be out v : AppendU64 out v = out ++ be_bytes 8 v.
Proof. unfold AppendU64. append_be. Qed.

Lemma byte_shift (w e b : Z) :
  0 <= e -> e + 8 <= w -> is_byte b -> (Z.shiftl b e) mod 2 ^ w = b * 2 ^ e.
Proof.
  intros He Hw Hb. unfold is_u8 in Hb. rewrite Z.shiftl_mul_pow2 by lia.
  apply Z.mod_small. split; [lia|].
  apply Z.lt_le_trans with (2 ^ 8 * 2 ^ e).
  - apply Z.mul_lt_mono_pos_r; lia.
  - rewrite <- Z.pow_add_r by lia. apply Z.pow_le_mono_r; lia.
Qed.

Section Reads.
Context (bytes : list Byte) (offset : Z).
Hypothesis Hoffset : 0 <= offset.
Hypothesis Hbytes : Forall is_byte bytes.

(** The [n] bytes from [offset] on. *)
Definition window (n : Z) : list Byte := ztake n (zdrop offset bytes).

Lemma zlookup_window n i :
  0 <= i < n -> zlookup bytes (offset + i) = zlookup (window n) i.
Proof using Hoffset.
  intros. unfold window. rewrite zlookup_ztake by lia. apply zlookup_zdrop; lia.
Qed.
Lemma zlookup_window_0 n : 0 < n -> zlookup bytes offset = zlookup (window n) 0.
Proof using Hoffset. intros. rewrite <- zlookup_window by lia. f_equal. lia. Qed.
Lemma window_bytes n : Forall is_byte (window n).
Proof using Hbytes. unfold window. auto with pulse. Qed.
Lemma length_window n :
  0 <= n -> offset + n <= len bytes -> length (window n) = Z.to_nat n.
Proof using Hoffset.
  intros. apply Nat2Z.inj. change (len (window n) = Z.of_nat (Z.to_nat n)).
  unfold window. rewrite len_ztake; [lia|]. rewrite len_zdrop; len_lia.
Qed.

(** Replaces every read by the bytes of the window. *)
Ltac open_read n :=
  intros Hlen; rewrite !(zlookup_window n) by lia; rewrite (zlookup_window_0 n) by lia;
  fold (window n); pose proof (window_bytes n) as HF;
  pose proof (length_window n ltac:(lia) Hlen) as Hn;
  revert HF Hn; generalize (window n) as l; intros l HF Hn;
  repeat (destruct l as [|? l]; [try discriminate Hn|]; try discriminate Hn);
  rewrite !Forall_cons_iff in HF; destruct_and?;
  repeat match goal with |- context [zlookup ?k ?i] =>
    let r := eval vm_compute in (zlookup k i) in change (zlookup k i) with r
  end; simpl mbind; f_equal.
(** Folds the shifted bytes from the most significant one. *)
Ltac close_read :=
  lazymatch goal with |- Z.lor _ ?b = _ =>
    rewrite !byte_shift by (assumption || lia);
    rewrite <- (Z.mul_1_r b) at 1; change 1 with (2 ^ 0) at 1;
    rewrite !lor_be by (assumption || lia); rewrite Z.mul_1_r;
    unfold be_value; cbn [foldl]; lia
  end.

Lemma ReadU16_be :
  offset + 2 <= len bytes -> ReadU16 bytes offset = Some (be_value (window 2)).
Proof using Hoffset Hbytes.
  unfold ReadU16. open_read 2. rewrite Z.shiftl_mul_pow2 by lia.
  lazymatch goal with |- u16 (Z.lor _ ?b) = _ =>
    rewrite <- (Z.mul_1_r b) at 1; change 1 with (2 ^ 0) at 1 end.
  rewrite lor_be by (assumption || lia). rewrite Z.mul_1_r, u16_id; [done|].
  unfold is_u8, is_u16 in *. lia.
Qed.
Lemma ReadU32_be :
  offset + 4 <= len bytes -> ReadU32 bytes offset = Some (be_value (window 4)).
Proof using Hoffset Hbytes.
  unfold ReadU32. open_read 4. unfold u32. close_read.
Qed.
Lemma ReadU64_be :
  offset + 8 <= len bytes -> ReadU64 bytes offset = Some (be_value (window 8)).
Proof using Hoffset Hbytes.
  unfold ReadU64. open_read 8. unfold u64. close_read.
Qed.
End Reads.

(** ** What the codec promises

    [frame m] is the wire format of [docs/protocol.md]; [valid_message] are the
    messages that have one. *)

Definition frame (m : Message) : list Byte :=
  be_bytes 4 kMagic ++ be_bytes 2 kVersion ++ be_bytes 2 (u16_of_MessageType (type m)) ++
  be_bytes 4 (len (payload m)) ++ be_bytes 8 (request_id m) ++ payload m.

Definition listed (t : MessageType) : Prop :=
  match t with kUnlisted _ => False | _ => True end.

(** A value of the enum: an enumerator, or a 16-bit value that is none. *)
Definition MessageType_wf (t : MessageType) : Prop :=
  match t with kUnlisted raw => is_u16 raw /\ ~ 1 <= raw <= 5 | _ => True end.

Definition Message_wf (m : Message) : Prop :=
  MessageType_wf (type m) /\ is_u64 (request_id m) /\ Forall is_byte (payload m).

Definition encodable (m : Message) : Prop :=
  listed (type m) /\ len (payload m) <= kMaxPayloadSize.

Definition valid_message (m : Message) : Prop := Message_wf m /\ encodable m.

#[export] Instance Message_wf_dec m : Decision (Message_wf m).
Proof. unfold Message_wf, MessageType_wf. destruct (type m); apply _. Defined.

#[export] Instance valid_message_dec m : Decision (valid_message m).
Proof.
  unfold valid_message, Message_wf, encodable, MessageType_wf, listed.
  destruct (type m); apply _.
Defined.

Lemma MessageType_of_u16_unlisted raw :
  ~ 1 <= raw <= 5 -> MessageType_of_u16 raw = kUnlisted raw.
Proof.
  intros H. destruct raw as [|p|p]; try done.
  do 3 (try (destruct p as [p|p|]; try done)); exfalso; apply H; lia.
Qed.

Lemma MessageType_of_u16_of t :
  MessageType_wf t -> MessageType_of_u16 (u16_of_MessageType t) = t.
Proof. destruct t; try done. intros []. by apply MessageType_of_u16_unlisted. Qed.

Lemma u16_of_MessageType_of raw : u16_of_MessageType (MessageType_of_u16 raw) = raw.
Proof.
  destruct (decide (1 <= raw <= 5)).
  - assert (raw = 1 \/ raw = 2 \/ raw = 3 \/ raw = 4 \/ raw = 5) as Hr by lia.
    by destruct Hr as [->|[->|[->|[->| ->]]]].
  - by rewrite MessageType_of_u16_unlisted.
Qed.

Lemma MessageType_wf_of raw : is_u16 raw -> MessageType_wf (MessageType_of_u16 raw).
Proof.
  intros Hraw. destruct (decide (1 <= raw <= 5)).
  - assert (raw = 1 \/ raw = 2 \/ raw = 3 \/ raw = 4 \/ raw = 5) as Hr by lia.
    by destruct Hr as [->|[->|[->|[->| ->]]]].
  - by rewrite MessageType_of_u16_unlisted.
Qed.

Lemma is_u16_of_MessageType t : MessageType_wf t -> is_u16 (u16_of_MessageType t).
Proof. destruct t; try done. by intros []. Qed.

Lemma IsKnownMessageType_listed t :
  MessageType_wf t -> IsKnownMessageType (u16_of_MessageType t) = true <-> listed t.
Proof.
  intros Hwf. unfold IsKnownMessageType. rewrite MessageType_of_u16_of by done.
  by destruct t.
Qed.

Lemma ToMessageType_Some raw t :
  ToMessageType raw = Some t <-> MessageType_of_u16 raw = t /\ listed t.
Proof.
  unfold ToMessageType, IsKnownMessageType.
  destruct (MessageType_of_u16 raw); simpl; split; try done; intros H;
    destruct_and?; simplify_eq; done.
Qed.

Lemma len_frame m : len (frame m) = kHeaderSize + len (payload m).
Proof. unfold frame. autorewrite with pulse_rw. unfold kHeaderSize. lia. Qed.

Lemma frame_bytes m : Forall is_byte (payload m) -> Forall is_byte (frame m).
Proof. intros. unfold frame. rewrite !Forall_app. split_and!; auto with pulse. Qed.

Lemma EncodeMessage_spec m :
  MessageType_wf (type m) ->
  (encodable m /\ EncodeMessage m = Some (frame m)) \/
  (~ encodable m /\ EncodeMessage m = None).
Proof.
  intros Hwf. unfold EncodeMessage, encodable. cbv zeta.
  destruct (Z.ltb_spec kMaxPayloadSize (len (payload m))); [right; split; [intros []; lia|done]|].
  pose proof (IsKnownMessageType_listed _ Hwf) as Hk.
  destruct (IsKnownMessageType _); cbn [negb].
  - left. split; [split; [by apply Hk|done]|]. f_equal.
    rewrite !AppendU32_be, !AppendU16_be, AppendU64_be. unfold frame.
    rewrite <- !app_assoc. rewrite u32_id; [done|].
    unfold is_u32, kMaxPayloadSize in *. len_lia.
  - right. split; [|done]. by intros [?%Hk _].
Qed.

Lemma EncodeMessage_Some m bs :
  MessageType_wf (type m) ->
  EncodeMessage m = Some bs <-> encodable m /\ bs = frame m.
Proof.
  intros Hwf. destruct (EncodeMessage_spec m Hwf) as [[H ->]|[H ->]].
  - split; [by intros [= <-]|by intros [_ ->]].
  - split; [done|by intros []].
Qed.

(** [field bytes offset n]: the big-endian field of a header. *)
Definition field (bytes : list Byte) (offset n : Z) : Z :=
  be_value (window bytes offset n).

(** The decoder as a table of the header fields. *)
Definition decode_spec (bytes : list Byte) : DecodeResult :=
  if len bytes <? kHeaderSize then DecodeResult_NeedMoreData else
  if negb (field bytes 0 4 =? kMagic) then DecodeResult_Error kInvalidMagic else
  if negb (field bytes 4 2 =? kVersion) then DecodeResult_Error kUnsupportedVersion else
  match ToMessageType (field bytes 6 2) with
  | None => DecodeResult_Error kUnknownMessageType
  | Some t =>
    if kMaxPayloadSize <? field bytes 8 4 then DecodeResult_Error kPayloadTooLarge else
    if len bytes <? kHeaderSize + field bytes 8 4 then DecodeResult_NeedMoreData else
    DecodeResult_Decoded
      {| type := t; request_id := field bytes 12 8;
         payload := ztake (field bytes 8 4) (zdrop kHeaderSize bytes) |}
      (kHeaderSize + field bytes 8 4)
  end.

Lemma field_bound bytes offset n :
  Forall is_byte bytes -> 0 <= n -> 0 <= field bytes offset n < 2 ^ (8 * n).
Proof.
  intros HF Hn. pose proof (be_value_bound _ (window_bytes bytes offset HF n)) as [H1 H2].
  split; [done|]. eapply Z.lt_le_trans; [exact H2|].
  apply Z.pow_le_mono_r; [lia|].
  enough (len (window bytes offset n) <= n) by lia.
  unfold window, ztake, len. rewrite length_take. lia.
Qed.

Lemma TryDecodeFrame_spec bytes :
  Forall is_byte bytes -> TryDecodeFrame bytes = Some (decode_spec bytes).
Proof.
  intros HF. unfold TryDecodeFrame, decode_spec.
  change kMaxPayloadSize with 65536. change kHeaderSize with 20.
  destruct (Z.ltb_spec (len bytes) 20); [done|].
  rewrite (ReadU32_be bytes 0), (ReadU16_be bytes 4), (ReadU16_be bytes 6),
    (ReadU32_be bytes 8), (ReadU64_be bytes 12) by (done || lia).
  fold (field bytes 0 4) (field bytes 4 2) (field bytes 6 2) (field bytes 8 4)
    (field bytes 12 8).
  simpl. destruct (field bytes 0 4 =? kMagic); [|done]. simpl.
  destruct (field bytes 4 2 =? kVersion); [|done]. simpl.
  destruct (ToMessageType _); [|done].
  pose proof (field_bound bytes 8 4 HF ltac:(lia)) as Hsz.
  destruct (Z.ltb_spec 65536 (field bytes 8 4)); [done|].
  unfold u64_max. rewrite (proj2 (Z.ltb_ge _ _)) by lia.
  rewrite u64_id by (unfold is_u64; lia).
  destruct (Z.ltb_spec (len bytes) (20 + field bytes 8 4)); [done|].
  unfold byte_range. rewrite bool_decide_eq_true_2 by lia. simpl.
  by replace (20 + field bytes 8 4 - 20) with (field bytes 8 4) by lia.
Qed.

(** *** Consequences of the table *)

Lemma decode_NeedMoreData_len bytes :
  status (decode_spec bytes) = kNeedMoreData ->
  len bytes < kHeaderSize + kMaxPayloadSize.
Proof.
  unfold decode_spec, kHeaderSize, kMaxPayloadSize. intros H.
  repeat case_match; simpl in H; try discriminate H; lia.
Qed.

Lemma decode_Decoded_inv bytes :
  Forall is_byte bytes -> status (decode_spec bytes) = kDecoded ->
  exists m rest, valid_message m /\ bytes = frame m ++ rest /\
    decode_spec bytes = DecodeResult_Decoded m (len (frame m)).
Proof.
  intros HF Hst. revert Hst. unfold decode_spec.
  destruct (Z.ltb_spec (len bytes) kHeaderSize) as [|Hlen]; [done|].
  destruct (Z.eqb_spec (field bytes 0 4) kMagic) as [Hmagic|]; [|done].
  destruct (Z.eqb_spec (field bytes 4 2) kVersion) as [Hversion|]; [|done].
  destruct (ToMessageType _) as [t|] eqn:Ht; [|done].
  destruct (Z.ltb_spec kMaxPayloadSize (field bytes 8 4)) as [|Hmax]; [done|].
  destruct (Z.ltb_spec (len bytes) (kHeaderSize + field bytes 8 4)) as [|Hsize]; [done|].
  intros _. cbn [negb]. set (size := field bytes 8 4) in *.
  assert (0 <= size) as Hsize0 by (by apply field_bound).
  set (m := {| type := t; request_id := _; payload := _ |}).
  assert (len (payload m) = size) as Hpay.
  { simpl. unfold kHeaderSize in *. rewrite len_ztake; [done|]. rewrite len_zdrop; lia. }
  apply ToMessageType_Some in Ht as [Ht Hl].
  assert (is_u16 (field bytes 6 2)) as Hraw by (by apply field_bound).
  exists m, (zdrop (kHeaderSize + size) bytes). split_and!.
  - split; split_and!; simpl.
    + rewrite <- Ht. by apply MessageType_wf_of.
    + by apply field_bound.
    + auto with pulse.
    + done.
    + simpl in Hpay. by rewrite Hpay.
  - unfold frame. rewrite Hpay, <- Hmagic, <- Hversion. simpl type. simpl request_id.
    rewrite <- Ht, u16_of_MessageType_of. unfold size at 1, field.
    unfold kHeaderSize in *.
    assert (forall k o n, 0 <= o -> k = Z.to_nat n -> 0 <= n -> o + n <= len bytes ->
      be_bytes k (be_value (window bytes o n)) = window bytes o n) as Hw.
    { intros k o n Ho -> Hn Hon. rewrite <- (length_window bytes o Ho n) by done.
      apply be_bytes_be_value. by apply window_bytes. }
    rewrite !Hw by lia.
    unfold window. simpl payload. rewrite <- !app_assoc.
    assert (forall o n k, 0 <= o -> 0 <= n -> k = o + n ->
      ztake n (zdrop o bytes) ++ zdrop k bytes = zdrop o bytes) as Hs.
    { intros o n k Ho Hn ->. rewrite <- zdrop_zdrop by lia. apply ztake_zdrop. }
    by rewrite !Hs by lia.
  - by rewrite len_frame, Hpay.
Qed.

Lemma window_app pre w post offset n :
  offset = len pre -> n = len w -> window (pre ++ w ++ post) offset n = w.
Proof. intros -> ->. unfold window. by rewrite zdrop_app_len, ztake_app_len. Qed.

Lemma field_app pre w post l offset n v :
  l = pre ++ w ++ post -> offset = len pre -> n = len w -> be_value w = v ->
  field l offset n = v.
Proof. intros -> ? ? <-. unfold field. by rewrite window_app. Qed.

(** The five header fields of a frame, and what follows the header. *)
Lemma frame_fields m rest :
  Message_wf m -> len (payload m) <= kMaxPayloadSize ->
  field (frame m ++ rest) 0 4 = kMagic /\
  field (frame m ++ rest) 4 2 = kVersion /\
  field (frame m ++ rest) 6 2 = u16_of_MessageType (type m) /\
  field (frame m ++ rest) 8 4 = len (payload m) /\
  field (frame m ++ rest) 12 8 = request_id m /\
  zdrop kHeaderSize (frame m ++ rest) = payload m ++ rest.
Proof.
  intros (Ht%is_u16_of_MessageType & Hid & _) Hmax.
  pose proof (len_nonneg (payload m)) as Hlen.
  set (a := be_bytes 4 kMagic). set (b := be_bytes 2 kVersion).
  set (c := be_bytes 2 (u16_of_MessageType (type m))).
  set (d := be_bytes 4 (len (payload m))).
  set (e := be_bytes 8 (request_id m)). set (p := payload m ++ rest).
  assert (frame m ++ rest = a ++ b ++ c ++ d ++ e ++ p) as ->
    by (unfold frame, p; by rewrite <- !app_assoc).
  assert (len c = 2 /\ len d = 4 /\ len e = 8) as (Hc & Hd & He)
    by (unfold c, d, e; by rewrite !len_be_bytes).
  split_and!.
  - by apply (field_app [] a (b ++ c ++ d ++ e ++ p)).
  - by apply (field_app a b (c ++ d ++ e ++ p)).
  - apply (field_app (a ++ b) c (d ++ e ++ p)); rewrite <- ?app_assoc; try done.
    by apply be_value_be_bytes.
  - apply (field_app (a ++ b ++ c) d (e ++ p)); rewrite <- ?app_assoc; try done.
    apply be_value_be_bytes. unfold kMaxPayloadSize in *. simpl. lia.
  - apply (field_app (a ++ b ++ c ++ d) e p); rewrite <- ?app_assoc; try done.
    by apply be_value_be_bytes.
  - rewrite !app_assoc. apply zdrop_app_len. rewrite !len_app, Hc, Hd, He. done.
Qed.

Lemma decode_frame m rest :
  valid_message m ->
  decode_spec (frame m ++ rest) = DecodeResult_Decoded m (len (frame m)).
Proof.
  intros [Hwf [Hl Hmax]].
  destruct (frame_fields m rest Hwf Hmax) as (Hf1 & Hf2 & Hf3 & Hf4 & Hf5 & Hf6).
  unfold decode_spec. rewrite Hf1, Hf2, Hf3, Hf4, Hf5, Hf6, len_app, len_frame, !Z.eqb_refl.
  pose proof (len_nonneg rest). pose proof (len_nonneg (payload m)). unfold kHeaderSize.
  rewrite !(proj2 (Z.ltb_ge _ _)) by lia. cbn [negb].
  assert (ToMessageType (u16_of_MessageType (type m)) = Some (type m)) as ->.
  { apply ToMessageType_Some. split; [|done]. apply MessageType_of_u16_of, Hwf. }
  rewrite ztake_app_len by done. by destruct m.
Qed.

(** *** The incremental decoder implements the table on its pending bytes *)

(** The bytes of the stream that no returned frame has consumed. *)
Definition pending (d : FrameDecoder) : list Byte := zdrop (read_offset_ d) (buffer_ d).

(** The invariant of a decoder: the offset is in range, and the consumed
    prefix takes no more room than what is pending. *)
Definition FrameDecoder_wf (d : FrameDecoder) : Prop :=
  0 <= read_offset_ d <= len (buffer_ d) /\
  len (buffer_ d) <= 2 * (len (buffer_ d) - read_offset_ d) /\
  is_u64 (len (buffer_ d)) /\ Forall is_byte (buffer_ d).

Lemma FrameDecoder_new_wf : FrameDecoder_wf FrameDecoder_new.
Proof. split_and!; done. Qed.

Lemma pending_bytes d : FrameDecoder_wf d -> Forall is_byte (pending d).
Proof. intros (_ & _ & _ & ?). unfold pending. auto with pulse. Qed.

Lemma len_pending d : FrameDecoder_wf d -> len (pending d) = len (buffer_ d) - read_offset_ d.
Proof. intros (? & _). by apply len_zdrop. Qed.

Lemma BufferedSize_pending d :
  FrameDecoder_wf d -> FrameDecoder_BufferedSize d = len (pending d).
Proof.
  intros Hwf. rewrite len_pending by done. destruct Hwf as (? & ? & [] & _).
  apply u64_id. unfold is_u64. lia.
Qed.

Lemma Append_wf d bytes :
  FrameDecoder_wf d -> Forall is_byte bytes -> is_u64 (len (buffer_ d) + len bytes) ->
  FrameDecoder_wf (FrameDecoder_Append d bytes) /\
  pending (FrameDecoder_Append d bytes) = pending d ++ bytes.
Proof.
  intros (? & ? & _ & ?) ? Hsz. pose proof (len_nonneg bytes).
  unfold FrameDecoder_wf, pending. simpl. rewrite len_app. split_and!; try lia; try done.
  - by apply Forall_app.
  - apply zdrop_app_le. lia.
Qed.

Lemma CompactIfNeeded_wf d :
  0 <= read_offset_ d <= len (buffer_ d) -> is_u64 (len (buffer_ d)) ->
  Forall is_byte (buffer_ d) ->
  FrameDecoder_wf (FrameDecoder_CompactIfNeeded d) /\
  pending (FrameDecoder_CompactIfNeeded d) = pending d.
Proof.
  intros Hoff Hsz HF. unfold FrameDecoder_CompactIfNeeded, FrameDecoder_wf, pending.
  destruct (Z.eqb_spec (read_offset_ d) 0) as [->|]; [split_and!; try done; lia|].
  destruct (Z.eqb_spec (read_offset_ d) (len (buffer_ d))) as [->|]; simpl.
  { change (len (@nil Z)) with 0. rewrite (zdrop_all (buffer_ d)) by done. unfold is_u64.
    split_and!; done || lia. }
  destruct (Z.leb_spec (len (buffer_ d) / 2) (read_offset_ d)); simpl.
  - rewrite len_zdrop by done. unfold is_u64 in *.
    split_and!; auto with pulse; lia.
  - split_and!; try done; try lia. Z.div_mod_to_equations. lia.
Qed.

(** [Next] is the table on the pending bytes, and drops the frame it returns. *)
Lemma Next_spec d :
  FrameDecoder_wf d ->
  exists d', FrameDecoder_Next d = Some (decode_spec (pending d), d') /\
    FrameDecoder_wf d' /\
    pending d' = zdrop (bytes_consumed (decode_spec (pending d))) (pending d) /\
    len (buffer_ d') <= len (buffer_ d) /\
    (status (decode_spec (pending d)) <> kDecoded -> d' = d).
Proof.
  intros Hwf. pose proof Hwf as (Hoff & Hst & Hsz & HF).
  pose proof (len_pending d Hwf) as Hlen.
  unfold FrameDecoder_Next. rewrite (proj2 (Z.ltb_ge _ _)) by lia.
  fold (pending d). rewrite TryDecodeFrame_spec by (by apply pending_bytes). simpl.
  case_bool_decide as Hdec.
  - destruct (decode_Decoded_inv _ (pending_bytes d Hwf) Hdec) as (m & rest & Hm & Hp & Hr).
    rewrite Hr. simpl. rewrite Hp, len_app in Hlen.
    pose proof (len_nonneg rest). pose proof (len_nonneg (frame m)).
    rewrite u64_id by (unfold is_u64 in *; lia).
    set (d1 := {| buffer_ := _; read_offset_ := _ |}).
    destruct (CompactIfNeeded_wf d1) as [Hwf' Hp']; [simpl; lia|done|done|].
    eexists. split; [done|]. split; [done|]. split_and!; [|..|done].
    + rewrite Hp'. unfold d1, pending. simpl. by rewrite <- zdrop_zdrop by lia.
    + unfold FrameDecoder_CompactIfNeeded, d1. simpl.
      repeat case_match; simpl; try lia; rewrite ?len_nil, ?len_zdrop; lia.
  - eexists. split; [done|]. split_and!; try done.
    assert (bytes_consumed (decode_spec (pending d)) = 0) as ->; [|done].
    revert Hdec. unfold decode_spec. repeat case_match; done.
Qed.

Lemma decode_spec_app bytes more :
  Forall is_byte bytes -> status (decode_spec bytes) <> kNeedMoreData ->
  decode_spec (bytes ++ more) = decode_spec bytes.
Proof.
  intros HF Hst. pose proof (len_nonneg more) as Hmore.
  assert (forall o n, 0 <= o -> 0 <= n -> o + n <= len bytes ->
    window (bytes ++ more) o n = window bytes o n) as Hw.
  { intros o n Ho Hn Hon. unfold window. rewrite zdrop_app_le by lia.
    apply ztake_app_le. rewrite len_zdrop; lia. }
  revert Hst. unfold decode_spec, field, kHeaderSize. rewrite len_app.
  destruct (Z.ltb_spec (len bytes) 20); [done|].
  rewrite (proj2 (Z.ltb_ge (len bytes + _) _)) by lia. rewrite !Hw by lia.
  destruct (negb (_ =? kMagic)); [done|]. destruct (negb (_ =? kVersion)); [done|].
  destruct (ToMessageType _); [|done].
  destruct (kMaxPayloadSize <? _); [done|].
  pose proof (field_bound bytes 8 4 HF ltac:(lia)) as Hf. unfold field in Hf.
  destruct (Z.ltb_spec (len bytes) (20 + be_value (window bytes 8 4))); [done|].
  intros _. rewrite (proj2 (Z.ltb_ge _ _)) by lia. do 2 f_equal.
  rewrite zdrop_app_le by lia. apply ztake_app_le. rewrite len_zdrop; lia.
Qed.

(** *** Streams of frames *)

Definition frames (ms : list Message) : list Byte := mjoin (frame <$> ms).

Lemma frames_nil : frames [] = [].
Proof. done. Qed.
Lemma frames_cons m ms : frames (m :: ms) = frame m ++ frames ms.
Proof. done. Qed.

Lemma frames_app ms ms' : frames (ms ++ ms') = frames ms ++ frames ms'.
Proof. unfold frames. by rewrite fmap_app, join_app. Qed.

Lemma frames_snoc ms m : frames (ms ++ [m]) = frames ms ++ frame m.
Proof. rewrite frames_app. unfold frames. simpl. by rewrite app_nil_r. Qed.

(** From here on the format of a frame matters only through its lemmas. *)
#[global] Opaque frame frames.

Lemma frame_inj m m' r r' :
  valid_message m -> valid_message m' -> frame m ++ r = frame m' ++ r' -> m = m' /\ r = r'.
Proof.
  intros Hm Hm' Heq. pose proof (decode_frame m r Hm) as H. rewrite Heq in H.
  rewrite (decode_frame m' r' Hm') in H. injection H as Hmm _. subst m'.
  split; [done|]. by apply app_inv_head in Heq.
Qed.

(** Two ways to cut a stream into frames agree as far as both go. *)
Lemma frames_prefix ms ms' r r' :
  Forall valid_message ms -> Forall valid_message ms' ->
  frames ms ++ r = frames ms' ++ r' ->
  (exists k, ms' = ms ++ k /\ r = frames k ++ r') \/
  (exists k, ms = ms' ++ k /\ r' = frames k ++ r).
Proof.
  intros Hms. revert ms'. induction Hms as [|m ms Hm Hms IH]; intros ms' Hms' Heq.
  { left. by exists ms'. }
  destruct Hms' as [|m' ms' Hm' Hms'].
  { right. by exists (m :: ms). }
  rewrite !frames_cons, <- !(app_assoc (frame _)) in Heq.
  apply frame_inj in Heq as [-> Heq]; [|done..].
  destruct (IH ms' Hms' Heq) as [(k & -> & ->)|(k & -> & ->)]; [left|right]; by exists k.
Qed.

Lemma frames_bytes ms : Forall valid_message ms -> Forall is_byte (frames ms).
Proof.
  induction 1 as [|m ms [[_ [_ Hm]] _] _ IH]; [done|].
  rewrite frames_cons. apply Forall_app_2; [by apply frame_bytes|done].
Qed.

(** If the frames [ms] start the stream of [ms'], then [ms] starts [ms'],
    provided the rest has no frame cut short. *)
Lemma frames_split ms ms' r :
  Forall valid_message ms -> Forall valid_message ms' ->
  frames ms' = frames ms ++ r -> exists k, ms' = ms ++ k /\ r = frames k.
Proof.
  intros Hms Hms' Heq. rewrite <- (app_nil_r (frames ms')) in Heq. symmetry in Heq.
  destruct (frames_prefix ms ms' r [] Hms Hms' Heq) as [(k & -> & ->)|(k & -> & Hk)].
  - exists k. by rewrite app_nil_r.
  - destruct k as [|m k].
    + exists []. by rewrite !app_nil_r.
    + exfalso. apply (f_equal len) in Hk. rewrite frames_cons, !len_app, len_frame in Hk.
      unfold kHeaderSize in Hk. len_lia.
Qed.

(** A client of the decoder: bytes arrive in chunks of any size, and [Next] is
    called at any time. *)
Inductive DecoderOp : Type :=
| Feed (bytes : list Byte)
| Poll.

Fixpoint decoder_run (ops : list DecoderOp) (d : FrameDecoder) :
    option (list Message * FrameDecoder) :=
  match ops with
  | [] => Some ([], d)
  | Feed bytes :: ops => decoder_run ops (FrameDecoder_Append d bytes)
  | Poll :: ops =>
    '(result, d) ← FrameDecoder_Next d;
    '(ms, d) ← decoder_run ops d;
    Some (option_list (message result) ++ ms, d)
  end.

Definition fed (ops : list DecoderOp) : list Byte :=
  mjoin ((fun op => match op with Feed bytes => bytes | Poll => [] end) <$> ops).

Lemma decode_message_inv bytes :
  Forall is_byte bytes ->
  (status (decode_spec bytes) = kDecoded /\ exists m, valid_message m /\
     message (decode_spec bytes) = Some m /\
     bytes = frame m ++ zdrop (bytes_consumed (decode_spec bytes)) bytes) \/
  (status (decode_spec bytes) <> kDecoded /\ message (decode_spec bytes) = None).
Proof.
  intros HF. destruct (decide (status (decode_spec bytes) = kDecoded)) as [Hd|Hd].
  - left. destruct (decode_Decoded_inv bytes HF Hd) as (m & rest & Hm & Hb & Hr).
    split; [done|]. exists m. rewrite Hr. simpl. split_and!; try done.
    rewrite Hb at 2. rewrite zdrop_app_len; done.
  - right. split; [done|]. revert Hd. unfold decode_spec. repeat case_match; done.
Qed.

Lemma decoder_run_spec ops d :
  FrameDecoder_wf d -> Forall is_byte (fed ops) ->
  is_u64 (len (buffer_ d) + len (fed ops)) ->
  exists ms d', decoder_run ops d = Some (ms, d') /\ FrameDecoder_wf d' /\
    Forall valid_message ms /\ pending d ++ fed ops = frames ms ++ pending d'.
Proof.
  revert d. induction ops as [|op ops IH]; intros d Hwf HF Hsz; simpl.
  { exists [], d. change (fed []) with (@nil Z). by rewrite app_nil_r. }
  pose proof (len_nonneg (fed ops)). unfold is_u64 in *. destruct op as [bytes|].
  - change (fed (Feed bytes :: ops)) with (bytes ++ fed ops) in *.
    apply Forall_app in HF as [HFb HF]. rewrite len_app in Hsz.
    pose proof (len_nonneg bytes). pose proof (len_nonneg (buffer_ d)).
    destruct (Append_wf d bytes Hwf HFb) as [Hwf' Hp]; [unfold is_u64; lia|].
    destruct (IH _ Hwf' HF) as (ms & d' & Hrun & Hwf'' & Hms & Heq).
    { simpl. rewrite len_app. lia. }
    exists ms, d'. split_and!; try done. by rewrite <- Heq, Hp, app_assoc.
  - change (fed (Poll :: ops)) with (fed ops) in *.
    destruct (Next_spec d Hwf) as (d1 & -> & Hwf1 & Hp1 & Hle & _).
    pose proof (len_nonneg (buffer_ d1)).
    destruct (IH d1 Hwf1 HF) as (ms & d' & Hrun & Hwf'' & Hms & Heq); [lia|].
    simpl. rewrite Hrun. simpl. eexists _, d'. split; [done|].
    rewrite Hp1 in Heq.
    destruct (decode_message_inv _ (pending_bytes d Hwf))
      as [(Hd & m & Hm & -> & Hpend)|(Hd & ->)].
    + change (option_list (Some m) ++ ms) with (m :: ms).
      split; [done|]. split; [by constructor|].
      by rewrite frames_cons, <- (app_assoc (frame m)), <- Heq, app_assoc, <- Hpend.
    + change (option_list None ++ ms) with ms. split_and!; [done..|].
      assert (bytes_consumed (decode_spec (pending d)) = 0) as Hc.
      { revert Hd. unfold decode_spec. repeat case_match; done. }
      by rewrite Hc in Heq.
Qed.

(** ** Properties *)

Section Properties.

(** C29.  Round trip: a message that has a frame is encoded to that frame, and
    the decoder returns it from any buffer that starts with the frame,
    consuming exactly the frame. *)
Theorem encode_decode_roundtrip m bs rest :
  Message_wf m -> EncodeMessage m = Some bs -> Forall is_byte rest ->
  TryDecodeFrame (bs ++ rest) = Some (DecodeResult_Decoded m (len bs)).
Proof.
  intros Hwf Henc Hrest. apply EncodeMessage_Some in Henc as [Hen ->]; [|apply Hwf].
  rewrite TryDecodeFrame_spec.
  - by rewrite decode_frame.
  - apply Forall_app_2; [|done]. apply frame_bytes, Hwf.
Qed.

(** C30.  Decoding is total and canonical on every byte buffer: it never reads
    out of range, never reports [kFrameSizeOverflow] (unreachable with a 64-bit
    [size_t]), and a decoded message is valid and re-encodes to exactly the
    bytes consumed. *)
Theorem decode_total_canonical bytes :
  Forall is_byte bytes ->
  exists r, TryDecodeFrame bytes = Some r /\ error r <> Some kFrameSizeOverflow /\
    (forall m, message r = Some m ->
       status r = kDecoded /\ valid_message m /\
       EncodeMessage m = Some (ztake (bytes_consumed r) bytes) /\
       kHeaderSize <= bytes_consumed r <= len bytes).
Proof.
  intros HF. exists (decode_spec bytes). split; [by apply TryDecodeFrame_spec|]. split.
  { unfold decode_spec. repeat case_match; done. }
  intros m Hm. destruct (decide (status (decode_spec bytes) = kDecoded)) as [Hd|Hd].
  - destruct (decode_Decoded_inv bytes HF Hd) as (m' & rest & Hv & Hb & Hr).
    rewrite Hr in *. simpl in *. injection Hm as ->. split_and!; try done.
    + apply EncodeMessage_Some; [apply Hv|]. split; [apply Hv|].
      rewrite Hb. by apply ztake_app_len.
    + rewrite len_frame. len_lia.
    + rewrite Hb, len_app. len_lia.
  - exfalso. revert Hd Hm. unfold decode_spec. repeat case_match; done.
Qed.

(** A verdict is final: once the decoder decodes a frame or rejects the
    header, more input behind it changes nothing. *)
Theorem decode_prefix_stable bytes more r :
  Forall is_byte bytes -> Forall is_byte more ->
  TryDecodeFrame bytes = Some r -> status r <> kNeedMoreData ->
  TryDecodeFrame (bytes ++ more) = Some r.
Proof.
  intros HF HFm. rewrite !TryDecodeFrame_spec by auto using Forall_app_2.
  intros [= <-] Hst. f_equal. by apply decode_spec_app.
Qed.

(** C31.  Framing is lossless for every chunking: whatever chunks the bytes of a
    stream arrive in and whenever [Next] is called, the decoder never has
    undefined behaviour, and the messages it has returned are a prefix of the
    messages sent; when it asks for more data after a complete stream, they are
    all of them and nothing is buffered. *)
Theorem decoder_stream_lossless ops sent :
  Forall valid_message sent -> fed ops = frames sent -> is_u64 (len (fed ops)) ->
  exists got d, decoder_run ops FrameDecoder_new = Some (got, d) /\
    (exists rest, sent = got ++ rest) /\
    (forall r d', FrameDecoder_Next d = Some (r, d') -> status r = kNeedMoreData ->
       got = sent /\ FrameDecoder_BufferedSize d = 0).
Proof.
  intros Hsent Hfed Hsz.
  assert (Forall is_byte (fed ops)) as HF by (rewrite Hfed; by apply frames_bytes).
  destruct (decoder_run_spec ops FrameDecoder_new FrameDecoder_new_wf HF Hsz)
    as (got & d & Hrun & Hwf & Hgot & Heq).
  exists got, d. split; [done|]. rewrite Hfed in Heq.
  destruct (frames_split got sent (pending d)) as (k & -> & Hk); [done..|].
  split; [by exists k|]. intros r d'.
  destruct (Next_spec d Hwf) as (d1 & -> & _). intros [= <- <-] Hneed.
  destruct k as [|m k].
  - rewrite app_nil_r. split; [done|]. by rewrite BufferedSize_pending, Hk, frames_nil.
  - exfalso. apply Forall_app in Hsent as [_ [Hm _]%Forall_cons_iff].
    by rewrite Hk, frames_cons, decode_frame in Hneed.
Qed.

(** A decoder's storage stays proportional to what is pending: after any
    chunks and calls the buffer holds at most twice the bytes not yet returned
    as frames, and no more than was fed. *)
Theorem decoder_storage_bounded ops :
  Forall is_byte (fed ops) -> is_u64 (len (fed ops)) ->
  exists got d, decoder_run ops FrameDecoder_new = Some (got, d) /\
    len (buffer_ d) <= 2 * FrameDecoder_BufferedSize d /\
    FrameDecoder_BufferedSize d + len (frames got) = len (fed ops).
Proof.
  intros HF Hsz.
  destruct (decoder_run_spec ops FrameDecoder_new FrameDecoder_new_wf HF Hsz)
    as (got & d & Hrun & Hwf & Hgot & Heq).
  exists got, d. split; [done|]. rewrite BufferedSize_pending by done. split.
  - rewrite len_pending by done. apply Hwf.
  - apply (f_equal len) in Heq. rewrite !len_app in Heq.
    change (len (pending FrameDecoder_new)) with 0 in Heq. lia.
Qed.

End Properties.

(** ** Witnesses *)

Section Witnesses.

Definition sample_message : Message :=
  {| type := kEchoRequest; request_id := 42; payload := [0xAA; 0xBB] |}.

Definition sample_frame : list Byte :=
  [0x50; 0x55; 0x4C; 0x53; 0; 1; 0; 1; 0; 0; 0; 2; 0; 0; 0; 0; 0; 0; 0; 42; 0xAA; 0xBB].

Lemma sample_valid : valid_message sample_message.
Proof. by_decide. Qed.

Lemma encode_decode_roundtrip_witness :
  EncodeMessage sample_message = Some sample_frame /\
  TryDecodeFrame (sample_frame ++ [7; 8]) = Some (DecodeResult_Decoded sample_message 22).
Proof.
  split; [vm_compute; reflexivity|].
  apply (encode_decode_roundtrip sample_message sample_frame [7; 8]).
  - apply sample_valid.
  - vm_compute; reflexivity.
  - by_decide.
Defined.

Lemma decode_total_canonical_witness :
  exists r, TryDecodeFrame (sample_frame ++ [1]) = Some r /\ message r = Some sample_message.
Proof.
  destruct (decode_total_canonical (sample_frame ++ [1])) as (r & Hr & _).
  - by_decide.
  - exists r. split; [exact Hr|]. vm_compute in Hr. injection Hr as <-. reflexivity.
Defined.

(** A rejected header (version 2) stays rejected. *)
Lemma decode_prefix_stable_witness :
  TryDecodeFrame ([0x50; 0x55; 0x4C; 0x53; 0; 2; 0; 1; 0; 0; 0; 2; 0; 0; 0; 0; 0; 0; 0; 42]
    ++ [1; 2; 3]) = Some (DecodeResult_Error kUnsupportedVersion).
Proof.
  apply decode_prefix_stable.
  - by_decide.
  - by_decide.
  - vm_compute; reflexivity.
  - discriminate.
Defined.

(** Two frames that arrive in three chunks. *)
Definition sample_ops : list DecoderOp :=
  [Poll; Feed (take 7 sample_frame); Poll;
   Feed (drop 7 sample_frame ++ take 30 sample_frame); Poll; Poll; Poll].

Lemma decoder_stream_lossless_witness :
  exists got d, decoder_run sample_ops FrameDecoder_new = Some (got, d) /\
    got = [sample_message; sample_message].
Proof.
  destruct (decoder_stream_lossless sample_ops [sample_message; sample_message])
    as (got & d & Hrun & _).
  - by_decide.
  - vm_compute; reflexivity.
  - by_decide.
  - exists got, d. split; [exact Hrun|]. vm_compute in Hrun. by injection Hrun as <- _.
Defined.

Lemma decoder_storage_bounded_witness :
  exists got d, decoder_run sample_ops FrameDecoder_new = Some (got, d) /\
    len (buffer_ d) <= 2 * FrameDecoder_BufferedSize d.
Proof.
  destruct (decoder_storage_bounded sample_ops) as (got & d & Hrun & Hst & _).
  - by_decide.
  - by_decide.
  - exists got, d. split; [exact Hrun|exact Hst].
Defined.
End Witnesses.
