(* ===== verification/Handler.v ===== *)
(** * The request handler

    [include/pulsecore/core/handler.hpp], [src/core/handler.cpp]: echo requests
    and the bounded deterministic work request. *)

From S2P Require Import Prelude Codec.

Definition kMaxWorkIterations : Z := 1000000.
Definition kMaxWorkUnits : Z := 64 * 1024 * 1024.

(** The bytes of a string literal. *)
Fixpoint string_bytes (s : string) : list Byte :=
  match s with
  | EmptyString => []
  | String c s => Z.of_N (Ascii.N_of_ascii c) :: string_bytes s
  end.

Definition ErrorPayload (message : string) : list Byte := string_bytes message.

Definition ErrorResponse (id : Z) (message : string) : Message :=
  {| type := kErrorResponse; request_id := id; payload := ErrorPayload message |}.

(** [AppendU32] and [AppendU64] of this file have the code of the codec's. *)
Definition AppendU32 (out : list Byte) (value : Z) : list Byte :=
  let out := out ++ [u8 (Z.land (Z.shiftr value 24) 0xFF)] in
  let out := out ++ [u8 (Z.land (Z.shiftr value 16) 0xFF)] in
  let out := out ++ [u8 (Z.land (Z.shiftr value 8) 0xFF)] in
  out ++ [u8 (Z.land value 0xFF)].

Definition AppendU64 (out : list Byte) (value : Z) : list Byte :=
  let out := out ++ [u8 (Z.land (Z.shiftr value 56) 0xFF)] in
  let out := out ++ [u8 (Z.land (Z.shiftr value 48) 0xFF)] in
  let out := out ++ [u8 (Z.land (Z.shiftr value 40) 0xFF)] in
  let out := out ++ [u8 (Z.land (Z.shiftr value 32) 0xFF)] in
  let out := out ++ [u8 (Z.land (Z.shiftr value 24) 0xFF)] in
  let out := out ++ [u8 (Z.land (Z.shiftr value 16) 0xFF)] in
  let out := out ++ [u8 (Z.land (Z.shiftr value 8) 0xFF)] in
  out ++ [u8 (Z.land value 0xFF)].

Definition ReadU32 (bytes : list Byte) : option Z :=
  b0 ← zlookup bytes 0;
  b1 ← zlookup bytes 1;
  b2 ← zlookup bytes 2;
  b3 ← zlookup bytes 3;
  Some (Z.lor (Z.lor (Z.lor (u32 (Z.shiftl b0 24)) (u32 (Z.shiftl b1 16)))
                     (u32 (Z.shiftl b2 8))) b3).

(** ** The work loop *)

Definition kFnvOffset : Z := 1469598103934665603.
Definition kFnvPrime : Z := 1099511628211.

(** [for (const auto byte : seed) { hash ^= byte; hash *= kFnvPrime; }] *)
Fixpoint work_seed_loop (seed : list Byte) (hash : Z) : Z :=
  match seed with
  | [] => hash
  | byte :: seed =>
    let hash := Z.lxor hash byte in
    let hash := u64 (hash * kFnvPrime) in
    work_seed_loop seed hash
  end.

(** [for (std::uint32_t round = 0; round < iterations; ++round)] with [n]
    rounds to go. *)
Fixpoint work_round_loop (n : nat) (round : Z) (seed : list Byte) (hash : Z) : Z :=
  match n with
  | O => hash
  | S n =>
    let hash := Z.lxor hash round in
    let hash := u64 (hash * kFnvPrime) in
    let hash := work_seed_loop seed hash in
    let hash := Z.lxor hash (Z.shiftr hash 32) in
    work_round_loop n (u32 (round + 1)) seed hash
  end.

(** The outer [option] is the undefined behaviour of a read out of range, the
    inner one the [std::nullopt] of a rejected payload. *)
Definition ComputeWorkResponsePayload (payload : list Byte) : option (option (list Byte)) :=
  let kIterationBytes := 4 in
  if len payload <? kIterationBytes then Some None else
  iterations ← ReadU32 (ztake kIterationBytes payload);
  if kMaxWorkIterations <? iterations then Some None else
  let seed := zdrop kIterationBytes payload in
  let seed_work_units := if len seed =? 0 then 1 else len seed in
  if (0 <? iterations) && (kMaxWorkUnits / iterations <? seed_work_units) then Some None else
  let hash := work_round_loop (Z.to_nat iterations) 0 seed kFnvOffset in
  let out := AppendU64 [] hash in
  Some (Some out).

Definition EncodeWorkRequestPayload (iterations : Z) (seed : list Byte) : list Byte :=
  let payload := [] in
  let payload := AppendU32 payload iterations in
  payload ++ seed.

Definition HandleOwnedRequest (request : Message) : option Message :=
  match type request with
  | kEchoRequest =>
    Some {| type := kEchoResponse; request_id := request_id request;
            payload := payload request |}
  | kWorkRequest =>
    result ← ComputeWorkResponsePayload (payload request);
    match result with
    | Some p => Some {| type := kWorkResponse; request_id := request_id request; payload := p |}
    | None => Some (ErrorResponse (request_id request) "invalid work request payload"%string)
    end
  | kEchoResponse | kWorkResponse | kErrorResponse =>
    Some {| type := kErrorResponse; request_id := request_id request;
            payload := ErrorPayload "unexpected response message from client"%string |}
  | kUnlisted _ => Some (ErrorResponse (request_id request) "unknown request message"%string)
  end.

Definition HandleRequest (request : Message) : option Message :=
  HandleOwnedRequest {| type := type request; request_id := request_id request;
                        payload := payload request |}.

(** ** Specification *)

(** One absorbing step of the hash, and the digest as a fold of it: each round
    absorbs its number and the seed, and then mixes the high half into the low. *)
Definition absorb (hash x : Z) : Z := (Z.lxor hash x * kFnvPrime) mod 2 ^ 64.
Definition mix (hash : Z) : Z := Z.lxor hash (hash / 2 ^ 32).
Definition digest (iterations : Z) (seed : list Byte) : Z :=
  foldl (fun hash round => mix (foldl absorb hash (round :: seed)))
    kFnvOffset (seqZ 0 iterations).

(** The work a request asks for: one unit per round and seed byte. *)
Definition work_units (iterations : Z) (seed : list Byte) : Z :=
  iterations * Z.max 1 (len seed).

(** The work request a payload denotes: the iteration count and the seed. *)
Definition work_request (payload : list Byte) : option (Z * list Byte) :=
  if bool_decide (4 <= len payload)
  then Some (be_value (ztake 4 payload), zdrop 4 payload) else None.

Definition acceptable (iterations : Z) (seed : list Byte) : Prop :=
  iterations <= kMaxWorkIterations /\ work_units iterations seed <= kMaxWorkUnits.

#[export] Instance acceptable_dec i s : Decision (acceptable i s).
Proof. unfold acceptable. apply _. Defined.

(** The response to a request, as a table. *)
Definition respond_spec (request : Message) : Message :=
  let answer t p := {| type := t; request_id := request_id request; payload := p |} in
  match type request with
  | kEchoRequest => answer kEchoResponse (payload request)
  | kWorkRequest =>
    match work_request (payload request) with
    | Some (iterations, seed) =>
      if decide (acceptable iterations seed)
      then answer kWorkResponse (be_bytes 8 (digest iterations seed))
      else answer kErrorResponse (string_bytes "invalid work request payload"%string)
    | None => answer kErrorResponse (string_bytes "invalid work request payload"%string)
    end
  | kUnlisted _ => answer kErrorResponse (string_bytes "unknown request message"%string)
  | _ => answer kErrorResponse (string_bytes "unexpected response message from client"%string)
  end.

(** ** The loops compute the digest *)

Lemma work_seed_loop_foldl seed hash : work_seed_loop seed hash = foldl absorb hash seed.
Proof. revert hash. induction seed as [|b seed IH]; intros hash; [done|]. apply IH. Qed.

Lemma work_round_loop_foldl n round seed hash :
  0 <= round -> round + Z.of_nat n <= 2 ^ 32 - 1 ->
  work_round_loop n round seed hash =
    foldl (fun hash round => mix (foldl absorb hash (round :: seed))) hash
      (seqZ round (Z.of_nat n)).
Proof.
  revert round hash. induction n as [|n IH]; intros round hash Hr Hn; [done|].
  rewrite seqZ_cons by lia. simpl. rewrite work_seed_loop_foldl.
  rewrite u32_id by (unfold is_u32; lia). rewrite IH by lia.
  rewrite Z.shiftr_div_pow2 by lia. unfold mix.
  replace (Z.pred (Z.of_nat (S n))) with (Z.of_nat n) by lia.
  by replace (Z.succ round) with (round + 1) by lia.
Qed.

Lemma handler_ReadU32 l :
  Forall is_byte l -> 4 <= len l -> ReadU32 l = Some (be_value (ztake 4 l)).
Proof.
  intros HF Hlen. pose proof (ReadU32_be l 0 ltac:(lia) HF ltac:(lia)) as H.
  exact H.
Qed.

Lemma string_bytes_u8 s : Forall is_byte (string_bytes s).
Proof.
  induction s as [|c s IH]; [done|]. constructor; [|done].
  unfold is_u8. pose proof (Ascii.N_ascii_bounded c). lia.
Qed.

(** The division in the guard is exact: it compares the product. *)
Lemma work_guard iterations units :
  0 < iterations -> (kMaxWorkUnits / iterations <? units) = false <->
  iterations * units <= kMaxWorkUnits.
Proof.
  intros H. rewrite Z.ltb_ge. split; intros Hu.
  - apply Z.le_trans with (iterations * (kMaxWorkUnits / iterations)).
    + apply Z.mul_le_mono_nonneg_l; lia.
    + by apply Z.mul_div_le.
  - by apply Z.div_le_lower_bound.
Qed.

Lemma ComputeWork_spec p :
  Forall is_byte p ->
  ComputeWorkResponsePayload p = Some
    (match work_request p with
     | Some (iterations, seed) =>
       if decide (acceptable iterations seed)
       then Some (be_bytes 8 (digest iterations seed)) else None
     | None => None
     end).
Proof.
  intros HF. unfold ComputeWorkResponsePayload, work_request. cbv zeta.
  destruct (Z.ltb_spec (len p) 4) as [|Hlen].
  { by rewrite bool_decide_eq_false_2 by lia. }
  rewrite bool_decide_eq_true_2 by done.
  rewrite handler_ReadU32; [|by auto with pulse|rewrite len_ztake; lia].
  replace (ztake 4 (ztake 4 p)) with (ztake 4 p)
    by (unfold ztake; by rewrite take_take).
  simpl. set (it := be_value (ztake 4 p)). set (seed := zdrop 4 p).
  assert (0 <= it) as Hit by (apply be_value_bound; auto with pulse).
  pose proof (len_nonneg seed) as Hseed. unfold acceptable, work_units.
  destruct (Z.ltb_spec kMaxWorkIterations it) as [|Hmax].
  { rewrite decide_False; [done|]. lia. }
  replace (if len seed =? 0 then 1 else len seed) with (Z.max 1 (len seed))
    by (destruct (Z.eqb_spec (len seed) 0); lia).
  destruct (Z.ltb_spec 0 it) as [Hpos|].
  - pose proof (work_guard it (Z.max 1 (len seed)) Hpos) as Hg. simpl andb.
    destruct (kMaxWorkUnits / it <? Z.max 1 (len seed)).
    + rewrite decide_False; [done|]. intros [_ Hc%Hg]. done.
    + rewrite decide_True by (split; [done|by apply Hg]). do 2 f_equal.
      change (AppendU64 []) with (Codec.AppendU64 []). rewrite AppendU64_be, app_nil_l.
      f_equal. unfold kMaxWorkIterations in *. rewrite work_round_loop_foldl by lia.
      unfold digest. by rewrite Z2Nat.id.
  - assert (it = 0) as -> by lia. simpl andb.
    rewrite decide_True by (split; [done|]; unfold kMaxWorkUnits; lia).
    reflexivity.
Qed.

Lemma HandleOwnedRequest_spec m :
  Forall is_byte (payload m) -> HandleOwnedRequest m = Some (respond_spec m).
Proof.
  intros HF. unfold HandleOwnedRequest, respond_spec.
  destruct (type m); try done. rewrite ComputeWork_spec by done. simpl.
  destruct (work_request (payload m)) as [[it seed]|]; [|done]. by case_decide.
Qed.

Lemma HandleRequest_spec m :
  Forall is_byte (payload m) -> HandleRequest m = Some (respond_spec m).
Proof. intros H. unfold HandleRequest. destruct m. by apply HandleOwnedRequest_spec. Qed.

Lemma lxor_bound a b n :
  0 <= n -> 0 <= a < 2 ^ n -> 0 <= b < 2 ^ n -> 0 <= Z.lxor a b < 2 ^ n.
Proof.
  intros Hn Ha Hb. assert (0 <= Z.lxor a b) as H0 by (apply Z.lxor_nonneg; lia).
  split; [done|]. destruct (Z.eq_dec (Z.lxor a b) 0) as [->|]; [lia|].
  apply Z.log2_lt_pow2; [lia|]. eapply Z.le_lt_trans; [apply Z.log2_lxor; lia|].
  destruct (Z.eq_dec n 0) as [->|]; [replace a with 0 in * by lia; replace b with 0 in * by lia; done|].
  apply Z.max_lub_lt.
  - destruct (Z.eq_dec a 0) as [->|]; [simpl; lia|]. apply Z.log2_lt_pow2; lia.
  - destruct (Z.eq_dec b 0) as [->|]; [simpl; lia|]. apply Z.log2_lt_pow2; lia.
Qed.

Lemma mix_u64 hash : is_u64 hash -> is_u64 (mix hash).
Proof.
  intros H. unfold is_u64 in *. apply lxor_bound; [lia|done|]. Z.div_mod_to_equations. lia.
Qed.

Lemma digest_u64 iterations seed : is_u64 (digest iterations seed).
Proof.
  unfold digest. generalize (seqZ 0 iterations) as rounds.
  assert (is_u64 kFnvOffset) as H by (unfold is_u64, kFnvOffset; lia).
  intros rounds. revert H. generalize kFnvOffset as hash.
  induction rounds as [|r rounds IH]; intros hash H; [done|]. apply IH, mix_u64.
  change (is_u64 (foldl absorb (absorb hash r) seed)).
  assert (is_u64 (absorb hash r)) as H' by apply is_u64_u64.
  clear IH. revert H'. generalize (absorb hash r) as acc.
  induction seed as [|b seed IHs]; intros acc Hacc; [done|]. apply IHs, is_u64_u64.
Qed.

Lemma respond_spec_valid m :
  valid_message m ->
  valid_message (respond_spec m) /\ request_id (respond_spec m) = request_id m.
Proof.
  intros [(Ht & Hid & HF) [Hl Hmax]].
  assert (forall t p, listed t -> Forall is_byte p -> len p <= kMaxPayloadSize ->
    valid_message {| type := t; request_id := request_id m; payload := p |}) as Hok.
  { intros t p Hlt HFp Hlen. split; [split_and!; [by destruct t|done|done]|done]. }
  assert (forall s, len (string_bytes s) <= kMaxPayloadSize ->
    valid_message {| type := kErrorResponse; request_id := request_id m;
                     payload := string_bytes s |}) as Herr.
  { intros s Hs. apply Hok; [done|apply string_bytes_u8|done]. }
  unfold respond_spec. destruct (type m); try (split; [by apply Herr|done]).
  - split; [by apply Hok|done].
  - destruct (work_request (payload m)) as [[it seed]|]; [case_decide|];
      try (split; [by apply Herr|done]).
    split; [apply Hok; auto with pulse; by rewrite len_be_bytes|done].
Qed.

Lemma EncodeWorkRequestPayload_be iterations seed :
  EncodeWorkRequestPayload iterations seed = be_bytes 4 iterations ++ seed.
Proof.
  unfold EncodeWorkRequestPayload. cbv zeta.
  change (AppendU32 []) with (Codec.AppendU32 []). by rewrite AppendU32_be.
Qed.

(** A work request within the iteration limit, and its response. *)
Lemma work_request_valid id iterations seed :
  is_u64 id -> Forall is_byte seed -> len seed <= kMaxPayloadSize - 4 ->
  valid_message {| type := kWorkRequest; request_id := id;
                   payload := EncodeWorkRequestPayload iterations seed |}.
Proof.
  intros Hid Hbytes Hlen. rewrite EncodeWorkRequestPayload_be. split.
  - split_and!; try done. apply Forall_app_2; [apply be_bytes_is_u8|done].
  - split; [done|]. cbn [payload]. rewrite len_app, len_be_bytes. lia.
Qed.

Lemma respond_work_request id iterations seed :
  0 <= iterations <= kMaxWorkIterations ->
  respond_spec {| type := kWorkRequest; request_id := id;
                  payload := EncodeWorkRequestPayload iterations seed |} =
  if decide (work_units iterations seed <= kMaxWorkUnits)
  then {| type := kWorkResponse; request_id := id; payload := be_bytes 8 (digest iterations seed) |}
  else {| type := kErrorResponse; request_id := id;
          payload := string_bytes "invalid work request payload" |}.
Proof.
  intros Hit. rewrite EncodeWorkRequestPayload_be. unfold respond_spec, work_request.
  cbn [type payload request_id]. rewrite len_app, len_be_bytes. pose proof (len_nonneg seed).
  rewrite bool_decide_eq_true_2 by lia. rewrite ztake_app_len, zdrop_app_len by done.
  rewrite be_value_be_bytes by (unfold kMaxWorkIterations in *; simpl; lia).
  unfold acceptable. destruct (decide (work_units _ _ <= _)).
  - by rewrite decide_True by (split; [lia|done]).
  - rewrite decide_False; [done|]. by intros [].
Qed.

(** ** Properties *)

Section Properties.

(** C32.  The handler implements the response table: echo requests return their
    payload, acceptable work requests the digest (computed with wrap-around in
    64 bits by the nested loops), everything else an error response; no read
    is out of range, and the copying and the owning entry point agree. *)
Theorem handler_refines_table m :
  Forall is_byte (payload m) ->
  HandleOwnedRequest m = Some (respond_spec m) /\ HandleRequest m = Some (respond_spec m).
Proof.
  intros HF. split; [by apply HandleOwnedRequest_spec|].
  unfold HandleRequest. destruct m. by apply HandleOwnedRequest_spec.
Qed.

(** Every message the decoder can deliver gets a response with the same
    request id, and that response has a frame. *)
Theorem handler_response_encodable m :
  valid_message m ->
  exists r, HandleOwnedRequest m = Some r /\ request_id r = request_id m /\
    EncodeMessage r = Some (frame r) /\ len (frame r) <= kHeaderSize + kMaxPayloadSize.
Proof.
  intros Hm. exists (respond_spec m).
  destruct (respond_spec_valid m Hm) as [Hv Hid].
  split; [apply HandleOwnedRequest_spec, Hm|]. split; [done|]. split.
  - apply EncodeMessage_Some; [apply Hv|]. split; [apply Hv|done].
  - rewrite len_frame. destruct Hv as [_ [_ Hv]]. lia.
Qed.

(** Work requests round trip through their payload encoding, and the
    handler accepts one exactly when its iterations are at most 1,000,000 and
    iterations times seed bytes (at least one) at most 64 Mi: the division in
    the guard loses nothing and nothing overflows.  The digest fits the eight
    bytes of the response. *)
Theorem work_request_roundtrip iterations seed :
  is_u32 iterations -> Forall is_byte seed ->
  ComputeWorkResponsePayload (EncodeWorkRequestPayload iterations seed) = Some
    (if decide (iterations <= kMaxWorkIterations /\
                iterations * Z.max 1 (len seed) <= kMaxWorkUnits)
     then Some (be_bytes 8 (digest iterations seed)) else None) /\
  be_value (be_bytes 8 (digest iterations seed)) = digest iterations seed.
Proof.
  intros Hit HF. split; [|apply be_value_be_bytes, digest_u64].
  rewrite EncodeWorkRequestPayload_be, ComputeWork_spec by auto with pulse. unfold work_request.
  rewrite len_app, len_be_bytes. pose proof (len_nonneg seed).
  rewrite bool_decide_eq_true_2 by lia.
  rewrite ztake_app_len, zdrop_app_len by done.
  by rewrite be_value_be_bytes by exact Hit.
Qed.

End Properties.

Section Witnesses.

Definition sample_work : Message :=
  {| type := kWorkRequest; request_id := 9; payload := [0; 0; 0; 2; 1; 2] |}.

Lemma handler_refines_table_witness :
  HandleOwnedRequest sample_work
  = Some {| type := kWorkResponse; request_id := 9;
            payload := be_bytes 8 (digest 2 [1; 2]) |}.
Proof.
  destruct (handler_refines_table sample_work) as [H _]; [by_decide|].
  rewrite H. vm_compute. reflexivity.
Defined.

Lemma handler_response_encodable_witness :
  exists r, HandleOwnedRequest sample_message = Some r /\ request_id r = 42.
Proof.
  destruct (handler_response_encodable sample_message) as (r & Hr & Hid & _).
  - by_decide.
  - exists r. split; [exact Hr|exact Hid].
Defined.

(** The largest accepted seed for 1,000,000 iterations is 67 bytes. *)
Lemma work_request_roundtrip_witness :
  ComputeWorkResponsePayload (EncodeWorkRequestPayload 1000000 (replicate 68 7)) = Some None.
Proof.
  destruct (work_request_roundtrip 1000000 (replicate 68 7)) as [H _].
  - unfold is_u32. lia.
  - by_decide.
  - rewrite H. rewrite decide_False; [reflexivity|].
    vm_compute. intros [_ Hc]. by apply Hc.
Defined.

End Witnesses.
