(* ===== verification/BoundedQueue.v ===== *)
(** * The bounded work queue

    [include/pulsecore/core/bounded_queue.hpp]: the critical sections of the
    class as functions, and its use by any number of producer and consumer
    threads, with the condition variable, as a transition system. *)

From S2P Require Import Prelude.

(** ** The class *)

Record BoundedQueue (T : Type) : Type := {
  capacity_ : Z;
  items_ : list T;
  closed_ : bool;
}.
Arguments capacity_ {T} b.
Arguments items_ {T} b.
Arguments closed_ {T} b.

Section Queue.
Context {T : Type}.
Implicit Types (q : BoundedQueue T) (x : T).

Definition BoundedQueue_make (capacity : Z) : Result (BoundedQueue T) :=
  if capacity =? 0
  then Throw (InvalidArgument "bounded queue capacity must be greater than zero")
  else Return {| capacity_ := capacity; items_ := []; closed_ := false |}.

(** The critical section of [TryPush]; [true] is followed by [notify_one]. *)
Definition TryPush (item : T) q : bool * BoundedQueue T :=
  if closed_ q || (capacity_ q <=? len (items_ q)) then (false, q)
  else (true, {| capacity_ := capacity_ q; items_ := items_ q ++ [item];
                 closed_ := closed_ q |}).

(** The predicate of [not_empty_.wait]. *)
Definition Pop_ready q : bool := closed_ q || negb (len (items_ q) =? 0).

(** The rest of [Pop], once the predicate holds. *)
Definition Pop_take q : option T * BoundedQueue T :=
  match items_ q with
  | [] => (None, q)
  | item :: rest =>
    (Some item, {| capacity_ := capacity_ q; items_ := rest; closed_ := closed_ q |})
  end.

(** A call of [Pop]: [None] when it blocks. *)
Definition Pop q : option (option T * BoundedQueue T) :=
  if Pop_ready q then Some (Pop_take q) else None.

(** The critical section of [Close], followed by [notify_all]. *)
Definition Close q : BoundedQueue T :=
  {| capacity_ := capacity_ q; items_ := items_ q; closed_ := true |}.

Definition BoundedQueue_size q : Z := len (items_ q).
Definition BoundedQueue_capacity q : Z := capacity_ q.
Definition BoundedQueue_closed q : bool := closed_ q.

(** The invariant, and the contract of each call. *)
Definition BoundedQueue_wf q : Prop := 0 < capacity_ q /\ len (items_ q) <= capacity_ q.

Lemma TryPush_spec x q b q' :
  BoundedQueue_wf q -> TryPush x q = (b, q') ->
  BoundedQueue_wf q' /\ capacity_ q' = capacity_ q /\ closed_ q' = closed_ q /\
  items_ q' = items_ q ++ (if b then [x] else []) /\
  (b = true <-> closed_ q = false /\ len (items_ q) < capacity_ q).
Proof.
  intros [Hc Hl]. unfold TryPush, BoundedQueue_wf. destruct (closed_ q) eqn:Hclosed; simpl.
  { intros [= <- <-]. rewrite app_nil_r. do 4 (split; [done|]). split; [done|by intros []]. }
  destruct (Z.leb_spec (capacity_ q) (len (items_ q))); intros [= <- <-]; simpl.
  - rewrite app_nil_r. do 4 (split; [done|]). split; [done|intros [_ ?]; lia].
  - autorewrite with pulse_rw. do 4 (split; [try done; lia|]). by split.
Qed.

Lemma Pop_spec q r q' :
  BoundedQueue_wf q -> Pop q = Some (r, q') ->
  BoundedQueue_wf q' /\ capacity_ q' = capacity_ q /\ closed_ q' = closed_ q /\
  items_ q = option_list r ++ items_ q' /\ (r = None -> closed_ q = true /\ items_ q' = []).
Proof.
  intros [Hc Hl]. unfold Pop, Pop_ready, Pop_take, BoundedQueue_wf.
  destruct (items_ q) as [|x rest] eqn:Hi; simpl.
  - destruct (closed_ q) eqn:Hclosed; [|done]. intros [= <- <-]. rewrite Hi. split_and!; done.
  - rewrite len_cons in *. destruct (closed_ q || _); [|done].
    intros [= <- <-]. simpl. split_and!; try done. lia.
Qed.

Lemma Pop_blocks q : Pop q = None <-> closed_ q = false /\ items_ q = [].
Proof.
  unfold Pop, Pop_ready. destruct (closed_ q), (items_ q) as [|x rest] eqn:Hi; simpl;
    try (by split; [|intros []]).
Qed.
End Queue.

(** ** Threads

    Where a consumer thread is: outside [Pop], blocked in [wait], or woken and
    about to take the mutex and test the predicate again. *)
Inductive ConsumerState : Type := Outside | Waiting | Woken.

#[export] Instance ConsumerState_eq_dec : EqDecision ConsumerState.
Proof. solve_decision. Defined.

(** The queue, its consumers, the producers between the end of their critical
    section and the notification, and the history of values. *)
Record QueueSystem (T : Type) : Type := {
  queue : BoundedQueue T;
  consumers : list ConsumerState;
  to_notify_one : nat;
  to_notify_all : nat;
  pushed : list T;
  popped : list T;
}.
Arguments queue {T} q.
Arguments consumers {T} q.
Arguments to_notify_one {T} q.
Arguments to_notify_all {T} q.
Arguments pushed {T} q.
Arguments popped {T} q.

(** What can happen next. *)
Inductive QueueStep (T : Type) : Type :=
| StepTryPush (x : T)
| StepNotifyOne (i : nat)     (** [notify_one] wakes consumer [i] *)
| StepNotifyNone              (** [notify_one] finds no consumer waiting *)
| StepPop (i : nat)           (** consumer [i] enters [Pop], or takes the mutex again *)
| StepSpurious (i : nat)
| StepClose
| StepNotifyAll.
Arguments StepTryPush {T} x.
Arguments StepNotifyOne {T} i.
Arguments StepNotifyNone {T}.
Arguments StepPop {T} i.
Arguments StepSpurious {T} i.
Arguments StepClose {T}.
Arguments StepNotifyAll {T}.

Section System.
Context {T : Type}.
Implicit Types (s : QueueSystem T).

Definition set_consumers (cs : list ConsumerState) s : QueueSystem T :=
  {| queue := queue s; consumers := cs; to_notify_one := to_notify_one s;
     to_notify_all := to_notify_all s; pushed := pushed s; popped := popped s |}.
Definition set_notify (one all : nat) s : QueueSystem T :=
  {| queue := queue s; consumers := consumers s; to_notify_one := one;
     to_notify_all := all; pushed := pushed s; popped := popped s |}.

Definition wake (c : ConsumerState) : ConsumerState :=
  match c with Waiting => Woken | c => c end.

(** [None]: the step is not possible in this state. *)
Definition queue_step (l : QueueStep T) s : option (QueueSystem T) :=
  match l with
  | StepTryPush x =>
    let '(ok, q) := TryPush x (queue s) in
    Some {| queue := q; consumers := consumers s;
            to_notify_one := if ok then S (to_notify_one s) else to_notify_one s;
            to_notify_all := to_notify_all s;
            pushed := if ok then pushed s ++ [x] else pushed s; popped := popped s |}
  | StepNotifyOne i =>
    match to_notify_one s, consumers s !! i with
    | S n, Some Waiting =>
        Some (set_notify n (to_notify_all s) (set_consumers (<[i := Woken]> (consumers s)) s))
    | _, _ => None
    end
  | StepNotifyNone =>
    match to_notify_one s with
    | S n => if bool_decide (Waiting ∈ consumers s) then None
             else Some (set_notify n (to_notify_all s) s)
    | O => None
    end
  | StepPop i =>
    match consumers s !! i with
    | Some Outside | Some Woken =>
      match Pop (queue s) with
      | Some (r, q) =>
        Some {| queue := q; consumers := <[i := Outside]> (consumers s);
                to_notify_one := to_notify_one s; to_notify_all := to_notify_all s;
                pushed := pushed s; popped := popped s ++ option_list r |}
      | None => Some (set_consumers (<[i := Waiting]> (consumers s)) s)
      end
    | _ => None
    end
  | StepSpurious i =>
    match consumers s !! i with
    | Some Waiting => Some (set_consumers (<[i := Woken]> (consumers s)) s)
    | _ => None
    end
  | StepClose =>
    Some {| queue := Close (queue s); consumers := consumers s;
            to_notify_one := to_notify_one s; to_notify_all := S (to_notify_all s);
            pushed := pushed s; popped := popped s |}
  | StepNotifyAll =>
    match to_notify_all s with
    | S n => Some (set_notify (to_notify_one s) n (set_consumers (wake <$> consumers s) s))
    | O => None
    end
  end.

Definition queue_trans s s' : Prop := exists l, queue_step l s = Some s'.

(** A new queue with [n] consumer threads that have not called [Pop] yet. *)
Definition queue_start (capacity : Z) (n : nat) : QueueSystem T :=
  {| queue := {| capacity_ := capacity; items_ := []; closed_ := false |};
     consumers := replicate n Outside; to_notify_one := 0; to_notify_all := 0;
     pushed := []; popped := [] |}.

Definition queue_reachable (capacity : Z) (n : nat) s : Prop :=
  rtc queue_trans (queue_start capacity n) s.

Fixpoint queue_exec (ls : list (QueueStep T)) s : option (QueueSystem T) :=
  match ls with
  | [] => Some s
  | l :: ls => s ← queue_step l s; queue_exec ls s
  end.

Lemma queue_exec_rtc ls s s' : queue_exec ls s = Some s' -> rtc queue_trans s s'.
Proof.
  revert s. induction ls as [|l ls IH]; intros s; simpl; [by intros [= <-]|].
  destruct (queue_step l s) as [s1|] eqn:Hl; [|done]. intros H.
  apply rtc_l with s1; [by exists l|by apply IH].
Qed.

(** *** How many consumers are in a state *)

Definition is_in (c c' : ConsumerState) : nat :=
  match c, c' with
  | Outside, Outside | Waiting, Waiting | Woken, Woken => 1
  | _, _ => 0
  end.

Fixpoint count (c : ConsumerState) (cs : list ConsumerState) : nat :=
  match cs with
  | [] => 0
  | c' :: cs => is_in c c' + count c cs
  end.

Lemma count_insert c cs i old new :
  cs !! i = Some old ->
  (count c (<[i := new]> cs) + is_in c old = count c cs + is_in c new)%nat.
Proof.
  revert i. induction cs as [|c' cs IH]; intros [|i] H; try done.
  - injection H as ->. simpl. lia.
  - simpl. specialize (IH i H). lia.
Qed.

Lemma count_pos c cs : c ∈ cs <-> (0 < count c cs)%nat.
Proof.
  induction cs as [|c' cs IH]; [split; [by intros ?%not_elem_of_nil|simpl; lia]|].
  rewrite elem_of_cons, IH. simpl. destruct c, c'; simpl; split; intros H;
    try (destruct H; [done|]); try lia; first [by left | right; lia].
Qed.

Lemma count_wake cs :
  count Waiting (wake <$> cs) = 0%nat /\
  count Woken (wake <$> cs) = (count Woken cs + count Waiting cs)%nat.
Proof.
  induction cs as [|c cs IH]; [done|]. rewrite fmap_cons. simpl. destruct c; simpl; lia.
Qed.

(** A consumer in state [old] moves to state [new]. *)
Ltac move_consumer H new :=
  pose proof (count_insert Waiting _ _ _ new H);
  pose proof (count_insert Woken _ _ _ new H); simpl in *.

(** *** The invariant *)

(** Values come out in the order they went in.  A consumer waits although there
    is something to take only while enough wake-ups are on their way; none waits
    once the queue is closed and [notify_all] is done. *)
Definition queue_inv s : Prop :=
  BoundedQueue_wf (queue s) /\
  pushed s = popped s ++ items_ (queue s) /\
  (count Waiting (consumers s) = 0%nat \/
   (length (items_ (queue s)) <= count Woken (consumers s) + to_notify_one s)%nat) /\
  (closed_ (queue s) = true -> to_notify_all s = 0%nat ->
   count Waiting (consumers s) = 0%nat).

Lemma queue_start_inv capacity n : 0 < capacity -> queue_inv (queue_start capacity n).
Proof.
  intros H. unfold queue_start. split_and!; simpl; try done; [by split; [|apply Z.lt_le_incl]|].
  right. lia.
Qed.

Lemma queue_step_inv l s s' : queue_inv s -> queue_step l s = Some s' -> queue_inv s'.
Proof.
  intros (Hwf & Hpush & Hwait & Hclosed) Hstep.
  destruct l as [x|i| |i|i| |]; simpl in Hstep.
  - destruct (TryPush x (queue s)) as [ok q] eqn:Hq. injection Hstep as <-.
    apply TryPush_spec in Hq as (Hwf' & _ & Hc & Hi & _); [|done].
    unfold queue_inv; simpl. rewrite Hi, Hc, length_app, Hpush.
    do 2 (split; [destruct ok; by rewrite ?app_nil_r, ?app_assoc|]).
    split; [|done]. destruct Hwait; [by left|right]. destruct ok; simpl; lia.
  - destruct (to_notify_one s) as [|n] eqn:Hn; [done|].
    destruct (consumers s !! i) as [[]|] eqn:Hi; try done. injection Hstep as <-.
    move_consumer Hi Woken. unfold queue_inv; simpl.
    split_and!; try done; [lia|]. intros Hcl Hall. specialize (Hclosed Hcl Hall). lia.
  - destruct (to_notify_one s) as [|n] eqn:Hn; [done|].
    case_bool_decide as Hw; [done|]. injection Hstep as <-. rewrite count_pos in Hw.
    unfold queue_inv; simpl. split_and!; try done; lia.
  - destruct (Pop (queue s)) as [[r q]|] eqn:Hq.
    + apply Pop_spec in Hq as (Hwf' & _ & Hc & Hit & Hnone); [|done].
      rewrite Hit in Hpush, Hwait. rewrite length_app in Hwait.
      destruct (consumers s !! i) as [[]|] eqn:Hi; try done; injection Hstep as <-.
      all: move_consumer Hi Outside; unfold queue_inv; simpl; rewrite Hc, Hpush.
      all: split; [done|]; split; [by rewrite app_assoc|].
      all: split; [destruct r; [simpl in *; lia|]; destruct (Hnone eq_refl) as [_ ->]; simpl; lia|]; intros Hcl Hall.
      all: specialize (Hclosed Hcl Hall); lia.
    + apply Pop_blocks in Hq as [Hc Hit].
      destruct (consumers s !! i) as [[]|] eqn:Hi; try done; injection Hstep as <-.
      all: unfold queue_inv; simpl; rewrite Hc, Hit in *; simpl.
      all: do 2 (split; [done|]); split; [right; lia|done].
  - destruct (consumers s !! i) as [[]|] eqn:Hi; try done. injection Hstep as <-.
    move_consumer Hi Woken. unfold queue_inv; simpl.
    split_and!; try done; [lia|]. intros Hcl Hall. specialize (Hclosed Hcl Hall). lia.
  - injection Hstep as <-. unfold queue_inv, BoundedQueue_wf in *; simpl.
    do 3 (split; [done|]). done.
  - destruct (to_notify_all s) as [|n] eqn:Hn; [done|]. injection Hstep as <-.
    unfold queue_inv; simpl. destruct (count_wake (consumers s)) as [H1 H2].
    do 2 (split; [done|]). split; [by left|done].
Qed.

Lemma queue_reachable_inv capacity n s :
  0 < capacity -> queue_reachable capacity n s -> queue_inv s.
Proof.
  intros Hc Hr. unfold queue_reachable in Hr.
  pose proof (queue_start_inv capacity n Hc) as Hinv.
  induction Hr as [|s1 s2 s3 [l Hl] _ IH]; [done|]. eauto using queue_step_inv.
Qed.

Lemma queue_step_capacity l s s' :
  queue_step l s = Some s' -> capacity_ (queue s') = capacity_ (queue s).
Proof.
  unfold queue_step, TryPush, Pop, Pop_take. intros H.
  repeat case_match; simplify_eq; simpl; done.
Qed.

(** ** Properties *)

(** C37.  Whatever the interleaving of any number of producers, consumers, a
    [Close] and spurious wake-ups: the queue never holds more than its capacity;
    the values that consumers took, followed by the values still queued, are
    exactly the values producers were told were accepted, in order (none lost,
    duplicated or reordered); and [Pop] returns [nullopt] only from a closed
    queue of which every accepted value has been taken. *)
Theorem queue_fifo_bounded capacity n s :
  0 < capacity -> queue_reachable capacity n s ->
  BoundedQueue_size (queue s) <= capacity /\
  pushed s = popped s ++ items_ (queue s) /\
  (forall q, Pop (queue s) = Some (None, q) ->
     closed_ (queue s) = true /\ pushed s = popped s).
Proof.
  intros Hc Hr. destruct (queue_reachable_inv _ _ _ Hc Hr) as ([_ Hsize] & Hpush & _).
  split; [|split; [done|]].
  - assert (capacity_ (queue s) = capacity) as Hcap; [|unfold BoundedQueue_size; lia].
    clear -Hr. unfold queue_reachable in Hr.
    assert (capacity_ (queue (queue_start capacity n)) = capacity) as H by done.
    induction Hr as [|s1 s2 s3 [l Hl] _ IH]; [done|]. apply IH.
    by rewrite (queue_step_capacity _ _ _ Hl).
  - intros q Hq. unfold Pop in Hq. destruct (Pop_ready (queue s)) eqn:Hready; [|done].
    unfold Pop_take, Pop_ready in *. destruct (items_ (queue s)) eqn:Hi; [|done].
    simpl in Hready. rewrite orb_false_r in Hready. by rewrite Hpush, app_nil_r.
Qed.

(** C38.  No wake-up is lost: in every reachable state in which no notification
    is still to be delivered and no woken consumer is still to take the mutex,
    a consumer that is blocked in [Pop] has nothing to take - the queue is empty
    and open.  So a push wakes a consumer if one is needed, and [Close] wakes
    them all. *)
Theorem queue_no_lost_wakeup capacity n s i :
  0 < capacity -> queue_reachable capacity n s ->
  to_notify_one s = 0%nat -> to_notify_all s = 0%nat -> Woken ∉ consumers s ->
  consumers s !! i = Some Waiting ->
  items_ (queue s) = [] /\ closed_ (queue s) = false.
Proof.
  intros Hc Hr H1 Hall Hwoken Hi.
  destruct (queue_reachable_inv _ _ _ Hc Hr) as (_ & _ & Hwait & Hclosed).
  assert (0 < count Waiting (consumers s))%nat as Hpos.
  { apply count_pos. by apply list_elem_of_lookup_2 with i. }
  rewrite count_pos in Hwoken. split.
  - apply length_zero_iff_nil. lia.
  - destruct (closed_ (queue s)); [|done]. specialize (Hclosed eq_refl Hall). lia.
Qed.
End System.

(** ** Witnesses *)

(** Two consumers; the first waits, is woken for a value that the second takes,
    and waits again. *)
Definition stolen_wakeup : list (QueueStep Z) :=
  [StepPop 0; StepTryPush 7; StepNotifyOne 0; StepPop 1; StepPop 0].

Definition after {T} (o : option (QueueSystem T)) : QueueSystem T :=
  match o with Some s => s | None => queue_start 1 0 end.

Definition stolen_state : QueueSystem Z := after (queue_exec stolen_wakeup (queue_start 1 2)).

Lemma stolen_reachable : queue_reachable 1 2 stolen_state.
Proof. apply (queue_exec_rtc stolen_wakeup). reflexivity. Qed.

Lemma queue_fifo_bounded_witness :
  popped stolen_state = [7] /\ BoundedQueue_size (queue stolen_state) <= 1.
Proof.
  split; [reflexivity|].
  apply (queue_fifo_bounded 1 2 stolen_state); [lia|apply stolen_reachable].
Defined.

Lemma queue_no_lost_wakeup_witness :
  items_ (queue stolen_state) = [] /\ closed_ (queue stolen_state) = false.
Proof.
  apply (queue_no_lost_wakeup 1 2 stolen_state 0); try reflexivity; [apply stolen_reachable|by_decide].
Defined.
