(* ===== verification/WorkerPool.v ===== *)
(** * The worker pool

    [include/pulsecore/network/worker_pool.hpp], [src/network/worker_pool.cpp]:
    the constructor, [TrySubmit], [Stop] and the worker loop; the pool with its
    threads as a transition system. *)

From S2P Require Import Prelude Codec BoundedQueue.

(** [ConnectionId] is its [value]. *)
Record WorkItem : Type := {
  item_connection_id : Z;
  item_sequence : Z;
  item_request : Message;
}.

Record WorkResult : Type := {
  result_connection_id : Z;
  result_sequence : Z;
  result_response : Message;
}.

Record WorkerPoolConfig : Type := {
  worker_count : Z;
  queue_capacity : Z;
}.

Definition WorkerPoolConfig_default : WorkerPoolConfig :=
  {| worker_count := 2; queue_capacity := 1024 |}.

(** A handler returns a response or throws. *)
Definition WorkHandler : Type := Message -> Result Message.

Definition worker_ErrorPayload (message : string) : list Byte :=
  (fun c => Z.of_N (Ascii.N_of_ascii c)) <$> String.list_ascii_of_string message.

Definition WorkerHandlerErrorResponse (id : Z) : Message :=
  {| type := kErrorResponse; request_id := id;
     payload := worker_ErrorPayload "worker handler failed" |}.

(** ** The worker loop

    One iteration: [Pop] returns an item ([WTake]; [nullopt] ends the loop), the
    handler runs on it and the completion callback is called with the result
    ([WFinish]), the callback returns ([WReturn]). *)
Inductive WorkerState : Type :=
| WorkerIdle
| WorkerBusy (item : WorkItem)
| WorkerCompleting
| WorkerExited.

Record WorkerPool : Type := {
  config_ : WorkerPoolConfig;
  queue_ : BoundedQueue WorkItem;
  workers_ : list WorkerState;
}.

Inductive WorkerAction : Type :=
| WTake (i : nat)
| WFinish (i : nat)
| WReturn (i : nat).

Definition set_workers (ws : list WorkerState) (p : WorkerPool) : WorkerPool :=
  {| config_ := config_ p; queue_ := queue_ p; workers_ := ws |}.

(** What the worker passes to [on_complete_]; the two [catch] clauses cover
    every exception. *)
Definition WorkerLoop_result (handler_ : WorkHandler) (item : WorkItem) : Result WorkResult :=
  let id := request_id (item_request item) in
  let complete response :=
    Return {| result_connection_id := item_connection_id item;
              result_sequence := item_sequence item;
              result_response := response |} in
  match handler_ (item_request item) with
  | Return response => complete response
  | Throw _ => complete (WorkerHandlerErrorResponse id)
  | Undefined => Undefined
  | OutOfFuel => OutOfFuel
  end.

(** A step of worker [i]; [None] when it cannot make it.  The result is the one
    the step calls [on_complete_] with. *)
Definition WorkerLoop (handler_ : WorkHandler) (a : WorkerAction) (p : WorkerPool) :
    option (option (Result WorkResult) * WorkerPool) :=
  match a with
  | WTake i =>
    match workers_ p !! i with
    | Some WorkerIdle =>
      '(popped, q) ← Pop (queue_ p);
      let w := match popped with Some item => WorkerBusy item | None => WorkerExited end in
      Some (None, {| config_ := config_ p; queue_ := q; workers_ := <[i := w]> (workers_ p) |})
    | _ => None
    end
  | WFinish i =>
    match workers_ p !! i with
    | Some (WorkerBusy item) =>
      Some (Some (WorkerLoop_result handler_ item),
            set_workers (<[i := WorkerCompleting]> (workers_ p)) p)
    | _ => None
    end
  | WReturn i =>
    match workers_ p !! i with
    | Some WorkerCompleting => Some (None, set_workers (<[i := WorkerIdle]> (workers_ p)) p)
    | _ => None
    end
  end.

(** ** The other members *)

Definition TrySubmit (item : WorkItem) (p : WorkerPool) : bool * WorkerPool :=
  let '(ok, q) := TryPush item (queue_ p) in
  (ok, {| config_ := config_ p; queue_ := q; workers_ := workers_ p |}).

(** [Stop] closes the queue and then joins the workers: it returns once each of
    them is [WorkerExited]. *)
Definition Stop_close (p : WorkerPool) : WorkerPool :=
  {| config_ := config_ p; queue_ := Close (queue_ p); workers_ := workers_ p |}.
Definition Stop_joined (p : WorkerPool) : bool :=
  forallb (fun w => match w with WorkerExited => true | _ => false end) (workers_ p).

Definition pending_work_count (p : WorkerPool) : Z := BoundedQueue_size (queue_ p).

(** The loop that starts the threads: [start_thread i] is the exception the
    creation of thread [i] throws, if any; the threads already started are then
    stopped and joined, and the exception leaves the constructor. *)
Fixpoint start_workers (start_thread : nat -> option Exception) (i n : nat)
    (ws : list WorkerState) : Result (list WorkerState) :=
  match n with
  | O => Return ws
  | S n =>
    match start_thread i with
    | Some e => Throw e
    | None => start_workers start_thread (S i) n (ws ++ [WorkerIdle])
    end
  end.

(** [has_callback] and [has_handler]: the two [std::function]s are not empty. *)
Definition WorkerPool_make (config : WorkerPoolConfig) (has_callback has_handler : bool)
    (start_thread : nat -> option Exception) : Result WorkerPool :=
  match BoundedQueue_make (queue_capacity config) with
  | Return q =>
    if worker_count config =? 0
    then Throw (InvalidArgument "worker count must be greater than zero") else
    if negb has_callback
    then Throw (InvalidArgument "worker completion callback must be set") else
    if negb has_handler
    then Throw (InvalidArgument "worker handler must be set") else
    if max_size sizeof_thread <? worker_count config
    then Throw (LogicError "vector::reserve") else
    match start_workers start_thread 0 (Z.to_nat (worker_count config)) [] with
    | Return ws => Return {| config_ := config; queue_ := q; workers_ := ws |}
    | Throw e => Throw e
    | Undefined => Undefined
    | OutOfFuel => OutOfFuel
    end
  | Throw e => Throw e
  | Undefined => Undefined
  | OutOfFuel => OutOfFuel
  end.

(** ** The pool as a transition system *)

Record PoolSystem : Type := {
  pool : WorkerPool;
  accepted : list WorkItem;             (** [TrySubmit] returned [true] *)
  completed : list (Result WorkResult); (** the calls of [on_complete_] *)
}.

Inductive PoolStep : Type :=
| PSubmit (item : WorkItem)
| PWorker (a : WorkerAction)
| PStop.

(** The items workers are running. *)
Definition running (ws : list WorkerState) : list WorkItem :=
  omap (fun w => match w with WorkerBusy item => Some item | _ => None end) ws.
Definition running_in (w : WorkerState) : list WorkItem := running [w].

Lemma running_insert ws i old new :
  ws !! i = Some old ->
  running (<[i := new]> ws) ++ running_in old ≡ₚ running ws ++ running_in new.
Proof.
  revert i. unfold running_in. induction ws as [|w ws IH]; intros [|i] H; try done.
  - injection H as ->. simpl. destruct old, new; simpl; solve_Permutation.
  - simpl. specialize (IH i H). destruct w; simpl; [done| |done|done]. by rewrite IH.
Qed.

Lemma exited_insert (ws : list WorkerState) (i : nat) (new : WorkerState) :
  WorkerExited ∈ <[i := new]> ws -> new = WorkerExited \/ WorkerExited ∈ ws.
Proof.
  revert i. induction ws as [|w ws IH]; intros [|i]; simpl; rewrite ?elem_of_cons; try tauto.
  - intros [->|]; tauto.
  - intros [->|[?|?]%IH]; tauto.
Qed.

(** Worker [i] moves to state [new]. *)
Ltac move_worker H new :=
  let Hrun := fresh "Hrun" in let Hexit := fresh "Hexit" in
  lazymatch type of H with
  | ?ws !! ?i = _ =>
    pose proof (running_insert ws i _ new H) as Hrun;
    pose proof (exited_insert ws i new) as Hexit
  end;
  unfold running_in in Hrun; simpl running in Hrun; rewrite ?app_nil_r in Hrun.

Section Pool.
Context (handler_ : WorkHandler).
Implicit Types (s : PoolSystem) (p : WorkerPool).

Definition pool_step (l : PoolStep) s : option PoolSystem :=
  match l with
  | PSubmit item =>
    let '(ok, p) := TrySubmit item (pool s) in
    Some {| pool := p; accepted := accepted s ++ (if ok then [item] else []);
            completed := completed s |}
  | PWorker a =>
    '(r, p) ← WorkerLoop handler_ a (pool s);
    Some {| pool := p; accepted := accepted s; completed := completed s ++ option_list r |}
  | PStop =>
    Some {| pool := Stop_close (pool s); accepted := accepted s; completed := completed s |}
  end.

Definition pool_start p : PoolSystem :=
  {| pool := p; accepted := []; completed := [] |}.

Fixpoint pool_exec (ls : list PoolStep) s : option PoolSystem :=
  match ls with
  | [] => Some s
  | l :: ls => s ← pool_step l s; pool_exec ls s
  end.

(** How far the workers are from the end of their loops: one step per item to
    take, run and return from, and one to exit. *)
Definition worker_steps (w : WorkerState) : nat :=
  match w with
  | WorkerIdle => 1 | WorkerBusy _ => 3 | WorkerCompleting => 2 | WorkerExited => 0
  end.
Definition remaining_steps p : nat :=
  (3 * length (items_ (queue_ p)) + sum_list_with worker_steps (workers_ p))%nat.

(** Every accepted item is queued, running or completed, once; workers exit only
    when the queue is closed and empty. *)
Definition pool_inv s : Prop :=
  BoundedQueue_wf (queue_ (pool s)) /\
  completed s ++ (WorkerLoop_result handler_ <$>
      running (workers_ (pool s)) ++ items_ (queue_ (pool s)))
    ≡ₚ (WorkerLoop_result handler_ <$> accepted s) /\
  (WorkerExited ∈ workers_ (pool s) ->
     closed_ (queue_ (pool s)) = true /\ items_ (queue_ (pool s)) = []).

Lemma worker_steps_insert ws i old new :
  ws !! i = Some old ->
  (sum_list_with worker_steps (<[i := new]> ws) + worker_steps old =
   sum_list_with worker_steps ws + worker_steps new)%nat.
Proof.
  revert i. induction ws as [|w ws IH]; intros [|i] H; try done.
  - injection H as ->. simpl. lia.
  - simpl. specialize (IH i H). lia.
Qed.

Lemma WorkerLoop_inv a s r p :
  pool_inv s -> WorkerLoop handler_ a (pool s) = Some (r, p) ->
  pool_inv {| pool := p; accepted := accepted s; completed := completed s ++ option_list r |}.
Proof.
  intros (Hwf & Hperm & Hex) Hstep. destruct a as [i|i|i]; simpl in Hstep;
    destruct (workers_ (pool s) !! i) as [[]|] eqn:Hi; try done.
  - destruct (Pop (queue_ (pool s))) as [[popped q]|] eqn:Hq; [|done].
    injection Hstep as <- <-. apply Pop_spec in Hq as (Hwf' & _ & Hc & Hit & Hnone); [|done].
    rewrite Hit in Hperm, Hex. unfold pool_inv; simpl. rewrite Hc.
    destruct popped as [item|]; simpl in *.
    + move_worker Hi (WorkerBusy item). split; [done|]. split.
      * rewrite Hrun, app_nil_r, <- Hperm. by rewrite <- app_assoc.
      * intros [?|H]%Hexit; [done|]. by destruct (Hex H).
    + move_worker Hi WorkerExited. destruct (Hnone eq_refl) as [Hcl Hnil].
      split; [done|]. split; [by rewrite Hrun, app_nil_r|]. by rewrite Hcl, Hnil.
  - injection Hstep as <- <-. move_worker Hi WorkerCompleting.
    split; [done|]. split; [|by intros [?|?]%Hexit; auto]. simpl.
    rewrite <- Hperm, <- Hrun, !fmap_app. simpl. solve_Permutation.
  - injection Hstep as <- <-. move_worker Hi WorkerIdle.
    split; [done|]. split; [|by intros [?|?]%Hexit; auto]. simpl.
    by rewrite Hrun, app_nil_r.
Qed.

Lemma pool_step_inv l s s' : pool_inv s -> pool_step l s = Some s' -> pool_inv s'.
Proof.
  intros Hinv. pose proof Hinv as (Hwf & Hperm & Hex). destruct l as [item|a|]; simpl.
  - unfold TrySubmit. destruct (TryPush item (queue_ (pool s))) as [ok q] eqn:Hq.
    intros [= <-]. apply TryPush_spec in Hq as (Hwf' & _ & Hc & Hit & Hok); [|done].
    unfold pool_inv; simpl. rewrite Hc, Hit. split; [done|]. split.
    + rewrite !fmap_app, <- Hperm, fmap_app. solve_Permutation.
    + intros [Hcl Hnil]%Hex. rewrite Hcl, Hnil. split; [done|]. destruct ok; [|done].
      destruct Hok as [Hok _]. destruct (Hok eq_refl). congruence.
  - destruct (WorkerLoop handler_ a (pool s)) as [[r p]|] eqn:Ha; [|done].
    intros [= <-]. by apply (WorkerLoop_inv a).
  - intros [= <-]. split; [exact Hwf|]. split; [exact Hperm|]. simpl.
    intros [_ H]%Hex. by split.
Qed.

Lemma pool_exec_inv ls s s' : pool_inv s -> pool_exec ls s = Some s' -> pool_inv s'.
Proof.
  revert s. induction ls as [|l ls IH]; intros s Hinv; simpl; [by intros [= <-]|].
  destruct (pool_step l s) as [s1|] eqn:Hl; [|done]. simpl. eauto using pool_step_inv.
Qed.

Lemma start_workers_idle start_thread i n ws ws' :
  start_workers start_thread i n ws = Return ws' -> ws' = ws ++ replicate n WorkerIdle.
Proof.
  revert i ws. induction n as [|n IH]; intros i ws; simpl.
  - intros [= <-]. by rewrite app_nil_r.
  - destruct (start_thread i); [done|]. intros ->%IH. by rewrite <- app_assoc.
Qed.

Lemma WorkerPool_make_spec config cb h st p :
  is_u64 (queue_capacity config) -> WorkerPool_make config cb h st = Return p ->
  cb = true /\ h = true /\ (worker_count config <> 0 /\ worker_count config < 2 ^ 60) /\
  p = {| config_ := config;
         queue_ := {| capacity_ := queue_capacity config; items_ := []; closed_ := false |};
         workers_ := replicate (Z.to_nat (worker_count config)) WorkerIdle |} /\
  pool_inv (pool_start p).
Proof.
  unfold WorkerPool_make, BoundedQueue_make, is_u64. intros Hcap.
  destruct (Z.eqb_spec (queue_capacity config) 0); [done|].
  destruct (Z.eqb_spec (worker_count config) 0); [done|].
  destruct cb, h; try done. simpl.
  destruct (Z.ltb_spec (max_size sizeof_thread) (worker_count config)) as [|Hmax]; [done|].
  change (max_size sizeof_thread) with (2 ^ 60 - 1) in Hmax.
  destruct (start_workers st _ _ _) as [ws| | |] eqn:Hws; intros [= <-].
  apply start_workers_idle in Hws as ->. do 2 (split; [done|]). split; [lia|]. split; [done|].
  split; [|split]; simpl.
  - split; [simpl; lia|]. simpl. rewrite len_nil. lia.
  - rewrite app_nil_r. by induction (Z.to_nat _).
  - by intros [? _]%elem_of_replicate.
Qed.

(** The states a pool with this configuration can reach. *)
Definition pool_reachable (config : WorkerPoolConfig) s : Prop :=
  exists start_thread p ls,
    WorkerPool_make config true true start_thread = Return p /\
    pool_exec ls (pool_start p) = Some s.

Lemma pool_step_capacity l s s' :
  pool_step l s = Some s' ->
  capacity_ (queue_ (pool s')) = capacity_ (queue_ (pool s)) /\
  length (workers_ (pool s')) = length (workers_ (pool s)).
Proof.
  destruct l as [item|[i|i|i]|]; simpl; unfold TrySubmit, TryPush, Pop, Pop_take; intros H;
    repeat case_match; simplify_eq; simpl in *; simplify_option_eq;
    rewrite ?length_insert; try done; repeat case_match; simplify_eq; done.
Qed.

Lemma pool_exec_capacity ls s s' :
  pool_exec ls s = Some s' ->
  capacity_ (queue_ (pool s')) = capacity_ (queue_ (pool s)) /\
  length (workers_ (pool s')) = length (workers_ (pool s)).
Proof.
  revert s. induction ls as [|l ls IH]; intros s; simpl; [by intros [= <-]|].
  destruct (pool_step l s) as [s1|] eqn:Hl; [|done]. simpl. intros [-> ->]%IH.
  by apply pool_step_capacity with l.
Qed.

Lemma pool_reachable_inv config s :
  is_u64 (queue_capacity config) -> is_u64 (worker_count config) -> pool_reachable config s ->
  pool_inv s /\ capacity_ (queue_ (pool s)) = queue_capacity config /\
  (0 < length (workers_ (pool s)))%nat.
Proof.
  intros Hcap Hn (st & p & ls & Hmake & Hexec).
  apply WorkerPool_make_spec in Hmake as (_ & _ & Hc & -> & Hinv); [|done].
  split; [by eapply pool_exec_inv|].
  apply pool_exec_capacity in Hexec as [-> ->]. simpl. split; [done|].
  rewrite length_replicate. unfold is_u64 in Hn. lia.
Qed.

(** *** Draining *)

(** The steps that worker threads make in a run. *)
Definition worker_moves (ls : list PoolStep) : nat :=
  length (List.filter (fun l => match l with PWorker _ => true | _ => false end) ls).

Lemma closed_step l s s' :
  pool_inv s -> closed_ (queue_ (pool s)) = true -> pool_step l s = Some s' ->
  closed_ (queue_ (pool s')) = true /\ accepted s' = accepted s /\
  (remaining_steps (pool s') + worker_moves [l] = remaining_steps (pool s))%nat.
Proof.
  intros (Hwf & _ & _) Hcl. destruct l as [item|a|]; simpl.
  - unfold TrySubmit, TryPush. rewrite Hcl. simpl. intros [= <-]. simpl.
    rewrite app_nil_r. split; [done|]. split; [done|]. unfold remaining_steps, worker_moves. simpl. lia.
  - unfold remaining_steps, worker_moves. intros Hstep.
    destruct a as [i|i|i]; simpl in Hstep;
      destruct (workers_ (pool s) !! i) as [[]|] eqn:Hi; try done.
    + destruct (Pop (queue_ (pool s))) as [[popped q]|] eqn:Hq; [|done].
      injection Hstep as <-. apply Pop_spec in Hq as (_ & _ & Hc & Hit & _); [|done].
      rewrite Hit. simpl. rewrite Hc. split; [done|]. split; [done|]. destruct popped as [item|].
      * pose proof (worker_steps_insert _ _ _ (WorkerBusy item) Hi). simpl in *. lia.
      * pose proof (worker_steps_insert _ _ _ WorkerExited Hi). simpl in *. lia.
    + injection Hstep as <-. split; [done|]. split; [done|].
      pose proof (worker_steps_insert _ _ _ WorkerCompleting Hi). simpl in *. lia.
    + injection Hstep as <-. split; [done|]. split; [done|].
      pose proof (worker_steps_insert _ _ _ WorkerIdle Hi). simpl in *. lia.
  - intros [= <-]. split; [done|]. split; [done|]. unfold remaining_steps, worker_moves. simpl. lia.
Qed.

Lemma closed_exec ls s s' :
  pool_inv s -> closed_ (queue_ (pool s)) = true -> pool_exec ls s = Some s' ->
  closed_ (queue_ (pool s')) = true /\ accepted s' = accepted s /\
  (remaining_steps (pool s') + worker_moves ls = remaining_steps (pool s))%nat.
Proof.
  revert s. induction ls as [|l ls IH]; intros s Hinv Hcl; simpl.
  - intros [= <-]. split; [done|]. split; [done|]. unfold worker_moves. simpl. lia.
  - destruct (pool_step l s) as [s1|] eqn:Hl; [|done]. simpl. intros Hexec.
    destruct (closed_step _ _ _ Hinv Hcl Hl) as (Hcl1 & Hacc & Hm).
    destruct (IH s1) as (Hcl' & Hacc' & Hm'); [by eapply pool_step_inv|done|done|].
    split; [done|]. split; [congruence|].
    revert Hm. unfold worker_moves in *. simpl. destruct l; simpl; lia.
Qed.

Lemma closed_stuck s :
  closed_ (queue_ (pool s)) = true -> (forall a, pool_step (PWorker a) s = None) ->
  Stop_joined (pool s) = true.
Proof.
  intros Hcl Hstuck. apply forallb_forall. intros w [i Hi]%list_elem_of_In%list_elem_of_lookup.
  specialize (Hstuck (match w with WorkerIdle => WTake i | WorkerBusy _ => WFinish i
                      | _ => WReturn i end)).
  destruct w; simpl in Hstuck; rewrite ?Hi in Hstuck; try done.
  unfold Pop, Pop_ready in Hstuck. rewrite Hcl in Hstuck. simpl in Hstuck.
  by destruct (Pop_take (queue_ (pool s))).
Qed.

(** ** Properties *)

(** C35.  Whatever the interleaving of submissions, workers and [Stop], every
    accepted item is completed exactly once or still queued or running (as a
    multiset), the queue is bounded, and a refused submission leaves no trace.
    A result carries the connection id and sequence of its item, and an
    exception of the handler becomes the error response for its request. *)
Theorem pool_exactly_once config s :
  is_u64 (queue_capacity config) -> is_u64 (worker_count config) -> pool_reachable config s ->
  completed s ++ (WorkerLoop_result handler_ <$>
      running (workers_ (pool s)) ++ items_ (queue_ (pool s)))
    ≡ₚ (WorkerLoop_result handler_ <$> accepted s) /\
  pending_work_count (pool s) <= queue_capacity config /\
  (forall item s', fst (TrySubmit item (pool s)) = false ->
     pool_step (PSubmit item) s = Some s' ->
     pool s' = pool s /\ accepted s' = accepted s /\ completed s' = completed s) /\
  (forall item, In item (accepted s) -> forall e, handler_ (item_request item) = Throw e ->
     WorkerLoop_result handler_ item = Return
       {| result_connection_id := item_connection_id item;
          result_sequence := item_sequence item;
          result_response :=
            WorkerHandlerErrorResponse (request_id (item_request item)) |}).
Proof.
  intros Hcap Hn Hr. destruct (pool_reachable_inv _ _ Hcap Hn Hr) as (Hinv & Hc & _).
  destruct Hinv as (Hwf & Hperm & _). split; [done|]. split.
  { unfold pending_work_count, BoundedQueue_size. rewrite <- Hc. apply Hwf. }
  split.
  - intros item s'. simpl. unfold TrySubmit, TryPush.
    destruct (closed_ _ || _); simpl; [|done]. intros _ [= <-]. simpl.
    rewrite app_nil_r. by destruct (pool s).
  - intros item _ e He. unfold WorkerLoop_result. by rewrite He.
Qed.

(** C36.  [Stop] drains the pool: once the queue is closed no submission is
    accepted, the workers make at most [remaining_steps] more steps, and when
    none of them can make another one they have all left their loops - so the
    joins return - and exactly the accepted items have been completed. *)
Theorem pool_stop_drains config s ls s' :
  is_u64 (queue_capacity config) -> is_u64 (worker_count config) -> pool_reachable config s ->
  pool_exec (PStop :: ls) s = Some s' ->
  accepted s' = accepted s /\
  (worker_moves ls <= remaining_steps (pool s))%nat /\
  ((forall a, pool_step (PWorker a) s' = None) ->
     Stop_joined (pool s') = true /\
     completed s' ≡ₚ (WorkerLoop_result handler_ <$> accepted s)).
Proof.
  intros Hcap Hn Hr Hexec. destruct (pool_reachable_inv _ _ Hcap Hn Hr) as (Hinv & _ & Hlen).
  simpl in Hexec. set (s1 := {| pool := Stop_close (pool s); accepted := accepted s;
                                completed := completed s |}) in *.
  assert (pool_inv s1) as Hinv1 by exact (pool_step_inv PStop s s1 Hinv eq_refl).
  pose proof (closed_exec _ _ _ Hinv1 eq_refl Hexec) as (Hcl & Hacc & Hm).
  split; [exact Hacc|]. split; [change (remaining_steps (pool s)) with (remaining_steps (pool s1)); lia|].
  intros Hstuck. pose proof (closed_stuck _ Hcl Hstuck) as Hjoined. split; [done|].
  destruct (pool_exec_inv _ _ _ Hinv1 Hexec) as (_ & Hperm & Hex).
  apply pool_exec_capacity in Hexec as [_ Hlen']. simpl in Hlen'.
  assert (workers_ (pool s') = replicate (length (workers_ (pool s'))) WorkerExited) as Hall.
  { unfold Stop_joined in Hjoined. revert Hjoined. generalize (workers_ (pool s')).
    induction l as [|[] l IH]; simpl; try done. by intros <-%IH. }
  rewrite Hall in Hperm, Hex. destruct Hex as [_ Hnil].
  { apply elem_of_replicate. split; [done|lia]. }
  rewrite Hnil, app_nil_r in Hperm. change (accepted s) with (accepted s1).
  rewrite <- Hacc. etransitivity; [|exact Hperm].
  replace (running (replicate _ WorkerExited)) with (@nil WorkItem); [by rewrite app_nil_r|].
  generalize (length (workers_ (pool s'))). intros k. clear. by induction k.
Qed.
End Pool.

(** ** Witnesses *)

(** Echoes, but throws on request 3. *)
Definition sample_handler (m : Message) : Result Message :=
  if request_id m =? 3 then Throw (RuntimeError "boom") else Return m.

Definition sample_item (n : Z) : WorkItem :=
  {| item_connection_id := 1; item_sequence := n;
     item_request := {| type := kEchoRequest; request_id := n; payload := [] |} |}.

Definition sample_run : list PoolStep :=
  [PSubmit (sample_item 2); PSubmit (sample_item 3); PSubmit (sample_item 4);
   PWorker (WTake 1); PWorker (WTake 0); PWorker (WFinish 0)].

Definition sample_config : WorkerPoolConfig := {| worker_count := 2; queue_capacity := 2 |}.

Definition the_return {A} (default : A) (r : Result A) : A :=
  match r with Return a => a | _ => default end.

Definition sample_pool : WorkerPool :=
  the_return (Stop_close {| config_ := sample_config;
                            queue_ := {| capacity_ := 1; items_ := []; closed_ := true |};
                            workers_ := [] |})
    (WorkerPool_make sample_config true true (fun _ => None)).

Definition sample_system (ls : list PoolStep) : PoolSystem :=
  default (pool_start sample_pool) (pool_exec sample_handler ls (pool_start sample_pool)).

Lemma sample_reachable : pool_reachable sample_handler sample_config (sample_system sample_run).
Proof. exists (fun _ => None), sample_pool, sample_run. split; reflexivity. Qed.

(** The third submission is refused (capacity 2); request 3 throws. *)
Lemma pool_exactly_once_witness :
  length (accepted (sample_system sample_run)) = 2%nat /\
  WorkerLoop_result sample_handler (sample_item 3) = Return
    {| result_connection_id := 1; result_sequence := 3;
       result_response := WorkerHandlerErrorResponse 3 |}.
Proof.
  split; [reflexivity|].
  destruct (pool_exactly_once sample_handler sample_config (sample_system sample_run))
    as (_ & _ & _ & H); [by_decide|by_decide|apply sample_reachable|].
  apply (H (sample_item 3)) with (RuntimeError "boom"); [|reflexivity]. simpl. tauto.
Defined.

Definition sample_drain : list PoolStep :=
  [PWorker (WReturn 0); PWorker (WTake 0); PWorker (WFinish 1); PSubmit (sample_item 5);
   PWorker (WReturn 1); PWorker (WTake 1)].

Lemma pool_stop_drains_witness :
  accepted (sample_system (sample_run ++ PStop :: sample_drain))
    = accepted (sample_system sample_run).
Proof.
  eapply (pool_stop_drains sample_handler sample_config (sample_system sample_run) sample_drain);
    [by_decide|by_decide|apply sample_reachable|reflexivity].
Defined.
