(* ===== verification/Connection.v ===== *)
(** * A non-blocking connection

    [include/pulsecore/network/connection.hpp], [src/network/connection.cpp]:
    bounded reads into the frame decoder, the bounded output buffer, bounded
    writes. *)

From S2P Require Import Prelude Os Scripted UniqueFd Codec.

Record ConnectionLimits : Type := {
  max_input_buffer : Z;
  max_output_buffer : Z;
}.

Definition ConnectionLimits_default : ConnectionLimits :=
  {| max_input_buffer := kHeaderSize + kMaxPayloadSize;
     max_output_buffer := kHeaderSize + kMaxPayloadSize |}.

Definition kDefaultMaxReadBytesPerEvent : Z := 64 * 1024.
Definition kDefaultMaxWriteBytesPerEvent : Z := 64 * 1024.

Inductive ReadAvailableStatus : Type :=
| ReadOk | ReadWouldBlock | ReadPeerClosed | ReadProtocolError.

Record ReadAvailableResult : Type := {
  read_status : ReadAvailableStatus;
  messages : list Message;
  protocol_error : option ProtocolError;
}.

Definition ReadAvailableResult_Ok (ms : list Message) : ReadAvailableResult :=
  {| read_status := ReadOk; messages := ms; protocol_error := None |}.
Definition ReadAvailableResult_WouldBlock : ReadAvailableResult :=
  {| read_status := ReadWouldBlock; messages := []; protocol_error := None |}.
Definition ReadAvailableResult_PeerClosed (ms : list Message) : ReadAvailableResult :=
  {| read_status := ReadPeerClosed; messages := ms; protocol_error := None |}.
Definition ReadAvailableResult_ProtocolError (e : ProtocolError) (ms : list Message) :
    ReadAvailableResult :=
  {| read_status := ReadProtocolError; messages := ms; protocol_error := Some e |}.

Inductive WriteAvailableStatus : Type := WriteOk | WriteWouldBlock | WritePeerClosed.

Record WriteAvailableResult : Type := {
  write_status : WriteAvailableStatus;
  bytes_written : Z;
}.

#[export] Instance ReadAvailableStatus_eq_dec : EqDecision ReadAvailableStatus.
Proof. solve_decision. Defined.
#[export] Instance WriteAvailableStatus_eq_dec : EqDecision WriteAvailableStatus.
Proof. solve_decision. Defined.

Definition IsWouldBlock (error : Z) : bool := (error =? EAGAIN) || (error =? EWOULDBLOCK).
Definition IsPeerClosedError (error : Z) : bool := (error =? ECONNRESET) || (error =? EPIPE).

(** [limits_] and [fd_] of the class; [fd_] is [UniqueFd]'s here. *)
Record Connection : Type := {
  id_ : Z;
  socket_ : UniqueFd;
  limits_ : ConnectionLimits;
  decoder_ : FrameDecoder;
  output_buffer_ : list Byte;
  output_offset_ : Z;
}.

Definition Connection_make (id : Z) (fd : UniqueFd) (limits : ConnectionLimits) : Connection :=
  {| id_ := id; socket_ := fd; limits_ := limits; decoder_ := FrameDecoder_new;
     output_buffer_ := []; output_offset_ := 0 |}.

Definition set_decoder (d : FrameDecoder) (c : Connection) : Connection :=
  {| id_ := id_ c; socket_ := socket_ c; limits_ := limits_ c; decoder_ := d;
     output_buffer_ := output_buffer_ c; output_offset_ := output_offset_ c |}.
Definition set_output (buffer : list Byte) (offset : Z) (c : Connection) : Connection :=
  {| id_ := id_ c; socket_ := socket_ c; limits_ := limits_ c; decoder_ := decoder_ c;
     output_buffer_ := buffer; output_offset_ := offset |}.

Definition Connection_id (c : Connection) : Z := id_ c.
Definition Connection_fd (c : Connection) : Z := UniqueFd_get (socket_ c).
Definition pending_output_bytes (c : Connection) : Z :=
  u64 (len (output_buffer_ c) - output_offset_ c).
Definition has_pending_output (c : Connection) : bool := 0 <? pending_output_bytes c.
Definition output_storage_bytes (c : Connection) : Z := len (output_buffer_ c).
Definition buffered_input_bytes (c : Connection) : Z := FrameDecoder_BufferedSize (decoder_ c).

Section Operations.
Context `{Sys : OS}.

(** ** Descriptor flags *)

Definition SetNonBlocking {X} (fd : Z) : M (St X) unit :=
  flags ← fcntl_getfl fd;
  match flags with
  | IoErr e => throw (SyscallRuntimeError "fcntl(F_GETFL)" e)
  | IoOk flags =>
    if negb (Z.land flags O_NONBLOCK =? 0) then mret tt else
    r ← fcntl_setfl fd (Z.lor flags O_NONBLOCK);
    match r with
    | IoErr e => throw (SyscallRuntimeError "fcntl(F_SETFL)" e)
    | IoOk _ => mret tt
    end
  end.

Definition IsNonBlocking {X} (fd : Z) : M (St X) bool :=
  flags ← fcntl_getfl fd;
  match flags with
  | IoErr e => throw (SyscallRuntimeError "fcntl(F_GETFL)" e)
  | IoOk flags => mret (negb (Z.land flags O_NONBLOCK =? 0))
  end.

(** ** Reading *)

(** [messages] is the out-parameter, returned with the result. *)
Fixpoint DrainDecoder_loop (fuel : nat) (ms : list Message) :
    M (St Connection) (option ProtocolError * list Message) :=
  match fuel with
  | O => out_of_fuel
  | S fuel =>
    this ← get_self;
    '(result, d) ← the (FrameDecoder_Next (decoder_ this));
    put_self (set_decoder d this) ;;
    match status result with
    | kNeedMoreData => mret (None, ms)
    | kError => mret (error result, ms)
    | kDecoded => m ← the (message result); DrainDecoder_loop fuel (ms ++ [m])
    end
  end.

(** Every frame has bytes, so there are no more than the buffer has. *)
Definition DrainDecoder (ms : list Message) :
    M (St Connection) (option ProtocolError * list Message) :=
  this ← get_self;
  DrainDecoder_loop (S (length (buffer_ (decoder_ this)))) ms.

(** The size of the array [bytes]. *)
Definition read_chunk_size : Z := 4096.

Fixpoint ReadAvailable_loop (fuel : nat) (max_read_bytes : Z)
    (ms : list Message) (made_progress : bool) (total_read : Z) :
    M (St Connection) ReadAvailableResult :=
  match fuel with
  | O => out_of_fuel
  | S fuel =>
    '(error, ms) ← DrainDecoder ms;
    match error with
    | Some e => mret (ReadAvailableResult_ProtocolError e ms)
    | None =>
      if max_read_bytes <=? total_read then mret (ReadAvailableResult_Ok ms) else
      this ← get_self;
      if max_input_buffer (limits_ this) <=? FrameDecoder_BufferedSize (decoder_ this)
      then mret (ReadAvailableResult_ProtocolError kPayloadTooLarge ms) else
      let read_budget := u64 (max_read_bytes - total_read) in
      let input_space :=
        u64 (max_input_buffer (limits_ this) - FrameDecoder_BufferedSize (decoder_ this)) in
      let bytes_to_read := Z.min (Z.min read_chunk_size read_budget) input_space in
      received ← recv (id_ this) (UniqueFd_get (socket_ this)) bytes_to_read;
      match received with
      | IoErr saved_errno =>
        if saved_errno =? EINTR
        then ReadAvailable_loop fuel max_read_bytes ms made_progress total_read else
        if IsWouldBlock saved_errno then
          if made_progress || negb (len ms =? 0) then mret (ReadAvailableResult_Ok ms)
          else mret ReadAvailableResult_WouldBlock
        else
        if IsPeerClosedError saved_errno then mret (ReadAvailableResult_PeerClosed ms)
        else throw (SyscallRuntimeError "recv" saved_errno)
      | IoOk bytes =>
        if len bytes =? 0 then mret (ReadAvailableResult_PeerClosed ms) else
        this ← get_self;
        put_self (set_decoder (FrameDecoder_Append (decoder_ this) bytes) this) ;;
        ReadAvailable_loop fuel max_read_bytes ms true (u64 (total_read + len bytes))
      end
    end
  end.

Definition ReadAvailable (fuel : nat) (max_read_bytes : Z) :
    M (St Connection) ReadAvailableResult :=
  ReadAvailable_loop fuel max_read_bytes [] false 0.

(** ** Writing *)

Definition CompactOutputBuffer (c : Connection) : Connection :=
  if output_offset_ c =? 0 then c else
  if len (output_buffer_ c) <=? output_offset_ c then set_output [] 0 c else
  set_output (zdrop (output_offset_ c) (output_buffer_ c)) 0 c.

Definition QueueOutput (m : Message) : M (St Connection) bool :=
  match EncodeMessage m with
  | None => mret false
  | Some encoded =>
    this ← get_self;
    put_self (CompactOutputBuffer this) ;;
    this ← get_self;
    let pending := pending_output_bytes this in
    if max_output_buffer (limits_ this) <? pending then mret false else
    if u64 (max_output_buffer (limits_ this) - pending) <? len encoded then mret false else
    if pending =? 0 then put_self (set_output encoded 0 this) ;; mret true else
    put_self (set_output (output_buffer_ this ++ encoded) (output_offset_ this) this) ;;
    mret true
  end.

Fixpoint WriteAvailable_loop (fuel : nat) (max_write_bytes written : Z) :
    M (St Connection) WriteAvailableResult :=
  let result st := {| write_status := st; bytes_written := written |} in
  match fuel with
  | O => out_of_fuel
  | S fuel =>
    this ← get_self;
    if output_offset_ this <? len (output_buffer_ this) then
      if max_write_bytes <=? written then mret (result WriteOk) else
      let remaining_budget := u64 (max_write_bytes - written) in
      let pending := u64 (len (output_buffer_ this) - output_offset_ this) in
      let bytes_to_write := Z.min pending remaining_budget in
      sent ← send (id_ this) (UniqueFd_get (socket_ this))
               (ztake bytes_to_write (zdrop (output_offset_ this) (output_buffer_ this)));
      match sent with
      | IoErr saved_errno =>
        if saved_errno =? EINTR then WriteAvailable_loop fuel max_write_bytes written else
        if IsWouldBlock saved_errno then mret (result WriteWouldBlock) else
        if IsPeerClosedError saved_errno then mret (result WritePeerClosed)
        else throw (SyscallRuntimeError "send" saved_errno)
      | IoOk bytes_sent =>
        if bytes_sent =? 0 then mret (result WriteWouldBlock) else
        put_self (set_output (output_buffer_ this) (u64 (output_offset_ this + bytes_sent)) this) ;;
        WriteAvailable_loop fuel max_write_bytes (u64 (written + bytes_sent))
      end
    else
      put_self (set_output [] 0 this) ;;
      mret (result WriteOk)
  end.

Definition WriteAvailable (fuel : nat) (max_write_bytes : Z) :
    M (St Connection) WriteAvailableResult :=
  WriteAvailable_loop fuel max_write_bytes 0.
End Operations.

(** ** The invariant of a connection *)

(** The bytes queued and not yet sent. *)
Definition unsent (c : Connection) : list Byte := zdrop (output_offset_ c) (output_buffer_ c).

(** In a history [h]: offsets are in range, and both buffers within limits. *)
Definition Connection_wf (c : Connection) (h : History) : Prop :=
  FrameDecoder_wf (decoder_ c) /\
  len (buffer_ (decoder_ c)) <= len (all_received h) /\
  len (pending (decoder_ c)) <= max_input_buffer (limits_ c) /\
  0 <= output_offset_ c <= len (output_buffer_ c) /\
  len (output_buffer_ c) <= max_output_buffer (limits_ c) /\
  is_u64 (max_input_buffer (limits_ c)) /\ is_u64 (max_output_buffer (limits_ c)).

(** The system calls of a read and of a write. *)
Definition recv_event (c : Connection) (e : SysEvent) : Prop :=
  match e with EvRecv o fd _ _ => o = id_ c /\ fd = Connection_fd c | _ => False end.
Definition send_event (c : Connection) (e : SysEvent) : Prop :=
  match e with EvSend o fd _ _ => o = id_ c /\ fd = Connection_fd c | _ => False end.

Lemma Connection_make_wf id fd limits h :
  is_u64 (max_input_buffer limits) -> is_u64 (max_output_buffer limits) ->
  Connection_wf (Connection_make id fd limits) h.
Proof.
  intros Hi Ho. split; [apply FrameDecoder_new_wf|].
  pose proof (len_nonneg (all_received h)). simpl. unfold is_u64 in *.
  change (len (pending FrameDecoder_new)) with 0. change (len (@nil Z)) with 0. lia.
Qed.

Lemma Connection_wf_hist c h h' :
  len (all_received h) <= len (all_received h') -> Connection_wf c h -> Connection_wf c h'.
Proof. intros H (? & ? & ?). split; [done|]. split; [lia|done]. Qed.

Lemma pending_output_unsent c h :
  Connection_wf c h -> pending_output_bytes c = len (unsent c).
Proof.
  intros (_ & _ & _ & Hoff & Hmax & _ & Hu). unfold pending_output_bytes, unsent, is_u64 in *.
  rewrite len_zdrop by lia. apply u64_id. unfold is_u64. lia.
Qed.

Lemma has_pending_unsent c h :
  Connection_wf c h -> has_pending_output c = true <-> unsent c <> [].
Proof.
  intros Hwf. unfold has_pending_output. rewrite (pending_output_unsent c h Hwf), Z.ltb_lt.
  destruct (unsent c) as [|b l]; [by split|]. rewrite len_cons. pose proof (len_nonneg l).
  split; [done|lia].
Qed.

(** *** Draining the decoder *)

Lemma error_None_need bytes :
  status (decode_spec bytes) <> kDecoded ->
  error (decode_spec bytes) = None <-> status (decode_spec bytes) = kNeedMoreData.
Proof. unfold decode_spec. repeat case_match; done. Qed.

Lemma DrainDecoder_loop_spec fuel ms c h :
  FrameDecoder_wf (decoder_ c) -> len (pending (decoder_ c)) < Z.of_nat fuel ->
  wp (DrainDecoder_loop fuel ms)
    (fun r s' => exists k d',
       r = (error (decode_spec (pending d')), ms ++ k) /\ s' = mkSt (set_decoder d' c) h /\
       FrameDecoder_wf d' /\ Forall valid_message k /\
       len (buffer_ d') <= len (buffer_ (decoder_ c)) /\
       pending (decoder_ c) = frames k ++ pending d' /\
       status (decode_spec (pending d')) <> kDecoded)
    (fun _ _ => False) (mkSt c h).
Proof.
  revert ms c. induction fuel as [|fuel IH]; intros ms c Hwf Hfuel.
  { pose proof (len_nonneg (pending (decoder_ c))). lia. }
  simpl. apply wp_bind, wp_get_self. simpl.
  destruct (Next_spec _ Hwf) as (d' & Hnext & Hwf' & Hp & Hle & Hsame).
  apply wp_bind. eapply wp_the; [exact Hnext|]. apply wp_bind, wp_put_self. simpl hist.
  destruct (decode_message_inv _ (pending_bytes _ Hwf)) as [(Hd & m & Hm & Hmsg & Hb)|[Hd Hmsg]].
  - rewrite Hd, Hmsg. apply wp_bind. eapply wp_the; [done|].
    assert (kHeaderSize <= len (frame m)) as Hframe by (rewrite len_frame; len_lia).
    rewrite <- Hp in Hb. pose proof (f_equal len Hb) as Hlen. rewrite len_app in Hlen.
    unfold kHeaderSize in *.
    eapply wp_mono; [apply IH; [done|simpl; lia]| |done].
    intros r s' (k & d'' & -> & -> & Hwf'' & Hk & Hle' & Hp' & Hst). simpl in *.
    exists (m :: k), d''. rewrite <- app_assoc. do 3 (split; [done|]).
    split; [by constructor|]. split; [lia|]. split; [|done].
    by rewrite Hb, Hp', frames_cons, app_assoc.
  - rewrite (Hsame Hd) in *. pose proof (error_None_need _ Hd) as Herr.
    assert (exists k d', (error (decode_spec (pending (decoder_ c))), ms)
              = (error (decode_spec (pending d')), ms ++ k) /\
            mkSt (set_decoder (decoder_ c) c) h = mkSt (set_decoder d' c) h /\
            FrameDecoder_wf d' /\ Forall valid_message k /\
            len (buffer_ d') <= len (buffer_ (decoder_ c)) /\
            pending (decoder_ c) = frames k ++ pending d' /\
            status (decode_spec (pending d')) <> kDecoded) as Hdone.
    { exists [], (decoder_ c). rewrite app_nil_r. by split_and!. }
    destruct (status (decode_spec (pending (decoder_ c)))); [|done|]; apply wp_ret; [|done].
    by rewrite (proj2 Herr eq_refl) in Hdone.
Qed.

(** *** Reading *)

(** Calls of [recv] for [c]; they do not bring more bytes than a run receives. *)
Definition recv_run (c : Connection) (h es : History) : Prop :=
  Forall (recv_event c) es /\
  (len (all_received h) < 2 ^ 64 -> len (all_received (h ++ es)) < 2 ^ 64).

(** [c] in history [h] has received bytes and delivered the messages [k], and
    nothing else: bytes pending before and bytes received are the frames of [k]
    followed by the bytes pending now. *)
Definition reads (c : Connection) (h : History) (k : list Message) (s : St Connection) : Prop :=
  exists d es, s = mkSt (set_decoder d c) (h ++ es) /\ recv_run c h es /\
    Connection_wf (set_decoder d c) (h ++ es) /\ Forall valid_message k /\
    pending (decoder_ c) ++ received_of (id_ c) es = frames k ++ pending d.

(** How a read ended badly for the peer: end of stream or a reset. *)
Definition peer_gone {A} (r : IoResult (list A)) : bool :=
  match r with IoOk bytes => len bytes =? 0 | IoErr e => IsPeerClosedError e end.

Definition read_failure (e : Exception) : Prop :=
  exists errno, e = SyscallRuntimeError "recv" errno /\ errno <> EINTR /\
    IsWouldBlock errno = false /\ IsPeerClosedError errno = false.

(** What the status of a result says of the connection afterwards. *)
Definition read_meaning (r : ReadAvailableResult) (s : St Connection) : Prop :=
  let verdict := decode_spec (pending (decoder_ (self s))) in
  match read_status r with
  | ReadOk | ReadWouldBlock => protocol_error r = None /\ status verdict = kNeedMoreData
  | ReadPeerClosed =>
      protocol_error r = None /\ status verdict = kNeedMoreData /\
      exists h n x, hist s = h ++ [EvRecv (id_ (self s)) (Connection_fd (self s)) n x] /\
        peer_gone x = true
  | ReadProtocolError =>
      exists e, protocol_error r = Some e /\
        (verdict = DecodeResult_Error e \/
         (e = kPayloadTooLarge /\ status verdict = kNeedMoreData /\
          len (pending (decoder_ (self s))) = max_input_buffer (limits_ (self s))))
  end.

Section ReadProofs.
Context `{Sys : OS} {Laws : OSLaws Sys} {Short : ShortRun Sys}.

Lemma reads_refl c h : Connection_wf c h -> reads c h [] (mkSt c h).
Proof.
  intros Hwf. exists (decoder_ c), []. rewrite !app_nil_r.
  split; [by destruct c|]. split; [by split; [|rewrite app_nil_r]|]. by split; [destruct c|].
Qed.

Lemma reads_trans c h k1 s1 k2 s2 :
  reads c h k1 s1 -> reads (self s1) (hist s1) k2 s2 -> reads c h (k1 ++ k2) s2.
Proof.
  intros (d1 & es1 & -> & Hes1 & _ & Hk1 & Hp1) (d2 & es2 & -> & Hes2 & Hwf2 & Hk2 & Hp2).
  simpl in *. exists d2, (es1 ++ es2). rewrite <- app_assoc in Hwf2. rewrite <- app_assoc.
  destruct Hes1 as [Hes1 Hsh1], Hes2 as [Hes2 Hsh2]. rewrite <- app_assoc in Hsh2.
  split; [done|]. split; [by split; [apply Forall_app_2|auto]|]. split; [done|].
  split; [by apply Forall_app_2|].
  unfold received_of in *. by rewrite log_app, app_assoc, Hp1, <- app_assoc, Hp2, frames_app, app_assoc.
Qed.

Lemma reads_wf c h k s : reads c h k s -> Connection_wf (self s) (hist s).
Proof. by intros (d & es & -> & _ & Hwf & _). Qed.

(** [reads] changes the decoder only. *)
Lemma reads_frame c h k s :
  reads c h k s -> id_ (self s) = id_ c /\ socket_ (self s) = socket_ c /\ limits_ (self s) = limits_ c.
Proof. by intros (d & es & -> & _). Qed.

Lemma DrainDecoder_spec ms c h :
  Connection_wf c h ->
  wp (DrainDecoder ms)
    (fun r s' => exists k, r = (error (decode_spec (pending (decoder_ (self s')))), ms ++ k) /\
       reads c h k s' /\ hist s' = h /\
       status (decode_spec (pending (decoder_ (self s')))) <> kDecoded)
    (fun _ _ => False) (mkSt c h).
Proof.
  intros Hwf. pose proof Hwf as (Hd & Hbuf & Hpend & Hrest).
  unfold DrainDecoder. apply wp_bind, wp_get_self. simpl self.
  eapply wp_mono; [apply DrainDecoder_loop_spec; [done|]| |done].
  - rewrite len_pending by done. destruct Hd as ([? ?] & _). unfold len in *. lia.
  - intros r s' (k & d' & -> & -> & Hwf' & Hk & Hle & Hp & Hst). exists k. simpl.
    split; [done|]. split; [|done]. exists d', []. rewrite !app_nil_r.
    split; [done|]. split; [by split; [|rewrite app_nil_r]|]. split; [|done].
    pose proof (f_equal len Hp) as Hlen. rewrite len_app in Hlen.
    pose proof (len_nonneg (frames k)).
    split; [done|]. split; [simpl; lia|]. split; [simpl; lia|exact Hrest].
Qed.

(** The [recv] of [bytes]. *)
Lemma reads_bytes c h n bytes :
  Connection_wf c h -> os_recv h (Connection_fd c) n = IoOk bytes -> 0 < n ->
  n <= max_input_buffer (limits_ c) - len (pending (decoder_ c)) ->
  reads c h [] (mkSt (set_decoder (FrameDecoder_Append (decoder_ c) bytes) c)
                     (h ++ [EvRecv (id_ c) (Connection_fd c) n (IoOk bytes)])).
Proof.
  intros (Hd & Hbuf & Hpend & Hrest) Hrecv Hn Hspace.
  pose proof (recv_bytes _ _ _ _ Hrecv) as HF. pose proof (recv_len _ _ _ _ Hn Hrecv) as Hlen.
  pose proof (short_run _ _ _ _ Hrecv) as Hshort. pose proof (len_nonneg bytes).
  pose proof (len_nonneg (buffer_ (decoder_ c))).
  destruct (Append_wf (decoder_ c) bytes Hd HF) as [Hd' Hp]; [unfold is_u64; lia|].
  assert (all_received (h ++ [EvRecv (id_ c) (Connection_fd c) n (IoOk bytes)])
            = all_received h ++ bytes) as Hall by (unfold all_received; by rewrite log_snoc).
  eexists _, [_]. split; [done|]. split.
  { split; [by repeat constructor|]. rewrite Hall, len_app. lia. }
  split; [|split; [done|]].
  - split; [done|]. rewrite Hall. simpl. rewrite Hp, !len_app. split; [lia|]. split; [lia|done].
  - rewrite Hp. unfold received_of, log. simpl. by rewrite bool_decide_eq_true_2, app_nil_r.
Qed.

(** A [recv] that brings nothing. *)
Lemma reads_nothing c h n r :
  Connection_wf c h -> (forall bytes, r = IoOk bytes -> bytes = []) ->
  reads c h [] (mkSt c (h ++ [EvRecv (id_ c) (Connection_fd c) n r])).
Proof.
  intros Hwf Hr. exists (decoder_ c), [EvRecv (id_ c) (Connection_fd c) n r].
  assert (all_received (h ++ [EvRecv (id_ c) (Connection_fd c) n r]) = all_received h) as Hall.
  { unfold all_received. rewrite log_snoc. destruct r as [bytes|]; [rewrite (Hr bytes eq_refl)|];
      by rewrite app_nil_r. }
  split; [by destruct c|]. split; [split; [by repeat constructor|by rewrite Hall]|].
  split; [|split; [done|]].
  - apply Connection_wf_hist with h; [rewrite Hall; lia|by destruct c].
  - unfold received_of, log. simpl. rewrite app_nil_r.
    destruct r as [bytes|]; [|by rewrite app_nil_r].
    rewrite (Hr bytes eq_refl). by case_bool_decide; rewrite !app_nil_r.
Qed.

(** The fuel that a loop needs: one iteration per interrupted call that may
    still come, one per byte of the budget, and one to return. *)
Definition enough (fuel : nat) (h : History) (budget : Z) : Prop :=
  exists n, FewInterrupts Sys n /\ Z.of_nat (n - interrupts h) + budget < Z.of_nat fuel.

Lemma enough_0 h budget : 0 <= budget -> ~ enough 0 h budget.
Proof. intros Hb (n & _ & H). lia. Qed.

(** One more iteration, interrupted or with [k] more bytes. *)
Lemma enough_recv_interrupt fuel h budget o fd n :
  os_recv h fd n = IoErr EINTR ->
  enough (S fuel) h budget -> enough fuel (h ++ [EvRecv o fd n (IoErr EINTR)]) budget.
Proof.
  intros Hr (m & Hfew & Hlt). exists m. split; [done|]. rewrite interrupts_snoc. simpl.
  assert (interrupts h < m)%nat; [|lia]. destruct (Nat.lt_ge_cases (interrupts h) m); [done|].
  pose proof (few_recv h fd n ltac:(done)) as Hno. by rewrite Hr in Hno.
Qed.

Lemma enough_progress fuel h budget e budget' :
  budget' < budget -> is_interrupt e = false ->
  enough (S fuel) h budget -> enough fuel (h ++ [e]) budget'.
Proof.
  intros Hk He (m & Hfew & Hlt). exists m. split; [done|].
  rewrite interrupts_snoc, He. lia.
Qed.

Definition read_fails (c : Connection) (h : History) (fuel : nat) (budget : Z)
    (o : option Exception) (s : St Connection) : Prop :=
  (exists k, reads c h k s) /\
  match o with Some e => read_failure e | None => ~ enough fuel h budget end.

(** The result of the loop entered with [ms] messages and [budget] bytes to go. *)
Definition read_returns (c : Connection) (h : History) (ms : list Message) (made : bool)
    (budget : Z) (r : ReadAvailableResult) (s : St Connection) : Prop :=
  exists k, messages r = ms ++ k /\ reads c h k s /\ read_meaning r s /\
    len (received_of (id_ c) (hist s)) <= len (received_of (id_ c) h) + budget /\
    (read_status r = ReadWouldBlock ->
       made = false /\ messages r = [] /\ received_of (id_ c) (hist s) = received_of (id_ c) h).

(** The loop makes the steps [k1] to state [s1] and goes on from there. *)
Lemma read_returns_step c h k1 s1 ms made made' budget budget' r s :
  reads c h k1 s1 ->
  len (received_of (id_ c) (hist s1)) + budget' <= len (received_of (id_ c) h) + budget ->
  (made' = false -> made = false /\ received_of (id_ c) (hist s1) = received_of (id_ c) h) ->
  read_returns (self s1) (hist s1) (ms ++ k1) made' budget' r s ->
  read_returns c h ms made budget r s.
Proof.
  intros Hk1 Hb Hmade (k & Hms & Hk & Hmean & Hb' & Hwb).
  destruct (reads_frame _ _ _ _ Hk1) as (Hid & _ & _). rewrite Hid in Hb', Hwb.
  exists (k1 ++ k). split; [by rewrite Hms, app_assoc|].
  split; [by eapply reads_trans|]. split; [done|]. split; [lia|].
  intros H. destruct (Hwb H) as (Hm & Hnil & Heq). destruct (Hmade Hm) as [-> Heq'].
  by rewrite <- Heq'.
Qed.

Lemma read_fails_step c h k1 s1 fuel budget fuel' budget' o s :
  reads c h k1 s1 -> (enough fuel h budget -> enough fuel' (hist s1) budget') ->
  read_fails (self s1) (hist s1) fuel' budget' o s -> read_fails c h fuel budget o s.
Proof.
  intros Hk1 Hen [[k Hk] Ho]. split; [exists (k1 ++ k); by eapply reads_trans|].
  destruct o; tauto.
Qed.

(** What [recv] is asked for. *)
Lemma read_request c h max total :
  Connection_wf c h -> 0 <= total < max -> is_u64 max ->
  FrameDecoder_BufferedSize (decoder_ c) < max_input_buffer (limits_ c) ->
  let n := Z.min (Z.min read_chunk_size (u64 (max - total)))
                 (u64 (max_input_buffer (limits_ c) - FrameDecoder_BufferedSize (decoder_ c))) in
  0 < n /\ n <= max - total /\ n <= max_input_buffer (limits_ c) - len (pending (decoder_ c)).
Proof.
  intros (Hd & _ & _ & _ & _ & Hin & _) Ht Hmax. rewrite BufferedSize_pending by done.
  intros Hlt. pose proof (len_nonneg (pending (decoder_ c))). unfold is_u64 in *. simpl.
  rewrite !u64_id by (unfold is_u64; lia). unfold read_chunk_size. lia.
Qed.

Lemma received_of_recv c h n r :
  received_of (id_ c) (h ++ [EvRecv (id_ c) (Connection_fd c) n r]) =
  received_of (id_ c) h ++ match r with IoOk bytes => bytes | IoErr _ => [] end.
Proof. unfold received_of. rewrite log_snoc. destruct r; [by rewrite bool_decide_eq_true_2|done]. Qed.

(** Returning right after a [recv] that brought nothing. *)
Lemma read_returns_nothing c h n x ms made budget r :
  Connection_wf c h -> 0 <= budget -> (forall bytes, x = IoOk bytes -> bytes = []) ->
  messages r = ms -> (read_status r = ReadWouldBlock -> made = false /\ ms = []) ->
  read_meaning r (mkSt c (h ++ [EvRecv (id_ c) (Connection_fd c) n x])) ->
  read_returns c h ms made budget r (mkSt c (h ++ [EvRecv (id_ c) (Connection_fd c) n x])).
Proof.
  intros Hwf Hb Hx Hms Hwb Hmean. exists []. rewrite app_nil_r. split; [done|].
  split; [by apply reads_nothing|]. split; [done|]. simpl hist. rewrite received_of_recv.
  assert (match x with IoOk bytes => bytes | IoErr _ => [] end = []) as ->.
  { destruct x as [bytes|]; [by apply Hx|done]. }
  rewrite app_nil_r. split; [lia|]. rewrite Hms. intros H. by destruct (Hwb H).
Qed.

(** Returning without a [recv]. *)
Lemma read_returns_here c h ms made budget r :
  Connection_wf c h -> 0 <= budget -> messages r = ms -> read_status r <> ReadWouldBlock ->
  read_meaning r (mkSt c h) -> read_returns c h ms made budget r (mkSt c h).
Proof.
  intros Hwf Hb Hms Hst Hmean. exists []. rewrite app_nil_r. split; [done|]. split; [by apply reads_refl|].
  split; [done|]. simpl. split; [lia|done].
Qed.

(** The loop goes on, as far as its own fuel goes. *)
Definition loop_goes_on (fuel : nat) (max : Z) : Prop := forall ms made total c h,
  Connection_wf c h -> 0 <= total <= max ->
  wp (ReadAvailable_loop fuel max ms made total)
    (read_returns c h ms made (max - total)) (read_fails c h fuel (max - total)) (mkSt c h).

(** After a [recv] of [n] bytes that the loop asks for. *)
Definition asked (c : Connection) (h : History) (max total n : Z) : Prop :=
  0 < n /\ n <= max - total /\ n <= max_input_buffer (limits_ c) - len (pending (decoder_ c)).

Lemma read_received fuel max ms made total c h n bytes :
  loop_goes_on fuel max -> Connection_wf c h -> is_u64 max -> 0 <= total <= max -> asked c h max total n ->
  status (decode_spec (pending (decoder_ c))) = kNeedMoreData ->
  os_recv h (Connection_fd c) n = IoOk bytes ->
  wp (if len bytes =? 0 then mret (ReadAvailableResult_PeerClosed ms) else
      this ← get_self;
      put_self (set_decoder (FrameDecoder_Append (decoder_ this) bytes) this) ;;
      ReadAvailable_loop fuel max ms true (u64 (total + len bytes)))
    (read_returns c h ms made (max - total)) (read_fails c h (S fuel) (max - total))
    (mkSt c (h ++ [EvRecv (id_ c) (Connection_fd c) n (IoOk bytes)])).
Proof.
  intros IH Hwf Hmax Ht (Hn0 & Hnb & Hns) Hneed Hrecv. destruct (Z.eqb_spec (len bytes) 0) as [Heof|Hsome].
  { apply wp_ret, read_returns_nothing; [done|lia|by intros ? [= <-]; apply len_zero|done..|].
    split; [done|]. split; [done|]. do 3 eexists. split; [done|]. simpl. by apply Z.eqb_eq. }
  pose proof (reads_bytes c h n bytes Hwf Hrecv Hn0 Hns) as Hstep.
  pose proof (recv_len _ _ _ _ Hn0 Hrecv) as Hlen. pose proof (len_nonneg bytes).
  apply wp_bind, wp_get_self, wp_bind, wp_put_self. simpl.
  rewrite u64_id by (unfold is_u64 in *; lia).
  eapply wp_mono; [apply IH; [exact (reads_wf _ _ _ _ Hstep)|lia]| |].
  - intros r s Hr. eapply read_returns_step; [exact Hstep| | |].
    3: { rewrite app_nil_r. exact Hr. }
    all: simpl; rewrite received_of_recv, ?len_app; first [lia|done].
  - intros o s Ho. eapply read_fails_step; [exact Hstep| |exact Ho]. simpl. apply enough_progress; [lia|done].
Qed.

Lemma read_refused fuel max ms made total c h n errno :
  loop_goes_on fuel max -> Connection_wf c h -> 0 <= total <= max ->
  status (decode_spec (pending (decoder_ c))) = kNeedMoreData ->
  os_recv h (Connection_fd c) n = IoErr errno ->
  wp (if errno =? EINTR then ReadAvailable_loop fuel max ms made total else
      if IsWouldBlock errno then
        if made || negb (len ms =? 0) then mret (ReadAvailableResult_Ok ms)
        else mret ReadAvailableResult_WouldBlock
      else
      if IsPeerClosedError errno then mret (ReadAvailableResult_PeerClosed ms)
      else throw (SyscallRuntimeError "recv" errno))
    (read_returns c h ms made (max - total)) (read_fails c h (S fuel) (max - total))
    (mkSt c (h ++ [EvRecv (id_ c) (Connection_fd c) n (IoErr errno)])).
Proof.
  intros IH Hwf Ht Hneed Hrecv.
  assert (reads c h [] (mkSt c (h ++ [EvRecv (id_ c) (Connection_fd c) n (IoErr errno)])))
    as Hstep by by apply reads_nothing.
  destruct (Z.eqb_spec errno EINTR) as [->|Hintr]; [|destruct (IsWouldBlock errno) eqn:Hblock;
    [|destruct (IsPeerClosedError errno) eqn:Hgone]].
  - eapply wp_mono; [apply IH; [exact (reads_wf _ _ _ _ Hstep)|lia]| |].
    + intros r s Hr. eapply read_returns_step; [exact Hstep| | |].
      3: { rewrite app_nil_r. exact Hr. }
      all: simpl; rewrite received_of_recv, app_nil_r; first [lia|done].
    + intros o s Ho. eapply read_fails_step; [exact Hstep| |exact Ho]. by apply enough_recv_interrupt.
  - destruct (made || negb (len ms =? 0)) eqn:Hprogress; apply wp_ret.
    + apply read_returns_nothing; try done. lia.
    + apply orb_false_iff in Hprogress as [-> Hnil%negb_false_iff%Z.eqb_eq%len_zero].
      by apply read_returns_nothing; [done|lia|done|by rewrite Hnil|by split|].
  - apply wp_ret, read_returns_nothing; try done; [lia|]. split; [done|]. split; [done|]. by do 3 eexists.
  - apply wp_throw. split; [by exists []|]. by exists errno.
Qed.

Lemma ReadAvailable_loop_spec fuel max ms made total c h :
  Connection_wf c h -> is_u64 max -> 0 <= total <= max ->
  wp (ReadAvailable_loop fuel max ms made total)
    (read_returns c h ms made (max - total)) (read_fails c h fuel (max - total)) (mkSt c h).
Proof.
  intros Hwf Hmax. revert ms made total c h Hwf.
  induction fuel as [|fuel IH]; intros ms made total c h Hwf Ht.
  { apply wp_out_of_fuel. split; [exists []; by apply reads_refl|]. apply enough_0. lia. }
  simpl. eapply wp_call; [by apply DrainDecoder_spec|simpl|done].
  intros ? [c1 h1] (k1 & -> & Hk1 & Hh1 & Hst). simpl in Hh1, Hst. subst h1. simpl self.
  (* every return and every failure is that of the rest of the iteration *)
  eapply wp_mono with (Q := read_returns c1 h (ms ++ k1) made (max - total))
    (E := read_fails c1 h (S fuel) (max - total)).
  2: { intros r s. by apply (read_returns_step c h k1 (mkSt c1 h)); [|simpl; lia|]. }
  2: { intros o s. by apply (read_fails_step c h k1 (mkSt c1 h)). }
  pose proof (reads_wf _ _ _ _ Hk1) as Hwf1. simpl in Hwf1. pose proof (error_None_need _ Hst) as Herr.
  destruct (error (decode_spec (pending (decoder_ c1)))) as [e|] eqn:Hverr.
  { apply wp_ret, read_returns_here; [done|lia|done..|]. exists e. split; [done|]. left. simpl.
    revert Hverr. unfold decode_spec. repeat case_match; by intros [= <-]. }
  destruct Herr as [Hneed _]. specialize (Hneed eq_refl).
  destruct (Z.leb_spec max total) as [Hfull|Hroom].
  { by apply wp_ret, read_returns_here; [|lia|..]. }
  apply wp_bind, wp_get_self. simpl self.
  destruct (Z.leb_spec (max_input_buffer (limits_ c1)) (FrameDecoder_BufferedSize (decoder_ c1))) as [Hbig|Hspace].
  { apply wp_ret, read_returns_here; [done|lia|done..|]. exists kPayloadTooLarge. split; [done|]. right.
    split; [done|]. split; [done|]. destruct Hwf1 as (Hd & _ & Hle & _).
    rewrite BufferedSize_pending in Hbig by done. simpl. lia. }
  pose proof (read_request c1 h max total Hwf1 ltac:(lia) Hmax Hspace) as Hn. cbv zeta in Hn.
  set (n := Z.min (Z.min _ _) _) in *. clearbody n. change (UniqueFd_get (socket_ c1)) with (Connection_fd c1).
  apply wp_bind, wp_syscall. cbn [self hist].
  destruct (os_recv h (Connection_fd c1) n) as [bytes|errno] eqn:Hrecv; [by apply read_received|by apply read_refused].
Qed.
End ReadProofs.

(** *** Queueing output *)

Lemma CompactOutputBuffer_spec c h :
  Connection_wf c h ->
  CompactOutputBuffer c = set_output (output_buffer_ (CompactOutputBuffer c)) 0 c /\
  unsent c = output_buffer_ (CompactOutputBuffer c).
Proof.
  intros (_ & _ & _ & Hoff & _). unfold CompactOutputBuffer, unsent.
  destruct (Z.eqb_spec (output_offset_ c) 0) as [Hz|]; [rewrite Hz; by destruct c; simpl in *; subst|].
  destruct (Z.leb_spec (len (output_buffer_ c)) (output_offset_ c)); [|done].
  split; [done|]. apply zdrop_all. lia.
Qed.

Lemma QueueOutput_spec m c h :
  Connection_wf c h -> Message_wf m ->
  exists b c', QueueOutput m (mkSt c h) = (Return b, mkSt c' h) /\ Connection_wf c' h /\
    c' = set_output (output_buffer_ c') (output_offset_ c') c /\
    (b = true <-> encodable m /\
       len (unsent c) + len (frame m) <= max_output_buffer (limits_ c)) /\
    unsent c' = unsent c ++ (if b then frame m else []) /\
    (encodable m -> output_storage_bytes c' = len (unsent c')).
Proof.
  intros Hwf Hm. unfold QueueOutput. destruct (EncodeMessage_spec m (proj1 Hm)) as [[He ->]|[He ->]].
  2: { exists false, c. split; [done|]. split; [done|]. split; [by destruct c|].
       rewrite app_nil_r. split; [by split; [|intros []]|]. by split. }
  destruct (CompactOutputBuffer_spec c h Hwf) as [Hc Hu].
  destruct Hwf as (Hd & Hbuf & Hpend & Hoff & Hmax & Hi & Ho).
  assert (len (unsent c) <= max_output_buffer (limits_ c)) as Hle.
  { unfold unsent. rewrite len_zdrop by lia. lia. }
  do 3 (erewrite bind_return by reflexivity). cbn [self hist].
  rewrite Hu in *. rewrite Hc. set (buf := output_buffer_ (CompactOutputBuffer c)) in *.
  clearbody buf. unfold pending_output_bytes.
  cbn [output_buffer_ output_offset_ limits_ set_output]. rewrite Z.sub_0_r.
  pose proof (len_nonneg buf). pose proof (len_nonneg (frame m)). unfold is_u64 in Ho.
  rewrite (u64_id (len buf)) by (unfold is_u64; lia).
  rewrite (proj2 (Z.ltb_ge _ _)) by done. rewrite u64_id by (unfold is_u64; lia).
  assert (forall buf', len buf' <= max_output_buffer (limits_ c) ->
    Connection_wf (set_output buf' 0 c) h) as Hok.
  { intros buf' Hlen. pose proof (len_nonneg buf').
    split; [done|]. split; [done|]. split; [done|]. simpl. split; [lia|]. done. }
  destruct (Z.ltb_spec (max_output_buffer (limits_ c) - len buf) (len (frame m))) as [Hfull|Hfits].
  - exists false, (set_output buf 0 c). rewrite app_nil_r.
    split; [done|]. split; [by apply Hok|]. split; [done|]. split; [split; [done|intros [_ ?]; lia]|done].
  - destruct (Z.eqb_spec (len buf) 0) as [Hz|Hnz].
    + apply len_zero in Hz as ->. exists true, (set_output (frame m) 0 c).
      split; [done|]. split; [apply Hok; len_lia|]. split; [done|]. split; [|done].
      split; [|done]. intros _. split; [done|]. len_lia.
    + exists true, (set_output (buf ++ frame m) 0 c).
      split; [done|]. split; [apply Hok; len_lia|]. split; [done|]. split; [|done].
      split; [|done]. intros _. split; [done|]. len_lia.
Qed.

(** *** Writing *)

(** [c] in history [h] has sent some of its pending output, in order. *)
Definition writes (c : Connection) (h : History) (s : St Connection) : Prop :=
  exists buf off es, s = mkSt (set_output buf off c) (h ++ es) /\ Forall (send_event c) es /\
    Connection_wf (set_output buf off c) (h ++ es) /\
    unsent c = sent_of (id_ c) es ++ unsent (self s).

Definition write_failure (e : Exception) : Prop :=
  exists errno, e = SyscallRuntimeError "send" errno /\ errno <> EINTR /\
    IsWouldBlock errno = false /\ IsPeerClosedError errno = false.

(** The last call of a write that the kernel would not take more of, and of one
    whose peer is gone. *)
Definition send_stopped (st : WriteAvailableStatus) (r : IoResult Z) : Prop :=
  match st, r with
  | WriteWouldBlock, IoOk k => k = 0
  | WriteWouldBlock, IoErr e => IsWouldBlock e = true
  | WritePeerClosed, IoErr e => IsPeerClosedError e = true
  | _, _ => False
  end.

Definition write_meaning (max : Z) (r : WriteAvailableResult) (s : St Connection) : Prop :=
  match write_status r with
  | WriteOk => (unsent (self s) = [] /\ output_storage_bytes (self s) = 0) \/ bytes_written r = max
  | st => unsent (self s) <> [] /\
      exists h bytes x, hist s = h ++ [EvSend (id_ (self s)) (Connection_fd (self s)) bytes x] /\
        send_stopped st x
  end.

Section WriteProofs.
Context `{Sys : OS} {Laws : OSLaws Sys}.

Lemma writes_refl c h : Connection_wf c h -> writes c h (mkSt c h).
Proof.
  intros Hwf. exists (output_buffer_ c), (output_offset_ c), []. rewrite !app_nil_r.
  split; [by destruct c|]. split; [done|]. by split; [destruct c|].
Qed.

Lemma writes_trans c h s1 s2 :
  writes c h s1 -> writes (self s1) (hist s1) s2 -> writes c h s2.
Proof.
  intros (b1 & o1 & es1 & -> & Hes1 & _ & Hp1) (b2 & o2 & es2 & -> & Hes2 & Hwf2 & Hp2).
  simpl in *. exists b2, o2, (es1 ++ es2). rewrite <- app_assoc in Hwf2. rewrite <- app_assoc.
  split; [done|]. split; [by apply Forall_app_2|]. split; [done|].
  unfold sent_of in *. by rewrite log_app, Hp1, Hp2, app_assoc.
Qed.

Lemma writes_wf c h s : writes c h s -> Connection_wf (self s) (hist s).
Proof. by intros (b & o & es & -> & _ & Hwf & _). Qed.

Lemma Connection_wf_send c h o fd bytes r :
  Connection_wf c h -> Connection_wf c (h ++ [EvSend o fd bytes r]).
Proof.
  apply Connection_wf_hist. unfold all_received. rewrite log_snoc, len_app. simpl. len_lia.
Qed.

(** A [send] that takes [k] bytes of the window offered. *)
Lemma writes_bytes c h n k :
  Connection_wf c h -> 0 <= n <= len (unsent c) -> 0 <= k <= n ->
  writes c h (mkSt (set_output (output_buffer_ c) (output_offset_ c + k) c)
                   (h ++ [EvSend (id_ c) (Connection_fd c) (ztake n (unsent c)) (IoOk k)])).
Proof.
  intros Hwf Hn Hk. pose proof Hwf as (Hd & Hbuf & Hpend & Hoff & Hmax & Hlim).
  unfold unsent in Hn. rewrite len_zdrop in Hn by lia.
  eexists _, _, [_]. split; [done|]. split; [by repeat constructor|]. split.
  - apply Connection_wf_send. do 3 (split; [done|]). simpl. split; [lia|]. done.
  - unfold sent_of, log. simpl. rewrite bool_decide_eq_true_2, app_nil_r by done.
    unfold unsent. simpl. rewrite <- zdrop_zdrop by lia.
    replace (ztake k (ztake n _)) with (ztake k (zdrop (output_offset_ c) (output_buffer_ c))).
    + by rewrite ztake_zdrop.
    + unfold ztake. rewrite take_take. f_equal. lia.
Qed.

Lemma writes_nothing c h bytes e :
  Connection_wf c h ->
  writes c h (mkSt c (h ++ [EvSend (id_ c) (Connection_fd c) bytes (IoErr e)])).
Proof.
  intros Hwf. exists (output_buffer_ c), (output_offset_ c), [EvSend (id_ c) (Connection_fd c) bytes (IoErr e)].
  split; [by destruct c|]. split; [by repeat constructor|].
  split; [|done]. apply Connection_wf_send. by destruct c.
Qed.

Lemma enough_send_interrupt fuel h budget o fd bytes :
  os_send h fd bytes = IoErr EINTR ->
  enough (S fuel) h budget -> enough fuel (h ++ [EvSend o fd bytes (IoErr EINTR)]) budget.
Proof.
  intros Hr (m & Hfew & Hlt). exists m. split; [done|]. rewrite interrupts_snoc. simpl.
  assert (interrupts h < m)%nat; [|lia]. destruct (Nat.lt_ge_cases (interrupts h) m); [done|].
  pose proof (few_send h fd bytes ltac:(done)) as Hno. by rewrite Hr in Hno.
Qed.

Definition write_returns (c : Connection) (h : History) (max written : Z)
    (r : WriteAvailableResult) (s : St Connection) : Prop :=
  writes c h s /\ write_meaning max r s /\ bytes_written r <= max /\
  bytes_written r - written = len (unsent c) - len (unsent (self s)).

Definition write_fails (c : Connection) (h : History) (fuel : nat) (budget : Z)
    (o : option Exception) (s : St Connection) : Prop :=
  writes c h s /\
  match o with Some e => write_failure e | None => ~ enough fuel h budget end.

Lemma write_returns_step c h s1 max written written' r s :
  writes c h s1 -> written' - written = len (unsent c) - len (unsent (self s1)) ->
  write_returns (self s1) (hist s1) max written' r s -> write_returns c h max written r s.
Proof.
  intros Hs1 Hw (Hs & Hmean & Hle & Heq).
  split; [by eapply writes_trans|]. split; [done|]. lia.
Qed.

Lemma write_fails_step c h s1 fuel budget fuel' budget' o s :
  writes c h s1 -> (enough fuel h budget -> enough fuel' (hist s1) budget') ->
  write_fails (self s1) (hist s1) fuel' budget' o s -> write_fails c h fuel budget o s.
Proof.
  intros Hs1 Hen [Hs Ho]. split; [by eapply writes_trans|]. destruct o; tauto.
Qed.

(** Everything was sent. *)
Lemma write_flushed c h max written :
  Connection_wf c h -> len (output_buffer_ c) <= output_offset_ c -> written <= max ->
  write_returns c h max written {| write_status := WriteOk; bytes_written := written |} (mkSt (set_output [] 0 c) h).
Proof.
  intros (Hd & Hbuf & Hpend & Hoff & Hout & Hin64 & Hout64) Hall Hw.
  assert (unsent c = []) as Hnil by (apply zdrop_all; lia). split; [|split; [by left|]].
  - exists [], 0, []. rewrite !app_nil_r. split; [done|]. split; [done|].
    split; [|by rewrite Hnil]. do 3 (split; [done|]). simpl.
    change (len (@nil Byte)) with 0. unfold is_u64 in *. lia.
  - split; [simpl; lia|]. rewrite Hnil. cbn [bytes_written self].
    replace (unsent (set_output [] 0 c)) with (@nil Byte) by done. lia.
Qed.

Lemma WriteAvailable_loop_spec fuel max written c h :
  Connection_wf c h -> is_u64 max -> 0 <= written <= max ->
  wp (WriteAvailable_loop fuel max written)
    (write_returns c h max written) (write_fails c h fuel (max - written)) (mkSt c h).
Proof.
  intros Hwf Hmax. revert written c h Hwf. induction fuel as [|fuel IH]; intros written c h Hwf Hw.
  { apply wp_out_of_fuel. split; [by apply writes_refl|]. apply enough_0. lia. }
  pose proof Hwf as (Hd & Hbuf & Hpend & Hoff & Hout & Hin64 & Hout64). unfold is_u64 in Hout64.
  simpl. apply wp_bind, wp_get_self. simpl self.
  destruct (Z.ltb_spec (output_offset_ c) (len (output_buffer_ c))) as [Hmore|Hall].
  2: { apply wp_bind, wp_put_self, wp_ret, write_flushed; [done|done|lia]. }
  assert (len (unsent c) = len (output_buffer_ c) - output_offset_ c) as Hun
    by (apply len_zdrop; lia).
  assert (unsent c <> []) as Hne by (intros Hnil; rewrite Hnil, len_nil in Hun; lia).
  destruct (Z.leb_spec max written) as [Hfull|Hroom].
  { apply wp_ret. split; [by apply writes_refl|]. split; [right; simpl; lia|]. simpl. lia. }
  unfold is_u64 in Hmax. rewrite !u64_id by (unfold is_u64; lia). rewrite <- Hun.
  set (n := Z.min _ _). fold (unsent c). change (UniqueFd_get (socket_ c)) with (Connection_fd c).
  apply wp_bind, wp_syscall. simpl.
  destruct (os_send h (Connection_fd c) (ztake n (unsent c))) as [k|errno] eqn:Hsend.
  - pose proof (send_len _ _ _ _ Hsend) as Hk. rewrite len_ztake in Hk by lia.
    pose proof (writes_bytes c h n k Hwf ltac:(lia) Hk) as Hstep.
    destruct (Z.eqb_spec k 0) as [->|Hsome].
    { apply wp_ret. rewrite Z.add_0_r in Hstep. replace (set_output _ _ c) with c in Hstep by by destruct c.
      split; [done|]. split; [|simpl; lia]. split; [done|]. by do 3 eexists. }
    apply wp_bind, wp_put_self. simpl hist. rewrite !u64_id by (unfold is_u64; lia).
    eapply wp_mono; [apply IH; [exact (writes_wf _ _ _ Hstep)|lia]| |].
    + intros r s. apply (write_returns_step _ _ _ _ _ _ _ _ Hstep). simpl. unfold unsent. simpl.
      rewrite !len_zdrop by lia. lia.
    + intros o s. apply (write_fails_step _ _ _ _ _ _ _ _ _ Hstep).
      apply enough_progress; [lia|done].
  - pose proof (writes_nothing c h (ztake n (unsent c)) errno Hwf) as Hstep.
    destruct (Z.eqb_spec errno EINTR) as [->|Hintr]; [|destruct (IsWouldBlock errno) eqn:Hblock;
      [|destruct (IsPeerClosedError errno) eqn:Hgone]].
    + eapply wp_mono; [apply IH; [exact (writes_wf _ _ _ Hstep)|lia]| |].
      * intros r s. apply (write_returns_step _ _ _ _ _ _ _ _ Hstep). simpl. lia.
      * intros o s. apply (write_fails_step _ _ _ _ _ _ _ _ _ Hstep).
        by apply enough_send_interrupt.
    + apply wp_ret. split; [done|]. split; [|simpl; lia]. split; [done|]. by do 3 eexists.
    + apply wp_ret. split; [done|]. split; [|simpl; lia]. split; [done|]. by do 3 eexists.
    + apply wp_throw. split; [done|]. by exists errno.
Qed.
End WriteProofs.

(** ** A client of a connection *)

Inductive ConnectionOp : Type :=
| OpRead (max : Z)
| OpQueue (m : Message)
| OpWrite (max : Z).

Definition op_wf (op : ConnectionOp) : Prop :=
  match op with
  | OpRead max | OpWrite max => is_u64 max
  | OpQueue m => Message_wf m
  end.

#[export] Instance op_wf_dec op : Decision (op_wf op).
Proof. destruct op; apply _. Defined.

Section Client.
Context `{Sys : OS} {Laws : OSLaws Sys} {Short : ShortRun Sys}.

(** The messages delivered by reads and those accepted for output. *)
Fixpoint connection_run (fuel : nat) (ops : list ConnectionOp) :
    M (St Connection) (list Message * list Message) :=
  match ops with
  | [] => mret ([], [])
  | OpRead max :: ops =>
    r ← ReadAvailable fuel max;
    '(got, queued) ← connection_run fuel ops;
    mret (messages r ++ got, queued)
  | OpQueue m :: ops =>
    ok ← QueueOutput m;
    '(got, queued) ← connection_run fuel ops;
    mret (got, if ok : bool then m :: queued else queued)
  | OpWrite max :: ops =>
    r ← WriteAvailable fuel max;
    connection_run fuel ops
  end.

Lemma ReadAvailable_spec fuel max c h :
  Connection_wf c h -> is_u64 max ->
  wp (ReadAvailable fuel max) (read_returns c h [] false max) (read_fails c h fuel max) (mkSt c h).
Proof.
  intros Hwf Hmax. pose proof Hmax as [Hpos _]. rewrite <- (Z.sub_0_r max) at 2 3.
  apply ReadAvailable_loop_spec; [done|done|lia].
Qed.

Lemma WriteAvailable_spec fuel max c h :
  Connection_wf c h -> is_u64 max ->
  wp (WriteAvailable fuel max) (write_returns c h max 0) (write_fails c h fuel max) (mkSt c h).
Proof.
  intros Hwf Hmax. pose proof Hmax as [Hpos _]. rewrite <- (Z.sub_0_r max) at 3.
  apply WriteAvailable_loop_spec; [done|done|lia].
Qed.

(** The system calls of a connection are for its own id. *)
Lemma sent_of_recv c es : Forall (recv_event c) es -> sent_of (id_ c) es = [].
Proof. intros H. apply log_none. eapply List.Forall_impl; [|exact H]. by intros []. Qed.
Lemma received_of_send c es o : Forall (send_event c) es -> received_of o es = [].
Proof. intros H. apply log_none. eapply List.Forall_impl; [|exact H]. by intros []. Qed.

(** From any state: what a run adds to the streams of the connection. *)
Definition run_spec (c : Connection) (h : History) (r : list Message * list Message)
    (s : St Connection) : Prop :=
  Connection_wf (self s) (hist s) /\ Forall valid_message r.1 /\
  exists es, hist s = h ++ es /\
    pending (decoder_ c) ++ received_of (id_ c) es = frames r.1 ++ pending (decoder_ (self s)) /\
    unsent c ++ frames r.2 = sent_of (id_ c) es ++ unsent (self s).

Lemma connection_run_spec fuel ops c h :
  Connection_wf c h -> Forall op_wf ops ->
  wp (connection_run fuel ops) (run_spec c h) (fun _ s => Connection_wf (self s) (hist s)) (mkSt c h).
Proof.
  intros Hwf Hops. revert c h Hwf. induction Hops as [|op ops Hop Hops IH]; intros c h Hwf.
  { apply wp_ret. split; [done|]. split; [constructor|]. exists []. rewrite app_nil_r.
    split; [done|]. split; [by rewrite app_nil_r|]. by rewrite app_nil_r. }
  destruct op as [max|m|max]; simpl in *.
  - eapply wp_call; [by apply ReadAvailable_spec| |].
    2: { intros o s [[k Hk] _]. by apply reads_wf in Hk. }
    intros r s1 (k & Hms & Hk & _). rewrite Hms. pose proof (reads_wf _ _ _ _ Hk) as Hwf1.
    destruct Hk as (d & es & -> & Hes & _ & Hv & Hp). simpl in Hwf1.
    eapply wp_call; [by apply IH| |done].
    intros [got queued] s2 (Hwf2 & Hgot & es2 & Heq & Hp2 & Hs2). simpl in *. apply wp_ret.
    split; [done|]. split; [by apply Forall_app_2|]. exists (es ++ es2). rewrite Heq, app_assoc.
    split; [done|]. unfold received_of, sent_of in *. simpl. rewrite !log_app, frames_app.
    split; [by rewrite app_assoc, Hp, <- !app_assoc, Hp2|].
    pose proof (sent_of_recv c es (proj1 Hes)) as Hnone. unfold sent_of in Hnone. by rewrite Hnone.
  - destruct (QueueOutput_spec m c h Hwf Hop) as (b & c' & Hq & Hwf' & Hc' & _ & Hu & _).
    apply wp_bind. unfold wp at 1. rewrite Hq. eapply wp_call; [by apply IH| |done].
    intros [got queued] s2 (Hwf2 & Hgot & es2 & Heq & Hp2 & Hs2). apply wp_ret.
    split; [done|]. split; [done|]. exists es2. split; [done|]. rewrite Hc' in Hp2, Hs2. simpl in *.
    split; [done|]. rewrite <- Hc', Hu in Hs2.
    destruct b; [|by rewrite app_nil_r in Hs2]. by rewrite frames_cons, app_assoc.
  - eapply wp_call; [by apply WriteAvailable_spec| |].
    2: { intros o s [Hs _]. by apply writes_wf in Hs. }
    intros r s1 (Hs & _). pose proof (writes_wf _ _ _ Hs) as Hwf1.
    destruct Hs as (b & o & es & -> & Hes & _ & Hp). simpl in *.
    eapply wp_mono; [by apply IH| |done].
    intros [got queued] s2 (Hwf2 & Hgot & es2 & Heq & Hp2 & Hs2). simpl in *.
    split; [done|]. split; [done|]. exists (es ++ es2). rewrite Heq, app_assoc.
    split; [done|]. unfold received_of, sent_of in *. simpl. rewrite !log_app.
    pose proof (received_of_send c es (id_ c) Hes) as Hnone. unfold received_of in Hnone.
    rewrite Hnone. split; [done|]. by rewrite Hp, <- !app_assoc, Hs2.
Qed.

(** ** Properties *)

(** [ReadAvailable] loses nothing: the bytes that were pending and those it
    receives are the frames of the messages it returns, in order, followed by
    what is pending then.  It receives at most the byte budget, the input buffer
    stays within its limit, and the status means what it says: [kOk] and
    [kWouldBlock] leave an incomplete frame pending (the latter only if nothing
    was received), [kPeerClosed] follows an end of stream or a reset,
    [kProtocolError] a malformed header or a full buffer. *)
Theorem read_available_lossless fuel max c h r s :
  Connection_wf c h -> is_u64 max -> ReadAvailable fuel max (mkSt c h) = (Return r, s) ->
  (exists es, hist s = h ++ es /\ Forall valid_message (messages r) /\
     pending (decoder_ c) ++ received_of (id_ c) es =
       frames (messages r) ++ pending (decoder_ (self s)) /\
     len (received_of (id_ c) es) <= max) /\
  buffered_input_bytes (self s) <= max_input_buffer (limits_ (self s)) /\
  read_meaning r s /\
  (read_status r = ReadWouldBlock -> messages r = [] /\ received_of (id_ c) (hist s) = received_of (id_ c) h).
Proof.
  intros Hwf Hmax Hrun.
  destruct (wp_run _ _ _ _ _ _ (ReadAvailable_spec fuel max c h Hwf Hmax) Hrun)
    as (k & Hms & Hk & Hmean & Hb & Hwb). simpl in Hms. subst k.
  pose proof (reads_wf _ _ _ _ Hk) as (Hd & _ & Hle & _).
  destruct Hk as (d & es & -> & _ & _ & Hv & Hp). simpl in *. split.
  - exists es. split; [done|]. split; [done|]. split; [done|].
    unfold received_of in *. rewrite log_app, len_app in Hb. lia.
  - split; [unfold buffered_input_bytes; by rewrite BufferedSize_pending|].
    split; [done|]. intros H. by destruct (Hwb H) as (_ & ? & ?).
Qed.

(** With an input limit of at least one maximal frame (the default) the
    limit never rejects anything: [kProtocolError] is reported only when the
    stream itself has a malformed header, and with that header's error. *)
Theorem read_error_only_malformed fuel max c h r s :
  Connection_wf c h -> is_u64 max ->
  kHeaderSize + kMaxPayloadSize <= max_input_buffer (limits_ c) ->
  ReadAvailable fuel max (mkSt c h) = (Return r, s) -> read_status r = ReadProtocolError ->
  exists e, protocol_error r = Some e /\
    decode_spec (pending (decoder_ (self s))) = DecodeResult_Error e.
Proof.
  intros Hwf Hmax Hlim Hrun Hst.
  destruct (wp_run _ _ _ _ _ _ (ReadAvailable_spec fuel max c h Hwf Hmax) Hrun)
    as (k & _ & Hk & Hmean & _). destruct (reads_frame _ _ _ _ Hk) as (_ & _ & Hlimits).
  unfold read_meaning in Hmean. rewrite Hst in Hmean.
  destruct Hmean as (e & He & [Hbad|(-> & Hneed & Hfull)]); exists e || exists kPayloadTooLarge; [done|].
  apply decode_NeedMoreData_len in Hneed. rewrite Hlimits in Hfull. lia.
Qed.

(** C34.  Neither loop can run away: if at most [n] calls are interrupted by
    signals, [n] iterations plus one per byte of the budget and one to return
    are enough, and the only exceptions are those of a failed [recv] or [send]
    (not of an interruption, an empty socket or a gone peer). *)
Theorem read_write_terminate n fuel max c h :
  FewInterrupts Sys n -> Connection_wf c h -> is_u64 max -> Z.of_nat n + max < Z.of_nat fuel ->
  match fst (ReadAvailable fuel max (mkSt c h)) with
  | Return _ => True | Throw e => read_failure e | Undefined | OutOfFuel => False
  end /\
  match fst (WriteAvailable fuel max (mkSt c h)) with
  | Return _ => True | Throw e => write_failure e | Undefined | OutOfFuel => False
  end.
Proof.
  intros Hfew Hwf Hmax Hfuel.
  assert (enough fuel h max) as Hen by (exists n; split; [done|]; lia). split.
  - pose proof (ReadAvailable_spec fuel max c h Hwf Hmax) as H. unfold wp in H.
    destruct (ReadAvailable fuel max (mkSt c h)) as [[]]; simpl; [done|apply H|done|].
    destruct H as [_ H]. by apply H.
  - pose proof (WriteAvailable_spec fuel max c h Hwf Hmax) as H. unfold wp in H.
    destruct (WriteAvailable fuel max (mkSt c h)) as [[]]; simpl; [done|apply H|done|].
    destruct H as [_ H]. by apply H.
Qed.

(** [WriteAvailable] sends the pending output in order: what it sends
    followed by what is still pending is what was pending.  It sends at most the
    byte budget and reports exactly the bytes sent; [kOk] means that everything
    was sent (and the buffer freed) or the budget is used up, [kWouldBlock] and
    [kPeerClosed] that the kernel stopped it. *)
Theorem write_available_in_order fuel max c h r s :
  Connection_wf c h -> is_u64 max -> WriteAvailable fuel max (mkSt c h) = (Return r, s) ->
  (exists es, hist s = h ++ es /\
     unsent c = sent_of (id_ c) es ++ unsent (self s) /\
     bytes_written r = len (sent_of (id_ c) es)) /\
  bytes_written r <= max /\ write_meaning max r s.
Proof.
  intros Hwf Hmax Hrun.
  destruct (wp_run _ _ _ _ _ _ (WriteAvailable_spec fuel max c h Hwf Hmax) Hrun)
    as (Hs & Hmean & Hle & Hb). split; [|by split].
  destruct Hs as (b & o & es & -> & _ & _ & Hp). exists es. split; [done|]. split; [done|].
  rewrite Hp, len_app in Hb. lia.
Qed.

(** [QueueOutput] is all or nothing: it accepts a message exactly when the
    message has a frame and the pending output with that frame fits the limit;
    then the frame is appended and the buffer holds the pending bytes only
    (whatever was sent before is compacted away), otherwise the pending output
    is unchanged. *)
Theorem queue_output_bounded m c h :
  Connection_wf c h -> Message_wf m ->
  exists b c', QueueOutput m (mkSt c h) = (Return b, mkSt c' h) /\
    (b = true <-> encodable m /\
       pending_output_bytes c + len (frame m) <= max_output_buffer (limits_ c)) /\
    unsent c' = unsent c ++ (if b then frame m else []) /\
    pending_output_bytes c' <= output_storage_bytes c' <= max_output_buffer (limits_ c) /\
    (b = true -> output_storage_bytes c' = pending_output_bytes c').
Proof.
  intros Hwf Hm. destruct (QueueOutput_spec m c h Hwf Hm) as (b & c' & Hq & Hwf' & Hc & Hb & Hu & Hst).
  exists b, c'. rewrite (pending_output_unsent c h Hwf), (pending_output_unsent c' h Hwf').
  split; [done|]. split; [done|]. split; [done|]. split.
  - destruct Hwf' as (_ & _ & _ & Hoff & Hmax & _). unfold unsent, output_storage_bytes.
    rewrite len_zdrop by lia. rewrite Hc in Hmax at 2. simpl in Hmax. lia.
  - intros [He _]%Hb. by apply Hst.
Qed.

(** C33.  A connection is a pair of lossless FIFO streams: after any sequence of
    reads, queueings and writes with any budgets, the bytes received for it are
    the frames of the messages delivered, in order, followed by what its decoder
    holds, and the bytes sent followed by its pending output are the frames of
    the messages accepted, in order; both buffers are within their limits. *)
Theorem connection_stream_refinement fuel ops id fd limits h got queued s :
  is_u64 (max_input_buffer limits) -> is_u64 (max_output_buffer limits) -> Forall op_wf ops ->
  connection_run fuel ops (mkSt (Connection_make id fd limits) h) = (Return (got, queued), s) ->
  (exists es, hist s = h ++ es /\
     received_of id es = frames got ++ pending (decoder_ (self s)) /\
     sent_of id es ++ unsent (self s) = frames queued) /\
  Forall valid_message got /\ Connection_wf (self s) (hist s).
Proof.
  intros Hin Hout Hops Hrun.
  pose proof (Connection_make_wf id fd limits h Hin Hout) as Hwf.
  destruct (wp_run _ _ _ _ _ _ (connection_run_spec fuel ops _ _ Hwf Hops) Hrun)
    as (Hwf' & Hgot & es & Heq & Hp & Hs).
  split; [|by split]. by exists es.
Qed.
End Client.

(** ** Witnesses *)

(** Twelve bytes of a frame, a signal, the rest of it and the start of the next
    one, an empty socket; the kernel takes five bytes, then is full. *)
Definition sample_script : Script :=
  {| script_interrupts := 1;
     script_recv := [IoOk (ztake 12 sample_frame); IoErr EINTR;
                     IoOk (zdrop 12 sample_frame ++ ztake 3 sample_frame); IoErr EAGAIN];
     script_send := [IoOk 5; IoErr EAGAIN];
     script_accept := []; script_wait := []; script_setup := [] |}.

#[local] Instance sample_os : OS := scripted sample_script.

Definition sample_limits : ConnectionLimits := {| max_input_buffer := 65556; max_output_buffer := 50 |}.
Definition sample_connection : Connection := Connection_make 1 (UniqueFd_make 7) sample_limits.

Lemma sample_connection_wf : Connection_wf sample_connection [].
Proof. apply Connection_make_wf; by_decide. Qed.

Definition after_run {X A} (m : M (St X) A) (s : St X) : St X := snd (m s).

Lemma read_available_lossless_witness :
  let s := after_run (ReadAvailable 10 4096) (mkSt sample_connection []) in
  read_meaning (ReadAvailableResult_Ok [sample_message]) s /\
  buffered_input_bytes (self s) = 3.
Proof.
  split; [|vm_compute; reflexivity].
  apply (read_available_lossless 10 4096 sample_connection []);
    [apply sample_connection_wf|by_decide|vm_compute; reflexivity].
Defined.

Definition bad_magic_script : Script :=
  {| script_interrupts := 0; script_recv := [IoOk (replicate 20 0)];
     script_send := []; script_accept := []; script_wait := []; script_setup := [] |}.

Lemma read_error_only_malformed_witness :
  exists e, Some kInvalidMagic = Some e.
Proof.
  destruct (read_error_only_malformed (Sys := scripted bad_magic_script) 10 4096 sample_connection []
    (ReadAvailableResult_ProtocolError kInvalidMagic [])
    (after_run (ReadAvailable (Sys := scripted bad_magic_script) 10 4096) (mkSt sample_connection [])))
    as (e & He & _).
  - apply sample_connection_wf.
  - by_decide.
  - by_decide.
  - vm_compute. reflexivity.
  - reflexivity.
  - exists e. exact He.
Defined.

Lemma read_write_terminate_witness :
  match fst (ReadAvailable 102 100 (mkSt sample_connection [])) with
  | Return _ => True | Throw e => read_failure e | Undefined | OutOfFuel => False
  end.
Proof.
  apply (read_write_terminate 1 102 100 sample_connection []).
  - apply (scripted_few sample_script).
  - apply sample_connection_wf.
  - by_decide.
  - lia.
Defined.

Definition sample_output : Connection :=
  {| id_ := 1; socket_ := UniqueFd_make 7; limits_ := sample_limits; decoder_ := FrameDecoder_new;
     output_buffer_ := sample_frame; output_offset_ := 2 |}.

Lemma sample_output_wf : Connection_wf sample_output [].
Proof.
  split; [apply FrameDecoder_new_wf|]. by_decide.
Qed.

Lemma write_available_in_order_witness :
  write_meaning 4096 {| write_status := WriteWouldBlock; bytes_written := 5 |}
    (after_run (WriteAvailable 10 4096) (mkSt sample_output [])).
Proof.
  apply (write_available_in_order 10 4096 sample_output []);
    [apply sample_output_wf|by_decide|vm_compute; reflexivity].
Defined.

(** 20 pending bytes and a frame of 22 fit 50 bytes: the two sent bytes no
    longer count. *)
Lemma queue_output_bounded_witness :
  exists b c', QueueOutput sample_message (mkSt sample_output []) = (Return b, mkSt c' []) /\
    unsent c' = unsent sample_output ++ (if b then frame sample_message else []).
Proof.
  destruct (queue_output_bounded sample_message sample_output [])
    as (b & c' & Hq & _ & Hu & _); [apply sample_output_wf|by_decide|].
  exists b, c'. split; [exact Hq|exact Hu].
Defined.

Definition sample_client : list ConnectionOp :=
  [OpRead 12; OpQueue sample_message; OpWrite 100; OpRead 100; OpQueue sample_message].

Lemma connection_stream_refinement_witness :
  Forall valid_message [sample_message] /\
  Connection_wf (self (after_run (connection_run 10 sample_client) (mkSt sample_connection [])))
                (hist (after_run (connection_run 10 sample_client) (mkSt sample_connection []))).
Proof.
  apply (connection_stream_refinement 10 sample_client 1 (UniqueFd_make 7) sample_limits []
           [sample_message] [sample_message; sample_message]);
    [by_decide|by_decide|by_decide|vm_compute; reflexivity].
Defined.
