(* ===== verification/ConnectionRegistry.v ===== *)
(** * The connection registry

    [include/pulsecore/network/connection_registry.hpp],
    [src/network/connection_registry.cpp]: allots ids and owns the connections. *)

From S2P Require Import Prelude Os Scripted UniqueFd Codec Connection.

Record ConnectionRegistry : Type := {
  registry_limits_ : ConnectionLimits;
  next_id_ : Z;
  connections_ : gmap Z Connection;
}.

Definition ConnectionRegistry_make (limits : ConnectionLimits) : ConnectionRegistry :=
  {| registry_limits_ := limits; next_id_ := 1; connections_ := ∅ |}.

Definition set_registry (next : Z) (m : gmap Z Connection) (r : ConnectionRegistry) :
    ConnectionRegistry :=
  {| registry_limits_ := registry_limits_ r; next_id_ := next; connections_ := m |}.

(** A pointer to a connection of the registry is its key. *)
Definition Registry_Find (id : Z) (r : ConnectionRegistry) : option Z :=
  match connections_ r !! id with Some _ => Some id | None => None end.

Definition Registry_size (r : ConnectionRegistry) : Z := Z.of_nat (size (connections_ r)).
Definition Registry_empty (r : ConnectionRegistry) : bool := bool_decide (connections_ r = ∅).

Section Operations.
Context `{Sys : OS}.

(** The parameter [fd] is destroyed when an exception leaves the call; a call
    that returns has moved it into the connection. *)
Definition Registry_Add (fd : UniqueFd) : M (St ConnectionRegistry) Z :=
  on_exception
    (if negb (UniqueFd_is_valid fd)
     then throw (InvalidArgument "cannot register invalid connection fd") else
     this ← get_self;
     if next_id_ this =? u64_max
     then throw (RuntimeError "connection id space exhausted") else
     SetNonBlocking (UniqueFd_get fd) ;;
     this ← get_self;
     let id := next_id_ this in
     put_self (set_registry (u64 (next_id_ this + 1)) (connections_ this) this) ;;
     this ← get_self;
     match connections_ this !! id with
     | Some _ => throw (RuntimeError "duplicate connection id")
     | None =>
       let c := Connection_make id fd (registry_limits_ this) in
       put_self (set_registry (next_id_ this) (<[id := c]> (connections_ this)) this) ;;
       mret (Connection_id c)
     end)
    (UniqueFd_destroy fd).

(** [erase] destroys the connection, and with it its descriptor. *)
Definition Registry_Remove (id : Z) : M (St ConnectionRegistry) bool :=
  this ← get_self;
  match connections_ this !! id with
  | Some c =>
    put_self (set_registry (next_id_ this) (delete id (connections_ this)) this) ;;
    UniqueFd_destroy (socket_ c) ;;
    mret true
  | None => mret false
  end.

(** ** The invariant *)

Definition registry_wf (r : ConnectionRegistry) (h : History) : Prop :=
  1 <= next_id_ r <= u64_max /\
  is_u64 (max_input_buffer (registry_limits_ r)) /\
  is_u64 (max_output_buffer (registry_limits_ r)) /\
  forall id c, connections_ r !! id = Some c ->
    1 <= id < next_id_ r /\ id_ c = id /\ limits_ c = registry_limits_ r /\
    0 <= Connection_fd c /\ Connection_wf c h.

Lemma registry_wf_hist r h h' :
  len (all_received h) <= len (all_received h') -> registry_wf r h -> registry_wf r h'.
Proof.
  intros Hle (Hn & Hi & Ho & Hc). do 3 (split; [done|]). intros id c Hid.
  destruct (Hc id c Hid) as (? & ? & ? & ? & ?). do 4 (split; [done|]).
  by eapply Connection_wf_hist.
Qed.

(** The calls of [SetNonBlocking] receive nothing and close nothing. *)
Definition flag_event (fd : Z) (e : SysEvent) : Prop :=
  match e with EvGetFlags f _ | EvSetFlags f _ _ => f = fd | _ => False end.

Lemma SetNonBlocking_spec {X} fd (x : X) h :
  exists es, Forall (flag_event fd) es /\ (length es <= 2)%nat /\
    (SetNonBlocking fd (mkSt x h) = (Return tt, mkSt x (h ++ es)) \/
     exists op e, SetNonBlocking fd (mkSt x h)
       = (Throw (SyscallRuntimeError op e), mkSt x (h ++ es))).
Proof.
  unfold SetNonBlocking, fcntl_getfl, fcntl_setfl, syscall, mbind, M_bind. simpl.
  destruct (os_fcntl_getfl h fd) as [flags|e] eqn:Hg.
  - destruct (Z.land flags O_NONBLOCK =? 0); simpl.
    + destruct (os_fcntl_setfl _ fd _) as [[]|e] eqn:Hs; rewrite <- app_assoc;
        eexists; (split; [|split; [|first [by left | right; by do 2 eexists]]]);
        try (by repeat constructor); simpl; lia.
    + eexists. split; [|split; [|by left]]; [by repeat constructor|simpl; lia].
  - eexists. split; [|split; [|right; by do 2 eexists]]; [by repeat constructor|simpl; lia].
Qed.

Lemma flag_events_log fd es :
  Forall (flag_event fd) es -> all_received es = [] /\ closed_fds es = [].
Proof.
  intros H. split; apply log_none; (eapply List.Forall_impl; [|exact H]); by intros [].
Qed.

Lemma received_close h fd : all_received (h ++ [EvClose fd]) = all_received h.
Proof. unfold all_received. by rewrite log_snoc, app_nil_r. Qed.

Definition add_failure (fd : UniqueFd) (r : ConnectionRegistry) (e : Exception) : Prop :=
  (e = InvalidArgument "cannot register invalid connection fd" /\ UniqueFd_is_valid fd = false) \/
  (e = RuntimeError "connection id space exhausted" /\ next_id_ r = u64_max) \/
  exists op errno, e = SyscallRuntimeError op errno.

Lemma Registry_Add_spec fd r h :
  registry_wf r h ->
  exists es, Forall (flag_event (UniqueFd_get fd)) es /\
    ((UniqueFd_is_valid fd = true /\ next_id_ r < u64_max /\
      Registry_Add fd (mkSt r h) =
        (Return (next_id_ r),
         mkSt (set_registry (next_id_ r + 1)
                 (<[next_id_ r := Connection_make (next_id_ r) fd (registry_limits_ r)]>
                    (connections_ r)) r) (h ++ es))) \/
     exists e, add_failure fd r e /\
      Registry_Add fd (mkSt r h) = (Throw e, mkSt r (h ++ es ++ close_of fd))).
Proof.
  intros (Hn & Hi & Ho & Hc). unfold Registry_Add.
  destruct (UniqueFd_is_valid fd) eqn:Hv; simpl negb; cbv iota.
  2: { exists []. split; [constructor|]. right. eexists. split; [by left|].
       by eapply on_exception_throw; [|apply UniqueFd_destroy_run]. }
  destruct (Z.eq_dec (next_id_ r) u64_max) as [Hmax|Hmax].
  { exists []. split; [constructor|]. right. eexists. split; [right; by left|].
    eapply on_exception_throw; [|apply UniqueFd_destroy_run].
    erewrite bind_return by reflexivity. cbn [self]. by rewrite (proj2 (Z.eqb_eq _ _) Hmax). }
  destruct (SetNonBlocking_spec (UniqueFd_get fd) r h) as (es & Hes & _ & [Hrun|(op & e & Hrun)]).
  - exists es. split; [done|]. left. split; [done|]. split; [lia|]. apply on_exception_return.
    erewrite bind_return by reflexivity. cbn [self]. rewrite (proj2 (Z.eqb_neq _ _) Hmax).
    erewrite bind_return by exact Hrun. do 3 (erewrite bind_return by reflexivity).
    cbn [self set_registry connections_ next_id_ registry_limits_].
    destruct (connections_ r !! next_id_ r) as [c|] eqn:Hc'.
    { destruct (Hc _ _ Hc') as [? _]. lia. }
    rewrite u64_id by (unfold is_u64, u64_max in *; lia). done.
  - exists es. split; [done|]. right. eexists. split; [right; right; by do 2 eexists|].
    rewrite app_assoc. eapply on_exception_throw; [|apply UniqueFd_destroy_run].
    erewrite bind_return by reflexivity. cbn [self]. rewrite (proj2 (Z.eqb_neq _ _) Hmax).
    erewrite bind_throw by exact Hrun. done.
Qed.

Lemma registry_insert_wf fd r h :
  registry_wf r h -> next_id_ r < u64_max -> 0 <= UniqueFd_get fd ->
  registry_wf (set_registry (next_id_ r + 1)
     (<[next_id_ r := Connection_make (next_id_ r) fd (registry_limits_ r)]> (connections_ r)) r) h.
Proof.
  intros (Hn & Hi & Ho & Hc) Hlt Hfd. split; [simpl; lia|]. split; [done|]. split; [done|].
  simpl. intros id c. destruct (decide (id = next_id_ r)) as [->|Hne].
  - rewrite lookup_insert_eq. intros [= <-]. split; [lia|]. do 2 (split; [done|]).
    split; [done|]. by apply Connection_make_wf.
  - rewrite lookup_insert_ne by done. intros H. destruct (Hc _ _ H) as (? & ?). by split; [lia|].
Qed.

Lemma Registry_Remove_spec id r h :
  Registry_Remove id (mkSt r h) =
    match connections_ r !! id with
    | Some c => (Return true, mkSt (set_registry (next_id_ r) (delete id (connections_ r)) r)
                                   (h ++ close_of (socket_ c)))
    | None => (Return false, mkSt r h)
    end.
Proof.
  unfold Registry_Remove. erewrite bind_return by reflexivity. cbn [self].
  destruct (connections_ r !! id) as [c|]; [|done]. erewrite bind_return by reflexivity.
  cbn [self hist]. erewrite bind_return by apply UniqueFd_destroy_run. done.
Qed.

Lemma registry_delete_wf id r h :
  registry_wf r h -> registry_wf (set_registry (next_id_ r) (delete id (connections_ r)) r) h.
Proof.
  intros (Hn & Hi & Ho & Hc). do 3 (split; [done|]). simpl. intros id' c.
  destruct (decide (id' = id)) as [->|]; [by rewrite lookup_delete_eq|].
  rewrite lookup_delete_ne by done. apply Hc.
Qed.

(** ** A client of the registry *)

Inductive RegistryOp : Type :=
| OpAdd (fd : Z)
| OpRemove (id : Z).

(** The ids returned by [Add] and the descriptors it was given; the client
    survives the exceptions. *)
Fixpoint registry_run (ops : list RegistryOp) (s : St ConnectionRegistry) :
    option (list Z * St ConnectionRegistry) :=
  match ops with
  | [] => Some ([], s)
  | OpAdd fd :: ops =>
    match Registry_Add (UniqueFd_make fd) s with
    | (Return id, s) => '(ids, s) ← registry_run ops s; Some (id :: ids, s)
    | (Throw _, s) => registry_run ops s
    | _ => None
    end
  | OpRemove id :: ops =>
    match Registry_Remove id s with
    | (Return _, s) => registry_run ops s
    | _ => None
    end
  end.

Definition handed_in (ops : list RegistryOp) : list Z :=
  omap (fun op => match op with OpAdd fd => Some fd | OpRemove _ => None end) ops.

(** The descriptors of the live connections. *)
Definition live_fds (r : ConnectionRegistry) : list Z :=
  (fun p => Connection_fd p.2) <$> map_to_list (connections_ r).

Lemma live_fds_insert r id c :
  connections_ r !! id = None ->
  live_fds (set_registry (next_id_ r + 1) (<[id := c]> (connections_ r)) r)
    ≡ₚ Connection_fd c :: live_fds r.
Proof. intros H. unfold live_fds. simpl. by rewrite map_to_list_insert. Qed.

Lemma live_fds_delete r id c :
  connections_ r !! id = Some c ->
  live_fds r ≡ₚ Connection_fd c :: live_fds (set_registry (next_id_ r) (delete id (connections_ r)) r).
Proof.
  intros H. unfold live_fds. simpl. rewrite <- (insert_delete_id _ _ _ H) at 1.
  by rewrite map_to_list_insert by apply lookup_delete_eq.
Qed.

Lemma close_of_connection c : 0 <= Connection_fd c -> close_of (socket_ c) = [EvClose (Connection_fd c)].
Proof. unfold Connection_fd. destruct (socket_ c) as [fd]. apply close_of_valid. Qed.

Lemma registry_run_spec ops r h :
  registry_wf r h -> Forall (Z.le 0) (handed_in ops) ->
  exists ids r' h', registry_run ops (mkSt r h) = Some (ids, mkSt r' h') /\ registry_wf r' h' /\
    ids = seqZ (next_id_ r) (len ids) /\ next_id_ r' = next_id_ r + len ids /\
    live_fds r ++ handed_in ops ++ closed_fds h ≡ₚ live_fds r' ++ closed_fds h'.
Proof.
  revert r h. induction ops as [|op ops IH]; intros r h Hwf Hfds.
  { exists [], r, h. rewrite len_nil. split; [done|]. split; [done|]. split; [done|].
    split; [lia|done]. }
  destruct op as [fd|id]; simpl in *.
  - apply Forall_cons_iff in Hfds as [Hfd Hfds].
    destruct (Registry_Add_spec (UniqueFd_make fd) r h Hwf)
      as (es & Hes & [(_ & Hlt & ->)|(e & _ & ->)]); apply flag_events_log in Hes as [Hr Hc].
    + assert (registry_wf r (h ++ es)) as Hwf1.
      { eapply registry_wf_hist; [|exact Hwf]. unfold all_received in *.
        rewrite log_app, Hr, app_nil_r. lia. }
      destruct (IH _ _ (registry_insert_wf (UniqueFd_make fd) r _ Hwf1 Hlt Hfd) Hfds)
        as (ids & r' & h' & -> & Hwf' & Hids & Hnext & Hperm).
      exists (next_id_ r :: ids), r', h'. split; [done|]. split; [done|].
      simpl in Hids, Hnext. rewrite len_cons. pose proof (len_nonneg ids).
      rewrite seqZ_cons by lia. replace (Z.pred (len ids + 1)) with (len ids) by lia.
      split; [f_equal; exact Hids|]. split; [lia|].
      rewrite live_fds_insert in Hperm.
      2: { destruct (connections_ r !! next_id_ r) eqn:Hnone; [|done].
           destruct Hwf as (_ & _ & _ & Hall). destruct (Hall _ _ Hnone). lia. }
      unfold closed_fds in *. rewrite log_app, Hc, app_nil_r in Hperm. rewrite <- Hperm.
      simpl. solve_Permutation.
    + rewrite close_of_valid by done.
      destruct (IH r (h ++ es ++ [EvClose fd])) as (ids & r' & h' & -> & Hwf' & Hids & Hnext & Hperm);
        [|done|].
      { eapply registry_wf_hist; [|exact Hwf]. rewrite app_assoc, received_close.
        unfold all_received in *. rewrite log_app, Hr, app_nil_r. lia. }
      exists ids, r', h'. do 4 (split; [done|]). rewrite <- Hperm.
      unfold closed_fds in *. rewrite !log_app, Hc. unfold log. simpl. solve_Permutation.
  - rewrite Registry_Remove_spec. destruct (connections_ r !! id) as [c|] eqn:Hc; simpl; [|by apply IH].
    pose proof Hwf as (_ & _ & _ & Hall). destruct (Hall _ _ Hc) as (_ & _ & _ & Hfd & _).
    rewrite close_of_connection by done.
    destruct (IH (set_registry (next_id_ r) (delete id (connections_ r)) r)
                 (h ++ [EvClose (Connection_fd c)]))
      as (ids & r' & h' & -> & Hwf' & Hids & Hnext & Hperm); [|done|].
    { apply registry_delete_wf. eapply registry_wf_hist; [|exact Hwf]. rewrite received_close. lia. }
    exists ids, r', h'. do 4 (split; [done|]). rewrite <- Hperm, (live_fds_delete r id c Hc).
    unfold closed_fds. rewrite log_snoc. simpl. solve_Permutation.
Qed.
End Operations.

(** ** Properties *)

Section Properties.
Context `{Sys : OS}.

(** [Add] either succeeds - with a descriptor that is valid, the next id
    that no connection has, and a fresh connection that owns the descriptor - or
    throws and changes nothing: the id is not used up and the descriptor it was
    given is closed (if there was one). *)
Theorem registry_add_all_or_nothing fd r h x s :
  registry_wf r h -> Registry_Add fd (mkSt r h) = (x, s) ->
  exists es, Forall (flag_event (UniqueFd_get fd)) es /\
  match x with
  | Return id =>
    id = next_id_ r /\ connections_ r !! id = None /\ UniqueFd_is_valid fd = true /\
    connections_ (self s) = <[id := Connection_make id fd (registry_limits_ r)]> (connections_ r) /\
    next_id_ (self s) = id + 1 /\ Registry_size (self s) = Registry_size r + 1 /\
    hist s = h ++ es
  | Throw e =>
    self s = r /\ add_failure fd r e /\
    hist s = h ++ es ++ if UniqueFd_is_valid fd then [EvClose (UniqueFd_get fd)] else []
  | Undefined | OutOfFuel => False
  end.
Proof.
  intros Hwf Hrun. destruct (Registry_Add_spec fd r h Hwf)
    as (es & Hes & [(Hv & Hlt & Heq)|(e & He & Heq)]); rewrite Heq in Hrun;
    injection Hrun as <- <-; exists es; split; [done| |done|done].
  assert (connections_ r !! next_id_ r = None) as Hnone.
  { destruct (connections_ r !! next_id_ r) eqn:Hc; [|done].
    destruct Hwf as (_ & _ & _ & Hall). destruct (Hall _ _ Hc). lia. }
  do 5 (split; [done|]). split; [|done].
  unfold Registry_size. simpl. rewrite map_size_insert_None by done. lia.
Qed.

(** C39.  Ids are allotted from 1 upwards without gaps and never again, whatever
    is removed in between: a removed id stays unknown.  Every descriptor handed
    in is owned by exactly one live connection, or has been closed exactly once. *)
Theorem registry_ids_never_reused ops limits ids s :
  is_u64 (max_input_buffer limits) -> is_u64 (max_output_buffer limits) ->
  Forall (Z.le 0) (handed_in ops) ->
  registry_run ops (mkSt (ConnectionRegistry_make limits) []) = Some (ids, s) ->
  ids = seqZ 1 (len ids) /\
  (forall id c, connections_ (self s) !! id = Some c -> id ∈ ids /\ Connection_id c = id) /\
  (forall id id' s', Registry_Remove id s = (Return true, s') ->
     Registry_Find id (self s') = None /\
     (id' <> id -> Registry_Find id' (self s') = Registry_Find id' (self s))) /\
  live_fds (self s) ++ closed_fds (hist s) ≡ₚ handed_in ops.
Proof.
  intros Hi Ho Hfds Hrun.
  destruct (registry_run_spec ops (ConnectionRegistry_make limits) [])
    as (ids' & r' & h' & Hrun' & Hwf & Hids & Hnext & Hperm); [|done|].
  { split; [simpl; unfold u64_max; lia|]. split; [done|]. split; [done|]. intros id c. simpl. by rewrite lookup_empty. }
  rewrite Hrun' in Hrun. injection Hrun as <- <-. split; [done|]. split; [|split].
  - intros id c Hc. destruct Hwf as (_ & _ & _ & Hall). destruct (Hall _ _ Hc) as (? & ? & _).
    split; [|done]. rewrite Hids. apply elem_of_seqZ. simpl in *. lia.
  - intros id id' s' Hrem. rewrite Registry_Remove_spec in Hrem.
    destruct (connections_ r' !! id) as [c|]; [|done]. injection Hrem as <-.
    unfold Registry_Find. simpl. rewrite lookup_delete_eq. split; [done|].
    intros Hne. by rewrite lookup_delete_ne by done.
  - simpl. rewrite <- Hperm.
    assert (live_fds (ConnectionRegistry_make limits) = []) as ->.
    { unfold live_fds. simpl. by rewrite map_to_list_empty. }
    by rewrite app_nil_r.
Qed.
End Properties.

(** ** Witnesses *)

#[local] Instance registry_sample_os : OS := scripted sample_script.

Definition sample_registry : ConnectionRegistry := ConnectionRegistry_make sample_limits.

Lemma sample_registry_wf : registry_wf sample_registry [].
Proof.
  split; [by_decide|]. split; [by_decide|]. split; [by_decide|]. intros id c. simpl. by rewrite lookup_empty.
Qed.

Lemma registry_add_all_or_nothing_witness :
  Registry_size (self (after_run (Registry_Add (UniqueFd_make 5)) (mkSt sample_registry []))) = 1.
Proof.
  destruct (registry_add_all_or_nothing (UniqueFd_make 5) sample_registry [] (Return 1)
    (after_run (Registry_Add (UniqueFd_make 5)) (mkSt sample_registry [])))
    as (es & _ & _ & _ & _ & _ & _ & Hsize & _);
    [apply sample_registry_wf|vm_compute; reflexivity|exact Hsize].
Defined.

Definition sample_registry_ops : list RegistryOp := [OpAdd 5; OpAdd 6; OpRemove 1; OpRemove 1; OpAdd 5].

Lemma registry_ids_never_reused_witness :
  [1; 2; 3] = seqZ 1 (len [1; 2; 3]).
Proof.
  eapply (registry_ids_never_reused sample_registry_ops sample_limits [1; 2; 3]);
    [by_decide|by_decide|by_decide|vm_compute; reflexivity].
Defined.
