(* ===== verification/EpollServer.v ===== *)
(** * The epoll server

    [include/pulsecore/network/epoll_echo_server.hpp],
    [src/network/epoll_echo_server.cpp]: the reactor thread, its handlers, and
    the worker threads and the stopping thread that interfere with it. *)

From S2P Require Import Prelude Os UniqueFd Codec.
From S2P Require Import BoundedQueue WorkerPool Connection ConnectionRegistry.

Definition kListenerKey : Z := 0.
Definition kWorkerWakeupKey : Z := u64_max.
Definition kShutdownSignalKey : Z := u64_max - 1.
Definition kMaxEpollEvents : Z := 64.
Definition kMaxAcceptsPerEvent : nat := 64.

Definition kDefaultMaxConnections : Z := 1024.
Definition kDefaultMaxInFlightRequestsPerConnection : Z := 1024.

Record ConnectionFlow : Type := {
  next_request_sequence : Z;
  next_response_sequence : Z;
  completed_responses : gmap Z Message;
  close_after_flush : bool;
  registered_with_epoll : bool;
}.

Definition ConnectionFlow_new : ConnectionFlow :=
  {| next_request_sequence := 0; next_response_sequence := 0; completed_responses := ∅;
     close_after_flush := false; registered_with_epoll := false |}.

(** [connections_] of the class is [registry_] here; the signal mask is in
    [ServerStart]. *)
Record EpollEchoServer : Type := {
  listener_ : UniqueFd;
  epoll_ : UniqueFd;
  worker_wakeup_ : UniqueFd;
  shutdown_signal_ : UniqueFd;
  port_ : Z;
  registry_ : ConnectionRegistry;
  connection_flows_ : gmap Z ConnectionFlow;
  completed_work_ : list WorkResult;
  stop_requested_ : bool;
  max_read_bytes_per_event_ : Z;
  max_write_bytes_per_event_ : Z;
  max_connections_ : Z;
  max_in_flight_requests_per_connection_ : Z;
  worker_pool_ : WorkerPool;
}.

(** The fields that change after construction. *)
Definition update_server (r : ConnectionRegistry) (fl : gmap Z ConnectionFlow)
    (cw : list WorkResult) (stop : bool) (p : WorkerPool) (s : EpollEchoServer) :
    EpollEchoServer :=
  {| listener_ := listener_ s; epoll_ := epoll_ s; worker_wakeup_ := worker_wakeup_ s;
     shutdown_signal_ := shutdown_signal_ s; port_ := port_ s;
     registry_ := r; connection_flows_ := fl; completed_work_ := cw; stop_requested_ := stop;
     max_read_bytes_per_event_ := max_read_bytes_per_event_ s;
     max_write_bytes_per_event_ := max_write_bytes_per_event_ s;
     max_connections_ := max_connections_ s;
     max_in_flight_requests_per_connection_ := max_in_flight_requests_per_connection_ s;
     worker_pool_ := p |}.

Definition set_server_registry (r : ConnectionRegistry) (s : EpollEchoServer) : EpollEchoServer :=
  update_server r (connection_flows_ s) (completed_work_ s) (stop_requested_ s) (worker_pool_ s) s.
Definition set_flows (fl : gmap Z ConnectionFlow) (s : EpollEchoServer) : EpollEchoServer :=
  update_server (registry_ s) fl (completed_work_ s) (stop_requested_ s) (worker_pool_ s) s.
Definition set_completed_work (cw : list WorkResult) (s : EpollEchoServer) : EpollEchoServer :=
  update_server (registry_ s) (connection_flows_ s) cw (stop_requested_ s) (worker_pool_ s) s.
Definition set_stop (stop : bool) (s : EpollEchoServer) : EpollEchoServer :=
  update_server (registry_ s) (connection_flows_ s) (completed_work_ s) stop (worker_pool_ s) s.
Definition set_pool (p : WorkerPool) (s : EpollEchoServer) : EpollEchoServer :=
  update_server (registry_ s) (connection_flows_ s) (completed_work_ s) (stop_requested_ s) p s.

Definition live (s : EpollEchoServer) : gmap Z Connection := connections_ (registry_ s).
Definition set_live (m : gmap Z Connection) (s : EpollEchoServer) : EpollEchoServer :=
  set_server_registry (set_registry (next_id_ (registry_ s)) m (registry_ s)) s.

Definition live_connection_count (s : EpollEchoServer) : Z := Registry_size (registry_ s).
Definition EpollEchoServer_port (s : EpollEchoServer) : Z := port_ s.

(** Changes of a flow. *)
Definition flow_submitted (f : ConnectionFlow) : ConnectionFlow :=
  {| next_request_sequence := u64 (next_request_sequence f + 1);
     next_response_sequence := next_response_sequence f;
     completed_responses := completed_responses f;
     close_after_flush := close_after_flush f; registered_with_epoll := registered_with_epoll f |}.
Definition flow_completed (seq : Z) (m : Message) (f : ConnectionFlow) : ConnectionFlow :=
  {| next_request_sequence := next_request_sequence f;
     next_response_sequence := next_response_sequence f;
     completed_responses := match completed_responses f !! seq with
                            | Some _ => completed_responses f   (** [emplace] keeps the old one *)
                            | None => <[seq := m]> (completed_responses f) end;
     close_after_flush := close_after_flush f; registered_with_epoll := registered_with_epoll f |}.
Definition flow_flushed (ready : Z) (f : ConnectionFlow) : ConnectionFlow :=
  {| next_request_sequence := next_request_sequence f;
     next_response_sequence := u64 (next_response_sequence f + 1);
     completed_responses := delete ready (completed_responses f);
     close_after_flush := close_after_flush f; registered_with_epoll := registered_with_epoll f |}.
Definition flow_closing (f : ConnectionFlow) : ConnectionFlow :=
  {| next_request_sequence := next_request_sequence f;
     next_response_sequence := next_response_sequence f;
     completed_responses := completed_responses f;
     close_after_flush := true; registered_with_epoll := registered_with_epoll f |}.
Definition flow_registered (b : bool) (f : ConnectionFlow) : ConnectionFlow :=
  {| next_request_sequence := next_request_sequence f;
     next_response_sequence := next_response_sequence f;
     completed_responses := completed_responses f;
     close_after_flush := close_after_flush f; registered_with_epoll := b |}.

(** ** The other threads

    A worker makes a step, or some thread calls [Stop]. *)
Inductive Interference : Type :=
| IWorker (a : WorkerAction)
| IStop.

(** The scheduler decides what other threads do at each point where the reactor
    is about to touch shared state (other interleavings differ from one of these
    only in steps that commute); the order of iteration of an [unordered_map] is
    unspecified. *)
Class Environment : Type := {
  interfere : History -> list Interference;
  begin_of : gmap Z ConnectionFlow -> Z;
}.
Class EnvironmentLaws (E : Environment) : Prop := {
  begin_of_elem m : m <> ∅ -> is_Some (m !! begin_of m);
}.

Definition ListenerEvent : EpollEvent := {| events := EPOLLIN; key := kListenerKey |}.
Definition WorkerWakeupEvent : EpollEvent := {| events := EPOLLIN; key := kWorkerWakeupKey |}.
Definition ShutdownSignalEvent : EpollEvent := {| events := EPOLLIN; key := kShutdownSignalKey |}.

Definition ConnectionEvent (id : Z) (wants_read wants_write : bool) : EpollEvent :=
  let ev := 0 in
  let ev := if wants_read then Z.lor ev (Z.lor EPOLLIN EPOLLRDHUP) else ev in
  let ev := if wants_write then Z.lor ev EPOLLOUT else ev in
  {| events := ev; key := id |}.

Section Server.
Context `{Sys : OS} `{Env : Environment} (handler_ : WorkHandler) (fuel : nat).

Abbreviation Server := (M (St EpollEchoServer)).

(** ** Pointers and iterators are keys; using one that is gone is undefined *)

Definition on_registry {A} (m : M (St ConnectionRegistry) A) : Server A :=
  zoom (fun s => Some (registry_ s)) set_server_registry m.
Definition on_connection {A} (connection : Z) (m : M (St Connection) A) : Server A :=
  zoom (fun s => live s !! connection)
    (fun c s => set_live (<[connection := c]> (live s)) s) m.
Definition get_flow (flow : Z) : Server ConnectionFlow :=
  this ← get_self; the (connection_flows_ this !! flow).
Definition update_flow (flow : Z) (g : ConnectionFlow -> ConnectionFlow) : Server unit :=
  f ← get_flow flow;
  this ← get_self;
  put_self (set_flows (<[flow := g f]> (connection_flows_ this)) this).

Definition EpollCtl {X} (op : EpollOp) (fd : Z) (event : option EpollEvent) (name : string) :
    M (St X) unit :=
  r ← epoll_ctl op fd event;
  match r with
  | IoErr e => throw (SyscallRuntimeError name e)
  | IoOk _ => mret tt
  end.

(** ** Worker side *)

Fixpoint NotifyWorkerWakeup_loop (n : nat) : Server unit :=
  match n with
  | O => out_of_fuel
  | S n =>
    this ← get_self;
    bytes ← write_counter (UniqueFd_get (worker_wakeup_ this));
    match bytes with
    | IoErr saved_errno =>
      if saved_errno =? EINTR then NotifyWorkerWakeup_loop n else mret tt
    | IoOk _ => mret tt
    end
  end.
Definition NotifyWorkerWakeup : Server unit :=
  this ← get_self;
  if negb (UniqueFd_is_valid (worker_wakeup_ this)) then mret tt
  else NotifyWorkerWakeup_loop fuel.

(** The critical section of [StoreCompletedWork]. *)
Definition StoreCompletedWork_push (result : WorkResult) : Server unit :=
  this ← get_self;
  put_self (set_completed_work (completed_work_ this ++ [result]) this).

Definition Stop : Server unit :=
  this ← get_self;
  put_self (set_stop true this) ;;
  NotifyWorkerWakeup.

(** A worker that has run the handler stores the result, and notifies before it
    returns from the callback.  An exception leaving a thread would terminate
    the program. *)
Definition interference_step (i : Interference) : Server unit :=
  match i with
  | IStop => Stop
  | IWorker a =>
    this ← get_self;
    match WorkerLoop handler_ a (worker_pool_ this) with
    | None => mret tt
    | Some (r, p) =>
      put_self (set_pool p this) ;;
      match r, a with
      | Some (Return result), _ => StoreCompletedWork_push result
      | Some (Throw _), _ | Some Undefined, _ => undefined
      | Some OutOfFuel, _ => out_of_fuel
      | None, WReturn _ => NotifyWorkerWakeup
      | None, _ => mret tt
      end
    end
  end.

Fixpoint interference_run (steps : list Interference) : Server unit :=
  match steps with
  | [] => mret tt
  | i :: steps => interference_step i ;; interference_run steps
  end.

Definition yield : Server unit :=
  h ← gets hist;
  syscall (fun _ => tt) (fun _ => EvYield) ;;
  interference_run (interfere h).

Definition stop_requested : Server bool :=
  yield ;; this ← get_self; mret (stop_requested_ this).

(** ** Interest and removal *)

Definition UpdateInterest (connection flow : Z) : Server unit :=
  f ← get_flow flow;
  let wants_read := negb (close_after_flush f) in
  wants_write ← on_connection connection (gets (fun s => has_pending_output (self s)));
  if negb wants_read && negb wants_write then
    if registered_with_epoll f then
      fd ← on_connection connection (gets (fun s => Connection_fd (self s)));
      r ← epoll_ctl EPOLL_CTL_DEL fd None;
      match r with
      | IoErr saved_errno =>
        if negb (saved_errno =? ENOENT)
        then throw (SyscallRuntimeError "epoll_ctl(DEL idle connection)" saved_errno)
        else update_flow flow (flow_registered false)
      | IoOk _ => update_flow flow (flow_registered false)
      end
    else mret tt
  else
    id ← on_connection connection (gets (fun s => Connection_id (self s)));
    let event := ConnectionEvent id wants_read wants_write in
    fd ← on_connection connection (gets (fun s => Connection_fd (self s)));
    if registered_with_epoll f then
      EpollCtl EPOLL_CTL_MOD fd (Some event) "epoll_ctl(MOD connection)"
    else
      EpollCtl EPOLL_CTL_ADD fd (Some event) "epoll_ctl(ADD connection)" ;;
      update_flow flow (flow_registered true).

Definition erase_flow (id : Z) : Server unit :=
  this ← get_self; put_self (set_flows (delete id (connection_flows_ this)) this).

Definition RemoveConnection (id : Z) : Server unit :=
  this ← get_self;
  match Registry_Find id (registry_ this) with
  | None => mret tt
  | Some connection =>
    let registered := match connection_flows_ this !! id with
                      | None => true | Some f => registered_with_epoll f end in
    (if registered : bool then
       fd ← on_connection connection (gets (fun s => Connection_fd (self s)));
       r ← epoll_ctl EPOLL_CTL_DEL fd None;
       match r with
       | IoErr saved_errno =>
         if negb (saved_errno =? ENOENT)
         then throw (SyscallRuntimeError "epoll_ctl(DEL connection)" saved_errno) else mret tt
       | IoOk _ => mret tt
       end
     else mret tt) ;;
    erase_flow id ;;
    removed ← on_registry (Registry_Remove id);
    mret tt
  end.

Fixpoint CloseAllConnections_loop (n : nat) : Server unit :=
  match n with
  | O => out_of_fuel
  | S n =>
    this ← get_self;
    if bool_decide (connection_flows_ this = ∅) then mret tt else
    RemoveConnection (begin_of (connection_flows_ this)) ;;
    CloseAllConnections_loop n
  end.

(** Every iteration removes a flow. *)
Definition CloseAllConnections : Server unit :=
  this ← get_self; CloseAllConnections_loop (S (size (connection_flows_ this))).

(** ** Responses *)

Definition ShouldCloseAfterFlush (connection flow : Z) : Server bool :=
  f ← get_flow flow;
  has ← on_connection connection (gets (fun s => has_pending_output (self s)));
  mret (close_after_flush f && negb has &&
        (next_request_sequence f <=? next_response_sequence f)).

(** [true]: every ready response is queued; [false]: the connection is gone. *)
Fixpoint FlushReadyResponses_loop (n : nat) (id connection flow : Z) : Server bool :=
  match n with
  | O => out_of_fuel
  | S n =>
    f ← get_flow flow;
    let ready := next_response_sequence f in
    match completed_responses f !! ready with
    | None => mret true
    | Some response =>
      queued ← on_connection connection (QueueOutput response);
      if negb queued then RemoveConnection id ;; mret false else
      update_flow flow (flow_flushed ready) ;;
      FlushReadyResponses_loop n id connection flow
    end
  end.

(** The loop takes one response of the map per iteration. *)
Definition FlushReadyResponses (id connection flow : Z) : Server bool :=
  f ← get_flow flow;
  flushed ← FlushReadyResponses_loop (S (size (completed_responses f))) id connection flow;
  if negb flushed then mret false else
  should_close ← ShouldCloseAfterFlush connection flow;
  if should_close : bool then RemoveConnection id ;; mret false else
  UpdateInterest connection flow ;;
  mret true.

Definition HandleCompletedWork (result : WorkResult) : Server unit :=
  this ← get_self;
  match Registry_Find (result_connection_id result) (registry_ this) with
  | None => mret tt
  | Some connection =>
    match connection_flows_ this !! result_connection_id result with
    | None => mret tt
    | Some _ =>
      let flow := result_connection_id result in
      update_flow flow (flow_completed (result_sequence result) (result_response result)) ;;
      flushed ← FlushReadyResponses (result_connection_id result) connection flow;
      mret tt
    end
  end.

Fixpoint HandleCompletedWork_all (completed : list WorkResult) : Server unit :=
  match completed with
  | [] => mret tt
  | result :: completed => HandleCompletedWork result ;; HandleCompletedWork_all completed
  end.

(** [sizeof(std::uint64_t)], [sizeof(signalfd_siginfo)] *)
Definition sizeof_counter : Z := 8.
Definition sizeof_signal_info : Z := 128.

Fixpoint drain_wakeup (n : nat) : Server unit :=
  match n with
  | O => out_of_fuel
  | S n =>
    this ← get_self;
    bytes ← read_counter (UniqueFd_get (worker_wakeup_ this));
    match bytes with
    | IoErr saved_errno =>
      if saved_errno =? EINTR then drain_wakeup n else
      if IsWouldBlock saved_errno then mret tt
      else throw (SyscallRuntimeError "read(eventfd)" saved_errno)
    | IoOk bytes =>
      if bytes =? sizeof_counter then drain_wakeup n else
      if negb (bytes =? 0) then throw (RuntimeError "read(eventfd): short read") else mret tt
    end
  end.

Definition HandleWorkerWakeup : Server unit :=
  drain_wakeup fuel ;;
  yield ;;
  this ← get_self;
  let completed := completed_work_ this in
  put_self (set_completed_work [] this) ;;
  HandleCompletedWork_all completed.

Fixpoint HandleShutdownSignal_loop (n : nat) : Server unit :=
  match n with
  | O => out_of_fuel
  | S n =>
    this ← get_self;
    bytes ← read_signal (UniqueFd_get (shutdown_signal_ this));
    match bytes with
    | IoErr saved_errno =>
      if saved_errno =? EINTR then HandleShutdownSignal_loop n else
      if IsWouldBlock saved_errno then mret tt
      else throw (SyscallRuntimeError "read(signalfd)" saved_errno)
    | IoOk bytes =>
      if bytes =? sizeof_signal_info then
        this ← get_self; put_self (set_stop true this) ;; HandleShutdownSignal_loop n else
      if negb (bytes =? 0) then throw (RuntimeError "read(signalfd): short read") else mret tt
    end
  end.
Definition HandleShutdownSignal : Server unit := HandleShutdownSignal_loop fuel.

(** ** Requests *)

Definition TrySubmit_shared (item : WorkItem) : Server bool :=
  yield ;;
  this ← get_self;
  let '(ok, p) := TrySubmit item (worker_pool_ this) in
  put_self (set_pool p this) ;; mret ok.

Fixpoint SubmitWork_loop (id flow : Z) (ms : list Message) : Server bool :=
  match ms with
  | [] => mret true
  | message :: ms =>
    f ← get_flow flow;
    this ← get_self;
    let in_flight := u64 (next_request_sequence f - next_response_sequence f) in
    if max_in_flight_requests_per_connection_ this <=? in_flight then mret false else
    let item := {| item_connection_id := id; item_sequence := next_request_sequence f;
                   item_request := message |} in
    ok ← TrySubmit_shared item;
    if negb ok then mret false else
    update_flow flow flow_submitted ;;
    SubmitWork_loop id flow ms
  end.

Definition SubmitWork (id : Z) (ms : list Message) : Server bool :=
  this ← get_self;
  match connection_flows_ this !! id with
  | None => mret false
  | Some _ => SubmitWork_loop id id ms
  end.

(** [(events & mask) != 0U] *)
Definition any (events mask : Z) : bool := negb (Z.land events mask =? 0).

(** The read part of [HandleConnectionEvent]: [true] to remove. *)
Definition read_event (id connection flow : Z) : Server bool :=
  this ← get_self;
  read ← on_connection connection (ReadAvailable fuel (max_read_bytes_per_event_ this));
  submitted ← SubmitWork id (messages read);
  let should_remove := negb submitted in
  match read_status read with
  | ReadProtocolError => mret true
  | ReadPeerClosed => update_flow flow flow_closing ;; mret should_remove
  | ReadOk | ReadWouldBlock => mret should_remove
  end.

Definition write_event (connection : Z) : Server bool :=
  this ← get_self;
  write ← on_connection connection (WriteAvailable fuel (max_write_bytes_per_event_ this));
  mret (bool_decide (write_status write = WritePeerClosed)).

Definition HandleConnectionEvent (id evs : Z) : Server unit :=
  this ← get_self;
  match Registry_Find id (registry_ this) with
  | None => mret tt
  | Some connection =>
    match connection_flows_ this !! id with
    | None => RemoveConnection id
    | Some f =>
      let flow := id in
      let should_remove := any evs EPOLLERR in
      should_remove ←
        (if negb should_remove && any evs (Z.lor EPOLLIN (Z.lor EPOLLRDHUP EPOLLHUP)) &&
            negb (close_after_flush f)
         then read_event id connection flow else mret should_remove);
      should_remove ←
        (if negb should_remove && any evs EPOLLOUT
         then write_event connection else mret should_remove);
      if should_remove : bool then RemoveConnection id else
      should_close ← ShouldCloseAfterFlush connection flow;
      if should_close : bool then RemoveConnection id else
      UpdateInterest connection flow
    end
  end.

(** ** Accepting *)

Fixpoint AcceptNonBlocking (n : nat) (listener_fd : Z) : Server UniqueFd :=
  match n with
  | O => out_of_fuel
  | S n =>
    client ← accept4 listener_fd;
    match client with
    | IoOk fd => mret (UniqueFd_make fd)
    | IoErr saved_errno =>
      if saved_errno =? EINTR then AcceptNonBlocking n listener_fd else
      if IsWouldBlock saved_errno then mret UniqueFd_default
      else throw (SyscallRuntimeError "accept4" saved_errno)
    end
  end.

(** The rest of an iteration, with a client within the connection limit. *)
Definition register_client (client : UniqueFd) : Server unit :=
  id ← on_registry (Registry_Add client);
  this ← get_self;
  match Registry_Find id (registry_ this) with
  | None => throw (RuntimeError "registered connection cannot be found")
  | Some connection =>
    match connection_flows_ this !! id with
    | Some _ => throw (RuntimeError "connection flow already exists")
    | None =>
      put_self (set_flows (<[id := ConnectionFlow_new]> (connection_flows_ this)) this) ;;
      pending ← on_connection connection (gets (fun s => has_pending_output (self s)));
      let event := ConnectionEvent id true pending in
      on_exception
        (fd ← on_connection connection (gets (fun s => Connection_fd (self s)));
         EpollCtl EPOLL_CTL_ADD fd (Some event) "epoll_ctl(ADD connection)" ;;
         update_flow id (flow_registered true))
        (erase_flow id ;;
         removed ← on_registry (Registry_Remove id);
         mret tt)
    end
  end.

Fixpoint HandleListenerEvent_loop (n : nat) : Server unit :=
  match n with
  | O => mret tt
  | S n =>
    this ← get_self;
    client ← AcceptNonBlocking fuel (UniqueFd_get (listener_ this));
    if negb (UniqueFd_is_valid client) then mret tt else
    this ← get_self;
    if max_connections_ this <=? Registry_size (registry_ this)
    then UniqueFd_destroy client ;; HandleListenerEvent_loop n else
    register_client client ;;
    HandleListenerEvent_loop n
  end.
Definition HandleListenerEvent : Server unit := HandleListenerEvent_loop kMaxAcceptsPerEvent.

(** ** The reactor loop *)

Definition dispatch (event : EpollEvent) : Server unit :=
  if key event =? kListenerKey then HandleListenerEvent else
  if key event =? kWorkerWakeupKey then HandleWorkerWakeup else
  if key event =? kShutdownSignalKey then HandleShutdownSignal else
  HandleConnectionEvent (key event) (events event).

Fixpoint dispatch_all (evs : list EpollEvent) : Server unit :=
  match evs with
  | [] => mret tt
  | event :: evs =>
    stop ← stop_requested;
    if stop : bool then mret tt else dispatch event ;; dispatch_all evs
  end.

(** One turn of the loop: [false] when the loop ends. *)
Definition Run_turn : Server bool :=
  stop ← stop_requested;
  if stop : bool then mret false else
  ready ← epoll_wait kMaxEpollEvents;
  match ready with
  | IoErr saved_errno =>
    if saved_errno =? EINTR then mret true
    else throw (SyscallRuntimeError "epoll_wait" saved_errno)
  | IoOk evs => dispatch_all evs ;; mret true
  end.

Fixpoint Run (turns : nat) : Server unit :=
  match turns with
  | O => out_of_fuel
  | S turns =>
    more ← Run_turn;
    if more : bool then Run turns else CloseAllConnections
  end.
End Server.

(** ** Access to live objects *)

Lemma set_live_id id c s : live s !! id = Some c -> set_live (<[id := c]> (live s)) s = s.
Proof.
  intros H. rewrite insert_id by done. unfold set_live, set_server_registry, update_server, live.
  destruct s as [? ? ? ? ? []]. done.
Qed.

Lemma set_flows_id id f s :
  connection_flows_ s !! id = Some f -> set_flows (<[id := f]> (connection_flows_ s)) s = s.
Proof. intros H. rewrite insert_id by done. by destruct s. Qed.

Section Access.
Context {A : Type}.

Lemma on_connection_gets id c (g : St Connection -> A) s h :
  live s !! id = Some c ->
  on_connection id (gets g) (mkSt s h) = (Return (g (mkSt c h)), mkSt s h).
Proof.
  intros H. unfold on_connection, zoom. simpl. rewrite H. simpl. by rewrite set_live_id.
Qed.

Lemma on_connection_run id c (m : M (St Connection) A) r c' s h h' :
  live s !! id = Some c -> m (mkSt c h) = (r, mkSt c' h') ->
  on_connection id m (mkSt s h) = (r, mkSt (set_live (<[id := c']> (live s)) s) h').
Proof. intros H Hm. unfold on_connection, zoom. simpl. by rewrite H, Hm. Qed.

Lemma get_flow_run id f s h :
  connection_flows_ s !! id = Some f -> get_flow id (mkSt s h) = (Return f, mkSt s h).
Proof. intros H. unfold get_flow. erewrite bind_return by reflexivity. simpl. by rewrite H. Qed.

Lemma update_flow_run id f g s h :
  connection_flows_ s !! id = Some f ->
  update_flow id g (mkSt s h) =
    (Return tt, mkSt (set_flows (<[id := g f]> (connection_flows_ s)) s) h).
Proof.
  intros H. unfold update_flow. erewrite bind_return by by apply get_flow_run. done.
Qed.

Lemma Registry_Find_live id s :
  Registry_Find id (registry_ s) = match live s !! id with Some _ => Some id | None => None end.
Proof. done. Qed.
End Access.
