(* ===== verification/ServerFrame.v ===== *)
(** * What a run of the server does not touch

    The reactor and the threads it runs with make no set-up calls (in
    particular they do not change the signal mask) and never replace the
    server's own descriptors.  The classes [QuietInvariant], [BusyInvariant] and
    [ReadingInvariant] say what a property of the state must allow to be kept by
    the handlers that make no other system calls than theirs; the lemmas on the
    handlers are proved once for all such properties. *)

From S2P Require Import Prelude Os UniqueFd Codec BoundedQueue WorkerPool Connection.
From S2P Require Import ConnectionRegistry EpollServer.

(** ** Computations that keep a relation to a starting state *)

Section Follows.
Context {S : Type} (K : S -> Prop).

(** If [K] holds before [m], it holds after it, however [m] ends. *)
Definition follows {A} (m : M S A) : Prop := forall s, K s -> K (snd (m s)).

Lemma follows_pure {A} (r : Result A) : follows (fun s => (r, s)).
Proof. by intros s H. Qed.

Lemma after_bind {A B} (m : M S A) (f : A -> M S B) s :
  follows m -> K s -> (forall a s', K s' -> K (snd (f a s'))) -> K (snd ((m ≫= f) s)).
Proof.
  intros Hm Hs Hf. specialize (Hm s Hs). unfold mbind, M_bind. destruct (m s) as [[a| | |] s']; try done.
  by apply Hf.
Qed.

(** What a computation keeps can be added to its specification. *)
Lemma wp_follows {A} (m : M S A) Q E s :
  follows m -> K s -> wp m Q E s ->
  wp m (fun a s' => Q a s' /\ K s') (fun o s' => E o s' /\ K s') s.
Proof. intros Hm Hs. specialize (Hm s Hs). unfold wp. by destruct (m s) as [[] s']. Qed.

Lemma follows_on_exception {A} (m : M S A) h : follows m -> follows h -> follows (on_exception m h).
Proof.
  intros Hm Hh s Hs. specialize (Hm s Hs). unfold on_exception.
  destruct (m s) as [[a|e| |] s']; try done. apply after_bind; [done..|]. by intros ? s'' ?.
Qed.
End Follows.

Section Get.
Context {X : Type} (K : St X -> Prop).

(** The object read is the object of a state in which [K] holds. *)
Lemma after_get {B} (f : X -> M (St X) B) s :
  K s -> K (snd (f (self s) s)) -> K (snd ((get_self ≫= f) s)).
Proof. done. Qed.

Lemma after_put {B} (x : X) (f : unit -> M (St X) B) s :
  K (mkSt x (hist s)) -> (forall s', K s' -> K (snd (f tt s'))) -> K (snd ((put_self x ≫= f) s)).
Proof. intros H Hf. apply Hf, H. Qed.
End Get.

(** ** Histories that only grow, by events of some kind *)

Definition grows {X} (P : SysEvent -> Prop) (h0 : History) (s : St X) : Prop :=
  exists es, hist s = h0 ++ es /\ Forall P es.

(** No set-up calls; and no use of the worker wake-up either. *)
Definition run_event (e : SysEvent) : Prop := match e with EvSetup _ _ => False | _ => True end.
Definition connection_event (e : SysEvent) : Prop :=
  match e with EvSetup _ _ | EvReadCounter _ _ | EvWriteCounter _ _ => False | _ => True end.

Abbreviation ran := (grows run_event).

Lemma connection_run e : connection_event e -> run_event e.
Proof. by destruct e. Qed.

Lemma grows_refl {X} P (x : X) h : grows P h (mkSt x h).
Proof. exists []. by rewrite app_nil_r. Qed.

Lemma grows_snoc {X} P h0 (x y : X) h e :
  grows P h0 (mkSt x h) -> P e -> grows P h0 (mkSt y (h ++ [e])).
Proof.
  intros (es & Hh & Hes) He. simpl in Hh. subst h. exists (es ++ [e]). simpl.
  rewrite app_assoc. split; [done|]. apply Forall_app_2; [done|by apply Forall_singleton].
Qed.

Lemma grows_put {X Y} P h0 (s : St X) (y : Y) : grows P h0 s -> grows P h0 (mkSt y (hist s)).
Proof. done. Qed.

Section Rules.
Context {X : Type} (P : SysEvent -> Prop) (h0 : History).

Lemma grows_syscall {R} (answer : History -> R) ev :
  (forall r, P (ev r)) -> follows (grows (X := X) P h0) (syscall answer ev).
Proof. intros Hev [x h] H. by eapply grows_snoc; [exact H|]. Qed.

Lemma grows_zoom {Y A} (get : X -> option Y) set (m : M (St Y) A) :
  follows (grows P h0) m -> follows (grows (X := X) P h0) (zoom get set m).
Proof.
  intros Hm [x h] H. unfold zoom. simpl. destruct (get x) as [y|]; [|done].
  specialize (Hm (mkSt y h) H). by destruct (m (mkSt y h)) as [r [y' h']].
Qed.
End Rules.

(** ** What the handlers keep

    A property of the server that the handlers keep is one that does not mention
    what they change.  All change the flows and the stop flag, use connections
    without touching what they received, and add and remove connections; they make
    the calls of a connection. *)

Definition decoder_kept {A} (m : M (St Connection) A) : Prop := forall c h,
  exists es, hist (snd (m (mkSt c h))) = h ++ es /\ Forall connection_event es /\
    decoder_ (self (snd (m (mkSt c h)))) = decoder_ c.

Class QuietInvariant `{Sys : OS} (K : St EpollEchoServer -> Prop) : Prop := {
  quiet_update s fl b : K s ->
    K (mkSt (update_server (registry_ (self s)) fl (completed_work_ (self s)) b
      (worker_pool_ (self s)) (self s)) (hist s));
  quiet_event s e : connection_event e -> K s -> K (mkSt (self s) (hist s ++ [e]));
  quiet_connection {A} id (m : M (St Connection) A) : decoder_kept m -> follows K (on_connection id m);
  quiet_add u : follows K (on_registry (Registry_Add u));
  quiet_remove id : follows K (on_registry (Registry_Remove id));
}.

(** Those that let other threads run also change the pool and the completed work,
    and use the wake-up descriptor. *)
Class BusyInvariant `{Sys : OS} (K : St EpollEchoServer -> Prop) : Prop := {
  busy_quiet :: QuietInvariant K;
  busy_update s cw p : K s ->
    K (mkSt (update_server (registry_ (self s)) (connection_flows_ (self s)) cw
      (stop_requested_ (self s)) p (self s)) (hist s));
  busy_event s e : run_event e -> K s -> K (mkSt (self s) (hist s ++ [e]));
}.

(** One also reads from the connection of the event. *)
Class ReadingInvariant `{Sys : OS} (K : St EpollEchoServer -> Prop) : Prop := {
  reading_busy :: BusyInvariant K;
  reading_connection id fuel max : follows K (on_connection id (ReadAvailable fuel max));
}.

Lemma quiet_syscall `{Sys : OS} K `{!QuietInvariant K} {R} (answer : History -> R) ev :
  (forall r, connection_event (ev r)) -> follows K (syscall answer ev).
Proof. intros Hev s H. by apply quiet_event. Qed.

Lemma busy_syscall `{Sys : OS} K `{!BusyInvariant K} {R} (answer : History -> R) ev :
  (forall r, run_event (ev r)) -> follows K (syscall answer ev).
Proof. intros Hev s H. by apply busy_event. Qed.

Create HintDb follow.
#[export] Hint Extern 1 (QuietInvariant _) => apply _ : follow.
#[export] Hint Extern 1 (BusyInvariant _) => apply _ : follow.
#[export] Hint Extern 1 (ReadingInvariant _) => apply _ : follow.

(** Runs through a straight-line program; loops and calls are in [follow]. *)
Ltac follow_put :=
  first [ assumption | apply grows_put; assumption | solve [apply quiet_update; first [assumption | apply _]]
        | solve [apply busy_update; first [assumption | apply _]] ].

Ltac follow_step :=
  match goal with
  | |- follows _ (mret _) => apply follows_pure
  | |- follows _ (throw _) => apply follows_pure
  | |- follows _ undefined => apply follows_pure
  | |- follows _ out_of_fuel => apply follows_pure
  | |- follows _ (gets _) => intros ? ?; assumption
  | |- follows _ (on_exception _ _) => apply follows_on_exception
  | |- follows _ (syscall _ _) =>
      first [ intros ? ?; assumption
            | apply grows_syscall; intros;
              first [done | match goal with H : forall e, _ -> ?P e |- ?P _ => apply H; done end]
            | solve [apply quiet_syscall; first [done | apply _]]
            | solve [apply busy_syscall; first [done | apply _]] ]
  | |- follows (grows _ _) (zoom _ _ _) => apply grows_zoom
  | |- follows _ _ => solve [eauto with follow]
  | |- follows _ (match ?x with _ => _ end) => destruct x
  | |- follows _ (let _ := _ in _) => cbv zeta
  | |- follows _ (_ ≫= _) => intros ? ?
  | |- follows _ (put_self _) => intros ? ?; follow_put
  | |- ?K (snd ((get_self ≫= _) ?s)) => apply (after_get K); [assumption|]
  | |- ?K (snd ((put_self _ ≫= _) ?s)) => apply (after_put K); [follow_put|intros ? ?]
  | |- ?K (snd ((_ ≫= _) ?s)) => apply (after_bind K); [|assumption|intros ? ? ?]
  | |- _ (snd (put_self _ _)) => follow_put
  | |- ?K (snd ((match ?x with _ => _ end) ?s)) => destruct x
  | |- ?K (snd (?m ?s)) => apply (fun H : follows K m => H s); [|assumption]
  end.
Ltac follow := cbv zeta; repeat follow_step.

Section Connections.
Context `{Sys : OS} (P : SysEvent -> Prop) (HP : forall e, connection_event e -> P e) (h0 : History).

Lemma UniqueFd_destroy_follows {X} u : follows (grows (X := X) P h0) (UniqueFd_destroy u).
Proof.
  intros [x h] H. rewrite UniqueFd_destroy_run. simpl. unfold close_of. destruct (UniqueFd_is_valid u).
  - eapply grows_snoc; [exact H|]. by apply HP.
  - by rewrite app_nil_r.
Qed.
#[local] Hint Resolve UniqueFd_destroy_follows : follow.

Lemma SetNonBlocking_follows {X} fd : follows (grows (X := X) P h0) (SetNonBlocking fd).
Proof. unfold SetNonBlocking, fcntl_getfl, fcntl_setfl. follow. Qed.
#[local] Hint Resolve SetNonBlocking_follows : follow.

Lemma the_follows {X A} (K : St X -> Prop) (o : option A) : follows K (the o).
Proof. destruct o; apply follows_pure. Qed.
#[local] Hint Resolve the_follows : follow.

Lemma DrainDecoder_follows ms : follows (grows P h0) (DrainDecoder ms).
Proof.
  unfold DrainDecoder. follow. generalize (S (length (buffer_ (decoder_ (self s))))) as n.
  intros n. revert ms. induction n as [|n IH]; intros ms; simpl; follow.
Qed.
#[local] Hint Resolve DrainDecoder_follows : follow.

Lemma ReadAvailable_follows n max : follows (grows P h0) (ReadAvailable n max).
Proof.
  unfold ReadAvailable. generalize (@nil Message) false 0. revert max.
  induction n as [|n IH]; intros max ms b k; simpl; unfold recv; follow.
Qed.

Lemma WriteAvailable_follows n max : follows (grows P h0) (WriteAvailable n max).
Proof.
  unfold WriteAvailable. generalize 0. revert max.
  induction n as [|n IH]; intros max k; simpl; unfold send; follow.
Qed.

Lemma QueueOutput_follows m : follows (grows P h0) (QueueOutput m).
Proof. unfold QueueOutput. follow. Qed.

Lemma Registry_Add_follows u : follows (grows P h0) (Registry_Add u).
Proof. unfold Registry_Add. follow. Qed.

Lemma Registry_Remove_follows id : follows (grows P h0) (Registry_Remove id).
Proof. unfold Registry_Remove. follow. Qed.
#[local] Hint Resolve ReadAvailable_follows WriteAvailable_follows QueueOutput_follows
  Registry_Add_follows Registry_Remove_follows : follow.
End Connections.

#[export] Hint Resolve connection_run UniqueFd_destroy_follows the_follows ReadAvailable_follows
  WriteAvailable_follows QueueOutput_follows Registry_Add_follows Registry_Remove_follows : follow.

(** What leaves the decoder of a connection alone. *)
Definition decoder_is (d : FrameDecoder) (s : St Connection) : Prop := decoder_ (self s) = d.

Lemma decoder_kept_intro {A} (m : M (St Connection) A) :
  (forall h0, follows (grows connection_event h0) m) ->
  (forall d, follows (decoder_is d) m) -> decoder_kept m.
Proof.
  intros Hg Hd c h. destruct (Hg h (mkSt c h) (grows_refl _ _ _)) as (es & Hh & Hes).
  exists es. do 2 (split; [done|]). by apply (Hd (decoder_ c)).
Qed.

Section Decoders.
Context `{Sys : OS}.

Lemma gets_follows {X A} (K : St X -> Prop) (f : St X -> A) : follows K (gets f).
Proof. by intros s H. Qed.
#[local] Hint Resolve gets_follows : follow.

Lemma gets_decoder {A} (f : St Connection -> A) : decoder_kept (gets f).
Proof. apply decoder_kept_intro; intros; follow. Qed.

Lemma QueueOutput_decoder m : decoder_kept (QueueOutput m).
Proof.
  apply decoder_kept_intro; [intros; apply QueueOutput_follows; done|]. intros d. unfold QueueOutput.
  destruct (EncodeMessage m); [|follow]. intros s Hs. apply (after_get (decoder_is d)); [exact Hs|].
  apply (after_put (decoder_is d)); [|intros; follow].
  unfold decoder_is. simpl. unfold CompactOutputBuffer. by repeat case_match.
Qed.

Lemma WriteAvailable_decoder n max : decoder_kept (WriteAvailable n max).
Proof.
  apply decoder_kept_intro; [intros; apply WriteAvailable_follows; done|]. intros d.
  unfold WriteAvailable. generalize 0. revert max.
  induction n as [|n IH]; intros max k; simpl; unfold send; follow.
Qed.
End Decoders.
#[export] Hint Resolve gets_follows gets_decoder QueueOutput_decoder WriteAvailable_decoder : follow.

(** ** The handlers that leave the workers alone *)

Section Quiet.
Context `{Sys : OS} `{Env : Environment} (fuel : nat).
Context (K : St EpollEchoServer -> Prop) `{HK : !QuietInvariant K}.
Abbreviation Kept := (follows K).

Lemma registry_Add_kept u : Kept (on_registry (Registry_Add u)).
Proof. apply quiet_add. Qed.
Lemma registry_Remove_kept id : Kept (on_registry (Registry_Remove id)).
Proof. apply quiet_remove. Qed.
Lemma on_connection_kept {A} id (m : M (St Connection) A) : decoder_kept m -> Kept (on_connection id m).
Proof. apply quiet_connection. Qed.

Lemma destroy_follows u : Kept (UniqueFd_destroy u).
Proof.
  intros [s h] H. rewrite UniqueFd_destroy_run. simpl. unfold close_of.
  destruct (UniqueFd_is_valid u); [by apply (quiet_event (mkSt s h))|]. by rewrite app_nil_r.
Qed.
#[local] Hint Resolve registry_Add_kept registry_Remove_kept on_connection_kept destroy_follows : follow.

Lemma get_flow_follows id : Kept (get_flow id).
Proof. unfold get_flow. follow. Qed.
#[local] Hint Resolve get_flow_follows : follow.

Lemma update_flow_follows id g : Kept (update_flow id g).
Proof. unfold update_flow. follow. Qed.

Lemma EpollCtl_follows op fd ev name : Kept (EpollCtl op fd ev name).
Proof. unfold EpollCtl, epoll_ctl. follow. Qed.
#[local] Hint Resolve update_flow_follows EpollCtl_follows : follow.

Lemma UpdateInterest_follows c f : Kept (UpdateInterest c f).
Proof. unfold UpdateInterest, epoll_ctl. follow. Qed.

Lemma erase_flow_follows id : Kept (erase_flow id).
Proof. unfold erase_flow. follow. Qed.
#[local] Hint Resolve UpdateInterest_follows erase_flow_follows : follow.

Lemma RemoveConnection_follows id : Kept (RemoveConnection id).
Proof. unfold RemoveConnection, epoll_ctl. follow. Qed.
#[local] Hint Resolve RemoveConnection_follows : follow.

Lemma CloseAllConnections_follows : Kept CloseAllConnections.
Proof.
  unfold CloseAllConnections. follow. generalize (S (size (connection_flows_ (self s)))) as n.
  intros n. induction n as [|n IH]; simpl; follow.
Qed.

Lemma ShouldCloseAfterFlush_follows c f : Kept (ShouldCloseAfterFlush c f).
Proof. unfold ShouldCloseAfterFlush. follow. Qed.
#[local] Hint Resolve ShouldCloseAfterFlush_follows : follow.

Lemma FlushReadyResponses_loop_follows n id c f : Kept (FlushReadyResponses_loop n id c f).
Proof. induction n as [|n IH]; simpl; follow. Qed.
#[local] Hint Resolve FlushReadyResponses_loop_follows : follow.

Lemma FlushReadyResponses_follows id c f : Kept (FlushReadyResponses id c f).
Proof. unfold FlushReadyResponses. follow. Qed.
#[local] Hint Resolve FlushReadyResponses_follows : follow.

Lemma HandleCompletedWork_follows r : Kept (HandleCompletedWork r).
Proof. unfold HandleCompletedWork. follow. Qed.
#[local] Hint Resolve HandleCompletedWork_follows : follow.

Lemma HandleCompletedWork_all_follows rs : Kept (HandleCompletedWork_all rs).
Proof. induction rs as [|r rs IH]; simpl; follow. Qed.

Lemma HandleShutdownSignal_follows : Kept (HandleShutdownSignal fuel).
Proof.
  unfold HandleShutdownSignal. generalize fuel as n. intros n.
  induction n as [|n IH]; simpl; unfold read_signal; follow.
Qed.

Lemma AcceptNonBlocking_follows n l : Kept (AcceptNonBlocking n l).
Proof. induction n as [|n IH]; simpl; unfold accept4; follow. Qed.
#[local] Hint Resolve AcceptNonBlocking_follows : follow.

Lemma HandleListenerEvent_follows : Kept (HandleListenerEvent fuel).
Proof.
  unfold HandleListenerEvent. generalize kMaxAcceptsPerEvent as n. intros n.
  induction n as [|n IH]; simpl; unfold register_client; follow.
Qed.
End Quiet.

#[export] Hint Resolve registry_Add_kept registry_Remove_kept on_connection_kept get_flow_follows
  destroy_follows update_flow_follows EpollCtl_follows UpdateInterest_follows erase_flow_follows
  RemoveConnection_follows CloseAllConnections_follows ShouldCloseAfterFlush_follows
  FlushReadyResponses_follows HandleCompletedWork_follows HandleCompletedWork_all_follows
  HandleShutdownSignal_follows AcceptNonBlocking_follows HandleListenerEvent_follows : follow.

(** ** The other handlers *)

Section Busy.
Context `{Sys : OS} `{Env : Environment} (handler_ : WorkHandler) (fuel : nat).
Context (K : St EpollEchoServer -> Prop) `{HK : !BusyInvariant K}.
Abbreviation Kept := (follows K).

Lemma NotifyWorkerWakeup_follows : Kept (NotifyWorkerWakeup fuel).
Proof.
  unfold NotifyWorkerWakeup. follow. generalize fuel as n. intros n.
  induction n as [|n IH]; simpl; unfold write_counter; follow.
Qed.
#[local] Hint Resolve NotifyWorkerWakeup_follows : follow.

Lemma interference_step_follows i : Kept (interference_step handler_ fuel i).
Proof. destruct i; simpl; unfold StoreCompletedWork_push, Stop; follow. Qed.
#[local] Hint Resolve interference_step_follows : follow.

Lemma interference_run_follows l : Kept (interference_run handler_ fuel l).
Proof. induction l as [|i l IH]; simpl; follow. Qed.
#[local] Hint Resolve interference_run_follows : follow.

Lemma yield_follows : Kept (yield handler_ fuel).
Proof. unfold yield. follow. Qed.
#[local] Hint Resolve yield_follows : follow.

Lemma stop_requested_follows : Kept (stop_requested handler_ fuel).
Proof. unfold stop_requested. follow. Qed.

Lemma drain_wakeup_follows n : Kept (drain_wakeup n).
Proof. induction n as [|n IH]; simpl; unfold read_counter; follow. Qed.
#[local] Hint Resolve stop_requested_follows drain_wakeup_follows : follow.

Lemma HandleWorkerWakeup_follows : Kept (HandleWorkerWakeup handler_ fuel).
Proof. unfold HandleWorkerWakeup. follow. Qed.

Lemma SubmitWork_follows id ms : Kept (SubmitWork handler_ fuel id ms).
Proof.
  unfold SubmitWork. follow. induction ms as [|m ms IH]; simpl; unfold TrySubmit_shared; follow.
Qed.

Lemma write_event_follows id : Kept (write_event fuel id).
Proof. unfold write_event. follow. Qed.
End Busy.
#[export] Hint Resolve NotifyWorkerWakeup_follows yield_follows stop_requested_follows drain_wakeup_follows
  HandleWorkerWakeup_follows SubmitWork_follows write_event_follows : follow.

Section Frames.
Context `{Sys : OS} `{Env : Environment} (handler_ : WorkHandler) (fuel : nat).
Context (K : St EpollEchoServer -> Prop) `{HK : !ReadingInvariant K}.
Abbreviation Kept := (follows K).

Lemma read_follows id max : Kept (on_connection id (ReadAvailable fuel max)).
Proof. apply reading_connection. Qed.
#[local] Hint Resolve read_follows : follow.

Lemma HandleConnectionEvent_follows id evs : Kept (HandleConnectionEvent handler_ fuel id evs).
Proof. unfold HandleConnectionEvent, read_event. follow. Qed.
#[local] Hint Resolve HandleConnectionEvent_follows : follow.

Lemma dispatch_all_follows evs : Kept (dispatch_all handler_ fuel evs).
Proof. induction evs as [|ev evs IH]; simpl; unfold dispatch; follow. Qed.
#[local] Hint Resolve dispatch_all_follows : follow.

Lemma Run_follows turns : Kept (Run handler_ fuel turns).
Proof. induction turns as [|n IH]; simpl; unfold Run_turn, epoll_wait; follow. Qed.
End Frames.

(** ** A part of the server that stays as it is, given by a view *)

Definition kept_by {V} (view : EpollEchoServer -> V) (P : SysEvent -> Prop) (v : V) (h0 : History)
    (s : St EpollEchoServer) : Prop := grows P h0 s /\ view (self s) = v.

Section Views.
Context `{Sys : OS} {V} (view : EpollEchoServer -> V) (P : SysEvent -> Prop) (v : V) (h0 : History).
Context (HP : forall e, connection_event e -> P e).
Context (view_same : forall r fl b s,
  view (update_server r fl (completed_work_ s) b (worker_pool_ s) s) = view s).

Lemma kept_zoom {Y A} (get : EpollEchoServer -> option Y) set (m : M (St Y) A) :
  (forall y s, view (set y s) = view s) ->
  follows (grows P h0) m -> follows (kept_by view P v h0) (zoom get set m).
Proof.
  intros Hset Hm [x h] [H Hf]. unfold zoom. simpl in *. destruct (get x) as [y|]; [|done].
  specialize (Hm (mkSt y h) H). destruct (m (mkSt y h)) as [r [y' h']]. split; [exact Hm|].
  simpl. by rewrite Hset.
Qed.

Lemma decoder_kept_grows {A} (m : M (St Connection) A) : decoder_kept m -> follows (grows P h0) m.
Proof.
  intros Hm [c h] (es0 & Hh & Hes0). destruct (Hm c h) as (es & Hh' & Hes & _).
  exists (es0 ++ es). rewrite Hh'. simpl in Hh. rewrite Hh, app_assoc. split; [done|].
  apply Forall_app_2; [done|]. by eapply Forall_impl.
Qed.

Lemma kept_quiet : QuietInvariant (kept_by view P v h0).
Proof.
  split.
  - intros s fl b [H Hv]. split; [exact H|]. simpl. by rewrite view_same.
  - intros [s h] e He [H Hv]. split; [|exact Hv]. eapply grows_snoc; [exact H|by apply HP].
  - intros A id m Hm. apply kept_zoom; [intros; apply view_same|by apply decoder_kept_grows].
  - intros u. apply kept_zoom; [intros; apply view_same|by apply Registry_Add_follows].
  - intros id. apply kept_zoom; [intros; apply view_same|by apply Registry_Remove_follows].
Qed.
End Views.

(** The descriptors of the server are its own for the whole run. *)
Definition own_fds (s : EpollEchoServer) : UniqueFd * UniqueFd * UniqueFd * UniqueFd :=
  (listener_ s, epoll_ s, worker_wakeup_ s, shutdown_signal_ s).
Abbreviation kept := (kept_by own_fds run_event).

#[export] Instance kept_reading `{Sys : OS} fds h0 : ReadingInvariant (kept fds h0).
Proof.
  split; [split|].
  - by apply kept_quiet; [apply connection_run|].
  - by intros s cw p [H Hv].
  - intros [s h] e He [H Hv]. split; [|exact Hv]. by eapply grows_snoc.
  - intros id fuel max. apply kept_zoom; [done|]. apply ReadAvailable_follows, connection_run.
Qed.
