(* ===== verification/ServerInvariant.v ===== *)
(** * The invariant of the server

    What ties the bytes received on every connection to the bytes sent on it,
    through the decoder, the flow, the worker pool and the completed work. *)

From S2P Require Import Prelude Os UniqueFd Codec.
From S2P Require Import BoundedQueue WorkerPool Connection ConnectionRegistry EpollServer.

(** ** Histories that look alike *)

Definition same_view (h h' : History) : Prop :=
  all_received h' = all_received h /\
  (forall id, received_of id h' = received_of id h /\ sent_of id h' = sent_of id h) /\
  (forall fd, is_open fd h' = is_open fd h /\ interest fd h' = interest fd h).

(** ... except for the bytes of one connection and the watching of its
    descriptor. *)
Definition view_except (id fd : Z) (h h' : History) : Prop :=
  len (all_received h) <= len (all_received h') /\
  (forall o, o <> id -> received_of o h' = received_of o h /\ sent_of o h' = sent_of o h) /\
  (forall f, is_open f h' = is_open f h) /\
  (forall f, f <> fd -> interest f h' = interest f h).

(** Calls that no clause of the invariant looks at. *)
Definition quiet (e : SysEvent) : Prop :=
  match e with
  | EvRecv _ _ _ (IoOk _) | EvSend _ _ _ (IoOk _) | EvClose _
  | EvEpollCtl _ _ _ (IoOk _) | EvAccept _ (IoOk _) => False
  | _ => True
  end.

Lemma is_open_snoc fd h e :
  is_open fd (h ++ [e]) = match e with
    | EvAccept _ (IoOk f) => if bool_decide (f = fd) then true else is_open fd h
    | EvClose f => if bool_decide (f = fd) then false else is_open fd h
    | _ => is_open fd h end.
Proof. unfold is_open. by rewrite foldl_app. Qed.

Lemma interest_snoc fd h e :
  interest fd (h ++ [e]) = match e with
    | EvEpollCtl EPOLL_CTL_DEL f _ (IoOk _) | EvClose f =>
        if bool_decide (f = fd) then None else interest fd h
    | EvEpollCtl _ f ev (IoOk _) => if bool_decide (f = fd) then ev else interest fd h
    | _ => interest fd h end.
Proof. unfold interest. by rewrite foldl_app. Qed.

Lemma same_view_refl h : same_view h h.
Proof. by split_and!. Qed.

Lemma same_view_trans h1 h2 h3 : same_view h1 h2 -> same_view h2 h3 -> same_view h1 h3.
Proof.
  intros (Ha & Hb & Hc) (Ha' & Hb' & Hc'). split; [congruence|]. split.
  - intros id. destruct (Hb id), (Hb' id). split; congruence.
  - intros fd. destruct (Hc fd), (Hc' fd). split; congruence.
Qed.

Lemma quiet_view h e : quiet e -> same_view h (h ++ [e]).
Proof.
  intros Hq. split; [|split].
  - unfold all_received. rewrite log_snoc. destruct e as [? ? ? []| | | | | | | | | | | | |];
      try done; by rewrite app_nil_r.
  - intros id. unfold received_of, sent_of. rewrite !log_snoc.
    destruct e as [? ? ? []|? ? ? []| | | | | | | | | | | |]; try done; by rewrite !app_nil_r.
  - intros fd. rewrite is_open_snoc, interest_snoc.
    destruct e as [| | | | |? []|[] ? ? []| | | | | | |]; done.
Qed.

Lemma quiets_view h es : Forall quiet es -> same_view h (h ++ es).
Proof.
  induction es as [|e es IH] using rev_ind; intros H; [rewrite app_nil_r; apply same_view_refl|].
  apply Forall_app in H as [H1 H2%Forall_inv]. rewrite app_assoc.
  eapply same_view_trans; [by apply IH|by apply quiet_view].
Qed.

Lemma same_view_except id fd h h' : same_view h h' -> view_except id fd h h'.
Proof.
  intros (Ha & Hb & Hc). split; [rewrite Ha; lia|]. split; [by intros o _|].
  split; intros f; [|intros _]; apply Hc.
Qed.

Lemma view_except_trans id fd h1 h2 h3 :
  view_except id fd h1 h2 -> view_except id fd h2 h3 -> view_except id fd h1 h3.
Proof.
  intros (Ha & Hb & Hc & Hd) (Ha' & Hb' & Hc' & Hd'). split; [lia|]. split; [|split].
  - intros o Ho. destruct (Hb o Ho), (Hb' o Ho). split; congruence.
  - intros f. rewrite Hc'. apply Hc.
  - intros f Hf. rewrite Hd' by done. by apply Hd.
Qed.

Lemma io_event_view id fd h e :
  match e with EvRecv o _ _ _ | EvSend o _ _ _ => o = id | _ => False end ->
  view_except id fd h (h ++ [e]).
Proof.
  intros He. split; [|split; [|split]].
  - unfold all_received. rewrite log_snoc, len_app. len_lia.
  - intros o Ho. unfold received_of, sent_of. rewrite !log_snoc.
    destruct e as [? ? ? []|? ? ? []| | | | | | | | | | | |]; try done; subst;
      rewrite ?bool_decide_eq_false_2 by done; by rewrite !app_nil_r.
  - intros f. rewrite is_open_snoc. by destruct e.
  - intros f _. rewrite interest_snoc. by destruct e.
Qed.

Lemma io_events_view id fd h es :
  Forall (fun e => match e with EvRecv o _ _ _ | EvSend o _ _ _ => o = id | _ => False end) es ->
  view_except id fd h (h ++ es).
Proof.
  induction es as [|e es IH] using rev_ind; intros H.
  - rewrite app_nil_r. apply same_view_except, same_view_refl.
  - apply Forall_app in H as [H1 H2%Forall_inv]. rewrite app_assoc.
    eapply view_except_trans; [by apply IH|]. by apply io_event_view.
Qed.

Lemma io_events_interest f h es :
  Forall (fun e => match e with EvRecv _ _ _ _ | EvSend _ _ _ _ => True | _ => False end) es ->
  interest f (h ++ es) = interest f h.
Proof.
  induction es as [|e es IH] using rev_ind; intros H; [by rewrite app_nil_r|].
  apply Forall_app in H as [H1 H2%Forall_inv]. rewrite app_assoc, interest_snoc.
  destruct e; try done; by apply IH.
Qed.

(** *** Interest of a descriptor after [epoll_ctl] *)

Lemma ctl_view id op fd ev r h :
  view_except id fd h (h ++ [EvEpollCtl op fd ev r]).
Proof.
  split; [|split; [|split]].
  - unfold all_received. rewrite log_snoc, app_nil_r. lia.
  - intros o _. unfold received_of, sent_of. by rewrite !log_snoc, !app_nil_r.
  - intros f. by rewrite is_open_snoc.
  - intros f Hf. rewrite interest_snoc. destruct op, r; try done; by rewrite bool_decide_eq_false_2.
Qed.

Lemma ctl_streams id op fd ev r h :
  received_of id (h ++ [EvEpollCtl op fd ev r]) = received_of id h /\
  sent_of id (h ++ [EvEpollCtl op fd ev r]) = sent_of id h /\
  all_received (h ++ [EvEpollCtl op fd ev r]) = all_received h.
Proof. unfold received_of, sent_of, all_received. by rewrite !log_snoc, !app_nil_r. Qed.

(** ** Numbered lists *)

Fixpoint numbered (n : Z) (l : list Message) : list (Z * Message) :=
  match l with
  | [] => []
  | m :: l => (n, m) :: numbered (n + 1) l
  end.

Lemma numbered_snoc n l m : numbered n (l ++ [m]) = numbered n l ++ [(n + len l, m)].
Proof.
  revert n. induction l as [|m' l IH]; intros n; simpl.
  - by rewrite Z.add_0_r.
  - rewrite IH, len_cons. do 3 f_equal. simpl. f_equal. lia.
Qed.

Lemma numbered_key n l k m : (k, m) ∈ numbered n l -> n <= k < n + len l.
Proof.
  revert n. induction l as [|m' l IH]; intros n; simpl; [by intros ?%not_elem_of_nil|].
  rewrite len_cons. pose proof (len_nonneg l). intros [Heq|Hin%IH]%elem_of_cons; [simplify_eq|]; lia.
Qed.

Lemma length_numbered n l : length (numbered n l) = length l.
Proof. revert n. induction l as [|m l IH]; intros n; simpl; [done|]. by rewrite IH. Qed.

Lemma numbered_unique n l k m m' : (k, m) ∈ numbered n l -> (k, m') ∈ numbered n l -> m = m'.
Proof.
  revert n. induction l as [|x l IH]; intros n; simpl; [by intros ?%not_elem_of_nil|].
  rewrite !elem_of_cons. intros Hm Hm'.
  destruct Hm as [Hm|Hm], Hm' as [Hm'|Hm'].
  - congruence.
  - apply numbered_key in Hm'. simplify_eq. lia.
  - apply numbered_key in Hm. simplify_eq. lia.
  - by apply (IH (n + 1)).
Qed.

Lemma numbered_NoDup n l : NoDup (numbered n l).*1.
Proof.
  revert n. induction l as [|m l IH]; intros n; simpl; constructor; [|done].
  rewrite list_elem_of_fmap. intros ([k m'] & Hk & Hin%numbered_key). simpl in Hk. lia.
Qed.

Lemma numbered_first n m l : (n, m) ∈ numbered n (m :: l).
Proof. simpl. apply elem_of_cons. by left. Qed.

Lemma len_frames_le ms : len ms <= len (frames ms).
Proof.
  induction ms as [|m ms IH]; [done|]. rewrite frames_cons, len_app, len_frame, len_cons.
  unfold kHeaderSize. len_lia.
Qed.

(** ** The invariant *)

(** What the constructor fixes. *)
Record ServerConfig : Type := {
  cfg_max_read : Z;
  cfg_max_write : Z;
  cfg_max_connections : Z;
  cfg_max_in_flight : Z;
  cfg_limits : ConnectionLimits;
  cfg_queue_capacity : Z;
}.

Definition config_of (s : EpollEchoServer) : ServerConfig :=
  {| cfg_max_read := max_read_bytes_per_event_ s;
     cfg_max_write := max_write_bytes_per_event_ s;
     cfg_max_connections := max_connections_ s;
     cfg_max_in_flight := max_in_flight_requests_per_connection_ s;
     cfg_limits := registry_limits_ (registry_ s);
     cfg_queue_capacity := capacity_ (queue_ (worker_pool_ s)) |}.

Definition config_wf (cfg : ServerConfig) : Prop :=
  is_u64 (cfg_max_read cfg) /\ is_u64 (cfg_max_write cfg) /\ 0 <= cfg_max_connections cfg /\
  0 <= cfg_max_in_flight cfg.

(** What the reactor is doing with a connection, and with which. *)
Inductive Mode : Type := Clean | Dirty | Flush.

Inductive Focus : Type :=
| Resting
| Working (id : Z) (todo : list Message)   (** [todo] is still to be submitted *)
| Flushing (id : Z).

(** A response is computed for a connection and a sequence number. *)
Abbreviation Job := (Z * (Z * Message))%type.

Definition jobs_of (id : Z) (js : list Job) : list (Z * Message) :=
  snd <$> filter (fun j => j.1 = id) js.

Section Invariant.
Context (handler_ : WorkHandler) (cfg : ServerConfig).

(** The response to a request: what the handler returns, or the error response
    when it throws. *)
Definition answer (m : Message) : Message :=
  match handler_ m with Return r => r | _ => WorkerHandlerErrorResponse (request_id m) end.

Definition job_of_item (item : WorkItem) : Job :=
  (item_connection_id item, (item_sequence item, answer (item_request item))).
Definition job_of_result (r : WorkResult) : Job :=
  (result_connection_id r, (result_sequence r, result_response r)).

(** The responses on their way from the queue to the flows; [local] are the
    results that the reactor has swapped out of [completed_work_]. *)
Definition jobs (s : EpollEchoServer) (local : list WorkResult) : list Job :=
  (job_of_item <$> running (workers_ (worker_pool_ s)) ++ items_ (queue_ (worker_pool_ s))) ++
  (job_of_result <$> completed_work_ s ++ local).

(** What a client may rely on: the bytes sent to it are a prefix of the
    responses to its requests, in order. *)
Definition stream_ok (h : History) (id : Z) : Prop :=
  exists reqs rest bytes, received_of id h = frames reqs ++ rest /\
    Forall valid_message reqs /\ Forall valid_message (answer <$> reqs) /\
    frames (answer <$> reqs) = sent_of id h ++ bytes.

(** The interest registered with epoll, except while a handler works on the
    connection. *)
Definition epoll_ok (h : History) (m : Mode) (id : Z) (c : Connection) (f : ConnectionFlow) : Prop :=
  if registered_with_epoll f then
    m = Clean -> interest (Connection_fd c) h =
      Some (ConnectionEvent id (negb (close_after_flush f)) (has_pending_output c))
  else
    interest (Connection_fd c) h = None /\
    (m = Clean -> close_after_flush f = true /\ has_pending_output c = false).

(** No response that is due is held back, except while responses are moved. *)
Definition flushed (m : Mode) (f : ConnectionFlow) : Prop :=
  m <> Flush -> completed_responses f !! next_response_sequence f = None.

(** Connection [id]: the requests received are [answered], whose responses are
    sent or in the output buffer, [waiting], whose responses are each in exactly
    one place, and [todo], still to be submitted. *)
Definition conn_inv (h : History) (js : list Job) (m : Mode) (todo : list Message)
    (id : Z) (c : Connection) (f : ConnectionFlow) : Prop :=
  exists answered waiting,
    received_of id h = frames (answered ++ waiting ++ todo) ++ pending (decoder_ c) /\
    Forall valid_message (answered ++ waiting ++ todo) /\
    next_request_sequence f = len answered + len waiting /\
    next_response_sequence f = len answered /\
    len waiting <= cfg_max_in_flight cfg /\
    Forall valid_message (answer <$> answered) /\
    sent_of id h ++ unsent c = frames (answer <$> answered) /\
    map_to_list (completed_responses f) ++ jobs_of id js
      ≡ₚ numbered (len answered) (answer <$> waiting) /\
    epoll_ok h m id c f /\ flushed m f.

Definition mode_of (focus : Focus) (id : Z) : Mode :=
  match focus with
  | Resting => Clean
  | Working id' _ => if bool_decide (id' = id) then Dirty else Clean
  | Flushing id' => if bool_decide (id' = id) then Flush else Clean
  end.
Definition todo_of (focus : Focus) (id : Z) : list Message :=
  match focus with
  | Working id' ms => if bool_decide (id' = id) then ms else []
  | Resting | Flushing _ => []
  end.

Record inv (focus : Focus) (local : list WorkResult) (st : St EpollEchoServer) : Prop := {
  inv_config : config_of (self st) = cfg;
  inv_short : len (all_received (hist st)) < 2 ^ 64;
  inv_dom id : is_Some (live (self st) !! id) <-> is_Some (connection_flows_ (self st) !! id);
  inv_registry : registry_wf (registry_ (self st)) (hist st);
  inv_size : live_connection_count (self st) <= cfg_max_connections cfg;
  inv_open fd : is_open fd (hist st) = true <->
    exists id c, live (self st) !! id = Some c /\ Connection_fd c = fd;
  inv_fds id1 id2 c1 c2 : live (self st) !! id1 = Some c1 -> live (self st) !! id2 = Some c2 ->
    Connection_fd c1 = Connection_fd c2 -> id1 = id2;
  inv_conns id c f : live (self st) !! id = Some c -> connection_flows_ (self st) !! id = Some f ->
    conn_inv (hist st) (jobs (self st) local) (mode_of focus id) (todo_of focus id) id c f;
  inv_streams id : live (self st) !! id = None -> stream_ok (hist st) id;
  inv_unused id : ~ 1 <= id < next_id_ (registry_ (self st)) ->
    received_of id (hist st) = [] /\ sent_of id (hist st) = [];
  inv_jobs : Forall (fun j => j.1 < next_id_ (registry_ (self st))) (jobs (self st) local);
  inv_items : Forall (fun item => valid_message (item_request item))
    (running (workers_ (worker_pool_ (self st))) ++ items_ (queue_ (worker_pool_ (self st))));
  inv_queue : BoundedQueue_wf (queue_ (worker_pool_ (self st)));
}.

(** ** What does not break it *)

Lemma jobs_of_Permutation id js js' : js ≡ₚ js' -> jobs_of id js ≡ₚ jobs_of id js'.
Proof. unfold jobs_of. by intros ->. Qed.

Lemma jobs_of_app id js js' : jobs_of id (js ++ js') = jobs_of id js ++ jobs_of id js'.
Proof. unfold jobs_of. by rewrite list.filter_app, fmap_app. Qed.

Lemma jobs_of_cons id j js :
  jobs_of id (j :: js) = (if bool_decide (j.1 = id) then [j.2] else []) ++ jobs_of id js.
Proof. unfold jobs_of. rewrite list.filter_cons. by case_decide; case_bool_decide. Qed.

Lemma jobs_of_fresh id js : Forall (fun j => j.1 < id) js -> jobs_of id js = [].
Proof.
  induction 1 as [|j js Hj _ IH]; [done|]. rewrite jobs_of_cons, IH.
  rewrite bool_decide_eq_false_2; [done|lia].
Qed.

Lemma stream_ok_view h h' id :
  received_of id h' = received_of id h -> sent_of id h' = sent_of id h ->
  stream_ok h id -> stream_ok h' id.
Proof. unfold stream_ok. by intros -> ->. Qed.

Lemma conn_inv_view h h' js js' m todo id c f :
  received_of id h' = received_of id h -> sent_of id h' = sent_of id h ->
  interest (Connection_fd c) h' = interest (Connection_fd c) h ->
  jobs_of id js' ≡ₚ jobs_of id js ->
  conn_inv h js m todo id c f -> conn_inv h' js' m todo id c f.
Proof.
  unfold conn_inv, epoll_ok. intros -> -> -> Hjs (answered & waiting & H).
  exists answered, waiting. by rewrite Hjs.
Qed.

Lemma epoll_dirty h m id c f :
  m <> Clean ->
  epoll_ok h m id c f <-> (registered_with_epoll f = false -> interest (Connection_fd c) h = None).
Proof.
  intros Hm. unfold epoll_ok. destruct (registered_with_epoll f); [done|].
  split; [by intros [? _]|]. by split; [auto|].
Qed.

(** A connection whose offset moved, but not what is unsent or undecoded. *)
Lemma conn_inv_same h js m todo id c c' f :
  m <> Clean -> decoder_ c' = decoder_ c -> socket_ c' = socket_ c -> unsent c' = unsent c ->
  conn_inv h js m todo id c f -> conn_inv h js m todo id c' f.
Proof.
  intros Hm Hd Hs Hu (an & wa & ? & ? & ? & ? & ? & ? & ? & ? & Hep & ?).
  exists an, wa. rewrite Hd, Hu. do 8 (split; [done|]). split; [|done].
  rewrite epoll_dirty in * by done. unfold Connection_fd in *. by rewrite Hs.
Qed.

(** A live connection is within its contract, whatever a handler is doing. *)
Lemma conn_inv_stream h js m todo id c f : conn_inv h js m todo id c f -> stream_ok h id.
Proof.
  intros (answered & waiting & Hr & Hv & _ & _ & _ & Ha & Hs & _).
  exists answered, (frames (waiting ++ todo) ++ pending (decoder_ c)), (unsent c).
  rewrite Hr, frames_app, <- app_assoc. apply Forall_app in Hv as [Hv _]. done.
Qed.

Lemma inv_stream_ok focus local st id : inv focus local st -> stream_ok (hist st) id.
Proof.
  intros Hinv. destruct (live (self st) !! id) as [c|] eqn:Hc; [|by apply (inv_streams _ _ _ Hinv)].
  destruct (proj1 (inv_dom _ _ _ Hinv id) (mk_is_Some _ _ Hc)) as [f Hf].
  eapply conn_inv_stream. by apply (inv_conns _ _ _ Hinv).
Qed.

(** The reactor's data is the same; jobs only move. *)
Lemma inv_same focus local local' s s' h h' :
  inv focus local (mkSt s h) -> same_view h h' ->
  registry_ s' = registry_ s -> connection_flows_ s' = connection_flows_ s ->
  config_of s' = config_of s -> jobs s' local' ≡ₚ jobs s local ->
  Forall (fun item => valid_message (item_request item))
    (running (workers_ (worker_pool_ s')) ++ items_ (queue_ (worker_pool_ s'))) ->
  BoundedQueue_wf (queue_ (worker_pool_ s')) ->
  inv focus local' (mkSt s' h').
Proof.
  intros Hinv (Ha & Hb & Hc) Hreg Hfl Hcfg Hjobs Hitems Hq.
  destruct Hinv as [I1 I2 I3 I4 I5 I6 I7 I8 I9 I10 I11 I12 I13]. simpl in *.
  assert (live s' = live s) as Hlive by (unfold live; by rewrite Hreg).
  constructor; simpl; rewrite ?Hlive, ?Hfl, ?Hreg, ?Hjobs, ?Ha; try done.
  - by rewrite Hcfg.
  - eapply registry_wf_hist; [|exact I4]. rewrite Ha. lia.
  - unfold live_connection_count in *. by rewrite Hreg.
  - intros fd. destruct (Hc fd) as [-> _]. apply I6.
  - intros id c f H1 H2. destruct (Hb id), (Hc (Connection_fd c)).
    eapply conn_inv_view; [..|by apply I8]; try done. by apply jobs_of_Permutation.
  - intros id H. destruct (Hb id). eapply stream_ok_view; [..|by apply I9]; done.
  - intros id H. destruct (Hb id) as [-> ->]. by apply I10.
Qed.

Lemma inv_view focus local s h h' :
  inv focus local (mkSt s h) -> same_view h h' -> inv focus local (mkSt s h').
Proof.
  intros Hinv Hv. eapply inv_same; [exact Hinv|exact Hv|done..| |].
  - apply (inv_items _ _ _ Hinv).
  - apply (inv_queue _ _ _ Hinv).
Qed.

Lemma inv_quiet focus local s h e :
  inv focus local (mkSt s h) -> quiet e -> inv focus local (mkSt s (h ++ [e])).
Proof. intros Hinv Hq. eapply inv_view; [exact Hinv|by apply quiet_view]. Qed.

(** A clean state is also fine for a handler that is about to work on [id]. *)
Lemma inv_focus id local st : inv Resting local st -> inv (Working id []) local st.
Proof.
  intros Hinv. destruct Hinv as [I1 I2 I3 I4 I5 I6 I7 I8 I9 I10 I11 I12 I13].
  constructor; try done. intros id' c f Hc Hf. destruct (I8 id' c f Hc Hf) as (an & wa & H).
  exists an, wa. destruct H as (? & ? & ? & ? & ? & ? & ? & ? & Hep & Hfl).
  assert (todo_of (Working id []) id' = []) as -> by (simpl; by case_bool_decide).
  do 8 (split; [done|]). split; [|intros _; by apply Hfl]. revert Hep. unfold epoll_ok.
  destruct (registered_with_epoll f).
  - intros Hev _. by apply Hev.
  - intros [Hnone Hidle]. split; [done|]. intros _. by apply Hidle.
Qed.

(** ** Changing one connection *)

(** No connection but [id] is being worked on. *)
Definition focus_on (id : Z) (focus : Focus) : Prop :=
  match focus with Resting => True | Working id' _ | Flushing id' => id' = id end.

Lemma mode_working id ms : mode_of (Working id ms) id = Dirty /\ todo_of (Working id ms) id = ms.
Proof. simpl. by rewrite !bool_decide_eq_true_2. Qed.
Lemma mode_flushing id : mode_of (Flushing id) id = Flush /\ todo_of (Flushing id) id = [].
Proof. simpl. by rewrite !bool_decide_eq_true_2. Qed.

Lemma focus_other id focus id' :
  focus_on id focus -> id' <> id -> mode_of focus id' = Clean /\ todo_of focus id' = [].
Proof.
  destruct focus as [|id0 ms|id0]; [done|..]; intros -> Hne; simpl;
    by rewrite bool_decide_eq_false_2.
Qed.

Lemma inv_change focus focus' local local' s s' h h' id c f c' f' :
  inv focus local (mkSt s h) -> live s !! id = Some c -> connection_flows_ s !! id = Some f ->
  focus_on id focus -> focus_on id focus' ->
  view_except id (Connection_fd c) h h' -> len (all_received h') < 2 ^ 64 ->
  registry_ s' = set_registry (next_id_ (registry_ s)) (<[id := c']> (live s)) (registry_ s) ->
  connection_flows_ s' = <[id := f']> (connection_flows_ s) -> config_of s' = config_of s ->
  (socket_ c' = socket_ c /\ id_ c' = id_ c /\ limits_ c' = limits_ c) -> Connection_wf c' h' ->
  (forall id', id' <> id -> jobs_of id' (jobs s' local') ≡ₚ jobs_of id' (jobs s local)) ->
  Forall (fun j => j.1 < next_id_ (registry_ s)) (jobs s' local') ->
  Forall (fun item => valid_message (item_request item))
    (running (workers_ (worker_pool_ s')) ++ items_ (queue_ (worker_pool_ s'))) ->
  BoundedQueue_wf (queue_ (worker_pool_ s')) ->
  conn_inv h' (jobs s' local') (mode_of focus' id) (todo_of focus' id) id c' f' ->
  inv focus' local' (mkSt s' h').
Proof.
  intros Hinv Hc Hf Hon Hon' (Ha & Hb & Hop & Hint) Hshort Hreg Hfl Hcfg (Hsock & Hid & Hlim)
    Hwf Hjobs Hjlt Hitems Hq Hconn.
  destruct Hinv as [I1 I2 I3 I4 I5 I6 I7 I8 I9 I10 I11 I12 I13]. simpl in *.
  assert (Connection_fd c' = Connection_fd c) as Hfd by (unfold Connection_fd; by rewrite Hsock).
  assert (live s' = <[id := c']> (live s)) as Hlive by (unfold live at 1; by rewrite Hreg).
  assert (forall id' x, live s' !! id' = Some x ->
    exists x0, live s !! id' = Some x0 /\ Connection_fd x = Connection_fd x0) as Hold.
  { intros id' x. rewrite Hlive, lookup_insert. case_decide; [|by exists x].
    intros [= <-]. subst. by exists c. }
  constructor; cbn [self hist]; try done.
  - by rewrite Hcfg.
  - intros id'. rewrite Hlive, Hfl, !lookup_insert. case_decide; [split; by eexists|apply I3].
  - rewrite Hreg. destruct I4 as (Hn & Hi & Ho & Hall). do 3 (split; [done|]). simpl.
    intros id' x. destruct (Hall id c Hc) as (? & ? & ? & ? & ?).
    destruct (decide (id' = id)) as [->|Hne].
    + rewrite lookup_insert_eq. intros [= <-]. rewrite Hfd, Hlim, Hid. split_and!; try done; lia.
    + rewrite lookup_insert_ne by done. intros Hx. destruct (Hall id' x Hx) as (? & ? & ? & ? & ?).
      split_and!; try done; try lia. by eapply Connection_wf_hist.
  - unfold live_connection_count, Registry_size in *. rewrite Hreg. simpl.
    rewrite map_size_insert_Some by done. done.
  - intros fd. rewrite Hop, I6. split.
    + intros (id' & x & Hx & <-). destruct (decide (id' = id)) as [->|Hne].
      * exists id, c'. rewrite Hlive, lookup_insert_eq. split; [done|]. congruence.
      * exists id', x. by rewrite Hlive, lookup_insert_ne by done.
    + intros (id' & x & Hx & <-). destruct (Hold _ _ Hx) as (x0 & ? & ->). by exists id', x0.
  - intros id1 id2 x1 x2 H1 H2 Heq. destruct (Hold _ _ H1) as (y1 & Hy1 & E1).
    destruct (Hold _ _ H2) as (y2 & Hy2 & E2). apply (I7 _ _ _ _ Hy1 Hy2). congruence.
  - intros id' x g. rewrite Hlive, Hfl. destruct (decide (id' = id)) as [->|Hne].
    { rewrite !lookup_insert_eq. by intros [= <-] [= <-]. }
    rewrite !lookup_insert_ne by done. intros Hx Hg. pose proof (I8 _ _ _ Hx Hg) as Hi.
    destruct (focus_other id focus id' Hon Hne) as [Hd0 Ht0].
    destruct (focus_other id focus' id' Hon' Hne) as [-> ->]. rewrite Hd0, Ht0 in Hi.
    destruct (Hb id' Hne). eapply conn_inv_view; [..|exact Hi]; try done; [|by apply Hjobs].
    apply Hint. intros Heq. by apply Hne, (I7 _ _ _ _ Hx Hc).
  - intros id'. rewrite Hlive. destruct (decide (id' = id)) as [->|Hne]; [by rewrite lookup_insert_eq|].
    rewrite lookup_insert_ne by done. intros Hx. destruct (Hb id' Hne).
    eapply stream_ok_view; [..|by apply I9]; done.
  - rewrite Hreg. simpl. intros id' Hr. destruct I4 as (_ & _ & _ & Hall).
    destruct (Hall id c Hc) as (? & _). destruct (Hb id') as [-> ->]; [by intros ->|].
    by apply I10.
  - by rewrite Hreg.
Qed.

(** ** Removing a connection *)

Lemma inv_remove focus local s s' h h' id c :
  inv focus local (mkSt s h) -> live s !! id = Some c -> focus_on id focus ->
  view_except id (Connection_fd c) h h' -> received_of id h' = received_of id h ->
  sent_of id h' = sent_of id h -> all_received h' = all_received h ->
  registry_ s' = set_registry (next_id_ (registry_ s)) (delete id (live s)) (registry_ s) ->
  connection_flows_ s' = delete id (connection_flows_ s) ->
  (config_of s' = config_of s /\ worker_pool_ s' = worker_pool_ s /\
   completed_work_ s' = completed_work_ s) ->
  inv Resting local (mkSt s' (h' ++ [EvClose (Connection_fd c)])).
Proof.
  intros Hinv Hc Hon (Ha & Hb & Hop & Hint) Hrid Hsid Hall' Hreg Hfl (Hcfg & Hpool & Hcw).
  pose proof (inv_stream_ok _ _ _ id Hinv) as Hsok.
  destruct Hinv as [I1 I2 I3 I4 I5 I6 I7 I8 I9 I10 I11 I12 I13]. simpl in *.
  assert (live s' = delete id (live s)) as Hlive by (unfold live at 1; by rewrite Hreg).
  assert (jobs s' local = jobs s local) as Hjobs by (unfold jobs; by rewrite Hpool, Hcw).
  assert (forall o, received_of o (h' ++ [EvClose (Connection_fd c)]) = received_of o h /\
                    sent_of o (h' ++ [EvClose (Connection_fd c)]) = sent_of o h) as Hstr.
  { intros o. unfold received_of, sent_of in *. rewrite !log_snoc, !app_nil_r.
    destruct (decide (o = id)) as [->|Hne]; [done|by apply Hb]. }
  assert (forall id' x, id' <> id -> live s !! id' = Some x -> Connection_fd c <> Connection_fd x) as Hfd.
  { intros id' x Hne Hx Heq. apply Hne. by apply (I7 _ _ _ _ Hx Hc). }
  constructor; cbn [self hist]; rewrite ?Hpool, ?Hjobs; try done.
  - by rewrite Hcfg.
  - unfold all_received in *. rewrite log_snoc, app_nil_r. by rewrite Hall'.
  - intros id'. rewrite Hlive, Hfl, !lookup_delete. by case_decide.
  - rewrite Hreg. apply registry_delete_wf. eapply registry_wf_hist; [|exact I4].
    unfold all_received in *. rewrite log_snoc, app_nil_r, Hall'. lia.
  - unfold live_connection_count, Registry_size in *. rewrite Hreg. simpl. unfold live in *.
    rewrite map_size_delete, Hc. lia.
  - intros fd. rewrite is_open_snoc, Hop. split.
    + case_bool_decide as Hfd'; [done|]. intros (id' & x & Hx & <-)%I6. exists id', x.
      rewrite Hlive, lookup_delete_ne; [done|]. intros <-. congruence.
    + intros (id' & x & Hx & <-). rewrite Hlive in Hx. apply lookup_delete_Some in Hx as [Hne Hx].
      rewrite bool_decide_eq_false_2 by (by apply (Hfd id')). apply I6. by exists id', x.
  - intros id1 id2 x1 x2. rewrite Hlive. intros [_ H1]%lookup_delete_Some [_ H2]%lookup_delete_Some.
    by apply I7.
  - intros id' x g. rewrite Hlive, Hfl. intros [Hne Hx]%lookup_delete_Some [_ Hg]%lookup_delete_Some.
    pose proof (I8 _ _ _ Hx Hg) as Hi.
    destruct (focus_other id focus id' Hon ltac:(done)) as [Hd0 Ht0]. rewrite Hd0, Ht0 in Hi. simpl.
    destruct (Hstr id'). eapply conn_inv_view; [..|exact Hi]; try done.
    rewrite interest_snoc, bool_decide_eq_false_2 by (by apply (Hfd id')).
    apply Hint. intros Heq. by apply (Hfd id' x).
  - intros id'. destruct (Hstr id') as [Hr Hs]. intros Hx. eapply stream_ok_view; [exact Hr|exact Hs|].
    destruct (decide (id' = id)) as [->|Hne]; [done|]. apply I9.
    by rewrite Hlive, lookup_delete_ne in Hx.
  - rewrite Hreg. simpl. intros id' Hr. destruct (Hstr id') as [-> ->]. by apply I10.
  - by rewrite Hreg.
Qed.

(** ** Adding a connection *)

Lemma inv_add local s s' h h' fd :
  inv Resting local (mkSt s h) -> let id := next_id_ (registry_ s) in
  let c := Connection_make id (UniqueFd_make fd) (registry_limits_ (registry_ s)) in
  0 <= fd -> id < u64_max -> live_connection_count s < cfg_max_connections cfg ->
  is_open fd h = false ->
  all_received h' = all_received h ->
  (forall o, received_of o h' = received_of o h /\ sent_of o h' = sent_of o h) ->
  (forall f, is_open f h' = if bool_decide (f = fd) then true else is_open f h) ->
  (forall f, f <> fd -> interest f h' = interest f h) ->
  interest fd h' = Some (ConnectionEvent id true false) ->
  registry_ s' = set_registry (id + 1) (<[id := c]> (live s)) (registry_ s) ->
  connection_flows_ s' = <[id := flow_registered true ConnectionFlow_new]> (connection_flows_ s) ->
  (config_of s' = config_of s /\ worker_pool_ s' = worker_pool_ s /\
   completed_work_ s' = completed_work_ s) ->
  0 <= cfg_max_in_flight cfg ->
  inv Resting local (mkSt s' h').
Proof.
  intros Hinv id c Hfd Hid Hroom Hnew Hall Hstr Hop Hint Hinter Hreg Hfl (Hcfg & Hpool & Hcw) Hmax.
  destruct Hinv as [I1 I2 I3 I4 I5 I6 I7 I8 I9 I10 I11 I12 I13]. simpl in *.
  assert (live s' = <[id := c]> (live s)) as Hlive by (unfold live at 1; by rewrite Hreg).
  assert (jobs s' local = jobs s local) as Hjobs by (unfold jobs; by rewrite Hpool, Hcw).
  assert (live s !! id = None) as Hnone.
  { destruct (live s !! id) eqn:Hc; [|done]. destruct I4 as (_ & _ & _ & H4).
    destruct (H4 _ _ Hc). subst id. lia. }
  assert (forall id' x, live s !! id' = Some x -> Connection_fd x <> fd) as Hdiff.
  { intros id' x Hx <-. apply not_true_iff_false in Hnew. apply Hnew, I6. by exists id', x. }
  constructor; cbn [self hist]; rewrite ?Hpool, ?Hjobs; try done.
  - by rewrite Hcfg.
  - by rewrite Hall.
  - intros id'. rewrite Hlive, Hfl, !lookup_insert. case_decide; [split; by eexists|apply I3].
  - rewrite Hreg. apply (registry_insert_wf (UniqueFd_make fd)); [|done|done].
    eapply registry_wf_hist; [|exact I4]. rewrite Hall. lia.
  - unfold live_connection_count, Registry_size in *. rewrite Hreg. simpl.
    rewrite map_size_insert_None by done. unfold live. lia.
  - intros f. rewrite Hop. case_bool_decide as Hf.
    + split; [|done]. intros _. exists id, c. rewrite Hlive, lookup_insert_eq. by subst f.
    + rewrite I6. split; intros (id' & x & Hx & <-); exists id', x.
      * rewrite Hlive, lookup_insert_ne; [done|]. congruence.
      * rewrite Hlive, lookup_insert in Hx. case_decide; [by simplify_eq|done].
  - intros id1 id2 x1 x2. rewrite Hlive.
    destruct (decide (id1 = id)) as [->|N1], (decide (id2 = id)) as [->|N2];
      rewrite ?lookup_insert_eq, ?lookup_insert_ne by done; intros E1 E2 Heq.
    + done.
    + injection E1 as <-. by destruct (Hdiff _ _ E2).
    + injection E2 as <-. by destruct (Hdiff _ _ E1).
    + by apply (I7 _ _ _ _ E1 E2).
  - intros id' x g. rewrite Hlive, Hfl. destruct (decide (id' = id)) as [->|Hne].
    + rewrite !lookup_insert_eq. intros [= <-] [= <-]. exists [], [].
      destruct (Hstr id) as [-> ->]. destruct (I10 id) as [-> ->]; [subst id; lia|].
      simpl. split_and!; try done; [by rewrite map_to_list_empty, jobs_of_fresh|].
      intros _. exact Hinter.
    + rewrite !lookup_insert_ne by done. intros Hx Hg. destruct (Hstr id').
      eapply conn_inv_view; [..|by apply (I8 _ _ _ Hx Hg)]; try done.
      apply Hint. by apply (Hdiff id').
  - intros id' Hx. destruct (Hstr id'). eapply stream_ok_view; [..|apply I9]; try done.
    rewrite Hlive, lookup_insert in Hx. by case_decide.
  - rewrite Hreg. simpl. intros id' Hr. destruct (Hstr id') as [-> ->]. apply I10. subst id. lia.
  - rewrite Hreg. simpl. eapply List.Forall_impl; [|exact I11]. intros j Hj. simpl in Hj. lia.
Qed.
End Invariant.
