(* ===== verification/ServerProofs.v ===== *)
(** * The server keeps its invariant

    Every step of the reactor and of the threads that interfere with it, and
    the theorems about the running server. *)

From S2P Require Import Prelude Os Scripted UniqueFd Codec.
From S2P Require Import BoundedQueue WorkerPool Connection ConnectionRegistry EpollServer ServerFrame.
From S2P Require Import ServerInvariant.

(** A handler returns a message of the protocol's types, or throws. *)
Class HandlerOk (handler_ : WorkHandler) : Prop := {
  handler_outcome m : valid_message m ->
    (exists r, handler_ m = Return r /\ Message_wf r) \/ exists e, handler_ m = Throw e;
}.

Lemma WorkerLoop_result_spec handler_ item :
  HandlerOk handler_ -> valid_message (item_request item) ->
  WorkerLoop_result handler_ item = Return
    {| result_connection_id := item_connection_id item; result_sequence := item_sequence item;
       result_response := answer handler_ (item_request item) |}.
Proof.
  intros Hok Hv. unfold WorkerLoop_result, answer.
  destruct (handler_outcome _ Hv) as [(r & -> & _)|(e & ->)]; done.
Qed.

Lemma WorkerHandlerErrorResponse_wf id : is_u64 id -> Message_wf (WorkerHandlerErrorResponse id).
Proof.
  intros Hid. split; [done|]. split; [done|]. by_decide.
Qed.

Lemma answer_wf handler_ m : HandlerOk handler_ -> valid_message m -> Message_wf (answer handler_ m).
Proof.
  intros Hok Hv. unfold answer. destruct (handler_outcome _ Hv) as [(r & -> & Hr)|(e & ->)]; [done|].
  apply WorkerHandlerErrorResponse_wf, Hv.
Qed.

Section Proofs.
Context `{Sys : OS} {Laws : OSLaws Sys} {Short : ShortRun Sys} {Epoll : EpollLaws Sys}.
Context `{Env : Environment} {EnvLaws : EnvironmentLaws Env}.
Context (handler_ : WorkHandler) {Hok : HandlerOk handler_} (fuel : nat) (cfg : ServerConfig).
Context (Hcfg : config_wf cfg).

Abbreviation invariant := (inv handler_ cfg).
Abbreviation Job_item := (job_of_item handler_).

(** What every outcome of a run guarantees, exceptions included. *)
Definition owned (st : St EpollEchoServer) : Prop := forall fd,
  is_open fd (hist st) = true -> exists id c, live (self st) !! id = Some c /\ Connection_fd c = fd.
Definition sound (st : St EpollEchoServer) : Prop :=
  registry_wf (registry_ (self st)) (hist st) /\
  Forall (fun item => valid_message (item_request item))
    (running (workers_ (worker_pool_ (self st))) ++ items_ (queue_ (worker_pool_ (self st)))) /\
  BoundedQueue_wf (queue_ (worker_pool_ (self st))).
Definition safe (st : St EpollEchoServer) : Prop :=
  (forall id, stream_ok handler_ (hist st) id) /\ owned st /\ sound st.

Lemma inv_safe focus local st : invariant focus local st -> safe st.
Proof.
  intros H. split; [intros id; by eapply inv_stream_ok|].
  split; [intros fd Hfd; by apply (inv_open _ _ _ _ _ H)|].
  split; [apply (inv_registry _ _ _ _ _ H)|].
  split; [apply (inv_items _ _ _ _ _ H)|apply (inv_queue _ _ _ _ _ H)].
Qed.

(** A call of [epoll_ctl] carries no bytes and closes nothing. *)
Lemma safe_ctl s h op fd ev r : safe (mkSt s h) -> safe (mkSt s (h ++ [EvEpollCtl op fd ev r])).
Proof.
  intros (Hs & Ho & Hreg & Hitems). split; [|split; [|split; [|exact Hitems]]].
  - intros o. destruct (ctl_streams o op fd ev r h) as (H1 & H2 & _).
    eapply stream_ok_view; [exact H1|exact H2|apply (Hs o)].
  - intros f. simpl. rewrite is_open_snoc. apply (Ho f).
  - simpl in *. eapply registry_wf_hist; [|exact Hreg].
    destruct (ctl_streams 0 op fd ev r h) as (_ & _ & ->). lia.
Qed.

(** ** Other threads *)

(** The part of the state that only the reactor changes is the same, and a stop
    that was requested stays requested. *)
Definition reactor_same (st st' : St EpollEchoServer) : Prop :=
  registry_ (self st') = registry_ (self st) /\
  connection_flows_ (self st') = connection_flows_ (self st) /\
  (stop_requested_ (self st) = true -> stop_requested_ (self st') = true).

(** The fuel covers the interrupted system calls. *)
Definition enough_fuel : Prop := exists k, FewInterrupts Sys k /\ (k < fuel)%nat.

(** The only way in which other threads keep the reactor from going on. *)
Definition stuck (o : option Exception) (st : St EpollEchoServer) : Prop :=
  safe st /\ (enough_fuel -> False).

Lemma reactor_same_refl st : reactor_same st st.
Proof. done. Qed.
Lemma reactor_same_trans st1 st2 st3 :
  reactor_same st1 st2 -> reactor_same st2 st3 -> reactor_same st1 st3.
Proof. intros (? & ? & ?) (? & ? & ?). split_and!; [congruence..|auto]. Qed.

Lemma NotifyWorkerWakeup_spec focus local st :
  invariant focus local st ->
  wp (NotifyWorkerWakeup fuel) (fun _ st' => invariant focus local st' /\ reactor_same st st')
    stuck st.
Proof.
  destruct st as [s h]. intros Hinv. unfold NotifyWorkerWakeup.
  apply wp_bind, wp_get_self. simpl self.
  destruct (UniqueFd_is_valid (worker_wakeup_ s)); [|by apply wp_ret]. simpl.
  assert (forall k, FewInterrupts Sys k -> (k < fuel)%nat ->
    (0 < fuel)%nat /\ (k < fuel + interrupts h)%nat) as Hfew by (intros; lia).
  revert Hfew. generalize fuel at 2 3 4. intros n. revert h Hinv.
  induction n as [|n IH]; intros h Hinv Hfew.
  { apply wp_out_of_fuel. split; [by eapply inv_safe|]. intros (k & Hk & Hlt).
    destruct (Hfew k Hk Hlt). lia. }
  simpl. apply wp_bind, wp_get_self, wp_bind, wp_syscall. simpl.
  assert (forall r, invariant focus local (mkSt s (h ++ [EvWriteCounter (UniqueFd_get (worker_wakeup_ s)) r])))
    as Hq by (intros r; by apply inv_quiet).
  destruct (os_write_counter _ _) as [k|e] eqn:Hw; [by apply wp_ret|].
  destruct (Z.eqb_spec e EINTR) as [->|]; [|by apply wp_ret]. apply (IH _ (Hq (IoErr EINTR))).
  intros k Hk Hlt. destruct (Hfew k Hk Hlt). rewrite interrupts_snoc. simpl.
  destruct (decide (k <= interrupts h)%nat) as [Hle|]; [|lia].
  pose proof (few_write_counter h (UniqueFd_get (worker_wakeup_ s)) Hle) as Hno. by rewrite Hw in Hno.
Qed.

Lemma WorkerLoop_running a p r p' :
  BoundedQueue_wf (queue_ p) -> WorkerLoop handler_ a p = Some (r, p') ->
  BoundedQueue_wf (queue_ p') /\ capacity_ (queue_ p') = capacity_ (queue_ p) /\
  exists done, running (workers_ p') ++ items_ (queue_ p') ++ done
                 ≡ₚ running (workers_ p) ++ items_ (queue_ p) /\
    r = (WorkerLoop_result handler_ <$> head done) /\ (length done <= 1)%nat.
Proof.
  intros Hwf. destruct a as [i|i|i]; simpl; destruct (workers_ p !! i) as [[]|] eqn:Hi; try done.
  - destruct (Pop (queue_ p)) as [[popped q]|] eqn:Hq; [|done]. intros [= <- <-]. simpl.
    apply Pop_spec in Hq as (Hwf' & Hcap & _ & Hit & _); [|done].
    split; [done|]. split; [done|]. exists []. rewrite Hit, !app_nil_r.
    split; [|split; [done|simpl; lia]]. destruct popped as [item|]; simpl.
    + move_worker Hi (WorkerBusy item). rewrite Hrun. by rewrite <- app_assoc.
    + move_worker Hi WorkerExited. by rewrite Hrun.
  - intros [= <- <-]. split; [done|]. split; [done|]. exists [item].
    split; [|split; [done|simpl; lia]]. move_worker Hi WorkerCompleting. simpl.
    rewrite <- Hrun. solve_Permutation.
  - intros [= <- <-]. split; [done|]. split; [done|]. exists [].
    move_worker Hi WorkerIdle. simpl. rewrite app_nil_r, Hrun. split; [done|]. by split; [|lia].
Qed.

Lemma interference_step_spec focus local i st :
  invariant focus local st ->
  wp (interference_step handler_ fuel i)
    (fun _ st' => invariant focus local st' /\ reactor_same st st') stuck st.
Proof.
  intros Hinv. destruct st as [s h]. destruct i as [a|]; simpl.
  - apply wp_bind, wp_get_self. simpl.
    destruct (WorkerLoop handler_ a (worker_pool_ s)) as [[r p]|] eqn:Hstep; [|by apply wp_ret].
    apply WorkerLoop_running in Hstep as (Hq & Hcap & dn & Hperm & -> & Hlen);
      [|apply (inv_queue _ _ _ _ _ Hinv)].
    pose proof (inv_items _ _ _ _ _ Hinv) as Hitems. simpl in Hitems.
    rewrite <- Hperm, app_assoc in Hitems. apply Forall_app in Hitems as [Hitems Hdn].
    assert (jobs handler_ (set_completed_work (completed_work_ s ++ ((fun it =>
        {| result_connection_id := item_connection_id it; result_sequence := item_sequence it;
           result_response := answer handler_ (item_request it) |}) <$> dn)) (set_pool p s)) local
      ≡ₚ jobs handler_ s local) as Hjobs.
    { unfold jobs. simpl. rewrite <- Hperm, app_assoc, !fmap_app, <- list_fmap_compose.
      unfold compose, job_of_result. simpl. fold (job_of_item handler_). solve_Permutation. }
    assert (invariant focus local (mkSt (set_completed_work (completed_work_ s ++ ((fun it =>
        {| result_connection_id := item_connection_id it; result_sequence := item_sequence it;
           result_response := answer handler_ (item_request it) |}) <$> dn)) (set_pool p s)) h)) as Hinv'.
    { eapply inv_same; [exact Hinv|apply same_view_refl|done|done| |exact Hjobs|done|done].
      unfold config_of. simpl. by rewrite Hcap. }
    apply wp_bind, wp_put_self. simpl hist.
    destruct dn as [|item [|]]; [..|simpl in Hlen; lia]; simpl in *.
    + rewrite app_nil_r in Hinv'.
      destruct a as [i|i|i]; [by apply wp_ret|by apply wp_ret|].
      eapply wp_mono; [by apply NotifyWorkerWakeup_spec| |done].
      by intros _ st' [? [? ?]].
    + rewrite WorkerLoop_result_spec by (done || by apply Forall_inv in Hdn).
      apply wp_bind, wp_get_self, wp_put_self. done.
  - apply wp_bind, wp_get_self, wp_bind, wp_put_self. simpl.
    assert (invariant focus local (mkSt (set_stop true s) h)) as Hinv'.
    { eapply inv_same; [exact Hinv|apply same_view_refl|done..| |].
      - apply (inv_items _ _ _ _ _ Hinv).
      - apply (inv_queue _ _ _ _ _ Hinv). }
    eapply wp_mono; [by apply NotifyWorkerWakeup_spec| |done].
    intros _ st' (? & ? & ? & Hstop). split; [done|]. split; [done|]. split; [done|].
    intros _. by apply Hstop.
Qed.

Lemma yield_spec focus local st :
  invariant focus local st ->
  wp (yield handler_ fuel) (fun _ st' => invariant focus local st' /\ reactor_same st st')
    stuck st.
Proof.
  intros Hinv. unfold yield. apply wp_bind, wp_gets, wp_bind, wp_syscall. simpl.
  destruct st as [s h]. simpl. pose proof (inv_quiet _ _ _ _ _ _ EvYield Hinv I) as Hinv'.
  change (reactor_same (mkSt s h)) with (reactor_same (mkSt s (h ++ [EvYield]))).
  revert Hinv'. generalize (mkSt s (h ++ [EvYield])). generalize (interfere h). clear h s Hinv.
  induction l as [|i l IH]; intros st Hinv; simpl.
  { apply wp_ret. by split. }
  eapply wp_call; [by apply interference_step_spec| |done].
  intros _ st1 [Hinv1 Hsame1]. eapply wp_mono; [by apply IH| |done].
  intros _ st2 [Hinv2 Hsame2]. split; [done|]. by eapply reactor_same_trans.
Qed.

(** ** Interest and removal *)

(** The handler of [id] is done: the flow's flag and epoll agree again. *)
Lemma inv_finish id c f b local s h h' :
  invariant (Working id []) local (mkSt s h) ->
  live s !! id = Some c -> connection_flows_ s !! id = Some f ->
  view_except id (Connection_fd c) h h' -> received_of id h' = received_of id h ->
  sent_of id h' = sent_of id h -> all_received h' = all_received h ->
  epoll_ok h' Clean id c (flow_registered b f) ->
  invariant Resting local (mkSt (set_flows (<[id := flow_registered b f]> (connection_flows_ s)) s) h').
Proof.
  intros Hinv Hc Hf Hview Hr Hs Ha Hep.
  pose proof (inv_registry _ _ _ _ _ Hinv) as (_ & _ & _ & Hall).
  destruct (Hall id c Hc) as (_ & _ & _ & _ & Hwf).
  pose proof (inv_short _ _ _ _ _ Hinv) as Hshort.
  eapply inv_change with (c' := c); [exact Hinv|exact Hc|exact Hf|done|done|exact Hview| | |done|done|done| |done|..].
  - by rewrite Ha.
  - simpl. rewrite insert_id by done. unfold live. by destruct (registry_ s).
  - eapply Connection_wf_hist; [|exact Hwf]. apply Hview.
  - apply (inv_jobs _ _ _ _ _ Hinv).
  - apply (inv_items _ _ _ _ _ Hinv).
  - apply (inv_queue _ _ _ _ _ Hinv).
  - pose proof (inv_conns _ _ _ _ _ Hinv id c f Hc Hf) as (an & wa & H).
    destruct (mode_working id []) as [E1 E2]. rewrite E1, E2 in H.
    exists an, wa. rewrite Hr, Hs. simpl. destruct H as (? & ? & ? & ? & ? & ? & ? & ? & _ & Hfl).
    do 9 (split; [done|]). intros _. by apply Hfl.
Qed.

Lemma flow_registered_id f : flow_registered (registered_with_epoll f) f = f.
Proof. by destruct f. Qed.

Lemma inv_finish_same id c f local s h h' :
  invariant (Working id []) local (mkSt s h) ->
  live s !! id = Some c -> connection_flows_ s !! id = Some f ->
  view_except id (Connection_fd c) h h' -> received_of id h' = received_of id h ->
  sent_of id h' = sent_of id h -> all_received h' = all_received h ->
  epoll_ok h' Clean id c f -> invariant Resting local (mkSt s h').
Proof.
  intros Hinv Hc Hf Hview Hr Hs Ha Hep.
  pose proof (inv_finish id c f (registered_with_epoll f) local s h h') as H.
  rewrite flow_registered_id, set_flows_id in H by done. by apply H.
Qed.

Definition throws (o : option Exception) (st : St EpollEchoServer) : Prop := o <> None /\ safe st.

(** While the connection [id] is updated: what [epoll] is told settles it. *)
Definition updating (id : Z) (c : Connection) (f : ConnectionFlow) local s h : Prop :=
  invariant (Working id []) local (mkSt s h) /\ live s !! id = Some c /\ connection_flows_ s !! id = Some f.

Lemma updating_safe id c f local s h op ev r :
  updating id c f local s h -> safe (mkSt s (h ++ [EvEpollCtl op (Connection_fd c) ev r])).
Proof. intros (Hinv & _). apply safe_ctl. exact (inv_safe _ _ _ Hinv). Qed.

Lemma updating_epoll id c f local s h : updating id c f local s h -> epoll_ok h Dirty id c f.
Proof.
  intros (Hinv & Hc & Hf). pose proof (inv_conns _ _ _ _ _ Hinv id c f Hc Hf) as (an & wa & H).
  destruct H as (_ & _ & _ & _ & _ & _ & _ & _ & Hep & _). by rewrite (proj1 (mode_working id [])) in Hep.
Qed.

Lemma updating_done id c f local s h b op ev r :
  updating id c f local s h ->
  epoll_ok (h ++ [EvEpollCtl op (Connection_fd c) ev r]) Clean id c (flow_registered b f) ->
  invariant Resting local (mkSt (set_flows (<[id := flow_registered b f]> (connection_flows_ s)) s)
    (h ++ [EvEpollCtl op (Connection_fd c) ev r])).
Proof.
  intros (Hinv & Hc & Hf) Hep'. destruct (ctl_streams id op (Connection_fd c) ev r h) as (H1 & H2 & H3).
  by apply inv_finish with c h; [..|apply ctl_view| | | |].
Qed.

Lemma watch_spec id c f local s h :
  updating id c f local s h ->
  let event := Some (ConnectionEvent id (negb (close_after_flush f)) (has_pending_output c)) in
  negb (close_after_flush f) || has_pending_output c = true ->
  wp (if registered_with_epoll f
      then EpollCtl EPOLL_CTL_MOD (Connection_fd c) event "epoll_ctl(MOD connection)"
      else EpollCtl EPOLL_CTL_ADD (Connection_fd c) event "epoll_ctl(ADD connection)" ;;
           update_flow id (flow_registered true))
    (fun _ st' => invariant Resting local st' /\ live (self st') = live s) throws (mkSt s h).
Proof.
  intros Hup event Hwants. pose proof Hup as (Hinv & Hc & Hf). unfold EpollCtl.
  destruct (registered_with_epoll f) eqn:Hreg.
  - apply wp_bind, wp_syscall. simpl. destruct (os_epoll_ctl _ _ _ _) as [[]|e].
    + apply wp_ret. split; [|done]. rewrite <- (set_flows_id id f s) by done.
      replace f with (flow_registered true f) at 1 by (rewrite <- Hreg; apply flow_registered_id).
      apply updating_done; [done|]. intros _. by rewrite interest_snoc, bool_decide_eq_true_2.
    + apply wp_throw. split; [done|]. by eapply updating_safe.
  - apply wp_bind, wp_bind, wp_syscall. simpl. destruct (os_epoll_ctl _ _ _ _) as [[]|e].
    + apply wp_ret. unfold wp. erewrite update_flow_run by done. split; [|done].
      apply updating_done; [done|]. intros _. by rewrite interest_snoc, bool_decide_eq_true_2.
    + apply wp_throw. split; [done|]. by eapply updating_safe.
Qed.

Lemma unwatch_spec id c f local s h :
  updating id c f local s h -> close_after_flush f = true -> has_pending_output c = false ->
  wp (r ← epoll_ctl EPOLL_CTL_DEL (Connection_fd c) None;
      match r with
      | IoErr saved_errno =>
        if negb (saved_errno =? ENOENT)
        then throw (SyscallRuntimeError "epoll_ctl(DEL idle connection)" saved_errno)
        else update_flow id (flow_registered false)
      | IoOk _ => update_flow id (flow_registered false)
      end)
    (fun _ st' => invariant Resting local st' /\ live (self st') = live s) throws (mkSt s h).
Proof.
  intros Hup Hclose Hout. pose proof Hup as (Hinv & Hc & Hf). apply wp_bind, wp_syscall. simpl.
  destruct (os_epoll_ctl h EPOLL_CTL_DEL (Connection_fd c) None) as [[]|e] eqn:Hctl.
  - unfold wp. erewrite update_flow_run by done. split; [|done]. apply updating_done; [done|].
    split; [|done]. by rewrite interest_snoc, bool_decide_eq_true_2.
  - destruct (Z.eqb_spec e ENOENT) as [->|]; simpl.
    + unfold wp. erewrite update_flow_run by done. split; [|done]. apply updating_done; [done|].
      split; [|done]. rewrite interest_snoc. by apply del_enoent.
    + apply wp_throw. split; [done|]. by eapply updating_safe.
Qed.

Lemma UpdateInterest_spec id c f local st :
  invariant (Working id []) local st ->
  live (self st) !! id = Some c -> connection_flows_ (self st) !! id = Some f ->
  wp (UpdateInterest id id)
    (fun _ st' => invariant Resting local st' /\ live (self st') = live (self st)) throws st.
Proof.
  destruct st as [s h]. simpl. intros Hinv Hc Hf. unfold UpdateInterest.
  assert (updating id c f local s h) as Hup by done. pose proof (updating_epoll _ _ _ _ _ _ Hup) as Hep.
  pose proof (inv_registry _ _ _ _ _ Hinv) as (_ & _ & _ & Hall). destruct (Hall id c Hc) as (_ & Hid & _).
  eapply wp_known; [by apply get_flow_run|]. eapply wp_known; [by apply on_connection_gets|]. simpl self.
  destruct (negb _ && negb _) eqn:Hidle.
  - apply andb_prop in Hidle as [Hclose%negb_true_iff%negb_false_iff Hout%negb_true_iff].
    destruct (registered_with_epoll f) eqn:Hreg.
    { eapply wp_known; [by apply on_connection_gets|]. by apply (unwatch_spec id c f). }
    apply wp_ret. split; [|done].
    eapply inv_finish_same with (h := h); [exact Hinv|exact Hc|exact Hf| |done..|].
    + apply same_view_except, same_view_refl.
    + unfold epoll_ok in *. rewrite Hreg in *. by destruct Hep as [Hnone _].
  - do 2 (eapply wp_known; [by apply on_connection_gets|]). simpl self.
    unfold Connection_id. rewrite Hid. apply (watch_spec id c f); [done|].
    by destruct (negb (close_after_flush f)), (has_pending_output c).
Qed.

Lemma on_registry_run {A} (m : M (St ConnectionRegistry) A) s h :
  on_registry m (mkSt s h) =
    let '(r, s') := m (mkSt (registry_ s) h) in
    (r, mkSt (set_server_registry (self s') s) (hist s')).
Proof. done. Qed.

(** The state after a removal. *)
Definition without (id : Z) (s : EpollEchoServer) : EpollEchoServer :=
  set_server_registry (set_registry (next_id_ (registry_ s)) (delete id (live s)) (registry_ s))
    (set_flows (delete id (connection_flows_ s)) s).

(** The exception is that of a call that takes a descriptor off [epoll], the last
    call of a run from the history [h0]. *)
Definition removal_failed (h0 : History) (o : option Exception) (st : St EpollEchoServer) : Prop :=
  exists es fd errno, hist st = h0 ++ es ++ [EvEpollCtl EPOLL_CTL_DEL fd None (IoErr errno)] /\
    errno <> ENOENT /\ o = Some (SyscallRuntimeError "epoll_ctl(DEL connection)" errno).

Lemma removal_failed_earlier {P} h0 (st : St EpollEchoServer) o st' :
  grows P h0 st -> removal_failed (hist st) o st' -> removal_failed h0 o st'.
Proof.
  intros (es0 & Hh & _) (es & fd & errno & Hh' & H). exists (es0 ++ es), fd, errno.
  split; [|exact H]. by rewrite Hh', Hh, !app_assoc.
Qed.

Lemma RemoveConnection_outcome focus id c local st :
  invariant focus local st -> live (self st) !! id = Some c -> focus_on id focus ->
  wp (RemoveConnection id)
    (fun _ st' => invariant Resting local st' /\ self st' = without id (self st))
    (fun o st' => throws o st' /\ removal_failed (hist st) o st') st.
Proof.
  destruct st as [s h]. simpl. intros Hinv Hc Hon. unfold RemoveConnection.
  pose proof (inv_registry _ _ _ _ _ Hinv) as (_ & _ & _ & Hall).
  destruct (Hall id c Hc) as (_ & _ & _ & Hfd & _). simpl in Hfd.
  destruct (proj1 (inv_dom _ _ _ _ _ Hinv id) (mk_is_Some _ _ Hc)) as [f Hf]. simpl in Hf.
  apply wp_bind, wp_get_self. simpl. rewrite Registry_Find_live, Hc, Hf.
  assert (forall h', view_except id (Connection_fd c) h h' ->
    received_of id h' = received_of id h -> sent_of id h' = sent_of id h ->
    all_received h' = all_received h ->
    wp (erase_flow id ;; removed ← on_registry (Registry_Remove id); mret tt)
      (fun _ st' => invariant Resting local st' /\ self st' = without id s)
      (fun o st' => throws o st' /\ removal_failed h o st') (mkSt s h')) as Htail.
  { intros h' Hview Hr Hs Ha. eapply wp_known; [reflexivity|].
    eapply wp_known.
    { rewrite on_registry_run, Registry_Remove_spec. cbn [self hist registry_ set_flows update_server].
      fold (live s). rewrite Hc, close_of_connection by done. reflexivity. }
    apply wp_ret. split; [|done]. eapply inv_remove; [exact Hinv|exact Hc|done|exact Hview|done..]. }
  destruct (registered_with_epoll f).
  - apply wp_bind. eapply wp_known; [by apply on_connection_gets|]. simpl self.
    apply wp_bind, wp_syscall. simpl.
    set (r := os_epoll_ctl _ _ _ _). clearbody r.
    destruct (ctl_streams id EPOLL_CTL_DEL (Connection_fd c) None r h) as (H1 & H2 & H3).
    destruct r as [[]|e]; [|destruct (Z.eqb_spec e ENOENT) as [|Hne]; [|]].
    1, 2: apply wp_ret, Htail; [apply ctl_view|done..].
    apply wp_throw. split; [split; [done|]; apply safe_ctl; exact (inv_safe _ _ _ Hinv)|].
    by exists [], (Connection_fd c), e.
  - by apply wp_bind, wp_ret, Htail.
Qed.

Lemma RemoveConnection_spec focus id c local st :
  invariant focus local st -> live (self st) !! id = Some c -> focus_on id focus ->
  wp (RemoveConnection id)
    (fun _ st' => invariant Resting local st' /\ self st' = without id (self st)) throws st.
Proof.
  intros Hinv Hc Hon. eapply wp_mono; [by eapply RemoveConnection_outcome|done|by intros o st' [? _]].
Qed.

(** ** Shutdown *)

Lemma CloseAllConnections_loop_spec fds h0 n s h :
  invariant Resting [] (mkSt s h) -> (size (connection_flows_ s) < n)%nat -> kept fds h0 (mkSt s h) ->
  wp (CloseAllConnections_loop n)
    (fun _ st' => invariant Resting [] st' /\ live (self st') = ∅ /\ connection_flows_ (self st') = ∅)
    (fun o st' => throws o st' /\ removal_failed h0 o st') (mkSt s h).
Proof.
  revert s h. induction n as [|n IH]; intros s h Hinv Hn Hkept; [lia|]. simpl.
  apply wp_bind, wp_get_self. simpl self. case_bool_decide as Hempty.
  { apply wp_ret. split; [done|]. split; [|done]. simpl. apply map_eq. intros id.
    rewrite lookup_empty. apply eq_None_not_Some. intros Hsome.
    apply (inv_dom _ _ _ _ _ Hinv) in Hsome. simpl in Hsome. rewrite Hempty in Hsome.
    by destruct Hsome. }
  destruct (begin_of_elem _ Hempty) as [f Hf].
  destruct (proj2 (inv_dom _ _ _ _ _ Hinv _) (mk_is_Some _ _ Hf)) as [c Hc].
  eapply wp_call; [eapply (wp_follows (kept fds h0)); [apply RemoveConnection_follows; apply _|done|]| |].
  { by eapply RemoveConnection_outcome. }
  - intros _ [s' h'] [[Hinv' Hs'] Hkept']. simpl in Hs'. subst s'. apply IH; [done| |done].
    simpl. rewrite map_size_delete, Hf.
    assert (0 < size (connection_flows_ s))%nat; [|lia].
    destruct (size (connection_flows_ s)) eqn:Hz; [|lia]. by apply map_size_empty_iff in Hz.
  - intros o st' [[Hthrows Hfailed] _]. split; [done|].
    by apply (removal_failed_earlier _ _ _ _ (proj1 Hkept)).
Qed.

Lemma CloseAllConnections_spec st :
  invariant Resting [] st ->
  wp CloseAllConnections
    (fun _ st' => invariant Resting [] st' /\ live (self st') = ∅ /\ connection_flows_ (self st') = ∅)
    (fun o st' => throws o st' /\ removal_failed (hist st) o st') st.
Proof.
  destruct st as [s h]. intros Hinv. unfold CloseAllConnections. apply wp_bind, wp_get_self.
  apply (CloseAllConnections_loop_spec (own_fds s)); [done|simpl; lia|]. split; [apply grows_refl|done].
Qed.

(** ** Responses *)

(** Only the connection that is being worked on changes. *)
Lemma inv_change_conn focus focus' id c f c' f' local s h :
  invariant focus local (mkSt s h) -> focus_on id focus -> focus_on id focus' ->
  live s !! id = Some c -> connection_flows_ s !! id = Some f ->
  (socket_ c' = socket_ c /\ id_ c' = id_ c /\ limits_ c' = limits_ c) -> Connection_wf c' h ->
  conn_inv handler_ cfg h (jobs handler_ s local) (mode_of focus' id) (todo_of focus' id) id c' f' ->
  invariant focus' local
    (mkSt (set_flows (<[id := f']> (connection_flows_ s)) (set_live (<[id := c']> (live s)) s)) h).
Proof.
  intros Hinv Hon Hon' Hc Hf Hsame Hwf Hconn.
  eapply inv_change with (id := id) (c' := c') (f' := f');
    [exact Hinv|exact Hc|exact Hf|exact Hon|exact Hon'|..|exact Hconn]; try done.
  - apply (inv_short _ _ _ _ _ Hinv).
  - apply (inv_jobs _ _ _ _ _ Hinv).
  - apply (inv_items _ _ _ _ _ Hinv).
  - apply (inv_queue _ _ _ _ _ Hinv).
Qed.

Lemma inv_change_live focus focus' id c f c' local s h :
  invariant focus local (mkSt s h) -> focus_on id focus -> focus_on id focus' ->
  live s !! id = Some c -> connection_flows_ s !! id = Some f ->
  (socket_ c' = socket_ c /\ id_ c' = id_ c /\ limits_ c' = limits_ c) -> Connection_wf c' h ->
  conn_inv handler_ cfg h (jobs handler_ s local) (mode_of focus' id) (todo_of focus' id) id c' f ->
  invariant focus' local (mkSt (set_live (<[id := c']> (live s)) s) h).
Proof.
  intros Hinv Hon Hon' Hc Hf Hsame Hwf Hconn.
  pose proof (inv_change_conn focus focus' id c f c' f local s h Hinv Hon Hon' Hc Hf Hsame Hwf Hconn) as H.
  by rewrite (set_flows_id id f (set_live (<[id := c']> (live s)) s)) in H.
Qed.

Lemma inv_change_flow focus focus' id c f f' local s h :
  invariant focus local (mkSt s h) -> focus_on id focus -> focus_on id focus' ->
  live s !! id = Some c -> connection_flows_ s !! id = Some f ->
  conn_inv handler_ cfg h (jobs handler_ s local) (mode_of focus' id) (todo_of focus' id) id c f' ->
  invariant focus' local (mkSt (set_flows (<[id := f']> (connection_flows_ s)) s) h).
Proof.
  intros Hinv Hon Hon' Hc Hf Hconn. pose proof (inv_registry _ _ _ _ _ Hinv) as (_ & _ & _ & Hall).
  destruct (Hall id c Hc) as (_ & _ & _ & _ & Hwf).
  pose proof (inv_change_conn focus focus' id c f c f' local s h Hinv Hon Hon' Hc Hf ltac:(done) Hwf Hconn) as H.
  by rewrite set_live_id in H.
Qed.

(** Nothing is due: the responses need not be moved any more. *)
Lemma inv_flushed id c f local s h :
  invariant (Flushing id) local (mkSt s h) ->
  live s !! id = Some c -> connection_flows_ s !! id = Some f ->
  completed_responses f !! next_response_sequence f = None ->
  invariant (Working id []) local (mkSt s h).
Proof.
  intros Hinv Hc Hf Hnone. rewrite <- (set_flows_id id f s Hf).
  eapply inv_change_flow; [exact Hinv|done|done|exact Hc|exact Hf|].
  destruct (mode_working id []) as [-> ->].
  pose proof (inv_conns _ _ _ _ _ Hinv id c f Hc Hf) as (an & wa & H).
  destruct (mode_flushing id) as [E1 E2]. rewrite E1, E2 in H.
  destruct H as (? & ? & ? & ? & ? & ? & ? & ? & Hep & _). exists an, wa.
  do 8 (split; [done|]). split; [|by intros _].
  rewrite epoll_dirty by done. by rewrite epoll_dirty in Hep.
Qed.

(** Sequence numbers do not wrap: there are not that many bytes. *)
Lemma conn_inv_small h js md todo id c f :
  len (all_received h) < 2 ^ 64 -> conn_inv handler_ cfg h js md todo id c f ->
  next_request_sequence f + len todo < 2 ^ 64.
Proof.
  intros Hshort (an & wa & Hr & _ & Hreq & _).
  pose proof (received_of_le id h) as Hle. pose proof (len_frames_le (an ++ wa ++ todo)) as Hf.
  rewrite Hr in Hle. rewrite !len_app in *. pose proof (len_nonneg (pending (decoder_ c))). lia.
Qed.

(** The response that is due is the answer to the first waiting request. *)
Lemma conn_inv_ready h js md todo id c f m :
  conn_inv handler_ cfg h js md todo id c f ->
  completed_responses f !! next_response_sequence f = Some m ->
  Message_wf m /\
  (encodable m -> len (all_received h) < 2 ^ 64 -> forall c', decoder_ c' = decoder_ c ->
     socket_ c' = socket_ c -> unsent c' = unsent c ++ frame m ->
     conn_inv handler_ cfg h js Flush todo id c' (flow_flushed (next_response_sequence f) f)).
Proof.
  intros Hconn Hm. pose proof Hconn as (an & wa & Hr & Hv & Hreq & Hresp & Hmax & Hva & Hs & Hperm & Hep & _).
  assert ((next_response_sequence f, m) ∈ numbered (len an) (answer handler_ <$> wa)) as Hin.
  { rewrite <- Hperm. apply elem_of_app. left. by apply elem_of_map_to_list. }
  destruct wa as [|req wa]; [by apply not_elem_of_nil in Hin|]. rewrite Hresp in *.
  assert (m = answer handler_ req) as ->.
  { eapply numbered_unique; [exact Hin|]. apply numbered_first. }
  pose proof Hv as (Hv1 & [Hvreq Hv2]%Forall_cons_iff)%Forall_app.
  assert (Message_wf (answer handler_ req)) as Hwf by by apply answer_wf.
  split; [done|]. intros Henc Hshort c' Hdec Hsock Hun.
  pose proof (conn_inv_small _ _ _ _ _ _ _ Hshort Hconn) as Hsmall.
  rewrite len_cons in *. pose proof (len_nonneg an). pose proof (len_nonneg wa). pose proof (len_nonneg todo).
  exists (an ++ [req]), wa. rewrite Hdec, <- !app_assoc, len_app. simpl.
  split; [done|]. split; [done|]. split; [change (len [req]) with 1; lia|].
  split; [rewrite Hresp, u64_id; [done|unfold is_u64; lia]|]. split; [lia|].
  rewrite fmap_app, Hun. split; [apply Forall_app_2; [done|by apply Forall_singleton]|].
  split; [rewrite app_assoc, Hs; simpl; by rewrite frames_snoc|]. split.
  - simpl in Hperm. rewrite <- (insert_delete_id _ _ _ Hm) in Hperm.
    rewrite map_to_list_insert in Hperm by apply lookup_delete_eq. simpl in Hperm.
    by apply Permutation_cons_inv in Hperm.
  - split; [|by intros ?]. rewrite epoll_dirty by done. unfold epoll_ok, Connection_fd in *. rewrite Hsock. simpl.
    intros Hreg. rewrite Hreg in Hep. by destruct Hep.
Qed.

Lemma FlushReadyResponses_loop_spec n id c f local st :
  invariant (Flushing id) local st -> live (self st) !! id = Some c ->
  connection_flows_ (self st) !! id = Some f -> (size (completed_responses f) < n)%nat ->
  wp (FlushReadyResponses_loop n id id id)
    (fun b st' =>
       if b : bool then
         invariant (Working id []) local st' /\
         exists c' f', live (self st') !! id = Some c' /\ connection_flows_ (self st') !! id = Some f' /\
           completed_responses f' !! next_response_sequence f' = None
       else invariant Resting local st' /\ live (self st') !! id = None) throws st.
Proof.
  destruct st as [s h]. simpl. revert s c f. induction n as [|n IH]; intros s c f Hinv Hc Hf Hn; [lia|].
  simpl. eapply wp_known; [by apply get_flow_run|].
  destruct (completed_responses f !! next_response_sequence f) as [m|] eqn:Hm.
  2: { apply wp_ret. split; [by eapply inv_flushed|]. by exists c, f. }
  pose proof (inv_conns _ _ _ _ _ Hinv id c f Hc Hf) as Hconn.
  destruct (mode_flushing id) as [E1 E2]. rewrite E1, E2 in Hconn.
  destruct (conn_inv_ready _ _ _ _ _ _ _ _ Hconn Hm) as [Hmwf Hflush].
  pose proof (inv_registry _ _ _ _ _ Hinv) as (_ & _ & _ & Hall).
  destruct (Hall id c Hc) as (_ & _ & _ & _ & Hcwf).
  destruct (QueueOutput_spec m c h Hcwf Hmwf) as (b & c' & Hq & Hwf' & Hc' & Hb & Hu & _).
  eapply wp_known; [by eapply on_connection_run|].
  assert (socket_ c' = socket_ c /\ id_ c' = id_ c /\ limits_ c' = limits_ c /\
          decoder_ c' = decoder_ c) as (Hsock & Hid & Hlim & Hdec) by (by rewrite Hc').
  destruct b; simpl.
  - destruct Hb as [[Henc _] _]; [done|].
    eapply wp_known; [by apply update_flow_run|].
    pose proof (inv_change_conn (Flushing id) (Flushing id) id c f c'
      (flow_flushed (next_response_sequence f) f) local s h Hinv ltac:(done) ltac:(done) Hc Hf
      ltac:(done) Hwf') as Hinv'.
    rewrite E1, E2 in Hinv'. specialize (Hinv' (Hflush Henc (inv_short _ _ _ _ _ Hinv) c' Hdec Hsock Hu)).
    eapply IH; [exact Hinv'|simpl; apply lookup_insert_eq|simpl; apply lookup_insert_eq|].
    simpl. rewrite map_size_delete, Hm.
    assert (0 < size (completed_responses f))%nat; [|lia].
    destruct (size (completed_responses f)) eqn:Hz; [|lia].
    apply map_size_empty_iff in Hz. by rewrite Hz, lookup_empty in Hm.
  - rewrite app_nil_r in Hu.
    assert (invariant (Flushing id) local (mkSt (set_live (<[id := c']> (live s)) s) h)) as Hinv'.
    { eapply inv_change_live; [exact Hinv|done|done|exact Hc|exact Hf|done|done|].
      rewrite E1, E2. by apply conn_inv_same with c. }
    eapply wp_call; [eapply RemoveConnection_spec; [exact Hinv'|simpl; apply lookup_insert_eq|done]| |done].
    intros _ [s2 h2] [Hinv2 Hs2]. simpl in Hs2. subst s2. apply wp_ret. split; [done|].
    simpl. apply lookup_delete_eq.
Qed.

Lemma ShouldCloseAfterFlush_run id c f s h :
  live s !! id = Some c -> connection_flows_ s !! id = Some f ->
  ShouldCloseAfterFlush id id (mkSt s h) =
    (Return (close_after_flush f && negb (has_pending_output c) &&
             (next_request_sequence f <=? next_response_sequence f)), mkSt s h).
Proof.
  intros Hc Hf. unfold ShouldCloseAfterFlush.
  erewrite bind_return by by apply get_flow_run.
  erewrite bind_return by by apply on_connection_gets. done.
Qed.

Lemma FlushReadyResponses_spec id c f local st :
  invariant (Flushing id) local st -> live (self st) !! id = Some c ->
  connection_flows_ (self st) !! id = Some f ->
  wp (FlushReadyResponses id id id) (fun _ st' => invariant Resting local st') throws st.
Proof.
  destruct st as [s h]. simpl. intros Hinv Hc Hf. unfold FlushReadyResponses.
  eapply wp_known; [by apply get_flow_run|].
  eapply wp_call; [eapply FlushReadyResponses_loop_spec; [exact Hinv|exact Hc|exact Hf|lia]| |done].
  intros [] [s1 h1]; simpl; [|by intros [? _]; apply wp_ret].
  intros (Hinv1 & c1 & f1 & Hc1 & Hf1 & _).
  eapply wp_known; [by apply ShouldCloseAfterFlush_run|]. destruct (_ && _).
  - eapply wp_call; [by eapply RemoveConnection_spec| |done]. intros _ st2 [? _]. by apply wp_ret.
  - eapply wp_call; [by eapply UpdateInterest_spec| |done]. intros _ st2 [? _]. by apply wp_ret.
Qed.

Lemma jobs_local s r local :
  jobs handler_ s (r :: local) ≡ₚ job_of_result r :: jobs handler_ s local.
Proof. unfold jobs. rewrite !fmap_app. simpl. solve_Permutation. Qed.

(** A result for a connection that is gone is dropped. *)
Lemma inv_drop r local st :
  invariant Resting (r :: local) st -> live (self st) !! result_connection_id r = None ->
  invariant Resting local st.
Proof.
  intros [I1 I2 I3 I4 I5 I6 I7 I8 I9 I10 I11 I12 I13] Hdead. constructor; try done.
  - intros id c f Hc Hf. eapply conn_inv_view; [done..| |by apply I8].
    rewrite (jobs_of_Permutation _ _ _ (jobs_local _ _ _)), jobs_of_cons.
    rewrite bool_decide_eq_false_2; [done|]. simpl. intros <-. by rewrite Hdead in Hc.
  - rewrite jobs_local in I11. by apply Forall_cons_iff in I11 as [_ I11].
Qed.

Lemma conn_inv_completed h s r local id c f :
  result_connection_id r = id ->
  conn_inv handler_ cfg h (jobs handler_ s (r :: local)) Clean [] id c f ->
  conn_inv handler_ cfg h (jobs handler_ s local) Flush [] id c
    (flow_completed (result_sequence r) (result_response r) f).
Proof.
  intros Hid (an & wa & Hr & Hv & Hreq & Hresp & Hmax & Hva & Hs & Hperm & Hep & _).
  rewrite (jobs_of_Permutation _ _ _ (jobs_local _ _ _)), jobs_of_cons in Hperm.
  rewrite bool_decide_eq_true_2 in Hperm by done. simpl in Hperm.
  exists an, wa. do 7 (split; [done|]). split.
  - rewrite <- Hperm. simpl.
    destruct (completed_responses f !! result_sequence r) as [m|] eqn:Hm.
    + exfalso. pose proof (numbered_NoDup (len an) (answer handler_ <$> wa)) as Hnd.
      rewrite <- Hperm, fmap_app in Hnd. apply list.NoDup_app in Hnd as (_ & Hnd & _).
      apply (Hnd (result_sequence r)).
      * apply list_elem_of_fmap. exists (result_sequence r, m). split; [done|].
        by apply elem_of_map_to_list.
      * simpl. apply elem_of_cons. by left.
    + rewrite map_to_list_insert by done. simpl. solve_Permutation.
  - split; [|by intros ?]. rewrite epoll_dirty by done. simpl. intros Hreg. unfold epoll_ok in Hep.
    rewrite Hreg in Hep. apply Hep.
Qed.

Lemma HandleCompletedWork_spec r local st :
  invariant Resting (r :: local) st ->
  wp (HandleCompletedWork r) (fun _ st' => invariant Resting local st') throws st.
Proof.
  destruct st as [s h]. intros Hinv. unfold HandleCompletedWork.
  apply wp_bind, wp_get_self. simpl. rewrite Registry_Find_live.
  destruct (live s !! result_connection_id r) as [c|] eqn:Hc; [|by apply wp_ret; eapply inv_drop].
  destruct (proj1 (inv_dom _ _ _ _ _ Hinv _) (mk_is_Some _ _ Hc)) as [f Hf]. simpl in Hf. rewrite Hf.
  eapply wp_known; [by apply update_flow_run|].
  set (id := result_connection_id r) in *.
  set (f' := flow_completed (result_sequence r) (result_response r) f).
  assert (invariant (Flushing id) local
    (mkSt (set_flows (<[id := f']> (connection_flows_ s)) s) h)) as Hinv'.
  { pose proof (inv_registry _ _ _ _ _ Hinv) as (_ & _ & _ & Hall).
    destruct (Hall id c Hc) as (_ & _ & _ & _ & Hwf).
    eapply inv_change with (id := id) (c := c) (c' := c) (f' := f');
      [exact Hinv|exact Hc|exact Hf|done|done|apply same_view_except, same_view_refl|..].
    - apply (inv_short _ _ _ _ _ Hinv).
    - simpl. rewrite insert_id by done. unfold live. by destruct (registry_ s).
    - done.
    - done.
    - done.
    - done.
    - intros id' Hne. change (jobs handler_ (set_flows _ _) local) with (jobs handler_ s local).
      rewrite (jobs_of_Permutation _ _ _ (jobs_local s r local)), jobs_of_cons.
      by rewrite bool_decide_eq_false_2.
    - pose proof (inv_jobs _ _ _ _ _ Hinv) as Hj. simpl in Hj. rewrite jobs_local in Hj.
      by apply Forall_cons_iff in Hj as [_ Hj].
    - apply (inv_items _ _ _ _ _ Hinv).
    - apply (inv_queue _ _ _ _ _ Hinv).
    - destruct (mode_flushing id) as [-> ->].
      change (jobs handler_ (set_flows _ _) local) with (jobs handler_ s local).
      apply conn_inv_completed; [done|]. by apply (inv_conns _ _ _ _ _ Hinv). }
  eapply wp_call; [eapply FlushReadyResponses_spec; [exact Hinv'|done|simpl; apply lookup_insert_eq]| |done].
  intros b st' Hinv2. by apply wp_ret.
Qed.

Lemma HandleCompletedWork_all_spec rs st :
  invariant Resting rs st ->
  wp (HandleCompletedWork_all rs) (fun _ st' => invariant Resting [] st') throws st.
Proof.
  revert st. induction rs as [|r rs IH]; intros st Hinv; simpl; [by apply wp_ret|].
  eapply wp_call; [by apply HandleCompletedWork_spec| |done]. intros ? st' Hinv'. by apply IH.
Qed.

Lemma drain_wakeup_spec n focus local st :
  invariant focus local st ->
  wp (drain_wakeup n) (fun _ st' => invariant focus local st') (fun _ => safe) st.
Proof.
  revert st. induction n as [|n IH]; intros [s h] Hinv.
  { apply wp_out_of_fuel. by eapply inv_safe. }
  simpl. apply wp_bind, wp_get_self, wp_bind, wp_syscall. simpl.
  assert (forall r, invariant focus local (mkSt s (h ++ [EvReadCounter (UniqueFd_get (worker_wakeup_ s)) r])))
    as Hq by (intros r; by apply inv_quiet).
  destruct (os_read_counter _ _) as [k|e].
  - destruct (k =? sizeof_counter); [by apply IH|].
    destruct (k =? 0); [by apply wp_ret|]. apply wp_throw. by eapply inv_safe.
  - destruct (e =? EINTR); [by apply IH|]. destruct (IsWouldBlock e); [by apply wp_ret|].
    apply wp_throw. by eapply inv_safe.
Qed.

Lemma HandleWorkerWakeup_spec st :
  invariant Resting [] st ->
  wp (HandleWorkerWakeup handler_ fuel) (fun _ st' => invariant Resting [] st') (fun _ => safe) st.
Proof.
  intros Hinv. unfold HandleWorkerWakeup.
  eapply wp_call; [by apply drain_wakeup_spec| |done]. intros ? st1 Hinv1.
  eapply wp_call; [exact (yield_spec _ _ _ Hinv1)| |by intros o st' [? _]]. intros _ [s2 h2] [Hinv2 _].
  apply wp_bind, wp_get_self, wp_bind, wp_put_self. simpl.
  eapply wp_mono; [apply HandleCompletedWork_all_spec|done|by intros o st' [_ ?]].
  eapply inv_same; [exact Hinv2|apply same_view_refl|done..| | |].
  - unfold jobs. simpl. by rewrite app_nil_r.
  - apply (inv_items _ _ _ _ _ Hinv2).
  - apply (inv_queue _ _ _ _ _ Hinv2).
Qed.

Lemma HandleShutdownSignal_spec st :
  invariant Resting [] st ->
  wp (HandleShutdownSignal fuel) (fun _ st' => invariant Resting [] st') (fun _ => safe) st.
Proof.
  unfold HandleShutdownSignal. generalize fuel. intros n. revert st.
  induction n as [|n IH]; intros [s h] Hinv.
  { apply wp_out_of_fuel. by eapply inv_safe. }
  simpl. apply wp_bind, wp_get_self, wp_bind, wp_syscall. simpl.
  assert (forall r, invariant Resting [] (mkSt s (h ++ [EvReadSignal (UniqueFd_get (shutdown_signal_ s)) r])))
    as Hq by (intros r; by apply inv_quiet).
  destruct (os_read_signal _ _) as [k|e].
  - destruct (k =? sizeof_signal_info).
    + apply wp_bind, wp_get_self, wp_bind, wp_put_self. simpl. apply IH.
      eapply inv_same; [apply Hq|apply same_view_refl|done..| |].
      * apply (inv_items _ _ _ _ _ Hinv).
      * apply (inv_queue _ _ _ _ _ Hinv).
    + destruct (k =? 0); [by apply wp_ret|]. apply wp_throw. by eapply inv_safe.
  - destruct (e =? EINTR); [by apply IH|]. destruct (IsWouldBlock e); [by apply wp_ret|].
    apply wp_throw. by eapply inv_safe.
Qed.

(** ** Requests *)

(** An accepted item: one more request waits, one fewer is to be submitted. *)
Lemma conn_inv_submitted h js js' m ms id c f :
  len (all_received h) < 2 ^ 64 ->
  conn_inv handler_ cfg h js Dirty (m :: ms) id c f ->
  next_request_sequence f - next_response_sequence f < cfg_max_in_flight cfg ->
  jobs_of id js' ≡ₚ (next_request_sequence f, answer handler_ m) :: jobs_of id js ->
  conn_inv handler_ cfg h js' Dirty ms id c (flow_submitted f).
Proof.
  intros Hshort Hconn Hroom Hjs.
  pose proof (conn_inv_small _ _ _ _ _ _ _ Hshort Hconn) as Hsmall.
  destruct Hconn as (an & wa & Hr & Hv & Hreq & Hresp & Hmax & Hva & Hs & Hperm & Hep & Hfl).
  pose proof (len_nonneg an). pose proof (len_nonneg wa). pose proof (len_nonneg ms).
  rewrite len_cons in Hsmall.
  exists an, (wa ++ [m]). rewrite <- !app_assoc, len_app. simpl. change (len [m]) with 1.
  split; [done|]. split; [done|]. split; [rewrite u64_id; [lia|unfold is_u64; lia]|].
  split; [done|]. split; [lia|]. split; [done|]. split; [done|]. split; [|done].
  rewrite Hjs, fmap_app. change (answer handler_ <$> [m]) with [answer handler_ m].
  rewrite numbered_snoc, <- Hperm, Hreq. simpl.
  assert (len (answer handler_ <$> wa) = len wa) as -> by (unfold len; by rewrite length_fmap).
  solve_Permutation.
Qed.

Lemma inv_submitted id m ms c f p local s h :
  invariant (Working id (m :: ms)) local (mkSt s h) ->
  live s !! id = Some c -> connection_flows_ s !! id = Some f ->
  next_request_sequence f - next_response_sequence f < cfg_max_in_flight cfg ->
  TrySubmit {| item_connection_id := id; item_sequence := next_request_sequence f;
               item_request := m |} (worker_pool_ s) = (true, p) ->
  invariant (Working id ms) local
    (mkSt (set_flows (<[id := flow_submitted f]> (connection_flows_ s)) (set_pool p s)) h).
Proof.
  intros Hinv Hc Hf Hroom Hsub. unfold TrySubmit in Hsub.
  destruct (TryPush _ _) as [ok q] eqn:Hpush. injection Hsub as -> <-.
  apply TryPush_spec in Hpush as (Hq & Hcap & _ & Hit & _); [|apply (inv_queue _ _ _ _ _ Hinv)].
  simpl in Hit. set (item := {| item_connection_id := id; item_sequence := _; item_request := m |}) in *.
  set (s' := set_flows _ _).
  assert (jobs handler_ s' local ≡ₚ job_of_item handler_ item :: jobs handler_ s local) as Hjobs.
  { unfold jobs. simpl. rewrite Hit, !fmap_app. simpl. solve_Permutation. }
  pose proof (inv_registry _ _ _ _ _ Hinv) as (_ & _ & _ & Hall).
  destruct (Hall id c Hc) as (Hid & _ & _ & _ & Hwf).
  pose proof (inv_conns _ _ _ _ _ Hinv id c f Hc Hf) as Hconn.
  destruct (mode_working id (m :: ms)) as [E1 E2]. rewrite E1, E2 in Hconn.
  eapply inv_change with (id := id) (c := c) (c' := c);
    [exact Hinv|exact Hc|exact Hf|done|done|apply same_view_except, same_view_refl|..].
  - apply (inv_short _ _ _ _ _ Hinv).
  - simpl. rewrite insert_id by done. unfold live. by destruct (registry_ s).
  - done.
  - unfold config_of. simpl. by rewrite Hcap.
  - done.
  - done.
  - intros id' Hne. rewrite (jobs_of_Permutation _ _ _ Hjobs), jobs_of_cons.
    by rewrite bool_decide_eq_false_2.
  - rewrite Hjobs. constructor; [simpl; simpl in Hid; lia|]. apply (inv_jobs _ _ _ _ _ Hinv).
  - simpl. rewrite Hit, app_assoc. apply Forall_app_2; [apply (inv_items _ _ _ _ _ Hinv)|].
    apply Forall_singleton. simpl. destruct Hconn as (an & wa & _ & Hv & _).
    rewrite !Forall_app, Forall_cons_iff in Hv. tauto.
  - done.
  - destruct (mode_working id ms) as [-> ->].
    eapply conn_inv_submitted; [apply (inv_short _ _ _ _ _ Hinv)|exact Hconn|done|].
    rewrite (jobs_of_Permutation _ _ _ Hjobs), jobs_of_cons. by rewrite bool_decide_eq_true_2.
Qed.

Lemma inv_refused item p focus local s h :
  invariant focus local (mkSt s h) -> TrySubmit item (worker_pool_ s) = (false, p) ->
  invariant focus local (mkSt (set_pool p s) h).
Proof.
  intros Hinv Hsub. unfold TrySubmit, TryPush in Hsub. destruct (_ || _); [|done].
  injection Hsub as <-. eapply inv_same; [exact Hinv|apply same_view_refl|done..| |].
  - apply (inv_items _ _ _ _ _ Hinv).
  - apply (inv_queue _ _ _ _ _ Hinv).
Qed.

(** Where a handler of connection [id] stands. *)
Definition at_work (id : Z) (ms : list Message) (local : list WorkResult)
    (st : St EpollEchoServer) : Prop :=
  invariant (Working id ms) local st /\
  is_Some (live (self st) !! id) /\ is_Some (connection_flows_ (self st) !! id).

Lemma SubmitWork_loop_spec id ms local st :
  at_work id ms local st ->
  wp (SubmitWork_loop handler_ fuel id id ms)
    (fun b st' => exists ms', at_work id ms' local st' /\ (b = true -> ms' = []))
    (fun _ => safe) st.
Proof.
  destruct st as [s h]. revert s h. induction ms as [|m ms IH]; intros s h Hat; simpl.
  { apply wp_ret. by exists []. }
  pose proof Hat as (Hinv & [c Hc] & [f Hf]). simpl in Hc, Hf.
  eapply wp_known; [by apply get_flow_run|]. apply wp_bind, wp_get_self. simpl self.
  destruct (Z.leb_spec (max_in_flight_requests_per_connection_ s)
              (u64 (next_request_sequence f - next_response_sequence f))) as [|Hroom].
  { apply wp_ret. by exists (m :: ms). }
  assert (next_request_sequence f - next_response_sequence f < cfg_max_in_flight cfg) as Hroom'.
  { pose proof (inv_conns _ _ _ _ _ Hinv id c f Hc Hf) as Hconn.
    pose proof (conn_inv_small _ _ _ _ _ _ _ (inv_short _ _ _ _ _ Hinv) Hconn) as Hsmall.
    destruct Hconn as (an & wa & _ & _ & Hreq & Hresp & _).
    pose proof (len_nonneg (todo_of (Working id (m :: ms)) id)).
    pose proof (len_nonneg an). pose proof (len_nonneg wa).
    rewrite u64_id in Hroom by (unfold is_u64; lia).
    by rewrite <- (inv_config _ _ _ _ _ Hinv). }
  unfold TrySubmit_shared. apply wp_bind.
  eapply wp_call; [exact (yield_spec _ _ _ Hinv)| |by intros o st' [? _]].
  intros _ [s1 h1] (Hinv1 & Hreg & Hfl & _). simpl in Hreg, Hfl.
  assert (live s1 !! id = Some c) as Hc1 by (unfold live in *; by rewrite Hreg).
  assert (connection_flows_ s1 !! id = Some f) as Hf1 by by rewrite Hfl.
  apply wp_bind, wp_get_self. simpl self.
  destruct (TrySubmit _ (worker_pool_ s1)) as [ok p] eqn:Hsub.
  apply wp_bind, wp_put_self, wp_ret. simpl hist. destruct ok; simpl.
  - eapply wp_known; [by apply update_flow_run|]. apply IH. split.
    + exact (inv_submitted id m ms c f p local s1 h1 Hinv1 Hc1 Hf1 Hroom' Hsub).
    + split; [exists c; exact Hc1|]. exists (flow_submitted f). simpl. apply lookup_insert_eq.
  - apply wp_ret. exists (m :: ms). split; [|done].
    split; [by eapply inv_refused|]. split; [by exists c|by exists f].
Qed.

(** A read: the messages it returns are to be submitted. *)
Lemma inv_reads id c f k st local s h :
  invariant Resting local (mkSt s h) -> live s !! id = Some c -> connection_flows_ s !! id = Some f ->
  reads c h k st ->
  invariant (Working id k) local (mkSt (set_live (<[id := self st]> (live s)) s) (hist st)).
Proof.
  intros Hinv Hc Hf Hk. pose proof (reads_wf _ _ _ _ Hk) as Hwf.
  pose proof (inv_registry _ _ _ _ _ Hinv) as (_ & _ & _ & Hall).
  destruct (Hall id c Hc) as (_ & Hid & _).
  destruct Hk as (d & es & -> & [Hes Hshort] & _ & Hv & Hp). simpl in *.
  pose proof (sent_of_recv c es Hes) as Hsent. rewrite Hid in *.
  eapply inv_change with (id := id) (c := c) (f' := f);
    [exact Hinv|exact Hc|exact Hf|done|done|..].
  - apply io_events_view. eapply List.Forall_impl; [|exact Hes].
    intros [] He; try done. simpl in He. destruct He. congruence.
  - apply Hshort, (inv_short _ _ _ _ _ Hinv).
  - done.
  - simpl. by rewrite insert_id.
  - done.
  - done.
  - done.
  - done.
  - apply (inv_jobs _ _ _ _ _ Hinv).
  - apply (inv_items _ _ _ _ _ Hinv).
  - apply (inv_queue _ _ _ _ _ Hinv).
  - destruct (mode_working id k) as [-> ->].
    destruct (inv_conns _ _ _ _ _ Hinv id c f Hc Hf) as (an & wa & Hr & Hv0 & Hrest).
    cbn [mode_of todo_of] in *.
    rewrite app_nil_r in Hr, Hv0. exists an, wa. unfold received_of, sent_of in *. simpl in *.
    rewrite !log_app, Hsent, app_nil_r, Hr, <- app_assoc, Hp, (app_assoc an wa k).
    split; [by rewrite (frames_app (an ++ wa) k), app_assoc|]. split; [by apply Forall_app_2|].
    destruct Hrest as (? & ? & ? & ? & ? & ? & Hep & Hfl). do 6 (split; [done|]).
    split; [|intros _; by apply Hfl].
    rewrite epoll_dirty by done. intros Hreg. unfold epoll_ok in Hep. rewrite Hreg in Hep.
    change (Connection_fd (set_decoder d c)) with (Connection_fd c).
    rewrite io_events_interest; [apply Hep|]. eapply List.Forall_impl; [|exact Hes]. by intros [].
Qed.

Lemma inv_writes id c f st local s h :
  invariant (Working id []) local (mkSt s h) -> live s !! id = Some c ->
  connection_flows_ s !! id = Some f -> writes c h st ->
  invariant (Working id []) local (mkSt (set_live (<[id := self st]> (live s)) s) (hist st)).
Proof.
  intros Hinv Hc Hf Hw. pose proof (writes_wf _ _ _ Hw) as Hwf.
  pose proof (inv_registry _ _ _ _ _ Hinv) as (_ & _ & _ & Hall).
  destruct (Hall id c Hc) as (_ & Hid & _).
  destruct Hw as (b & o & es & -> & Hes & _ & Hp). simpl in *. rewrite Hid in *.
  pose proof (received_of_send c es id Hes) as Hrec.
  assert (all_received (h ++ es) = all_received h) as Hall'.
  { unfold all_received. rewrite log_app, (log_none _ es), app_nil_r; [done|].
    eapply List.Forall_impl; [|exact Hes]. by intros []. }
  eapply inv_change with (id := id) (c := c) (f' := f);
    [exact Hinv|exact Hc|exact Hf|done|done|..].
  - apply io_events_view. eapply List.Forall_impl; [|exact Hes].
    intros [] He; try done. simpl in He. destruct He. congruence.
  - rewrite Hall'. apply (inv_short _ _ _ _ _ Hinv).
  - done.
  - simpl. by rewrite insert_id.
  - done.
  - done.
  - done.
  - done.
  - apply (inv_jobs _ _ _ _ _ Hinv).
  - apply (inv_items _ _ _ _ _ Hinv).
  - apply (inv_queue _ _ _ _ _ Hinv).
  - pose proof (inv_conns _ _ _ _ _ Hinv id c f Hc Hf) as Hconn.
    destruct (mode_working id []) as [E1 E2]. rewrite E1, E2 in *. simpl in *.
    destruct Hconn as (an & wa & Hr & Hv0 & ? & ? & ? & ? & Hs & ? & Hep & Hfl).
    exists an, wa. unfold received_of, sent_of in *. rewrite !log_app, Hrec, app_nil_r, Hr.
    do 6 (split; [done|]). split; [by rewrite <- Hs, Hp, app_assoc|]. split; [done|].
    split; [|done]. rewrite epoll_dirty in * by done. intros Hreg.
    change (Connection_fd (set_output b o c)) with (Connection_fd c).
    rewrite io_events_interest; [by apply Hep|]. eapply List.Forall_impl; [|exact Hes]. by intros [].
Qed.

Lemma at_work_closing id ms local s h f :
  at_work id ms local (mkSt s h) -> connection_flows_ s !! id = Some f ->
  at_work id ms local (mkSt (set_flows (<[id := flow_closing f]> (connection_flows_ s)) s) h).
Proof.
  intros (Hinv & [c Hc] & _) Hf. simpl in Hc. split; [|split].
  - eapply inv_change_flow; [exact Hinv|done|done|exact Hc|exact Hf|].
    pose proof (inv_conns _ _ _ _ _ Hinv id c f Hc Hf) as Hconn.
    destruct (mode_working id ms) as [E1 E2]. rewrite E1, E2 in *.
    destruct Hconn as (an & wa & H). exists an, wa. rewrite epoll_dirty in * by done. exact H.
  - by exists c.
  - simpl. rewrite lookup_insert_eq. by eexists.
Qed.

(** The messages of a failed submission are lost with the connection. *)
Definition after_event (id : Z) (b : bool) (st : St EpollEchoServer) : Prop :=
  exists ms, at_work id ms [] st /\ (b = false -> ms = []).

Lemma read_event_spec id c f st :
  invariant Resting [] st -> live (self st) !! id = Some c -> connection_flows_ (self st) !! id = Some f ->
  wp (read_event handler_ fuel id id id) (after_event id) (fun _ => safe) st.
Proof.
  destruct st as [s h]. simpl. intros Hinv Hc Hf. unfold read_event.
  apply wp_bind, wp_get_self. simpl self. apply wp_bind. unfold on_connection.
  eapply wp_zoom; [exact Hc|].
  pose proof (inv_registry _ _ _ _ _ Hinv) as (_ & _ & _ & Hall).
  destruct (Hall id c Hc) as (_ & _ & _ & _ & Hwf).
  assert (is_u64 (max_read_bytes_per_event_ s)) as Hmax.
  { destruct Hcfg as [H _]. by rewrite <- (inv_config _ _ _ _ _ Hinv) in H. }
  eapply wp_mono; [by apply ReadAvailable_spec| |].
  2: { intros o st1 [[k Hk] _]. eapply inv_safe. by eapply inv_reads. }
  intros r st1 (k & Hms & Hk & _). simpl in Hms. subst k.
  pose proof (inv_reads _ _ _ _ _ _ _ _ Hinv Hc Hf Hk) as Hinv1.
  apply wp_bind. unfold SubmitWork. apply wp_bind, wp_get_self. simpl. rewrite Hf.
  eapply wp_mono; [apply (SubmitWork_loop_spec id (messages r) [])| |done].
  { split; [exact Hinv1|]. simpl. unfold live at 1. simpl. rewrite lookup_insert_eq, Hf. by split; eexists. }
  intros b st2 (ms' & Hat & Hb).
  assert (after_event id (negb b) st2) as Hplain.
  { exists ms'. split; [done|]. intros ?%negb_false_iff. by apply Hb. }
  destruct (read_status r).
  - by apply wp_ret.
  - by apply wp_ret.
  - destruct st2 as [s2 h2]. pose proof Hat as (_ & _ & [f2 Hf2]). simpl in Hf2.
    eapply wp_known; [by apply update_flow_run|]. apply wp_ret. exists ms'.
    split; [by apply at_work_closing|]. intros ?%negb_false_iff. by apply Hb.
  - apply wp_ret. by exists ms'.
Qed.

Lemma write_event_spec id st :
  at_work id [] [] st ->
  wp (write_event fuel id) (fun _ st' => at_work id [] [] st') (fun _ => safe) st.
Proof.
  destruct st as [s h]. intros (Hinv & [c Hc] & [f Hf]). simpl in Hc, Hf. unfold write_event.
  apply wp_bind, wp_get_self. simpl self. apply wp_bind. unfold on_connection.
  eapply wp_zoom; [exact Hc|].
  pose proof (inv_registry _ _ _ _ _ Hinv) as (_ & _ & _ & Hall).
  destruct (Hall id c Hc) as (_ & _ & _ & _ & Hwf).
  assert (is_u64 (max_write_bytes_per_event_ s)) as Hmax.
  { destruct Hcfg as (_ & H & _). by rewrite <- (inv_config _ _ _ _ _ Hinv) in H. }
  eapply wp_mono; [by apply WriteAvailable_spec| |].
  2: { intros o st1 [Hw _]. eapply inv_safe. by eapply inv_writes. }
  intros r st1 (Hw & _). apply wp_ret. split; [by eapply inv_writes|].
  simpl. unfold live at 1. simpl. rewrite lookup_insert_eq, Hf. by split; eexists.
Qed.

Lemma HandleConnectionEvent_spec id evs st :
  invariant Resting [] st ->
  wp (HandleConnectionEvent handler_ fuel id evs) (fun _ st' => invariant Resting [] st')
    (fun _ => safe) st.
Proof.
  destruct st as [s h]. intros Hinv. unfold HandleConnectionEvent.
  apply wp_bind, wp_get_self. simpl. rewrite Registry_Find_live.
  destruct (live s !! id) as [c|] eqn:Hc; [|by apply wp_ret].
  destruct (proj1 (inv_dom _ _ _ _ _ Hinv id) (mk_is_Some _ _ Hc)) as [f Hf]. simpl in Hf. rewrite Hf.
  assert (forall b, after_event id b (mkSt s h)) as Hstart.
  { intros b. exists []. split; [|done]. split; [by apply inv_focus|]. by split; eexists. }
  eapply wp_call with (Q1 := after_event id) (E1 := fun _ => safe); [| |done].
  { destruct (_ && _); [by eapply read_event_spec|by apply wp_ret]. }
  intros b1 st1 (ms1 & Hat1 & Hb1).
  eapply wp_call with (Q1 := after_event id) (E1 := fun _ => safe); [| |done].
  { destruct b1; simpl; [apply wp_ret; by exists ms1|]. rewrite Hb1 in Hat1 by done.
    destruct (any evs EPOLLOUT); [|apply wp_ret; by exists []].
    eapply wp_mono; [by apply write_event_spec| |done]. intros b st2 Hat2. by exists []. }
  intros b2 [s2 h2] (ms2 & (Hinv2 & [c2 Hc2] & [f2 Hf2]) & Hb2). simpl in Hc2, Hf2.
  assert (wp (RemoveConnection id) (fun _ st' => invariant Resting [] st') (fun _ => safe) (mkSt s2 h2))
    as Hremove.
  { eapply wp_mono; [by eapply RemoveConnection_spec| |]; [by intros _ st3 [? _]|by intros o st3 [_ ?]]. }
  destruct b2; [done|]. rewrite Hb2 in Hinv2 by done.
  eapply wp_known; [by apply ShouldCloseAfterFlush_run|]. destruct (_ && _); [done|].
  eapply wp_mono; [by eapply UpdateInterest_spec| |]; [by intros _ st3 [? _]|by intros o st3 [_ ?]].
Qed.

(** ** Accepting *)

(** A client just accepted, with the invariant before it was. *)
Definition accepted_client (s : EpollEchoServer) (l : Z) (u : UniqueFd) (st : St EpollEchoServer) : Prop :=
  exists fd h, u = UniqueFd_make fd /\ 0 <= fd /\ st = mkSt s (h ++ [EvAccept l (IoOk fd)]) /\
    invariant Resting [] (mkSt s h) /\ is_open fd h = false /\ interest fd h = None.

Lemma AcceptNonBlocking_spec n l st :
  invariant Resting [] st ->
  wp (AcceptNonBlocking n l)
    (fun u st' => (u = UniqueFd_default /\ invariant Resting [] st') \/ accepted_client (self st) l u st')
    (fun _ => safe) st.
Proof.
  destruct st as [s h]. revert h. induction n as [|n IH]; intros h Hinv.
  { apply wp_out_of_fuel. by eapply inv_safe. }
  simpl. apply wp_bind, wp_syscall. simpl.
  destruct (os_accept h l) as [fd|e] eqn:Hacc.
  - apply wp_ret. right. exists fd, h. destruct (accept_fresh _ _ _ Hacc).
    split; [done|]. split; [by eapply accept_fd|done].
  - assert (invariant Resting [] (mkSt s (h ++ [EvAccept l (IoErr e)]))) as Hq by by apply inv_quiet.
    destruct (e =? EINTR); [by apply IH|]. destruct (IsWouldBlock e).
    + apply wp_ret. by left.
    + apply wp_throw. by eapply inv_safe.
Qed.

(** Events that carry no bytes. *)
Lemma streams_app h es :
  Forall (fun e => match e with EvRecv _ _ _ _ | EvSend _ _ _ _ => False | _ => True end) es ->
  forall id, received_of id (h ++ es) = received_of id h /\ sent_of id (h ++ es) = sent_of id h.
Proof.
  intros H id. unfold received_of, sent_of. rewrite !log_app.
  rewrite (log_none _ es), (log_none _ es), !app_nil_r; [done|..];
    (eapply List.Forall_impl; [|exact H]); by intros [].
Qed.


Lemma accepted_view l fd h :
  all_received (h ++ [EvAccept l (IoOk fd)]) = all_received h /\
  (forall o, received_of o (h ++ [EvAccept l (IoOk fd)]) = received_of o h /\
             sent_of o (h ++ [EvAccept l (IoOk fd)]) = sent_of o h) /\
  (forall f, is_open f (h ++ [EvAccept l (IoOk fd)]) = if bool_decide (fd = f) then true else is_open f h) /\
  (forall f, interest f (h ++ [EvAccept l (IoOk fd)]) = interest f h).
Proof.
  split; [unfold all_received; by rewrite log_snoc, app_nil_r|]. split; [by apply streams_app; repeat constructor|].
  split; intros f; [by rewrite is_open_snoc|by rewrite interest_snoc].
Qed.

(** A client over the limit is closed again. *)
Lemma accepted_closed s l u st :
  accepted_client s l u st -> wp (UniqueFd_destroy u) (fun _ st' => invariant Resting [] st') throws st.
Proof.
  intros (fd & h & -> & Hfd & -> & Hinv & Hopen & Hint). unfold wp. rewrite UniqueFd_destroy_run.
  rewrite close_of_valid by done. eapply inv_view; [exact Hinv|].
  destruct (accepted_view l fd h) as (H1 & H2 & H3 & H4). split; [|split].
  - unfold all_received in *. by rewrite log_snoc, app_nil_r.
  - intros id. destruct (H2 id) as [<- <-]. unfold received_of, sent_of. by rewrite !log_snoc, !app_nil_r.
  - intros f. rewrite is_open_snoc, interest_snoc, H3, H4. by case_bool_decide; subst.
Qed.

(** Calls that neither carry bytes nor open or close a socket. *)
Definition plain_event (e : SysEvent) : Prop :=
  match e with EvRecv _ _ _ _ | EvSend _ _ _ _ | EvAccept _ _ | EvClose _ => False | _ => True end.

Lemma is_open_plain fd h es : Forall plain_event es -> is_open fd (h ++ es) = is_open fd h.
Proof.
  induction es as [|e es IH] using rev_ind; intros H; [by rewrite app_nil_r|].
  apply Forall_app in H as [H1 H2%Forall_inv]. rewrite app_assoc, is_open_snoc.
  destruct e; try done; by apply IH.
Qed.

Lemma flag_events_quiet fd es : Forall (flag_event fd) es -> Forall quiet es /\ Forall plain_event es.
Proof. intros H. split; (eapply List.Forall_impl; [|exact H]); by intros []. Qed.

(** A client accepted and closed again leaves no trace. *)
Lemma safe_gone s s' h l fd es :
  safe (mkSt s h) -> live s' = live s -> next_id_ (registry_ s) <= next_id_ (registry_ s') <= u64_max ->
  registry_limits_ (registry_ s') = registry_limits_ (registry_ s) ->
  worker_pool_ s' = worker_pool_ s -> is_open fd h = false -> Forall plain_event es ->
  safe (mkSt s' ((h ++ [EvAccept l (IoOk fd)]) ++ es ++ [EvClose fd])).
Proof.
  intros (Hs & Ho & Hreg & Hpool) Hlive Hnext Hlim Hsame Hfd Hes.
  assert (Forall (fun e => match e with EvRecv _ _ _ _ | EvSend _ _ _ _ => False | _ => True end)
    (es ++ [EvClose fd])) as Hq.
  { apply Forall_app_2; [|by repeat constructor]. eapply List.Forall_impl; [|exact Hes]. by intros []. }
  split; [|split; [|split; [|simpl; rewrite Hsame; exact Hpool]]].
  - intros id. simpl. destruct (accepted_view l fd h) as (_ & Hv & _). destruct (Hv id) as [H1 H2].
    destruct (streams_app (h ++ [EvAccept l (IoOk fd)]) _ Hq id) as [H3 H4].
    apply (stream_ok_view _ h); [by rewrite H3, H1|by rewrite H4, H2|apply (Hs id)].
  - intros f. simpl. rewrite app_assoc, is_open_snoc, Hlive.
    case_bool_decide as Hf; [done|]. rewrite is_open_plain by done. rewrite is_open_snoc.
    rewrite bool_decide_eq_false_2 by done. apply (Ho f).
  - simpl in *. eapply (registry_wf_hist _ h).
    + unfold all_received. rewrite log_app, len_app. rewrite log_snoc, app_nil_r. len_lia.
    + destruct Hreg as (Hn & Hi & Ho' & Hall). unfold registry_wf.
      rewrite Hlim. fold (live s'). rewrite Hlive. split; [lia|]. do 2 (split; [done|]).
      intros id c Hc. destruct (Hall id c Hc) as (? & ? & ? & ? & ?). split_and!; done || lia.
Qed.

(** The [catch] clause of the registration. *)
Lemma cleanup_spec id c s h :
  live s !! id = Some c -> 0 <= Connection_fd c ->
  wp (erase_flow id ;; removed ← on_registry (Registry_Remove id); mret tt)
    (fun _ st' => live (self st') = delete id (live s) /\ hist st' = h ++ [EvClose (Connection_fd c)] /\
       next_id_ (registry_ (self st')) = next_id_ (registry_ s) /\
       registry_limits_ (registry_ (self st')) = registry_limits_ (registry_ s) /\
       worker_pool_ (self st') = worker_pool_ s)
    (fun _ _ => False) (mkSt s h).
Proof.
  intros Hc Hfd. eapply wp_known; [reflexivity|]. apply wp_bind. unfold wp.
  rewrite on_registry_run, Registry_Remove_spec. cbn [self hist registry_ set_flows update_server].
  fold (live s). by rewrite Hc, close_of_connection.
Qed.

(** The history of a client that is accepted, made non-blocking and watched. *)
Lemma watched_view l fd h es ev :
  Forall quiet es ->
  let h' := ((h ++ [EvAccept l (IoOk fd)]) ++ es) ++ [EvEpollCtl EPOLL_CTL_ADD fd (Some ev) (IoOk tt)] in
  all_received h' = all_received h /\
  (forall o, received_of o h' = received_of o h /\ sent_of o h' = sent_of o h) /\
  (forall f, is_open f h' = if bool_decide (f = fd) then true else is_open f h) /\
  (forall f, f <> fd -> interest f h' = interest f h) /\ interest fd h' = Some ev.
Proof.
  intros Hq. destruct (accepted_view l fd h) as (V1 & V2 & V3 & V4). set (h1 := h ++ [_]) in *.
  destruct (quiets_view h1 es Hq) as (Q1 & Q2 & Q3). set (h2 := h1 ++ es) in *. cbv zeta. split_and!.
  - destruct (ctl_streams 0 EPOLL_CTL_ADD fd (Some ev) (IoOk tt) h2) as (_ & _ & C3). by rewrite C3, Q1, V1.
  - intros o. destruct (ctl_streams o EPOLL_CTL_ADD fd (Some ev) (IoOk tt) h2) as (-> & -> & _).
    destruct (Q2 o) as [-> ->]. apply V2.
  - intros f. rewrite is_open_snoc. destruct (Q3 f) as [-> _]. rewrite V3. by do 2 case_bool_decide.
  - intros f Hf. rewrite interest_snoc, bool_decide_eq_false_2 by done. destruct (Q3 f) as [_ ->]. apply V4.
  - by rewrite interest_snoc, bool_decide_eq_true_2.
Qed.

Lemma next_id_unused r h : registry_wf r h -> connections_ r !! next_id_ r = None.
Proof.
  intros (_ & _ & _ & Hall). destruct (connections_ r !! next_id_ r) eqn:Hx; [|done].
  destruct (Hall _ _ Hx). lia.
Qed.

Lemma register_client_spec s l u st :
  accepted_client s l u st -> live_connection_count s < cfg_max_connections cfg ->
  wp (register_client u) (fun _ st' => invariant Resting [] st') (fun _ => safe) st.
Proof.
  intros (fd & h & -> & Hfd & -> & Hinv & Hopen & Hint) Hroom. unfold register_client.
  pose proof (proj1 (accepted_view l fd h)) as V1. set (h1 := h ++ [_]) in *.
  pose proof (inv_registry _ _ _ _ _ Hinv) as Hreg. simpl in Hreg. pose proof (next_id_unused _ _ Hreg) as Hunused.
  assert (registry_wf (registry_ s) h1) as Hreg1 by (eapply registry_wf_hist; [|exact Hreg]; rewrite V1; lia).
  pose proof (inv_safe _ _ _ Hinv) as Hsafe. pose proof Hreg as (Hnext0 & _).
  destruct (Registry_Add_spec (UniqueFd_make fd) (registry_ s) h1 Hreg1)
    as (es & Hes & [(_ & Hlt & Hadd)|(e & _ & Hadd)]); apply flag_events_quiet in Hes as [Hq Hes].
  2: { apply wp_bind. unfold wp. rewrite on_registry_run, Hadd, close_of_valid by done.
       apply (safe_gone s); try done. simpl. split; [lia|apply Hreg]. }
  eapply wp_known; [by rewrite on_registry_run, Hadd|]. apply wp_bind, wp_get_self. cbn [self hist].
  set (id := next_id_ (registry_ s)) in *.
  set (c := Connection_make id (UniqueFd_make fd) (registry_limits_ (registry_ s))).
  set (s1 := set_server_registry _ s). assert (live s1 !! id = Some c) as Hc by apply lookup_insert_eq.
  assert (connection_flows_ s !! id = None) as Hnone.
  { apply eq_None_not_Some. intros [x Hx]%(inv_dom _ _ _ _ _ Hinv). unfold live in Hx. simpl in Hx. congruence. }
  rewrite Registry_Find_live, Hc. change (connection_flows_ s1) with (connection_flows_ s).
  rewrite Hnone. apply wp_bind, wp_put_self. cbn [self hist].
  set (s2 := set_flows _ s1). assert (live s2 !! id = Some c) as Hc2 by done.
  eapply wp_known; [by apply on_connection_gets|]. cbn [self]. apply wp_on_exception.
  eapply wp_known; [by apply on_connection_gets|]. cbn [self]. unfold EpollCtl.
  apply wp_bind, wp_bind, wp_syscall. cbn [self hist].
  change (Connection_fd c) with fd. change (has_pending_output c) with false.
  destruct (os_epoll_ctl _ _ fd _) as [[]|e].
  - apply wp_ret. unfold wp. erewrite update_flow_run by apply lookup_insert_eq.
    destruct (watched_view l fd h es (ConnectionEvent id true false) Hq) as (W1 & W2 & W3 & W4 & W5).
    eapply inv_add with (fd := fd); try done; [simpl; by rewrite insert_insert_eq|apply Hcfg].
  - apply wp_throw. eapply wp_mono; [by apply (cleanup_spec id c)| |done].
    intros _ [s' h'] (Hlive' & Hh' & Hnext & Hlim & Hpool). simpl in *. subst h'. rewrite <- !app_assoc.
    rewrite (app_assoc es). apply (safe_gone s); [done| |rewrite Hnext; simpl; lia|done..|].
    + rewrite Hlive'. by apply delete_insert_id.
    + apply Forall_app_2; [done|]. by repeat constructor.
Qed.

Lemma HandleListenerEvent_spec st :
  invariant Resting [] st ->
  wp (HandleListenerEvent fuel) (fun _ st' => invariant Resting [] st') (fun _ => safe) st.
Proof.
  unfold HandleListenerEvent. generalize kMaxAcceptsPerEvent. intros n. revert st.
  induction n as [|n IH]; intros [s h] Hinv; [by apply wp_ret|].
  simpl. apply wp_bind, wp_get_self. simpl self.
  eapply wp_call; [by apply AcceptNonBlocking_spec| |done]. simpl self.
  intros u [s1 h1] [[-> Hinv1]|Hacc]; [by apply wp_ret|].
  assert (UniqueFd_is_valid u = true) as ->.
  { destruct Hacc as (fd & _ & -> & Hfd & _). unfold UniqueFd_is_valid, kInvalidFd. simpl.
    by destruct (Z.eqb_spec fd (-1)); [lia|]. }
  simpl. apply wp_bind, wp_get_self. simpl self.
  pose proof Hacc as (fd & h0 & _ & _ & Heq & Hinv0 & _). injection Heq as -> ->.
  destruct (Z.leb_spec (max_connections_ s) (Registry_size (registry_ s))) as [|Hroom].
  - eapply wp_call; [by eapply accepted_closed| |by intros o st' [_ ?]]. intros ? st2 Hinv2. by apply IH.
  - eapply wp_call; [eapply register_client_spec; [exact Hacc|]| |done].
    + by rewrite <- (inv_config _ _ _ _ _ Hinv).
    + intros ? st2 Hinv2. by apply IH.
Qed.

(** ** The reactor loop *)

Lemma stop_requested_spec st :
  invariant Resting [] st ->
  wp (stop_requested handler_ fuel)
    (fun b st' => invariant Resting [] st' /\ (stop_requested_ (self st) = true -> b = true)) stuck st.
Proof.
  intros Hinv. unfold stop_requested. eapply wp_call; [exact (yield_spec _ _ _ Hinv)| |done].
  intros ? st1 (Hinv1 & _ & _ & Hstop). by apply wp_bind, wp_get_self, wp_ret.
Qed.

Lemma dispatch_spec ev st :
  invariant Resting [] st ->
  wp (dispatch handler_ fuel ev) (fun _ st' => invariant Resting [] st') (fun _ => safe) st.
Proof.
  intros Hinv. unfold dispatch.
  destruct (_ =? _); [by apply HandleListenerEvent_spec|].
  destruct (_ =? _); [by apply HandleWorkerWakeup_spec|].
  destruct (_ =? _); [by apply HandleShutdownSignal_spec|].
  by apply HandleConnectionEvent_spec.
Qed.

Lemma dispatch_all_spec evs st :
  invariant Resting [] st ->
  wp (dispatch_all handler_ fuel evs) (fun _ st' => invariant Resting [] st') (fun _ => safe) st.
Proof.
  revert st. induction evs as [|ev evs IH]; intros st Hinv; simpl; [by apply wp_ret|].
  eapply wp_call; [by apply stop_requested_spec| |by intros o st' [? _]].
  intros [] st1 [Hinv1 _]; [by apply wp_ret|].
  eapply wp_call; [by apply dispatch_spec| |done]. intros ? st2 Hinv2. by apply IH.
Qed.

Lemma Run_turn_spec st :
  invariant Resting [] st ->
  wp (Run_turn handler_ fuel) (fun _ st' => invariant Resting [] st') (fun _ => safe) st.
Proof.
  intros Hinv. unfold Run_turn.
  eapply wp_call; [by apply stop_requested_spec| |by intros o st' [? _]].
  intros [] [s1 h1] [Hinv1 _]; [by apply wp_ret|].
  apply wp_bind, wp_syscall. simpl.
  assert (forall r, invariant Resting [] (mkSt s1 (h1 ++ [EvEpollWait r]))) as Hq
    by (intros r; by apply inv_quiet).
  destruct (os_epoll_wait h1 kMaxEpollEvents) as [evs|e].
  - eapply wp_call; [by apply dispatch_all_spec| |done]. intros ? st2 Hinv2. by apply wp_ret.
  - destruct (e =? EINTR); [by apply wp_ret|]. apply wp_throw. by eapply inv_safe.
Qed.

(** [Run] returns only when every connection is gone. *)
Lemma Run_spec turns st :
  invariant Resting [] st ->
  wp (Run handler_ fuel turns)
    (fun _ st' => invariant Resting [] st' /\ live (self st') = ∅ /\ connection_flows_ (self st') = ∅)
    (fun _ => safe) st.
Proof.
  revert st. induction turns as [|n IH]; intros st Hinv.
  { apply wp_out_of_fuel. by eapply inv_safe. }
  simpl. eapply wp_call; [by apply Run_turn_spec| |done].
  intros [] st1 Hinv1; [by apply IH|].
  eapply wp_mono; [by apply CloseAllConnections_spec|done|by intros o st' [[_ ?] _]].
Qed.

(** A requested stop ends the loop at the next turn. *)
Lemma Run_stopped_spec turns st :
  invariant Resting [] st -> stop_requested_ (self st) = true -> enough_fuel -> (0 < turns)%nat ->
  wp (Run handler_ fuel turns)
    (fun _ st' => invariant Resting [] st' /\ live (self st') = ∅ /\ connection_flows_ (self st') = ∅)
    (removal_failed (hist st)) st.
Proof.
  intros Hinv Hstop Hfuel Hturns. destruct turns as [|n]; [lia|]. simpl. unfold Run_turn.
  apply wp_bind. eapply wp_call.
  { apply (wp_follows (kept (own_fds (self st)) (hist st))).
    - apply stop_requested_follows. apply _.
    - split; [|done]. destruct st. apply grows_refl.
    - by apply stop_requested_spec. }
  2: { by intros o st' [[_ []] _]. }
  intros b st1 [[Hinv1 Hb] [Hgrows _]]. rewrite Hb by done. apply wp_ret.
  eapply wp_mono; [by apply CloseAllConnections_spec|done|].
  intros o st' [_ Hfailed]. by eapply removal_failed_earlier.
Qed.
End Proofs.
