(* ===== verification/ServerTheorems.v ===== *)
(** * Theorems about the running server *)

From S2P Require Import Prelude Os Scripted UniqueFd Codec Handler.
From S2P Require Import BoundedQueue WorkerPool Connection ConnectionRegistry EpollServer ServerInvariant ServerProofs.

(** A server as the constructor leaves it, before any connection. *)
Record fresh_server (cfg : ServerConfig) (st : St EpollEchoServer) : Prop := {
  fresh_config : config_of (self st) = cfg;
  fresh_registry : registry_ (self st) = ConnectionRegistry_make (cfg_limits cfg);
  fresh_flows : connection_flows_ (self st) = ∅;
  fresh_completed : completed_work_ (self st) = [];
  fresh_queue : 0 < cfg_queue_capacity cfg /\ items_ (queue_ (worker_pool_ (self st))) = [];
  fresh_workers : running (workers_ (worker_pool_ (self st))) = [];
  fresh_received : all_received (hist st) = [];
  fresh_sent id : sent_of id (hist st) = [];
  fresh_open fd : is_open fd (hist st) = false;
}.

Definition limits_wf (l : ConnectionLimits) : Prop :=
  is_u64 (max_input_buffer l) /\ is_u64 (max_output_buffer l).

Section Theorems.
Context `{Sys : OS} {Laws : OSLaws Sys} {Short : ShortRun Sys} {Epoll : EpollLaws Sys}.
Context `{Env : Environment} {EnvLaws : EnvironmentLaws Env}.
Context (handler_ : WorkHandler) {Hok : HandlerOk handler_} (fuel : nat) (cfg : ServerConfig).

Lemma fresh_inv st :
  config_wf cfg -> limits_wf (cfg_limits cfg) -> fresh_server cfg st -> inv handler_ cfg Resting [] st.
Proof.
  intros Hcfg [Hin Hout] [F1 F2 F3 F4 [F5 F5'] F6 F7 F8 F9]. destruct st as [s h]. simpl in *.
  assert (live s = ∅) as Hlive by (unfold live; by rewrite F2).
  assert (forall id, received_of id h = []) as Hrec.
  { intros id. apply len_zero. pose proof (received_of_le id h) as H. rewrite F7, len_nil in H.
    pose proof (len_nonneg (received_of id h)). lia. }
  assert (jobs handler_ s [] = []) as Hjobs by (unfold jobs; by rewrite F4, F5', F6).
  constructor; cbn [self hist]; rewrite ?Hjobs, ?Hlive, ?F3; try done.
  - by rewrite F7.
  - intros id. by rewrite !lookup_empty.
  - rewrite F2. split; [simpl; unfold u64_max; lia|]. split; [done|]. split; [done|].
    intros id c. simpl. by rewrite lookup_empty.
  - unfold live_connection_count, Registry_size. rewrite F2. simpl. apply Hcfg.
  - intros fd. rewrite F9. split; [done|]. intros (id & c & Hc & _). by rewrite lookup_empty in Hc.
  - intros id _. exists [], [], []. by rewrite Hrec, F8.
  - by rewrite F5', F6.
  - split; [by rewrite <- F1 in F5|]. rewrite F5', len_nil. rewrite <- F1 in F5. simpl in F5. lia.
Qed.

Lemma fresh_Run_spec turns st :
  config_wf cfg -> limits_wf (cfg_limits cfg) -> fresh_server cfg st ->
  wp (Run handler_ fuel turns)
    (fun _ st' => inv handler_ cfg Resting [] st' /\ live (self st') = ∅ /\ connection_flows_ (self st') = ∅)
    (fun _ => safe handler_) st.
Proof. intros Hcfg Hlim Hfresh. by apply (Run_spec handler_ fuel cfg Hcfg), fresh_inv. Qed.

Lemma Run_streams turns st r st' id :
  config_wf cfg -> limits_wf (cfg_limits cfg) -> fresh_server cfg st ->
  Run handler_ fuel turns st = (r, st') -> stream_ok handler_ (hist st') id.
Proof.
  intros Hcfg Hlim Hfresh Hrun.
  pose proof (wp_run _ _ _ _ _ _ (fresh_Run_spec turns st Hcfg Hlim Hfresh) Hrun) as H.
  destruct r; [|exact (proj1 H id)|done|exact (proj1 H id)].
  destruct H as [H _]. by eapply inv_stream_ok.
Qed.

(** The states of the server between two turns of its loop. *)
Definition server_reachable (start st : St EpollEchoServer) : Prop :=
  rtc (fun st st' => Run_turn handler_ fuel st = (Return true, st')) start st.

Lemma reachable_inv start st :
  config_wf cfg -> limits_wf (cfg_limits cfg) -> fresh_server cfg start ->
  server_reachable start st -> inv handler_ cfg Resting [] st.
Proof.
  intros Hcfg Hlim Hfresh Hr. pose proof (fresh_inv start Hcfg Hlim Hfresh) as Hinv.
  clear Hfresh. unfold server_reachable in Hr. induction Hr as [|st1 st2 st3 Hstep _ IH]; [done|].
  apply IH. exact (wp_run _ _ _ _ _ _ (Run_turn_spec handler_ fuel cfg Hcfg st1 Hinv) Hstep).
Qed.

(** With no request under way, every one has been answered. *)
Lemma no_jobs_answered start st id c f :
  config_wf cfg -> limits_wf (cfg_limits cfg) -> fresh_server cfg start ->
  server_reachable start st -> jobs handler_ (self st) [] = [] ->
  live (self st) !! id = Some c -> connection_flows_ (self st) !! id = Some f ->
  exists reqs, received_of id (hist st) = frames reqs ++ pending (decoder_ c) /\
    Forall valid_message reqs /\
    sent_of id (hist st) ++ unsent c = frames (answer handler_ <$> reqs) /\
    next_request_sequence f = len reqs /\ next_response_sequence f = len reqs.
Proof.
  intros Hcfg Hlim Hfresh Hr Hjobs Hid Hf.
  pose proof (reachable_inv start st Hcfg Hlim Hfresh Hr) as Hinv.
  destruct (inv_conns _ _ _ _ _ Hinv id c f Hid Hf)
    as (an & wa & Hrec & Hv & Hreq & Hresp & _ & _ & Hs & Hperm & _ & Hflushed).
  rewrite Hjobs, app_nil_r in Hperm. destruct wa as [|req wa].
  - exists an. simpl in *. rewrite app_nil_r in *. split_and!; try done. rewrite Hreq, len_nil. lia.
  - exfalso. assert (completed_responses f !! next_response_sequence f = Some (answer handler_ req)) as Hin.
    { rewrite Hresp. apply elem_of_map_to_list. rewrite Hperm. apply numbered_first. }
    by rewrite Hflushed in Hin.
Qed.

(** The socket of a connection is watched for output while output is pending. *)
Lemma unwatched_output start st id c :
  config_wf cfg -> limits_wf (cfg_limits cfg) -> fresh_server cfg start ->
  server_reachable start st -> live (self st) !! id = Some c ->
  (forall ev, interest (Connection_fd c) (hist st) = Some ev -> any (events ev) EPOLLOUT = false) ->
  unsent c = [].
Proof.
  intros Hcfg Hlim Hfresh Hr Hid Hout.
  pose proof (reachable_inv start st Hcfg Hlim Hfresh Hr) as Hinv.
  destruct (proj1 (inv_dom _ _ _ _ _ Hinv id) (ex_intro _ c Hid)) as [f Hf].
  destruct (inv_conns _ _ _ _ _ Hinv id c f Hid Hf) as (an & wa & _ & _ & _ & _ & _ & _ & _ & _ & Hep & _).
  assert (has_pending_output c = false) as Hpend.
  { unfold epoll_ok in Hep. destruct (registered_with_epoll f); [|by apply Hep].
    specialize (Hep eq_refl). apply Hout in Hep.
    destruct (has_pending_output c); [|done]. by destruct (close_after_flush f). }
  destruct (inv_registry _ _ _ _ _ Hinv) as (_ & _ & _ & Hall).
  destruct (Hall id c Hid) as (_ & _ & _ & _ & Hwf).
  pose proof (has_pending_unsent _ _ Hwf) as Hu. rewrite Hpend in Hu.
  destruct (unsent c); [done|]. by destruct Hu as [_ Hu]; discriminate Hu.
Qed.

(** ** Properties *)

(** C2.  Responses come back in order.  However the reactor, the workers, other
    threads calling [Stop] and the kernel behave, at whatever point the run is
    looked at (it returned, an exception left it, or it is still going), the
    bytes sent on a connection are a prefix of the frames of the responses to
    the requests received on that connection, in the order received: no
    response is lost between others, duplicated, reordered, corrupted or sent to
    another connection. *)
Theorem server_responses_in_order turns st r st' id :
  config_wf cfg -> limits_wf (cfg_limits cfg) -> fresh_server cfg st ->
  Run handler_ fuel turns st = (r, st') ->
  exists reqs rest unsent_bytes,
    received_of id (hist st') = frames reqs ++ rest /\
    Forall valid_message reqs /\ Forall valid_message (answer handler_ <$> reqs) /\
    frames (answer handler_ <$> reqs) = sent_of id (hist st') ++ unsent_bytes.
Proof. apply Run_streams. Qed.

(** C3.  The server never has undefined behaviour: no pointer or iterator to a
    connection or flow is used after the connection is gone, no read is out of
    range, and no exception leaves a worker thread. *)
Theorem server_never_undefined turns st st' :
  config_wf cfg -> limits_wf (cfg_limits cfg) -> fresh_server cfg st ->
  Run handler_ fuel turns st <> (Undefined, st').
Proof.
  intros Hcfg Hlim Hfresh Hrun.
  exact (wp_run _ _ _ _ _ _ (fresh_Run_spec turns st Hcfg Hlim Hfresh) Hrun).
Qed.

(** C6.  Resources stay bounded, turn after turn: connections by the limit,
    every connection's unanswered requests (and the responses held back for
    it) by the in-flight limit, its input and output buffers by theirs, and the
    work queue by its capacity. *)
Theorem server_resources_bounded start st :
  config_wf cfg -> limits_wf (cfg_limits cfg) -> fresh_server cfg start ->
  server_reachable start st ->
  live_connection_count (self st) <= cfg_max_connections cfg /\
  pending_work_count (worker_pool_ (self st)) <= cfg_queue_capacity cfg /\
  forall id c f, live (self st) !! id = Some c -> connection_flows_ (self st) !! id = Some f ->
    next_response_sequence f <= next_request_sequence f /\
    next_request_sequence f - next_response_sequence f <= cfg_max_in_flight cfg /\
    Z.of_nat (size (completed_responses f)) <= next_request_sequence f - next_response_sequence f /\
    buffered_input_bytes c <= max_input_buffer (cfg_limits cfg) /\
    output_storage_bytes c <= max_output_buffer (cfg_limits cfg).
Proof.
  intros Hcfg Hlim Hfresh Hr. pose proof (reachable_inv start st Hcfg Hlim Hfresh Hr) as Hinv.
  pose proof (inv_config _ _ _ _ _ Hinv) as Hc. split; [apply (inv_size _ _ _ _ _ Hinv)|]. split.
  { rewrite <- Hc. unfold pending_work_count, BoundedQueue_size. simpl. apply (inv_queue _ _ _ _ _ Hinv). }
  intros id c f Hid Hf. pose proof (inv_conns _ _ _ _ _ Hinv id c f Hid Hf)
    as (an & wa & _ & _ & Hreq & Hresp & Hmax & _ & _ & Hperm & _).
  pose proof (inv_registry _ _ _ _ _ Hinv) as (_ & _ & _ & Hall).
  destruct (Hall id c Hid) as (_ & _ & Hl & _ & Hwf).
  assert (limits_ c = cfg_limits cfg) as Hlim' by (rewrite <- Hc; exact Hl).
  pose proof (len_nonneg wa). rewrite Hreq, Hresp. split; [lia|]. split; [lia|]. split.
  - apply Permutation_length in Hperm. rewrite length_app, length_numbered, length_fmap in Hperm.
    rewrite length_map_to_list in Hperm. unfold len. lia.
  - rewrite <- Hlim'. destruct Hwf as (Hd & _ & Hin & _ & Hout & _).
    unfold buffered_input_bytes, output_storage_bytes. rewrite BufferedSize_pending by done. done.
Qed.

(** C4.  Requests are accounted for: between turns, every request received on a
    live connection is answered (its response is sent or in the output buffer)
    or outstanding, and every outstanding request is in exactly one place: the
    work queue, a worker, the completed work, or the responses the flow holds
    back until an earlier one is ready. *)
Theorem server_work_conserved start st id c f :
  config_wf cfg -> limits_wf (cfg_limits cfg) -> fresh_server cfg start ->
  server_reachable start st ->
  live (self st) !! id = Some c -> connection_flows_ (self st) !! id = Some f ->
  exists answered outstanding,
    received_of id (hist st) = frames (answered ++ outstanding) ++ pending (decoder_ c) /\
    sent_of id (hist st) ++ unsent c = frames (answer handler_ <$> answered) /\
    next_response_sequence f = len answered /\
    next_request_sequence f = len answered + len outstanding /\
    map_to_list (completed_responses f) ++ jobs_of id (jobs handler_ (self st) [])
      ≡ₚ numbered (len answered) (answer handler_ <$> outstanding) /\
    completed_responses f !! len answered = None.
Proof.
  intros Hcfg Hlim Hfresh Hr Hid Hf. pose proof (reachable_inv start st Hcfg Hlim Hfresh Hr) as Hinv.
  destruct (inv_conns _ _ _ _ _ Hinv id c f Hid Hf)
    as (an & wa & Hrec & _ & Hreq & Hresp & _ & _ & Hs & Hperm & _ & Hfl).
  simpl in Hrec. rewrite app_nil_r in Hrec. exists an, wa. rewrite <- Hresp at 4. by split_and!; try apply Hfl.
Qed.

(** Nothing is lost: between turns, when the workers are idle and all
    their results have been collected, every request received on a live
    connection has been answered and the responses, in order, are exactly what
    has been sent on it followed by what is in its output buffer. *)
Theorem server_idle_all_answered start st id c f :
  config_wf cfg -> limits_wf (cfg_limits cfg) -> fresh_server cfg start ->
  server_reachable start st ->
  pending_work_count (worker_pool_ (self st)) = 0 ->
  running (workers_ (worker_pool_ (self st))) = [] -> completed_work_ (self st) = [] ->
  live (self st) !! id = Some c -> connection_flows_ (self st) !! id = Some f ->
  exists reqs, received_of id (hist st) = frames reqs ++ pending (decoder_ c) /\
    Forall valid_message reqs /\
    sent_of id (hist st) ++ unsent c = frames (answer handler_ <$> reqs) /\
    next_request_sequence f = len reqs /\ next_response_sequence f = len reqs.
Proof.
  intros Hcfg Hlim Hfresh Hr Hq Hw Hcw. apply (no_jobs_answered start); try done.
  unfold jobs. rewrite Hw, Hcw. by rewrite (len_zero _ Hq).
Qed.

(** C7.  The reactor waits for the right things: between turns, the kernel
    watches the socket of a live connection for input exactly while the peer has
    not closed its side, for output exactly while there is output pending, and
    under the connection's id; a socket that needs neither is not watched at
    all. *)
Theorem server_interest_matches start st id c f :
  config_wf cfg -> limits_wf (cfg_limits cfg) -> fresh_server cfg start ->
  server_reachable start st ->
  live (self st) !! id = Some c -> connection_flows_ (self st) !! id = Some f ->
  interest (Connection_fd c) (hist st) =
    (if registered_with_epoll f
     then Some (ConnectionEvent id (negb (close_after_flush f)) (has_pending_output c)) else None) /\
  (registered_with_epoll f = false -> close_after_flush f = true /\ has_pending_output c = false).
Proof.
  intros Hcfg Hlim Hfresh Hr Hid Hf. pose proof (reachable_inv start st Hcfg Hlim Hfresh Hr) as Hinv.
  destruct (inv_conns _ _ _ _ _ Hinv id c f Hid Hf) as (an & wa & _ & _ & _ & _ & _ & _ & _ & _ & Hep & _).
  unfold epoll_ok in Hep. simpl in Hep. destruct (registered_with_epoll f).
  - by rewrite Hep by done.
  - destruct Hep as [-> Hidle]. split; [done|]. intros _. by apply Hidle.
Qed.

(** C8.  Descriptors are not leaked: between turns, every accepted socket that
    is not closed belongs to exactly one live connection, which has a flow. *)
Theorem server_owns_descriptors start st fd :
  config_wf cfg -> limits_wf (cfg_limits cfg) -> fresh_server cfg start ->
  server_reachable start st ->
  is_open fd (hist st) = true <->
  exists id, (exists c, live (self st) !! id = Some c /\ Connection_fd c = fd) /\
    is_Some (connection_flows_ (self st) !! id) /\
    forall id' c', live (self st) !! id' = Some c' -> Connection_fd c' = fd -> id' = id.
Proof.
  intros Hcfg Hlim Hfresh Hr. pose proof (reachable_inv start st Hcfg Hlim Hfresh Hr) as Hinv.
  rewrite (inv_open _ _ _ _ _ Hinv). split.
  - intros (id & c & Hc & Hfd). exists id. split; [by exists c|]. split.
    + apply (proj1 (inv_dom _ _ _ _ _ Hinv id)). by exists c.
    + intros id' c' Hc' Hfd'. eapply (inv_fds _ _ _ _ _ Hinv); [exact Hc'|exact Hc|congruence].
  - intros (id & (c & Hc & Hfd) & _). by exists id, c.
Qed.

(** When no connection is left, no accepted socket is open. *)
Lemma closed_all st :
  inv handler_ cfg Resting [] st /\ live (self st) = ∅ /\ connection_flows_ (self st) = ∅ ->
  live (self st) = ∅ /\ connection_flows_ (self st) = ∅ /\ forall fd, is_open fd (hist st) = false.
Proof.
  intros (Hinv & Hlive & Hfl). do 2 (split; [done|]). intros fd. apply not_true_iff_false.
  rewrite (inv_open _ _ _ _ _ Hinv). intros (id & c & Hc & _). by rewrite Hlive, lookup_empty in Hc.
Qed.

(** C9.  When [Run] returns, every connection it accepted is closed. *)
Theorem server_shutdown_closes turns st st' :
  config_wf cfg -> limits_wf (cfg_limits cfg) -> fresh_server cfg st ->
  Run handler_ fuel turns st = (Return tt, st') ->
  live_connection_count (self st') = 0 /\ connection_flows_ (self st') = ∅ /\
  forall fd, is_open fd (hist st') = false.
Proof.
  intros Hcfg Hlim Hfresh Hrun.
  destruct (closed_all _ (wp_run _ _ _ _ _ _ (fresh_Run_spec turns st Hcfg Hlim Hfresh) Hrun))
    as (Hlive & Hfl & Hopen).
  split; [|done]. unfold live_connection_count, Registry_size. fold (live (self st')). by rewrite Hlive.
Qed.

(** C10.  A requested stop takes effect: whatever the state of its connections,
    the server ends its loop at the next turn, without waiting for another
    event, and closes every connection.  It throws instead only when the kernel
    refuses to take the socket of a connection off [epoll] for another reason
    than that it is not watched: that call is the last of the run, and the
    exception carries its error.  The fuel need only cover the interrupted calls. *)
Theorem server_stop_terminates start st interruptions turns :
  config_wf cfg -> limits_wf (cfg_limits cfg) -> fresh_server cfg start ->
  server_reachable start st -> stop_requested_ (self st) = true ->
  FewInterrupts Sys interruptions -> (interruptions < fuel)%nat -> (0 < turns)%nat ->
  match Run handler_ fuel turns st with
  | (Return _, st') =>
      live (self st') = ∅ /\ connection_flows_ (self st') = ∅ /\ forall fd, is_open fd (hist st') = false
  | (Throw e, st') => exists es fd errno,
      hist st' = hist st ++ es ++ [EvEpollCtl EPOLL_CTL_DEL fd None (IoErr errno)] /\ errno <> ENOENT /\
      e = SyscallRuntimeError "epoll_ctl(DEL connection)" errno
  | _ => False
  end.
Proof.
  intros Hcfg Hlim Hfresh Hr Hstop Hfew Hfuel Hturns.
  pose proof (reachable_inv start st Hcfg Hlim Hfresh Hr) as Hinv.
  destruct (Run handler_ fuel turns st) as [r st'] eqn:Hrun.
  assert (enough_fuel fuel) as Henough by by exists interruptions.
  pose proof (wp_run _ _ _ _ _ _
    (Run_stopped_spec handler_ fuel cfg turns st Hinv Hstop Henough Hturns) Hrun) as H.
  destruct r; [by apply closed_all|..|done|].
  - destruct H as (es & fd & errno & Hh & Hne & He). exists es, fd, errno. by injection He as ->.
  - by destruct H as (? & ? & ? & _ & _ & ?).
Qed.
End Theorems.

(** ** The server with its default handler

    [EpollEchoServerOptions::handler] is [HandleOwnedRequest]. *)
Definition default_handler : WorkHandler := fun request =>
  match HandleOwnedRequest request with
  | Some response => Return response
  | None => Undefined
  end.

Lemma default_handler_spec m : valid_message m -> default_handler m = Return (respond_spec m).
Proof. intros [(_ & _ & Hp) _]. unfold default_handler. by rewrite HandleOwnedRequest_spec. Qed.

#[export] Instance default_handler_ok : HandlerOk default_handler.
Proof.
  split. intros m Hm. left. exists (respond_spec m). split; [by apply default_handler_spec|].
  by apply (respond_spec_valid m).
Qed.

Lemma answers_default ms : Forall valid_message ms -> answer default_handler <$> ms = respond_spec <$> ms.
Proof.
  induction 1 as [|m ms Hm _ IH]; [done|]. rewrite !fmap_cons, IH. f_equal.
  unfold answer. by rewrite default_handler_spec.
Qed.

(** C1.  End to end: when a client sends the frames of [reqs] on a connection,
    then at any point, with any part of them received, the server with its
    default handler has sent it a prefix of the frames of the responses that
    the response table gives for [reqs], in order. *)
Theorem server_follows_protocol `{Sys : OS} `{!OSLaws Sys} `{!ShortRun Sys} `{!EpollLaws Sys}
    `{Env : Environment} `{!EnvironmentLaws Env} fuel cfg turns st r st' id reqs to_come :
  config_wf cfg -> limits_wf (cfg_limits cfg) -> fresh_server cfg st ->
  Run default_handler fuel turns st = (r, st') ->
  Forall valid_message reqs -> received_of id (hist st') ++ to_come = frames reqs ->
  exists more, frames (respond_spec <$> reqs) = sent_of id (hist st') ++ more.
Proof.
  intros Hcfg Hlim Hfresh Hrun Hreqs Hrec.
  destruct (Run_streams default_handler fuel cfg turns st r st' id Hcfg Hlim Hfresh Hrun)
    as (got & rest & bytes & Hr & Hv & _ & Hs).
  rewrite Hr, <- app_assoc in Hrec.
  destruct (frames_split got reqs _ Hv Hreqs (eq_sym Hrec)) as (later & -> & _).
  rewrite answers_default in Hs by done.
  exists (bytes ++ frames (respond_spec <$> later)). by rewrite fmap_app, frames_app, Hs, app_assoc.
Qed.

(** ** Witnesses

    One client connects and sends an echo request, a work request and the start
    of a third; two workers pick up the requests; another thread calls [Stop]
    once the reactor has waited for events five times. *)

Definition sample_world : Script :=
  {| script_interrupts := 1;
     script_recv := [IoErr EINTR; IoOk (frame sample_message ++ frame sample_work ++ ztake 5 sample_frame)];
     script_send := [];
     script_accept := [IoOk 9];
     script_wait := [IoOk [ListenerEvent]; IoOk [{| events := EPOLLIN; key := 1 |}];
                     IoOk [WorkerWakeupEvent]; IoOk [{| events := EPOLLOUT; key := 1 |}];
                     IoOk [WorkerWakeupEvent]];
     script_setup := [] |}.

#[local] Instance sample_kernel : OS := scripted sample_world.

#[local] Instance sample_environment : Environment :=
  {| interfere h :=
       [IWorker (WTake 0); IWorker (WTake 1); IWorker (WFinish 1); IWorker (WFinish 0);
        IWorker (WReturn 0); IWorker (WReturn 1)] ++
       (if (5 <=? calls (fun e => match e with EvEpollWait _ => true | _ => false end) h)%nat
        then [IStop] else []);
     begin_of m := match map_to_list m with (id, _) :: _ => id | [] => 0 end |}.

#[local] Instance sample_environment_laws : EnvironmentLaws sample_environment.
Proof.
  split. intros m Hm. simpl. destruct (map_to_list m) as [|[id f] l] eqn:Hl.
  - by apply map_to_list_empty_iff in Hl.
  - exists f. apply elem_of_map_to_list. rewrite Hl. apply elem_of_cons. by left.
Qed.

Definition sample_cfg : ServerConfig :=
  {| cfg_max_read := 4096; cfg_max_write := 4096; cfg_max_connections := 2; cfg_max_in_flight := 4;
     cfg_limits := ConnectionLimits_default; cfg_queue_capacity := 8 |}.

Definition sample_server : EpollEchoServer :=
  {| listener_ := UniqueFd_make 3; epoll_ := UniqueFd_make 4; worker_wakeup_ := UniqueFd_make 5;
     shutdown_signal_ := UniqueFd_default; port_ := 9000;
     registry_ := ConnectionRegistry_make ConnectionLimits_default;
     connection_flows_ := ∅; completed_work_ := []; stop_requested_ := false;
     max_read_bytes_per_event_ := 4096; max_write_bytes_per_event_ := 4096; max_connections_ := 2;
     max_in_flight_requests_per_connection_ := 4;
     worker_pool_ := {| config_ := {| worker_count := 2; queue_capacity := 8 |};
                        queue_ := {| capacity_ := 8; items_ := []; closed_ := false |};
                        workers_ := [WorkerIdle; WorkerIdle] |} |}.

Definition sample_start : St EpollEchoServer := mkSt sample_server [].

Lemma sample_cfg_wf : config_wf sample_cfg.
Proof. by_decide. Qed.
Lemma sample_limits_wf : limits_wf (cfg_limits sample_cfg).
Proof. by_decide. Qed.
Lemma sample_fresh : fresh_server sample_cfg sample_start.
Proof. by constructor. Qed.

Fixpoint after_turns (n : nat) (st : St EpollEchoServer) : St EpollEchoServer :=
  match n with
  | O => st
  | S n => after_turns n (after_run (Run_turn default_handler 10) st)
  end.

Fixpoint all_turns_go_on (n : nat) (st : St EpollEchoServer) : bool :=
  match n with
  | O => true
  | S n => match fst (Run_turn default_handler 10 st) with
           | Return true => all_turns_go_on n (after_run (Run_turn default_handler 10) st)
           | _ => false end
  end.

Lemma after_turns_reachable n st :
  all_turns_go_on n st = true -> server_reachable default_handler 10 st (after_turns n st).
Proof.
  revert st. induction n as [|n IH]; intros st H; simpl in *; [apply rtc_refl|].
  destruct (Run_turn default_handler 10 st) as [r st'] eqn:Hrun.
  assert (after_run (Run_turn default_handler 10) st = st') as Hst by (unfold after_run; by rewrite Hrun).
  rewrite Hst in *. simpl in H. destruct r as [[]| | |]; try done.
  eapply rtc_l; [exact Hrun|by apply IH].
Qed.

(** Both requests are under way; then both are answered; then the server stops. *)
Definition sample_busy : St EpollEchoServer := after_turns 2 sample_start.
Definition sample_idle : St EpollEchoServer := after_turns 4 sample_start.
Definition sample_stopped : St EpollEchoServer := after_turns 5 sample_start.
Definition sample_end : St EpollEchoServer := after_run (Run default_handler 10 7) sample_start.

Lemma sample_busy_reachable : server_reachable default_handler 10 sample_start sample_busy.
Proof. apply after_turns_reachable. vm_compute. reflexivity. Qed.
Lemma sample_idle_reachable : server_reachable default_handler 10 sample_start sample_idle.
Proof. apply after_turns_reachable. vm_compute. reflexivity. Qed.
Lemma sample_stopped_reachable : server_reachable default_handler 10 sample_start sample_stopped.
Proof. apply after_turns_reachable. vm_compute. reflexivity. Qed.

Lemma sample_run_returns : fst (Run default_handler 10 7 sample_start) = Return tt.
Proof. vm_compute. reflexivity. Qed.

Lemma sample_run_eq : Run default_handler 10 7 sample_start = (Return tt, sample_end).
Proof. rewrite <- sample_run_returns. unfold sample_end, after_run. apply surjective_pairing. Qed.

Definition sample_id_live (st : St EpollEchoServer) (id : Z) : bool :=
  match live (self st) !! id, connection_flows_ (self st) !! id with
  | Some _, Some _ => true | _, _ => false end.

Lemma sample_lookup st id :
  sample_id_live st id = true ->
  exists c f, live (self st) !! id = Some c /\ connection_flows_ (self st) !! id = Some f.
Proof.
  unfold sample_id_live. destruct (live (self st) !! id) as [c|]; [|done].
  destruct (connection_flows_ (self st) !! id) as [f|]; [|done]. by exists c, f.
Qed.

Ltac by_compute := vm_compute; reflexivity.

Lemma server_responses_in_order_witness :
  exists reqs rest unsent_bytes, received_of 1 (hist sample_end) = frames reqs ++ rest /\
    frames (answer default_handler <$> reqs) = sent_of 1 (hist sample_end) ++ unsent_bytes /\
    len (sent_of 1 (hist sample_end)) = 50.
Proof.
  destruct (server_responses_in_order default_handler 10 sample_cfg 7 sample_start (Return tt) sample_end 1
    sample_cfg_wf sample_limits_wf sample_fresh sample_run_eq) as (reqs & rest & bytes & H1 & _ & _ & H2).
  exists reqs, rest, bytes. split; [exact H1|]. split; [exact H2|]. by_compute.
Defined.

Lemma server_never_undefined_witness :
  ~ Run default_handler 10 7 sample_start = (Undefined, sample_end).
Proof.
  exact (server_never_undefined default_handler 10 sample_cfg 7 sample_start sample_end
    sample_cfg_wf sample_limits_wf sample_fresh).
Defined.

Lemma server_resources_bounded_witness :
  live_connection_count (self sample_busy) = 1 /\ live_connection_count (self sample_busy) <= 2.
Proof.
  destruct (server_resources_bounded default_handler 10 sample_cfg sample_start sample_busy
    sample_cfg_wf sample_limits_wf sample_fresh sample_busy_reachable) as [H _].
  split; [by_compute|exact H].
Defined.

Lemma server_work_conserved_witness :
  exists answered outstanding : list Message, len answered = 0 /\ len outstanding = 2 /\
    sent_of 1 (hist sample_busy) ++ [] = frames (answer default_handler <$> answered).
Proof.
  destruct (sample_lookup sample_busy 1) as (c & f & Hc & Hf); [by_compute|].
  assert ((next_request_sequence <$> connection_flows_ (self sample_busy) !! 1) = Some 2) as Hn by by_compute.
  assert ((next_response_sequence <$> connection_flows_ (self sample_busy) !! 1) = Some 0) as Hm by by_compute.
  assert ((unsent <$> live (self sample_busy) !! 1) = Some []) as Hu by by_compute.
  rewrite Hf in Hn, Hm. rewrite Hc in Hu. injection Hn as Hn. injection Hm as Hm. injection Hu as Hu.
  destruct (server_work_conserved default_handler 10 sample_cfg sample_start sample_busy 1 c f
    sample_cfg_wf sample_limits_wf sample_fresh sample_busy_reachable Hc Hf)
    as (an & out & _ & H1 & H2 & H3 & _).
  exists an, out. rewrite <- Hu. split; [|split; [|exact H1]]; rewrite Hn in H3; rewrite Hm in H2; lia.
Defined.

Lemma server_idle_all_answered_witness :
  exists reqs : list Message, len reqs = 2 /\
    sent_of 1 (hist sample_idle) ++ [] = frames (answer default_handler <$> reqs).
Proof.
  destruct (sample_lookup sample_idle 1) as (c & f & Hc & Hf); [by_compute|].
  assert ((next_request_sequence <$> connection_flows_ (self sample_idle) !! 1) = Some 2) as Hn by by_compute.
  assert ((unsent <$> live (self sample_idle) !! 1) = Some []) as Hu by by_compute.
  rewrite Hf in Hn. rewrite Hc in Hu. injection Hn as Hn. injection Hu as Hu.
  destruct (server_idle_all_answered default_handler 10 sample_cfg sample_start sample_idle 1 c f
    sample_cfg_wf sample_limits_wf sample_fresh sample_idle_reachable ltac:(by_compute) ltac:(by_compute)
    ltac:(by_compute) Hc Hf) as (reqs & _ & _ & H1 & H2 & _).
  exists reqs. rewrite <- Hu. split; [lia|exact H1].
Defined.

Lemma server_interest_matches_witness :
  interest 9 (hist sample_idle) = Some (ConnectionEvent 1 true false).
Proof.
  destruct (sample_lookup sample_idle 1) as (c & f & Hc & Hf); [by_compute|].
  assert ((Connection_fd <$> live (self sample_idle) !! 1) = Some 9) as Hfd by by_compute.
  assert ((has_pending_output <$> live (self sample_idle) !! 1) = Some false) as Hout by by_compute.
  assert ((registered_with_epoll <$> connection_flows_ (self sample_idle) !! 1) = Some true) as Hr by by_compute.
  assert ((close_after_flush <$> connection_flows_ (self sample_idle) !! 1) = Some false) as Hcl by by_compute.
  rewrite Hc in Hfd, Hout. rewrite Hf in Hr, Hcl.
  injection Hfd as Hfd. injection Hout as Hout. injection Hr as Hr. injection Hcl as Hcl.
  destruct (server_interest_matches default_handler 10 sample_cfg sample_start sample_idle 1 c f
    sample_cfg_wf sample_limits_wf sample_fresh sample_idle_reachable Hc Hf) as [H _].
  rewrite Hfd, Hr, Hcl, Hout in H. exact H.
Defined.

Lemma server_owns_descriptors_witness :
  exists id, is_Some (connection_flows_ (self sample_idle) !! id).
Proof.
  destruct (proj1 (server_owns_descriptors default_handler 10 sample_cfg sample_start sample_idle 9
    sample_cfg_wf sample_limits_wf sample_fresh sample_idle_reachable)) as (id & _ & H & _); [by_compute|].
  by exists id.
Defined.

Lemma server_shutdown_closes_witness :
  is_open 9 (hist sample_idle) = true /\ is_open 9 (hist sample_end) = false.
Proof.
  destruct (server_shutdown_closes default_handler 10 sample_cfg 7 sample_start sample_end
    sample_cfg_wf sample_limits_wf sample_fresh sample_run_eq) as (_ & _ & H).
  split; [by_compute|apply H].
Defined.

(** Connection 1 is open when the stop is noticed. *)
Lemma server_stop_terminates_witness :
  stop_requested_ (self sample_stopped) = true /\ is_open 9 (hist sample_stopped) = true /\
  live (self (after_run (Run default_handler 10 1) sample_stopped)) = ∅.
Proof.
  assert (stop_requested_ (self sample_stopped) = true) as Hstop by by_compute.
  split; [exact Hstop|]. split; [by_compute|]. unfold after_run.
  pose proof (server_stop_terminates default_handler 10 sample_cfg sample_start sample_stopped 1 1
    sample_cfg_wf sample_limits_wf sample_fresh sample_stopped_reachable Hstop (scripted_few sample_world)
    ltac:(lia) ltac:(lia)) as H.
  assert (fst (Run default_handler 10 1 sample_stopped) = Return tt) as Hret by by_compute.
  destruct (Run default_handler 10 1 sample_stopped) as [r st']. simpl in Hret. rewrite Hret in H.
  apply H.
Defined.

Lemma server_follows_protocol_witness :
  exists more, frames (respond_spec <$> [sample_message; sample_work; sample_message])
    = sent_of 1 (hist sample_end) ++ more.
Proof.
  apply (server_follows_protocol 10 sample_cfg 7 sample_start (Return tt) sample_end 1
    [sample_message; sample_work; sample_message] (zdrop 5 sample_frame)
    sample_cfg_wf sample_limits_wf sample_fresh sample_run_eq); [by_decide|by_compute].
Defined.

(** The last id before the registry's own limit is a key that the server reserves:
    events of that connection would be taken for shutdown signals. *)
Lemma reserved_key_allotted :
  fst (Registry_Add (UniqueFd_make 9)
    (mkSt {| registry_limits_ := ConnectionLimits_default; next_id_ := u64_max - 1; connections_ := ∅ |} []))
  = Return kShutdownSignalKey.
Proof. vm_compute. reflexivity. Qed.
