(* ===== verification/ServerQuiescence.v ===== *)
(** * A quiet server has answered everything

    The reactor learns that responses are ready from the wake-up eventfd alone.
    A result that is stored while the counter of the eventfd is zero, by a worker
    that does not notify it any more, would never be sent.  Here: there is no such
    state.  When the workers are idle and the kernel has nothing to report, every
    request received on a live connection has been answered on the wire. *)

From S2P Require Import Prelude Os Scripted UniqueFd Codec.
From S2P Require Import BoundedQueue WorkerPool Connection ConnectionRegistry EpollServer ServerFrame.
From S2P Require Import ServerInvariant ServerProofs ServerTheorems.

(** ** The wake-up counter, as a history tells it

    Is the counter of eventfd [fd] positive?  A write adds one, or finds the
    counter at its maximum; a read of the eight bytes, or one that would block,
    leaves it at zero. *)
Definition wakeup_ready (fd : Z) : History -> bool :=
  foldl (fun b e => match e with
    | EvWriteCounter f (IoOk _) => if bool_decide (f = fd) then true else b
    | EvWriteCounter f (IoErr e) => if bool_decide (f = fd /\ e = EAGAIN) then true else b
    | EvReadCounter f (IoOk n) => if bool_decide (f = fd /\ n = sizeof_counter) then false else b
    | EvReadCounter f (IoErr e) => if bool_decide (f = fd /\ e = EAGAIN) then false else b
    | _ => b end) false.

(** [eventfd(2)]: a write of the value one to an eventfd succeeds, is interrupted,
    or would take the counter beyond its maximum. *)
Class EventfdLaws (O : OS) : Prop := {
  write_counter_answer h fd e : os_write_counter h fd = IoErr e -> e = EINTR \/ e = EAGAIN;
}.

#[export] Instance scripted_eventfd sc : EventfdLaws (scripted sc).
Proof. by split. Qed.

Lemma wakeup_ready_snoc fd h e :
  connection_event e -> wakeup_ready fd (h ++ [e]) = wakeup_ready fd h.
Proof. intros He. unfold wakeup_ready. rewrite foldl_app. by destruct e. Qed.

Lemma wakeup_ready_grows fd h es :
  Forall connection_event es -> wakeup_ready fd (h ++ es) = wakeup_ready fd h.
Proof.
  revert h. induction es as [|e es IH]; intros h He; [by rewrite app_nil_r|].
  apply Forall_cons_1 in He as [He Hes]. rewrite (cons_middle e h es), app_assoc, IH by done.
  by apply wakeup_ready_snoc.
Qed.

(** ** Computations after which a property holds if they return *)

Section Returns.
Context {S : Type}.

Definition when_returns {A} (m : M S A) (Q : A -> S -> Prop) (s : S) : Prop :=
  match m s with (Return a, s') => Q a s' | _ => True end.

Lemma when_returns_bind {A B} (m : M S A) (f : A -> M S B) R Q s :
  when_returns m R s -> (forall a s', R a s' -> when_returns (f a) Q s') -> when_returns (m ≫= f) Q s.
Proof.
  unfold when_returns, mbind, M_bind. destruct (m s) as [[a| | |] s']; try done.
  intros H Hf. by apply Hf.
Qed.

Lemma when_returns_follows {A} (K : S -> Prop) (m : M S A) s :
  follows K m -> K s -> when_returns m (fun _ => K) s.
Proof. intros Hm Hs. specialize (Hm s Hs). unfold when_returns. by destruct (m s) as [[]]. Qed.

Lemma when_returns_mono {A} (m : M S A) (Q R : A -> S -> Prop) s :
  when_returns m Q s -> (forall a s', Q a s' -> R a s') -> when_returns m R s.
Proof. unfold when_returns. destruct (m s) as [[] s']; auto. Qed.
End Returns.

Lemma when_returns_get {X B} (f : X -> M (St X) B) Q (s : St X) :
  when_returns (f (self s)) Q s -> when_returns (get_self ≫= f) Q s.
Proof. done. Qed.

(** Runs through a handler: the quiet parts by [follow], the others by [keep]. *)
Create HintDb keep.
Ltac keep_step :=
  lazymatch goal with
  | |- when_returns (mret _) _ _ => assumption
  | |- when_returns (throw _) _ _ => exact I
  | |- when_returns out_of_fuel _ _ => exact I
  | |- when_returns (match ?x with _ => _ end) _ _ => destruct x
  | |- when_returns (get_self ≫= _) _ _ => apply when_returns_get
  | |- when_returns (_ ≫= _) (fun _ => ?K) _ =>
      apply (when_returns_bind _ _ (fun _ => K)); [|intros ? ? ?]
  | |- when_returns _ (fun _ => ?K) _ =>
      first [ solve [auto with keep nocore] | apply (when_returns_follows K); [solve [follow]|assumption] ]
  end.
Ltac keep := cbv zeta; repeat keep_step.

(** ** No result waits without a notification

    Results are stored only while the counter is positive, or a worker that stored
    one is about to notify.  The reactor resets the counter before it collects. *)

Definition notified (st : St EpollEchoServer) : Prop :=
  let fd := worker_wakeup_ (self st) in
  UniqueFd_is_valid fd = true /\
  (completed_work_ (self st) = [] \/ wakeup_ready (UniqueFd_get fd) (hist st) = true \/
   WorkerCompleting ∈ workers_ (worker_pool_ (self st))).

Definition waking (st : St EpollEchoServer) : Prop :=
  UniqueFd_is_valid (worker_wakeup_ (self st)) = true.

Definition worker_view (s : EpollEchoServer) : UniqueFd * list WorkResult * WorkerPool :=
  (worker_wakeup_ s, completed_work_ s, worker_pool_ s).

Section Quiescence.
Context `{Sys : OS} {Laws : EventfdLaws Sys} `{Env : Environment} (handler_ : WorkHandler) (fuel : nat).

Abbreviation Keeps m := (forall st, notified st -> when_returns m (fun _ => notified) st).

(** What leaves the workers alone. *)
Lemma quiet_follows {A} (m : M (St EpollEchoServer) A) :
  (forall v h0, follows (kept_by worker_view connection_event v h0) m) -> follows notified m.
Proof.
  intros Hm [s h] (Hfd & Hcw).
  destruct (Hm (worker_view s) h (mkSt s h)) as [(es & Hh & Hes) Hv]; [split; [apply grows_refl|done]|].
  destruct (m (mkSt s h)) as [r [s' h']]. simpl in *. subst h'.
  injection Hv as Hw Hc Hp. unfold notified. simpl. rewrite Hw, Hc, Hp.
  by rewrite wakeup_ready_grows.
Qed.

#[export] Instance notified_quiet : QuietInvariant notified.
Proof.
  assert (forall v h0, QuietInvariant (kept_by worker_view connection_event v h0)) as Hkept
    by (intros; by apply kept_quiet).
  split.
  - done.
  - intros [s h] e He [Hfd Hcw]. split; [exact Hfd|]. simpl. by rewrite wakeup_ready_snoc.
  - intros. apply quiet_follows. intros. by apply quiet_connection.
  - intros. apply quiet_follows. intros. apply quiet_add.
  - intros. apply quiet_follows. intros. apply quiet_remove.
Qed.

Lemma NotifyWorkerWakeup_loop_notifies n st :
  waking st -> when_returns (NotifyWorkerWakeup_loop n) (fun _ => notified) st.
Proof.
  revert st. induction n as [|n IH]; intros [s h] Hfd; [done|].
  unfold when_returns. simpl. unfold mbind, M_bind, get_self, gets, write_counter, syscall. simpl.
  destruct (os_write_counter h _) as [k|e] eqn:Hw.
  - split; [done|]. right; left. simpl. unfold wakeup_ready. rewrite foldl_app. simpl.
    by rewrite bool_decide_true.
  - destruct (Z.eqb_spec e EINTR) as [He|He]; [by apply IH|].
    destruct (write_counter_answer _ _ _ Hw) as [?|Hag]; [done|].
    split; [done|]. right; left. simpl. unfold wakeup_ready. rewrite foldl_app. simpl.
    by rewrite bool_decide_true.
Qed.

Lemma NotifyWorkerWakeup_notifies st :
  waking st -> when_returns (NotifyWorkerWakeup fuel) (fun _ => notified) st.
Proof.
  intros Hst. change (when_returns (if negb (UniqueFd_is_valid (worker_wakeup_ (self st)))
    then mret tt else NotifyWorkerWakeup_loop fuel) (fun _ => notified) st).
  unfold waking in Hst. rewrite Hst. by apply NotifyWorkerWakeup_loop_notifies.
Qed.

(** ** The other threads *)

Lemma completing_insert (ws : list WorkerState) (i : nat) old new :
  ws !! i = Some old -> old <> WorkerCompleting ->
  WorkerCompleting ∈ ws -> WorkerCompleting ∈ <[i := new]> ws.
Proof.
  intros Hi Hold (j & Hj)%list_elem_of_lookup. apply list_elem_of_lookup. exists j.
  rewrite list_lookup_insert_ne; [done|]. intros ->. congruence.
Qed.

Lemma completing_inserted (ws : list WorkerState) (i : nat) (old : WorkerState) :
  ws !! i = Some old -> WorkerCompleting ∈ <[i := WorkerCompleting]> ws.
Proof.
  intros Hi. apply list_elem_of_lookup. exists i. apply list_lookup_insert_eq. by eapply lookup_lt_Some.
Qed.

Lemma interference_step_keeps i : Keeps (interference_step handler_ fuel i).
Proof.
  intros [s h] [Hfd Hcw]. destruct i as [a|]; [|by apply NotifyWorkerWakeup_notifies].
  unfold when_returns. simpl. unfold mbind, M_bind, get_self, gets. simpl.
  destruct (WorkerLoop handler_ a (worker_pool_ s)) as [[r p]|] eqn:Hstep; [|done].
  destruct a as [j|j|j]; simpl in Hstep;
    (destruct (workers_ (worker_pool_ s) !! j) as [w|] eqn:Hj; [|done]); destruct w; try done.
  - destruct (Pop (queue_ (worker_pool_ s))) as [[popped q]|]; [|done]. injection Hstep as <- <-.
    split; [done|]. destruct Hcw as [?|[?|Hin]]; [by left|by right; left|]. right; right. simpl.
    by eapply completing_insert.
  - injection Hstep as <- <-.
    destruct (WorkerLoop_result handler_ item); try done. split; [done|]. right; right. simpl.
    by eapply completing_inserted.
  - injection Hstep as <- <-. by apply NotifyWorkerWakeup_notifies.
Qed.

Lemma interference_run_keeps l : Keeps (interference_run handler_ fuel l).
Proof.
  induction l as [|i l IH]; intros st Hst; [done|].
  eapply when_returns_bind; [by apply interference_step_keeps|]. intros ? st'. apply IH.
Qed.

Lemma yield_keeps : Keeps (yield handler_ fuel).
Proof.
  intros [s h] Hst. apply (when_returns_bind _ _ (fun _ => notified)); [exact Hst|]. intros h' st Hst'.
  apply (when_returns_bind _ _ (fun _ => notified)); [|intros _ ?; apply interference_run_keeps].
  apply when_returns_follows; [|done]. follow.
Qed.

Lemma stop_requested_keeps : Keeps (stop_requested handler_ fuel).
Proof.
  intros st Hst. eapply when_returns_bind; [by apply yield_keeps|]. by intros ? st' Hst'.
Qed.

(** ** The reactor *)

Lemma wakeup_waking {A} (m : M (St EpollEchoServer) A) st :
  (forall fds h0, follows (kept fds h0) m) -> waking st -> when_returns m (fun _ => waking) st.
Proof.
  intros Hm Hst. apply when_returns_follows; [|done]. intros [s h] Hs.
  destruct (Hm (own_fds s) h (mkSt s h)) as [_ Hv]; [split; [apply grows_refl|done]|].
  injection Hv as _ _ Hw _. unfold waking in *. simpl in Hs. by rewrite Hw.
Qed.

Lemma HandleWorkerWakeup_keeps : Keeps (HandleWorkerWakeup handler_ fuel).
Proof.
  intros st [Hst _]. unfold HandleWorkerWakeup.
  eapply when_returns_bind; [apply wakeup_waking; [intros; follow|exact Hst]|]. intros ? st1 H1.
  eapply when_returns_bind; [apply wakeup_waking; [intros; follow|exact H1]|]. intros ? st2 H2.
  change (when_returns (put_self (set_completed_work [] (self st2)) ;;
    HandleCompletedWork_all (completed_work_ (self st2))) (fun _ => notified) st2).
  apply (when_returns_bind _ _ (fun _ => notified)); [split; [exact H2|by left]|]. intros ? st3 H3.
  by keep.
Qed.

Lemma TrySubmit_shared_keeps item : Keeps (TrySubmit_shared handler_ fuel item).
Proof.
  intros st Hst. eapply when_returns_bind; [by apply yield_keeps|]. intros ? [s h] H.
  unfold when_returns, mbind, M_bind, get_self, gets, TrySubmit. simpl.
  by destruct (TryPush _ _) as [ok q].
Qed.
#[local] Hint Resolve stop_requested_keeps HandleWorkerWakeup_keeps TrySubmit_shared_keeps : keep.

Lemma SubmitWork_loop_keeps id flow ms : Keeps (SubmitWork_loop handler_ fuel id flow ms).
Proof. induction ms as [|m ms IH]; intros st Hst; simpl; keep. Qed.
#[local] Hint Resolve SubmitWork_loop_keeps : keep.

Lemma SubmitWork_keeps id ms : Keeps (SubmitWork handler_ fuel id ms).
Proof. intros st Hst. unfold SubmitWork. keep. Qed.
#[local] Hint Resolve SubmitWork_keeps : keep.

Lemma read_keeps id max : follows notified (on_connection id (ReadAvailable fuel max)).
Proof.
  apply quiet_follows. intros v h0. apply kept_zoom; [done|]. by apply ReadAvailable_follows.
Qed.
#[local] Hint Resolve read_keeps : follow.

Lemma HandleConnectionEvent_keeps id evs : Keeps (HandleConnectionEvent handler_ fuel id evs).
Proof. intros st Hst. unfold HandleConnectionEvent, read_event, write_event. keep. Qed.
#[local] Hint Resolve HandleConnectionEvent_keeps : keep.

Lemma dispatch_all_keeps evs : Keeps (dispatch_all handler_ fuel evs).
Proof. induction evs as [|ev evs IH]; intros st Hst; simpl; unfold dispatch; keep. Qed.
#[local] Hint Resolve dispatch_all_keeps : keep.

Lemma Run_turn_keeps : Keeps (Run_turn handler_ fuel).
Proof. intros st Hst. unfold Run_turn, epoll_wait. keep. Qed.

End Quiescence.

(** ** No complete frame waits in an input buffer

    After [ReadAvailable] a connection holds at most a part of a frame, unless it
    reported an error of the protocol, and then the connection is removed. *)

Definition drained (c : Connection) : Prop := exists r,
  FrameDecoder_Next (decoder_ c) = Some (r, decoder_ c) /\ status r = kNeedMoreData.

(** All connections but perhaps one. *)
Definition drained_in (x : option Z) (m : gmap Z Connection) : Prop :=
  forall id c, x <> Some id -> m !! id = Some c -> drained c.
Definition drained_but (x : option Z) (st : St EpollEchoServer) : Prop := drained_in x (live (self st)).
Abbreviation all_drained := (drained_but None).

Lemma drained_new id u limits : drained (Connection_make id u limits).
Proof. by eexists. Qed.

Lemma drained_status c h :
  Connection_wf c h -> drained c -> status (decode_spec (pending (decoder_ c))) = kNeedMoreData.
Proof.
  intros (Hwf & _) (r & Hnext & Hr). destruct (Next_spec _ Hwf) as (d' & Hspec & _).
  rewrite Hspec in Hnext. by injection Hnext as <- _.
Qed.

Lemma drained_in_weaken x m : drained_in None m -> drained_in x m.
Proof. intros H id c _ Hc. by eapply H. Qed.
Lemma drained_in_insert x id c m : drained c -> drained_in x m -> drained_in x (<[id := c]> m).
Proof. intros Hc H id' c' Hx [[<- <-]|[? ?]]%lookup_insert_Some; [done|by eapply H]. Qed.
Lemma drained_in_update id c m : drained_in (Some id) m -> drained_in (Some id) (<[id := c]> m).
Proof. intros H id' c' Hx [[<- <-]|[? ?]]%lookup_insert_Some; [done|by eapply H]. Qed.
Lemma drained_in_delete x id m : drained_in x m -> drained_in x (delete id m).
Proof. intros H id' c' Hx [? ?]%lookup_delete_Some. by eapply H. Qed.
Lemma drained_in_deleted id m : drained_in (Some id) m -> drained_in None (delete id m).
Proof. intros H id' c' _ [? ?]%lookup_delete_Some. eapply H; [|done]. congruence. Qed.

Lemma drained_if (b : bool) id st : all_drained st -> drained_but (if b then Some id else None) st.
Proof. intros H. destruct b; [by apply drained_in_weaken|done]. Qed.

Section Draining.
Context `{Sys : OS} `{Env : Environment} (handler_ : WorkHandler) (fuel : nat).

Definition registry_drained (x : option Z) (s : St ConnectionRegistry) : Prop :=
  drained_in x (connections_ (self s)).

Lemma on_registry_drained {A} x (m : M (St ConnectionRegistry) A) :
  follows (registry_drained x) m -> follows (drained_but x) (on_registry m).
Proof.
  intros Hm [s h] H. specialize (Hm (mkSt (registry_ s) h) H). unfold on_registry, zoom. simpl.
  by destruct (m (mkSt (registry_ s) h)) as [r [y h']].
Qed.

Lemma Registry_Add_drained x u : follows (registry_drained x) (Registry_Add u).
Proof.
  unfold Registry_Add, SetNonBlocking, fcntl_getfl, fcntl_setfl. follow.
  - intros ? _. by apply drained_in_insert; [apply drained_new|].
  - intros [s0 h0] H0. by rewrite UniqueFd_destroy_run.
Qed.

Lemma Registry_Remove_drained x id : follows (registry_drained x) (Registry_Remove id).
Proof.
  intros s H. unfold Registry_Remove. apply (after_get (registry_drained x)); [done|].
  destruct (_ !! _); [|done]. apply (after_put (registry_drained x)); [by apply drained_in_delete|].
  intros [s1 h1] H1. apply (after_bind (registry_drained x)); [|done|done].
  intros [s2 h2] H2. by rewrite UniqueFd_destroy_run.
Qed.

#[export] Instance drained_busy x : BusyInvariant (drained_but x).
Proof.
  split; [split|done|done].
  - done.
  - done.
  - intros A id m Hm [s h] H. unfold on_connection, zoom. simpl. destruct (live s !! id) as [c|] eqn:Hc; [|done].
    destruct (Hm c h) as (es & _ & _ & Hd). destruct (m (mkSt c h)) as [r [c' h']]. simpl in Hd.
    intros id' c'' Hx Hc''. unfold live in Hc''. simpl in Hc''.
    apply lookup_insert_Some in Hc'' as [[<- <-]|[? ?]]; [|by eapply H].
    unfold drained. rewrite Hd. by eapply H.
  - intros u. apply on_registry_drained, Registry_Add_drained.
  - intros id. apply on_registry_drained, Registry_Remove_drained.
Qed.

Lemma TryDecodeFrame_error bytes r :
  TryDecodeFrame bytes = Some r -> status r = kError -> error r <> None.
Proof.
  unfold TryDecodeFrame, mbind, option_bind. intros H He Hnone.
  repeat case_match; simplify_eq/=.
Qed.

Lemma DrainDecoder_loop_drains n ms c h :
  when_returns (DrainDecoder_loop n ms) (fun r s => r.1 = None -> drained (self s)) (mkSt c h).
Proof.
  revert ms c. induction n as [|n IH]; intros ms c; [done|].
  unfold when_returns. simpl. unfold mbind, M_bind, get_self, gets. simpl.
  destruct (FrameDecoder_Next (decoder_ c)) as [[result d]|] eqn:Hnext; [|done]. simpl.
  destruct (status result) eqn:Hst.
  - intros _. exists result. simpl.
    assert (d = decoder_ c) as ->; [|done]. revert Hnext. unfold FrameDecoder_Next.
    destruct (_ <? _); [done|]. destruct (TryDecodeFrame _) as [r|]; [|done]. simpl.
    case_bool_decide; intros [= <- <-]; congruence.
  - destruct (message result) as [m|]; [|done]. simpl. apply IH.
  - intros He. exfalso. revert Hnext. unfold FrameDecoder_Next.
    destruct (_ <? _); [done|]. destruct (TryDecodeFrame _) as [r|] eqn:Hr; [|done]. simpl.
    case_bool_decide; intros [= <- <-]; [congruence|]. by apply (TryDecodeFrame_error _ _ Hr).
Qed.

Lemma ReadAvailable_loop_drains n max ms made total c h :
  when_returns (ReadAvailable_loop n max ms made total)
    (fun r s => read_status r <> ReadProtocolError -> drained (self s)) (mkSt c h).
Proof.
  revert ms made total c h. induction n as [|n IH]; intros ms made total c h; [done|]. simpl.
  eapply when_returns_bind; [apply DrainDecoder_loop_drains|]. intros [error ms1] [c1 h1] Hd. simpl in *.
  destruct error as [e|]; [by intros []|]. specialize (Hd eq_refl).
  destruct (_ <=? _); [by intros _|]. unfold when_returns, mbind, M_bind, get_self, gets, recv, syscall. simpl.
  destruct (_ <=? _); [by intros []|]. simpl. destruct (os_recv _ _ _) as [bytes|e].
  - destruct (_ =? _); [by intros _|]. apply IH.
  - destruct (_ =? _); [apply IH|].
    destruct (IsWouldBlock e); [destruct (made || _); by intros _|].
    destruct (IsPeerClosedError e); [by intros _|done].
Qed.

Lemma read_drains id max st :
  all_drained st ->
  when_returns (on_connection id (ReadAvailable fuel max))
    (fun r => drained_but (if bool_decide (read_status r = ReadProtocolError) then Some id else None)) st.
Proof.
  destruct st as [s h]. intros H. unfold when_returns, on_connection, zoom. simpl.
  destruct (live s !! id) as [c|] eqn:Hc; [|done].
  pose proof (ReadAvailable_loop_drains fuel max [] false 0 c h) as Hr. unfold when_returns in Hr.
  unfold ReadAvailable. destruct (ReadAvailable_loop _ _ _ _ _ _) as [[r| | |] [c' h']]; try done. simpl.
  case_bool_decide as Hst.
  - by apply drained_in_update, drained_in_weaken.
  - by apply drained_in_insert; [apply Hr|].
Qed.

Lemma RemoveConnection_drains id st :
  drained_but (Some id) st -> when_returns (RemoveConnection id) (fun _ => all_drained) st.
Proof.
  intros H. unfold RemoveConnection. apply (when_returns_bind _ _ (fun this s => s = st /\ this = self st)); [done|].
  intros ? ? [-> ->]. rewrite Registry_Find_live. destruct (live (self st) !! id) as [c|] eqn:Hc.
  2: { intros id' c' _ Hc'. eapply H; [|exact Hc']. intros [= ->]. congruence. }
  apply (when_returns_bind _ _ (fun _ => drained_but (Some id))).
  { apply when_returns_follows; [unfold epoll_ctl; follow|done]. }
  intros _ st1 H1. apply (when_returns_bind _ _ (fun _ => drained_but (Some id))).
  { apply when_returns_follows; [follow|done]. }
  intros _ [s2 h2] H2. apply (when_returns_bind _ _ (fun _ => all_drained)); [|by intros].
  unfold when_returns, on_registry, zoom, Registry_Remove, mbind, M_bind, get_self, gets. simpl.
  destruct (connections_ (registry_ s2) !! id) as [c2|] eqn:Hc2; simpl.
  - rewrite UniqueFd_destroy_run. simpl. by apply drained_in_deleted.
  - intros id' c' _ Hc'. eapply H2; [|exact Hc']. intros [= ->].
    unfold live in Hc'. simpl in Hc'. congruence.
Qed.

Lemma read_event_drains id st :
  all_drained st ->
  when_returns (read_event handler_ fuel id id id)
    (fun b => drained_but (if b then Some id else None)) st.
Proof.
  intros H. unfold read_event. apply (when_returns_bind _ _ (fun _ => all_drained)); [done|].
  intros this st1 H1. eapply when_returns_bind; [by apply read_drains|]. intros r st2 H2. simpl in H2.
  eapply when_returns_bind; [eapply when_returns_follows; [|exact H2]; follow|]. intros b st3 H3. simpl in H3.
  case_bool_decide as Hst; [by rewrite Hst|]. destruct (read_status r); [by apply drained_if..| |done].
  eapply when_returns_bind; [eapply when_returns_follows; [|exact H3]; follow|]. intros ? st4 H4.
  by apply drained_if.
Qed.

Lemma HandleConnectionEvent_drains id evs st :
  all_drained st -> when_returns (HandleConnectionEvent handler_ fuel id evs) (fun _ => all_drained) st.
Proof.
  intros H. unfold HandleConnectionEvent.
  apply (when_returns_bind _ _ (fun _ => all_drained)); [done|]. intros this st1 H1.
  destruct (Registry_Find _ _) as [c|] eqn:Hfind; [|done].
  assert (c = id) as -> by (revert Hfind; unfold Registry_Find; case_match; congruence).
  destruct (connection_flows_ this !! id) as [f|]; [|by apply RemoveConnection_drains, drained_in_weaken].
  apply (when_returns_bind _ _ (fun b : bool => drained_but (if b then Some id else None))).
  { destruct (_ && _); [by apply read_event_drains|].
    by apply drained_if. }
  intros b st2 H2. apply (when_returns_bind _ _ (fun b : bool => drained_but (if b then Some id else None))).
  { destruct b; simpl; [done|]. destruct (any evs EPOLLOUT); [|done].
    eapply when_returns_mono; [eapply when_returns_follows; [|exact H2]; follow|].
    intros ? ? ?. by apply drained_if. }
  intros b' st3 H3. destruct b'; [by apply RemoveConnection_drains|].
  eapply when_returns_bind; [eapply when_returns_follows; [|exact H3]; follow|]. intros b'' st4 H4.
  destruct b''; [by apply RemoveConnection_drains, drained_in_weaken|].
  eapply when_returns_follows; [|exact H4]. follow.
Qed.

#[local] Hint Resolve HandleConnectionEvent_drains : keep.

Lemma dispatch_all_drains evs st :
  all_drained st -> when_returns (dispatch_all handler_ fuel evs) (fun _ => all_drained) st.
Proof. revert st. induction evs as [|ev evs IH]; intros st Hst; simpl; unfold dispatch; keep. Qed.
#[local] Hint Resolve dispatch_all_drains : keep.

Lemma Run_turn_drains st :
  all_drained st -> when_returns (Run_turn handler_ fuel) (fun _ => all_drained) st.
Proof. intros Hst. unfold Run_turn, epoll_wait. keep. Qed.

End Draining.

(** Between turns. *)
Lemma reachable_keeps `{Sys : OS} `{Env : Environment} handler_ fuel (K : St EpollEchoServer -> Prop) start st :
  (forall st, K st -> when_returns (Run_turn handler_ fuel) (fun _ => K) st) ->
  server_reachable handler_ fuel start st -> K start -> K st.
Proof.
  intros Hturn. induction 1 as [|st1 st2 st3 Hstep _ IH]; [done|]. intros H. apply IH.
  specialize (Hturn _ H). unfold when_returns in Hturn. by rewrite Hstep in Hturn.
Qed.

(** ** Quiescence *)

Definition at_rest (w : WorkerState) : bool :=
  match w with WorkerIdle | WorkerExited => true | _ => false end.

(** The workers have nothing to do, and the kernel has nothing to report: the
    wake-up counter is zero. *)
Definition quiescent (st : St EpollEchoServer) : Prop :=
  pending_work_count (worker_pool_ (self st)) = 0 /\
  forallb at_rest (workers_ (worker_pool_ (self st))) = true /\
  wakeup_ready (UniqueFd_get (worker_wakeup_ (self st))) (hist st) = false.

(** The kernel is not watching a socket for room in its send buffer. *)
Definition not_writing (fd : Z) (h : History) : Prop :=
  forall ev, interest fd h = Some ev -> any (events ev) EPOLLOUT = false.

Section Quiet.
Context `{Sys : OS} {Laws : OSLaws Sys} {Short : ShortRun Sys} {Epoll : EpollLaws Sys} {Counter : EventfdLaws Sys}.
Context `{Env : Environment} {EnvLaws : EnvironmentLaws Env}.
Context (handler_ : WorkHandler) {Hok : HandlerOk handler_} (fuel : nat) (cfg : ServerConfig).

Lemma at_rest_running ws : forallb at_rest ws = true -> running ws = [].
Proof.
  induction ws as [|w ws IH]; [done|]. simpl. intros [Hw Hws]%andb_true_iff.
  destruct w; try done; by apply IH.
Qed.

Lemma at_rest_completing ws : forallb at_rest ws = true -> WorkerCompleting ∉ ws.
Proof.
  intros H Hin. rewrite forallb_forall in H. apply list_elem_of_In in Hin. by specialize (H _ Hin).
Qed.

Lemma quiescent_no_jobs start st :
  server_reachable handler_ fuel start st -> waking start -> completed_work_ (self start) = [] ->
  quiescent st -> jobs handler_ (self st) [] = [].
Proof.
  intros Hr Hw Hc (Hq & Hrest & Hready).
  assert (notified st) as [_ Hn].
  { eapply (reachable_keeps handler_ fuel notified); [by apply Run_turn_keeps|exact Hr|].
    split; [exact Hw|by left]. }
  unfold jobs. rewrite at_rest_running, (len_zero _ Hq) by done.
  destruct Hn as [->|[?|?]]; [done|congruence|]. by apply at_rest_completing in Hrest.
Qed.

(** C5.  A quiet server has answered everything, and has sent the answers.  Between
    turns, when the workers are at rest, the wake-up counter is zero and the
    kernel is not watching the socket for output, then whatever happened before,
    the bytes received on a live connection are complete requests followed by a
    part of a frame, and the bytes sent on it are exactly the frames of their
    responses in order.  In particular no completed response is left behind
    because a worker's notification was lost. *)
Theorem server_quiescent_answered start st id c :
  config_wf cfg -> limits_wf (cfg_limits cfg) -> fresh_server cfg start -> waking start ->
  server_reachable handler_ fuel start st -> quiescent st ->
  live (self st) !! id = Some c -> not_writing (Connection_fd c) (hist st) ->
  exists reqs rest,
    received_of id (hist st) = frames reqs ++ rest /\ Forall valid_message reqs /\
    status (decode_spec rest) = kNeedMoreData /\
    sent_of id (hist st) = frames (answer handler_ <$> reqs).
Proof.
  intros Hcfg Hlim Hfresh Hw Hr Hq Hid Hout.
  pose proof (reachable_inv handler_ fuel cfg start st Hcfg Hlim Hfresh Hr) as Hinv.
  pose proof (quiescent_no_jobs start st Hr Hw (fresh_completed _ _ Hfresh) Hq) as Hjobs.
  assert (all_drained st) as Hdrained.
  { eapply (reachable_keeps handler_ fuel all_drained); [by apply Run_turn_drains|exact Hr|].
    intros id' c' _. unfold live. rewrite (fresh_registry _ _ Hfresh). simpl. by rewrite lookup_empty. }
  destruct (proj1 (inv_dom _ _ _ _ _ Hinv id) (ex_intro _ c Hid)) as [f Hf].
  destruct (no_jobs_answered handler_ fuel cfg start st id c f Hcfg Hlim Hfresh Hr Hjobs Hid Hf)
    as (reqs & Hrec & Hv & Hs & _).
  rewrite (unwatched_output handler_ fuel cfg start st id c Hcfg Hlim Hfresh Hr Hid Hout), app_nil_r in Hs.
  exists reqs, (pending (decoder_ c)). do 2 (split; [done|]). split; [|done].
  destruct (inv_registry _ _ _ _ _ Hinv) as (_ & _ & _ & Hall).
  destruct (Hall id c Hid) as (_ & _ & _ & _ & Hwf). by eapply drained_status, Hdrained.
Qed.
End Quiet.

(** ** Witness: the sample run, once both requests are answered *)

#[local] Existing Instance sample_kernel.
#[local] Existing Instance sample_environment.
#[local] Existing Instance sample_environment_laws.

Lemma server_quiescent_answered_witness :
  exists reqs rest, received_of 1 (hist sample_idle) = frames reqs ++ rest /\
    sent_of 1 (hist sample_idle) = frames (answer default_handler <$> reqs) /\
    len (sent_of 1 (hist sample_idle)) = 50.
Proof.
  destruct (sample_lookup sample_idle 1) as (c & f & Hc & _); [by_compute|].
  assert (not_writing (Connection_fd c) (hist sample_idle)) as Hout.
  { assert ((Connection_fd <$> live (self sample_idle) !! 1) = Some 9) as Hfd by by_compute.
    rewrite Hc in Hfd. injection Hfd as ->. intros ev.
    assert (interest 9 (hist sample_idle) = Some (ConnectionEvent 1 true false)) as -> by by_compute.
    by intros [= <-]. }
  assert (quiescent sample_idle) as Hq by (split; [by_compute|]; split; by_compute).
  destruct (server_quiescent_answered default_handler 10 sample_cfg sample_start sample_idle 1 c
    sample_cfg_wf sample_limits_wf sample_fresh eq_refl sample_idle_reachable Hq Hc Hout)
    as (reqs & rest & H1 & _ & _ & H2).
  exists reqs, rest. split; [exact H1|]. split; [exact H2|]. by_compute.
Defined.
