(* ===== verification/ServerStart.v ===== *)
(** * Starting and destroying the server

    [EpollEchoServerOptions], the constructor and the destructor of
    [EpollEchoServer], and [ShutdownSignalMaskState]: what is built is torn down
    in the opposite order, also when an exception leaves the constructor. *)

From S2P Require Import Prelude Os Scripted UniqueFd Codec Handler BoundedQueue WorkerPool.
From S2P Require Import Connection ConnectionRegistry EpollServer ServerInvariant ServerProofs ServerTheorems.

Definition kListenBacklog : Z := 128.

Record EpollEchoServerOptions : Type := {
  options_worker_count : Z;
  options_work_queue_capacity : Z;
  options_max_read_bytes_per_event : Z;
  options_max_write_bytes_per_event : Z;
  options_max_connections : Z;
  options_max_in_flight_requests_per_connection : Z;
  options_connection_limits : ConnectionLimits;
  options_handler : option WorkHandler;      (** a [std::function], possibly empty *)
  options_shutdown_signals : list Z;
}.

Definition EpollEchoServerOptions_default : EpollEchoServerOptions :=
  {| options_worker_count := 2; options_work_queue_capacity := 1024;
     options_max_read_bytes_per_event := kDefaultMaxReadBytesPerEvent;
     options_max_write_bytes_per_event := kDefaultMaxWriteBytesPerEvent;
     options_max_connections := kDefaultMaxConnections;
     options_max_in_flight_requests_per_connection := kDefaultMaxInFlightRequestsPerConnection;
     options_connection_limits := ConnectionLimits_default;
     options_handler := Some default_handler; options_shutdown_signals := [] |}.

Record ShutdownSignalMaskState : Type := { previous_mask : gset Z; active : bool }.

Definition ShutdownSignalMaskState_default : ShutdownSignalMaskState :=
  {| previous_mask := ∅; active := false |}.

Section Start.
Context `{Sys : OS} {X : Type}.
Context (mask0 : gset Z).   (** the signal mask of the thread when the history began *)

Abbreviation Setup := (M (St X)).

Definition RequirePositiveBudget (value : Z) (name : string) : Setup Z :=
  if value =? 0 then throw (InvalidArgument (name +:+ " must be greater than zero"))
  else mret value.

Definition RequireConnectionLimits (limits : ConnectionLimits) : Setup ConnectionLimits :=
  input ← RequirePositiveBudget (max_input_buffer limits) "max input buffer";
  output ← RequirePositiveBudget (max_output_buffer limits) "max output buffer";
  mret {| max_input_buffer := input; max_output_buffer := output |}.

Fixpoint BuildSignalSet_loop (signals : list Z) (signal_set : gset Z) : Setup (gset Z) :=
  match signals with
  | [] => mret signal_set
  | signal :: signals =>
    setup_or_throw (CallSigaddset signal) "sigaddset" ;;
    BuildSignalSet_loop signals (signal_set ∪ {[signal]})
  end.
Definition BuildSignalSet (signals : list Z) : Setup (gset Z) :=
  setup_or_throw CallSigemptyset "sigemptyset" ;;
  BuildSignalSet_loop signals ∅.

Definition BlockShutdownSignals (signals : list Z) : Setup ShutdownSignalMaskState :=
  if bool_decide (signals = []) then mret ShutdownSignalMaskState_default else
  signal_set ← BuildSignalSet signals;
  previous ← gets (fun s => signal_mask mask0 (hist s));
  setup_or_throw (CallSigBlock signal_set) "pthread_sigmask(SIG_BLOCK)" ;;
  mret {| previous_mask := previous; active := true |}.

(** [Restore] ignores the result of the call. *)
Definition Restore (m : ShutdownSignalMaskState) : Setup ShutdownSignalMaskState :=
  if negb (active m) then mret m else
  setup (CallSigSetmask (previous_mask m)) ;;
  mret {| previous_mask := previous_mask m; active := false |}.

Definition LoopbackAddress (port : Z) : sockaddr_in :=
  {| sin_family := AF_INET; sin_port := htons port; sin_addr := htonl INADDR_LOOPBACK |}.

Definition BoundPort (fd : Z) : Setup Z :=
  port ← setup_or_throw (CallGetsockname fd) "getsockname"; mret (ntohs port).

Definition CreateListener (port : Z) : Setup UniqueFd :=
  fd ← setup_or_throw CallSocket "socket";
  let listener := UniqueFd_make fd in
  holding listener (
    setup_or_throw (CallReuseAddress (UniqueFd_get listener)) "setsockopt(SO_REUSEADDR)" ;;
    setup_or_throw (CallBind (UniqueFd_get listener) (LoopbackAddress port)) "bind" ;;
    setup_or_throw (CallListen (UniqueFd_get listener) kListenBacklog) "listen" ;;
    mret listener).

Definition CreateEpoll : Setup UniqueFd :=
  fd ← setup_or_throw CallEpollCreate "epoll_create1"; mret (UniqueFd_make fd).

Definition CreateWorkerWakeup : Setup UniqueFd :=
  fd ← setup_or_throw CallEventfd "eventfd"; mret (UniqueFd_make fd).

Definition CreateShutdownSignalFd (signals : list Z) : Setup UniqueFd :=
  if bool_decide (signals = []) then mret UniqueFd_default else
  signal_set ← BuildSignalSet signals;
  fd ← setup_or_throw (CallSignalfd signal_set) "signalfd";
  mret (UniqueFd_make fd).

Definition AddListenerToEpoll (listener : UniqueFd) : Setup unit :=
  EpollCtl EPOLL_CTL_ADD (UniqueFd_get listener) (Some ListenerEvent) "epoll_ctl(ADD listener)".
Definition AddWorkerWakeupToEpoll (worker_wakeup : UniqueFd) : Setup unit :=
  EpollCtl EPOLL_CTL_ADD (UniqueFd_get worker_wakeup) (Some WorkerWakeupEvent)
    "epoll_ctl(ADD worker wakeup)".
Definition AddShutdownSignalToEpoll (shutdown_signal : UniqueFd) : Setup unit :=
  if negb (UniqueFd_is_valid shutdown_signal) then mret tt else
  EpollCtl EPOLL_CTL_ADD (UniqueFd_get shutdown_signal) (Some ShutdownSignalEvent)
    "epoll_ctl(ADD shutdown signal)".

(** The member [worker_pool_]: the kernel says which threads cannot be created;
    the history gets an event for each thread of a pool that is built. *)
Definition make_pool (options : EpollEchoServerOptions) : Setup WorkerPool := fun s =>
  let config := {| worker_count := options_worker_count options;
                   queue_capacity := options_work_queue_capacity options |} in
  let start_thread i := match os_setup (hist s) (CallStartThread i) with
                        | IoErr e => Some (SystemError e) | IoOk _ => None end in
  match WorkerPool_make config true (bool_decide (is_Some (options_handler options))) start_thread with
  | Return p => (Return p, mkSt (self s)
      (hist s ++ ((fun i => EvSetup (CallStartThread i) (IoOk 0)) <$> seq 0 (length (workers_ p)))))
  | Throw e => (Throw e, s)
  | Undefined => (Undefined, s)
  | OutOfFuel => (OutOfFuel, s)
  end.

(** The members in the order of their declaration, then the body. *)
Definition EpollEchoServer_construct (port : Z) (options : EpollEchoServerOptions) :
    Setup (EpollEchoServer * ShutdownSignalMaskState) :=
  listener ← CreateListener port;
  holding listener (
    epoll ← CreateEpoll;
    holding epoll (
      signal_mask_state ← BlockShutdownSignals (options_shutdown_signals options);
      on_exception (
        worker_wakeup ← CreateWorkerWakeup;
        holding worker_wakeup (
          shutdown_signal ← CreateShutdownSignalFd (options_shutdown_signals options);
          holding shutdown_signal (
            limits ← RequireConnectionLimits (options_connection_limits options);
            max_read ← RequirePositiveBudget (options_max_read_bytes_per_event options)
              "max read bytes per event";
            max_write ← RequirePositiveBudget (options_max_write_bytes_per_event options)
              "max write bytes per event";
            max_connections ← RequirePositiveBudget (options_max_connections options)
              "max connections";
            max_in_flight ← RequirePositiveBudget
              (options_max_in_flight_requests_per_connection options)
              "max in-flight requests per connection";
            pool ← make_pool options;
            port ← BoundPort (UniqueFd_get listener);
            AddListenerToEpoll listener ;;
            AddWorkerWakeupToEpoll worker_wakeup ;;
            AddShutdownSignalToEpoll shutdown_signal ;;
            mret ({| listener_ := listener; epoll_ := epoll; worker_wakeup_ := worker_wakeup;
                     shutdown_signal_ := shutdown_signal; port_ := port;
                     registry_ := ConnectionRegistry_make limits; connection_flows_ := ∅;
                     completed_work_ := []; stop_requested_ := false;
                     max_read_bytes_per_event_ := max_read;
                     max_write_bytes_per_event_ := max_write;
                     max_connections_ := max_connections;
                     max_in_flight_requests_per_connection_ := max_in_flight;
                     worker_pool_ := pool |}, signal_mask_state))))
        (Restore signal_mask_state ;; mret tt))).
End Start.

(** ** Built and torn down in opposite orders *)

(** The descriptors held, last created first; [None] when a descriptor is
    closed that is not the last one created. *)
Definition held_step (held : option (list Z)) (e : SysEvent) : option (list Z) :=
  match held with
  | None => None
  | Some fds =>
    match e with
    | EvSetup c (IoOk fd) => Some (if creates c then fd :: fds else fds)
    | EvClose fd =>
      match fds with
      | top :: fds => if bool_decide (top = fd) then Some fds else None
      | [] => None
      end
    | _ => Some fds
    end
  end.
Definition held (es : History) : option (list Z) := foldl held_step (Some []) es.

Lemma created_fds_app h h' : created_fds (h ++ h') = created_fds h ++ created_fds h'.
Proof. apply log_app. Qed.
Lemma closed_fds_app h h' : closed_fds (h ++ h') = closed_fds h ++ closed_fds h'.
Proof. apply log_app. Qed.

(** A descriptor created is held or has been closed. *)
Lemma held_created es fds fd :
  held es = Some fds -> fd ∈ created_fds es -> fd ∈ fds \/ fd ∈ closed_fds es.
Proof.
  revert fds. induction es as [|e es IH] using rev_ind; intros fds Hheld Hfd; [by apply not_elem_of_nil in Hfd|].
  unfold held in Hheld. rewrite foldl_app in Hheld. fold (held es) in Hheld. simpl in Hheld.
  unfold created_fds, closed_fds in *. rewrite log_snoc, elem_of_app in Hfd. rewrite log_snoc, elem_of_app.
  destruct (held es) as [fds1|]; [|done]. specialize (IH fds1 eq_refl). unfold held_step in Hheld.
  destruct Hfd as [H|H].
  - destruct (IH H) as [Hin|Hc]; [|by right; left].
    destruct e as [| |f| | | | | | | | | |c [v|]|]; try (injection Hheld as <-; by left).
    + destruct fds1 as [|top fds1]; [done|]. case_bool_decide; [|done]. subst. injection Hheld as <-.
      apply elem_of_cons in Hin as [->|Hin]; [right; right; by apply list_elem_of_singleton|by left].
    + injection Hheld as <-. left. destruct (creates c); [by apply elem_of_cons; right|done].
  - destruct e as [| |f| | | | | | | | | |c [v|]|]; try by apply not_elem_of_nil in H.
    destruct (creates c); [|by apply not_elem_of_nil in H]. injection Hheld as <-. left.
    apply list_elem_of_singleton in H as ->. by apply elem_of_cons; left.
Qed.

(** Threads are created only while the signals are blocked. *)
Fixpoint threads_masked (signals m : gset Z) (es : History) : Prop :=
  match es with
  | [] => True
  | e :: es =>
    (match e with EvSetup (CallStartThread _) _ => signals ⊆ m | _ => True end) /\
    threads_masked signals (mask_step m e) es
  end.

Lemma threads_masked_snoc signals m es e :
  threads_masked signals m (es ++ [e]) <->
  threads_masked signals m es /\
  match e with EvSetup (CallStartThread _) _ => signals ⊆ signal_mask m es | _ => True end.
Proof.
  revert m. induction es as [|e' es IH]; intros m; simpl.
  - unfold signal_mask. simpl. destruct e as [| | | | | | | | | | | |[]|]; tauto.
  - rewrite IH. unfold signal_mask. simpl. tauto.
Qed.

(** The watches added. *)
Definition watches : History -> list (Z * EpollEvent) :=
  log (fun e => match e with
    | EvEpollCtl EPOLL_CTL_ADD fd (Some ev) (IoOk _) => [(fd, ev)] | _ => [] end).

Definition start_event (e : SysEvent) : Prop :=
  match e with EvSetup _ _ | EvClose _ | EvEpollCtl _ _ _ _ => True | _ => False end.

Section Proofs.
Context `{Sys : OS} {Setup : SetupLaws Sys} {X : Type}.
Context (mask0 : gset Z) (signals : gset Z) (h0 : History).

(** The state of a construction: the descriptors held, the signal mask, the
    watches. *)
Definition building (fds : list Z) (mask : gset Z) (ws : list (Z * EpollEvent)) (s : St X) : Prop :=
  exists es, hist s = h0 ++ es /\ held es = Some fds /\ signal_mask mask0 (hist s) = mask /\
    watches es = ws /\ Forall start_event es /\
    threads_masked signals (signal_mask mask0 h0) es.

(** What an exception leaves. *)
Definition undone (fds : list Z) (mask : gset Z) (o : option Exception) (s : St X) : Prop :=
  o <> None /\ exists ws, building fds mask ws s.

Lemma building_snoc fds mask ws x h e fds' :
  building fds mask ws (mkSt x h) -> start_event e -> held_step (Some fds) e = Some fds' ->
  match e with EvSetup (CallStartThread _) _ => signals ⊆ mask | _ => True end ->
  building fds' (mask_step mask e) (ws ++ watches [e]) (mkSt x (h ++ [e])).
Proof.
  intros (es & Hh & Hheld & Hmask & Hws & Hes & Hth) He Hstep Hthread. simpl in *. subst h.
  exists (es ++ [e]). simpl. rewrite app_assoc. split; [done|]. unfold held, signal_mask in *.
  rewrite !foldl_app in *. rewrite Hheld. split; [done|]. simpl in *.
  rewrite <- foldl_app, foldl_app. simpl. rewrite Hmask. split; [done|].
  split; [unfold watches in *; by rewrite log_app, Hws|].
  split; [apply Forall_app_2; [done|by apply Forall_singleton]|].
  apply threads_masked_snoc. split; [done|]. unfold signal_mask. rewrite Hmask. done.
Qed.

(** Calls that do not create a descriptor, block signals or start a thread. *)
Definition plain_call (c : SetupCall) : bool :=
  match c with
  | CallSigBlock _ | CallSigSetmask _ | CallStartThread _ => false
  | c => negb (creates c)
  end.

Lemma building_error fds mask ws x h c e :
  building fds mask ws (mkSt x h) -> match c with CallStartThread _ => False | _ => True end ->
  building fds mask ws (mkSt x (h ++ [EvSetup c (IoErr e)])).
Proof.
  intros Hb Hc. rewrite <- (app_nil_r ws).
  replace mask with (mask_step mask (EvSetup c (IoErr e))) by by destruct c.
  eapply building_snoc; [exact Hb|done..|by destruct c].
Qed.

Lemma wp_plain_call c name fds mask ws s :
  plain_call c = true -> building fds mask ws s ->
  wp (setup_or_throw c name) (fun _ => building fds mask ws) (undone fds mask) s.
Proof.
  destruct s as [x h]. intros Hc Hb. apply wp_bind, wp_syscall. simpl.
  destruct (os_setup h c) as [v|e].
  - apply wp_ret. rewrite <- (app_nil_r ws).
    replace mask with (mask_step mask (EvSetup c (IoOk v))) by by destruct c.
    by eapply building_snoc; [exact Hb|done|destruct c|destruct c].
  - apply wp_throw. split; [done|]. exists ws. apply building_error; [done|by destruct c].
Qed.

Lemma wp_create_call c name fds mask ws s :
  creates c = true -> building fds mask ws s ->
  wp (setup_or_throw c name) (fun fd s' => 0 <= fd /\ building (fd :: fds) mask ws s')
    (undone fds mask) s.
Proof.
  destruct s as [x h]. intros Hc Hb. apply wp_bind, wp_syscall. simpl.
  destruct (os_setup h c) as [v|e] eqn:Hr.
  - apply wp_ret. split; [by eapply setup_fresh|]. rewrite <- (app_nil_r ws).
    replace mask with (mask_step mask (EvSetup c (IoOk v))) by by destruct c.
    eapply building_snoc; [exact Hb|done|simpl; by rewrite Hc|by destruct c].
  - apply wp_throw. split; [done|]. exists ws. apply building_error; [done|by destruct c].
Qed.

Lemma wp_holding {A} fd (m : M (St X) A) Q fds mask s :
  0 <= fd -> wp m Q (undone (fd :: fds) mask) s ->
  wp (holding (UniqueFd_make fd) m) Q (undone fds mask) s.
Proof.
  intros Hfd Hm. apply wp_on_exception. eapply wp_mono; [exact Hm|done|].
  intros [e|] [x h] [Ho [ws Hb]]; [|done]. unfold wp. rewrite UniqueFd_destroy_run, close_of_valid by done.
  split; [done|]. exists (ws ++ watches [EvClose fd]).
  change mask with (mask_step mask (EvClose fd)).
  eapply building_snoc; [exact Hb|done|simpl; by rewrite bool_decide_eq_true_2|done].
Qed.

Lemma wp_holding_nothing {A} (m : M (St X) A) Q fds mask s :
  wp m Q (undone fds mask) s -> wp (holding UniqueFd_default m) Q (undone fds mask) s.
Proof.
  intros Hm. apply wp_on_exception. eapply wp_mono; [exact Hm|done|].
  intros [e|] [x h] [Ho Hb]; [|done]. unfold wp. rewrite UniqueFd_destroy_run. simpl.
  rewrite app_nil_r. done.
Qed.

(** Every part of the constructor: what it builds, or nothing. *)
Lemma wp_then {A B} (m : M (St X) A) (f : A -> M (St X) B) (Q1 : A -> St X -> Prop) Q E s :
  wp m Q1 E s -> (forall a s', Q1 a s' -> wp (f a) Q E s') -> wp (m ≫= f) Q E s.
Proof. intros Hm Hf. by eapply wp_call; [exact Hm|exact Hf|]. Qed.

Lemma wp_RequirePositiveBudget value name fds mask ws s :
  building fds mask ws s ->
  wp (RequirePositiveBudget value name) (fun v s' => v = value /\ value <> 0 /\ building fds mask ws s')
    (undone fds mask) s.
Proof.
  intros Hb. unfold RequirePositiveBudget. destruct (Z.eqb_spec value 0).
  - apply wp_throw. split; [done|by exists ws].
  - by apply wp_ret.
Qed.

Lemma wp_RequireConnectionLimits limits fds mask ws s :
  building fds mask ws s ->
  wp (RequireConnectionLimits limits)
    (fun l s' => l = limits /\ max_input_buffer limits <> 0 /\ max_output_buffer limits <> 0 /\
       building fds mask ws s')
    (undone fds mask) s.
Proof.
  intros Hb. unfold RequireConnectionLimits.
  eapply wp_then; [by apply wp_RequirePositiveBudget|]. intros i s1 (-> & Hi & Hb1).
  eapply wp_then; [by apply wp_RequirePositiveBudget|]. intros o s2 (-> & Ho & Hb2).
  apply wp_ret. split; [by destruct limits|done].
Qed.

Lemma wp_BuildSignalSet sigs fds mask ws s :
  building fds mask ws s ->
  wp (BuildSignalSet sigs) (fun set s' => set = list_to_set sigs /\ building fds mask ws s')
    (undone fds mask) s.
Proof.
  intros Hb. unfold BuildSignalSet. eapply wp_then; [by apply wp_plain_call|].
  clear Hb s. intros ? s Hb. cut (wp (BuildSignalSet_loop sigs ∅)
    (fun set s' => set = ∅ ∪ list_to_set sigs /\ building fds mask ws s') (undone fds mask) s).
  { intros H. eapply wp_mono; [exact H| |done]. intros set s' [-> ?]. split; [set_solver|done]. }
  generalize (∅ : gset Z) as set. revert s Hb.
  induction sigs as [|sig sigs IH]; intros s Hb set; simpl.
  - apply wp_ret. split; [set_solver|done].
  - eapply wp_then; [by apply wp_plain_call|]. intros ? s1 Hb1.
    eapply wp_mono; [by apply IH| |done]. intros set' s2 [-> ?]. split; [set_solver|done].
Qed.

(** What is to be restored. *)
Definition blocked (sigs : list Z) (mask : gset Z) (m : ShutdownSignalMaskState) : Prop :=
  if bool_decide (sigs = []) then m = ShutdownSignalMaskState_default
  else m = {| previous_mask := mask; active := true |}.

Lemma wp_BlockShutdownSignals sigs fds mask ws s :
  building fds mask ws s ->
  wp (BlockShutdownSignals mask0 sigs)
    (fun m s' => blocked sigs mask m /\ building fds (mask ∪ list_to_set sigs) ws s')
    (undone fds mask) s.
Proof.
  intros Hb. unfold BlockShutdownSignals, blocked. case_bool_decide as Hs.
  { apply wp_ret. split; [done|]. subst. simpl. by rewrite (right_id_L ∅ (∪)). }
  eapply wp_then; [by apply wp_BuildSignalSet|]. intros set [x h] [-> Hb1].
  apply wp_bind, wp_gets. simpl. assert (signal_mask mask0 h = mask) as Hm.
  { by destruct Hb1 as (es & _ & _ & Hm & _). }
  apply wp_bind, wp_bind, wp_syscall. simpl. destruct (os_setup h _) as [v|e].
  - apply wp_ret, wp_ret. rewrite Hm. split; [done|]. rewrite <- (app_nil_r ws).
    change (mask ∪ list_to_set sigs) with (mask_step mask (EvSetup (CallSigBlock (list_to_set sigs)) (IoOk v))).
    by eapply building_snoc.
  - apply wp_throw. split; [done|]. exists ws. by apply building_error.
Qed.

Lemma wp_restoring {A} sigs m (body : M (St X) A) Q fds mask s :
  blocked sigs mask m -> wp body Q (undone fds (mask ∪ list_to_set sigs)) s ->
  wp (on_exception body (Restore m ;; mret tt)) Q (undone fds mask) s.
Proof.
  intros Hm Hbody. apply wp_on_exception. eapply wp_mono; [exact Hbody|done|].
  intros [e|] [x h] [Ho [ws Hb]]; [|done]. unfold blocked in Hm. case_bool_decide as Hs; subst m.
  - apply wp_ret. split; [done|]. exists ws. subst. simpl in Hb. by rewrite (right_id_L ∅ (∪)) in Hb.
  - apply wp_bind, wp_bind, wp_syscall. simpl. destruct (setmask_ok h mask) as [v Hv]. rewrite Hv.
    apply wp_ret, wp_ret. split; [done|]. exists ws. rewrite <- (app_nil_r ws).
    change mask with (mask_step (mask ∪ list_to_set sigs) (EvSetup (CallSigSetmask mask) (IoOk v))).
    by eapply building_snoc.
Qed.

Lemma wp_CreateListener port fds mask ws s :
  building fds mask ws s ->
  wp (CreateListener port)
    (fun u s' => exists fd, u = UniqueFd_make fd /\ 0 <= fd /\ building (fd :: fds) mask ws s')
    (undone fds mask) s.
Proof.
  intros Hb. unfold CreateListener. eapply wp_then; [by apply wp_create_call|].
  intros fd s1 [Hfd Hb1]. apply wp_holding; [done|].
  do 3 (eapply wp_then; [eapply wp_plain_call; [done|exact Hb1]|]; clear Hb1; intros ? ? Hb1).
  apply wp_ret. by exists fd.
Qed.

Lemma wp_CreateEpoll fds mask ws s :
  building fds mask ws s ->
  wp CreateEpoll
    (fun u s' => exists fd, u = UniqueFd_make fd /\ 0 <= fd /\ building (fd :: fds) mask ws s')
    (undone fds mask) s.
Proof.
  intros Hb. eapply wp_then; [by apply wp_create_call|]. intros fd s1 [Hfd Hb1].
  apply wp_ret. by exists fd.
Qed.

Lemma wp_CreateWorkerWakeup fds mask ws s :
  building fds mask ws s ->
  wp CreateWorkerWakeup
    (fun u s' => exists fd, u = UniqueFd_make fd /\ 0 <= fd /\ building (fd :: fds) mask ws s')
    (undone fds mask) s.
Proof.
  intros Hb. eapply wp_then; [by apply wp_create_call|]. intros fd s1 [Hfd Hb1].
  apply wp_ret. by exists fd.
Qed.

(** The optional descriptor: none, or one on top. *)
Definition on_top (u : UniqueFd) (fds : list Z) : list Z :=
  if UniqueFd_is_valid u then UniqueFd_get u :: fds else fds.

Lemma wp_CreateShutdownSignalFd sigs fds mask ws s :
  building fds mask ws s ->
  wp (CreateShutdownSignalFd sigs)
    (fun u s' => (u = UniqueFd_default \/ 0 <= UniqueFd_get u) /\ building (on_top u fds) mask ws s')
    (undone fds mask) s.
Proof.
  intros Hb. unfold CreateShutdownSignalFd. case_bool_decide.
  { apply wp_ret. split; [by left|done]. }
  eapply wp_then; [by apply wp_BuildSignalSet|]. intros set s1 [-> Hb1].
  eapply wp_then; [by apply wp_create_call|]. intros fd s2 [Hfd Hb2]. apply wp_ret.
  split; [by right|]. unfold on_top. unfold UniqueFd_is_valid, kInvalidFd. simpl.
  by destruct (Z.eqb_spec fd (-1)); [lia|].
Qed.

Lemma wp_holding_optional {A} u (m : M (St X) A) Q fds mask s :
  u = UniqueFd_default \/ 0 <= UniqueFd_get u -> wp m Q (undone (on_top u fds) mask) s ->
  wp (holding u m) Q (undone fds mask) s.
Proof.
  unfold on_top. intros [->|Hfd] Hm; [by apply wp_holding_nothing|].
  destruct u as [fd]. simpl in *. apply wp_holding; [done|]. revert Hm.
  unfold UniqueFd_is_valid, kInvalidFd. simpl. by destruct (Z.eqb_spec fd (-1)); [lia|].
Qed.

Lemma wp_watch fd ev name fds mask ws s :
  building fds mask ws s ->
  wp (EpollCtl EPOLL_CTL_ADD fd (Some ev) name) (fun _ => building fds mask (ws ++ [(fd, ev)]))
    (undone fds mask) s.
Proof.
  destruct s as [x h]. intros Hb. apply wp_bind, wp_syscall. simpl.
  assert (forall r, building fds mask (ws ++ watches [EvEpollCtl EPOLL_CTL_ADD fd (Some ev) r])
    (mkSt x (h ++ [EvEpollCtl EPOLL_CTL_ADD fd (Some ev) r]))) as Hr.
  { intros r. exact (building_snoc _ _ _ _ _ (EvEpollCtl EPOLL_CTL_ADD fd (Some ev) r) _ Hb I eq_refl I). }
  destruct (os_epoll_ctl _ _ _ _) as [[]|e]; [apply wp_ret, Hr|].
  apply wp_throw. split; [done|]. eexists. apply Hr.
Qed.

Lemma building_threads fds mask ws x h n k :
  building fds mask ws (mkSt x h) -> signals ⊆ mask ->
  building fds mask ws (mkSt x (h ++ ((fun i => EvSetup (CallStartThread i) (IoOk 0)) <$> seq k n))).
Proof.
  intros Hb Hsub. revert h k Hb. induction n as [|n IH]; intros h k Hb; simpl; [by rewrite app_nil_r|].
  change (?e :: ?l) with ([e] ++ l). rewrite app_assoc. apply IH. rewrite <- (app_nil_r ws).
  change mask with (mask_step mask (EvSetup (CallStartThread k) (IoOk 0))).
  by eapply building_snoc.
Qed.

Lemma WorkerPool_make_outcome config b1 b2 start r :
  WorkerPool_make config b1 b2 start = r ->
  match r with Return _ | Throw _ => True | _ => False end.
Proof.
  intros <-. unfold WorkerPool_make, BoundedQueue_make.
  destruct (queue_capacity config =? 0); [done|]. destruct (worker_count config =? 0); [done|].
  destruct b1, b2; try done. simpl. destruct (_ <? worker_count config); [done|].
  generalize (Z.to_nat (worker_count config)) 0%nat (@nil WorkerState).
  intros n. induction n as [|n IH]; intros i ws; simpl; [done|]. destruct (start i); [done|]. apply IH.
Qed.

(** A pool as its constructor leaves it. *)
Definition fresh_pool (options : EpollEchoServerOptions) (p : WorkerPool) : Prop :=
  0 < options_work_queue_capacity options /\
  queue_ p = {| capacity_ := options_work_queue_capacity options; items_ := []; closed_ := false |} /\
  running (workers_ p) = [].

Lemma wp_make_pool options fds mask ws s :
  is_u64 (options_work_queue_capacity options) -> building fds mask ws s -> signals ⊆ mask ->
  wp (make_pool options) (fun p s' => fresh_pool options p /\ building fds mask ws s')
    (undone fds mask) s.
Proof.
  destruct s as [x h]. intros Hcap Hb Hsub. unfold wp, make_pool.
  destruct (WorkerPool_make _ _ _ _) as [p|e| |] eqn:Hp.
  - destruct (WorkerPool_make_spec default_handler
      {| worker_count := options_worker_count options;
         queue_capacity := options_work_queue_capacity options |} _ _ _ _ Hcap Hp)
      as (_ & _ & _ & -> & Hinv).
    simpl in *.
    split; [split; [|split; [done|]]|].
    + apply Hinv.
    + clear. generalize (Z.to_nat (options_worker_count options)). intros n. by induction n.
    + by apply building_threads.
  - split; [done|]. by exists ws.
  - by apply WorkerPool_make_outcome in Hp.
  - by apply WorkerPool_make_outcome in Hp.
Qed.

(** The watches of the server, and its descriptors, last created first. *)
Definition server_watches (s : EpollEchoServer) : list (Z * EpollEvent) :=
  [(UniqueFd_get (listener_ s), ListenerEvent); (UniqueFd_get (worker_wakeup_ s), WorkerWakeupEvent)] ++
  (if UniqueFd_is_valid (shutdown_signal_ s)
   then [(UniqueFd_get (shutdown_signal_ s), ShutdownSignalEvent)] else []).

Definition server_fds (s : EpollEchoServer) : list Z :=
  on_top (shutdown_signal_ s)
    [UniqueFd_get (worker_wakeup_ s); UniqueFd_get (epoll_ s); UniqueFd_get (listener_ s)].

Definition options_wf (options : EpollEchoServerOptions) : Prop :=
  is_u64 (options_worker_count options) /\ is_u64 (options_work_queue_capacity options) /\
  is_u64 (options_max_read_bytes_per_event options) /\
  is_u64 (options_max_write_bytes_per_event options) /\
  is_u64 (options_max_connections options) /\
  is_u64 (options_max_in_flight_requests_per_connection options) /\
  is_u64 (max_input_buffer (options_connection_limits options)) /\
  is_u64 (max_output_buffer (options_connection_limits options)).

(** What the constructor insists on. *)
Definition options_positive (options : EpollEchoServerOptions) : Prop :=
  options_work_queue_capacity options <> 0 /\
  options_max_read_bytes_per_event options <> 0 /\
  options_max_write_bytes_per_event options <> 0 /\
  options_max_connections options <> 0 /\
  options_max_in_flight_requests_per_connection options <> 0 /\
  max_input_buffer (options_connection_limits options) <> 0 /\
  max_output_buffer (options_connection_limits options) <> 0.

(** The server that the options ask for, without a connection. *)
Definition built_as (options : EpollEchoServerOptions) (s : EpollEchoServer) : Prop :=
  options_positive options /\ fresh_pool options (worker_pool_ s) /\
  registry_ s = ConnectionRegistry_make (options_connection_limits options) /\
  connection_flows_ s = ∅ /\ completed_work_ s = [] /\ stop_requested_ s = false /\
  max_read_bytes_per_event_ s = options_max_read_bytes_per_event options /\
  max_write_bytes_per_event_ s = options_max_write_bytes_per_event options /\
  max_connections_ s = options_max_connections options /\
  max_in_flight_requests_per_connection_ s = options_max_in_flight_requests_per_connection options /\
  0 <= UniqueFd_get (listener_ s) /\ 0 <= UniqueFd_get (epoll_ s) /\
  0 <= UniqueFd_get (worker_wakeup_ s) /\
  (shutdown_signal_ s = UniqueFd_default \/ 0 <= UniqueFd_get (shutdown_signal_ s)).

Lemma wp_construct port options mask s :
  options_wf options -> building [] mask [] s ->
  signals = list_to_set (options_shutdown_signals options) ->
  wp (EpollEchoServer_construct mask0 port options)
    (fun r s' => building (server_fds r.1) (mask ∪ signals) (server_watches r.1) s' /\
       blocked (options_shutdown_signals options) mask r.2 /\ built_as options r.1)
    (undone [] mask) s.
Proof.
  intros (Ow & Oq & _ & _ & _ & _ & _ & _) Hb Hsig. unfold EpollEchoServer_construct.
  eapply wp_then; [by apply wp_CreateListener|]. intros ? s1 (l & -> & Hl & H1).
  apply wp_holding; [done|].
  eapply wp_then; [by apply wp_CreateEpoll|]. intros ? s2 (e & -> & He & H2).
  apply wp_holding; [done|].
  eapply wp_then; [by apply wp_BlockShutdownSignals|]. intros m s3 (Hm & H3).
  eapply wp_restoring; [exact Hm|]. rewrite <- Hsig in *.
  eapply wp_then; [by apply wp_CreateWorkerWakeup|]. intros ? s4 (w & -> & Hw & H4).
  apply wp_holding; [done|].
  eapply wp_then; [by apply wp_CreateShutdownSignalFd|]. intros u s5 (Hu & H5).
  apply wp_holding_optional; [done|].
  eapply wp_then; [by apply wp_RequireConnectionLimits|]. intros ? s6 (-> & Hin & Hout & H6).
  do 4 (eapply wp_then; [by apply wp_RequirePositiveBudget|];
        clear H6; intros ? ? (-> & ?Hpos & H6)).
  eapply wp_then; [apply wp_make_pool; [exact Oq|exact H6|set_solver]|]. intros p s7 (Hp & H7).
  apply wp_bind. eapply wp_then; [eapply wp_plain_call; [done|exact H7]|]. intros bound s8 H8. apply wp_ret.
  eapply wp_then; [eapply wp_watch; exact H8|]. intros ? s9 H9.
  eapply wp_then; [eapply wp_watch; exact H9|]. intros ? s10 H10.
  eapply wp_then with (Q1 := fun _ => building (on_top u [w; e; l]) (mask ∪ signals) (server_watches
    {| listener_ := UniqueFd_make l; epoll_ := UniqueFd_make e; worker_wakeup_ := UniqueFd_make w;
       shutdown_signal_ := u; port_ := ntohs bound;
       registry_ := ConnectionRegistry_make (options_connection_limits options);
       connection_flows_ := ∅; completed_work_ := []; stop_requested_ := false;
       max_read_bytes_per_event_ := options_max_read_bytes_per_event options;
       max_write_bytes_per_event_ := options_max_write_bytes_per_event options;
       max_connections_ := options_max_connections options;
       max_in_flight_requests_per_connection_ := options_max_in_flight_requests_per_connection options;
       worker_pool_ := p |})).
  { unfold AddShutdownSignalToEpoll, server_watches. simpl. destruct (UniqueFd_is_valid u); simpl.
    - exact (wp_watch _ _ _ _ _ _ _ H10).
    - by apply wp_ret. }
  intros ? s11 H11. apply wp_ret. split; [exact H11|]. split; [done|].
  split; [|by split_and!]. split; [|by split_and!]. destruct Hp. lia.
Qed.
End Proofs.

(** A history of set-up calls carries no bytes and accepts no socket. *)
Lemma start_events_log es :
  Forall start_event es ->
  all_received es = [] /\ (forall id, received_of id es = [] /\ sent_of id es = []) /\
  forall fd, is_open fd es = false.
Proof.
  induction es as [|e es IH] using rev_ind; intros H; [done|].
  apply Forall_app in H as [H1 H2%Forall_inv]. destruct (IH H1) as (Ha & Hs & Ho).
  split; [|split].
  - unfold all_received in *. rewrite log_snoc, Ha. by destruct e.
  - intros id. destruct (Hs id) as [Hr Hsent]. unfold received_of, sent_of in *.
    rewrite !log_snoc, Hr, Hsent. by destruct e.
  - intros fd. rewrite is_open_snoc. destruct e; try done. by case_bool_decide.
Qed.

Lemma building_start {X} mask0 signals h0 (x : X) :
  building mask0 signals h0 [] (signal_mask mask0 h0) [] (mkSt x h0).
Proof. exists []. simpl. by rewrite app_nil_r. Qed.

Lemma built_as_fresh {X} mask0 signals fds mask ws options s (st : St X) :
  building mask0 signals [] fds mask ws st -> built_as options s -> options_wf options ->
  config_wf (config_of s) /\ limits_wf (cfg_limits (config_of s)) /\
  fresh_server (config_of s) (mkSt s (hist st)).
Proof.
  intros (es & Hh & _ & _ & _ & Hes & _) (_ & Hpool & Hreg & Hfl & Hcw & _ & Hr & Hw & Hc & Hm & _)
    (_ & _ & Or & Ow & Oc & Om & Oi & Oo). simpl in Hh. rewrite Hh. clear Hh.
  destruct (start_events_log es Hes) as (Ha & Hs & Hopen).
  destruct Hpool as (Hcap & Hq & Hrun).
  split; [|split].
  - unfold config_wf, config_of. simpl. rewrite Hr, Hw, Hc, Hm. unfold is_u64 in *. split_and!; lia.
  - unfold limits_wf, config_of. simpl. by rewrite Hreg.
  - constructor; simpl; try done.
    + by rewrite Hreg.
    + by rewrite Hq.
    + intros id. apply Hs.
Qed.

(** ** Properties *)

Section Properties.
Context `{Sys : OS} {Setup : SetupLaws Sys}.

(** C19.  Starting the server is all or nothing.  If the constructor returns, the
    server holds exactly the descriptors created (listener, epoll instance,
    eventfd, and the signalfd when shutdown signals are configured), epoll
    watches the listener, the eventfd and the signalfd under their keys, the
    shutdown signals are blocked, and they were blocked before any worker thread
    was created.  If an exception leaves it, whichever step failed, every
    descriptor created has been closed, the last one first, and the signal mask
    is what it was.  It has no other outcome. *)
Theorem server_start_all_or_nothing {X} (mask0 : gset Z) port options (x : X) h0 :
  options_wf options ->
  let signals := list_to_set (options_shutdown_signals options) in
  match EpollEchoServer_construct mask0 port options (mkSt x h0) with
  | (Return (s, m), st) => exists es, hist st = h0 ++ es /\
      held es = Some (server_fds s) /\ watches es = server_watches s /\
      signal_mask mask0 (hist st) = signal_mask mask0 h0 ∪ signals /\
      threads_masked signals (signal_mask mask0 h0) es /\
      blocked (options_shutdown_signals options) (signal_mask mask0 h0) m
  | (Throw _, st) => exists es, hist st = h0 ++ es /\ held es = Some [] /\
      signal_mask mask0 (hist st) = signal_mask mask0 h0
  | _ => False
  end.
Proof.
  intros Hopt signals.
  pose proof (wp_construct mask0 signals h0 port options (signal_mask mask0 h0) (mkSt x h0) Hopt
    (building_start mask0 signals h0 x) eq_refl) as H.
  unfold wp in H. destruct (EpollEchoServer_construct _ _ _ _) as [[[s m]|e| |] st].
  - destruct H as ((es & Hh & Hheld & Hmask & Hws & _ & Hth) & Hm & _). exists es. by split_and!.
  - destruct H as (_ & ws & es & Hh & Hheld & Hmask & _). by exists es.
  - done.
  - by destruct H.
Qed.

(** C20.  The constructor establishes the server's invariant: the server it
    returns has the limits of the options (all of them positive), no
    connection, idle workers and an empty queue, which is the state every
    property of the running server starts from. *)
Theorem server_start_ready (mask0 : gset Z) port options s m st :
  options_wf options ->
  EpollEchoServer_construct mask0 port options (mkSt tt []) = (Return (s, m), st) ->
  config_wf (config_of s) /\ limits_wf (cfg_limits (config_of s)) /\
  fresh_server (config_of s) (mkSt s (hist st)) /\ options_positive options /\
  config_of s = {| cfg_max_read := options_max_read_bytes_per_event options;
                   cfg_max_write := options_max_write_bytes_per_event options;
                   cfg_max_connections := options_max_connections options;
                   cfg_max_in_flight := options_max_in_flight_requests_per_connection options;
                   cfg_limits := options_connection_limits options;
                   cfg_queue_capacity := options_work_queue_capacity options |}.
Proof.
  intros Hopt Hrun.
  pose proof (wp_construct mask0 _ [] port options mask0 (mkSt tt []) Hopt
    (building_start mask0 _ [] tt) eq_refl) as H.
  apply (wp_run _ _ _ _ _ _ H) in Hrun as (Hb & _ & Hbuilt). simpl in *.
  destruct (built_as_fresh _ _ _ _ _ _ _ _ Hb Hbuilt Hopt) as (H1 & H2 & H3).
  do 3 (split; [done|]). destruct Hbuilt as (Hpos & Hbuilt). split; [done|].
  destruct Hbuilt as ((_ & Hq & _) & Hreg & _ & _ & _ & Hr & Hw & Hc & Hm & _).
  unfold config_of. by rewrite Hr, Hw, Hc, Hm, Hreg, Hq.
Qed.
End Properties.

(** ** Witnesses *)

Definition sample_options : EpollEchoServerOptions :=
  {| options_worker_count := 2; options_work_queue_capacity := 8;
     options_max_read_bytes_per_event := 4096; options_max_write_bytes_per_event := 4096;
     options_max_connections := 2; options_max_in_flight_requests_per_connection := 4;
     options_connection_limits := ConnectionLimits_default;
     options_handler := Some default_handler; options_shutdown_signals := [2; 15] |}.

Lemma sample_options_wf : options_wf sample_options.
Proof. by_decide. Qed.

(** The kernel refuses the signalfd, after the listener, the epoll instance and
    the eventfd were created and SIGINT and SIGTERM blocked. *)
Definition no_signalfd : Script :=
  {| script_interrupts := 0; script_recv := []; script_send := []; script_accept := [];
     script_wait := [];
     script_setup := [IoOk 3; IoOk 0; IoOk 0; IoOk 0; IoOk 4; IoOk 0; IoOk 0; IoOk 0; IoOk 0;
                      IoOk 5; IoOk 0; IoOk 0; IoOk 0; IoErr EMFILE] |}.

Lemma server_start_all_or_nothing_witness :
  let run := EpollEchoServer_construct (Sys := scripted no_signalfd) ∅ 9000 sample_options (mkSt tt []) in
  fst run = Throw (SyscallRuntimeError "signalfd" EMFILE) /\
  closed_fds (hist (snd run)) = [5; 4; 3] /\ signal_mask ∅ (hist (snd run)) = ∅.
Proof.
  pose proof (server_start_all_or_nothing (Sys := scripted no_signalfd) ∅ 9000 sample_options tt []
    sample_options_wf) as H.
  cbv zeta in *. assert (fst (EpollEchoServer_construct (Sys := scripted no_signalfd) ∅ 9000 sample_options
    (mkSt tt [])) = Throw (SyscallRuntimeError "signalfd" EMFILE)) as Hr by (vm_compute; reflexivity).
  split; [exact Hr|]. split; [vm_compute; reflexivity|].
  destruct (EpollEchoServer_construct _ _ _ _) as [r st]. simpl in Hr. subst r. simpl.
  destruct H as (es & _ & _ & H). exact H.
Defined.

Definition good_kernel : Script :=
  {| script_interrupts := 0; script_recv := []; script_send := []; script_accept := [];
     script_wait := []; script_setup := [] |}.

Lemma server_start_ready_witness :
  exists s m st,
    EpollEchoServer_construct (Sys := scripted good_kernel) ∅ 9000 sample_options (mkSt tt [])
      = (Return (s, m), st) /\ fresh_server (config_of s) (mkSt s (hist st)).
Proof.
  pose proof (server_start_ready (Sys := scripted good_kernel) ∅ 9000 sample_options) as H.
  assert (match fst (EpollEchoServer_construct (Sys := scripted good_kernel) ∅ 9000 sample_options
    (mkSt tt [])) with Return _ => true | _ => false end = true) as Hr by (vm_compute; reflexivity).
  destruct (EpollEchoServer_construct _ _ _ _) as [[[s m]|e| |] st]; try discriminate Hr.
  exists s, m, st. split; [reflexivity|]. apply (H s m st); [exact sample_options_wf|reflexivity].
Defined.
