(* ===== verification/BlockingTcp.v ===== *)
(** * The blocking server and client

    [include/pulsecore/network/blocking_tcp.hpp],
    [src/network/blocking_tcp.cpp].  A descriptor [fd] is also the owner of the
    bytes received and sent on it.  ([SO_NOSIGPIPE] does not exist on Linux.) *)

From S2P Require Import Prelude Os Scripted UniqueFd Codec Handler Connection ServerStart.

Definition kListenBacklog : Z := 16.

Inductive ReadMessageStatus : Type := kMessage | kClosed | kProtocolError.

Record ReadMessageResult : Type := {
  read_message_status : ReadMessageStatus;
  read_message : option Message;
  read_message_error : option ProtocolError;
}.

Definition ReadMessageResult_Message (m : Message) : ReadMessageResult :=
  {| read_message_status := kMessage; read_message := Some m; read_message_error := None |}.
Definition ReadMessageResult_Closed : ReadMessageResult :=
  {| read_message_status := kClosed; read_message := None; read_message_error := None |}.
Definition ReadMessageResult_ProtocolError (e : ProtocolError) : ReadMessageResult :=
  {| read_message_status := kProtocolError; read_message := None; read_message_error := Some e |}.

Record BlockingEchoServer : Type := { listener_ : UniqueFd; port_ : Z }.
Definition BlockingEchoServer_port (s : BlockingEchoServer) : Z := port_ s.

(** A decoder that is a local variable. *)
Definition with_decoder {X A} (d : FrameDecoder) (m : M (St FrameDecoder) A) : M (St X) A := fun s =>
  let '(r, s') := m (mkSt d (hist s)) in (r, mkSt (self s) (hist s')).

(** A local descriptor: closed whenever its scope is left. *)
Definition scoped {X A} (fd : UniqueFd) (m : M (St X) A) : M (St X) A :=
  a ← holding fd m; UniqueFd_destroy fd ;; mret a.

Section Operations.
Context `{Sys : OS}.

Definition CreateIpv4Socket {X} : M (St X) UniqueFd :=
  fd ← setup_or_throw CallSocket "socket"; mret (UniqueFd_make fd).

Definition LoopbackAddress (port : Z) : sockaddr_in :=
  {| sin_family := AF_INET; sin_port := htons port; sin_addr := htonl INADDR_LOOPBACK |}.

Definition BoundPort {X} (fd : Z) : M (St X) Z :=
  port ← setup_or_throw (CallGetsockname fd) "getsockname"; mret (ntohs port).

Definition CreateListener {X} (port : Z) : M (St X) UniqueFd :=
  listener ← CreateIpv4Socket;
  holding listener (
    setup_or_throw (CallReuseAddress (UniqueFd_get listener)) "setsockopt(SO_REUSEADDR)" ;;
    setup_or_throw (CallBind (UniqueFd_get listener) (LoopbackAddress port)) "bind" ;;
    setup_or_throw (CallListen (UniqueFd_get listener) kListenBacklog) "listen" ;;
    mret listener).

Fixpoint AcceptOne {X} (fuel : nat) (listener_fd : Z) : M (St X) UniqueFd :=
  match fuel with
  | O => out_of_fuel
  | S fuel =>
    client ← accept4 listener_fd;
    match client with
    | IoOk fd => mret (UniqueFd_make fd)
    | IoErr errno =>
      if errno =? EINTR then AcceptOne fuel listener_fd
      else throw (SyscallRuntimeError "accept" errno)
    end
  end.

Fixpoint SendAll_loop {X} (fuel : nat) (fd : Z) (bytes : list Byte) (offset : Z) : M (St X) unit :=
  match fuel with
  | O => out_of_fuel
  | S fuel =>
    if offset <? len bytes then
      let remaining := u64 (len bytes - offset) in
      sent ← send fd fd (ztake remaining (zdrop offset bytes));
      match sent with
      | IoErr errno =>
        if errno =? EINTR then SendAll_loop fuel fd bytes offset
        else throw (SyscallRuntimeError "send" errno)
      | IoOk sent =>
        if sent =? 0 then throw (RuntimeError "send: wrote zero bytes")
        else SendAll_loop fuel fd bytes (u64 (offset + sent))
      end
    else mret tt
  end.
Definition SendAll {X} (fuel : nat) (fd : Z) (bytes : list Byte) : M (St X) unit :=
  SendAll_loop fuel fd bytes 0.

Definition SendMessage {X} (fuel : nat) (fd : Z) (m : Message) : M (St X) unit :=
  match EncodeMessage m with
  | None => throw (RuntimeError "failed to encode protocol message")
  | Some encoded => SendAll fuel fd encoded
  end.

(** The size of the array [bytes]. *)
Definition read_buffer_size : Z := 4096.

Fixpoint ReadMessage (fuel : nat) (fd : Z) : M (St FrameDecoder) ReadMessageResult :=
  match fuel with
  | O => out_of_fuel
  | S fuel =>
    decoder ← get_self;
    '(result, decoder) ← the (FrameDecoder_Next decoder);
    put_self decoder ;;
    match status result with
    | kDecoded => m ← the (message result); mret (ReadMessageResult_Message m)
    | kError => e ← the (error result); mret (ReadMessageResult_ProtocolError e)
    | kNeedMoreData =>
      received ← recv fd fd read_buffer_size;
      match received with
      | IoErr errno =>
        if errno =? EINTR then ReadMessage fuel fd else throw (SyscallRuntimeError "recv" errno)
      | IoOk bytes =>
        if len bytes =? 0 then mret ReadMessageResult_Closed else
        decoder ← get_self;
        put_self (FrameDecoder_Append decoder bytes) ;;
        ReadMessage fuel fd
      end
    end
  end.

(** The loop of [ServeClient]; [turns] bounds the requests, [fuel] the loops of
    one request. *)
Fixpoint ServeClient_loop (turns fuel : nat) (fd : Z) : M (St FrameDecoder) unit :=
  match turns with
  | O => out_of_fuel
  | S turns =>
    read ← ReadMessage fuel fd;
    match read_message_status read with
    | kClosed | kProtocolError => mret tt
    | kMessage =>
      m ← the (read_message read);
      response ← the (HandleRequest m);
      SendMessage fuel fd response ;;
      ServeClient_loop turns fuel fd
    end
  end.
Definition ServeClient {X} (turns fuel : nat) (fd : Z) : M (St X) unit :=
  with_decoder FrameDecoder_new (ServeClient_loop turns fuel fd).

(** The constructor of [BlockingEchoServer]. *)
Definition BlockingEchoServer_construct {X} (port : Z) : M (St X) BlockingEchoServer :=
  listener ← CreateListener port;
  holding listener (
    port ← BoundPort (UniqueFd_get listener);
    mret {| listener_ := listener; port_ := port |}).

Definition ServeOne (turns fuel : nat) : M (St BlockingEchoServer) unit :=
  this ← get_self;
  client ← AcceptOne fuel (UniqueFd_get (listener_ this));
  scoped client (ServeClient turns fuel (UniqueFd_get client)).

(** [inet_pton] of the C library: the address in network byte order, if the text
    is one. *)
Context (inet_pton : string -> option Z).

Fixpoint connect_loop {X} (fuel : nat) (fd : Z) (address : sockaddr_in) : M (St X) unit :=
  match fuel with
  | O => out_of_fuel
  | S fuel =>
    r ← syscall (fun h => os_connect h fd address) (EvConnect fd address);
    match r with
    | IoOk _ => mret tt
    | IoErr errno =>
      if errno =? EINTR then connect_loop fuel fd address
      else throw (SyscallRuntimeError "connect" errno)
    end
  end.

Definition ConnectTcp {X} (fuel : nat) (host : string) (port : Z) : M (St X) UniqueFd :=
  client ← CreateIpv4Socket;
  holding client (
    match inet_pton host with
    | None => throw (RuntimeError "inet_pton: invalid IPv4 address")
    | Some address =>
      connect_loop fuel (UniqueFd_get client)
        {| sin_family := AF_INET; sin_port := htons port; sin_addr := address |} ;;
      mret client
    end).

Definition SendRequestAndReadResponse {X} (fuel : nat) (host : string) (port : Z) (request : Message) :
    M (St X) Message :=
  client ← ConnectTcp fuel host port;
  scoped client (
    SendMessage fuel (UniqueFd_get client) request ;;
    response ← with_decoder FrameDecoder_new (ReadMessage fuel (UniqueFd_get client));
    match read_message_status response with
    | kClosed => throw (RuntimeError "connection closed before response")
    | kProtocolError => throw (RuntimeError "protocol error while reading response")
    | kMessage => the (read_message response)
    end).
End Operations.

(** ** Bytes on one descriptor *)

Definition send_on (fd : Z) (e : SysEvent) : Prop :=
  match e with EvSend o f _ _ => o = fd /\ f = fd | _ => False end.
Definition recv_on (fd : Z) (e : SysEvent) : Prop :=
  match e with EvRecv o f _ _ => o = fd /\ f = fd | _ => False end.
Definition io_on (fd : Z) (e : SysEvent) : Prop := send_on fd e \/ recv_on fd e.

Lemma sends_receive_nothing fd es :
  Forall (send_on fd) es -> received_of fd es = [] /\ all_received es = [].
Proof. intros H. split; apply log_none; (eapply List.Forall_impl; [|exact H]); by intros []. Qed.

Lemma recvs_send_nothing fd es : Forall (recv_on fd) es -> sent_of fd es = [].
Proof. intros H. apply log_none. eapply List.Forall_impl; [|exact H]. by intros []. Qed.

Lemma received_of_app fd es es' : received_of fd (es ++ es') = received_of fd es ++ received_of fd es'.
Proof. apply log_app. Qed.
Lemma sent_of_app fd es es' : sent_of fd (es ++ es') = sent_of fd es ++ sent_of fd es'.
Proof. apply log_app. Qed.

Lemma all_received_app es es' : all_received (es ++ es') = all_received es ++ all_received es'.
Proof. apply log_app. Qed.

Lemma received_of_one fd n bs : received_of fd [EvRecv fd fd n (IoOk bs)] = bs.
Proof. unfold received_of, log. simpl. rewrite bool_decide_eq_true_2 by done. apply app_nil_r. Qed.
Lemma sent_of_one fd bs k : sent_of fd [EvSend fd fd bs (IoOk k)] = ztake k bs.
Proof. unfold sent_of, log. simpl. rewrite bool_decide_eq_true_2 by done. apply app_nil_r. Qed.

Section Proofs.
Context `{Sys : OS} {Laws : OSLaws Sys} {Short : ShortRun Sys}.

(** Fuel for any one loop: for the interrupted calls and the bytes of a frame. *)
Definition ample (fuel : nat) : Prop :=
  exists n, FewInterrupts Sys n /\ Z.of_nat n + kHeaderSize + kMaxPayloadSize < Z.of_nat fuel.

Lemma ample_enough fuel h budget :
  ample fuel -> budget <= kHeaderSize + kMaxPayloadSize -> enough fuel h budget.
Proof. intros (n & Hn & Hlt) Hb. exists n. split; [done|]. lia. Qed.

(** *** Sending *)

(** [e] is what [SendAll] throws for the last call made, a [send] on [fd] that
    accepted nothing or failed. *)
Definition send_failure (fd : Z) (es : History) (e : Exception) : Prop :=
  (exists bytes, last_call es = Some (EvSend fd fd bytes (IoOk 0)) /\ e = RuntimeError "send: wrote zero bytes") \/
  exists bytes errno, last_call es = Some (EvSend fd fd bytes (IoErr errno)) /\ errno <> EINTR /\
    e = SyscallRuntimeError "send" errno.

(** The bytes [bs] were sent, or some of them ([rest] were not). *)
Definition sent_bytes {X} (fd : Z) (x : X) (h : History) (bs rest : list Byte) (s : St X) : Prop :=
  exists es, s = mkSt x (h ++ es) /\ Forall (send_on fd) es /\ sent_of fd es ++ rest = bs.

Lemma sent_bytes_step {X} fd (x : X) h e bs1 bs2 rest s :
  send_on fd e -> sent_of fd [e] = bs1 -> sent_bytes fd x (h ++ [e]) bs2 rest s ->
  sent_bytes fd x h (bs1 ++ bs2) rest s.
Proof.
  intros He H1 (es & -> & Hes & H2). exists (e :: es). split; [by rewrite <- app_assoc|].
  split; [by constructor|]. change (e :: es) with ([e] ++ es).
  by rewrite sent_of_app, H1, <- app_assoc, H2.
Qed.

Lemma SendAll_loop_spec {X} fuel fd bytes offset (x : X) h :
  0 <= offset <= len bytes -> is_u64 (len bytes) ->
  wp (SendAll_loop fuel fd bytes offset)
    (fun _ => sent_bytes fd x h (zdrop offset bytes) [])
    (fun o s => (exists rest, sent_bytes fd x h (zdrop offset bytes) rest s) /\
       match o with Some e => send_failure fd (hist s) e | None => ~ enough fuel h (len bytes - offset) end)
    (mkSt x h).
Proof.
  intros Hoff Hlen. revert offset h Hoff. induction fuel as [|fuel IH]; intros offset h Hoff; simpl.
  { apply wp_out_of_fuel. split; [|apply enough_0; lia].
    exists (zdrop offset bytes), []. rewrite app_nil_r. by split_and!. }
  destruct (Z.ltb_spec offset (len bytes)) as [Hlt|Hge].
  2: { apply wp_ret. exists []. rewrite app_nil_r, zdrop_all by lia. by split_and!. }
  rewrite u64_id by (unfold is_u64 in *; lia).
  rewrite ztake_all by (rewrite len_zdrop; lia). apply wp_bind, wp_syscall. simpl.
  destruct (os_send h fd (zdrop offset bytes)) as [k|e] eqn:Hs.
  - pose proof (send_len _ _ _ _ Hs) as Hk. rewrite len_zdrop in Hk by lia.
    set (ev := EvSend _ _ _ _).
    assert (sent_of fd [ev] = ztake k (zdrop offset bytes)) as Hsent by apply sent_of_one.
    destruct (Z.eqb_spec k 0) as [->|Hk0].
    + apply wp_throw. split; [|left; exists (zdrop offset bytes); split; [apply last_call_snoc|done]].
      exists (zdrop offset bytes), [ev]. split; [done|]. split; [by constructor|]. by rewrite Hsent.
    + rewrite u64_id by (unfold is_u64 in *; lia).
      assert (zdrop offset bytes = ztake k (zdrop offset bytes) ++ zdrop (offset + k) bytes) as Heq.
      { rewrite <- zdrop_zdrop by lia. by rewrite ztake_zdrop. }
      eapply wp_mono; [apply (IH (offset + k)); lia| |].
      * intros [] s Hdone. rewrite Heq.
        exact (sent_bytes_step fd x h ev _ _ _ _ (conj eq_refl eq_refl) Hsent Hdone).
      * intros o s [[rest Hrest] Ho]. split.
        -- exists rest. rewrite Heq.
           exact (sent_bytes_step fd x h ev _ _ _ _ (conj eq_refl eq_refl) Hsent Hrest).
        -- destruct o; [done|]. intros Hen. apply Ho. eapply enough_progress; [|done|exact Hen]. lia.
  - destruct (Z.eqb_spec e EINTR) as [->|He].
    + assert (forall rest s, sent_bytes fd x (h ++ [EvSend fd fd (zdrop offset bytes) (IoErr EINTR)])
        (zdrop offset bytes) rest s -> sent_bytes fd x h (zdrop offset bytes) rest s) as Hstep.
      { intros rest s. by apply (sent_bytes_step fd x h _ []). }
      eapply wp_mono; [by apply IH| |].
      * intros [] s Hdone. by apply Hstep.
      * intros o s [[rest Hrest] Ho]. split; [exists rest; by apply Hstep|].
        destruct o; [done|]. intros Hen. apply Ho. by apply enough_send_interrupt.
    + apply wp_throw. split; [|right; exists (zdrop offset bytes), e; split; [apply last_call_snoc|done]].
      exists (zdrop offset bytes), [EvSend fd fd (zdrop offset bytes) (IoErr e)].
      split; [done|]. by split; [constructor|].
Qed.

Lemma SendMessage_spec {X} fuel fd m (x : X) h :
  valid_message m ->
  wp (SendMessage fuel fd m) (fun _ => sent_bytes fd x h (frame m) [])
    (fun o s => (exists rest, sent_bytes fd x h (frame m) rest s) /\
       match o with Some e => send_failure fd (hist s) e | None => ~ enough fuel h (len (frame m)) end)
    (mkSt x h).
Proof.
  intros Hm. unfold SendMessage.
  rewrite (proj2 (EncodeMessage_Some m (frame m) (proj1 (proj1 Hm))) (conj (proj2 Hm) eq_refl)).
  assert (is_u64 (len (frame m))) as Hlen.
  { rewrite len_frame. destruct Hm as [_ [_ Hmax]]. unfold kMaxPayloadSize, kHeaderSize, is_u64 in *.
    pose proof (len_nonneg (payload m)). lia. }
  pose proof (SendAll_loop_spec fuel fd (frame m) 0 x h) as H. rewrite zdrop_0, Z.sub_0_r in H.
  apply H; [pose proof (len_nonneg (frame m)); lia|done].
Qed.

(** *** Receiving *)

(** A decoder that has been fed from the descriptors of the history. *)
Definition decoder_ok (d : FrameDecoder) (h : History) : Prop :=
  FrameDecoder_wf d /\ len (buffer_ d) <= len (all_received h) /\ len (all_received h) < 2 ^ 64.

(** The bytes pending and those received are the frames of [k] and the bytes
    pending now. *)
Definition decoded (fd : Z) (d : FrameDecoder) (h : History) (k : list Message)
    (s : St FrameDecoder) : Prop :=
  exists es, hist s = h ++ es /\ Forall (recv_on fd) es /\ decoder_ok (self s) (hist s) /\
    Forall valid_message k /\ pending d ++ received_of fd es = frames k ++ pending (self s).

(** The last call made says that the peer has closed its side. *)
Definition end_of_stream (fd : Z) (es : History) : Prop :=
  exists size, last_call es = Some (EvRecv fd fd size (IoOk [])).

Definition read_message_meaning (fd : Z) (r : ReadMessageResult) (k : list Message) (d : FrameDecoder)
    (es : History) : Prop :=
  match read_message_status r with
  | kMessage => exists m, k = [m] /\ read_message r = Some m
  | kClosed => k = [] /\ status (decode_spec (pending d)) = kNeedMoreData /\ end_of_stream fd es
  | kProtocolError => k = [] /\
      exists e, read_message_error r = Some e /\ decode_spec (pending d) = DecodeResult_Error e
  end.

(** [e] is what [ReadMessage] throws for the last call made, a [recv] that failed. *)
Definition recv_failure (fd : Z) (es : History) (e : Exception) : Prop :=
  exists size errno, last_call es = Some (EvRecv fd fd size (IoErr errno)) /\ errno <> EINTR /\
    e = SyscallRuntimeError "recv" errno.

(** The bytes that may be missing before a frame is complete. *)
Definition missing (d : FrameDecoder) : Z :=
  Z.max 0 (kHeaderSize + kMaxPayloadSize - len (pending d)).

Lemma decoded_step fd d h e d1 k s :
  recv_on fd e -> pending d ++ received_of fd [e] = pending d1 ->
  decoded fd d1 (h ++ [e]) k s -> decoded fd d h k s.
Proof.
  intros He H1 (es & Hh & Hes & Hok & Hk & Hp). exists (e :: es).
  split; [by rewrite Hh, <- app_assoc|]. split; [by constructor|]. do 2 (split; [done|]).
  change (e :: es) with ([e] ++ es). by rewrite received_of_app, app_assoc, H1.
Qed.

Lemma decode_error_eq bytes e :
  status (decode_spec bytes) = kError -> error (decode_spec bytes) = Some e ->
  decode_spec bytes = DecodeResult_Error e.
Proof.
  unfold decode_spec. destruct (len bytes <? kHeaderSize); [done|].
  destruct (negb (field bytes 0 4 =? kMagic)); [by intros _ [= <-]|].
  destruct (negb (field bytes 4 2 =? kVersion)); [by intros _ [= <-]|].
  destruct (ToMessageType (field bytes 6 2)); [|by intros _ [= <-]].
  destruct (kMaxPayloadSize <? field bytes 8 4); [by intros _ [= <-]|].
  by destruct (len bytes <? kHeaderSize + field bytes 8 4).
Qed.

(** What a call returns, and how it fails. *)
Definition message_read (fd : Z) (d : FrameDecoder) (h : History) (r : ReadMessageResult)
    (s : St FrameDecoder) : Prop :=
  exists k, decoded fd d h k s /\ read_message_meaning fd r k (self s) (hist s).
Definition message_unread (fuel : nat) (fd : Z) (d : FrameDecoder) (h : History) (o : option Exception)
    (s : St FrameDecoder) : Prop :=
  decoded fd d h [] s /\
  match o with Some e => recv_failure fd (hist s) e | None => ~ enough fuel h (missing d) end.

Lemma decoded_refl fd d h : decoder_ok d h -> decoded fd d h [] (mkSt d h).
Proof.
  intros Hok. exists []. change (received_of fd []) with (@nil Z). simpl. by rewrite !app_nil_r.
Qed.

Lemma decoded_stay fd d h e :
  recv_on fd e -> received_of fd [e] = [] -> decoder_ok d (h ++ [e]) -> decoded fd d h [] (mkSt d (h ++ [e])).
Proof. intros He Hnone Hok. eapply decoded_step; [done| |by apply decoded_refl]. by rewrite Hnone, app_nil_r. Qed.

(** The call goes on after one [recv]. *)
Lemma read_message_step fuel fd d d1 h e :
  recv_on fd e -> pending d ++ received_of fd [e] = pending d1 ->
  (enough (S fuel) h (missing d) -> enough fuel (h ++ [e]) (missing d1)) ->
  wp (ReadMessage fuel fd) (message_read fd d1 (h ++ [e])) (message_unread fuel fd d1 (h ++ [e])) (mkSt d1 (h ++ [e])) ->
  wp (ReadMessage fuel fd) (message_read fd d h) (message_unread (S fuel) fd d h) (mkSt d1 (h ++ [e])).
Proof.
  intros He Hp Hen H. eapply wp_mono; [exact H| |].
  - intros r s (k & Hk & Hmean). exists k. split; [by eapply decoded_step|done].
  - intros o s [Hk Ho]. split; [by eapply decoded_step|]. destruct o; tauto.
Qed.

(** A frame that is complete in the decoder. *)
Lemma message_decoded fd d d' h m :
  decoder_ok d' h -> valid_message m -> pending d = frame m ++ pending d' ->
  message_read fd d h (ReadMessageResult_Message m) (mkSt d' h).
Proof.
  intros Hok Hm Hp. exists [m]. split; [|by exists m]. exists []. rewrite app_nil_r. do 2 (split; [done|]).
  split; [done|]. split; [by constructor|].
  change (received_of fd []) with (@nil Z). rewrite app_nil_r, frames_cons, frames_nil, app_nil_r. exact Hp.
Qed.

Lemma ReadMessage_received fuel fd d h bytes :
  (forall d h, decoder_ok d h -> wp (ReadMessage fuel fd) (message_read fd d h) (message_unread fuel fd d h) (mkSt d h)) ->
  decoder_ok d h -> status (decode_spec (pending d)) = kNeedMoreData ->
  os_recv h fd read_buffer_size = IoOk bytes ->
  wp (if len bytes =? 0 then mret ReadMessageResult_Closed else
      decoder ← get_self; put_self (FrameDecoder_Append decoder bytes) ;; ReadMessage fuel fd)
    (message_read fd d h) (message_unread (S fuel) fd d h)
    (mkSt d (h ++ [EvRecv fd fd read_buffer_size (IoOk bytes)])).
Proof.
  intros IH (Hwf & Hle & Hshort) Hst Hr.
  pose proof (recv_bytes _ _ _ _ Hr) as Hbytes. pose proof (short_run _ _ _ _ Hr) as Hs.
  pose proof (len_nonneg bytes). pose proof (len_nonneg (buffer_ d)).
  assert (all_received (h ++ [EvRecv fd fd read_buffer_size (IoOk bytes)]) = all_received h ++ bytes) as Hall.
  { unfold all_received. by rewrite log_snoc. }
  destruct (Z.eqb_spec (len bytes) 0) as [Hz|Hz].
  { apply len_zero in Hz as ->. apply wp_ret.
    exists []. split; [|do 2 (split; [done|]); eexists; apply last_call_snoc].
    apply decoded_stay; [done|apply received_of_one|]. split; [done|]. by rewrite Hall, app_nil_r. }
  apply wp_bind, wp_get_self, wp_bind, wp_put_self. cbn [self hist].
  destruct (Append_wf d bytes Hwf Hbytes) as [Hwf1 Hp1]; [unfold is_u64; lia|].
  pose proof (decode_NeedMoreData_len _ Hst) as Hneed. apply read_message_step; [done|by rewrite received_of_one| |].
  - apply enough_progress; [|done]. unfold missing. rewrite Hp1, len_app. lia.
  - apply IH. split; [done|]. rewrite Hall. simpl. rewrite !len_app. lia.
Qed.

Lemma ReadMessage_spec fuel fd d h :
  decoder_ok d h ->
  wp (ReadMessage fuel fd) (message_read fd d h) (message_unread fuel fd d h) (mkSt d h).
Proof.
  revert d h. induction fuel as [|fuel IH]; intros d h Hok; simpl.
  { apply wp_out_of_fuel. split; [by apply decoded_refl|]. apply enough_0. unfold missing. lia. }
  pose proof Hok as (Hwf & Hle & Hshort).
  apply wp_bind, wp_get_self. simpl self.
  destruct (Next_spec d Hwf) as (d' & Hnext & Hwf' & Hp & Hle' & Hsame).
  apply wp_bind. eapply wp_the; [exact Hnext|]. apply wp_bind, wp_put_self. simpl hist.
  destruct (decode_message_inv _ (pending_bytes _ Hwf)) as [(Hd & m & Hm & Hmsg & Hb)|[Hd Hmsg]].
  { rewrite Hd, Hmsg. apply wp_bind. eapply wp_the; [done|].
    apply wp_ret, message_decoded; [split; [done|lia]|done|by rewrite Hp, <- Hb]. }
  rewrite (Hsame Hd) in *. destruct (status (decode_spec (pending d))) eqn:Hst; [|done|].
  - apply wp_bind, wp_syscall. cbn [self hist].
    destruct (os_recv h fd read_buffer_size) as [bytes|e] eqn:Hr; [by apply ReadMessage_received|].
    assert (decoder_ok d (h ++ [EvRecv fd fd read_buffer_size (IoErr e)])) as Hok1.
    { split; [done|]. unfold all_received in *. by rewrite log_snoc, app_nil_r. }
    destruct (Z.eqb_spec e EINTR) as [->|He].
    + apply read_message_step; [done|apply app_nil_r|by apply enough_recv_interrupt|by apply IH].
    + apply wp_throw. split; [by apply decoded_stay|]. exists read_buffer_size, e. split; [apply last_call_snoc|done].
  - destruct (error (decode_spec (pending d))) as [e|] eqn:Herr.
    2: { apply error_None_need in Herr; [by rewrite Herr in Hst|by rewrite Hst]. }
    apply wp_bind. eapply wp_the; [done|]. apply wp_ret. exists []. split; [by apply decoded_refl|].
    split; [done|]. exists e. split; [done|]. by apply decode_error_eq.
Qed.

(** *** Serving a client *)

(** The requests [reqs] were received, and the responses sent, but for [rest]. *)
Definition served (fd : Z) (d : FrameDecoder) (h : History) (reqs : list Message) (rest : list Byte)
    (s : St FrameDecoder) : Prop :=
  exists es, hist s = h ++ es /\ Forall (io_on fd) es /\ Forall valid_message reqs /\
    pending d ++ received_of fd es = frames reqs ++ pending (self s) /\
    sent_of fd es ++ rest = frames (respond_spec <$> reqs) /\ decoder_ok (self s) (hist s).

Lemma io_of_recv fd es : Forall (recv_on fd) es -> Forall (io_on fd) es.
Proof. intros H. eapply List.Forall_impl; [|exact H]. by right. Qed.
Lemma io_of_send fd es : Forall (send_on fd) es -> Forall (io_on fd) es.
Proof. intros H. eapply List.Forall_impl; [|exact H]. by left. Qed.

Lemma served_decoded fd d h k s :
  decoded fd d h k s -> k = [] -> served fd d h [] [] s.
Proof.
  intros (es & Hh & Hes & Hok & _ & Hp) ->. exists es. split; [done|]. split; [by apply io_of_recv|].
  split; [done|]. split; [done|]. by rewrite (recvs_send_nothing fd es).
Qed.

(** One request read and answered, in part or in full. *)
Lemma served_request fd d h m d1 h1 rest s :
  decoded fd d h [m] (mkSt d1 h1) -> sent_bytes fd d1 h1 (frame (respond_spec m)) rest s ->
  served fd d h [m] rest s.
Proof.
  intros (es & Hh & Hes & Hok & Hm & Hp) (es2 & -> & Hes2 & Hs). simpl in *. subst h1.
  destruct (sends_receive_nothing fd es2 Hes2) as [Hr Ha].
  exists (es ++ es2). split; [by rewrite app_assoc|].
  split; [apply Forall_app_2; [by apply io_of_recv|by apply io_of_send]|]. split; [done|].
  rewrite received_of_app, Hr, app_nil_r, Hp. split; [done|].
  rewrite sent_of_app, (recvs_send_nothing fd es Hes). simpl.
  rewrite frames_cons, frames_nil, app_nil_r. split; [done|].
  unfold decoder_ok. simpl. by rewrite all_received_app, Ha, app_nil_r.
Qed.

Lemma served_trans fd d h k s1 reqs rest s :
  served fd d h k [] s1 -> served fd (self s1) (hist s1) reqs rest s -> served fd d h (k ++ reqs) rest s.
Proof.
  intros (es & Hh & Hes & Hk & Hp & Hs & _) (es' & Hh' & Hes' & Hk' & Hp' & Hs' & Hok').
  exists (es ++ es'). split; [by rewrite Hh', Hh, app_assoc|]. split; [by apply Forall_app_2|].
  split; [by apply Forall_app_2|]. rewrite app_nil_r in Hs.
  rewrite received_of_app, sent_of_app, fmap_app, !frames_app, <- Hs, <- !app_assoc, <- Hs', <- Hp'.
  split; [|by split]. by rewrite !app_assoc, Hp.
Qed.

(** Why a client is not served any further: it has closed its side, or what it sent
    is malformed. *)
Definition no_more_requests (fd : Z) (rest : list Byte) (es : History) : Prop :=
  (status (decode_spec rest) = kNeedMoreData /\ end_of_stream fd es) \/ status (decode_spec rest) = kError.

Lemma ServeClient_loop_spec turns fuel fd d h :
  decoder_ok d h ->
  wp (ServeClient_loop turns fuel fd)
    (fun _ s => exists reqs, served fd d h reqs [] s /\
       no_more_requests fd (pending (self s)) (hist s))
    (fun o s => exists reqs rest, served fd d h reqs rest s /\
       match o with
       | Some e => recv_failure fd (hist s) e \/ send_failure fd (hist s) e
       | None => ample fuel -> length reqs = turns
       end)
    (mkSt d h).
Proof.
  revert d h. induction turns as [|turns IH]; intros d h Hok; simpl.
  { apply wp_out_of_fuel. exists [], []. split; [|done]. exists []. rewrite app_nil_r. split_and!; try done.
    change (received_of fd []) with (@nil Z). by rewrite app_nil_r. }
  eapply wp_call; [by apply ReadMessage_spec| |].
  2: { intros o s [Hk Ho]. exists [], []. split; [by eapply served_decoded|].
       destruct o; [by left|]. intros Hfuel. destruct Ho. apply ample_enough; [done|].
       unfold missing, kHeaderSize, kMaxPayloadSize. pose proof (len_nonneg (pending d)). lia. }
  intros r [d1 h1] (k & Hk & Hmean). unfold read_message_meaning in Hmean. simpl self in Hmean.
  destruct (read_message_status r).
  2: { destruct Hmean as [-> Hst]. apply wp_ret. exists []. split; [by eapply served_decoded|by left]. }
  2: { destruct Hmean as [-> (e & _ & Hst)]. apply wp_ret. exists []. split; [by eapply served_decoded|].
       right. simpl. by rewrite Hst. }
  destruct Hmean as (m & -> & Hm). apply wp_bind. eapply wp_the; [exact Hm|].
  pose proof Hk as (_ & _ & _ & _ & Hvalid & _). apply Forall_inv in Hvalid.
  apply wp_bind. eapply wp_the.
  { apply HandleRequest_spec. apply Hvalid. }
  destruct (respond_spec_valid m Hvalid) as [Hresp _].
  eapply wp_call; [by apply SendMessage_spec| |].
  - intros [] s1 Hsent. pose proof (served_request _ _ _ _ _ _ _ _ Hk Hsent) as H1.
    destruct s1 as [d2 h2]. pose proof H1 as (_ & _ & _ & _ & _ & _ & Hok1). eapply wp_mono; [by apply IH| |].
    + intros _ s (reqs & Hr & Hend). exists ([m] ++ reqs). split; [by eapply served_trans|done].
    + intros o s (reqs & rest & Hr & Ho). exists ([m] ++ reqs), rest.
      split; [by eapply served_trans|]. destruct o; [done|]. intros Hfuel. simpl. by rewrite Ho.
  - intros o s [[rest Hrest] Ho]. pose proof (served_request _ _ _ _ _ _ _ _ Hk Hrest) as H1.
    exists [m], rest. split; [done|]. destruct o; [by right|]. intros Hfuel. destruct Ho.
    apply ample_enough; [done|]. rewrite len_frame. destruct Hresp as [_ [_ Hmax]]. lia.
Qed.
End Proofs.

(** ** The server object *)

Lemma wp_with_decoder {X A} d (m : M (St FrameDecoder) A) Q E (x : X) h :
  wp m (fun a s => Q a (mkSt x (hist s))) (fun o s => E o (mkSt x (hist s))) (mkSt d h) ->
  wp (with_decoder d m) Q E (mkSt x h).
Proof. unfold wp, with_decoder. simpl. by destruct (m _) as [[] s']. Qed.

Lemma wp_local_decoder {X A} d (m : M (St FrameDecoder) A) Q E (x : X) h :
  wp m Q E (mkSt d h) ->
  wp (with_decoder d m) (fun a s => exists d', s = mkSt x (hist s) /\ Q a (mkSt d' (hist s)))
    (fun o s => exists d', s = mkSt x (hist s) /\ E o (mkSt d' (hist s))) (mkSt x h).
Proof.
  intros Hm. apply wp_with_decoder. eapply wp_mono; [exact Hm| |].
  - intros a [d' h'] H. by exists d'.
  - intros o [d' h'] H. by exists d'.
Qed.

(** A descriptor with a scope is closed unless the run stops inside it. *)
Lemma wp_scoped {X A} fd (m : M (St X) A) (Q : A -> St X -> Prop) E s :
  0 <= fd ->
  wp m (fun a s => Q a (mkSt (self s) (hist s ++ [EvClose fd])))
    (fun o s => match o with
                | Some e => E (Some e) (mkSt (self s) (hist s ++ [EvClose fd]))
                | None => E None s
                end) s ->
  wp (scoped (UniqueFd_make fd) m) Q E s.
Proof.
  intros Hfd Hm. unfold scoped. eapply wp_call with (E1 := fun o s => E o s).
  - apply wp_on_exception. eapply wp_mono; [exact Hm|intros a s' H; exact H|].
    intros [e|] [x h] H; [|done]. unfold wp. by rewrite UniqueFd_destroy_run, close_of_valid.
  - intros a [x h] H. unfold wp. simpl in H. erewrite bind_return by apply UniqueFd_destroy_run.
    by rewrite close_of_valid.
  - done.
Qed.

(** Calls that were interrupted and made again. *)
Definition retries (e : SysEvent) (es : History) : Prop := Forall (fun e' => e' = e) es.

Section Objects.
Context `{Sys : OS} {Laws : OSLaws Sys} {Short : ShortRun Sys}.

Lemma enough_interrupt fuel h e :
  (forall n, FewInterrupts Sys n -> (n <= interrupts h)%nat -> is_interrupt e = false) ->
  is_interrupt e = true -> enough (S fuel) h 0 -> enough fuel (h ++ [e]) 0.
Proof.
  intros Hno He (n & Hn & Hlt). exists n. split; [done|]. rewrite interrupts_snoc, He.
  destruct (Nat.lt_ge_cases (interrupts h) n) as [|Hge]; [lia|]. by rewrite (Hno n Hn Hge) in He.
Qed.

Lemma AcceptOne_spec {X} fuel l (x : X) h :
  wp (AcceptOne fuel l)
    (fun u s => exists waits fd, u = UniqueFd_make fd /\ 0 <= fd /\
       retries (EvAccept l (IoErr EINTR)) waits /\
       s = mkSt x (h ++ waits ++ [EvAccept l (IoOk fd)]))
    (fun o s => exists waits, retries (EvAccept l (IoErr EINTR)) waits /\
       match o with
       | Some e => exists errno, e = SyscallRuntimeError "accept" errno /\ errno <> EINTR /\
                     s = mkSt x (h ++ waits ++ [EvAccept l (IoErr errno)])
       | None => s = mkSt x (h ++ waits) /\ ~ enough fuel h 0
       end)
    (mkSt x h).
Proof.
  revert h. induction fuel as [|fuel IH]; intros h; simpl.
  { apply wp_out_of_fuel. exists []. split; [constructor|]. rewrite app_nil_r.
    split; [done|]. by apply enough_0. }
  apply wp_bind, wp_syscall. simpl. destruct (os_accept h l) as [fd|e] eqn:Ha.
  { apply wp_ret. exists [], fd. split_and!; [done|by eapply accept_fd|constructor|done]. }
  destruct (Z.eqb_spec e EINTR) as [->|He].
  2: { apply wp_throw. exists []. split; [constructor|]. by exists e. }
  eapply wp_mono; [apply IH| |].
  - intros u s (waits & fd & -> & Hfd & Hw & ->). exists (EvAccept l (IoErr EINTR) :: waits), fd.
    split_and!; [done|done|by constructor|by rewrite <- app_assoc].
  - intros o s (waits & Hw & Ho). exists (EvAccept l (IoErr EINTR) :: waits).
    split; [by constructor|]. destruct o as [e|].
    + destruct Ho as (errno & -> & Hne & ->). exists errno. by rewrite <- app_assoc.
    + destruct Ho as (-> & Hen). split; [by rewrite <- app_assoc|]. intros H. apply Hen.
      apply enough_interrupt; [|done|done]. intros n Hn Hle.
      pose proof (few_accept h l Hle) as Hf. by rewrite Ha in Hf.
Qed.

(** The last call on [fd] is one of those made since [e0], which is not on it. *)
Lemma last_call_since fd h e0 es e :
  ~ io_on fd e0 -> io_on fd e -> last_call (h ++ [e0] ++ es) = Some e -> last_call es = Some e.
Proof.
  intros H0 He [H|[? _]]%last_call_app; [|done].
  destruct (last_call_app [e0] es e H) as [|[-> [= ->]]]; done.
Qed.

Lemma send_failure_since fd h e0 es e :
  ~ io_on fd e0 -> send_failure fd (h ++ [e0] ++ es) e -> send_failure fd es e.
Proof.
  intros H0 [(bs & Hl & He)|(bs & err & Hl & He)]; [left; exists bs|right; exists bs, err];
    (split; [|done]); eapply last_call_since; [exact H0|by left|exact Hl|exact H0|by left|exact Hl].
Qed.

Lemma recv_failure_since fd h e0 es e :
  ~ io_on fd e0 -> recv_failure fd (h ++ [e0] ++ es) e -> recv_failure fd es e.
Proof.
  intros H0 (n & err & Hl & He). exists n, err. split; [|done].
  eapply last_call_since; [exact H0|by right|exact Hl].
Qed.

Lemma end_of_stream_since fd h e0 es :
  ~ io_on fd e0 -> end_of_stream fd (h ++ [e0] ++ es) -> end_of_stream fd es.
Proof. intros H0 [n Hl]. exists n. eapply last_call_since; [exact H0|by right|exact Hl]. Qed.

(** A session with a client: the requests received and [tail], the responses
    sent but for the bytes [unsent]. *)
Definition session (fd : Z) (reqs : list Message) (tail unsent : list Byte) (es : History) : Prop :=
  Forall (io_on fd) es /\ Forall valid_message reqs /\
  received_of fd es = frames reqs ++ tail /\ sent_of fd es ++ unsent = frames (respond_spec <$> reqs).

(** How a session with the calls [es] ends. *)
Definition session_end (turns fuel : nat) (fd : Z) (es : History) (reqs : list Message)
    (tail unsent : list Byte) (r : option (option Exception)) : Prop :=
  match r with
  | None => unsent = [] /\ no_more_requests fd tail es
  | Some (Some e) => recv_failure fd es e \/ send_failure fd es e
  | Some None => ample fuel -> length reqs = turns
  end.

Lemma session_end_since turns fuel fd h e0 es reqs tail unsent r :
  ~ io_on fd e0 -> session_end turns fuel fd (h ++ [e0] ++ es) reqs tail unsent r ->
  session_end turns fuel fd es reqs tail unsent r.
Proof.
  intros H0. destruct r as [[e|]|]; simpl; [|done|].
  - intros [H|H]; [left; by eapply recv_failure_since|right; by eapply send_failure_since].
  - intros [-> [[Hst H]|Hst]]; split; try done; [left|by right]. split; [done|]. by eapply end_of_stream_since.
Qed.

Lemma ServeClient_spec {X} turns fuel fd (x : X) h :
  len (all_received h) < 2 ^ 64 ->
  let post r s := exists es reqs tail unsent, s = mkSt x (h ++ es) /\
    session fd reqs tail unsent es /\ session_end turns fuel fd (h ++ es) reqs tail unsent r /\
    len (all_received (h ++ es)) < 2 ^ 64 in
  wp (ServeClient turns fuel fd) (fun _ => post None) (fun o => post (Some o)) (mkSt x h).
Proof.
  intros Hlen post. apply wp_with_decoder.
  assert (decoder_ok FrameDecoder_new h) as Hok.
  { split; [apply FrameDecoder_new_wf|]. simpl. pose proof (len_nonneg (all_received h)). rewrite len_nil. lia. }
  assert (forall reqs unsent s, served fd FrameDecoder_new h reqs unsent s ->
    exists es, mkSt x (hist s) = mkSt x (h ++ es) /\ session fd reqs (pending (self s)) unsent es /\
      len (all_received (h ++ es)) < 2 ^ 64) as Hs.
  { intros reqs unsent s (es & -> & Hes & Hv & Hr & Hsent & _ & _ & Hlast). exists es. by split_and!. }
  eapply wp_mono; [by apply ServeClient_loop_spec| |].
  - intros _ s (reqs & Hserved & Hend). apply Hs in Hserved as (es & Heq & Hses & Hlast).
    exists es, reqs, (pending (self s)), []. injection Heq as Heq. rewrite Heq in *. by split_and!.
  - intros o s (reqs & unsent & Hserved & Hend). apply Hs in Hserved as (es & Heq & Hses & Hlast).
    exists es, reqs, (pending (self s)), unsent. injection Heq as Heq. rewrite Heq in *. by destruct o.
Qed.
End Objects.

(** ** The client *)

Section Client.
Context `{Sys : OS} {Laws : OSLaws Sys} {Short : ShortRun Sys} {Setup : SetupLaws Sys}.
Context (inet_pton : string -> option Z).

Lemma connect_loop_spec {X} fuel fd address (x : X) h :
  let again := EvConnect fd address (IoErr EINTR) in
  wp (connect_loop fuel fd address)
    (fun _ s => exists waits, retries again waits /\
       s = mkSt x (h ++ waits ++ [EvConnect fd address (IoOk tt)]))
    (fun o s => exists waits, retries again waits /\
       match o with
       | Some e => exists errno, e = SyscallRuntimeError "connect" errno /\ errno <> EINTR /\
                     s = mkSt x (h ++ waits ++ [EvConnect fd address (IoErr errno)])
       | None => s = mkSt x (h ++ waits) /\ ~ enough fuel h 0
       end)
    (mkSt x h).
Proof.
  intros again. revert h. induction fuel as [|fuel IH]; intros h; simpl.
  { apply wp_out_of_fuel. exists []. split; [constructor|]. rewrite app_nil_r.
    split; [done|]. by apply enough_0. }
  apply wp_bind, wp_syscall. simpl. destruct (os_connect h fd address) as [[]|e] eqn:Ha.
  { apply wp_ret. exists []. by split; [constructor|]. }
  destruct (Z.eqb_spec e EINTR) as [->|He].
  2: { apply wp_throw. exists []. split; [constructor|]. by exists e. }
  eapply wp_mono; [apply IH| |].
  - intros _ s (waits & Hw & ->). exists (again :: waits).
    split; [by constructor|]. by rewrite <- app_assoc.
  - intros o s (waits & Hw & Ho). exists (again :: waits).
    split; [by constructor|]. destruct o as [e|].
    + destruct Ho as (errno & -> & Hne & ->). exists errno. by rewrite <- app_assoc.
    + destruct Ho as (-> & Hen). split; [by rewrite <- app_assoc|]. intros H. apply Hen.
      apply enough_interrupt; [|done|done]. intros n Hn Hle.
      pose proof (few_connect h fd address Hle) as Hf. by rewrite Ha in Hf.
Qed.

(** Where the client connects to. *)
Definition destination (host : string) (port : Z) (address : sockaddr_in) : Prop :=
  sin_family address = AF_INET /\ sin_port address = htons port /\ inet_pton host = Some (sin_addr address).

(** The calls of a connection attempt on socket [fd]. *)
Definition connecting (host : string) (port fd : Z) (e : SysEvent) : Prop :=
  match e with EvConnect f address _ => f = fd /\ destination host port address | _ => False end.

Lemma connecting_retries host port fd address waits r :
  destination host port address -> retries (EvConnect fd address (IoErr EINTR)) waits ->
  Forall (connecting host port fd) (waits ++ [EvConnect fd address r]).
Proof.
  intros Hto H. apply Forall_app_2; [|by apply Forall_singleton].
  eapply List.Forall_impl; [|exact H]. by intros ? ->.
Qed.

(** What the client did on its socket [fd], between creating and closing it. *)
Definition client_calls (host : string) (port fd : Z) (es : History) : Prop :=
  exists connects ios, es = connects ++ ios /\ Forall (connecting host port fd) connects /\ Forall (io_on fd) ios.

(** How the client fails after the calls [es] on its socket, having received [got]:
    with the error of the last of these calls, or by its own verdict: no call is made
    for an address that is not one, the connection is closed before the response
    when the last call says so and no whole frame was received, and the bytes
    received are malformed when they are. *)
Definition client_failure (host : string) (fd : Z) (es : History) (got : list Byte) (e : Exception) : Prop :=
  (e = RuntimeError "inet_pton: invalid IPv4 address" /\ inet_pton host = None /\ es = []) \/
  (exists address errno, last_call es = Some (EvConnect fd address (IoErr errno)) /\ errno <> EINTR /\
     e = SyscallRuntimeError "connect" errno) \/
  send_failure fd es e \/ recv_failure fd es e \/
  (e = RuntimeError "connection closed before response" /\ status (decode_spec got) = kNeedMoreData /\
     end_of_stream fd es) \/
  (e = RuntimeError "protocol error while reading response" /\ status (decode_spec got) = kError).

(** The history [es] of a client that created the socket [fd], and how it ends. *)
Definition client_end {X} (fuel : nat) (host : string) (port : Z) (request : Message) (fd : Z) (es : History)
    (unsent : list Byte) (x : X) (h : History) (r : option Exception + Message) (s : St X) : Prop :=
  client_calls host port fd es /\ sent_of fd es ++ unsent = frame request /\
  match r with
  | inr m => unsent = [] /\ valid_message m /\ (exists more, received_of fd es = frame m ++ more) /\
      s = mkSt x (h ++ [EvSetup CallSocket (IoOk fd)] ++ es ++ [EvClose fd])
  | inl (Some e) => client_failure host fd es (received_of fd es) e /\
      s = mkSt x (h ++ [EvSetup CallSocket (IoOk fd)] ++ es ++ [EvClose fd])
  | inl None => ~ ample fuel /\ s = mkSt x (h ++ [EvSetup CallSocket (IoOk fd)] ++ es)
  end.

Definition client_post {X} fuel host port request (x : X) h r (s : St X) : Prop :=
  (exists errno, r = inl (Some (SyscallRuntimeError "socket" errno)) /\
     s = mkSt x (h ++ [EvSetup CallSocket (IoErr errno)])) \/
  exists fd es unsent, client_end fuel host port request fd es unsent x h r s.

(** Connecting moves no byte. *)
Lemma connecting_silent host port fd es :
  Forall (connecting host port fd) es -> sent_of fd es = [] /\ received_of fd es = [] /\ all_received es = [].
Proof. intros H. split_and!; apply log_none; (eapply List.Forall_impl; [|exact H]); by intros []. Qed.

Lemma client_calls_app host port fd connects ios :
  Forall (connecting host port fd) connects -> Forall (io_on fd) ios ->
  client_calls host port fd (connects ++ ios) /\ sent_of fd (connects ++ ios) = sent_of fd ios /\
  received_of fd (connects ++ ios) = received_of fd ios.
Proof.
  intros Hc Hio. destruct (connecting_silent _ _ fd connects Hc) as (Hs & Hr & _).
  rewrite sent_of_app, received_of_app, Hs, Hr. split; [by exists connects, ios|done].
Qed.

Lemma exchange_decoder_ok host port fd connects es h :
  len (all_received h) < 2 ^ 64 -> Forall (connecting host port fd) connects -> Forall (send_on fd) es ->
  decoder_ok FrameDecoder_new ((h ++ [EvSetup CallSocket (IoOk fd)] ++ connects) ++ es).
Proof.
  intros Hlen Hc Hes. split; [apply FrameDecoder_new_wf|].
  destruct (connecting_silent _ _ fd connects Hc) as (_ & _ & Hr).
  destruct (sends_receive_nothing fd es Hes) as [_ Ha].
  rewrite !all_received_app, Hr, Ha. change (all_received [_]) with (@nil Byte). rewrite !app_nil_r.
  change (len (buffer_ FrameDecoder_new)) with 0. pose proof (len_nonneg (all_received h)). lia.
Qed.

Lemma exchange_calls host port fd connects es request :
  Forall (connecting host port fd) connects -> Forall (send_on fd) es -> sent_of fd es = frame request ->
  forall es2, Forall (recv_on fd) es2 -> client_calls host port fd (connects ++ es ++ es2) /\
    sent_of fd (connects ++ es ++ es2) = frame request /\
    received_of fd (connects ++ es ++ es2) = received_of fd es2.
Proof.
  intros Hc Hes Hsent es2 H2. destruct (client_calls_app host port fd connects (es ++ es2) Hc) as (H & Hs & Hr).
  { apply Forall_app_2; [by apply io_of_send|by apply io_of_recv]. }
  split; [done|]. destruct (sends_receive_nothing fd es Hes) as [Hr0 _].
  by rewrite Hs, Hr, sent_of_app, received_of_app, Hsent, (recvs_send_nothing fd es2 H2), Hr0, app_nil_r.
Qed.

(** The exchange on a connected socket. *)
Lemma exchange_spec {X} fuel host port request fd connects (x : X) h :
  valid_message request -> len (all_received h) < 2 ^ 64 -> Forall (connecting host port fd) connects ->
  let start := h ++ [EvSetup CallSocket (IoOk fd)] ++ connects in
  let post r s := exists es unsent, client_end fuel host port request fd es unsent x h r
    (match r with inl None => s | _ => mkSt (self s) (hist s ++ [EvClose fd]) end) in
  wp (SendMessage fuel fd request ;;
      response ← with_decoder FrameDecoder_new (ReadMessage fuel fd);
      match read_message_status response with
      | kClosed => throw (RuntimeError "connection closed before response")
      | kProtocolError => throw (RuntimeError "protocol error while reading response")
      | kMessage => the (read_message response)
      end) (fun m => post (inr m)) (fun o => post (inl o)) (mkSt x start).
Proof.
  intros Hreq Hlen Hc start post.
  assert (Z.max 0 (len (frame request)) <= kHeaderSize + kMaxPayloadSize) as Hframe.
  { rewrite len_frame. destruct Hreq as [_ [_ Hmax]]. pose proof (len_nonneg (payload request)).
    unfold kHeaderSize, kMaxPayloadSize in *. lia. }
  eapply wp_call; [by apply SendMessage_spec| |].
  2: { intros o s [[rest (es & -> & Hes & Hsent)] Ho].
       destruct (client_calls_app host port fd connects es Hc (io_of_send fd es Hes)) as (Hcalls & Hs & _).
       exists (connects ++ es), rest. split; [done|]. split; [by rewrite Hs|].
       destruct o as [e|]; unfold start in *; simpl in *; rewrite <- !app_assoc in *; (split; [|done]).
       - right; right; left. eapply send_failure_since; [|exact Ho]. by intros [[]|[]].
       - intros Ha. apply Ho. apply ample_enough; [done|]. lia. }
  intros [] s (es & -> & Hes & Hsent). rewrite app_nil_r in Hsent.
  assert (decoder_ok FrameDecoder_new (start ++ es)) as Hok by by eapply exchange_decoder_ok.
  pose proof (exchange_calls host port fd connects es request Hc Hes Hsent) as Hall.
  eapply wp_call; [apply wp_local_decoder; by apply ReadMessage_spec| |].
  - intros r [x' h'] (d & [= ->] & k & (es2 & Hh & Hes2 & _ & Hv & Hp) & Hmean). simpl in Hh, Hp.
    destruct (Hall es2 Hes2) as (Hcalls & Hs & Hr). unfold read_message_meaning in Hmean.
    simpl self in Hmean.
    change (pending FrameDecoder_new ++ received_of fd es2) with (received_of fd es2) in Hp.
    destruct (read_message_status r).
    + destruct Hmean as (m & -> & Hm). eapply wp_the; [exact Hm|]. exists (connects ++ es ++ es2), [].
      split; [done|]. split; [by rewrite Hs, app_nil_r|]. split; [done|].
      split; [by apply Forall_inv in Hv|]. split.
      * exists (pending d). by rewrite Hr, Hp, frames_cons, frames_nil, app_nil_r.
      * simpl. rewrite Hh. unfold start. by rewrite <- !app_assoc.
    + destruct Hmean as [-> Hst]. apply wp_throw. exists (connects ++ es ++ es2), [].
      split; [done|]. split; [by rewrite Hs, app_nil_r|]. split.
      * do 4 right. left. destruct Hst as [Hst Hclosed]. split; [done|]. split; [by rewrite Hr, Hp|].
        rewrite Hh in Hclosed. unfold start in Hclosed. rewrite <- !app_assoc in Hclosed.
        eapply end_of_stream_since; [|exact Hclosed]. by intros [[]|[]].
      * simpl. rewrite Hh. unfold start. by rewrite <- !app_assoc.
    + destruct Hmean as [-> (e & _ & Hst)]. apply wp_throw. exists (connects ++ es ++ es2), [].
      split; [done|]. split; [by rewrite Hs, app_nil_r|]. split.
      * do 5 right. split; [done|]. rewrite Hr, Hp, frames_nil. simpl. by rewrite Hst.
      * simpl. rewrite Hh. unfold start. by rewrite <- !app_assoc.
  - intros o [x' h'] (d & [= ->] & (es2 & Hh & Hes2 & _) & Ho). simpl in Hh.
    destruct (Hall es2 Hes2) as (Hcalls & Hs & Hr).
    exists (connects ++ es ++ es2), []. split; [done|]. split; [by rewrite Hs, app_nil_r|].
    destruct o as [e|]; simpl; rewrite Hh; unfold start; rewrite <- !app_assoc; (split; [|done]).
    + do 3 right. left. rewrite Hh in Ho. unfold start in Ho. rewrite <- !app_assoc in Ho.
      eapply recv_failure_since; [|exact Ho]. by intros [[]|[]].
    + intros Ha. apply Ho. apply ample_enough; [done|]. unfold missing, pending. simpl. done.
Qed.

(** What a connection attempt leaves on the socket it created. *)
Lemma ConnectTcp_spec {X} fuel host port request (x : X) h :
  valid_message request ->
  wp (ConnectTcp inet_pton fuel host port)
    (fun u s => exists fd connects, u = UniqueFd_make fd /\ 0 <= fd /\ Forall (connecting host port fd) connects /\
       s = mkSt x (h ++ [EvSetup CallSocket (IoOk fd)] ++ connects))
    (fun o => client_post fuel host port request x h (inl o))
    (mkSt x h).
Proof.
  intros Hreq. unfold ConnectTcp, CreateIpv4Socket, setup_or_throw.
  apply wp_bind, wp_bind, wp_bind, wp_syscall. simpl.
  destruct (os_setup h CallSocket) as [fd|e] eqn:Hsock.
  2: { apply wp_throw. left. by exists e. }
  apply wp_ret, wp_ret. destruct (setup_fresh h CallSocket fd eq_refl Hsock) as [Hfd _].
  assert (forall connects, Forall (connecting host port fd) connects ->
    client_calls host port fd connects /\ sent_of fd connects ++ frame request = frame request /\
    received_of fd connects = []) as Hnone.
  { intros cs Hc. destruct (connecting_silent _ _ fd cs Hc) as (Hs & Hr & _). rewrite Hs.
    split; [|done]. exists cs, []. by rewrite app_nil_r. }
  assert (forall o s, (match o with
     | Some e => exists connects, s = mkSt x (h ++ [EvSetup CallSocket (IoOk fd)] ++ connects) /\
         Forall (connecting host port fd) connects /\ client_failure host fd connects [] e
     | None => exists connects, s = mkSt x (h ++ [EvSetup CallSocket (IoOk fd)] ++ connects) /\
         Forall (connecting host port fd) connects /\ ~ ample fuel end) ->
    match o with
    | Some e => client_post fuel host port request x h (inl (Some e)) (mkSt (self s) (hist s ++ [EvClose fd]))
    | None => client_post fuel host port request x h (inl None) s
    end) as Hend.
  { intros [e|] s (cs & -> & Hc & Hbad); destruct (Hnone cs Hc) as (H1 & H2 & H3);
      right; exists fd, cs, (frame request); (split; [done|]); (split; [done|]).
    - simpl. rewrite H3. split; [done|]. by rewrite <- !app_assoc.
    - done. }
  apply wp_on_exception. destruct (inet_pton host) as [address|] eqn:Haddr.
  2: { apply wp_throw. unfold wp. rewrite UniqueFd_destroy_run, close_of_valid by done.
       apply (Hend (Some _) (mkSt x (h ++ [EvSetup CallSocket (IoOk fd)]))).
       exists []. split; [by rewrite app_nil_r|]. split; [done|]. by left. }
  set (to := {| sin_family := AF_INET; sin_port := htons port; sin_addr := address |}).
  assert (destination host port to) as Hto by done.
  eapply wp_call; [apply connect_loop_spec| |].
  - intros _ s (waits & Hw & ->). apply wp_ret. exists fd. eexists. split; [done|]. split; [done|].
    split; [by eapply connecting_retries|]. by rewrite <- !app_assoc.
  - intros [e|] s (waits & Hw & Ho).
    + destruct Ho as (errno & -> & He & ->). unfold wp.
      rewrite UniqueFd_destroy_run, close_of_valid by done.
      apply (Hend (Some _) (mkSt x ((h ++ [EvSetup CallSocket (IoOk fd)]) ++ waits ++ [_]))).
      eexists. split; [by rewrite <- app_assoc|]. split; [by eapply connecting_retries|].
      right. left. exists to, errno. split; [apply last_call_snoc|done].
    + destruct Ho as (-> & Hen). apply (Hend None). exists waits. split; [by rewrite <- app_assoc|].
      split; [|intros Ha; apply Hen; by apply ample_enough].
      eapply List.Forall_impl; [|exact Hw]. by intros ? ->.
Qed.

Lemma SendRequestAndReadResponse_spec {X} fuel host port request (x : X) h :
  valid_message request -> len (all_received h) < 2 ^ 64 ->
  wp (SendRequestAndReadResponse inet_pton fuel host port request)
    (fun m => client_post fuel host port request x h (inr m))
    (fun o => client_post fuel host port request x h (inl o)) (mkSt x h).
Proof.
  intros Hreq Hlen. eapply wp_call; [by apply ConnectTcp_spec| |done].
  intros ? s (fd & connects & -> & Hfd & Hc & ->). apply wp_scoped; [done|].
  eapply wp_mono; [by apply exchange_spec| |].
  - intros m s (es & unsent & H). right. by exists fd, es, unsent.
  - intros [e|] s (es & unsent & H); right; by exists fd, es, unsent.
Qed.
End Client.

(** ** The constructor of the server *)

Section Construct.
Context `{Sys : OS} {Setup : SetupLaws Sys}.

Context {X : Type} (x : X) (h : History) (fd : Z).

Lemma wp_setup c name Q E h' :
  (forall v, Q v (mkSt x (h' ++ [EvSetup c (IoOk v)]))) ->
  (forall e, E (Some (SyscallRuntimeError name e)) (mkSt x (h' ++ [EvSetup c (IoErr e)]))) ->
  wp (setup_or_throw c name) Q E (mkSt x h').
Proof.
  intros HQ HE. apply wp_bind, wp_syscall. simpl.
  destruct (os_setup h' c); [by apply wp_ret|by apply wp_throw].
Qed.

(** Calls of a construction that keeps the signal mask. *)
Definition plain_event (e : SysEvent) : Prop :=
  match e with EvSetup c _ => plain_call c = true | _ => False end.
Definition construction_event (e : SysEvent) : Prop :=
  match e with EvSetup c _ => creates c = true \/ plain_call c = true | EvClose _ => True | _ => False end.

(** A call failed while the socket [fd] was open; nothing is open. *)
Definition fails_open (o : option Exception) (s : St X) : Prop :=
  exists name e es, o = Some (SyscallRuntimeError name e) /\
    s = mkSt x (h ++ [EvSetup CallSocket (IoOk fd)] ++ es) /\ Forall plain_event es.
Definition fails_closed (o : option Exception) (s : St X) : Prop :=
  exists name e es, o = Some (SyscallRuntimeError name e) /\ s = mkSt x (h ++ es) /\
    held es = Some [] /\ Forall construction_event es.

Lemma wp_holding_open {A} (m : M (St X) A) Q s :
  0 <= fd -> wp m Q fails_open s -> wp (holding (UniqueFd_make fd) m) Q fails_closed s.
Proof.
  intros Hfd Hm. apply wp_on_exception. eapply wp_mono; [exact Hm|done|].
  intros o s' (name & e & es & -> & -> & Hes).
  unfold wp. rewrite UniqueFd_destroy_run, close_of_valid by done.
  exists name, e. eexists. split; [done|]. split; [by rewrite <- app_assoc|]. split.
  - unfold held. rewrite <- app_assoc, !foldl_app. simpl.
    assert (foldl held_step (Some [fd]) es = Some [fd]) as ->.
    { clear Hm. induction Hes as [|[] es He _ IH]; try done. simpl. destruct r; [|done].
      by destruct call. }
    simpl. by rewrite bool_decide_eq_true_2.
  - repeat apply Forall_app_2; [repeat constructor| |by repeat constructor].
    eapply List.Forall_impl; [|exact Hes]. intros [] He; try done. by right.
Qed.
End Construct.
