(* ===== verification/BlockingTheorems.v ===== *)
(** * Properties of the blocking server and of the client

    One session of [BlockingEchoServer], one exchange of the client, and the two
    together, over a TCP connection that carries a prefix of what was sent. *)

From S2P Require Import Prelude Os Scripted UniqueFd Codec Handler Connection EpollServer ServerInvariant ServerTheorems ServerStart BlockingTcp.

(** ** Lemmas *)

Section Lemmas.
Context `{Sys : OS} {Laws : OSLaws Sys} {Short : ShortRun Sys}.

Definition constructed {X} (port : Z) (x : X) h (server : BlockingEchoServer) (st : St X) : Prop :=
  exists fd a b c p, listener_ server = UniqueFd_make fd /\ 0 <= fd /\ port_ server = ntohs p /\
    st = mkSt x (h ++ [EvSetup CallSocket (IoOk fd); EvSetup (CallReuseAddress fd) (IoOk a);
                       EvSetup (CallBind fd (LoopbackAddress port)) (IoOk b);
                       EvSetup (CallListen fd kListenBacklog) (IoOk c);
                       EvSetup (CallGetsockname fd) (IoOk p)]).

Ltac fails_here :=
  intros; do 3 eexists; split; [reflexivity|]; split;
  [rewrite <- !app_assoc; reflexivity|repeat constructor].

Lemma construct_spec {Setup : SetupLaws Sys} {X} port (x : X) h :
  wp (BlockingEchoServer_construct port) (constructed port x h) (fails_closed x h)
    (mkSt x h).
Proof.
  unfold BlockingEchoServer_construct, CreateListener, CreateIpv4Socket, BoundPort.
  apply wp_bind, wp_bind, wp_bind, wp_bind, wp_syscall. simpl.
  destruct (os_setup h CallSocket) as [fd|e] eqn:Hsock.
  2: { apply wp_throw. exists "socket"%string, e. eexists. split_and!; [done..|]. apply Forall_singleton. by left. }
  destruct (setup_fresh h CallSocket fd eq_refl Hsock) as [Hfd _].
  apply wp_ret, wp_ret, wp_holding_open; [done|].
  apply wp_bind, wp_setup; [intros a|fails_here].
  apply wp_bind, wp_setup; [intros b|fails_here].
  apply wp_bind, wp_setup; [intros c|fails_here].
  apply wp_ret, wp_holding_open; [done|].
  apply wp_bind, wp_bind, wp_setup; [|fails_here].
  intros p. apply wp_ret, wp_ret. exists fd, a, b, c, p. do 3 (split; [done|]). by rewrite <- !app_assoc.
Qed.

(** The history [es] of [ServeOne], and how it ends. *)
Definition serve_end (turns fuel : nat) (l : Z) (es : History) (r : option (option Exception)) : Prop :=
  exists waits, retries (EvAccept l (IoErr EINTR)) waits /\
  ((exists fd ios reqs tail unsent,
      session fd reqs tail unsent ios /\ session_end turns fuel fd ios reqs tail unsent r /\
      es = waits ++ [EvAccept l (IoOk fd)] ++ ios ++
             match r with Some None => [] | _ => [EvClose fd] end) \/
   (exists errno, errno <> EINTR /\ r = Some (Some (SyscallRuntimeError "accept" errno)) /\
      es = waits ++ [EvAccept l (IoErr errno)]) \/
   (r = Some None /\ es = waits /\ ~ ample fuel)).

Lemma all_received_waits l r waits : retries (EvAccept l r) waits -> all_received waits = [].
Proof. intros Hw. apply log_none. eapply List.Forall_impl; [|exact Hw]. by intros ? ->. Qed.

Lemma ServeOne_spec turns fuel this h :
  len (all_received h) < 2 ^ 64 ->
  let post r s := exists es, s = mkSt this (h ++ es) /\
    serve_end turns fuel (UniqueFd_get (listener_ this)) es r /\
    len (all_received (h ++ es)) < 2 ^ 64 in
  wp (ServeOne turns fuel) (fun _ => post None) (fun o => post (Some o)) (mkSt this h).
Proof.
  intros Hlen post. apply wp_bind, wp_get_self. simpl self.
  eapply wp_call; [apply AcceptOne_spec| |].
  2: { intros [e|] s (waits & Hw & Ho).
       - destruct Ho as (errno & -> & He & ->). eexists. split; [done|]. split.
         + exists waits. split; [done|]. right. left. by exists errno.
         + by rewrite !all_received_app, (all_received_waits _ _ waits Hw), app_nil_r.
       - destruct Ho as [-> Hen]. exists waits. split; [done|]. split.
         + exists waits. split; [done|].
           right. right. split; [done|]. split; [done|]. intros Ha. apply Hen. by apply ample_enough.
         + by rewrite all_received_app, (all_received_waits _ _ waits Hw), app_nil_r. }
  intros ? s (waits & fd & -> & Hfd & Hw & ->). apply wp_scoped; [done|].
  set (l := UniqueFd_get (listener_ this)) in *.
  assert (all_received (h ++ waits ++ [EvAccept l (IoOk fd)]) = all_received h) as Hall.
  { rewrite !all_received_app, (all_received_waits _ _ waits Hw). apply app_nil_r. }
  assert (forall ios more, len (all_received ((h ++ waits ++ [EvAccept l (IoOk fd)]) ++ ios)) < 2 ^ 64 ->
    all_received more = [] ->
    len (all_received (h ++ waits ++ [EvAccept l (IoOk fd)] ++ ios ++ more)) < 2 ^ 64) as Hmore.
  { intros ios more H Hm. rewrite <- !app_assoc in H. rewrite !all_received_app in *.
    by rewrite Hm, app_nil_r. }
  assert (forall ios reqs tail unsent r,
    session_end turns fuel fd ((h ++ waits ++ [EvAccept l (IoOk fd)]) ++ ios) reqs tail unsent r ->
    session_end turns fuel fd ios reqs tail unsent r) as Hsince.
  { intros ios reqs tail unsent r H. apply (session_end_since turns fuel fd (h ++ waits) (EvAccept l (IoOk fd)));
      [by intros [[]|[]]|]. by rewrite <- !app_assoc in *. }
  eapply wp_mono; [apply ServeClient_spec; by rewrite Hall| |].
  - intros _ s (ios & reqs & tail & unsent & -> & Hs & Hend%Hsince & Hlast).
    exists (waits ++ [EvAccept l (IoOk fd)] ++ ios ++ [EvClose fd]). split; [by simpl; rewrite <- !app_assoc|].
    split; [|by apply Hmore]. exists waits. split; [done|]. left. by exists fd, ios, reqs, tail, unsent.
  - intros [e|] s (ios & reqs & tail & unsent & -> & Hs & Hend%Hsince & Hlast).
    + exists (waits ++ [EvAccept l (IoOk fd)] ++ ios ++ [EvClose fd]). split; [by simpl; rewrite <- !app_assoc|].
      split; [|by apply Hmore]. exists waits. split; [done|]. left. by exists fd, ios, reqs, tail, unsent.
    + exists (waits ++ [EvAccept l (IoOk fd)] ++ ios ++ []). split; [by rewrite app_nil_r, <- !app_assoc|].
      split; [|by apply Hmore]. exists waits. split; [done|]. left. by exists fd, ios, reqs, tail, unsent.
Qed.
End Lemmas.

(** The session with the client accepted on [fs]. *)
Lemma serve_end_session `{Sys : OS} turns fuel l es o fs :
  serve_end turns fuel l es o -> EvAccept l (IoOk fs) ∈ es ->
  exists reqs tail unsent, Forall valid_message reqs /\
    received_of fs es = frames reqs ++ tail /\ sent_of fs es ++ unsent = frames (respond_spec <$> reqs).
Proof.
  intros (waits & Hw & Hend) Hfs.
  assert (forall r, EvAccept l (IoOk r) ∈ waits -> False) as Hno.
  { intros r Hr. pose proof (proj1 (list.Forall_forall _ _) Hw _ Hr) as H. discriminate H. }
  destruct Hend as [(fd & ios & reqs & tail & unsent & (Hios & Hv & Hr & Hs) & _ & ->)
    |[(errno & _ & _ & ->)|(_ & -> & _)]].
  - assert (fs = fd) as ->.
    { rewrite !elem_of_app, list_elem_of_singleton in Hfs. destruct Hfs as [H|[[= ->]|[H|H]]]; [|done|..].
      - by apply Hno in H.
      - pose proof (proj1 (list.Forall_forall _ _) Hios _ H) as H'. by destruct H'.
      - destruct o as [[]|]; set_solver. }
    exists reqs, tail, unsent. split; [done|].
    assert (forall id, received_of id waits = [] /\ sent_of id waits = []) as Hsilent.
    { intros id. split; apply log_none; (eapply List.Forall_impl; [|exact Hw]); by intros ? ->. }
    destruct (Hsilent fd) as [Hr1 Hs1]. rewrite !received_of_app, !sent_of_app, Hr1, Hs1, <- Hr, <- Hs.
    destruct o as [[]|]; simpl; by rewrite !app_nil_r.
  - apply elem_of_app in Hfs as [H|H]; [by apply Hno in H|set_solver].
  - by apply Hno in Hfs.
Qed.

(** A client that reads one frame of a prefix of the responses to a prefix of
    its one request reads the response to that request. *)
Lemma response_determined request m got more tail unsent :
  valid_message request -> valid_message m -> Forall valid_message got ->
  frames got ++ tail = frame request -> frame m ++ more ++ unsent = frames (respond_spec <$> got) ->
  m = respond_spec request.
Proof.
  intros Hreq Hm Hgot Hfr Hresp.
  destruct (frames_split got [request] tail Hgot) as (k & Hk & _).
  { by apply Forall_singleton. }
  { by rewrite Hfr, frames_cons, frames_nil, app_nil_r. }
  destruct got as [|g got].
  { exfalso. apply (f_equal len) in Hresp. rewrite !len_app, len_frame in Hresp.
    change (len (frames (respond_spec <$> []))) with 0 in Hresp. unfold kHeaderSize in Hresp.
    pose proof (len_nonneg (payload m)). pose proof (len_nonneg more). pose proof (len_nonneg unsent). lia. }
  injection Hk as <- Hk. symmetry in Hk. apply app_nil in Hk as [-> _].
  destruct (frames_split [m] [respond_spec request] (more ++ unsent)) as (k' & Hk' & _).
  - by apply Forall_singleton.
  - apply Forall_singleton. by apply respond_spec_valid.
  - simpl in Hresp. rewrite <- Hresp. by rewrite frames_cons, frames_nil, app_nil_r.
  - by injection Hk' as ->.
Qed.

(** 127.0.0.1 and a port, in memory. *)
Example loopback_9000 :
  LoopbackAddress 9000 = {| sin_family := 2; sin_port := 0x2823; sin_addr := 0x0100007F |} /\
  (forall port, is_u16 port -> ntohs (sin_port (LoopbackAddress port)) = port).
Proof. split; [reflexivity|]. intros port. apply ntohs_htons. Qed.

(** ** Properties *)

Section Properties.
Context `{Sys : OS} {Laws : OSLaws Sys} {Short : ShortRun Sys} {Setup : SetupLaws Sys}.

(** The constructor of the blocking server creates a socket, binds it to the
    loopback address, listens on it, and reports the port the kernel bound it to, or
    it throws and has closed the socket it created; it has no other outcome. *)
Theorem blocking_server_starts {X} port (x : X) h :
  match BlockingEchoServer_construct port (mkSt x h) with
  | (Return server, st) => constructed port x h server st
  | (Throw (SyscallRuntimeError _ _), st) => exists es, st = mkSt x (h ++ es) /\ held es = Some []
  | _ => False
  end.
Proof.
  pose proof (construct_spec port x h) as H. unfold wp in H.
  destruct (BlockingEchoServer_construct _ _) as [[server|e| |] st]; [done| |done|].
  - destruct H as (name & e' & es & [= ->] & -> & Hes & _). by exists es.
  - by destruct H as (name & e & es & ? & _).
Qed.

(** C16.  One call of [ServeOne]: after [accept] calls that were interrupted, it
    either fails with the error of [accept] or serves exactly one client.  What
    it received from the client is the frames of valid requests [reqs] and a
    rest; what it sent is the responses of the response table to [reqs], in
    order, in full if it returns (the rest then holds no further request) and up
    to the bytes [unsent] if a call failed.  The client's socket is closed
    whenever it returns or throws.  It has no undefined behaviour, and it runs
    out of fuel only after serving [turns] requests, or if the calls may be
    interrupted more often than the fuel allows for. *)
Theorem blocking_serve_one turns fuel this h r s' :
  len (all_received h) < 2 ^ 64 ->
  ServeOne turns fuel (mkSt this h) = (r, s') ->
  exists es, s' = mkSt this (h ++ es) /\
  match r with
  | Return _ => serve_end turns fuel (UniqueFd_get (listener_ this)) es None
  | Throw e => serve_end turns fuel (UniqueFd_get (listener_ this)) es (Some (Some e))
  | OutOfFuel => serve_end turns fuel (UniqueFd_get (listener_ this)) es (Some None)
  | Undefined => False
  end.
Proof.
  intros Hlen Hrun. pose proof (wp_run _ _ _ _ _ _ (ServeOne_spec turns fuel this h Hlen) Hrun) as H.
  destruct r; try done; destruct H as (es & Hes & Hend & _); by exists es.
Qed.

(** C17.  One exchange of the client.  Unless [socket] fails it creates one socket
    and closes it in every outcome; it connects to the host and the port given only,
    in network byte order.  If it returns [m], it has sent exactly the frame of the
    request and [m] is the first frame it received; if it throws, it has sent a
    prefix of that frame, and the exception is determined by what happened
    ([client_failure]): the error of [connect], [send] or [recv] only if the last
    call on the socket is that call with that error; "wrote zero bytes" only after a
    [send] that accepted none; an invalid address only if [inet_pton] refuses it,
    and before any call; a closed connection only if the last call is a [recv] of
    nothing and no whole frame had arrived; a protocol error only if what had
    arrived is malformed.  It has no
    undefined behaviour, and it runs out of fuel only if calls may be interrupted
    more often than the fuel allows for. *)
Theorem client_request_exact {X} inet_pton fuel host port request (x : X) h r s' :
  valid_message request -> len (all_received h) < 2 ^ 64 ->
  SendRequestAndReadResponse inet_pton fuel host port request (mkSt x h) = (r, s') ->
  match r with
  | Return m => client_post inet_pton fuel host port request x h (inr m) s'
  | Throw e => client_post inet_pton fuel host port request x h (inl (Some e)) s'
  | OutOfFuel => client_post inet_pton fuel host port request x h (inl None) s'
  | Undefined => False
  end.
Proof.
  intros Hreq Hlen Hrun. pose proof (wp_run _ _ _ _ _ _
    (SendRequestAndReadResponse_spec inet_pton fuel host port request x h Hreq Hlen) Hrun) as H.
  destruct r; [exact H|exact H|done|exact H].
Qed.
End Properties.

(** ** Client and server together *)

(** A returned exchange that started with an empty history. *)
Lemma client_post_returned `{SysC : OS} {X} inet_pton fuel host port request (x : X) m st fc :
  client_post inet_pton fuel host port request x [] (inr m) st -> created_fds (hist st) = [fc] ->
  valid_message m /\ sent_of fc (hist st) = frame request /\
  exists more, received_of fc (hist st) = frame m ++ more.
Proof.
  intros [(? & ? & _)|(fd & es & unsent & (cs & ios & -> & Hcs & Hios) & Hsent & -> & Hm & Hrec & ->)] Hfc;
    [done|]. simpl hist in *.
  assert (created_fds ((cs ++ ios) ++ [EvClose fd]) = []) as Hnone.
  { apply log_none. apply Forall_app_2; [apply Forall_app_2|by repeat constructor].
    - eapply List.Forall_impl; [|exact Hcs]. by intros [].
    - eapply List.Forall_impl; [|exact Hios]. by intros [] [H|H]. }
  change (fd :: created_fds ((cs ++ ios) ++ [EvClose fd]) = [fc]) in Hfc. rewrite Hnone in Hfc.
  injection Hfc as ->. split; [done|].
  assert (forall es, sent_of fc ([EvSetup CallSocket (IoOk fc)] ++ es ++ [EvClose fc]) = sent_of fc es /\
    received_of fc ([EvSetup CallSocket (IoOk fc)] ++ es ++ [EvClose fc]) = received_of fc es) as Hwrap.
  { intros es. rewrite !sent_of_app, !received_of_app. split; apply app_nil_r. }
  destruct (Hwrap (cs ++ ios)) as [Hws Hwr]. rewrite app_nil_r in Hsent. split; [exact (eq_trans Hws Hsent)|].
  destruct Hrec as [more Hrec]. exists more. exact (eq_trans Hwr Hrec).
Qed.

(** C15.  Client and blocking server, end to end.  The server serves one client
    with [ServeOne], in whatever way that ends; a client sends it one request.
    If the connection between the client's socket [fc] and the server's [fs]
    carries bytes in order (each end has received a prefix of what the other has
    sent), then the response that the client returns is the one that the
    response table gives for its request. *)
Theorem blocking_end_to_end
    `{SysC : OS} `{!OSLaws SysC} `{!ShortRun SysC} `{!SetupLaws SysC}
    `{SysS : OS} `{!OSLaws SysS} `{!ShortRun SysS} {X}
    inet_pton fuelc host port request (x : X) m stc fc turns fuels this hs r es fs :
  valid_message request -> len (all_received hs) < 2 ^ 64 ->
  SendRequestAndReadResponse (Sys := SysC) inet_pton fuelc host port request (mkSt x []) = (Return m, stc) ->
  ServeOne (Sys := SysS) turns fuels (mkSt this hs) = (r, mkSt this (hs ++ es)) ->
  created_fds (hist stc) = [fc] -> EvAccept (UniqueFd_get (listener_ this)) (IoOk fs) ∈ es ->
  received_of fs es `prefix_of` sent_of fc (hist stc) ->
  received_of fc (hist stc) `prefix_of` sent_of fs es ->
  m = respond_spec request.
Proof.
  intros Hreq Hlen Hclient Hserver Hfc Hfs [tail Hup] [unsent Hdown].
  pose proof (wp_run _ _ _ _ _ _ (SendRequestAndReadResponse_spec (Sys := SysC)
    inet_pton fuelc host port request x [] Hreq ltac:(done)) Hclient) as Hpost.
  destruct (client_post_returned _ _ _ _ _ _ _ _ _ Hpost Hfc) as (Hm & Hsent & more & Hrec).
  assert (exists o, serve_end turns fuels (UniqueFd_get (listener_ this)) es o) as [o Hend].
  { pose proof (wp_run _ _ _ _ _ _ (ServeOne_spec turns fuels this hs Hlen) Hserver) as H.
    destruct r; [destruct H as (es' & [= <-%app_inv_head] & H & _)|destruct H as (es' & [= <-%app_inv_head] & H & _)
      |done|destruct H as (es' & [= <-%app_inv_head] & H & _)]; by eexists. }
  destruct (serve_end_session _ _ _ _ _ _ Hend Hfs) as (got & rest & un & Hgot & Hr & Hs).
  apply (response_determined request m got more (rest ++ tail) (unsent ++ un) Hreq Hm Hgot).
  - by rewrite app_assoc, <- Hr, <- Hup.
  - by rewrite <- Hs, Hdown, Hrec, <- !app_assoc.
Qed.

(** The epoll server, with its default handler, at any point of any run, and a
    client that is at the other end of its connection [id]. *)
Lemma epoll_answers_client
    `{SysS : OS} `{!OSLaws SysS} `{!ShortRun SysS} `{!EpollLaws SysS}
    `{Env : Environment} `{!EnvironmentLaws Env}
    request m more sent received fuel cfg turns st r st' id :
  valid_message request -> valid_message m -> sent = frame request -> received = frame m ++ more ->
  config_wf cfg -> limits_wf (cfg_limits cfg) -> fresh_server cfg st ->
  Run default_handler fuel turns st = (r, st') ->
  received_of id (hist st') `prefix_of` sent -> received `prefix_of` sent_of id (hist st') ->
  m = respond_spec request.
Proof.
  intros Hreq Hm -> -> Hcfg Hlim Hfresh Hrun [tail Hup] [unsent Hdown].
  destruct (Run_streams default_handler fuel cfg turns st r st' id Hcfg Hlim Hfresh Hrun)
    as (got & rest & un & Hr & Hgot & _ & Hs).
  rewrite answers_default in Hs by done.
  apply (response_determined request m got more (rest ++ tail) (unsent ++ un) Hreq Hm Hgot).
  - by rewrite app_assoc, <- Hr, <- Hup.
  - by rewrite Hs, Hdown, <- !app_assoc.
Qed.

(** ** Witnesses

    The client sends a work request, in two parts with an interruption between
    them; the server receives it in two parts, answers, and sees the connection
    closed. *)

Definition sample_inet_pton (host : string) : option Z :=
  if bool_decide (host = "127.0.0.1"%string) then Some 0x7F000001 else None.

Definition client_world : Script :=
  {| script_interrupts := 1; script_recv := [IoOk (ztake 9 (frame (respond_spec sample_work)));
                                             IoOk (zdrop 9 (frame (respond_spec sample_work)))];
     script_send := [IoOk 6; IoErr EINTR]; script_accept := []; script_wait := []; script_setup := [] |}.

Definition server_world : Script :=
  {| script_interrupts := 1; script_recv := [IoOk (ztake 3 (frame sample_work));
                                             IoOk (zdrop 3 (frame sample_work)); IoOk []];
     script_send := []; script_accept := [IoErr EINTR; IoOk 7]; script_wait := []; script_setup := [] |}.

(** A client that closes in the middle of its request. *)
Definition broken_world : Script :=
  {| script_interrupts := 0; script_recv := [IoOk (ztake 3 (frame sample_work)); IoErr ECONNRESET];
     script_send := []; script_accept := [IoOk 7]; script_wait := []; script_setup := [] |}.

Definition sample_blocking : BlockingEchoServer := {| listener_ := UniqueFd_make 3; port_ := 9000 |}.

Abbreviation client_run := (SendRequestAndReadResponse (Sys := scripted client_world) sample_inet_pton 10
  "127.0.0.1" 9000 sample_work (mkSt tt [])).
Abbreviation server_run w := (ServeOne (Sys := scripted w) 5 10 (mkSt sample_blocking [])).

Lemma client_run_returns : fst client_run = Return (respond_spec sample_work).
Proof. by_compute. Qed.

Lemma client_run_eq : client_run = (Return (respond_spec sample_work), snd client_run).
Proof. rewrite <- client_run_returns. apply surjective_pairing. Qed.

Lemma server_run_eq : server_run server_world =
  (Return tt, mkSt sample_blocking ([] ++ hist (snd (server_run server_world)))).
Proof. vm_compute. reflexivity. Qed.

Lemma sample_work_valid : valid_message sample_work.
Proof. by_decide. Qed.

(** The kernel refuses the port. *)
Definition port_in_use : Script :=
  {| script_interrupts := 0; script_recv := []; script_send := []; script_accept := [];
     script_wait := []; script_setup := [IoOk 3; IoOk 0; IoErr 98] |}.

Lemma blocking_server_starts_witness :
  let run := BlockingEchoServer_construct (Sys := scripted port_in_use) 9000 (mkSt tt []) in
  fst run = Throw (SyscallRuntimeError "bind" 98) /\
  exists es, snd run = mkSt tt ([] ++ es) /\ held es = Some [].
Proof.
  pose proof (blocking_server_starts (Sys := scripted port_in_use) 9000 tt []) as H. cbv zeta.
  assert (fst (BlockingEchoServer_construct (Sys := scripted port_in_use) 9000 (mkSt tt []))
    = Throw (SyscallRuntimeError "bind" 98)) as Hr by by_compute.
  split; [exact Hr|]. destruct (BlockingEchoServer_construct _ _) as [r st]. cbn [fst snd] in *.
  rewrite Hr in H. exact H.
Defined.

Lemma blocking_serve_one_witness :
  fst (server_run broken_world) = Throw (SyscallRuntimeError "recv" ECONNRESET) /\
  exists es, snd (server_run broken_world) = mkSt sample_blocking ([] ++ es) /\
    serve_end (Sys := scripted broken_world) 5 10 3 es (Some (Some (SyscallRuntimeError "recv" ECONNRESET))) /\ closed_fds es = [7].
Proof.
  assert (fst (server_run broken_world) = Throw (SyscallRuntimeError "recv" ECONNRESET)) as Hr by by_compute.
  assert (closed_fds (hist (snd (server_run broken_world))) = [7]) as Hc by by_compute.
  split; [exact Hr|].
  pose proof (blocking_serve_one (Sys := scripted broken_world) 5 10 sample_blocking [] _ _
    ltac:(by_compute) (surjective_pairing (server_run broken_world))) as (es & Hes & H).
  rewrite Hr in H. rewrite Hes in Hc. exists es. split; [exact Hes|]. split; [exact H|exact Hc].
Defined.

Lemma client_request_exact_witness :
  fst client_run = Return (respond_spec sample_work) /\
  client_post (Sys := scripted client_world) sample_inet_pton 10 "127.0.0.1" 9000 sample_work tt []
    (inr (respond_spec sample_work)) (snd client_run).
Proof.
  split; [exact client_run_returns|].
  exact (client_request_exact (Sys := scripted client_world) sample_inet_pton 10 "127.0.0.1" 9000 sample_work
    tt [] (Return (respond_spec sample_work)) (snd client_run) sample_work_valid ltac:(by_compute) client_run_eq).
Defined.

Lemma blocking_end_to_end_witness :
  exists m st, client_run = (Return m, st) /\ m = respond_spec sample_work.
Proof.
  eexists _, _. split; [exact client_run_eq|].
  refine (blocking_end_to_end (SysC := scripted client_world) (SysS := scripted server_world)
    sample_inet_pton 10 "127.0.0.1" 9000 sample_work tt _ (snd client_run) 3 5 10 sample_blocking [] (Return tt)
    (hist (snd (server_run server_world))) 7 sample_work_valid ltac:(by_compute) client_run_eq server_run_eq
    _ _ _ _).
  - by_compute.
  - apply (list_elem_of_lookup_2 _ 1). by_compute.
  - by_decide.
  - by_decide.
Defined.
