(* ===== verification/SignalMask.v ===== *)
(** * The signal mask of a server, and its moves

    [ShutdownSignalMaskState] of [network/epoll_echo_server] as a class: it holds
    the mask to restore while it is active.  Move construction and assignment work
    on two objects that may be the same one, so there is a store of objects by
    address, as for [UniqueFd]. *)

From S2P Require Import Prelude Os Scripted ServerStart.

Abbreviation Masks := (gmap Z ShutdownSignalMaskState).

Section Operations.
Context `{Sys : OS}.

Definition mask_at (this : Z) : M (St Masks) ShutdownSignalMaskState :=
  o ← get_self; the (o !! this).
Definition set_mask (this : Z) (m : ShutdownSignalMaskState) : M (St Masks) unit :=
  o ← get_self; put_self (<[this := m]> o).

Definition deactivated (m : ShutdownSignalMaskState) : ShutdownSignalMaskState :=
  {| previous_mask := previous_mask m; active := false |}.

Definition Restore_at (this : Z) : M (St Masks) unit :=
  m ← mask_at this; m' ← Restore m; set_mask this m'.

(** The destructor. *)
Definition mask_destroy (this : Z) : M (St Masks) unit :=
  Restore_at this ;;
  o ← get_self; put_self (delete this o).

Definition mask_move_construct (this other : Z) : M (St Masks) unit :=
  m ← mask_at other;
  set_mask this {| previous_mask := previous_mask m; active := active m |} ;;
  m ← mask_at other;
  set_mask other (deactivated m).

(** One member after the other, as the objects might be the same one. *)
Definition mask_move_assign (this other : Z) : M (St Masks) unit :=
  if this =? other then mret tt else
  Restore_at this ;;
  m ← mask_at this; m' ← mask_at other;
  set_mask this {| previous_mask := previous_mask m'; active := active m |} ;;
  m ← mask_at this; m' ← mask_at other;
  set_mask this {| previous_mask := previous_mask m; active := active m' |} ;;
  m' ← mask_at other;
  set_mask other (deactivated m').

(** ** A client of the class *)

(** An object is made from the result of [BlockShutdownSignals], or by default. *)
Inductive MaskOp : Type :=
| MaskConstruct (this : Z) (m : ShutdownSignalMaskState)
| MaskMoveConstruct (this other : Z)
| MaskMoveAssign (this other : Z)
| MaskRestore (this : Z)
| MaskDestroy (this : Z).

Definition mask_op_run (op : MaskOp) : M (St Masks) unit :=
  match op with
  | MaskConstruct this m => set_mask this m
  | MaskMoveConstruct this other => mask_move_construct this other
  | MaskMoveAssign this other => mask_move_assign this other
  | MaskRestore this => Restore_at this
  | MaskDestroy this => mask_destroy this
  end.

Definition mask_op_ok (o : Masks) (op : MaskOp) : Prop :=
  match op with
  | MaskConstruct this _ => o !! this = None
  | MaskMoveConstruct this other => o !! this = None /\ is_Some (o !! other)
  | MaskMoveAssign this other => is_Some (o !! this) /\ is_Some (o !! other)
  | MaskRestore this | MaskDestroy this => is_Some (o !! this)
  end.

Fixpoint mask_ops_run (ops : list MaskOp) : M (St Masks) unit :=
  match ops with [] => mret tt | op :: ops => mask_op_run op ;; mask_ops_run ops end.

Fixpoint mask_ops_ok (ops : list MaskOp) (s : St Masks) : Prop :=
  match ops with
  | [] => True
  | op :: ops => mask_op_ok (self s) op /\ mask_ops_ok ops (mask_op_run op s).2
  end.

(** ** Accounting *)

(** The masks to restore: of one object, of all, those the client handed in, and
    those restored. *)
Definition to_restore (m : ShutdownSignalMaskState) : list (gset Z) :=
  if active m then [previous_mask m] else [].
Definition to_restore_all (o : Masks) : list (gset Z) := map_to_list o ≫= (fun p => to_restore p.2).
Definition handed_in (ops : list MaskOp) : list (gset Z) :=
  ops ≫= (fun op => match op with MaskConstruct _ m => to_restore m | _ => [] end).
Definition restored_masks : History -> list (gset Z) :=
  log (fun e => match e with EvSetup (CallSigSetmask m) _ => [m] | _ => [] end).

Lemma to_restore_insert o this m :
  o !! this = None -> to_restore_all (<[this := m]> o) ≡ₚ to_restore m ++ to_restore_all o.
Proof. intros H. unfold to_restore_all. by rewrite map_to_list_insert. Qed.

Lemma to_restore_delete o this m :
  o !! this = Some m -> to_restore m ++ to_restore_all (delete this o) ≡ₚ to_restore_all o.
Proof.
  intros H. rewrite <- (to_restore_insert _ this) by apply lookup_delete_eq.
  by rewrite insert_delete_id.
Qed.

Lemma to_restore_update o this m m' :
  o !! this = Some m ->
  to_restore m ++ to_restore_all (<[this := m']> o) ≡ₚ to_restore m' ++ to_restore_all o.
Proof.
  intros H. rewrite <- insert_delete_eq, to_restore_insert by apply lookup_delete_eq.
  rewrite <- (to_restore_delete o this m H). solve_Permutation.
Qed.

Lemma mask_at_run (o : Masks) h this m :
  o !! this = Some m -> mask_at this (mkSt o h) = (Return m, mkSt o h).
Proof. intros H. unfold mask_at, mbind, M_bind, get_self, gets. simpl. by rewrite H. Qed.

Lemma Restore_at_run o h this m :
  o !! this = Some m ->
  exists es, Restore_at this (mkSt o h) = (Return tt, mkSt (<[this := deactivated m]> o) (h ++ es)) /\
    restored_masks es = to_restore m.
Proof.
  intros H. unfold Restore_at, mask_at, set_mask, Restore, to_restore, mbind, M_bind, get_self, gets. simpl.
  rewrite H. simpl. destruct m as [p []]; simpl; eexists; (split; [|]).
  - reflexivity.
  - done.
  - by rewrite app_nil_r.
  - done.
Qed.

(** What is to be restored, plus what was, only grows by what is handed in. *)
Definition accounted_step (o : Masks) (h : History) (given : list (gset Z)) (x : Result unit * St Masks) : Prop :=
  exists o' es, x = (Return tt, mkSt o' (h ++ es)) /\
    to_restore_all o' ++ restored_masks es ≡ₚ to_restore_all o ++ given.

Lemma Restore_at_step o h this m :
  o !! this = Some m -> accounted_step o h [] (Restore_at this (mkSt o h)).
Proof.
  intros H. destruct (Restore_at_run o h this m H) as (es & Hrun & Hes). eexists _, es. split; [exact Hrun|].
  rewrite Hes, app_nil_r. pose proof (to_restore_update o this m (deactivated m) H) as Hu.
  rewrite Permutation_app_comm. exact Hu.
Qed.

(** A move: the responsibility goes from [other] to [this], which had none. *)
Lemma moved o this other m m' :
  this <> other -> o !! other = Some m -> o !! this = Some (deactivated m') ->
  to_restore_all (<[other := deactivated m]> (<[this := m]> o)) ≡ₚ to_restore_all o.
Proof.
  intros Hne Ho Ht.
  pose proof (to_restore_update o this (deactivated m') m Ht) as H1.
  pose proof (to_restore_update (<[this := m]> o) other m (deactivated m)) as H2.
  rewrite lookup_insert_ne in H2 by done. specialize (H2 Ho). simpl in H1, H2.
  rewrite H1 in H2. by apply Permutation_app_inv_l in H2.
Qed.

Lemma mask_move_construct_step o h this other m :
  o !! this = None -> o !! other = Some m ->
  accounted_step o h [] (mask_move_construct this other (mkSt o h)).
Proof.
  intros Ht Ho. assert (this <> other) by congruence.
  exists (<[other := deactivated m]> (<[this := m]> o)), []. split.
  - unfold mask_move_construct. erewrite bind_return by by apply mask_at_run.
    erewrite bind_return by reflexivity. simpl.
    erewrite bind_return by (apply mask_at_run; by rewrite lookup_insert_ne).
    unfold set_mask, mbind, M_bind, get_self, gets, put_self, modify. simpl. rewrite app_nil_r. by destruct m.
  - rewrite !app_nil_r. pose proof (to_restore_insert o this m Ht) as H1.
    pose proof (to_restore_update (<[this := m]> o) other m (deactivated m)) as H2.
    rewrite lookup_insert_ne in H2 by done. specialize (H2 Ho). simpl in H2.
    rewrite H1 in H2. by apply Permutation_app_inv_l in H2.
Qed.

Lemma mask_move_assign_step o h this other m m' :
  o !! this = Some m -> o !! other = Some m' ->
  accounted_step o h [] (mask_move_assign this other (mkSt o h)).
Proof.
  intros Ht Ho. unfold mask_move_assign. destruct (Z.eqb_spec this other) as [|Hne].
  { exists o, []. by rewrite !app_nil_r. }
  destruct (Restore_at_run o h this m Ht) as (es & Hrun & Hes). set (o1 := <[this := deactivated m]> o) in *.
  assert (o1 !! this = Some (deactivated m)) as Ht1 by apply lookup_insert_eq.
  assert (o1 !! other = Some m') as Ho1 by (unfold o1; by rewrite lookup_insert_ne).
  exists (<[other := deactivated m']> (<[this := m']> o1)), es. split.
  - erewrite bind_return by exact Hrun. erewrite bind_return by by apply mask_at_run.
    erewrite bind_return by by apply mask_at_run. erewrite bind_return by reflexivity. simpl.
    erewrite bind_return by apply mask_at_run, lookup_insert_eq.
    erewrite bind_return by (apply mask_at_run; by rewrite lookup_insert_ne).
    erewrite bind_return by reflexivity. simpl.
    erewrite bind_return by (apply mask_at_run; by rewrite !lookup_insert_ne).
    unfold set_mask. simpl. unfold mbind, M_bind, get_self, gets, put_self, modify. simpl.
    rewrite insert_insert_eq. by destruct m'.
  - rewrite (moved o1 this other m' m) by done. rewrite Hes, app_nil_r.
    pose proof (to_restore_update o this m (deactivated m) Ht) as Hu. rewrite Permutation_app_comm. exact Hu.
Qed.

Lemma mask_destroy_step o h this m :
  o !! this = Some m -> accounted_step o h [] (mask_destroy this (mkSt o h)).
Proof.
  intros H. destruct (Restore_at_run o h this m H) as (es & Hrun & Hes).
  exists (delete this o), es. split.
  - unfold mask_destroy. erewrite bind_return by exact Hrun.
    unfold mbind, M_bind, get_self, gets, put_self, modify. simpl. by rewrite delete_insert_eq.
  - rewrite Hes, app_nil_r, Permutation_app_comm. by apply to_restore_delete.
Qed.

Lemma mask_op_step op o h :
  mask_op_ok o op -> accounted_step o h (handed_in [op]) (mask_op_run op (mkSt o h)).
Proof.
  destruct op as [this m|this other|this other|this|this]; simpl.
  - intros H. exists (<[this := m]> o), []. rewrite !app_nil_r. split; [done|].
    rewrite to_restore_insert by done. apply Permutation_app_comm.
  - intros [Ht [m Ho]]. by eapply mask_move_construct_step.
  - intros [[m Ht] [m' Ho]]. by eapply mask_move_assign_step.
  - intros [m H]. by eapply Restore_at_step.
  - intros [m H]. by eapply mask_destroy_step.
Qed.

(** Every mask that was blocked is restored once: for every sequence of moves
    (self-assignment included), restorations and destructions of live objects
    nothing is undefined, and each mask handed in is either still to be restored
    by exactly one object or was restored exactly once.  When all the objects are
    gone, exactly the masks handed in were restored. *)
Theorem masks_restored_once ops h :
  mask_ops_ok ops (mkSt ∅ h) ->
  exists o es, mask_ops_run ops (mkSt ∅ h) = (Return tt, mkSt o (h ++ es)) /\
    to_restore_all o ++ restored_masks es ≡ₚ handed_in ops /\
    (o = ∅ -> restored_masks es ≡ₚ handed_in ops).
Proof.
  intros Hok.
  assert (exists o es, mask_ops_run ops (mkSt ∅ h) = (Return tt, mkSt o (h ++ es)) /\
    to_restore_all o ++ restored_masks es ≡ₚ to_restore_all ∅ ++ handed_in ops) as (o & es & Hrun & Hp).
  { revert h Hok. generalize (∅ : Masks) as o. induction ops as [|op ops IH]; intros o h Hok.
    - exists o, []. by rewrite !app_nil_r.
    - destruct Hok as [Hop Hok]. destruct (mask_op_step op o h Hop) as (o1 & es1 & Hrun1 & Hp1).
      simpl in Hok. rewrite Hrun1 in Hok. destruct (IH o1 (h ++ es1) Hok) as (o2 & es2 & Hrun2 & Hp2).
      exists o2, (es1 ++ es2). split.
      + simpl. erewrite bind_return by exact Hrun1. by rewrite Hrun2, app_assoc.
      + assert (restored_masks (es1 ++ es2) = restored_masks es1 ++ restored_masks es2) as -> by apply log_app.
        assert (handed_in (op :: ops) = handed_in [op] ++ handed_in ops) as ->
          by (unfold handed_in; by rewrite <- bind_app).
        trans (restored_masks es1 ++ (to_restore_all o2 ++ restored_masks es2)); [solve_Permutation|].
        rewrite Hp2, app_assoc, (Permutation_app_comm (restored_masks es1)), Hp1. by rewrite <- app_assoc. }
  exists o, es. split; [done|]. split; [exact Hp|]. by intros ->.
Qed.
End Operations.

(** A system in which nothing is ever ready. *)
Definition empty_script : Script := {|
  script_interrupts := 0; script_recv := []; script_send := []; script_accept := [];
  script_wait := []; script_setup := [];
|}.

(** A default object takes over the mask that another restores, is assigned to
    itself, moves on to a third, and all are destroyed. *)
Definition sample_mask : gset Z := {[15]}.
Definition sample_mask_ops : list MaskOp :=
  [MaskConstruct 1 {| previous_mask := sample_mask; active := true |};
   MaskConstruct 2 ShutdownSignalMaskState_default;
   MaskMoveAssign 2 1; MaskMoveAssign 2 2; MaskMoveConstruct 3 2; MaskDestroy 1; MaskRestore 3; MaskDestroy 3;
   MaskDestroy 2].

Lemma masks_restored_once_witness :
  exists es, mask_ops_run (Sys := scripted empty_script) sample_mask_ops (mkSt ∅ []) = (Return tt, mkSt ∅ es) /\
    restored_masks es ≡ₚ [sample_mask].
Proof.
  assert (mask_ops_ok (Sys := scripted empty_script) sample_mask_ops (mkSt ∅ [])) as Hok.
  { vm_compute. split_and!; try done; by eexists. }
  destruct (masks_restored_once (Sys := scripted empty_script) sample_mask_ops [] Hok) as (o & es & Hrun & _ & H).
  assert (o = ∅) as ->.
  { assert (self (snd (mask_ops_run (Sys := scripted empty_script) sample_mask_ops (mkSt ∅ []))) = ∅) as He
      by (vm_compute; reflexivity).
    rewrite Hrun in He. exact He. }
  exists es. split; [exact Hrun|]. by apply H.
Defined.
