(* ===== verification/ServerLife.v ===== *)
(** * The whole life of a server

    [~EpollEchoServer], and what is left after a server was built, run and
    destroyed. *)

From S2P Require Import Prelude Os Scripted UniqueFd Codec Handler BoundedQueue WorkerPool.
From S2P Require Import Connection ConnectionRegistry EpollServer ServerFrame ServerInvariant.
From S2P Require Import ServerProofs ServerTheorems ServerStart.

Section Destroy.
Context `{Sys : OS} `{Env : Environment} (handler_ : WorkHandler) (fuel : nat).

Abbreviation Server := (M (St EpollEchoServer)).

(** [join] returns when the thread has ended; other threads run meanwhile. *)
Fixpoint join_workers (n : nat) : Server unit :=
  this ← get_self;
  if Stop_joined (worker_pool_ this) then mret tt else
  match n with
  | O => out_of_fuel
  | S n => yield handler_ fuel ;; join_workers n
  end.

Definition WorkerPool_Stop : Server unit :=
  this ← get_self;
  put_self (set_pool (Stop_close (worker_pool_ this)) this) ;;
  join_workers fuel.

Definition WorkerPool_destroy : Server unit := WorkerPool_Stop.

Fixpoint destroy_all (cs : list (Z * Connection)) : Server unit :=
  match cs with
  | [] => mret tt
  | (_, c) :: cs => UniqueFd_destroy (socket_ c) ;; destroy_all cs
  end.

(** The destructor of the registry's map (in some order). *)
Definition destroy_connections : Server unit :=
  this ← get_self;
  destroy_all (map_to_list (live this)) ;;
  this ← get_self;
  put_self (set_live ∅ this).

(** The body, then the members in the opposite order of their declaration; the
    destructor of the pool stops it again. *)
Definition EpollEchoServer_destroy (signal_mask_state : ShutdownSignalMaskState) : Server unit :=
  Stop fuel ;;
  WorkerPool_Stop ;;
  signal_mask_state ← Restore signal_mask_state;
  WorkerPool_destroy ;;
  destroy_connections ;;
  this ← get_self;
  UniqueFd_destroy (shutdown_signal_ this) ;;
  UniqueFd_destroy (worker_wakeup_ this) ;;
  signal_mask_state ← Restore signal_mask_state;
  UniqueFd_destroy (epoll_ this) ;;
  UniqueFd_destroy (listener_ this).
End Destroy.

(** ** What the destructor relies on *)

Section Proofs.
Context `{Sys : OS} {Setup : SetupLaws Sys} `{Env : Environment}.
Context (handler_ : WorkHandler) {Hok : HandlerOk handler_} (fuel : nat).

Abbreviation Server := (M (St EpollEchoServer)).

(** Accepted sockets belong to live connections, and the pool is sound. *)
Definition tidy (st : St EpollEchoServer) : Prop := owned st /\ sound st.

Lemma safe_tidy st : safe handler_ st -> tidy st.
Proof. by intros [_ H]. Qed.

Lemma tidy_step s s' h e :
  tidy (mkSt s h) -> match e with EvWriteCounter _ _ | EvYield | EvSetup _ _ => True | _ => False end ->
  registry_ s' = registry_ s ->
  Forall (fun item => valid_message (item_request item))
    (running (workers_ (worker_pool_ s')) ++ items_ (queue_ (worker_pool_ s'))) ->
  BoundedQueue_wf (queue_ (worker_pool_ s')) ->
  tidy (mkSt s' h) /\ tidy (mkSt s' (h ++ [e])).
Proof.
  intros [Ho (Hr & _ & _)] He Hreg Hitems Hq. unfold tidy, owned, sound, live in *. simpl in *.
  rewrite Hreg. split; [done|]. split; [|split; [|done]].
  - intros fd. rewrite is_open_snoc. destruct e; try done; apply Ho.
  - eapply registry_wf_hist; [|exact Hr]. unfold all_received. rewrite log_snoc, len_app. len_lia.
Qed.

Lemma tidy_event s h e :
  tidy (mkSt s h) -> match e with EvWriteCounter _ _ | EvYield | EvSetup _ _ => True | _ => False end ->
  tidy (mkSt s (h ++ [e])).
Proof. intros H He. pose proof H as [_ (_ & Hi & Hq)]. by apply (tidy_step s s h e). Qed.

Lemma tidy_state s s' h :
  tidy (mkSt s h) -> registry_ s' = registry_ s -> worker_pool_ s' = worker_pool_ s ->
  tidy (mkSt s' h).
Proof.
  intros H Hr Hp. pose proof H as [_ (_ & Hi & Hq)]. simpl in *. rewrite <- Hp in Hi, Hq.
  by apply (tidy_step s s' h EvYield).
Qed.

Abbreviation kept_tidy := (fun (_ : unit) => tidy).
Abbreviation blocked_tidy := (fun o (st : St EpollEchoServer) => o = @None Exception /\ tidy st).

Lemma NotifyWorkerWakeup_tidy st :
  tidy st -> wp (NotifyWorkerWakeup fuel) kept_tidy blocked_tidy st.
Proof.
  destruct st as [s h]. intros H. unfold NotifyWorkerWakeup.
  apply wp_bind, wp_get_self. simpl self. destruct (negb _); [by apply wp_ret|].
  generalize fuel as n. intros n. revert h H. induction n as [|n IH]; intros h H.
  { by apply wp_out_of_fuel. }
  simpl. apply wp_bind, wp_get_self, wp_bind, wp_syscall. simpl.
  assert (forall r, tidy (mkSt s (h ++ [EvWriteCounter (UniqueFd_get (worker_wakeup_ s)) r]))) as Hq
    by (intros r; by apply tidy_event).
  destruct (os_write_counter _ _) as [k|e]; [by apply wp_ret|].
  destruct (e =? EINTR); [apply (IH _ (Hq (IoErr e)))|by apply wp_ret].
Qed.

Lemma Stop_tidy st : tidy st -> wp (Stop fuel) kept_tidy blocked_tidy st.
Proof.
  destruct st as [s h]. intros H. unfold Stop. apply wp_bind, wp_get_self, wp_bind, wp_put_self. simpl.
  apply NotifyWorkerWakeup_tidy. by apply (tidy_state s).
Qed.

Lemma interference_step_tidy i st :
  tidy st -> wp (interference_step handler_ fuel i) kept_tidy blocked_tidy st.
Proof.
  destruct i as [a|]; [|apply Stop_tidy]. destruct st as [s h]. intros H. simpl.
  apply wp_bind, wp_get_self. simpl.
  destruct (WorkerLoop handler_ a (worker_pool_ s)) as [[r p]|] eqn:Hstep; [|by apply wp_ret].
  pose proof H as [_ (_ & Hitems & Hq)]. simpl in Hitems, Hq.
  apply WorkerLoop_running in Hstep as (Hq' & _ & dn & Hperm & -> & Hlen); [|exact Hq].
  rewrite <- Hperm, app_assoc in Hitems. apply Forall_app in Hitems as [Hitems Hdn].
  apply wp_bind, wp_put_self. simpl hist.
  assert (tidy (mkSt (set_pool p s) h)) as H' by by apply (tidy_step s (set_pool p s) h EvYield).
  destruct dn as [|item [|]]; [..|simpl in Hlen; lia]; simpl in *.
  - destruct a; [by apply wp_ret|by apply wp_ret|by apply NotifyWorkerWakeup_tidy].
  - rewrite WorkerLoop_result_spec by (done || by apply Forall_inv in Hdn).
    apply wp_bind, wp_get_self, wp_put_self. by apply (tidy_state (set_pool p s)).
Qed.

Lemma yield_tidy st : tidy st -> wp (yield handler_ fuel) kept_tidy blocked_tidy st.
Proof.
  destruct st as [s h]. intros H. unfold yield. apply wp_bind, wp_gets, wp_bind, wp_syscall. simpl.
  assert (tidy (mkSt s (h ++ [EvYield]))) as H' by by apply tidy_event.
  revert H'. generalize (mkSt s (h ++ [EvYield])). generalize (interfere h). clear h s H.
  induction l as [|i l IH]; intros st H; simpl; [by apply wp_ret|].
  eapply wp_call; [by apply interference_step_tidy| |done]. intros ? st1 H1. by apply IH.
Qed.

Lemma WorkerPool_Stop_tidy st : tidy st -> wp (WorkerPool_Stop handler_ fuel) kept_tidy blocked_tidy st.
Proof.
  destruct st as [s h]. intros H. unfold WorkerPool_Stop.
  apply wp_bind, wp_get_self, wp_bind, wp_put_self. simpl.
  pose proof H as [_ (_ & Hitems & Hq)]. simpl in *.
  assert (tidy (mkSt (set_pool (Stop_close (worker_pool_ s)) s) h)) as H'
    by by apply (tidy_step s _ h EvYield).
  revert H'. generalize (mkSt (set_pool (Stop_close (worker_pool_ s)) s) h). clear -Hok.
  intros st. generalize fuel at 2 as n. intros n. revert st.
  induction n as [|n IH]; intros st H; simpl.
  - apply wp_bind, wp_get_self. destruct (Stop_joined _); [by apply wp_ret|by apply wp_out_of_fuel].
  - apply wp_bind, wp_get_self. destruct (Stop_joined _); [by apply wp_ret|].
    eapply wp_call; [by apply yield_tidy| |done]. intros ? st1 H1. by apply IH.
Qed.

Section Stopping.
Context (K : St EpollEchoServer -> Prop) `{HK : !BusyInvariant K}.

Lemma join_workers_follows n : follows K (join_workers handler_ fuel n).
Proof. induction n as [|n IH]; simpl; follow. Qed.
#[local] Hint Resolve join_workers_follows : follow.

Lemma WorkerPool_Stop_follows : follows K (WorkerPool_Stop handler_ fuel).
Proof. unfold WorkerPool_Stop. follow. Qed.

Lemma Stop_follows : follows K (Stop fuel).
Proof. unfold Stop. follow. Qed.
End Stopping.

(** ** Closing *)

Lemma destroy_all_run cs s h :
  Forall (fun p => 0 <= Connection_fd p.2) cs ->
  destroy_all cs (mkSt s h) =
    (Return tt, mkSt s (h ++ (EvClose <$> ((fun p => Connection_fd p.2) <$> cs)))).
Proof.
  revert h. induction cs as [|[id c] cs IH]; intros h H; simpl; [by rewrite app_nil_r|].
  apply Forall_cons_iff in H as [Hc H].
  erewrite bind_return by by rewrite UniqueFd_destroy_run, close_of_connection.
  rewrite IH by done. by rewrite <- app_assoc.
Qed.

Lemma is_open_closes fd h fds :
  is_open fd (h ++ (EvClose <$> fds)) = true <-> is_open fd h = true /\ fd ∉ fds.
Proof.
  induction fds as [|f fds IH] using rev_ind; simpl.
  - rewrite app_nil_r. split; [intros H; split; [done|by apply not_elem_of_nil]|by intros [? _]].
  - rewrite fmap_app, app_assoc. simpl. rewrite is_open_snoc.
    assert (fd ∈ fds ++ [f] <-> fd ∈ fds \/ f = fd) as ->.
    { rewrite elem_of_app, elem_of_cons. pose proof (not_elem_of_nil fd). naive_solver. }
    case_bool_decide as Hf.
    + split; [done|]. intros [_ Hn]. destruct Hn. by right.
    + rewrite IH. split; [intros [H1 H2]|intros [H1 H2]]; (split; [done|]).
      * by intros [?|?].
      * intros H. apply H2. by left.
Qed.

(** The members that hold descriptors, in the order they are destroyed. *)
Definition members (s : EpollEchoServer) : list UniqueFd :=
  [shutdown_signal_ s; worker_wakeup_ s; epoll_ s; listener_ s].

Lemma own_members s s' : own_fds s = own_fds s' -> members s = members s'.
Proof. unfold own_fds, members. by intros [= -> -> -> ->]. Qed.

Definition closes (us : list UniqueFd) : History := flat_map close_of us.

(** The state after the connections are destroyed. *)
Definition swept (st : St EpollEchoServer) : Prop := forall fd, is_open fd (hist st) = false.

Lemma destroy_connections_spec s h :
  tidy (mkSt s h) ->
  exists clients, destroy_connections (mkSt s h) =
    (Return tt, mkSt (set_live ∅ s) (h ++ (EvClose <$> clients))) /\
    swept (mkSt (set_live ∅ s) (h ++ (EvClose <$> clients))).
Proof.
  intros [Ho (Hreg & _)]. simpl in *.
  set (clients := (fun p : Z * Connection => Connection_fd p.2) <$> map_to_list (live s)).
  exists clients. split.
  - unfold destroy_connections. erewrite bind_return by reflexivity. cbn [self].
    erewrite bind_return.
    2: { apply destroy_all_run. apply list.Forall_forall. intros [id c] Hin%elem_of_map_to_list.
         destruct Hreg as (_ & _ & _ & Hall). by destruct (Hall id c Hin) as (_ & _ & _ & ? & _). }
    done.
  - intros fd. apply not_true_iff_false. simpl. rewrite is_open_closes. intros [Hfd Hn].
    apply Hn. destruct (Ho fd Hfd) as (id & c & Hc & <-). apply list_elem_of_fmap. exists (id, c).
    split; [done|]. by apply elem_of_map_to_list.
Qed.

Lemma is_open_closes_of fd h us : is_open fd h = false -> is_open fd (h ++ closes us) = false.
Proof.
  intros Hf. unfold closes. induction us as [|u us IH] using rev_ind; [by rewrite app_nil_r|].
  rewrite flat_map_app, app_assoc. simpl. rewrite app_nil_r. unfold close_of at 2.
  destruct (UniqueFd_is_valid u); [|by rewrite app_nil_r].
  rewrite is_open_snoc, IH. by case_bool_decide.
Qed.

Lemma signal_mask_run mask0 h es : Forall run_event es -> signal_mask mask0 (h ++ es) = signal_mask mask0 h.
Proof.
  intros Hes. unfold signal_mask. rewrite foldl_app. generalize (foldl mask_step mask0 h).
  induction Hes as [|e es He _ IH]; intros m; [done|]. simpl.
  assert (mask_step m e = m) as -> by by destruct e. apply IH.
Qed.

Lemma run_creates_nothing es : Forall run_event es -> created_fds es = [].
Proof. intros H. apply log_none. eapply List.Forall_impl; [|exact H]. by intros []. Qed.

(** The rest of the destructor, after that of the pool. *)
Lemma destroy_members_spec s h m :
  tidy (mkSt s h) -> active m = false ->
  exists clients s',
    (destroy_connections ;;
     this ← get_self;
     UniqueFd_destroy (shutdown_signal_ this) ;;
     UniqueFd_destroy (worker_wakeup_ this) ;;
     m ← Restore m;
     UniqueFd_destroy (epoll_ this) ;;
     UniqueFd_destroy (listener_ this)) (mkSt s h)
    = (Return tt, mkSt s' (h ++ (EvClose <$> clients) ++ closes (members s))) /\
    swept (mkSt s' (h ++ (EvClose <$> clients) ++ closes (members s))).
Proof.
  intros Htidy Hm. destruct (destroy_connections_spec s h Htidy) as (clients & Hrun & Hswept).
  exists clients, (set_live ∅ s). split.
  - erewrite bind_return by exact Hrun. erewrite bind_return by reflexivity. cbn [self hist].
    do 2 (erewrite bind_return by apply UniqueFd_destroy_run).
    erewrite bind_return by (unfold Restore; by rewrite Hm).
    erewrite bind_return by apply UniqueFd_destroy_run.
    rewrite UniqueFd_destroy_run. unfold closes, members. simpl. rewrite app_nil_r. by rewrite <- !app_assoc.
  - intros fd. cbn [hist]. rewrite app_assoc. apply is_open_closes_of, Hswept.
Qed.

(** The mask after [Restore]. *)
Definition restored (m : ShutdownSignalMaskState) (mask : gset Z) : gset Z :=
  if active m then previous_mask m else mask.

Lemma Restore_spec mask0 s h m :
  tidy (mkSt s h) ->
  exists m' h', Restore m (mkSt s h) = (Return m', mkSt s h') /\ active m' = false /\
    tidy (mkSt s h') /\ signal_mask mask0 h' = restored m (signal_mask mask0 h) /\
    exists es, h' = h ++ es /\ created_fds es = [].
Proof.
  intros H. unfold Restore, restored. destruct (active m) eqn:Hm; simpl.
  - destruct (setmask_ok h (previous_mask m)) as [v Hv].
    exists {| previous_mask := previous_mask m; active := false |},
      (h ++ [EvSetup (CallSigSetmask (previous_mask m)) (IoOk v)]).
    unfold setup, syscall. erewrite bind_return by reflexivity. cbn [self hist]. rewrite Hv.
    split; [done|]. split; [done|]. split; [by apply tidy_event|].
    split; [unfold signal_mask; by rewrite foldl_app|by eexists].
  - exists m, h. split_and!; try done. exists []. by rewrite app_nil_r.
Qed.

Lemma destroy_spec mask0 s h m :
  tidy (mkSt s h) ->
  wp (EpollEchoServer_destroy handler_ fuel m)
    (fun _ st' => swept st' /\ signal_mask mask0 (hist st') = restored m (signal_mask mask0 h) /\
       exists es clients, created_fds es = [] /\
         hist st' = h ++ es ++ (EvClose <$> clients) ++ closes (members s))
    (fun o _ => o = None) (mkSt s h).
Proof.
  intros H. unfold EpollEchoServer_destroy.
  assert (kept (own_fds s) h (mkSt s h)) as Hk by (split; [apply grows_refl|done]).
  eapply wp_call; [eapply wp_follows; [apply Stop_follows, kept_reading|exact Hk|by apply Stop_tidy]| |by intros o ? [[? _] _]].
  intros ? s1 [H1 K1].
  eapply wp_call; [eapply wp_follows; [apply WorkerPool_Stop_follows, kept_reading|exact K1|by apply WorkerPool_Stop_tidy]| |by intros o ? [[? _] _]].
  intros ? [s2 h2] [H2 [(es2 & Hh2 & Hes2) Hf2]]. simpl in Hh2, Hf2. subst h2.
  destruct (Restore_spec mask0 s2 _ m H2) as (m' & h3 & Hrun & Hm' & H3 & Hmask & es3 & Hh3 & Hc3).
  eapply wp_known; [exact Hrun|]. rewrite (signal_mask_run _ _ _ Hes2) in Hmask.
  assert (kept (own_fds s) h3 (mkSt s2 h3)) as K3 by (split; [apply grows_refl|exact Hf2]).
  eapply wp_call; [eapply wp_follows; [apply WorkerPool_Stop_follows, kept_reading|exact K3|by apply WorkerPool_Stop_tidy]| |by intros o ? [[? _] _]].
  intros ? [s4 h4] [H4 [(es4 & Hh4 & Hes4) Hf4]]. simpl in Hh4, Hf4. subst h4.
  destruct (destroy_members_spec s4 _ m' H4 Hm') as (clients & s5 & Hlast & Hswept).
  unfold wp. erewrite Hlast. split; [done|]. cbn [hist].
  assert (members s4 = members s) as -> by by apply own_members.
  split.
  - rewrite <- Hmask, <- (signal_mask_run mask0 h3 es4 Hes4). unfold signal_mask at 1.
    rewrite foldl_app. fold (signal_mask mask0 (h3 ++ es4)).
    generalize (signal_mask mask0 (h3 ++ es4)) as k. unfold closes. intros k.
    rewrite foldl_app. replace (foldl mask_step k (EvClose <$> clients)) with k
      by (clear; induction clients as [|c cs IH] using rev_ind; [done|by rewrite fmap_app, foldl_app, <- IH]).
    unfold members, close_of. simpl. repeat case_match; done.
  - exists (es2 ++ es3 ++ es4), clients. split; [|by rewrite Hh3, <- !app_assoc].
    unfold created_fds in *. by rewrite !log_app, Hc3, !run_creates_nothing.
Qed.
End Proofs.

Section Built.
Context `{Sys : OS} `{!OSLaws Sys} `{!ShortRun Sys} `{!EpollLaws Sys} `{!SetupLaws Sys}.
Context `{Env : Environment} `{!EnvironmentLaws Env}.
Context {X : Type} (mask0 : gset Z) (handler_ : WorkHandler) `{!HandlerOk handler_} (fuel turns : nat).
Context (port : Z) (options : EpollEchoServerOptions) (x : X) (s : EpollEchoServer) (m : ShutdownSignalMaskState)
  (st1 : St X).
Context (Hopt : options_wf options)
  (Hstart : EpollEchoServer_construct mask0 port options (mkSt x []) = (Return (s, m), st1)).

(** The server of a state that comes after the construction. *)
Definition later (st2 : St EpollEchoServer) : Prop := tidy st2 /\ kept (own_fds s) (hist st1) st2.

Lemma built_spec :
  building mask0 (list_to_set (options_shutdown_signals options)) [] (server_fds s)
    (mask0 ∪ list_to_set (options_shutdown_signals options)) (server_watches s) st1 /\
  blocked (options_shutdown_signals options) mask0 m /\ built_as options s.
Proof.
  pose proof (wp_construct mask0 _ [] port options mask0 (mkSt x []) Hopt
    (building_start mask0 _ [] x) eq_refl) as H.
  by apply (wp_run _ _ _ _ _ _ H) in Hstart as (Hb & Hblocked & Hbuilt).
Qed.

Lemma built_fresh :
  config_wf (config_of s) /\ limits_wf (cfg_limits (config_of s)) /\
  fresh_server (config_of s) (mkSt s (hist st1)).
Proof. destruct built_spec as (Hb & _ & Hbuilt). by eapply built_as_fresh. Qed.

Lemma built_later : later (mkSt s (hist st1)).
Proof.
  split; [|by split; [apply grows_refl|]]. destruct built_fresh as (Hcfg & Hlim & Hfresh).
  by eapply safe_tidy, inv_safe, (fresh_inv handler_ _ _ Hcfg).
Qed.

(** A run of the server. *)
Lemma run_later r st2 :
  Run handler_ fuel turns (mkSt s (hist st1)) = (r, st2) -> r <> Undefined /\ (r <> OutOfFuel -> later st2).
Proof.
  intros Hrun. destruct built_fresh as (Hcfg & Hlim & Hfresh).
  pose proof (wp_run _ _ _ _ _ _ (fresh_Run_spec handler_ fuel _ turns _ Hcfg Hlim Hfresh) Hrun) as Hsafe.
  split; [by destruct r|]. intros Hr. split.
  - destruct r; [|by eapply safe_tidy|done|done]. by eapply safe_tidy, inv_safe, Hsafe.
  - assert (kept (own_fds s) (hist st1) (mkSt s (hist st1))) as Hk by (split; [apply grows_refl|done]).
    pose proof (Run_follows handler_ fuel (kept (own_fds s) (hist st1)) turns _ Hk) as H. by rewrite Hrun in H.
Qed.

Lemma Stop_later st2 : later st2 -> wp (Stop fuel) (fun _ => later) (fun o st => o = None /\ later st) st2.
Proof.
  intros [Ht Hk]. eapply wp_mono; [eapply wp_follows; [apply Stop_follows, kept_reading|exact Hk|by apply Stop_tidy]|done|].
  by intros o st [[-> ?] ?].
Qed.

(** What the destructor does. *)
Lemma destroy_later st2 :
  later st2 ->
  wp (EpollEchoServer_destroy handler_ fuel m)
    (fun _ st3 => swept st3 /\ signal_mask mask0 (hist st3) = mask0 /\
       exists es clients, created_fds es = [] /\
         hist st3 = hist st2 ++ es ++ (EvClose <$> clients) ++ (EvClose <$> server_fds s))
    (fun o _ => o = None) st2.
Proof.
  intros [Htidy [(es & Hes & Hev) Hfds]]. destruct built_spec as (Hb & Hblocked & Hbuilt).
  destruct st2 as [s2 h2]. simpl in Hes, Hfds. subst h2.
  eapply wp_mono; [by apply (destroy_spec handler_ fuel mask0)| |done].
  intros _ st3 (Hswept & Hmask & es' & clients & Hc & Hh). split; [exact Hswept|]. split.
  - rewrite Hmask, signal_mask_run by done. destruct Hb as (? & _ & _ & Hm1 & _). rewrite Hm1.
    unfold restored, blocked in *. case_bool_decide as Hsig; subst m; [|done].
    simpl. rewrite Hsig. simpl. by rewrite (right_id_L ∅ (∪)).
  - exists es', clients. split; [exact Hc|]. rewrite Hh. do 3 f_equal.
    assert (members s2 = members s) as -> by by apply own_members.
    destruct Hbuilt as (_ & _ & _ & _ & _ & _ & _ & _ & _ & _ & Hl & He & Hw & Hu).
    unfold closes, members, server_fds, on_top, close_of, UniqueFd_is_valid, kInvalidFd, UniqueFd_get in *.
    simpl. destruct (Z.eqb_spec (fd_ (listener_ s)) (-1)), (Z.eqb_spec (fd_ (epoll_ s)) (-1)),
      (Z.eqb_spec (fd_ (worker_wakeup_ s)) (-1)); try lia.
    by destruct (Z.eqb_spec (fd_ (shutdown_signal_ s)) (-1)).
Qed.
End Built.

(** ** Properties *)

(** C18.  Nothing is left behind.  A server that was built, run until [Run]
    returned or threw, and destroyed, has closed every socket it accepted and
    then its own descriptors, and the signal mask of the thread is what it was
    before.  The destructor neither throws nor has undefined behaviour; it can
    only wait, for a worker whose handler does not return. *)
Theorem server_life_leaves_nothing `{Sys : OS} `{!OSLaws Sys} `{!ShortRun Sys} `{!EpollLaws Sys}
    `{!SetupLaws Sys} `{Env : Environment} `{!EnvironmentLaws Env} (mask0 : gset Z)
    (handler_ : WorkHandler) `{!HandlerOk handler_} fuel turns port options s m st1 r st2 :
  options_wf options ->
  EpollEchoServer_construct mask0 port options (mkSt tt []) = (Return (s, m), st1) ->
  Run handler_ fuel turns (mkSt s (hist st1)) = (r, st2) -> r <> OutOfFuel ->
  match EpollEchoServer_destroy handler_ fuel m st2 with
  | (Return _, st3) =>
      (forall fd, is_open fd (hist st3) = false) /\ signal_mask mask0 (hist st3) = mask0 /\
      exists es clients,
        hist st3 = hist st2 ++ es ++ (EvClose <$> clients) ++ (EvClose <$> server_fds s)
  | (OutOfFuel, _) => True
  | _ => False
  end.
Proof.
  intros Hopt Hstart Hrun Hr.
  destruct (run_later mask0 handler_ fuel turns port options tt s m st1 Hopt Hstart r st2 Hrun) as [_ Hlater].
  pose proof (destroy_later mask0 handler_ fuel port options tt s m st1 Hopt Hstart st2 (Hlater Hr)) as Hd.
  unfold wp in Hd. destruct (EpollEchoServer_destroy handler_ fuel m _) as [[[]|e| |] st3]; try done.
  destruct Hd as (H1 & H2 & es & clients & _ & H3). split; [exact H1|]. split; [exact H2|by exists es, clients].
Qed.

(** ** Witness

    The world of [ServerTheorems] with a server built from options. *)

#[local] Existing Instance ServerTheorems.sample_kernel.
#[local] Existing Instance ServerTheorems.sample_environment.
#[local] Existing Instance ServerTheorems.sample_environment_laws.

Abbreviation sample_construction := (EpollEchoServer_construct ∅ 9000 sample_options (mkSt tt [])).

Definition sample_built : EpollEchoServer * ShutdownSignalMaskState :=
  match fst sample_construction with
  | Return p => p
  | _ => (ServerTheorems.sample_server, ShutdownSignalMaskState_default)
  end.

Abbreviation sample_run :=
  (Run default_handler 10 7 (mkSt sample_built.1 (hist (snd sample_construction)))).
Abbreviation sample_destruction :=
  (EpollEchoServer_destroy default_handler 10 sample_built.2 (snd sample_run)).

Lemma sample_built_eq :
  sample_construction = (Return (sample_built.1, sample_built.2), snd sample_construction).
Proof.
  assert (match fst sample_construction with Return _ => true | _ => false end = true) as H
    by (vm_compute; reflexivity).
  unfold sample_built. destruct sample_construction as [[[s m]|e| |] st]; done.
Qed.

Lemma sample_run_ok : fst sample_run <> OutOfFuel.
Proof.
  assert (fst sample_run = Return tt) as H by (vm_compute; reflexivity). by rewrite H.
Qed.

Lemma sample_destruction_ok : fst sample_destruction = Return tt.
Proof. vm_compute. reflexivity. Qed.

Lemma server_life_leaves_nothing_witness :
  is_open 9 (hist (after_run (Run default_handler 10 4) (mkSt sample_built.1 (hist (snd sample_construction))))) = true /\
  is_open 9 (hist (snd sample_destruction)) = false /\
  signal_mask ∅ (hist (snd sample_destruction)) = ∅.
Proof.
  split; [vm_compute; reflexivity|].
  pose proof (server_life_leaves_nothing ∅ default_handler 10 7 9000 sample_options
    sample_built.1 sample_built.2 (snd sample_construction) (fst sample_run) (snd sample_run)
    sample_options_wf sample_built_eq (surjective_pairing sample_run) sample_run_ok) as H.
  pose proof sample_destruction_ok as Hd.
  destruct sample_destruction as [r st3]. cbn [fst snd] in *. rewrite Hd in H.
  destruct H as (H1 & H2 & _). split; [apply H1|exact H2].
Defined.
