(* ===== verification/CommandLine.v ===== *)
(** * Command lines

    What the programs of [apps/] use of the C++ library to read numbers
    ([std::stoul], [std::stoull]: both 64 bits wide on the targets of the
    program) and to print, and the number parser they share the text of. *)

From Stdlib Require Import Ascii.
From stdpp Require Import pretty.
From S2P Require Import Prelude Os.



(** ** Characters and numbers *)

Definition char_code (c : ascii) : Z := Z.of_N (Ascii.N_of_ascii c).
Definition isspace (c : ascii) : bool :=
  (char_code c =? 32) || (9 <=? char_code c) && (char_code c <=? 13).
Definition isdigit (c : ascii) : bool := (48 <=? char_code c) && (char_code c <=? 57).
Definition digit_value (c : ascii) : Z := char_code c - 48.

Definition slen (s : string) : Z := Z.of_nat (String.length s).

(** [input.front() == c], of a string that may be empty. *)
Definition starts_with (c : ascii) (s : string) : bool :=
  match s with String c' _ => Ascii.eqb c' c | EmptyString => false end.

Fixpoint skip_spaces (s : string) : string :=
  match s with
  | String c s' => if isspace c then skip_spaces s' else s
  | EmptyString => s
  end.

(** The value of the leading digits, and what follows them. *)
Fixpoint scan_digits (s : string) (value : Z) : Z * string :=
  match s with
  | String c s' => if isdigit c then scan_digits s' (value * 10 + digit_value c) else (value, s)
  | EmptyString => (value, s)
  end.

Inductive Conversion : Type :=
| NoConversion
| Overflow
| Converted (value chars : Z).

(** [strtoul(s, &end, 10)]: leading white space, a sign, digits; a minus sign
    negates the value modulo 2^64. *)
Definition strtoul (s : string) : Conversion :=
  let body := skip_spaces s in
  let negative := starts_with "-"%char body in
  let digits := if starts_with "-"%char body || starts_with "+"%char body
                then match body with String _ rest => rest | EmptyString => body end else body in
  let '(value, rest) := scan_digits digits 0 in
  if slen rest =? slen digits then NoConversion
  else if u64_max <? value then Overflow
  else Converted (if negative then u64 (- value) else value) (slen s - slen rest).

(** [std::stoul(input, &parsed_chars)]: the value and the characters parsed. *)
Definition sto {S} (name : string) (input : string) : M S (Z * Z) :=
  match strtoul input with
  | NoConversion => throw (InvalidArgument name)
  | Overflow => throw (OutOfRange name)
  | Converted value chars => mret (value, chars)
  end.
Definition stoul {S} : string -> M S (Z * Z) := sto "stoul".
Definition stoull {S} : string -> M S (Z * Z) := sto "stoull".

(** The text of [ParsePort], which the three programs have in common. *)
Definition parse_port {S} (text : string) : M S Z :=
  if (slen text =? 0) || starts_with "-"%char text then throw (RuntimeError "port must be an integer") else
  try_catch (
    '(value, parsed_chars) ← stoul text;
    if negb (parsed_chars =? slen text) then throw (RuntimeError "port must be an integer") else
    if 65535 <? value then throw (RuntimeError "port is out of range") else
    mret (u16 value))
  (fun e => match e with
            | InvalidArgument _ => throw (RuntimeError "port must be an integer")
            | OutOfRange _ => throw (RuntimeError "port is out of range")
            | e => throw e
            end).

(** The text of [ParsePositiveSize], which the epoll server and the benchmark
    have in common. *)
Definition parse_positive_size {S} (option text : string) : M S Z :=
  if (slen text =? 0) || starts_with "-"%char text
  then throw (RuntimeError (option +:+ " must be a positive integer")) else
  try_catch (
    '(value, parsed_chars) ← stoull text;
    if negb (parsed_chars =? slen text) || (value =? 0) || (u64_max <? value)
    then throw (RuntimeError (option +:+ " must be a positive integer"))
    else mret (u64 value))
  (fun e => match e with
            | InvalidArgument _ => throw (RuntimeError (option +:+ " must be a positive integer"))
            | OutOfRange _ => throw (RuntimeError (option +:+ " is out of range"))
            | e => throw e
            end).

(** ** Output *)

Record Console : Type := { cout : string; cerr : string }.

Definition console_new : Console := {| cout := ""; cerr := "" |}.

Definition print {S} (view : S -> Console) (set : Console -> S -> S) (text : string) : M (St S) unit :=
  x ← get_self;
  put_self (set {| cout := cout (view x) +:+ text; cerr := cerr (view x) |} x).
Definition print_error {S} (view : S -> Console) (set : Console -> S -> S) (text : string) : M (St S) unit :=
  x ← get_self;
  put_self (set {| cout := cout (view x); cerr := cerr (view x) +:+ text |} x).

Lemma wp_print {S} (view : S -> Console) set text Q E x h :
  Q tt (mkSt (set {| cout := cout (view x) +:+ text; cerr := cerr (view x) |} x) h) ->
  wp (print view set text) Q E (mkSt x h).
Proof. intros H. by apply wp_bind, wp_get_self, wp_put_self. Qed.
Lemma wp_print_error {S} (view : S -> Console) set text Q E x h :
  Q tt (mkSt (set {| cout := cout (view x); cerr := cerr (view x) +:+ text |} x) h) ->
  wp (print_error view set text) Q E (mkSt x h).
Proof. intros H. by apply wp_bind, wp_get_self, wp_put_self. Qed.

(** A number written to a stream. *)
Definition decimal (n : Z) : string := pretty (Z.to_N n).

Definition newline : string := String (Ascii.ascii_of_nat 10) EmptyString.

(** [error.what()]; [strerror] is the C library's. *)
Definition what (strerror : Z -> string) (e : Exception) : string :=
  match e with
  | RuntimeError text | InvalidArgument text | OutOfRange text | LogicError text => text
  | SyscallRuntimeError operation error => operation +:+ ": " +:+ strerror error
  | SystemError error => strerror error
  | BadAlloc => "std::bad_alloc"
  end.

(** [--help] is the only argument. *)
Definition help (argv : list string) : Prop := exists program, argv = [program; "--help"%string].

Lemma help_spec argv :
  (len argv =? 2) && bool_decide (argv !! 1%nat = Some "--help"%string) = true <-> help argv.
Proof.
  rewrite andb_true_iff, bool_decide_eq_true, Z.eqb_eq. unfold help. split.
  - intros [Hlen Harg]. destruct argv as [|program [|arg [|more argv]]]; unfold len in Hlen; simpl in *; try lia.
    exists program. by injection Harg as ->.
  - by intros [program ->].
Qed.

(** ** What a process leaves *)

(** Nothing is open, and the signal mask is the one the process began with. *)
Definition clean (mask0 : gset Z) (h : History) : Prop :=
  (forall fd, is_open fd h = false) /\ (forall fd, fd ∈ created_fds h -> fd ∈ closed_fds h) /\
  signal_mask mask0 h = mask0.

Lemma clean_nil mask0 : clean mask0 [].
Proof. split_and!; [done|intros fd H; by apply not_elem_of_nil in H|done]. Qed.

(** ** What the parser accepts *)

Fixpoint all_chars (f : ascii -> bool) (s : string) : Prop :=
  match s with
  | String c s => f c = true /\ all_chars f s
  | EmptyString => True
  end.

Fixpoint digits_value (value : Z) (s : string) : Z :=
  match s with
  | String c s => digits_value (value * 10 + digit_value c) s
  | EmptyString => value
  end.

(** [text] is white space, a sign and digits, with the value [v] modulo 2^64. *)
Definition numeral (text : string) (v : Z) : Prop :=
  exists spaces sign digits,
    text = spaces +:+ sign +:+ digits /\ all_chars isspace spaces /\
    (sign = "" \/ sign = "+" \/ sign = "-") /\ digits <> "" /\ all_chars isdigit digits /\
    digits_value 0 digits <= u64_max /\
    v = if starts_with "-"%char sign then u64 (- digits_value 0 digits) else digits_value 0 digits.

(** [text] begins with white space, a sign and digits of a number above 2^64-1. *)
Definition overflows (text : string) : Prop :=
  exists spaces sign digits rest,
    text = spaces +:+ sign +:+ digits +:+ rest /\ all_chars isspace spaces /\
    (sign = "" \/ sign = "+" \/ sign = "-") /\ all_chars isdigit digits /\
    match rest with String c _ => isdigit c = false | EmptyString => True end /\
    u64_max < digits_value 0 digits.

(** The same for the texts that the parsers do not refuse at sight. *)
Definition too_large (text : string) : Prop := starts_with "-"%char text = false /\ overflows text.

(** A numeral that does not begin with a minus sign (white space may precede
    one). *)
Definition accepted (text : string) (v : Z) : Prop :=
  starts_with "-"%char text = false /\ numeral text v.

(** The last of the values given, or the one that holds otherwise. *)
Definition given {A} (values : list A) (otherwise : A) : A := List.last values otherwise.

Lemma given_cons {A} (v : A) vs d : given (v :: vs) d = given vs v.
Proof. unfold given. revert v d. induction vs as [|w vs IH]; intros v d; [done|]. by rewrite (IH w v), <- (IH w d). Qed.

Definition nat_of (b : bool) : nat := if b then 1 else 0.

(** ** Proofs *)

Lemma slen_app s t : slen (s +:+ t) = slen s + slen t.
Proof.
  unfold slen. rewrite <- Nat2Z.inj_add. f_equal. induction s as [|c s IH]; [done|]. simpl. by rewrite IH.
Qed.
Lemma slen_nonneg s : 0 <= slen s.
Proof. unfold slen. lia. Qed.
Lemma slen_zero s : slen s = 0 -> s = "".
Proof. unfold slen. destruct s; [done|simpl; lia]. Qed.

Lemma append_cons c s t : String c s +:+ t = String c (s +:+ t).
Proof. done. Qed.

Lemma string_app_nil_r s : s +:+ "" = s.
Proof. induction s as [|c s IH]; [done|]. by rewrite append_cons, IH. Qed.

Lemma string_app_assoc s t u : (s +:+ t) +:+ u = s +:+ (t +:+ u).
Proof. induction s as [|c s IH]; [done|]. by rewrite !append_cons, IH. Qed.

Lemma digits_value_app s t v : digits_value v (s +:+ t) = digits_value (digits_value v s) t.
Proof. revert v. induction s as [|c s IH]; intros v; [done|]. apply IH. Qed.

Lemma digits_value_nonneg s v : all_chars isdigit s -> 0 <= v -> 0 <= digits_value v s.
Proof.
  revert v. induction s as [|c s IH]; intros v; [done|]. simpl. intros [Hc Hs] Hv. apply IH; [done|].
  unfold isdigit, digit_value in *. apply andb_prop in Hc as [?%Z.leb_le ?%Z.leb_le]. lia.
Qed.

(** The scan takes the longest prefix of digits. *)
Lemma scan_digits_spec s v :
  exists ds rest, s = ds +:+ rest /\ all_chars isdigit ds /\
    scan_digits s v = (digits_value v ds, rest) /\ (rest = s -> ds = "") /\
    match rest with String c _ => isdigit c = false | EmptyString => True end.
Proof.
  revert v. induction s as [|c s IH]; intros v; simpl.
  { by exists "", "". }
  destruct (isdigit c) eqn:Hc.
  - destruct (IH (v * 10 + digit_value c)) as (ds & rest & -> & Hds & Hscan & _ & Hrest).
    exists (String c ds), rest. rewrite Hscan. split_and!; try done.
    intros H. apply (f_equal slen) in H. change (slen rest = slen (String c ds +:+ rest)) in H.
    rewrite slen_app in H. unfold slen in H. simpl in H. lia.
  - by exists "", (String c s).
Qed.

Lemma scan_digits_prefix ds rest v :
  all_chars isdigit ds -> match rest with String c _ => isdigit c = false | EmptyString => True end ->
  scan_digits (ds +:+ rest) v = (digits_value v ds, rest).
Proof.
  intros Hds Hrest. revert v Hds. induction ds as [|c s IH]; intros v.
  - intros _. destruct rest as [|c rest]; [done|]. simpl. by rewrite Hrest.
  - rewrite append_cons. simpl. intros [-> Hs]. by apply IH.
Qed.

Lemma skip_spaces_spec s : exists spaces, s = spaces +:+ skip_spaces s /\ all_chars isspace spaces.
Proof.
  induction s as [|c s (sp & Heq & Hsp)]; simpl; [by exists ""|].
  destruct (isspace c) eqn:Hc; [|by exists ""]. exists (String c sp). by rewrite append_cons, <- Heq; simpl; rewrite Hc.
Qed.

Lemma skip_spaces_app sp s :
  all_chars isspace sp -> match s with String c _ => isspace c = false | _ => True end ->
  skip_spaces (sp +:+ s) = s.
Proof.
  intros Hsp Hs. induction sp as [|c sp IH]; simpl in *.
  - destruct s as [|c s]; [done|]. simpl. by rewrite Hs.
  - destruct Hsp as [-> Hsp]. by apply IH.
Qed.

Lemma digit_not_space c : isdigit c = true -> isspace c = false /\ Ascii.eqb c "-"%char = false /\ Ascii.eqb c "+"%char = false.
Proof.
  unfold isdigit, isspace. intros [Hlow%Z.leb_le ?%Z.leb_le]%andb_prop.
  split; [|split; apply Ascii.eqb_neq; intros ->; exact (Hlow eq_refl)].
  apply orb_false_iff. split; [apply Z.eqb_neq; lia|]. apply andb_false_iff. right. apply Z.leb_gt. lia.
Qed.

(** The sign of a body, and the rest. *)
Lemma sign_spec body :
  let signed := starts_with "-"%char body || starts_with "+"%char body in
  exists sign, body = sign +:+ (if signed then match body with String _ rest => rest | EmptyString => body end
                                else body) /\
    (sign = "" \/ sign = "+" \/ sign = "-") /\ starts_with "-"%char sign = starts_with "-"%char body.
Proof.
  destruct body as [|c body]; simpl; [exists ""; auto|].
  destruct (Ascii.eqb_spec c "-") as [->|Hm]; simpl; [exists "-"; auto|].
  destruct (Ascii.eqb_spec c "+") as [->|Hp]; simpl; [exists "+"; auto|]. exists ""; auto.
Qed.

(** A whole text is converted exactly when it is a numeral. *)
Lemma strtoul_numeral s v : strtoul s = Converted v (slen s) <-> numeral s v.
Proof.
  unfold strtoul, numeral. split.
  - destruct (skip_spaces_spec s) as (sp & Hs & Hsp).
    destruct (sign_spec (skip_spaces s)) as (sign & Hbody & Hsign & Hneg).
    set (digits := if _ || _ then _ else _) in *.
    destruct (scan_digits_spec digits 0) as (ds & rest & Hds & Hall & -> & Hrest & _).
    destruct (Z.eqb_spec (slen rest) (slen digits)) as [|Hne]; [done|].
    destruct (Z.ltb_spec u64_max (digits_value 0 ds)) as [|Hle]; [done|]. intros [= <- Hlen].
    assert (rest = "") as -> by (apply slen_zero; lia). rewrite string_app_nil_r in Hds.
    clearbody digits. subst ds. exists sp, sign, digits. rewrite Hneg, <- Hbody, <- Hs.
    do 3 (split; [done|]). split; [intros ->; by destruct Hne|]. split; [done|]. split; [lia|done].
  - intros (sp & sign & ds & -> & Hsp & Hsign & Hne & Hds & Hle & ->).
    destruct ds as [|c ds]; [done|]. pose proof (digit_not_space c (proj1 Hds)) as (Hc & Hcm & Hcp).
    rewrite skip_spaces_app; [|done|by destruct Hsign as [-> | [-> | ->]]].
    assert ((if starts_with "-"%char (sign +:+ String c ds) || starts_with "+"%char (sign +:+ String c ds)
      then match sign +:+ String c ds with String _ rest => rest | EmptyString => sign +:+ String c ds end
      else sign +:+ String c ds) = String c ds) as ->.
    { destruct Hsign as [-> | [-> | ->]]; simpl; [by rewrite Hcm, Hcp|done|done]. }
    rewrite <- (string_app_nil_r (String c ds)) at 1. rewrite scan_digits_prefix by done.
    destruct (Z.eqb_spec (slen "") (slen (String c ds))) as [H|_]; [unfold slen in H; simpl in H; lia|].
    destruct (Z.ltb_spec u64_max (digits_value 0 (String c ds))); [lia|].
    change (slen "") with 0. rewrite Z.sub_0_r.
    assert (starts_with "-"%char (sign +:+ String c ds) = starts_with "-"%char sign) as ->; [|done].
    destruct Hsign as [-> | [-> | ->]]; simpl; done.
Qed.

(** The conversion overflows exactly for the texts that say so. *)
Lemma strtoul_overflows s : strtoul s = Overflow <-> overflows s.
Proof.
  unfold strtoul, overflows. split.
  - destruct (skip_spaces_spec s) as (sp & Hs & Hsp).
    destruct (sign_spec (skip_spaces s)) as (sign & Hbody & Hsign & _).
    set (digits := if _ || _ then _ else _) in *.
    destruct (scan_digits_spec digits 0) as (ds & rest & Hds & Hall & -> & _ & Hrest).
    destruct (slen rest =? slen digits); [done|].
    destruct (Z.ltb_spec u64_max (digits_value 0 ds)) as [Hlt|]; [|done]. intros _.
    exists sp, sign, ds, rest. by rewrite <- Hds, <- Hbody, <- Hs.
  - intros (sp & sign & ds & rest & -> & Hsp & Hsign & Hds & Hrest & Hlt).
    destruct ds as [|c ds]; [done|]. pose proof (digit_not_space c (proj1 Hds)) as (Hc & Hcm & Hcp).
    rewrite append_cons.
    rewrite skip_spaces_app; [|done|by destruct Hsign as [-> | [-> | ->]]].
    assert ((if starts_with "-"%char (sign +:+ String c (ds +:+ rest)) || starts_with "+"%char (sign +:+ String c (ds +:+ rest))
      then match sign +:+ String c (ds +:+ rest) with String _ rest => rest | EmptyString => sign +:+ String c (ds +:+ rest) end
      else sign +:+ String c (ds +:+ rest)) = String c ds +:+ rest) as ->.
    { destruct Hsign as [-> | [-> | ->]]; rewrite append_cons; simpl; [by rewrite Hcm, Hcp|done|done]. }
    rewrite scan_digits_prefix by done.
    destruct (Z.eqb_spec (slen rest) (slen (String c ds +:+ rest))) as [H|_].
    + rewrite slen_app in H. unfold slen in H. simpl in H. lia.
    + by destruct (Z.ltb_spec u64_max (digits_value 0 (String c ds))); [|lia].
Qed.

Lemma numeral_functional s v v' : numeral s v -> numeral s v' -> v = v'.
Proof. rewrite <- !strtoul_numeral. intros -> H. by injection H. Qed.

Lemma numeral_u64 s v : numeral s v -> is_u64 v.
Proof.
  intros (_ & sign & ds & _ & _ & _ & _ & Hds & Hle & ->).
  destruct (starts_with _ _); [apply is_u64_u64|].
  pose proof (digits_value_nonneg ds 0 Hds). unfold is_u64, u64_max in *. lia.
Qed.

(** Neither a number nor too large. *)
Definition no_number (text : string) : Prop := ~ overflows text /\ forall v, ~ numeral text v.

(** [std::stoul] of a text that must be a number as a whole. *)
Lemma sto_spec {S} name text (Q : Z * Z -> S -> Prop) E s :
  (forall v, numeral text v -> ~ overflows text -> Q (v, slen text) s) ->
  (overflows text -> (forall v, ~ numeral text v) -> E (Some (OutOfRange name)) s) ->
  (no_number text -> E (Some (InvalidArgument name)) s /\ forall v n, n <> slen text -> Q (v, n) s) ->
  wp (sto name text) Q E s.
Proof.
  intros HQ HO HE. unfold sto. destruct (strtoul text) as [| |v n] eqn:Hs.
  - apply wp_throw, HE. split; [by rewrite <- strtoul_overflows, Hs|].
    intros v Hv%strtoul_numeral. by rewrite Hs in Hv.
  - apply wp_throw, HO; [by apply strtoul_overflows|]. intros v Hv%strtoul_numeral. by rewrite Hs in Hv.
  - assert (~ overflows text) as Hno by (by rewrite <- strtoul_overflows, Hs).
    apply wp_ret. destruct (decide (n = slen text)) as [->|Hn].
    + apply HQ; [by apply strtoul_numeral|done].
    + apply HE; [|done]. split; [done|]. intros v' Hv%strtoul_numeral. rewrite Hs in Hv. by injection Hv.
Qed.

(** *** Decimal numerals *)

Lemma pretty_char_digit n : (n < 10)%N ->
  isdigit (pretty_N_char n) = true /\ digit_value (pretty_N_char n) = Z.of_N n.
Proof.
  intros Hn. destruct n as [|p]; [done|]. do 4 try destruct p as [p|p|]; first [done|lia].
Qed.

Lemma pretty_go_digits n s : all_chars isdigit s -> all_chars isdigit (pretty_N_go n s) /\
  digits_value 0 (pretty_N_go n s) = digits_value (Z.of_N n) s /\ (0 < n -> pretty_N_go n s <> "")%N.
Proof.
  revert s. induction (N.lt_wf_0 n) as [n _ IH]; intros s Hs.
  destruct (decide (n = 0)%N) as [->|Hn]; [by rewrite pretty_N_go_0|].
  pose proof (N.mod_lt n 10 ltac:(done)) as Hmod. destruct (pretty_char_digit _ Hmod) as [Hd Hv].
  rewrite pretty_N_go_step by lia.
  destruct (IH (n `div` 10)%N ltac:(apply N.div_lt; lia) (String (pretty_N_char (n `mod` 10)) s))
    as (H1 & H2 & H3); [by split|]. split; [done|]. split.
  - rewrite H2. simpl. f_equal. rewrite Hv. pose proof (N.div_mod n 10 ltac:(done)). lia.
  - intros _. destruct (decide (n `div` 10 = 0)%N) as [H0|H0]; [by rewrite H0, pretty_N_go_0|].
    apply H3. by apply N.neq_0_lt_0.
Qed.

(** A number in decimal is read back. *)
Lemma decimal_numeral n : is_u64 n -> accepted (decimal n) n.
Proof.
  intros Hn. unfold decimal, pretty, pretty_N.
  assert (exists ds, (if decide (Z.to_N n = 0%N) then "0" else pretty_N_go (Z.to_N n) "") = ds /\
    ds <> "" /\ all_chars isdigit ds /\ digits_value 0 ds = n) as (ds & -> & Hne & Hds & Hv).
  { unfold is_u64 in Hn. case_decide as H0.
    - exists "0"%string. split_and!; try done. change (0 = n). lia.
    - destruct (pretty_go_digits (Z.to_N n) "" I) as (H1 & H2 & H3).
      eexists. split; [done|]. split; [apply H3; lia|]. split; [done|]. rewrite H2. simpl. lia. }
  split.
  - destruct ds as [|c ds]; [done|]. by destruct (digit_not_space c (proj1 Hds)) as (_ & ? & _).
  - exists "", "", ds. rewrite Hv. unfold is_u64, u64_max in *. split_and!; try done; [auto|lia].
Qed.

(** Induction for a loop that may consume one or two elements. *)
Lemma list_one_or_two_ind {A} (P : list A -> Prop) :
  P [] -> (forall a l, P l -> P (tail l) -> P (a :: l)) -> forall l, P l.
Proof.
  intros Hnil Hcons l. cut (P l /\ P (tail l)); [by intros []|].
  induction l as [|a l [IH1 IH2]]; [done|]. split; [by apply Hcons|done].
Qed.

(** *** Parsers of one number *)

Section Parsers.
Context {X : Type}.

(** A parser takes the accepted texts whose value is in [ok], and throws the error
    that is [right] for every other text. *)
Definition parses (m : M X Z) (text : string) (ok : Z -> Prop) (right : string -> Prop) : Prop :=
  forall s, wp m (fun v s' => s' = s /\ accepted text v /\ ok v)
    (fun o s' => s' = s /\ (exists e, o = Some (RuntimeError e) /\ right e) /\
                 forall v, accepted text v -> ~ ok v) s.

(** A text that is refused at sight, or is not a number. *)
Definition malformed (text : string) : Prop := ~ too_large text /\ forall v, ~ accepted text v.

(** What a parser does that is given [body] for the number read, and handles the
    errors of the library by [handle]. *)
Lemma parses_number name text not_number large (body : Z * Z -> M X Z) handle ok (right : string -> Prop) :
  (malformed text -> right not_number) -> (too_large text -> right large) ->
  (forall s v, accepted text v -> ~ too_large text ->
     wp (body (v, slen text)) (fun w s' => s' = s /\ w = v /\ ok v)
       (fun o s' => s' = s /\ (exists e, o = Some (RuntimeError e) /\ right e) /\ ~ ok v) s) ->
  (forall s v n, n <> slen text -> body (v, n) s = (Throw (RuntimeError not_number), s)) ->
  (forall e s, handle (InvalidArgument e) s = (Throw (RuntimeError not_number), s)) ->
  (forall e s, handle (OutOfRange e) s = (Throw (RuntimeError large), s)) ->
  (forall e s, handle (RuntimeError e) s = (Throw (RuntimeError e), s)) ->
  parses (if (slen text =? 0) || starts_with "-"%char text then throw (RuntimeError not_number)
          else try_catch (sto name text ≫= body) handle) text ok right.
Proof.
  intros Hnot Hlarge Hbody Hpart Hinv Hrange Hrun s.
  assert (forall s', malformed text -> s' = s -> s' = s /\
    (exists e, Some (RuntimeError not_number) = Some (RuntimeError e) /\ right e) /\
    forall v, accepted text v -> ~ ok v) as Hrefuse.
  { intros s' Hm ->. split; [done|]. split; [exists not_number; by split; [|apply Hnot]|].
    intros v Hv. by destruct (proj2 Hm v Hv). }
  destruct (Z.eqb_spec (slen text) 0) as [H0|_]; simpl.
  { apply wp_throw, Hrefuse; [|done]. apply slen_zero in H0 as ->. split.
    - intros [_ (sp & sign & ds & rest & H & _ & _ & _ & _ & Hlt)].
      destruct sp; [|done]. destruct sign; [|done]. by destruct ds.
    - intros v [_ (sp & sign & ds & H & _ & _ & Hds & _)].
      destruct sp; [|done]. destruct sign; [|done]. by destruct Hds. }
  destruct (starts_with _ text) eqn:Hminus.
  { apply wp_throw, Hrefuse; [|done]. split; [by intros [H _]; rewrite H in Hminus|].
    intros v [H _]. by rewrite H in Hminus. }
  apply wp_try_catch, wp_bind, sto_spec.
  - intros v Hv Hno. eapply wp_mono; [apply Hbody; [by split|by intros [_ ?]]|by intros w s' (-> & -> & Hok)|].
    intros o s' (-> & (e & -> & He) & Hnok). unfold wp. rewrite Hrun.
    split; [done|]. split; [by eexists|]. intros v' [_ Hv']. by rewrite (numeral_functional _ _ _ Hv' Hv).
  - intros Hover Hno. unfold wp. rewrite Hrange. split; [done|].
    split; [exists large; by split; [|apply Hlarge]|]. intros v [_ Hv]. by apply Hno in Hv.
  - intros [Hno Hnone]. assert (malformed text) as Hm.
    { split; [by intros [_ ?]|]. intros v [_ Hv]. by apply Hnone in Hv. }
    split; [unfold wp; rewrite Hinv; by apply Hrefuse|].
    intros v n Hn. unfold wp. rewrite Hpart, Hrun by done. by apply Hrefuse.
Qed.

Lemma parses_accepted m text ok right v s :
  parses m text ok right -> accepted text v -> ok v -> m s = (Return v, s).
Proof.
  intros Hm Hv Hok. specialize (Hm s). unfold wp in Hm. destruct (m s) as [[w|e| |] s'].
  - destruct Hm as (-> & [_ Hw] & _). by rewrite (numeral_functional _ _ _ Hw (proj2 Hv)).
  - destruct Hm as (_ & _ & Hno). by destruct (Hno v Hv).
  - done.
  - destruct Hm as (_ & _ & Hno). by destruct (Hno v Hv).
Qed.

(** The errors of a port, and of a positive number. *)
Definition port_error (text error : string) : Prop :=
  (error = "port is out of range" /\ (too_large text \/ exists v, accepted text v /\ ~ is_u16 v)) \/
  (error = "port must be an integer" /\ malformed text).

Definition positive_error (option text error : string) : Prop :=
  (error = option +:+ " is out of range" /\ too_large text) \/
  (error = option +:+ " must be a positive integer" /\ (malformed text \/ accepted text 0)).

Lemma parse_port_spec text : parses (parse_port text) text is_u16 (port_error text).
Proof.
  unfold parse_port, stoul.
  apply (parses_number _ _ "port must be an integer" "port is out of range"); [by right|by left; auto|..|done|done|done].
  - intros s v Hv _. rewrite Z.eqb_refl. simpl. pose proof (numeral_u64 _ _ (proj2 Hv)).
    destruct (Z.ltb_spec 65535 v).
    + assert (~ is_u16 v) by (unfold is_u16; lia).
      apply wp_throw. split; [done|]. split; [|done]. eexists. split; [done|].
      left. split; [done|]. right. by exists v.
    + apply wp_ret. rewrite u16_id; unfold is_u16, is_u64 in *; split_and!; try done; lia.
  - intros s v n Hn. by destruct (Z.eqb_spec n (slen text)).
Qed.

Lemma parse_positive_size_spec option text :
  parses (parse_positive_size option text) text (fun v => 0 < v /\ is_u64 v) (positive_error option text).
Proof.
  unfold parse_positive_size, stoull.
  apply (parses_number _ _ (option +:+ " must be a positive integer") (option +:+ " is out of range"));
    [by right; auto|by left|..|done|done|done].
  - intros s v Hv _. rewrite Z.eqb_refl. simpl. pose proof (numeral_u64 _ _ (proj2 Hv)) as Hu.
    destruct (Z.eqb_spec v 0) as [->|H0]; simpl.
    { apply wp_throw. split; [done|]. split; [|lia]. eexists. split; [done|]. by right; auto. }
    destruct (Z.ltb_spec u64_max v); [unfold u64_max, is_u64 in *; lia|].
    apply wp_ret. rewrite u64_id by done. unfold is_u64 in *. split_and!; try done; lia.
  - intros s v n Hn. by destruct (Z.eqb_spec n (slen text)).
Qed.
End Parsers.
