(* ===== verification/ServerScope.v ===== *)
(** * The epoll server in the scope of a program

    What the programs that declare an [EpollEchoServer] in [main] share: the server
    as a part of the state of the process, and what its construction and its
    destruction leave. *)

From S2P Require Import Prelude Os UniqueFd Codec Handler BoundedQueue WorkerPool.
From S2P Require Import Connection ConnectionRegistry EpollServer ServerFrame ServerInvariant.
From S2P Require Import ServerProofs ServerTheorems ServerStart ServerLife CommandLine.

(** The process while the server is in scope. *)
Abbreviation Scope := (M (St (Console * EpollEchoServer))).

Definition on_server {A} (m : M (St EpollEchoServer) A) : Scope A :=
  zoom (fun p => Some p.2) (fun s p => (p.1, s)) m.

(** ** The construction *)

Section Main.
Context `{Sys : OS} `{Setup : !SetupLaws Sys}.

Definition same {X} (x : X) (st : St X) : Prop := self st = x.

Lemma same_syscall {X R} (x : X) (answer : History -> R) ev : follows (same x) (syscall answer ev).
Proof. by intros [y h] H. Qed.
#[local] Hint Resolve same_syscall : follow.
Lemma same_destroy {X} (x : X) u : follows (same x) (UniqueFd_destroy u).
Proof. intros [y h] H. by rewrite UniqueFd_destroy_run. Qed.
#[local] Hint Resolve same_destroy : follow.
Lemma same_setup {X} (x : X) c name : follows (same x) (setup_or_throw c name).
Proof. unfold setup_or_throw, setup. follow. Qed.
#[local] Hint Resolve same_setup : follow.
Lemma same_ctl {X} (x : X) op fd ev name : follows (same x) (EpollCtl op fd ev name).
Proof. unfold EpollCtl, epoll_ctl. follow. Qed.
#[local] Hint Resolve same_ctl : follow.
Lemma same_signal_set {X} (x : X) sigs : follows (same x) (BuildSignalSet sigs).
Proof.
  assert (forall set, follows (same x) (BuildSignalSet_loop sigs set)) as H.
  { induction sigs as [|sig sigs IH]; intros set; simpl; follow. }
  unfold BuildSignalSet. follow.
Qed.
#[local] Hint Resolve same_signal_set : follow.
Lemma same_pool {X} (x : X) options : follows (same x) (make_pool options).
Proof. intros st H. unfold make_pool. by destruct (WorkerPool_make _ _ _ _). Qed.
#[local] Hint Resolve same_pool : follow.

(** The constructor of the server is run on behalf of an object that it leaves
    as it is. *)
Lemma construct_same {X} mask0 port options (x : X) :
  follows (same x) (EpollEchoServer_construct mask0 port options).
Proof.
  unfold EpollEchoServer_construct, ServerStart.CreateListener, CreateEpoll, BlockShutdownSignals,
    CreateWorkerWakeup, CreateShutdownSignalFd, RequireConnectionLimits, RequirePositiveBudget,
    ServerStart.BoundPort, AddListenerToEpoll, AddWorkerWakeupToEpoll, AddShutdownSignalToEpoll, holding,
    Restore, setup.
  follow.
Qed.

Lemma construct_throws mask0 port options (c : Console) :
  options_wf options ->
  wp (EpollEchoServer_construct mask0 port options)
    (fun r st => EpollEchoServer_construct mask0 port options (mkSt c []) = (Return r, st))
    (fun o st => clean mask0 (hist st) /\ self st = c /\ exists e, o = Some e /\
       EpollEchoServer_construct mask0 port options (mkSt c []) = (Throw e, st)) (mkSt c []).
Proof.
  intros Hopt. pose proof (wp_construct mask0 _ [] port options mask0 (mkSt c []) Hopt
    (building_start mask0 _ [] c) eq_refl) as Hb.
  pose proof (construct_same mask0 port options c (mkSt c []) eq_refl) as Hself. unfold wp, same in *.
  destruct (EpollEchoServer_construct mask0 port options (mkSt c [])) as [[r|e| |] st]; [done| |done|].
  - destruct Hb as (_ & ws & es & Hh & Hheld & Hmask & _ & Hes & _). destruct st as [c' h']. simpl in *. subst c' h'.
    split; [|by split; [|by exists e]]. destruct (start_events_log _ Hes) as (_ & _ & Hopen).
    split_and!; [done| |done].
    intros fd Hfd. destruct (held_created _ _ _ Hheld Hfd) as [H|H]; [|done]. by apply not_elem_of_nil in H.
  - by destruct Hb as [[] _].
Qed.

(** ** The destruction *)

Context `{!OSLaws Sys} `{!ShortRun Sys} `{!EpollLaws Sys} `{Env : Environment} `{!EnvironmentLaws Env}.

Lemma wp_on_server {A} (m : M (St EpollEchoServer) A) Q E (c : Console) s h :
  wp m (fun a st => Q a (mkSt (c, self st) (hist st))) (fun o st => E o (mkSt (c, self st) (hist st)))
    (mkSt s h) ->
  wp (on_server m) Q E (mkSt (c, s) h).
Proof. intros Hm. by apply (wp_zoom _ _ _ _ _ _ s). Qed.

Lemma on_server_fuel {A} (m : M (St EpollEchoServer) A) (c : Console) s h :
  fst (on_server m (mkSt (c, s) h)) = OutOfFuel -> fst (m (mkSt s h)) = OutOfFuel.
Proof. unfold on_server, zoom. simpl. by destruct (m _) as [? []]. Qed.

(** The history of a server's life, from its parts. *)
Lemma life_clean mask0 es0 es1 es2 clients s :
  held es0 = Some (server_fds s) -> Forall run_event es1 -> created_fds es2 = [] ->
  let h := es0 ++ es1 ++ es2 ++ (EvClose <$> clients) ++ (EvClose <$> server_fds s) in
  (forall fd, is_open fd h = false) -> signal_mask mask0 h = mask0 -> clean mask0 h.
Proof.
  intros Hheld H1 H2 h Hopen Hmask. split; [done|]. split; [|done]. intros fd Hfd. unfold h in *.
  assert (forall fds, created_fds (EvClose <$> fds) = [] /\ closed_fds (EvClose <$> fds) = fds) as Hcl.
  { intros fds. induction fds as [|f fds [IH1 IH2]]; [done|]. split; [exact IH1|].
    change (f :: closed_fds (EvClose <$> fds) = f :: fds). by rewrite IH2. }
  rewrite !created_fds_app in Hfd. rewrite !closed_fds_app.
  rewrite (run_creates_nothing es1 H1), H2, !(proj1 (Hcl _)), !app_nil_r in Hfd.
  rewrite !(proj2 (Hcl _)). destruct (held_created _ _ _ Hheld Hfd) as [H|H].
  - rewrite !elem_of_app. do 4 right. done.
  - rewrite elem_of_app. by left.
Qed.

(** What the destructor leaves, in the block. *)
Lemma destroy_in_block mask0 fuel port options (c : Console) s m st1 :
  options_wf options ->
  EpollEchoServer_construct mask0 port options (mkSt c []) = (Return (s, m), st1) ->
  forall c' st2, later s st1 st2 ->
  wp (on_server (EpollEchoServer_destroy default_handler fuel m))
    (fun _ st => clean mask0 (hist st) /\ hist st2 `prefix_of` hist st /\ (self st).1 = c') (fun o _ => o = None)
    (mkSt (c', self st2) (hist st2)).
Proof.
  intros Hopt Hstart c' [s2 h2] Hlater. pose proof Hlater as [_ [(es1 & Hes1 & Hev) _]].
  destruct (built_spec mask0 port options c s m st1 Hopt Hstart) as [(es0 & Hes0 & Hheld & _) _].
  apply wp_on_server. eapply wp_mono; [by apply (destroy_later mask0 default_handler fuel port options c s m st1)| |done].
  intros _ [s3 h3] (Hopen & Hmask & es2 & clients & Hc & Hh). unfold swept in *. simpl in *.
  split; [|split; [by exists (es2 ++ (EvClose <$> clients) ++ (EvClose <$> server_fds s))|done]].
  rewrite Hh, Hes1, Hes0, <- !app_assoc in *. by apply life_clean.
Qed.
End Main.
