(* ===== verification/EpollMain.v ===== *)
(** * The epoll server program

    [apps/epoll_server/main.cpp]: its options, and the life of the process.  The
    options are specified by a grammar of their own ([Limit], [reads], [configured],
    [refused]), against which the parser is proved. *)

From Stdlib Require Import Ascii.
From S2P Require Import Prelude Os Scripted UniqueFd Codec Handler BoundedQueue WorkerPool.
From S2P Require Import Connection ConnectionRegistry EpollServer ServerFrame ServerInvariant.
From S2P Require Import ServerProofs ServerTheorems ServerStart ServerLife CommandLine ServerScope.

Record ServerConfig : Type := { config_port : Z; config_options : EpollEchoServerOptions }.
Definition ServerConfig_default : ServerConfig :=
  {| config_port := 9000; config_options := EpollEchoServerOptions_default |}.

(** ** Options *)

Definition ParsePort {S} (text : string) : M S Z := parse_port text.

Definition ParsePositiveSize {S} (option text : string) : M S Z := parse_positive_size option text.

(** The options that take a value. *)
Definition option_names : list string :=
  ["--workers"; "--queue-capacity"; "--max-connections"; "--max-in-flight"; "--max-read-bytes";
   "--max-write-bytes"; "--max-input-buffer"; "--max-output-buffer"].

Definition set_option (option : string) (value : Z) (o : EpollEchoServerOptions) :
    EpollEchoServerOptions :=
  let pick name old := if String.eqb option name then value else old in
  let limits := options_connection_limits o in
  {| options_worker_count := pick "--workers" (options_worker_count o);
     options_work_queue_capacity := pick "--queue-capacity" (options_work_queue_capacity o);
     options_max_read_bytes_per_event := pick "--max-read-bytes" (options_max_read_bytes_per_event o);
     options_max_write_bytes_per_event := pick "--max-write-bytes" (options_max_write_bytes_per_event o);
     options_max_connections := pick "--max-connections" (options_max_connections o);
     options_max_in_flight_requests_per_connection :=
       pick "--max-in-flight" (options_max_in_flight_requests_per_connection o);
     options_connection_limits :=
       {| max_input_buffer := pick "--max-input-buffer" (max_input_buffer limits);
          max_output_buffer := pick "--max-output-buffer" (max_output_buffer limits) |};
     options_handler := options_handler o;
     options_shutdown_signals := options_shutdown_signals o |}.

(** The loop of [ParseArgs], over the arguments after the current one. *)
Fixpoint ParseArgs_loop {S} (args : list string) (config : ServerConfig) (port_set : bool) :
    M S ServerConfig :=
  match args with
  | [] => mret config
  | option :: args =>
    if existsb (String.eqb option) option_names then
      match args with
      | [] => throw (RuntimeError (option +:+ " requires a value"))
      | text :: args =>
        value ← ParsePositiveSize option text;
        ParseArgs_loop args {| config_port := config_port config;
          config_options := set_option option value (config_options config) |} port_set
      end
    else if starts_with "-"%char option then throw (RuntimeError ("unknown option: " +:+ option))
    else if port_set then throw (RuntimeError "port specified more than once")
    else
      port ← ParsePort option;
      ParseArgs_loop args {| config_port := port; config_options := config_options config |} true
  end.

(** [argv] with the name of the program, if there is one. *)
Definition ParseArgs {S} (argv : list string) : M S ServerConfig :=
  ParseArgs_loop (drop 1 argv) ServerConfig_default false.

(** ** The process *)

Definition SIGINT : Z := 2.
Definition SIGTERM : Z := 15.

Definition with_shutdown_signals (signals : list Z) (o : EpollEchoServerOptions) :
    EpollEchoServerOptions :=
  {| options_worker_count := options_worker_count o;
     options_work_queue_capacity := options_work_queue_capacity o;
     options_max_read_bytes_per_event := options_max_read_bytes_per_event o;
     options_max_write_bytes_per_event := options_max_write_bytes_per_event o;
     options_max_connections := options_max_connections o;
     options_max_in_flight_requests_per_connection := options_max_in_flight_requests_per_connection o;
     options_connection_limits := options_connection_limits o;
     options_handler := options_handler o; options_shutdown_signals := signals |}.

Definition usage : string :=
  "usage: pulsecore_epoll_server [port] [--workers N] [--queue-capacity N]" +:+ newline +:+
  "       [--max-connections N] [--max-in-flight N] [--max-read-bytes N]" +:+ newline +:+
  "       [--max-write-bytes N] [--max-input-buffer N] [--max-output-buffer N]" +:+ newline.

Definition startup (port : Z) (o : EpollEchoServerOptions) : string :=
  "PulseCore epoll server listening on 127.0.0.1:" +:+ decimal port +:+ newline +:+
  "options workers=" +:+ decimal (options_worker_count o) +:+
  " queue_capacity=" +:+ decimal (options_work_queue_capacity o) +:+
  " max_connections=" +:+ decimal (options_max_connections o) +:+
  " max_in_flight=" +:+ decimal (options_max_in_flight_requests_per_connection o) +:+
  " max_read_bytes=" +:+ decimal (options_max_read_bytes_per_event o) +:+
  " max_write_bytes=" +:+ decimal (options_max_write_bytes_per_event o) +:+
  " max_input_buffer=" +:+ decimal (max_input_buffer (options_connection_limits o)) +:+
  " max_output_buffer=" +:+ decimal (max_output_buffer (options_connection_limits o)) +:+ newline.

Section Program.
Context `{Sys : OS} `{Env : Environment} (strerror : Z -> string) (fuel turns : nat).

(** The process, and the process while the server is in scope. *)
Abbreviation Prog := (M (St Console)).

Definition out (text : string) : Prog unit := print (fun c => c) (fun c _ => c) text.
Definition err (text : string) : Prog unit := print_error (fun c => c) (fun c _ => c) text.
Definition scope_out (text : string) : Scope unit := print fst (fun c p => (c, p.2)) text.

Definition PrintUsage : Prog unit := err usage.
Definition PrintStartup (port : Z) (o : EpollEchoServerOptions) : Scope unit := scope_out (startup port o).

(** A block that declares the server and goes on with [m]; at its end, however it
    is left, the server is destroyed. *)
Definition server_block {A} (handler_ : WorkHandler) (mask : ShutdownSignalMaskState) (m : Scope A) : Scope A :=
  a ← on_exception m (on_server (EpollEchoServer_destroy handler_ fuel mask));
  on_server (EpollEchoServer_destroy handler_ fuel mask) ;;
  mret a.
Definition with_server {A} (handler_ : WorkHandler) (server : EpollEchoServer)
    (mask : ShutdownSignalMaskState) (m : Scope A) : Prog A := fun st =>
  let '(r, st') := server_block handler_ mask m (mkSt (self st, server) (hist st)) in
  (r, mkSt (fst (self st')) (hist st')).

(** The statements of [main] after the declaration of the server. *)
Definition serve (handler_ : WorkHandler) (options : EpollEchoServerOptions) : Scope unit :=
  this ← get_self;
  PrintStartup (EpollEchoServer_port this.2) options ;;
  on_server (Run handler_ fuel turns) ;;
  scope_out ("PulseCore epoll server stopped" +:+ newline).

Definition main (mask0 : gset Z) (argv : list string) : Prog Z :=
  try_catch (
    if (len argv =? 2) && bool_decide (argv !! 1%nat = Some "--help"%string)
    then PrintUsage ;; mret 0 else
    config ← ParseArgs argv;
    let options := with_shutdown_signals [SIGINT; SIGTERM] (config_options config) in
    handler_ ← the (options_handler options);
    '(server, mask) ← EpollEchoServer_construct mask0 (config_port config) options;
    with_server handler_ server mask (serve handler_ options) ;;
    mret 0)
  (fun error =>
    PrintUsage ;;
    err ("pulsecore_epoll_server: " +:+ what strerror error +:+ newline) ;;
    mret 1).
End Program.

(** ** Options: what is accepted *)

Section Parsing.
Context {S : Type}.

(** What [ParseArgs] promises of a configuration. *)
Definition config_ok (c : ServerConfig) : Prop :=
  is_u16 (config_port c) /\ options_wf (config_options c) /\ options_positive (config_options c) /\
  0 < options_worker_count (config_options c) /\
  options_handler (config_options c) = Some default_handler /\
  options_shutdown_signals (config_options c) = [].

Lemma config_ok_default : config_ok ServerConfig_default.
Proof. unfold config_ok, options_positive. split_and!; try done; by_decide. Qed.

Lemma set_option_ok option value port o :
  config_ok {| config_port := port; config_options := o |} -> 0 < value -> is_u64 value ->
  config_ok {| config_port := port; config_options := set_option option value o |}.
Proof.
  unfold config_ok, options_wf, options_positive. simpl. intros H H0 Hu.
  assert (forall name old, is_u64 old -> is_u64 (if String.eqb option name then value else old)) as Hpick
    by (intros name old; by destruct (String.eqb option name)).
  assert (forall name old, old <> 0 -> (if String.eqb option name then value else old) <> 0) as Hnz
    by (intros name old; destruct (String.eqb option name); [lia|done]).
  destruct H as (Hp & (?&?&?&?&?&?&?&?) & (?&?&?&?&?&?&?) & Hw & Hh & Hs).
  split; [done|]. split; [split_and!; by apply Hpick|]. split; [split_and!; by apply Hnz|].
  split; [by destruct (String.eqb option _)|done].
Qed.

(** *** The grammar

    The limits that the command line can set, under the names users give them, with
    the values they have otherwise.  Nothing here refers to the parser. *)
Inductive Limit : Type :=
| Workers | QueueCapacity | MaxConnections | MaxInFlight | MaxReadBytes | MaxWriteBytes
| MaxInputBuffer | MaxOutputBuffer.

#[export] Instance Limit_eq_dec : EqDecision Limit.
Proof. solve_decision. Defined.

Definition flag (l : Limit) : string :=
  match l with
  | Workers => "--workers" | QueueCapacity => "--queue-capacity" | MaxConnections => "--max-connections"
  | MaxInFlight => "--max-in-flight" | MaxReadBytes => "--max-read-bytes"
  | MaxWriteBytes => "--max-write-bytes" | MaxInputBuffer => "--max-input-buffer"
  | MaxOutputBuffer => "--max-output-buffer"
  end.

Definition limit_default (l : Limit) : Z :=
  match l with
  | Workers => 2 | QueueCapacity => 1024 | MaxConnections => 1024 | MaxInFlight => 1024
  | MaxReadBytes => 65536 | MaxWriteBytes => 65536
  | MaxInputBuffer => 65556 | MaxOutputBuffer => 65556   (** a header of 20 bytes and a payload *)
  end.

Definition limit_of (l : Limit) (o : EpollEchoServerOptions) : Z :=
  match l with
  | Workers => options_worker_count o
  | QueueCapacity => options_work_queue_capacity o
  | MaxConnections => options_max_connections o
  | MaxInFlight => options_max_in_flight_requests_per_connection o
  | MaxReadBytes => options_max_read_bytes_per_event o
  | MaxWriteBytes => options_max_write_bytes_per_event o
  | MaxInputBuffer => max_input_buffer (options_connection_limits o)
  | MaxOutputBuffer => max_output_buffer (options_connection_limits o)
  end.

(** The arguments of a command line, and how they are written. *)
Inductive Argument : Type := ArgLimit (l : Limit) (value : Z) | ArgPort (port : Z).

Definition argument_ok (a : Argument) : Prop :=
  match a with
  | ArgLimit _ value => 0 < value /\ is_u64 value
  | ArgPort port => is_u16 port
  end.
Definition written (a : Argument) : list string :=
  match a with
  | ArgLimit l value => [flag l; decimal value]
  | ArgPort port => [decimal port]
  end.

Definition ports_given (args : list Argument) : list Z :=
  omap (fun a => match a with ArgPort port => Some port | _ => None end) args.
Definition values_given (l : Limit) (args : list Argument) : list Z :=
  omap (fun a => match a with ArgLimit l' v => if decide (l' = l) then Some v else None | _ => None end) args.

(** The configuration that the arguments describe: every field of it. *)
Definition configured (args : list Argument) (c : ServerConfig) : Prop :=
  config_port c = given (ports_given args) 9000 /\
  (forall l, limit_of l (config_options c) = given (values_given l args) (limit_default l)) /\
  options_handler (config_options c) = Some default_handler /\
  options_shutdown_signals (config_options c) = [].

(** The arguments that a list of texts is read as. *)
Inductive reads : list string -> list Argument -> Prop :=
| reads_nil : reads [] []
| reads_limit l text v texts args :
    accepted text v -> 0 < v -> is_u64 v -> reads texts args -> reads (flag l :: text :: texts) (ArgLimit l v :: args)
| reads_port text v texts args :
    accepted text v -> is_u16 v -> reads texts args -> reads (text :: texts) (ArgPort v :: args).

(** The texts that are not the arguments of a command line, with the message of the
    first thing wrong in them; [port_seen]: a port came before. *)
Inductive refused : list string -> bool -> string -> Prop :=
| refused_no_value l port_seen : refused [flag l] port_seen (flag l +:+ " requires a value")
| refused_value l text texts port_seen e :
    positive_error (flag l) text e -> refused (flag l :: text :: texts) port_seen e
| refused_unknown name texts port_seen :
    starts_with "-"%char name = true -> (forall l, name <> flag l) ->
    refused (name :: texts) port_seen ("unknown option: " +:+ name)
| refused_second_port text texts :
    starts_with "-"%char text = false -> refused (text :: texts) true "port specified more than once"
| refused_port text texts e :
    starts_with "-"%char text = false -> port_error text e -> refused (text :: texts) false e
| refused_after_limit l text v texts port_seen e :
    accepted text v -> 0 < v -> is_u64 v -> refused texts port_seen e ->
    refused (flag l :: text :: texts) port_seen e
| refused_after_port text v texts e :
    accepted text v -> is_u16 v -> refused texts true e -> refused (text :: texts) false e.

(** *** The parser against the grammar *)

Lemma flag_known name : existsb (String.eqb name) option_names = true <-> exists l, name = flag l.
Proof.
  split.
  - intros (n & Hn & ->%String.eqb_eq)%List.existsb_exists.
    repeat destruct Hn as [<-|Hn]; [by eexists Workers|by eexists QueueCapacity|by eexists MaxConnections|
      by eexists MaxInFlight|by eexists MaxReadBytes|by eexists MaxWriteBytes|by eexists MaxInputBuffer|
      by eexists MaxOutputBuffer|done].
  - intros [l ->]. by destruct l.
Qed.

Lemma flag_minus l : starts_with "-"%char (flag l) = true.
Proof. by destruct l. Qed.

Lemma flag_inj l l' : flag l = flag l' -> l = l'.
Proof. by destruct l, l'. Qed.

Lemma not_a_flag s l : starts_with "-"%char s = false -> s <> flag l.
Proof. intros H ->. by rewrite flag_minus in H. Qed.

(** [set_option] sets the limit of that name, and nothing else. *)
Lemma limit_of_set_option l l' v o :
  limit_of l (set_option (flag l') v o) = if decide (l' = l) then v else limit_of l o.
Proof. by destruct l, l'. Qed.

(** [c] is [start] with what the arguments override. *)
Definition overridden (start : ServerConfig) (args : list Argument) (c : ServerConfig) : Prop :=
  config_port c = given (ports_given args) (config_port start) /\
  (forall l, limit_of l (config_options c) = given (values_given l args) (limit_of l (config_options start))) /\
  options_handler (config_options c) = options_handler (config_options start) /\
  options_shutdown_signals (config_options c) = options_shutdown_signals (config_options start).

Definition apply_argument (a : Argument) (c : ServerConfig) : ServerConfig :=
  match a with
  | ArgLimit l v => {| config_port := config_port c; config_options := set_option (flag l) v (config_options c) |}
  | ArgPort port => {| config_port := port; config_options := config_options c |}
  end.

Lemma overridden_cons a start args c :
  overridden (apply_argument a start) args c -> overridden start (a :: args) c.
Proof.
  intros (Hp & Hl & Hh & Hs). destruct a as [l v|port]; simpl in *; (split; [|split; [|done]]).
  - done.
  - intros l'. rewrite Hl, limit_of_set_option. unfold values_given. cbn.
    by destruct (decide (l = l')); [rewrite given_cons|].
  - by rewrite Hp; symmetry; apply given_cons.
  - exact Hl.
Qed.

Lemma overridden_configured args c : overridden ServerConfig_default args c -> configured args c.
Proof. intros (Hp & Hl & H). split; [done|]. split; [|done]. intros l. rewrite Hl. by destruct l. Qed.

(** Every field is determined. *)
Lemma configured_unique args c c' : configured args c -> configured args c' -> c = c'.
Proof.
  intros (Hp & Hl & Hh & Hs) (Hp' & Hl' & Hh' & Hs'). assert (forall l, limit_of l (config_options c) =
    limit_of l (config_options c')) as H by (intros l; by rewrite Hl, Hl').
  pose proof (H Workers). pose proof (H QueueCapacity). pose proof (H MaxConnections). pose proof (H MaxInFlight).
  pose proof (H MaxReadBytes). pose proof (H MaxWriteBytes). pose proof (H MaxInputBuffer).
  pose proof (H MaxOutputBuffer). destruct c as [p [a b c d e f [i j] h s]], c' as [p' [a' b' c' d' e' f' [i' j'] h' s']].
  simpl in *. congruence.
Qed.

Definition ports (args : list Argument) : nat := length (ports_given args).

Lemma ports_cons a args :
  ports (a :: args) = ((match a with ArgPort _ => 1 | _ => 0 end) + ports args)%nat.
Proof. by destruct a. Qed.

Definition loop_fails (texts : list string) (port_set : bool) (s : S) (o : option Exception) (s' : S) : Prop :=
  s' = s /\ (exists e, o = Some (RuntimeError e) /\ refused texts port_set e) /\
  forall args, reads texts args -> ~ (ports args + nat_of port_set <= 1)%nat.
Definition loop_returns (texts : list string) (config : ServerConfig) (port_set : bool) (s : S)
    (c : ServerConfig) (s' : S) : Prop :=
  s' = s /\ config_ok c /\ exists args, reads texts args /\ (ports args + nat_of port_set <= 1)%nat /\
    overridden config args c.

(** The first text is read as [a], which takes the texts [used]. *)
Lemma epoll_loop_step used a texts config config' port_set port_set' s :
  (forall args, reads texts args -> reads (used ++ texts) (a :: args)) ->
  (forall args, reads (used ++ texts) args -> exists args', args = a :: args' /\ reads texts args') ->
  (forall e, refused texts port_set' e -> refused (used ++ texts) port_set e) ->
  config' = apply_argument a config ->
  nat_of port_set' = (nat_of port_set + match a with ArgPort _ => 1 | _ => 0 end)%nat ->
  wp (ParseArgs_loop texts config' port_set') (loop_returns texts config' port_set' s)
    (loop_fails texts port_set' s) s ->
  wp (ParseArgs_loop texts config' port_set') (loop_returns (used ++ texts) config port_set s)
    (loop_fails (used ++ texts) port_set s) s.
Proof.
  intros Hread Hinv Hrefused -> Hset Hwp. eapply wp_mono; [exact Hwp| |].
  - intros c s' (-> & Hc & args & Hr & Hp & Hover). split; [done|]. split; [done|].
    exists (a :: args). split; [by apply Hread|]. rewrite ports_cons. split; [lia|by apply overridden_cons].
  - intros o s' (-> & (e & -> & He) & Hno). split; [done|]. split; [by exists e; split; [|apply Hrefused]|].
    intros args (args' & -> & Hr)%Hinv. apply Hno in Hr. rewrite ports_cons. lia.
Qed.

(** What a list of texts that begins with a limit is read as. *)
Lemma reads_limit_inv l texts args :
  reads (flag l :: texts) args -> exists text texts' v args', texts = text :: texts' /\
    args = ArgLimit l v :: args' /\ accepted text v /\ 0 < v /\ is_u64 v /\ reads texts' args'.
Proof.
  intros Hr. inversion Hr as [|l' ? ? ? ? ? ? ? ? Heq|? ? ? ? [Hm _]]; subst.
  - apply flag_inj in Heq as ->. by eexists _, _, _, _.
  - by rewrite flag_minus in Hm.
Qed.

Lemma reads_port_inv text texts args :
  (forall l, text <> flag l) -> reads (text :: texts) args ->
  exists v args', args = ArgPort v :: args' /\ accepted text v /\ is_u16 v /\ reads texts args'.
Proof. intros Hne Hr. inversion Hr; subst; [by destruct (Hne l)|by eexists _, _]. Qed.

Lemma epoll_ParseArgs_limit l texts config port_set s :
  config_ok config ->
  (forall config', config_ok config' -> wp (ParseArgs_loop (tail texts) config' port_set)
     (loop_returns (tail texts) config' port_set s) (loop_fails (tail texts) port_set s) s) ->
  wp (match texts with
      | [] => throw (RuntimeError (flag l +:+ " requires a value"))
      | text :: args =>
        value ← ParsePositiveSize (flag l) text;
        ParseArgs_loop args {| config_port := config_port config;
          config_options := set_option (flag l) value (config_options config) |} port_set
      end) (loop_returns (flag l :: texts) config port_set s) (loop_fails (flag l :: texts) port_set s) s.
Proof.
  intros Hc IH. destruct texts as [|text texts].
  { apply wp_throw. split; [done|]. split; [eexists; split; [done|constructor]|].
    by intros args (? & ? & ? & ? & ? & _)%reads_limit_inv. }
  eapply wp_call; [apply parse_positive_size_spec| |].
  - intros v s' (-> & Hacc & H0 & Hu).
    apply (epoll_loop_step [flag l; text] (ArgLimit l v) texts config _ port_set port_set); [..|by simpl; lia|].
    + intros args Hr. by constructor.
    + intros args (text' & texts' & v' & args' & [= -> ->] & -> & Hacc' & _ & _ & Hr)%reads_limit_inv.
      exists args'. by rewrite (numeral_functional text' v v'); [|apply Hacc|apply Hacc'].
    + intros e He. by eapply refused_after_limit.
    + done.
    + apply IH. by apply (set_option_ok (flag l) v).
  - intros e s' (-> & (msg & -> & Hmsg) & Hno). split; [done|].
    split; [eexists; split; [done|by constructor]|].
    intros args (text' & texts' & v & args' & [= -> ->] & _ & Hacc & H0 & Hu & _)%reads_limit_inv.
    by destruct (Hno v).
Qed.

Lemma epoll_ParseArgs_loop_spec texts config port_set s :
  config_ok config ->
  wp (ParseArgs_loop texts config port_set) (loop_returns texts config port_set s)
    (loop_fails texts port_set s) s.
Proof.
  revert config port_set.
  induction texts as [|option texts IH1 IH2] using list_one_or_two_ind; intros config port_set Hc.
  { apply wp_ret. split; [done|]. split; [done|]. exists []. split; [constructor|].
    split; [by destruct port_set; simpl; lia|done]. }
  cbn [ParseArgs_loop]. destruct (existsb (String.eqb option) option_names) eqn:Hknown.
  { apply flag_known in Hknown as [l ->]. apply epoll_ParseArgs_limit; [done|]. intros config' Hc'. by apply IH2. }
  assert (forall l, option <> flag l) as Hne.
  { intros l ->. by rewrite (proj2 (flag_known _)) in Hknown; [|exists l]. }
  pose proof (reads_port_inv option texts) as Hinv.
  destruct (starts_with _ option) eqn:Hm.
  { apply wp_throw. split; [done|]. split; [eexists; split; [done|by constructor]|].
    intros args (v & args' & _ & [Hm' _] & _)%Hinv; [|done]. congruence. }
  destruct port_set.
  { apply wp_throw. split; [done|]. split; [eexists; split; [done|by constructor]|].
    intros args (v & args' & -> & _)%Hinv; [|done]. rewrite ports_cons. simpl. lia. }
  eapply wp_call; [apply parse_port_spec| |].
  - intros v s' (-> & Hacc & Hv).
    apply (epoll_loop_step [option] (ArgPort v) texts config _ false true); [..|done|].
    + intros args Hr. by constructor.
    + intros args (v' & args' & -> & Hacc' & _ & Hr)%Hinv; [|done]. exists args'.
      by rewrite (numeral_functional option v v'); [|apply Hacc|apply Hacc'].
    + intros e He. by eapply refused_after_port.
    + done.
    + apply IH1. by destruct Hc as [_ Hc].
  - intros e s' (-> & (msg & -> & Hmsg) & Hno). split; [done|].
    split; [eexists; split; [done|by constructor]|].
    intros args (v & args' & -> & Hacc & Hv & _)%Hinv; [|done]. by destruct (Hno v).
Qed.

Lemma epoll_reads_functional texts args args' : reads texts args -> reads texts args' -> args = args'.
Proof.
  intros H. revert args'.
  induction H as [|l text v texts args Hacc _ _ _ IH|text v texts args Hacc _ _ IH]; intros args' H'.
  - by inversion H'.
  - apply reads_limit_inv in H' as (? & ? & v' & args2 & [= <- <-] & -> & Hacc' & _ & _ & H2).
    by rewrite (numeral_functional _ _ _ (proj2 Hacc) (proj2 Hacc')), (IH _ H2).
  - apply reads_port_inv in H' as (v' & args2 & -> & Hacc' & _ & H2); [|intros l; by apply not_a_flag, Hacc].
    by rewrite (numeral_functional _ _ _ (proj2 Hacc) (proj2 Hacc')), (IH _ H2).
Qed.

(** What was written is read back. *)
Lemma reads_written args : Forall argument_ok args -> reads (flat_map written args) args.
Proof.
  induction 1 as [|[l v|v] args Ha _ IH]; simpl in *; [constructor|..].
  - destruct Ha as [? ?]. constructor; try done. by apply decimal_numeral.
  - constructor; try done. apply decimal_numeral. unfold is_u16, is_u64 in *. lia.
Qed.
End Parsing.

(** ** The process: what it leaves *)

Section Main.
Context `{Sys : OS} `{Setup : !SetupLaws Sys}.

Context `{!OSLaws Sys} `{!ShortRun Sys} `{!EpollLaws Sys} `{Env : Environment} `{!EnvironmentLaws Env}.
Context (strerror : Z -> string) (fuel turns : nat).

(** What the program has printed when the server is gone: its start, and that it
    stopped if it did. *)
Definition stopped : string := "PulseCore epoll server stopped" +:+ newline.
Definition printed (c0 : Console) (banner : string) (tail : string) (c : Console) : Prop :=
  c = {| cout := cout c0 +:+ banner +:+ tail; cerr := cerr c0 |}.

(** What the process has printed, and that it leaves nothing behind, when the run of
    the server from [st1] has ended in [st2] and the server is destroyed. *)
Definition ended (mask0 : gset Z) (c : Console) (banner tail : string) (st2 : St EpollEchoServer)
    (st : St Console) : Prop :=
  clean mask0 (hist st) /\ hist st2 `prefix_of` hist st /\ printed c banner tail (self st).

(** The server runs on; or the destructor waits, for a worker whose handler does not
    return. *)
Definition running_on (c : Console) (banner : string) (m : ShutdownSignalMaskState) (r : Result unit)
    (c' : Console) : Prop :=
  (r = OutOfFuel /\ printed c banner "" c') \/
  exists st, fst (EpollEchoServer_destroy default_handler fuel m st) = OutOfFuel.

(** The block in which the server is in scope. *)
Lemma epoll_with_server_spec mask0 port options (c : Console) s m st1 r st2 :
  options_wf options -> EpollEchoServer_construct mask0 port options (mkSt c []) = (Return (s, m), st1) ->
  Run default_handler fuel turns (mkSt s (hist st1)) = (r, st2) ->
  wp (with_server fuel default_handler s m (serve fuel turns default_handler options))
    (fun _ st => r = Return tt /\ ended mask0 c (startup (port_ s) options) stopped st2 st)
    (fun o st => match o with
       | Some e => r = Throw e /\ ended mask0 c (startup (port_ s) options) "" st2 st
       | None => running_on c (startup (port_ s) options) m r (self st) end) st1.
Proof.
  intros Hopt Hstart Hrun.
  pose proof (wp_construct mask0 _ [] port options mask0 (mkSt c []) Hopt
    (building_start mask0 _ [] c) eq_refl) as Hb.
  apply (wp_run _ _ _ _ _ _ Hb) in Hstart as Hbuilt. destruct Hbuilt as ((es0 & Hes0 & Hheld & _) & _).
  pose proof (construct_same mask0 port options c (mkSt c []) eq_refl) as Hself.
  rewrite Hstart in Hself. unfold same in Hself.
  destruct st1 as [c1 h1]. simpl in Hself, Hes0, Hheld, Hrun. subst c1 h1.
  set (c1 := {| cout := cout c +:+ startup (port_ s) options; cerr := cerr c |}).
  set (c2 := {| cout := cout c1 +:+ stopped; cerr := cerr c1 |}).
  assert (printed c (startup (port_ s) options) stopped c2) as Hc2.
  { unfold printed, c2, c1. simpl. by rewrite <- string_app_assoc. }
  assert (printed c (startup (port_ s) options) "" c1) as Hc1.
  { unfold printed, c1. by rewrite string_app_nil_r. }
  assert (wp (server_block fuel default_handler m (serve fuel turns default_handler options))
    (fun _ st => r = Return tt /\ clean mask0 (hist st) /\ hist st2 `prefix_of` hist st /\ (self st).1 = c2)
    (fun o st => match o with
       | Some e => r = Throw e /\ clean mask0 (hist st) /\ hist st2 `prefix_of` hist st /\ (self st).1 = c1
       | None => running_on c (startup (port_ s) options) m r (self st).1 end) (mkSt (c, s) es0)) as Hall.
  2: { revert Hall. unfold wp, with_server, ended. simpl.
       destruct (server_block _ _ _ _ _) as [[] st]; simpl; try done;
         intros (-> & Hclean & Hpre & ->); by split_and!. }
  assert (forall c' (Q : unit -> St (Console * EpollEchoServer) -> Prop) E,
    wp (on_server (EpollEchoServer_destroy default_handler fuel m)) Q (fun o _ => o = None)
      (mkSt (c', self st2) (hist st2)) ->
    (forall st, running_on c (startup (port_ s) options) m r (self st).1 -> E None st) ->
    wp (on_server (EpollEchoServer_destroy default_handler fuel m)) Q E (mkSt (c', self st2) (hist st2))) as Hwait.
  { intros c' Q E H HE. pose proof (on_server_fuel (EpollEchoServer_destroy default_handler fuel m) c' (self st2) (hist st2))
      as Hf. unfold wp in *. destruct (on_server _ _) as [[a|e| |] st]; try done.
    apply HE. right. eexists. by apply Hf. }
  destruct (run_later mask0 default_handler fuel turns port options c s m (mkSt c es0) Hopt Hstart r st2 Hrun)
    as [Hdef Hlater].
  pose proof (fun c' Hr => destroy_in_block mask0 fuel port options c s m (mkSt c es0) Hopt Hstart c' st2 (Hlater Hr))
    as Hdestroy.
  apply wp_bind, wp_on_exception, wp_bind, wp_get_self, wp_bind, wp_print. cbn [fst snd]. fold c1. simpl self.
  apply wp_bind, wp_on_server. unfold wp at 1. rewrite Hrun. destruct r as [[]|e| |].
  - apply wp_print. cbn [fst snd]. fold c2. apply wp_bind, Hwait; [|done].
    eapply wp_mono; [by apply (Hdestroy c2)| |done]. intros ? st H. by apply wp_ret.
  - apply Hwait; [|done]. eapply wp_mono; [by apply (Hdestroy c1)|done|done].
  - done.
  - by left.
Qed.

(** *** How the process ends *)

Abbreviation begun := (mkSt console_new []).

(** The lines that announce a server. *)
Definition announced (server : EpollEchoServer) (o : EpollEchoServerOptions) : string :=
  "PulseCore epoll server listening on 127.0.0.1:" +:+ decimal (port_ server) +:+ newline +:+
  "options workers=" +:+ decimal (limit_of Workers o) +:+
  " queue_capacity=" +:+ decimal (limit_of QueueCapacity o) +:+
  " max_connections=" +:+ decimal (limit_of MaxConnections o) +:+
  " max_in_flight=" +:+ decimal (limit_of MaxInFlight o) +:+
  " max_read_bytes=" +:+ decimal (limit_of MaxReadBytes o) +:+
  " max_write_bytes=" +:+ decimal (limit_of MaxWriteBytes o) +:+
  " max_input_buffer=" +:+ decimal (limit_of MaxInputBuffer o) +:+
  " max_output_buffer=" +:+ decimal (limit_of MaxOutputBuffer o) +:+ newline.

(** The command line was accepted and the server was started. *)
Definition started (mask0 : gset Z) (argv : list string) (options : EpollEchoServerOptions)
    (server : EpollEchoServer) (mask : ShutdownSignalMaskState) (st1 : St Console) : Prop :=
  ~ help argv /\ exists config, ParseArgs argv begun = (Return config, begun) /\
    options = with_shutdown_signals [SIGINT; SIGTERM] (config_options config) /\
    EpollEchoServer_construct mask0 (config_port config) options begun = (Return (server, mask), st1).

(** What is printed when the exception [e] ends the process, after [output]. *)
Definition failed (output : string) (e : Exception) : Console :=
  {| cout := output; cerr := usage +:+ "pulsecore_epoll_server: " +:+ what strerror e +:+ newline |}.

(** The exit code and what is left: for [--help]; for a command line that is not
    accepted, before any system call; for a constructor that throws, whose calls are
    the only ones made; and for a run of the server that ends. *)
Inductive exits (mask0 : gset Z) (argv : list string) : Z -> St Console -> Prop :=
| exits_help : help argv -> exits mask0 argv 0 (mkSt {| cout := ""; cerr := usage |} [])
| exits_arguments e :
    ~ help argv -> ParseArgs argv begun = (Throw e, begun) -> exits mask0 argv 1 (mkSt (failed "" e) [])
| exits_start config e st1 :
    ~ help argv -> ParseArgs argv begun = (Return config, begun) ->
    EpollEchoServer_construct mask0 (config_port config)
      (with_shutdown_signals [SIGINT; SIGTERM] (config_options config)) begun = (Throw e, st1) ->
    exits mask0 argv 1 (mkSt (failed "" e) (hist st1))
| exits_stopped options server mask st1 st2 h :
    started mask0 argv options server mask st1 ->
    Run default_handler fuel turns (mkSt server (hist st1)) = (Return tt, st2) -> hist st2 `prefix_of` h ->
    exits mask0 argv 0 (mkSt {| cout := announced server options +:+ stopped; cerr := "" |} h)
| exits_run options server mask st1 st2 h e :
    started mask0 argv options server mask st1 ->
    Run default_handler fuel turns (mkSt server (hist st1)) = (Throw e, st2) -> hist st2 `prefix_of` h ->
    exits mask0 argv 1 (mkSt (failed (announced server options) e) h).

(** What [main] catches: an exception [e], after printing [output]. *)
Definition caught (mask0 : gset Z) (argv : list string) (e : Exception) (st : St Console) : Prop :=
  clean mask0 (hist st) /\ cerr (self st) = "" /\
  exits mask0 argv 1 (mkSt (failed (cout (self st)) e) (hist st)).

(** The exit codes, and the only way not to exit. *)
Definition exits_clean (mask0 : gset Z) (argv : list string) (code : Z) (st : St Console) : Prop :=
  clean mask0 (hist st) /\ exits mask0 argv code st.
Definition runs_on (mask0 : gset Z) (argv : list string) (o : option Exception) (st : St Console) : Prop :=
  o = None /\ exists options server mask st1, started mask0 argv options server mask st1 /\
    running_on console_new (announced server options) mask
      (fst (Run default_handler fuel turns (mkSt server (hist st1)))) (self st).

Lemma epoll_serve_spec mask0 argv options server mask st1 :
  options_wf options -> started mask0 argv options server mask st1 ->
  wp (with_server fuel default_handler server mask (serve fuel turns default_handler options))
    (fun _ st => clean mask0 (hist st) /\ exits mask0 argv 0 st)
    (fun o st => match o with Some e => caught mask0 argv e st | None => runs_on mask0 argv None st end) st1.
Proof.
  intros Hopt Hstarted. pose proof Hstarted as (_ & config & _ & _ & Hstart).
  destruct (Run default_handler fuel turns (mkSt server (hist st1))) as [r st2] eqn:Hrun.
  eapply wp_mono; [eapply epoll_with_server_spec; [exact Hopt|exact Hstart|exact Hrun]| |].
  - intros _ [c h] (-> & Hclean & Hpre & Hp). split; [done|]. unfold printed in Hp. simpl in Hp. subst c.
    by eapply exits_stopped.
  - intros [e|] [c h] Ho.
    + destruct Ho as (-> & Hclean & Hpre & Hp). split; [done|]. unfold printed in Hp. simpl in Hp. subst c.
      split; [done|]. cbn [self cout hist]. rewrite string_app_nil_r. change ("" +:+ ?x) with x.
      by eapply exits_run.
    + split; [done|]. exists options, server, mask, st1. split; [done|]. by rewrite Hrun.
Qed.

Lemma epoll_main_spec mask0 argv :
  wp (main strerror fuel turns mask0 argv) (exits_clean mask0 argv) (runs_on mask0 argv) begun.
Proof.
  unfold main. apply wp_try_catch.
  eapply wp_mono with (E := fun o st => match o with
    | Some e => caught mask0 argv e st | None => runs_on mask0 argv None st end); [|done|].
  2: { intros [e|] [[co ce] h] H; [|exact H]. destruct H as (Hclean & Herr & Hexit). simpl in *. subst ce.
       apply wp_bind, wp_print_error, wp_bind, wp_print_error, wp_ret. by split. }
  destruct (_ && _) eqn:Hhelp.
  { apply help_spec in Hhelp. apply wp_bind, wp_print_error, wp_ret. split; [apply clean_nil|by constructor]. }
  assert (~ help argv) as Hno by (rewrite <- help_spec; congruence).
  pose proof (epoll_ParseArgs_loop_spec (drop 1 argv) ServerConfig_default false begun config_ok_default) as Hp.
  change (ParseArgs_loop (drop 1 argv) ServerConfig_default false) with (ParseArgs (S := St Console) argv) in Hp.
  apply wp_bind. unfold wp in Hp |- * at 1. destruct (ParseArgs argv begun) as [[config|e| |] st] eqn:Hparse; try done.
  2: { destruct Hp as [-> _]. split; [apply clean_nil|]. split; [done|]. by apply exits_arguments. }
  2: { by destruct Hp as (_ & (? & ? & _) & _). }
  destruct Hp as (-> & (_ & Hopt & _ & _ & Hh & _) & _).
  set (options := with_shutdown_signals [SIGINT; SIGTERM] (config_options config)).
  assert (options_wf options) as Hopt' by exact Hopt.
  apply wp_bind. eapply wp_the; [exact Hh|].
  eapply wp_call; [by apply construct_throws| |].
  2: { intros o [c h] (Hclean & Hself & e & -> & Hthrow). split; [done|]. simpl in *. subst c. split; [done|].
       exact (exits_start mask0 argv config e _ Hno Hparse Hthrow). }
  intros [server mask] st1 Hstart. eapply wp_call; [by apply epoll_serve_spec; [|split; [|exists config]]| |done].
  intros [] st H. apply wp_ret. exact H.
Qed.
End Main.

(** ** Properties *)

(** C25.  [ParseArgs] against a grammar that does not refer to it.  It accepts exactly
    the argument lists that consist of the eight options [flag], each followed by
    the text of a positive 64-bit number, and of at most one port below 2^16, in any
    order; every field of the configuration it returns is what they describe
    ([configured]): the last value given for it, or the literal default.  (What is
    the text of a number is [accepted]: white space and a sign may precede the
    digits.)  Every limit is then positive and fits 64 bits.  Every other list is
    rejected with a [std::runtime_error] whose message is that of the first thing
    wrong in it ([refused]).  The parser has no other effect. *)
Theorem epoll_args_exact {S} argv (s : S) :
  match ParseArgs argv s with
  | (Return c, s') => s' = s /\ config_ok c /\
      exists args, reads (drop 1 argv) args /\ (ports args <= 1)%nat /\ configured args c
  | (Throw e, s') => s' = s /\ (exists text, e = RuntimeError text /\ refused (drop 1 argv) false text) /\
      forall args, reads (drop 1 argv) args -> (1 < ports args)%nat
  | _ => False
  end.
Proof.
  pose proof (epoll_ParseArgs_loop_spec (drop 1 argv) ServerConfig_default false s config_ok_default) as H.
  unfold wp in H. change (ParseArgs_loop (drop 1 argv) ServerConfig_default false s) with (ParseArgs argv s) in H.
  destruct (ParseArgs argv s) as [[c|e| |] s'].
  - destruct H as (-> & Hc & args & Hr & Hp & Hover). split; [done|]. split; [done|]. exists args.
    split; [done|]. split; [simpl in Hp; lia|by apply overridden_configured].
  - destruct H as (-> & (e' & [= ->] & He) & Hno). split; [done|]. split; [by exists e'|].
    intros args Hr%Hno. simpl in Hr. lia.
  - done.
  - by destruct H as (_ & (e' & ? & _) & _).
Qed.

(** Options written out in decimal are read back: for any list of known
    options with positive 64-bit values and at most one port, [ParseArgs]
    returns the configuration they describe. *)
Theorem epoll_args_roundtrip {S} program args (s : S) :
  Forall argument_ok args -> (ports args <= 1)%nat ->
  exists c, ParseArgs (program :: flat_map written args) s = (Return c, s) /\ configured args c.
Proof.
  intros Hargs Hp. pose proof (reads_written args Hargs) as Hread.
  pose proof (epoll_ParseArgs_loop_spec (flat_map written args) ServerConfig_default false s config_ok_default) as H.
  unfold wp in H.
  change (ParseArgs_loop (flat_map written args) ServerConfig_default false s)
    with (ParseArgs (program :: flat_map written args) s) in H.
  destruct (ParseArgs _ s) as [[c|e| |] s'].
  - destruct H as (-> & _ & args' & Hr & _ & Hc). exists c. split; [done|].
    rewrite (epoll_reads_functional _ _ _ Hread Hr). by apply overridden_configured.
  - destruct H as (_ & _ & Hno). destruct (Hno args Hread). simpl. lia.
  - done.
  - destruct H as (_ & _ & Hno). destruct (Hno args Hread). simpl. lia.
Qed.

(** C21.  The whole process, for any command line and any behaviour of the kernel, the
    workers and the clients.  If [--help] is its only argument it prints the usage
    and exits with code 0, without a system call.  Otherwise the command line decides
    ([exits]): if [ParseArgs] refuses it, or the constructor of the server throws for
    the port and options it gives, the process exits with code 1 after the usage and
    the message of that exception; if the server is started, the process prints the
    start line with the server's port and those options, and runs the server: it
    exits with code 0 after the stop line if [Run] returns, and with code 1 after the
    usage and the message if [Run] throws.  In every case no accepted socket is open,
    every descriptor that was created has been closed, and the signal mask is what it
    was.  No exception leaves [main] and it has no undefined behaviour.  The only other
    possibility is that the server was started and announced and runs on (the fuel of
    [Run] is used up), or that its destructor waits for a worker. *)
Theorem epoll_main_exits `{Sys : OS} `{!OSLaws Sys} `{!ShortRun Sys} `{!EpollLaws Sys}
    `{!SetupLaws Sys} `{Env : Environment} `{!EnvironmentLaws Env} strerror fuel turns mask0 argv :
  match main strerror fuel turns mask0 argv (mkSt console_new []) with
  | (Return code, st) => clean mask0 (hist st) /\ exits strerror fuel turns mask0 argv code st
  | (OutOfFuel, st) => exists options server mask st1, started mask0 argv options server mask st1 /\
      running_on fuel console_new (announced server options) mask
        (fst (Run default_handler fuel turns (mkSt server (hist st1)))) (self st)
  | _ => False
  end.
Proof.
  pose proof (epoll_main_spec strerror fuel turns mask0 argv) as H. unfold wp in H.
  destruct (main _ _ _ _ _ _) as [[code|e| |] st]; [done|by destruct H|done|by destruct H].
Qed.

(** ** Witnesses *)

Lemma epoll_args_roundtrip_witness :
  exists c, ParseArgs ["pulsecore_epoll_server"; "--workers"; "4"; "9100"; "--workers"; "8"]%string tt = (Return c, tt) /\
    config_port c = 9100 /\ options_worker_count (config_options c) = 8.
Proof.
  destruct (epoll_args_roundtrip "pulsecore_epoll_server"
    [ArgLimit Workers 4; ArgPort 9100; ArgLimit Workers 8] tt
    ltac:(repeat constructor; by_decide) ltac:(by_decide)) as (c & Hc & Hport & Hlimits & _).
  exists c. split; [exact Hc|]. split; [exact Hport|exact (Hlimits Workers)].
Defined.

(** White space hides the minus sign from the test of the first character: the
    value wraps around. *)
Lemma negative_count_accepted :
  ParsePositiveSize "--workers" " -1" tt = (Return u64_max, tt) /\
  ParsePositiveSize "--workers" "-1" tt = (Throw (RuntimeError "--workers must be a positive integer"), tt) /\
  ParsePort " -18446744073709551615" tt = (Return 1, tt).
Proof. vm_compute. by split_and!. Qed.

(** The world of [ServerTheorems]: another thread stops the server. *)
#[local] Existing Instance ServerTheorems.sample_kernel.
#[local] Existing Instance ServerTheorems.sample_environment.
#[local] Existing Instance ServerTheorems.sample_environment_laws.

Abbreviation sample_main := (main (fun _ => "error"%string) 10 7 ∅
  ["pulsecore_epoll_server"; "9000"; "--max-in-flight"; "16"]%string (mkSt console_new [])).

Lemma epoll_main_exits_witness :
  fst sample_main = Return 0 /\ clean ∅ (hist (snd sample_main)) /\ closed_fds (hist (snd sample_main)) <> [].
Proof.
  assert (fst sample_main = Return 0) as Hr by by_compute.
  assert (closed_fds (hist (snd sample_main)) = [9; 6; 5; 4; 3]) as Hc by by_compute.
  pose proof (epoll_main_exits (fun _ => "error"%string) 10 7 ∅
    ["pulsecore_epoll_server"; "9000"; "--max-in-flight"; "16"]%string) as H.
  destruct sample_main as [r st]. cbn [fst snd] in *. subst r. split; [reflexivity|].
  split; [exact (proj1 H)|]. rewrite Hc. discriminate.
Defined.

(** The grammar has no upper bound on the number of workers but the 64 bits: the
    vector of threads has one. *)
Lemma huge_worker_count :
  let run := main (fun _ => "error"%string) 10 7 ∅
    ["pulsecore_epoll_server"; "--workers"; "18446744073709551615"]%string (mkSt console_new []) in
  fst run = Return 1 /\ cout (self (snd run)) = ""%string /\
  cerr (self (snd run)) = (usage +:+ "pulsecore_epoll_server: vector::reserve" +:+ newline)%string.
Proof. cbv zeta. split; [by_compute|]. split; by_compute. Qed.
