(* ===== verification/ClientMain.v ===== *)
(** * The client program

    [apps/client/main.cpp]: the request that a command line describes, the
    exchange, and the line that reports the response.  The command line is specified
    by a grammar ([described]) that does not refer to the parser. *)

From Stdlib Require Import Ascii.
From S2P Require Import Prelude Os Scripted UniqueFd Codec Handler Connection ServerStart BlockingTcp.
From S2P Require Import EpollServer ServerInvariant ServerTheorems BlockingTheorems CommandLine.

Inductive ClientMessageType : Type := kEcho | kWork.

Record ClientConfig : Type := {
  client_port : Z;
  client_payload : string;
  client_message_type : ClientMessageType;
  client_work_iterations : Z;
}.

Definition ClientConfig_default : ClientConfig :=
  {| client_port := 0; client_payload := "hello"; client_message_type := kEcho;
     client_work_iterations := 1000 |}.

(** ** The command line *)

Definition ParsePort {S} (text : string) : M S Z := parse_port text.

Definition ParseWorkIterations {S} (option text : string) : M S Z :=
  if (slen text =? 0) || starts_with "-"%char text
  then throw (RuntimeError (option +:+ " must be a positive integer")) else
  try_catch (
    '(value, parsed_chars) ← stoul text;
    if negb (parsed_chars =? slen text) || (value =? 0)
    then throw (RuntimeError (option +:+ " must be a positive integer")) else
    if kMaxWorkIterations <? value
    then throw (RuntimeError (option +:+ " exceeds maximum work iterations"))
    else mret (u32 value))
  (fun e => match e with
            | InvalidArgument _ => throw (RuntimeError (option +:+ " must be a positive integer"))
            | OutOfRange _ => throw (RuntimeError (option +:+ " exceeds maximum work iterations"))
            | e => throw e
            end).

Definition ParseMessageType {S} (option value : string) : M S ClientMessageType :=
  if String.eqb value "echo" then mret kEcho else
  if String.eqb value "work" then mret kWork else
  throw (RuntimeError (option +:+ " must be echo or work")).

(** The characters of the text as bytes. *)
Definition PayloadBytes (text : string) : list Byte := string_bytes text.

Definition MessageTypeName (t : MessageType) : string :=
  match t with
  | kEchoRequest => "echo_request"
  | kEchoResponse => "echo_response"
  | kWorkRequest => "work_request"
  | kWorkResponse => "work_response"
  | kErrorResponse => "error_response"
  | kUnlisted _ => "unknown"
  end.

(** [std::hex << std::setfill('0') << std::setw(2)] of a byte. *)
Definition hex_digit (n : Z) : ascii :=
  Ascii.ascii_of_N (Z.to_N (if n <? 10 then 48 + n else 87 + n)).
Fixpoint HexPayload (payload : list Byte) : string :=
  match payload with
  | [] => ""
  | byte :: payload =>
    String (hex_digit (byte / 16)) (String (hex_digit (byte mod 16)) (HexPayload payload))
  end.

(** The loop of [ParseArgs], over the arguments after the current one. *)
Fixpoint ParseArgs_loop {S} (args : list string) (config : ClientConfig) (payload_set : bool) :
    M S ClientConfig :=
  match args with
  | [] => mret config
  | option :: args =>
    if String.eqb option "--message-type" || String.eqb option "--work-iterations" then
      match args with
      | [] => throw (RuntimeError (option +:+ " requires a value"))
      | value :: args =>
        if String.eqb option "--message-type" then
          message_type ← ParseMessageType option value;
          ParseArgs_loop args {| client_port := client_port config; client_payload := client_payload config;
            client_message_type := message_type;
            client_work_iterations := client_work_iterations config |} payload_set
        else
          work_iterations ← ParseWorkIterations option value;
          ParseArgs_loop args {| client_port := client_port config; client_payload := client_payload config;
            client_message_type := client_message_type config;
            client_work_iterations := work_iterations |} payload_set
      end
    else if starts_with "-"%char option then throw (RuntimeError ("unknown option: " +:+ option))
    else if payload_set then throw (RuntimeError "payload specified more than once")
    else
      ParseArgs_loop args {| client_port := client_port config; client_payload := option;
        client_message_type := client_message_type config;
        client_work_iterations := client_work_iterations config |} true
  end.

Definition ParseArgs {S} (argv : list string) : M S ClientConfig :=
  match argv with
  | _ :: port :: args =>
    port ← ParsePort port;
    config ← ParseArgs_loop args {| client_port := port; client_payload := client_payload ClientConfig_default;
      client_message_type := client_message_type ClientConfig_default;
      client_work_iterations := client_work_iterations ClientConfig_default |} false;
    let payload_size := len (PayloadBytes (client_payload config)) in
    if match client_message_type config with kEcho => kMaxPayloadSize <? payload_size | _ => false end
    then throw (RuntimeError "payload exceeds protocol max payload size") else
    if match client_message_type config with kWork => kMaxPayloadSize - 4 <? payload_size | _ => false end
    then throw (RuntimeError "payload leaves no room for work request metadata") else
    mret config
  | _ => throw (RuntimeError "missing port")
  end.

Definition BuildRequest (config : ClientConfig) : Message :=
  let seed := PayloadBytes (client_payload config) in
  match client_message_type config with
  | kEcho => {| type := kEchoRequest; request_id := 1; payload := seed |}
  | kWork => {| type := kWorkRequest; request_id := 1;
                payload := EncodeWorkRequestPayload (client_work_iterations config) seed |}
  end.

(** ** The process *)

Definition usage : string :=
  "usage: pulsecore_client <port> [payload] [--message-type echo|work] [--work-iterations N]" +:+ newline.

(** The line printed for a response. *)
Definition response_line (m : Message) : string :=
  "response type=" +:+ MessageTypeName (type m) +:+ " request_id=" +:+ decimal (request_id m) +:+
  " payload_hex=" +:+ HexPayload (payload m) +:+ newline.

Section Program.
Context `{Sys : OS} (inet_pton : string -> option Z) (strerror : Z -> string) (fuel : nat).

Abbreviation Prog := (M (St Console)).

Definition out (text : string) : Prog unit := print (fun c => c) (fun c _ => c) text.
Definition err (text : string) : Prog unit := print_error (fun c => c) (fun c _ => c) text.
Definition PrintUsage : Prog unit := err usage.

Definition main (argv : list string) : Prog Z :=
  try_catch (
    if (len argv =? 2) && bool_decide (argv !! 1%nat = Some "--help"%string)
    then PrintUsage ;; mret 0 else
    config ← ParseArgs argv;
    let request := BuildRequest config in
    response ← SendRequestAndReadResponse inet_pton fuel "127.0.0.1" (client_port config) request;
    out (response_line response) ;;
    mret 0)
  (fun error =>
    PrintUsage ;;
    err ("pulsecore_client: " +:+ what strerror error +:+ newline) ;;
    mret 1).
End Program.

(** ** What the command line promises of the request *)

Section Parsing.
Context {S : Type}.

Definition config_ok (c : ClientConfig) : Prop :=
  is_u16 (client_port c) /\ 0 < client_work_iterations c <= kMaxWorkIterations.

(** ... and its payload fits. *)
Definition payload_fits (c : ClientConfig) : Prop :=
  match client_message_type c with
  | kEcho => len (PayloadBytes (client_payload c)) <= kMaxPayloadSize
  | kWork => len (PayloadBytes (client_payload c)) <= kMaxPayloadSize - 4
  end.

Definition iterations_error (option text error : string) : Prop :=
  (error = option +:+ " exceeds maximum work iterations" /\
     (too_large text \/ exists v, accepted text v /\ kMaxWorkIterations < v)) \/
  (error = option +:+ " must be a positive integer" /\ (malformed text \/ accepted text 0)).

Lemma ParseWorkIterations_spec option text :
  parses (X := S) (ParseWorkIterations option text) text (fun v => 0 < v <= kMaxWorkIterations)
    (iterations_error option text).
Proof.
  unfold ParseWorkIterations, stoul.
  apply (parses_number _ _ (option +:+ " must be a positive integer")
    (option +:+ " exceeds maximum work iterations")); [by right; auto|by left; auto|..|done|done|done].
  - intros s v Hv _. rewrite Z.eqb_refl. simpl. pose proof (numeral_u64 _ _ (proj2 Hv)) as Hu.
    destruct (Z.eqb_spec v 0) as [->|H0]; simpl.
    { apply wp_throw. split; [done|]. split; [|lia]. eexists. split; [done|]. by right; auto. }
    destruct (Z.ltb_spec kMaxWorkIterations v).
    { apply wp_throw. split; [done|]. split; [|lia]. eexists. split; [done|]. left. split; [done|]. right. by exists v. }
    apply wp_ret. unfold kMaxWorkIterations, is_u64 in *.
    rewrite u32_id by (unfold is_u32; lia). split_and!; try done; lia.
  - intros s v n Hn. by destruct (Z.eqb_spec n (slen text)).
Qed.

(** *** The grammar

    The arguments after the port, as the usage describes them.  Nothing here refers
    to the parser. *)
Inductive ClientArgument : Type :=
| ArgMessageType (t : ClientMessageType) | ArgIterations (n : Z) | ArgPayload (text : string).

Inductive reads : list string -> list ClientArgument -> Prop :=
| reads_nil : reads [] []
| reads_echo texts args : reads texts args -> reads ("--message-type"%string :: "echo"%string :: texts) (ArgMessageType kEcho :: args)
| reads_work texts args : reads texts args -> reads ("--message-type"%string :: "work"%string :: texts) (ArgMessageType kWork :: args)
| reads_iterations text n texts args :
    accepted text n -> 0 < n <= kMaxWorkIterations -> reads texts args ->
    reads ("--work-iterations"%string :: text :: texts) (ArgIterations n :: args)
| reads_payload text texts args :
    starts_with "-"%char text = false -> reads texts args -> reads (text :: texts) (ArgPayload text :: args).

Definition payloads_given : list ClientArgument -> list string :=
  omap (fun a => match a with ArgPayload text => Some text | _ => None end).
Definition types_given : list ClientArgument -> list ClientMessageType :=
  omap (fun a => match a with ArgMessageType t => Some t | _ => None end).
Definition iterations_given : list ClientArgument -> list Z :=
  omap (fun a => match a with ArgIterations n => Some n | _ => None end).

(** The last values given override those of [start]. *)
Definition override (start : ClientConfig) (args : list ClientArgument) : ClientConfig :=
  {| client_port := client_port start; client_payload := given (payloads_given args) (client_payload start);
     client_message_type := given (types_given args) (client_message_type start);
     client_work_iterations := given (iterations_given args) (client_work_iterations start) |}.

(** The command line [argv] describes the configuration [c]: a port below 2^16, then
    arguments with at most one payload, which fits a frame. *)
Definition described (argv : list string) (c : ClientConfig) : Prop :=
  exists program text port texts args,
    argv = program :: text :: texts /\ accepted text port /\ is_u16 port /\
    reads texts args /\ (length (payloads_given args) <= 1)%nat /\
    c = override {| client_port := port; client_payload := "hello"; client_message_type := kEcho;
                    client_work_iterations := 1000 |} args /\
    payload_fits c.

(** *** The parser against the grammar *)

Definition loop_returns (texts : list string) (config : ClientConfig) (payload_set : bool) (s : S)
    (c : ClientConfig) (s' : S) : Prop :=
  s' = s /\ config_ok c /\ exists args, reads texts args /\
    (length (payloads_given args) + nat_of payload_set <= 1)%nat /\ c = override config args.
Definition loop_fails (texts : list string) (payload_set : bool) (s : S) (o : option Exception) (s' : S) : Prop :=
  s' = s /\ (exists e, o = Some (RuntimeError e)) /\
  forall args, reads texts args -> ~ (length (payloads_given args) + nat_of payload_set <= 1)%nat.

Definition apply_argument (a : ClientArgument) (c : ClientConfig) : ClientConfig :=
  {| client_port := client_port c;
     client_payload := match a with ArgPayload text => text | _ => client_payload c end;
     client_message_type := match a with ArgMessageType t => t | _ => client_message_type c end;
     client_work_iterations := match a with ArgIterations n => n | _ => client_work_iterations c end |}.

Lemma override_cons a start args : override (apply_argument a start) args = override start (a :: args).
Proof.
  unfold override. f_equal; destruct a; try done; symmetry; apply given_cons.
Qed.

(** The first texts are read as [a]. *)
Lemma client_loop_step used a texts config payload_set payload_set' s :
  (forall args, reads texts args -> reads (used ++ texts) (a :: args)) ->
  (forall args, reads (used ++ texts) args -> exists args', args = a :: args' /\ reads texts args') ->
  nat_of payload_set' = (nat_of payload_set + length (payloads_given [a]))%nat ->
  wp (ParseArgs_loop texts (apply_argument a config) payload_set')
    (loop_returns texts (apply_argument a config) payload_set' s) (loop_fails texts payload_set' s) s ->
  wp (ParseArgs_loop texts (apply_argument a config) payload_set') (loop_returns (used ++ texts) config payload_set s)
    (loop_fails (used ++ texts) payload_set s) s.
Proof.
  intros Hread Hinv Hset Hwp.
  assert (forall args, length (payloads_given (a :: args)) =
    (length (payloads_given [a]) + length (payloads_given args))%nat) as Hcons by (intros args; by destruct a).
  eapply wp_mono; [exact Hwp| |].
  - intros c s' (-> & Hc & args & Hr & Hp & ->). split; [done|]. split; [done|].
    exists (a :: args). split; [by apply Hread|]. rewrite Hcons. split; [lia|apply override_cons].
  - intros o s' (-> & He & Hno). split; [done|]. split; [done|].
    intros args (args' & -> & Hr)%Hinv. apply Hno in Hr. rewrite Hcons. lia.
Qed.

Lemma client_message_type_spec value texts config payload_set s :
  config_ok config ->
  (forall config', config_ok config' -> wp (ParseArgs_loop texts config' payload_set)
     (loop_returns texts config' payload_set s) (loop_fails texts payload_set s) s) ->
  wp (message_type ← ParseMessageType "--message-type" value;
      ParseArgs_loop texts {| client_port := client_port config; client_payload := client_payload config;
        client_message_type := message_type; client_work_iterations := client_work_iterations config |} payload_set)
    (loop_returns ("--message-type" :: value :: texts)%string config payload_set s)
    (loop_fails ("--message-type" :: value :: texts)%string payload_set s) s.
Proof.
  intros Hc IH. unfold ParseMessageType. apply wp_bind.
  destruct (String.eqb_spec value "echo") as [->|H1]; [|destruct (String.eqb_spec value "work") as [->|H2]].
  - apply wp_ret.
    apply (client_loop_step ["--message-type"; "echo"]%string (ArgMessageType kEcho) texts config payload_set payload_set);
      [by constructor| |by rewrite Nat.add_0_r|by apply (IH (apply_argument _ config))].
    intros args Hr. inversion Hr; subst; [by eexists|done].
  - apply wp_ret.
    apply (client_loop_step ["--message-type"; "work"]%string (ArgMessageType kWork) texts config payload_set payload_set);
      [by constructor| |by rewrite Nat.add_0_r|by apply (IH (apply_argument _ config))].
    intros args Hr. inversion Hr; subst; [by eexists|done].
  - apply wp_throw. split; [done|]. split; [by eexists|]. intros args Hr. by inversion Hr; subst.
Qed.

Lemma client_iterations_spec text texts config payload_set s :
  config_ok config ->
  (forall config', config_ok config' -> wp (ParseArgs_loop texts config' payload_set)
     (loop_returns texts config' payload_set s) (loop_fails texts payload_set s) s) ->
  wp (work_iterations ← ParseWorkIterations "--work-iterations" text;
      ParseArgs_loop texts {| client_port := client_port config; client_payload := client_payload config;
        client_message_type := client_message_type config; client_work_iterations := work_iterations |} payload_set)
    (loop_returns ("--work-iterations" :: text :: texts)%string config payload_set s)
    (loop_fails ("--work-iterations" :: text :: texts)%string payload_set s) s.
Proof.
  intros Hc IH. eapply wp_call; [apply ParseWorkIterations_spec| |].
  - intros v s' (-> & Hacc & Hv).
    apply (client_loop_step ["--work-iterations"; text]%string (ArgIterations v) texts config payload_set payload_set);
      [by constructor| |by rewrite Nat.add_0_r|apply (IH (apply_argument _ config)); by destruct Hc].
    intros args Hr. inversion Hr as [| | |? n ? ? Hacc'|? ? ? Hm]; subst; [|done].
    eexists. split; [|done]. by rewrite (numeral_functional _ _ _ (proj2 Hacc) (proj2 Hacc')).
  - intros o s' (-> & (e & -> & _) & Hno). split; [done|]. split; [by eexists|].
    intros args Hr. inversion Hr as [| | |? n ? ? Hacc'|? ? ? Hm]; subst; [by destruct (Hno n)|done].
Qed.

Lemma client_ParseArgs_loop_spec texts config payload_set (s : S) :
  config_ok config ->
  wp (ParseArgs_loop texts config payload_set) (loop_returns texts config payload_set s)
    (loop_fails texts payload_set s) s.
Proof.
  revert config payload_set.
  induction texts as [|option texts IH1 IH2] using list_one_or_two_ind; intros config payload_set Hc.
  { apply wp_ret. split; [done|]. split; [done|]. exists []. split; [constructor|].
    split; [by destruct payload_set; simpl; lia|by destruct config]. }
  cbn [ParseArgs_loop].
  destruct (String.eqb_spec option "--message-type") as [->|H1];
    [|destruct (String.eqb_spec option "--work-iterations") as [->|H2]]; simpl orb.
  - destruct texts as [|value texts]; [|by apply client_message_type_spec; [|intros; apply IH2]].
    apply wp_throw. split; [done|]. split; [by eexists|]. intros args Hr. by inversion Hr; subst.
  - destruct texts as [|value texts]; [|by apply client_iterations_spec; [|intros; apply IH2]].
    apply wp_throw. split; [done|]. split; [by eexists|]. intros args Hr. by inversion Hr; subst.
  - assert (forall args, reads (option :: texts) args -> exists args', args = ArgPayload option :: args' /\
      starts_with "-"%char option = false /\ reads texts args') as Hinv
      by (intros args Hr; inversion Hr; subst; try done; by eexists).
    destruct (starts_with _ option) eqn:Hm.
    { apply wp_throw. split; [done|]. split; [by eexists|]. by intros args (? & _ & ? & _)%Hinv. }
    destruct payload_set.
    { apply wp_throw. split; [done|]. split; [by eexists|]. intros args (? & -> & _)%Hinv. simpl. lia. }
    apply (client_loop_step [option] (ArgPayload option) texts config false true);
      [by constructor| |done|by apply (IH1 (apply_argument _ config))].
    intros args (args' & -> & _ & Hr)%Hinv. by eexists.
Qed.

Lemma client_reads_functional texts args args' : reads texts args -> reads texts args' -> args = args'.
Proof.
  intros H. revert args'.
  induction H as [|texts args _ IH|texts args _ IH|text n texts args Hacc _ _ IH|text texts args Hm _ IH];
    intros args' H'; inversion H' as [|? ? H2|? ? H2|? n' ? ? Hacc' ? H2|? ? ? Hm' H2]; subst; try done;
    try (by rewrite (IH _ H2)).
  by rewrite (numeral_functional _ _ _ (proj2 Hacc) (proj2 Hacc')), (IH _ H2).
Qed.

Definition rejected (argv : list string) (s : S) (o : option Exception) (s' : S) : Prop :=
  s' = s /\ (exists e, o = Some (RuntimeError e)) /\ forall c, ~ described argv c.

(** The payload must fit. *)
Lemma fits_spec argv c s :
  (payload_fits c -> described argv c) -> (~ payload_fits c -> forall c', ~ described argv c') -> config_ok c ->
  wp (let payload_size := len (PayloadBytes (client_payload c)) in
      if match client_message_type c with kEcho => kMaxPayloadSize <? payload_size | _ => false end
      then throw (RuntimeError "payload exceeds protocol max payload size") else
      if match client_message_type c with kWork => kMaxPayloadSize - 4 <? payload_size | _ => false end
      then throw (RuntimeError "payload leaves no room for work request metadata") else
      mret c) (fun c s' => s' = s /\ config_ok c /\ payload_fits c /\ described argv c) (rejected argv s) s.
Proof.
  intros Hyes Hno Hc. unfold payload_fits in *. cbv zeta. destruct (client_message_type c) eqn:Ht.
  - destruct (Z.ltb_spec kMaxPayloadSize (len (PayloadBytes (client_payload c)))).
    + apply wp_throw. split; [done|]. split; [by eexists|]. apply Hno. lia.
    + apply wp_ret. rewrite Ht. split_and!; try done. by apply Hyes.
  - destruct (Z.ltb_spec (kMaxPayloadSize - 4) (len (PayloadBytes (client_payload c)))).
    + apply wp_throw. split; [done|]. split; [by eexists|]. apply Hno. lia.
    + apply wp_ret. rewrite Ht. split_and!; try done. by apply Hyes.
Qed.

Lemma ParseArgs_spec argv (s : S) :
  wp (ParseArgs argv) (fun c s' => s' = s /\ config_ok c /\ payload_fits c /\ described argv c)
    (rejected argv s) s.
Proof.
  unfold ParseArgs. destruct argv as [|program [|text texts]].
  1, 2: apply wp_throw; split; [done|]; split; [by eexists|]; by intros c (? & ? & ? & ? & ? & ? & _).
  eapply wp_call; [apply parse_port_spec| |].
  2: { intros o s' (-> & (e & -> & _) & Hno). split; [done|]. split; [by eexists|].
       intros c (? & ? & p & ? & ? & [= <- <- <-] & Hacc & Hp & _). by destruct (Hno p). }
  intros p s' (-> & Hacc & Hp). eapply wp_call; [apply client_ParseArgs_loop_spec; by split| |].
  - intros c s' (-> & Hc & args & Hr & Hcount & Heq). apply fits_spec; [| |done].
    + intros Hfit. exists program, text, p, texts, args. rewrite Nat.add_0_r in Hcount. by split_and!.
    + intros Hfit c' (? & ? & p' & ? & args' & [= <- <- <-] & Hacc' & _ & Hr' & _ & Heq' & Hfit').
      apply Hfit. rewrite Heq. rewrite (client_reads_functional _ _ _ Hr Hr').
      rewrite (numeral_functional _ _ _ (proj2 Hacc) (proj2 Hacc')). rewrite Heq' in Hfit'. exact Hfit'.
  - intros o s' (-> & He & Hno). split; [done|]. split; [done|].
    intros c (? & ? & p' & ? & args & [= <- <- <-] & _ & _ & Hr & Hcount & _). destruct (Hno args Hr). simpl. lia.
Qed.
End Parsing.

Lemma BuildRequest_valid c : config_ok c -> payload_fits c -> valid_message (BuildRequest c).
Proof.
  intros [_ Hit] Hfit. unfold BuildRequest, payload_fits in *.
  assert (Forall is_byte (PayloadBytes (client_payload c))) as HF by apply string_bytes_u8.
  destruct (client_message_type c).
  - split; [|by split]. split_and!; try done; by_decide.
  - by apply work_request_valid.
Qed.

(** The response table, for the client's requests. *)
Lemma respond_BuildRequest c :
  config_ok c ->
  respond_spec (BuildRequest c) =
  match client_message_type c with
  | kEcho => {| type := kEchoResponse; request_id := 1; payload := PayloadBytes (client_payload c) |}
  | kWork =>
    let seed := PayloadBytes (client_payload c) in
    if decide (work_units (client_work_iterations c) seed <= kMaxWorkUnits)
    then {| type := kWorkResponse; request_id := 1;
            payload := be_bytes 8 (digest (client_work_iterations c) seed) |}
    else {| type := kErrorResponse; request_id := 1;
            payload := string_bytes "invalid work request payload" |}
  end.
Proof.
  intros [_ Hit]. unfold BuildRequest. destruct (client_message_type c); [done|].
  apply respond_work_request. lia.
Qed.

(** ** The process *)

Section Main.
Context `{Sys : OS} `{!OSLaws Sys} `{!ShortRun Sys} `{!SetupLaws Sys}.
Context (inet_pton : string -> option Z) (strerror : Z -> string) (fuel : nat).

Definition parsed (argv : list string) (c : ClientConfig) : Prop :=
  ParseArgs argv (mkSt console_new []) = (Return c, mkSt console_new []) /\ config_ok c /\ payload_fits c /\
  described argv c.

(** The exchange that a configuration asks for, with its outcome [r]. *)
Definition exchanged (c : ClientConfig) (r : option Exception + Message) (h : History) : Prop :=
  client_post inet_pton fuel "127.0.0.1" (client_port c) (BuildRequest c) console_new [] r (mkSt console_new h).

(** The error of the command line, which no configuration is described by, or of
    the exchange. *)
Definition caught (argv : list string) (e : Exception) (h : History) : Prop :=
  (h = [] /\ ParseArgs argv (mkSt console_new []) = (Throw e, mkSt console_new []) /\
     forall c, ~ described argv c) \/
  exists c, parsed argv c /\ exchanged c (inl (Some e)) h.

Definition exits (argv : list string) (code : Z) (st : St Console) : Prop :=
  (code = 0 /\ help argv /\ st = mkSt {| cout := ""; cerr := usage |} []) \/
  (~ help argv /\ code = 0 /\ exists c m, parsed argv c /\ exchanged c (inr m) (hist st) /\
     self st = {| cout := response_line m; cerr := "" |}) \/
  (~ help argv /\ code = 1 /\ exists e,
     self st = {| cout := ""; cerr := usage +:+ "pulsecore_client: " +:+ what strerror e +:+ newline |} /\
     caught argv e (hist st)).

(** An exchange leaves the object it is made for as it is. *)
Lemma exchanged_self c r (st : St Console) :
  client_post inet_pton fuel "127.0.0.1" (client_port c) (BuildRequest c) console_new [] r st ->
  self st = console_new /\ exchanged c r (hist st).
Proof.
  intros H. assert (self st = console_new) as Hself.
  { destruct H as [(? & _ & ->)|(fd & es & unsent & _ & _ & H)]; [done|].
    destruct r as [[e|]|m]; [by destruct H as [_ ->]|by destruct H as [_ ->]|by destruct H as (_ & _ & _ & ->)]. }
  split; [done|]. destruct st as [x h]. simpl in Hself. by subst x.
Qed.

Lemma client_main_spec argv :
  wp (main inet_pton strerror fuel argv) (exits argv) (fun o _ => o = None /\ ~ ample fuel)
    (mkSt console_new []).
Proof.
  unfold main. apply wp_try_catch.
  destruct (_ && _) eqn:Hhelp.
  { apply help_spec in Hhelp. apply wp_bind, wp_print_error, wp_ret. by left. }
  assert (~ help argv) as Hno by (rewrite <- help_spec; congruence).
  eapply wp_mono with (E := fun o st => match o with
    | Some e => self st = console_new /\ caught argv e (hist st) | None => ~ ample fuel end);
    [|intros a st H; exact H|].
  2: { intros [e|] [c h] H; [|done]. simpl in H. destruct H as [-> Hc].
       apply wp_bind, wp_print_error, wp_bind, wp_print_error, wp_ret. right. right.
       split; [done|]. split; [done|]. exists e. split; [done|exact Hc]. }
  apply wp_bind. pose proof (ParseArgs_spec argv (mkSt console_new [])) as Hp. unfold wp in Hp |- * at 1.
  destruct (ParseArgs argv (mkSt console_new [])) as [[c|e| |] st] eqn:Hparse; [| |done|].
  2: { destruct Hp as (-> & _ & Hnone). split; [done|]. by left. }
  2: { by destruct Hp as (_ & (? & ?) & _). }
  destruct Hp as (-> & Hc & Hfit & Hdesc).
  assert (parsed argv c) as Hparsed by by split.
  eapply wp_call; [apply SendRequestAndReadResponse_spec; [by apply BuildRequest_valid|done]| |].
  - intros m st [Hself Hex]%exchanged_self. destruct st as [x h]. simpl in *. subst x.
    apply wp_bind, wp_print, wp_ret. right. left. do 2 (split; [done|]). by exists c, m.
  - intros [e|] st Hpost.
    + apply exchanged_self in Hpost as [Hself Hex]. split; [done|]. right. by exists c.
    + by destruct Hpost as [(? & ? & _)|(fd & es & unsent & _ & _ & Hample & _)].
Qed.
End Main.

(** ** Properties *)

(** What the handler answers to the request of a configuration: the payload, the
    digest if the work is within 64 Mi units (iterations times bytes of the seed, an
    empty seed counting as one), and an error otherwise. *)
Definition handled (c : ClientConfig) : Message :=
  match client_message_type c with
  | kEcho => {| type := kEchoResponse; request_id := 1; payload := PayloadBytes (client_payload c) |}
  | kWork =>
    let seed := PayloadBytes (client_payload c) in
    if decide (client_work_iterations c * Z.max 1 (len seed) <= 64 * 1024 * 1024)
    then {| type := kWorkResponse; request_id := 1; payload := be_bytes 8 (digest (client_work_iterations c) seed) |}
    else {| type := kErrorResponse; request_id := 1; payload := string_bytes "invalid work request payload" |}
  end.

(** C26.  The client accepts exactly the command lines of its grammar ([described],
    which does not refer to the parser), with the configuration they describe: the
    last value given for each option, or the default.  The request of such a
    configuration is a valid message, so that encoding it never fails, with at most
    the million iterations that the handler allows; the handler answers it with the
    payload or the digest, unless the work exceeds the handler's limit of work units,
    which the client does not check: it then answers with an error.  Every other command
    line is rejected with a [std::runtime_error]. *)
Theorem client_request_valid {S} argv (s : S) :
  match ParseArgs argv s with
  | (Return c, s') => s' = s /\ described argv c /\ is_u16 (client_port c) /\
      0 < client_work_iterations c <= kMaxWorkIterations /\ valid_message (BuildRequest c) /\
      EncodeMessage (BuildRequest c) = Some (frame (BuildRequest c)) /\
      HandleRequest (BuildRequest c) = Some (handled c)
  | (Throw (RuntimeError _), s') => s' = s /\ forall c, ~ described argv c
  | _ => False
  end.
Proof.
  pose proof (ParseArgs_spec argv s) as H. unfold wp in H. destruct (ParseArgs argv s) as [[c|e| |] s'].
  - destruct H as (-> & Hc & Hfit & Hdesc). pose proof (BuildRequest_valid c Hc Hfit) as Hv.
    split; [done|]. split; [done|]. split; [apply Hc|]. split; [apply Hc|]. split; [done|]. split.
    + apply EncodeMessage_Some; [apply Hv|]. split; [apply Hv|done].
    + rewrite HandleRequest_spec by apply Hv. by rewrite respond_BuildRequest.
  - by destruct H as (-> & (e' & [= ->]) & Hno).
  - done.
  - by destruct H as (_ & (e' & ?) & _).
Qed.

(** A million iterations over 70 bytes: the client sends the request, the handler
    refuses it. *)
Lemma client_accepts_too_much_work :
  let argv := ["pulsecore_client"; "9000"; "--message-type"; "work"; "--work-iterations"; "1000000";
    "0123456789012345678901234567890123456789012345678901234567890123456789"]%string in
  exists c, ParseArgs argv tt = (Return c, tt) /\
    HandleRequest (BuildRequest c) = Some {| type := kErrorResponse; request_id := 1;
      payload := string_bytes "invalid work request payload" |}.
Proof.
  cbv zeta. exists {| client_port := 9000; client_message_type := kWork; client_work_iterations := 1000000;
    client_payload := "0123456789012345678901234567890123456789012345678901234567890123456789" |}.
  split; vm_compute; reflexivity.
Qed.

(** C22.  The whole client process.  It exits with code 0 after printing the usage
    exactly when [--help] is the only argument, or after one exchange for the request
    of its command line, with one line that reports the message returned; with code 1
    after printing the usage and the message of the exception: that of [ParseArgs],
    without a system call, if the command line describes no configuration, and that
    of the exchange otherwise.  [exchanged] says what each exchange did: the
    whole request sent and the first frame received returned, or how it failed,
    and the socket closed.  With fuel for the calls that may be interrupted it
    always ends. *)
Theorem client_main_exits `{Sys : OS} `{!OSLaws Sys} `{!ShortRun Sys} `{!SetupLaws Sys}
    inet_pton strerror fuel argv :
  match main inet_pton strerror fuel argv (mkSt console_new []) with
  | (Return code, st) => exits inet_pton strerror fuel argv code st
  | (OutOfFuel, _) => ~ ample fuel
  | _ => False
  end.
Proof.
  pose proof (client_main_spec inet_pton strerror fuel argv) as H. unfold wp in H.
  destruct (main _ _ _ _ _) as [[code|e| |] st]; [done|by destruct H|done|by destruct H].
Qed.

(** C11.  The client program and the epoll server, end to end.  If the client
    exits with code 0 and has printed no usage, and the connection between its
    socket [fc] and the server's connection [id] carries bytes in order, then what
    it printed is the line of the response that the table gives for the request
    of its command line: the payload itself for an echo, the digest for work
    within the work limit, and the error response for work beyond it. *)
Theorem client_main_end_to_end
    `{SysC : OS} `{!OSLaws SysC} `{!ShortRun SysC} `{!SetupLaws SysC}
    `{SysS : OS} `{!OSLaws SysS} `{!ShortRun SysS} `{!EpollLaws SysS}
    `{Env : Environment} `{!EnvironmentLaws Env}
    inet_pton strerror fuelc argv stc fc fuel cfg turns st r st' id :
  main (Sys := SysC) inet_pton strerror fuelc argv (mkSt console_new []) = (Return 0, stc) ->
  cerr (self stc) = "" ->
  config_wf cfg -> limits_wf (cfg_limits cfg) -> fresh_server cfg st ->
  Run (Sys := SysS) default_handler fuel turns st = (r, st') ->
  created_fds (hist stc) = [fc] ->
  received_of id (hist st') `prefix_of` sent_of fc (hist stc) ->
  received_of fc (hist stc) `prefix_of` sent_of id (hist st') ->
  exists c, ParseArgs argv (mkSt console_new []) = (Return c, mkSt console_new []) /\
    cout (self stc) = response_line
      match client_message_type c with
      | kEcho => {| type := kEchoResponse; request_id := 1; payload := PayloadBytes (client_payload c) |}
      | kWork =>
        let seed := PayloadBytes (client_payload c) in
        if decide (work_units (client_work_iterations c) seed <= kMaxWorkUnits)
        then {| type := kWorkResponse; request_id := 1;
                payload := be_bytes 8 (digest (client_work_iterations c) seed) |}
        else {| type := kErrorResponse; request_id := 1;
                payload := string_bytes "invalid work request payload" |}
      end.
Proof.
  intros Hmain Herr Hcfg Hlim Hfresh Hrun Hfc Hup Hdown.
  pose proof (wp_run _ _ _ _ _ _ (client_main_spec inet_pton strerror fuelc argv) Hmain)
    as [(_ & _ & ->)|[(_ & _ & c & m & (Hparse & Hc & Hfit & _) & Hex & Hself)|(_ & Hcode & _)]]; [done| |done].
  exists c. split; [done|]. rewrite Hself. simpl cout. f_equal.
  rewrite <- respond_BuildRequest by done. pose proof (BuildRequest_valid c Hc Hfit) as Hreq.
  destruct (client_post_returned _ _ _ _ _ _ _ _ _ Hex Hfc) as (Hm & Hsent & more & Hrec).
  by eapply epoll_answers_client.
Qed.

(** ** Witnesses

    The client asks for two rounds of work over a one-byte seed. *)

Abbreviation sample_argv :=
  ["pulsecore_client"; "9000"; "x"; "--message-type"; "work"; "--work-iterations"; "2"]%string.

Definition sample_config : ClientConfig :=
  {| client_port := 9000; client_payload := "x"; client_message_type := kWork; client_work_iterations := 2 |}.
Definition sample_request : Message := BuildRequest sample_config.

Definition client_world : Script :=
  {| script_interrupts := 1; script_recv := [IoOk (ztake 9 (frame (respond_spec sample_request)));
                                             IoOk (zdrop 9 (frame (respond_spec sample_request)))];
     script_send := [IoOk 6; IoErr EINTR]; script_accept := []; script_wait := []; script_setup := [] |}.

Definition epoll_world : Script :=
  {| script_interrupts := 1; script_recv := [IoErr EINTR; IoOk (frame sample_request)];
     script_send := []; script_accept := [IoOk 9];
     script_wait := [IoOk [ListenerEvent]; IoOk [{| events := EPOLLIN; key := 1 |}];
                     IoOk [WorkerWakeupEvent]; IoOk [{| events := EPOLLOUT; key := 1 |}];
                     IoOk [WorkerWakeupEvent]];
     script_setup := [] |}.

Abbreviation client_main world argv := (main (Sys := scripted world) sample_inet_pton
  (fun _ => "error"%string) 10 argv (mkSt console_new [])).
Abbreviation epoll_run := (Run (Sys := scripted epoll_world) (Env := sample_environment) default_handler 10 7
  sample_start).
#[local] Existing Instance sample_environment_laws.

Lemma client_main_exits_witness :
  let run := client_main client_world ["pulsecore_client"; "9000"; "--work-iterations"; "1000001"]%string in
  fst run = Return 1 /\ hist (snd run) = [] /\
  exists e, cerr (self (snd run)) = usage +:+ "pulsecore_client: " +:+ what (fun _ => "error"%string) e +:+ newline.
Proof.
  cbv zeta.
  pose proof (client_main_exits (Sys := scripted client_world) sample_inet_pton (fun _ => "error"%string) 10
    ["pulsecore_client"; "9000"; "--work-iterations"; "1000001"]%string) as H.
  assert (fst (client_main client_world ["pulsecore_client"; "9000"; "--work-iterations"; "1000001"]%string)
    = Return 1) as Hr by by_compute.
  assert (hist (snd (client_main client_world
    ["pulsecore_client"; "9000"; "--work-iterations"; "1000001"]%string)) = []) as Hh by by_compute.
  destruct (main _ _ _ _ _) as [r st]. cbn [fst snd] in *. subst r. split; [reflexivity|]. split; [exact Hh|].
  destruct H as [[H _]|[(_ & H & _)|(_ & _ & e & H & _)]]; [discriminate H|discriminate H|].
  exists e. by rewrite H.
Defined.

Lemma client_main_end_to_end_witness :
  exists c, ParseArgs sample_argv (mkSt console_new []) = (Return c, mkSt console_new []) /\
    fst (client_main client_world sample_argv) = Return 0.
Proof.
  assert (fst (client_main client_world sample_argv) = Return 0) as Hr by by_compute.
  assert (client_main client_world sample_argv = (Return 0, snd (client_main client_world sample_argv))) as Hrun
    by (rewrite <- Hr; apply surjective_pairing).
  destruct (client_main_end_to_end (SysC := scripted client_world) (SysS := scripted epoll_world)
    (Env := sample_environment) sample_inet_pton (fun _ => "error"%string) 10 sample_argv
    (snd (client_main client_world sample_argv)) 3 10 sample_cfg 7 sample_start (fst epoll_run) (snd epoll_run) 1
    Hrun ltac:(by_compute) sample_cfg_wf sample_limits_wf sample_fresh (surjective_pairing epoll_run)
    ltac:(by_compute) ltac:(by_decide) ltac:(by_decide)) as (c & Hc & _).
  exists c. split; [exact Hc|exact Hr].
Defined.
