(* ===== verification/ServerMain.v ===== *)
(** * The blocking server program

    [apps/server/main.cpp]: one client after the other, until a call fails.  [exits]
    says how the process ends for a command line; it names the port requested and the
    calls of [ServeOne] that were made. *)

From Stdlib Require Import Ascii.
From S2P Require Import Prelude Os Scripted UniqueFd Codec Handler Connection ServerStart BlockingTcp.
From S2P Require Import ServerInvariant BlockingTheorems CommandLine.

Definition ParsePort {S} (text : string) : M S Z := parse_port text.

Definition usage : string := "usage: pulsecore_server [port]" +:+ newline.
Definition startup (port : Z) : string :=
  "PulseCore blocking server listening on 127.0.0.1:" +:+ decimal port +:+ newline.

Section Program.
Context `{Sys : OS} (strerror : Z -> string) (turns fuel : nat).

(** The process, and the process while the server is in scope. *)
Abbreviation Prog := (M (St Console)).
Abbreviation Scope := (M (St (Console * BlockingEchoServer))).

Definition out {X} (view : X -> Console) (set : Console -> X -> X) (text : string) : M (St X) unit :=
  print view set text.
Definition err (text : string) : Prog unit := print_error (fun c => c) (fun c _ => c) text.
Definition PrintUsage : Prog unit := err usage.

Definition on_server {A} (m : M (St BlockingEchoServer) A) : Scope A :=
  zoom (fun p => Some p.2) (fun s p => (p.1, s)) m.

(** The destructor of the server destroys its listener. *)
Definition server_block {A} (m : Scope A) : Scope A :=
  let destroy := this ← get_self; UniqueFd_destroy (listener_ this.2) in
  a ← on_exception m destroy;
  destroy ;;
  mret a.
Definition with_server {A} (server : BlockingEchoServer) (m : Scope A) : Prog A := fun st =>
  let '(r, st') := server_block m (mkSt (self st, server) (hist st)) in
  (r, mkSt (fst (self st')) (hist st')).

(** [while (true) { server.ServeOne(); }], [n] clients. *)
Fixpoint serve_clients (n : nat) : Scope unit :=
  match n with
  | O => out_of_fuel
  | S n => on_server (ServeOne turns fuel) ;; serve_clients n
  end.

(** The statements of [main] after the declaration of the server. *)
Definition serve (n : nat) : Scope unit :=
  this ← get_self;
  out fst (fun c p => (c, p.2)) (startup (BlockingEchoServer_port this.2)) ;;
  serve_clients n.

Definition main (clients : nat) (argv : list string) : Prog Z :=
  try_catch (
    if (len argv =? 2) && bool_decide (argv !! 1%nat = Some "--help"%string)
    then PrintUsage ;; mret 0 else
    if 2 <? len argv then PrintUsage ;; mret 2 else
    port ← match argv with _ :: text :: _ => ParsePort text | _ => mret 9000 end;
    server ← BlockingEchoServer_construct port;
    with_server server (serve clients) ;;
    mret 0)
  (fun error =>
    err ("pulsecore_server: " +:+ what strerror error +:+ newline) ;;
    mret 1).
End Program.

(** ** Proofs *)

Section Proofs.
Context `{Sys : OS} `{!OSLaws Sys} `{!ShortRun Sys} `{!SetupLaws Sys}.
Context (strerror : Z -> string) (turns fuel : nat).

(** Between two clients: no accepted socket is open, and the listener is the only
    descriptor that was created. *)
Definition serving (l : Z) (h : History) : Prop :=
  (forall fd, is_open fd h = false) /\ created_fds h = [l] /\ (forall mask0, signal_mask mask0 h = mask0) /\
  len (all_received h) < 2 ^ 64.

Definition quiet_event (e : SysEvent) : Prop :=
  match e with EvSetup _ _ | EvClose _ | EvAccept _ (IoOk _) => False | _ => True end.

Lemma quiet_is_open fd h es : Forall quiet_event es -> is_open fd (h ++ es) = is_open fd h.
Proof.
  intros H. induction es as [|e es IH] using rev_ind; [by rewrite app_nil_r|].
  apply Forall_app in H as [H1 H2%Forall_inv]. rewrite app_assoc, is_open_snoc, IH by done.
  destruct e as [| | | | |? []| | | | | | | |]; done.
Qed.

Lemma no_setup_kept es mask0 h :
  Forall (fun e => match e with EvSetup _ _ => False | _ => True end) es ->
  signal_mask mask0 (h ++ es) = signal_mask mask0 h /\ created_fds (h ++ es) = created_fds h.
Proof.
  intros H. split.
  - unfold signal_mask. rewrite foldl_app. generalize (foldl mask_step mask0 h).
    induction H as [|e es He _ IH]; intros m; [done|]. simpl.
    assert (mask_step m e = m) as -> by by destruct e. apply IH.
  - rewrite created_fds_app. assert (created_fds es = []) as ->; [|by rewrite app_nil_r].
    apply log_none. eapply List.Forall_impl; [|exact H]. by intros [].
Qed.

(** One round of the loop, however it ends. *)
Lemma serving_round l h es o :
  serving l h -> serve_end turns fuel l es o -> o <> Some None -> len (all_received (h ++ es)) < 2 ^ 64 ->
  serving l (h ++ es).
Proof.
  intros (Hopen & Hcr & Hmask & _) (waits & Hw & Hend) Ho Hlen.
  assert (Forall quiet_event waits) as Hq by (eapply List.Forall_impl; [|exact Hw]; by intros ? ->).
  assert (Forall (fun e => match e with EvSetup _ _ => False | _ => True end) waits) as Hn
    by (eapply List.Forall_impl; [|exact Hw]; by intros ? ->).
  destruct Hend as [(fd & ios & reqs & tail & unsent & (Hios & _) & _ & ->)|[(errno & _ & _ & ->)|(-> & _)]]; [| |done].
  - assert (es_end : (match o with Some None => [] | _ => [EvClose fd] end) = [EvClose fd])
      by (by destruct o as [[]|]). rewrite es_end in *.
    assert (Forall quiet_event ios) as Hqi by (eapply List.Forall_impl; [|exact Hios]; by intros [] []).
    assert (forall mask0, signal_mask mask0 (h ++ waits ++ [EvAccept l (IoOk fd)] ++ ios ++ [EvClose fd])
        = signal_mask mask0 h /\ created_fds (h ++ waits ++ [EvAccept l (IoOk fd)] ++ ios ++ [EvClose fd])
        = created_fds h) as Hkept.
    { intros mask0. apply no_setup_kept. apply Forall_app_2; [done|]. apply Forall_app_2; [by repeat constructor|].
      apply Forall_app_2; [|by repeat constructor]. eapply List.Forall_impl; [|exact Hios]. by intros [] []. }
    split; [|split; [by rewrite (proj2 (Hkept ∅))|split; [intros m; by rewrite (proj1 (Hkept m))|done]]].
    intros f. rewrite !app_assoc, is_open_snoc, quiet_is_open, is_open_snoc, quiet_is_open, Hopen by done.
    repeat case_bool_decide; done.
  - assert (forall mask0, signal_mask mask0 (h ++ waits ++ [EvAccept l (IoErr errno)]) = signal_mask mask0 h /\
      created_fds (h ++ waits ++ [EvAccept l (IoErr errno)]) = created_fds h) as Hkept.
    { intros mask0. apply no_setup_kept. apply Forall_app_2; [done|by repeat constructor]. }
    split; [|split; [by rewrite (proj2 (Hkept ∅))|split; [intros m; by rewrite (proj1 (Hkept m))|done]]].
    intros f. rewrite quiet_is_open; [done|]. apply Forall_app_2; [done|by repeat constructor].
Qed.

(** Clients are served one after the other until [ServeOne] throws. *)
Inductive loop_fails (server : BlockingEchoServer) : History -> Exception -> History -> Prop :=
| fails_now h e h' :
    ServeOne turns fuel (mkSt server h) = (Throw e, mkSt server h') -> loop_fails server h e h'
| fails_later h h1 e h' :
    ServeOne turns fuel (mkSt server h) = (Return tt, mkSt server h1) -> loop_fails server h1 e h' ->
    loop_fails server h e h'.

(** Clients are served one after the other: [n] of them, or until [ServeOne] waits
    for one that does not go on. *)
Inductive still_serving (server : BlockingEchoServer) : nat -> History -> Prop :=
| serves_all h : still_serving server 0 h
| serves_one n h st : ServeOne turns fuel (mkSt server h) = (OutOfFuel, st) -> still_serving server (S n) h
| serves_next n h h1 :
    ServeOne turns fuel (mkSt server h) = (Return tt, mkSt server h1) -> still_serving server n h1 ->
    still_serving server (S n) h.

(** A round of the loop, with its outcome. *)
Lemma ServeOne_serving server h :
  serving (UniqueFd_get (listener_ server)) h ->
  wp (ServeOne turns fuel)
    (fun _ st => ServeOne turns fuel (mkSt server h) = (Return tt, st) /\ self st = server /\
       serving (UniqueFd_get (listener_ server)) (hist st))
    (fun o st => match o with
       | Some e => ServeOne turns fuel (mkSt server h) = (Throw e, st) /\ self st = server /\
           serving (UniqueFd_get (listener_ server)) (hist st)
       | None => ServeOne turns fuel (mkSt server h) = (OutOfFuel, st) end) (mkSt server h).
Proof.
  intros Hs. pose proof (ServeOne_spec turns fuel server h (proj2 (proj2 (proj2 Hs)))) as H. unfold wp in *.
  destruct (ServeOne turns fuel (mkSt server h)) as [[[]|e| |] st]; try done;
    destruct H as (es & -> & Hend & Hlen); (split; [done|]); (split; [done|]); by eapply serving_round.
Qed.

Lemma serve_clients_spec n c server h :
  serving (UniqueFd_get (listener_ server)) h ->
  wp (serve_clients turns fuel n) (fun _ _ => False)
    (fun o st => match o with
       | Some e => exists h', st = mkSt (c, server) h' /\ serving (UniqueFd_get (listener_ server)) h' /\
           loop_fails server h e h'
       | None => still_serving server n h /\ (self st).1 = c end)
    (mkSt (c, server) h).
Proof.
  revert h. induction n as [|n IH]; intros h Hs; simpl.
  { apply wp_out_of_fuel. split; [apply serves_all|done]. }
  apply wp_bind. apply (wp_zoom _ _ _ _ _ _ server); [done|]. simpl.
  eapply wp_mono; [by apply ServeOne_serving| |].
  - intros [] [s1 h1] (Hone & Hself & Hs1). simpl in *. subst s1.
    eapply wp_mono; [by apply IH|done|].
    intros [e|] st Ho; [|destruct Ho as [Ho Hc]; split; [by eapply serves_next|exact Hc]].
    destruct Ho as (h' & -> & Hs' & Hloop). exists h'. do 2 (split; [done|]). by eapply fails_later.
  - intros [e|] [s1 h1] Ho; [|split; [by eapply serves_one|done]]. destruct Ho as (Hone & Hself & Hs1). simpl in *. subst s1.
    exists h1. do 2 (split; [done|]). by apply fails_now.
Qed.

(** The listener is closed at the end of the scope. *)
Lemma listener_closed l h :
  serving l h -> forall mask0, clean mask0 (h ++ [EvClose l]).
Proof.
  intros (Hopen & Hcr & Hmask & _) mask0. split_and!.
  - intros fd. rewrite is_open_snoc, Hopen. by case_bool_decide.
  - intros fd. rewrite created_fds_app, closed_fds_app, Hcr, !elem_of_app. simpl.
    intros [H|H%not_elem_of_nil]; [by right|done].
  - unfold signal_mask. rewrite foldl_app. simpl. apply Hmask.
Qed.

(** The server in its scope: it never returns, and the listener is closed. *)
Lemma blocking_with_server_spec n c server h :
  0 <= UniqueFd_get (listener_ server) -> serving (UniqueFd_get (listener_ server)) h ->
  wp (with_server server (serve turns fuel n)) (fun _ _ => False)
    (fun o st => match o with
       | Some e => exists h', loop_fails server h e h' /\
           (forall mask0, clean mask0 (h' ++ [EvClose (UniqueFd_get (listener_ server))])) /\
           st = mkSt {| cout := cout c +:+ startup (port_ server); cerr := cerr c |}
                  (h' ++ [EvClose (UniqueFd_get (listener_ server))])
       | None => still_serving server n h /\ self st = {| cout := cout c +:+ startup (port_ server); cerr := cerr c |}
       end) (mkSt c h).
Proof.
  intros Hl Hs. set (c1 := {| cout := _; cerr := _ |}). set (l := UniqueFd_get (listener_ server)).
  assert (wp (server_block (serve turns fuel n)) (fun _ _ => False)
    (fun o st => match o with
       | Some e => exists h', loop_fails server h e h' /\ (forall mask0, clean mask0 (h' ++ [EvClose l])) /\
           (self st).1 = c1 /\ hist st = h' ++ [EvClose l]
       | None => still_serving server n h /\ (self st).1 = c1 end) (mkSt (c, server) h)) as Hall.
  2: { revert Hall. unfold wp, with_server. simpl. destruct (server_block _ _) as [[] st]; try done.
       intros (h' & H1 & H2 & <- & Hh). exists h'. do 2 (split; [done|]). simpl. by rewrite Hh. }
  apply wp_bind, wp_on_exception, wp_bind, wp_get_self, wp_bind, wp_bind, wp_get_self, wp_put_self. simpl.
  fold c1. eapply wp_mono; [by apply serve_clients_spec|done|].
  intros [e|] st Hst; [|done]. destruct Hst as (h' & -> & Hs' & Hloop).
  apply wp_bind, wp_get_self. unfold l in *. simpl. destruct (listener_ server) as [fd].
  change {| fd_ := fd |} with (UniqueFd_make fd) in *. unfold wp.
  rewrite UniqueFd_destroy_run, (close_of_valid fd) by done. exists h'.
  split; [done|]. split; [by apply listener_closed|done].
Qed.

(** *** How the process ends *)

Abbreviation begun := (mkSt console_new []).

(** The port of the command line: the default one, or a text that [ParsePort] reads. *)
Definition requested (argv : list string) (port : Z) : Prop :=
  (len argv < 2 /\ port = 9000) \/
  exists program text, argv = [program; text] /\ text <> "--help"%string /\
    ParsePort text begun = (Return port, begun).

(** The line that announces a server, and what is printed when an exception [e] ends
    the process, after [output]. *)
Definition announced (server : BlockingEchoServer) : string :=
  "PulseCore blocking server listening on 127.0.0.1:" +:+ decimal (port_ server) +:+ newline.
Definition failed (output : string) (e : Exception) : Console :=
  {| cout := output; cerr := "pulsecore_server: " +:+ what strerror e +:+ newline |}.

(** The server was constructed for the port requested. *)
Definition started (argv : list string) (server : BlockingEchoServer) (st1 : St Console) : Prop :=
  exists port, requested argv port /\ BlockingEchoServer_construct port begun = (Return server, st1).

(** The exit code and what is left: for [--help], for too many arguments, for a port
    that [ParsePort] refuses, all before any system call; for a constructor that
    throws, whose calls are the only ones; and for a server that stopped serving. *)
Inductive exits (argv : list string) : Z -> St Console -> Prop :=
| exits_help : help argv -> exits argv 0 (mkSt {| cout := ""; cerr := usage |} [])
| exits_too_many : 2 < len argv -> exits argv 2 (mkSt {| cout := ""; cerr := usage |} [])
| exits_port program text e :
    argv = [program; text] -> text <> "--help"%string -> ParsePort text begun = (Throw e, begun) ->
    exits argv 1 (mkSt (failed "" e) [])
| exits_start port e st1 :
    requested argv port -> BlockingEchoServer_construct port begun = (Throw e, st1) ->
    exits argv 1 (mkSt (failed "" e) (hist st1))
| exits_serving server st1 e h :
    started argv server st1 -> loop_fails server (hist st1) e h ->
    exits argv 1 (mkSt (failed (announced server) e) (h ++ [EvClose (UniqueFd_get (listener_ server))])).

Lemma construct_serving port (c : Console) :
  wp (BlockingEchoServer_construct port)
    (fun server st => BlockingEchoServer_construct port (mkSt c []) = (Return server, st) /\
       exists h, st = mkSt c h /\ 0 <= UniqueFd_get (listener_ server) /\
       serving (UniqueFd_get (listener_ server)) h)
    (fun o st => (forall mask0, clean mask0 (hist st)) /\ self st = c /\ exists e, o = Some e /\
       BlockingEchoServer_construct port (mkSt c []) = (Throw e, st)) (mkSt c []).
Proof.
  pose proof (construct_spec port c []) as H. unfold wp in *.
  destruct (BlockingEchoServer_construct port (mkSt c [])) as [[server|e| |] st]; [| |done|].
  - destruct H as (fd & a & b & d & p & -> & Hfd & _ & ->). split; [done|]. eexists. split; [done|]. split; [done|].
    split_and!; done.
  - destruct H as (name & e' & es & _ & -> & Hheld & Hes). split; [|by split; [|exists e]]. intros mask0. simpl.
    split_and!.
    + intros fd. apply start_events_log. eapply List.Forall_impl; [|exact Hes]. by intros [].
    + intros fd Hfd. destruct (held_created _ _ _ Hheld Hfd) as [H|H]; [by apply not_elem_of_nil in H|done].
    + clear Hheld. unfold signal_mask. induction Hes as [|[] es He _ IH]; try done. simpl.
      destruct call, r; done || by destruct He.
  - by destruct H as (? & ? & ? & ? & _).
Qed.

(** What [main] catches: an exception [e], after printing [output]. *)
Definition caught (argv : list string) (e : Exception) (st : St Console) : Prop :=
  (forall mask0, clean mask0 (hist st)) /\ cerr (self st) = "" /\
  exits argv 1 (mkSt (failed (cout (self st)) e) (hist st)).

Definition exits_clean (argv : list string) (code : Z) (st : St Console) : Prop :=
  (forall mask0, clean mask0 (hist st)) /\ exits argv code st.

(** The server was started and announced, and serves [clients] of its clients. *)
Definition serves_on (clients : nat) (argv : list string) (o : option Exception) (st : St Console) : Prop :=
  o = None /\ exists server st1, started argv server st1 /\ self st = {| cout := announced server; cerr := "" |} /\
    still_serving server clients (hist st1).

Lemma requested_spec argv :
  ~ help argv -> len argv <= 2 ->
  wp (match argv with _ :: text :: _ => ParsePort text | _ => mret 9000 end)
    (fun port st => st = begun /\ requested argv port)
    (fun o st => exists e, o = Some e /\ st = begun /\ caught argv e begun) begun.
Proof.
  intros Hno Hlen. destruct argv as [|program [|text [|more argv]]].
  1, 2: apply wp_ret; split; [done|]; left; split; done.
  2: { unfold len in Hlen. simpl in Hlen. lia. }
  assert (text <> "--help"%string) as Hhelp by (intros ->; apply Hno; by exists program).
  pose proof (parse_port_spec (X := St Console) text begun) as H. fold (ParsePort (S := St Console) text) in H.
  unfold wp in *. destruct (ParsePort text begun) as [[port|e| |] st] eqn:Hp; [| |done|].
  - destruct H as [-> _]. split; [done|]. right. by exists program, text.
  - destruct H as [-> _]. exists e. split; [done|]. split; [done|]. split; [intros mask0; apply clean_nil|].
    split; [done|]. by eapply exits_port.
  - by destruct H as (_ & (? & ? & _) & _).
Qed.

Lemma blocking_main_spec clients argv :
  wp (main strerror turns fuel clients argv) (exits_clean argv) (serves_on clients argv) begun.
Proof.
  unfold main. apply wp_try_catch.
  eapply wp_mono with (E := fun o st => match o with
    | Some e => caught argv e st | None => serves_on clients argv None st end); [|done|].
  2: { intros [e|] [[co ce] h] H; [|exact H]. destruct H as (Hclean & Herr & Hexit). simpl in *. subst ce.
       apply wp_bind, wp_print_error, wp_ret. by split. }
  destruct (_ && _) eqn:Hhelp.
  { apply help_spec in Hhelp. apply wp_bind, wp_print_error, wp_ret.
    split; [intros mask0; apply clean_nil|by constructor]. }
  assert (~ help argv) as Hno by (rewrite <- help_spec; congruence).
  destruct (Z.ltb_spec 2 (len argv)).
  { apply wp_bind, wp_print_error, wp_ret. split; [intros mask0; apply clean_nil|by apply exits_too_many]. }
  eapply wp_call; [by apply requested_spec| |by intros o st (e & -> & -> & H')].
  intros port st (-> & Hport). eapply wp_call; [apply construct_serving| |].
  - intros server st (Hstart & h & -> & Hl & Hs). assert (started argv server (mkSt console_new h)) by by exists port.
    eapply wp_call; [by apply blocking_with_server_spec|done|].
    intros [e|] st Ho; [|destruct Ho as [Hn Hself]; by split; [|exists server, (mkSt console_new h)]].
    destruct Ho as (h' & Hloop & Hclean & ->). split; [done|]. split; [done|].
    by apply (exits_serving argv server (mkSt console_new h)).
  - intros o [c h] (Hclean & Hself & e & -> & Hthrow). simpl in *. subst c. split; [done|]. split; [done|].
    exact (exits_start argv port e _ Hport Hthrow).
Qed.
End Proofs.

(** ** Property *)

(** C23.  The whole process of the blocking server, for any command line and any
    behaviour of the kernel and the clients.  It prints the usage and exits with
    code 0 exactly for [--help] as the only argument, and with code 2 exactly for
    more than one argument.  Otherwise it takes the port 9000 or the one given, and
    it exits only with code 1 and the message of the exception that ended it: that
    of [ParsePort], of the constructor, or, after the start line with the port of
    the server, of the first [ServeOne] that threw after any number that returned.
    The system calls are those of these operations and the [close] of the listener.
    Whatever happened, no accepted socket is open, every descriptor created has been
    closed, and the signal mask is untouched.  No exception leaves [main] and it has
    no undefined behaviour; the only other possibility is that the server was started
    and announced and goes on serving: any number [clients] of clients, or those
    before one that does not go on. *)
Theorem blocking_main_exits `{Sys : OS} `{!OSLaws Sys} `{!ShortRun Sys} `{!SetupLaws Sys}
    strerror turns fuel clients argv :
  match main strerror turns fuel clients argv (mkSt console_new []) with
  | (Return code, st) => (forall mask0, clean mask0 (hist st)) /\ exits strerror turns fuel argv code st
  | (OutOfFuel, st) => exists server st1, started argv server st1 /\
      self st = {| cout := announced server; cerr := "" |} /\ still_serving turns fuel server clients (hist st1)
  | _ => False
  end.
Proof.
  pose proof (blocking_main_spec strerror turns fuel clients argv) as H. unfold wp in H.
  destruct (main _ _ _ _ _ _) as [[code|e| |] st]; [done|by destruct H|done|by destruct H].
Qed.

(** One client is served, the second one resets its connection. *)
Definition two_clients : Script :=
  {| script_interrupts := 1; script_recv := [IoOk (frame sample_work); IoOk []; IoOk [1; 2]; IoErr ECONNRESET];
     script_send := []; script_accept := [IoErr EINTR; IoOk 7; IoOk 8]; script_wait := []; script_setup := [] |}.

Abbreviation sample_main := (main (Sys := scripted two_clients) (fun _ => "reset"%string) 5 10 3
  ["pulsecore_server"; "9000"]%string (mkSt console_new [])).

Lemma blocking_main_exits_witness :
  fst sample_main = Return 1 /\ closed_fds (hist (snd sample_main)) = [7; 8; 3] /\
  (forall mask0, clean mask0 (hist (snd sample_main))) /\
  cerr (self (snd sample_main)) = "pulsecore_server: recv: reset" +:+ newline.
Proof.
  assert (fst sample_main = Return 1) as Hr by (vm_compute; reflexivity).
  assert (closed_fds (hist (snd sample_main)) = [7; 8; 3]) as Hc by (vm_compute; reflexivity).
  pose proof (blocking_main_exits (Sys := scripted two_clients) (fun _ => "reset"%string) 5 10 3
    ["pulsecore_server"; "9000"]%string) as H.
  assert (cerr (self (snd sample_main)) = "pulsecore_server: recv: reset" +:+ newline) as He
    by (vm_compute; reflexivity).
  destruct sample_main as [r st]. cbn [fst snd] in *. subst r. split; [reflexivity|]. split; [exact Hc|].
  split; [exact (proj1 H)|exact He].
Defined.
