(* ===== verification/Doubles.v ===== *)
(** * Doubles

    The arithmetic on [double] of the benchmark, after IEEE 754 as the Standard
    Library specifies it, with rounding to nearest: a number is a sign, a mantissa
    of at most 53 bits and an exponent.  Doubles are compared, and written to a
    stream under [std::fixed << std::setprecision(2)]. *)

From Stdlib Require Import SpecFloat.
From S2P Require Import Prelude CommandLine.

Abbreviation double := spec_float.

Definition double_prec : Z := 53.
Definition double_emax : Z := 1024.

(** [static_cast<double>(n)]. *)
Definition double_of_Z (n : Z) : double := binary_normalize double_prec double_emax n 0 false.
Definition double_mul (x y : double) : double := SFmul double_prec double_emax x y.
Definition double_div (x y : double) : double := SFdiv double_prec double_emax x y.

Definition double_zero : double := S754_zero false.

(** ** Order

    [x < y] of the program is [SFltb x y]; its negation is an order up to equality
    once NaN, which compares with nothing, is put above all numbers. *)

Definition double_key (x : double) : Z * Z * Z :=
  match x with
  | S754_infinity true => (-2, 0, 0)
  | S754_finite true m e => (-1, - e, - Z.pos m)
  | S754_zero _ => (0, 0, 0)
  | S754_finite false m e => (1, e, Z.pos m)
  | S754_infinity false => (2, 0, 0)
  | S754_nan => (3, 0, 0)
  end.

Definition key_le (a b : Z * Z * Z) : Prop :=
  let '(a1, a2, a3) := a in let '(b1, b2, b3) := b in
  a1 < b1 \/ (a1 = b1 /\ (a2 < b2 \/ (a2 = b2 /\ a3 <= b3))).

Definition double_le (x y : double) : Prop := key_le (double_key x) (double_key y).

#[export] Instance key_le_dec a b : Decision (key_le a b).
Proof. destruct a as [[? ?] ?], b as [[? ?] ?]. unfold key_le. apply _. Defined.
#[export] Instance double_le_dec : RelDecision double_le.
Proof. intros x y. unfold double_le. apply _. Defined.

#[export] Instance double_le_preorder : PreOrder double_le.
Proof.
  unfold double_le. split.
  - intros x. destruct (double_key x) as [[? ?] ?]. simpl. lia.
  - intros x y z. destruct (double_key x) as [[? ?] ?], (double_key y) as [[? ?] ?], (double_key z) as [[? ?] ?].
    simpl. lia.
Qed.
#[export] Instance double_le_total : Total double_le.
Proof.
  intros x y. unfold double_le.
  destruct (double_key x) as [[? ?] ?], (double_key y) as [[? ?] ?]. simpl. lia.
Qed.

(** On numbers it is the order of [operator<]. *)
Lemma double_lt_le x y :
  x <> S754_nan -> y <> S754_nan -> SFltb x y = true <-> ~ double_le y x.
Proof.
  intros Hx Hy. unfold SFltb, double_le.
  destruct x as [s1|s1| |s1 m1 e1], y as [s2|s2| |s2 m2 e2]; try done;
    try destruct s1; try destruct s2; simpl; try (split; [done|lia]); try (split; [lia|done]).
  all: change (Pos.compare_cont Eq m1 m2) with (m1 ?= m2)%positive.
  all: destruct (Z.compare_spec e1 e2); simpl; try (split; [done|lia]); try (split; [lia|done]).
  all: destruct (Pos.compare_spec m1 m2); simpl; try (split; [done|lia]); try (split; [lia|done]).
Qed.

(** ** Output

    A number of hundredths: the exact value, rounded to nearest, and to even when
    it is in the middle. *)

Definition hundredths (m : positive) (e : Z) : Z :=
  if 0 <=? e then 100 * Z.pos m * 2 ^ e else
  let unit := 2 ^ (- e) in
  let q := 100 * Z.pos m / unit in
  match Z.compare (2 * (100 * Z.pos m mod unit)) unit with
  | Lt => q
  | Gt => q + 1
  | Eq => if Z.even q then q else q + 1
  end.

Definition sign (s : bool) : string := if s then "-" else "".

(** [std::cout << x] with two digits after the point. *)
Definition show_fixed (x : double) : string :=
  match x with
  | S754_zero s => sign s +:+ "0.00"
  | S754_infinity s => sign s +:+ "inf"
  | S754_nan => "nan"
  | S754_finite s m e =>
    let n := hundredths m e in
    sign s +:+ decimal (n / 100) +:+ "." +:+ decimal (n mod 100 / 10) +:+ decimal (n mod 10)
  end.

(** What is printed is at most half a hundredth from the value [m * 2^e]. *)
Lemma hundredths_nearest m e :
  if 0 <=? e then hundredths m e = 100 * (Z.pos m * 2 ^ e)
  else Z.abs (2 * (hundredths m e * 2 ^ (- e) - 100 * Z.pos m)) <= 2 ^ (- e).
Proof.
  unfold hundredths. destruct (Z.leb_spec 0 e) as [He|He]; [lia|].
  assert (0 < 2 ^ (- e)) as Hu by (apply Z.pow_pos_nonneg; lia). set (unit := 2 ^ (- e)) in *.
  pose proof (Z.div_mod (100 * Z.pos m) unit ltac:(lia)) as Hd.
  pose proof (Z.mod_pos_bound (100 * Z.pos m) unit Hu) as Hr.
  set (q := 100 * Z.pos m / unit) in *. set (r := (100 * Z.pos m) mod unit) in *.
  destruct (Z.compare_spec (2 * r) unit); [destruct (Z.even q)|..]; nia.
Qed.

(** Examples: exact halves go to even, and the value is the binary one. *)
Example show_third : show_fixed (double_div (double_of_Z 1) (double_of_Z 3)) = "0.33".
Proof. reflexivity. Qed.
Example show_half_even :
  show_fixed (double_div (double_of_Z 1) (double_of_Z 8)) = "0.12" /\
  show_fixed (double_div (double_of_Z 3) (double_of_Z 8)) = "0.38".
Proof. split; reflexivity. Qed.
Example show_binary : show_fixed (double_div (double_of_Z 1005) (double_of_Z 1000)) = "1.00".
Proof. vm_compute. reflexivity. Qed.
Example show_large : show_fixed (double_mul (double_of_Z 1000000) (double_of_Z 12345)) = "12345000000.00".
Proof. vm_compute. reflexivity. Qed.
Example show_rate_of_nothing : show_fixed (double_div (double_of_Z 5) double_zero) = "inf".
Proof. reflexivity. Qed.
