(* ===== verification/BenchmarkMain.v ===== *)
(** * The benchmark program: configuration, requests and percentiles

    [apps/benchmark/epoll_loopback.cpp]: what a command line is read as, the
    request that every client repeats, and the percentile of the latencies. *)

From Stdlib Require Import Ascii.
From stdpp Require Import sorting.
From S2P Require Import Prelude Os Codec Handler CommandLine.

Definition kWorkIterationBytes : Z := 4.

Inductive BenchmarkMessageType : Type := kEcho | kWork.

Record BenchmarkConfig : Type := {
  clients : Z;
  requests_per_client : Z;
  payload_size : Z;
  workers : Z;
  message_type : BenchmarkMessageType;
  work_iterations : Z;
}.

(** [hardware_concurrency] is [std::thread::hardware_concurrency()]. *)
Definition BenchmarkConfig_default (hardware_concurrency : Z) : BenchmarkConfig :=
  {| clients := 4; requests_per_client := 1000; payload_size := 64;
     workers := Z.max 1 (hardware_concurrency / 2); message_type := kEcho; work_iterations := 1000 |}.

Record ClientRequestTemplate : Type := {
  request_type : MessageType;
  expected_response_type : MessageType;
  request_payload : list Byte;
  expected_response_payload : list Byte;
}.

(** ** The command line *)

Definition ParsePositiveSize {S} (option text : string) : M S Z := parse_positive_size option text.

Definition ParseMessageType {S} (option value : string) : M S BenchmarkMessageType :=
  if String.eqb value "echo" then mret kEcho else
  if String.eqb value "work" then mret kWork else
  throw (RuntimeError (option +:+ " must be echo or work")).

Definition ParseWorkIterations {S} (option text : string) : M S Z :=
  value ← ParsePositiveSize option text;
  if kMaxWorkIterations <? value
  then throw (RuntimeError (option +:+ " exceeds maximum work iterations"))
  else mret (u32 value).

(** The loop of [ParseArgs], over the arguments after the current one. *)
Fixpoint ParseArgs_loop {S} (args : list string) (config : BenchmarkConfig) : M S BenchmarkConfig :=
  match args with
  | [] => mret config
  | [option] => throw (RuntimeError (option +:+ " requires a value"))
  | option :: value :: args =>
    config ← (if String.eqb option "--clients" then
        n ← ParsePositiveSize option value;
        mret {| clients := n; requests_per_client := requests_per_client config;
          payload_size := payload_size config; workers := workers config;
          message_type := message_type config; work_iterations := work_iterations config |}
      else if String.eqb option "--requests-per-client" then
        n ← ParsePositiveSize option value;
        mret {| clients := clients config; requests_per_client := n;
          payload_size := payload_size config; workers := workers config;
          message_type := message_type config; work_iterations := work_iterations config |}
      else if String.eqb option "--payload-size" then
        n ← ParsePositiveSize option value;
        mret {| clients := clients config; requests_per_client := requests_per_client config;
          payload_size := n; workers := workers config;
          message_type := message_type config; work_iterations := work_iterations config |}
      else if String.eqb option "--workers" then
        n ← ParsePositiveSize option value;
        mret {| clients := clients config; requests_per_client := requests_per_client config;
          payload_size := payload_size config; workers := n;
          message_type := message_type config; work_iterations := work_iterations config |}
      else if String.eqb option "--message-type" then
        t ← ParseMessageType option value;
        mret {| clients := clients config; requests_per_client := requests_per_client config;
          payload_size := payload_size config; workers := workers config;
          message_type := t; work_iterations := work_iterations config |}
      else if String.eqb option "--work-iterations" then
        n ← ParseWorkIterations option value;
        mret {| clients := clients config; requests_per_client := requests_per_client config;
          payload_size := payload_size config; workers := workers config;
          message_type := message_type config; work_iterations := n |}
      else throw (RuntimeError ("unknown option: " +:+ option)));
    ParseArgs_loop args config
  end.

(** A division of unsigned integers: by zero it is undefined. *)
Definition quotient (a b : Z) : option Z := if b =? 0 then None else Some (a / b).

Definition ParseArgs {S} (hardware_concurrency : Z) (argv : list string) : M S BenchmarkConfig :=
  config ← ParseArgs_loop (drop 1 argv) (BenchmarkConfig_default hardware_concurrency);
  if match message_type config with kEcho => kMaxPayloadSize <? payload_size config | _ => false end
  then throw (RuntimeError "--payload-size exceeds protocol max payload size") else
  if match message_type config with
     | kWork => kMaxPayloadSize - kWorkIterationBytes <? payload_size config | _ => false end
  then throw (RuntimeError "--payload-size leaves no room for work request metadata") else
  most ← the (quotient u64_max (clients config));
  if most <? requests_per_client config
  then throw (RuntimeError "--clients * --requests-per-client is too large") else
  mret config.

Definition MessageTypeName (t : BenchmarkMessageType) : string :=
  match t with kEcho => "echo" | kWork => "work" end.

(** ** The request of a client *)

Definition BuildClientRequestTemplate {S} (client_index : Z) (config : BenchmarkConfig) :
    M S ClientRequestTemplate :=
  let seed := replicate (Z.to_nat (payload_size config)) (u8 (Z.land client_index 255)) in
  match message_type config with
  | kEcho =>
    mret {| request_type := kEchoRequest; expected_response_type := kEchoResponse;
            request_payload := seed; expected_response_payload := seed |}
  | kWork =>
    let request_payload := EncodeWorkRequestPayload (work_iterations config) seed in
    expected_response ← the (HandleRequest
      {| type := kWorkRequest; request_id := 0; payload := request_payload |});
    if negb (bool_decide (type expected_response = kWorkResponse))
    then throw (LogicError "failed to prepare expected work response")
    else mret {| request_type := kWorkRequest; expected_response_type := kWorkResponse;
                 request_payload := request_payload;
                 expected_response_payload := payload expected_response |}
  end.

Definition RequestMessage (id : Z) (request_template : ClientRequestTemplate) : Message :=
  {| type := request_type request_template; request_id := id;
     payload := request_payload request_template |}.

(** [client_index * config.requests_per_client + request_index]. *)
Definition request_id_of (config : BenchmarkConfig) (client_index request_index : Z) : Z :=
  u64 (u64 (client_index * requests_per_client config) + request_index).

(** ** Percentiles *)

(** Latencies are [double]s in the program; the model keeps them abstract, with
    [zero] for [0.0] and [micros] for the multiplication by 1e6. *)
Definition PercentileMicros {A B} (zero : B) (micros : A -> B) (sorted_seconds : list A)
    (percentile : Z) : option B :=
  if len sorted_seconds =? 0 then Some zero else
  let rank := u64 (u64 (percentile * len sorted_seconds) + 99) / 100 in
  let index := Z.min (u64 (len sorted_seconds - 1)) (u64 (rank - 1)) in
  micros <$> zlookup sorted_seconds index.

(** ** What a configuration promises *)

Definition config_ok (c : BenchmarkConfig) : Prop :=
  0 < clients c /\ 0 < requests_per_client c /\ 0 < payload_size c /\ is_u64 (payload_size c) /\
  0 < workers c /\ 0 < work_iterations c <= kMaxWorkIterations.

(** The checks after the loop. *)
Definition config_fits (c : BenchmarkConfig) : Prop :=
  clients c * requests_per_client c <= u64_max /\
  payload_size c + match message_type c with kEcho => 0 | kWork => kWorkIterationBytes end
    <= kMaxPayloadSize.

Section Parsing.
Context {S : Type}.

Abbreviation rejected s := (fun (o : option Exception) s' => s' = s /\ exists e, o = Some (RuntimeError e)).

Lemma size_spec option text (Q : Z -> S -> Prop) s :
  (forall v, 0 < v -> is_u64 v -> Q v s) ->
  wp (ParsePositiveSize option text) Q (rejected s) s.
Proof.
  intros HQ. eapply wp_mono; [apply parse_positive_size_spec| |].
  - intros v s' (-> & _ & H0 & Hu). by apply HQ.
  - intros o s' (-> & (e & -> & _) & _). split; [done|by eexists].
Qed.

Lemma iterations_spec option text (Q : Z -> S -> Prop) s :
  (forall v, 0 < v <= kMaxWorkIterations -> Q v s) ->
  wp (ParseWorkIterations option text) Q (rejected s) s.
Proof.
  intros HQ. unfold ParseWorkIterations. apply wp_bind, size_spec. intros v H0 Hu.
  destruct (Z.ltb_spec kMaxWorkIterations v); [by apply wp_throw; split; [|by eexists]|].
  apply wp_ret. rewrite u32_id by (unfold kMaxWorkIterations, is_u32 in *; lia). by apply HQ.
Qed.

Lemma bench_ParseArgs_loop_spec args config (s : S) :
  config_ok config ->
  wp (ParseArgs_loop args config)
    (fun c s' => s' = s /\ config_ok c /\ (is_u64 (workers config) -> is_u64 (workers c))) (rejected s) s.
Proof.
  revert config. induction args as [|option args _ IH] using list_one_or_two_ind; intros config Hc.
  { by apply wp_ret. }
  destruct args as [|value args]; [by apply wp_throw; split; [|by eexists]|].
  cbn [ParseArgs_loop]. eapply wp_call with (E1 := rejected s)
    (Q1 := fun c s' => s' = s /\ config_ok c /\ (is_u64 (workers config) -> is_u64 (workers c))).
  - unfold config_ok in *. simpl in *.
    repeat match goal with
    | |- wp (if ?b then _ else _) _ _ _ => destruct b
    | |- wp (throw _) _ _ _ => apply wp_throw; split; [done|by eexists]
    | |- wp (_ ← ParsePositiveSize _ _; _) _ _ _ =>
        apply wp_bind, size_spec; intros; apply wp_ret; simpl; tauto
    | |- wp (_ ← ParseWorkIterations _ _; _) _ _ _ =>
        apply wp_bind, iterations_spec; intros; apply wp_ret; simpl; tauto
    | |- wp (_ ← ParseMessageType _ _; _) _ _ _ => unfold ParseMessageType; apply wp_bind
    | |- wp (mret _) _ _ _ => apply wp_ret
    end; simpl; try tauto.
  - intros c s' (-> & Hc' & Hw). eapply wp_mono; [by apply IH| |done].
    intros c' s' (-> & Hc2 & Hw'). split; [done|]. split; [done|]. by intros H%Hw%Hw'.
  - done.
Qed.

Lemma bench_ParseArgs_spec hc argv (s : S) :
  wp (ParseArgs hc argv) (fun c s' => s' = s /\ config_ok c /\ config_fits c /\ (is_u32 hc -> is_u64 (workers c)))
    (rejected s) s.
Proof.
  unfold ParseArgs. eapply wp_call; [apply bench_ParseArgs_loop_spec| |done].
  { unfold config_ok. simpl. split_and!; try done; lia. }
  intros c s' (-> & Hc & Hw). pose proof Hc as (Hclients & Hreq & _).
  assert (is_u32 hc -> is_u64 (workers c)) as Hworkers.
  { intros Hhc. apply Hw. simpl. unfold is_u32, is_u64 in *. pose proof (Z.div_le_upper_bound hc 2 (2 ^ 32)). lia. }
  assert (payload_size c + match message_type c with kEcho => 0 | kWork => kWorkIterationBytes end
    <= kMaxPayloadSize -> wp (most ← the (quotient u64_max (clients c));
      if most <? requests_per_client c
      then throw (RuntimeError "--clients * --requests-per-client is too large") else mret c)
      (fun c s' => s' = s /\ config_ok c /\ config_fits c /\ (is_u32 hc -> is_u64 (workers c))) (rejected s) s) as Hlast.
  { intros Hfit. unfold quotient. destruct (Z.eqb_spec (clients c) 0); [lia|]. apply wp_bind.
    eapply wp_the; [done|]. destruct (Z.ltb_spec (u64_max / clients c) (requests_per_client c)) as [|Hle];
      [by apply wp_throw; split; [|by eexists]|].
    apply wp_ret. split; [done|]. split; [done|]. split; [|done]. split; [|done].
    pose proof (Z.mul_div_le u64_max (clients c) Hclients).
    pose proof (Z.mul_le_mono_nonneg_l _ _ (clients c) (Z.lt_le_incl _ _ Hclients) Hle). lia. }
  destruct (message_type c).
  - destruct (Z.ltb_spec kMaxPayloadSize (payload_size c)); [by apply wp_throw; split; [|by eexists]|].
    apply Hlast. lia.
  - destruct (Z.ltb_spec (kMaxPayloadSize - kWorkIterationBytes) (payload_size c));
      [by apply wp_throw; split; [|by eexists]|]. apply Hlast. lia.
Qed.
End Parsing.

(** ** Requests and their expected responses *)

Definition ExpectedMessage (id : Z) (t : ClientRequestTemplate) : Message :=
  {| type := expected_response_type t; request_id := id; payload := expected_response_payload t |}.

(** The template is right for every request identifier, though it was computed
    for one. *)
Definition template_ok (t : ClientRequestTemplate) : Prop :=
  forall id, is_u64 id -> valid_message (RequestMessage id t) /\
    respond_spec (RequestMessage id t) = ExpectedMessage id t.

Lemma template_spec {S} client_index c (s : S) :
  config_ok c -> config_fits c -> 0 <= client_index ->
  wp (BuildClientRequestTemplate client_index c) (fun t s' => s' = s /\ template_ok t)
    (fun o s' => s' = s /\ (exists text, o = Some (LogicError text)) /\ message_type c = kWork /\
       kMaxWorkUnits < work_iterations c * payload_size c) s.
Proof.
  intros (_ & _ & Hsize & _ & _ & Hit) [_ Hfit] Hidx. unfold BuildClientRequestTemplate.
  set (seed := replicate _ _).
  assert (len seed = payload_size c) as Hlen by (unfold seed, len; rewrite length_replicate; lia).
  assert (Forall is_byte seed) as Hbytes.
  { apply Forall_replicate. unfold u8, is_u8. apply Z.mod_pos_bound. lia. }
  destruct (message_type c) eqn:Ht.
  { apply wp_ret. split; [done|]. intros id Hid. split; [|done].
    split; [by split_and!|]. split; [done|]. simpl. lia. }
  assert (forall id, is_u64 id -> valid_message {| type := kWorkRequest; request_id := id;
    payload := EncodeWorkRequestPayload (work_iterations c) seed |}) as Hvalid.
  { intros id Hid. apply work_request_valid; [done|done|]. unfold kWorkIterationBytes in Hfit. lia. }
  assert (work_units (work_iterations c) seed = work_iterations c * payload_size c) as Hunits.
  { unfold work_units. rewrite Hlen. by rewrite Z.max_r by lia. }
  apply wp_bind. eapply wp_the; [apply HandleRequest_spec; by apply (Hvalid 0)|].
  rewrite respond_work_request by lia. destruct (decide _) as [Hwork|Hwork]; simpl.
  - apply wp_ret. split; [done|]. intros id Hid. split; [by apply Hvalid|].
    unfold RequestMessage. cbn [request_type request_payload].
    rewrite respond_work_request by lia. by rewrite decide_True.
  - apply wp_throw. split; [done|]. split; [by eexists|]. split; [done|]. lia.
Qed.

Lemma request_id_exact c client_index request_index :
  config_fits c -> 0 <= client_index < clients c -> 0 <= request_index < requests_per_client c ->
  request_id_of c client_index request_index = client_index * requests_per_client c + request_index /\
  0 <= request_id_of c client_index request_index < clients c * requests_per_client c.
Proof.
  intros [Hmax _] Hc Hr. unfold request_id_of.
  assert (client_index * requests_per_client c + request_index < clients c * requests_per_client c) by nia.
  unfold u64_max in *. rewrite (u64_id (_ * _)), u64_id; unfold is_u64; nia.
Qed.

(** ** Percentiles of a sorted list *)

Lemma filter_all {A} (P : A -> Prop) `{!forall x, Decision (P x)} l : Forall P l -> filter P l = l.
Proof. induction 1; [done|]. rewrite filter_cons_True by done. by f_equal. Qed.
Lemma filter_none {A} (P : A -> Prop) `{!forall x, Decision (P x)} l :
  Forall (fun x => ~ P x) l -> filter P l = [].
Proof. induction 1; [done|]. by rewrite filter_cons_False. Qed.

(** The element at index [i] of a list sorted by a total preorder: more than [i]
    elements are no greater, and at most [i] are smaller. *)
Lemma sorted_counts {A} (R : relation A) `{!RelDecision R, !PreOrder R} (l : list A) (i : nat) (x : A) :
  StronglySorted R l -> l !! i = Some x ->
  (i < length (filter (fun y => R y x) l) /\ length (filter (fun y => ~ R x y) l) <= i)%nat.
Proof.
  intros Hs Hi. pose proof (lookup_lt_Some _ _ _ Hi) as Hlt.
  rewrite <- (take_drop_middle l i x Hi) in Hs |- *.
  assert (length (take i l) = i) as Hlen by (rewrite length_take; lia).
  apply StronglySorted_app in Hs as (Hcross & _ & Hs).
  apply StronglySorted_inv in Hs as [_ Hge].
  split.
  - change (take i l ++ x :: drop (S i) l) with (take i l ++ [x] ++ drop (S i) l).
    rewrite app_assoc, list.filter_app, length_app.
    assert (filter (fun y => R y x) (take i l ++ [x]) = take i l ++ [x]) as ->.
    { apply filter_all. apply Forall_app_2; [|by repeat constructor].
      apply list.Forall_forall. intros y Hy. apply Hcross; [done|apply list_elem_of_here]. }
    rewrite length_app, Hlen. simpl. lia.
  - rewrite list.filter_app, length_app.
    assert (filter (fun y => ~ R x y) (x :: drop (S i) l) = []) as ->.
    { apply filter_none. constructor; [by intros []|]. eapply List.Forall_impl; [|exact Hge]. by intros y Hy []. }
    pose proof (length_filter (fun y => ~ R x y) (take i l)). simpl. lia.
Qed.

Lemma percentile_spec {A B} (R : relation A) `{!RelDecision R, !PreOrder R, !Total R}
    (zero : B) (micros : A -> B) latencies percentile :
  latencies <> [] -> 1 <= percentile <= 100 -> percentile * len latencies + 99 < 2 ^ 64 ->
  exists x, x ∈ latencies /\
    PercentileMicros zero micros (merge_sort R latencies) percentile = Some (micros x) /\
    percentile * len latencies <= 100 * len (filter (fun y => R y x) latencies) /\
    100 * len (filter (fun y => ~ R x y) latencies) < percentile * len latencies.
Proof.
  intros Hne Hp Hov. set (sorted := merge_sort R latencies).
  assert (sorted ≡ₚ latencies) as Hperm by apply merge_sort_Permutation.
  assert (StronglySorted R sorted) as Hs by (apply (StronglySorted_merge_sort _)).
  assert (len sorted = len latencies) as Hlen by (unfold len; by rewrite Hperm).
  assert (0 < len latencies) as Hpos.
  { destruct latencies; [done|]. rewrite len_cons. pose proof (len_nonneg latencies). lia. }
  unfold PercentileMicros. rewrite Hlen. destruct (Z.eqb_spec (len latencies) 0) as [|_]; [lia|].
  rewrite (u64_id (_ * _)), (u64_id (_ + 99)) by (unfold is_u64; nia).
  set (rank := (percentile * len latencies + 99) / 100).
  assert (100 * rank <= percentile * len latencies + 99 < 100 * rank + 100) as Hrank.
  { pose proof (Z.div_mod (percentile * len latencies + 99) 100 ltac:(done)) as Hd.
    pose proof (Z.mod_pos_bound (percentile * len latencies + 99) 100 ltac:(done)). subst rank. lia. }
  rewrite !u64_id by (unfold is_u64; nia). rewrite Z.min_r by nia.
  destruct (lookup_lt_is_Some_2 sorted (Z.to_nat (rank - 1))) as [x Hx].
  { unfold len in *. nia. }
  exists x. split; [|split].
  - rewrite <- Hperm. by eapply list_elem_of_lookup_2.
  - unfold zlookup. rewrite bool_decide_eq_true_2 by nia. by rewrite Hx.
  - pose proof (sorted_counts R sorted _ x Hs Hx) as [Hle Hlt]. unfold len.
    rewrite <- Hperm. split; unfold len in *; nia.
Qed.

(** ** Properties *)

(** C27.  A command line that the benchmark accepts describes a run that can be made:
    positive counts, a payload that fits in a frame, and a number of requests that
    does not overflow, so that every request of every client has an identifier of
    its own, which is an index of the vector of latencies.  Every other command
    line is rejected with a [std::runtime_error]; the division of the last check
    never divides by zero. *)
Theorem benchmark_config_valid {S} hardware_concurrency argv (s : S) :
  match ParseArgs hardware_concurrency argv s with
  | (Return c, s') => s' = s /\ config_ok c /\ config_fits c /\
      forall i j, 0 <= i < clients c -> 0 <= j < requests_per_client c ->
        0 <= request_id_of c i j < clients c * requests_per_client c /\
        forall i' j', 0 <= i' < clients c -> 0 <= j' < requests_per_client c ->
          request_id_of c i j = request_id_of c i' j' -> i = i' /\ j = j'
  | (Throw (RuntimeError _), s') => s' = s
  | _ => False
  end.
Proof.
  pose proof (bench_ParseArgs_spec hardware_concurrency argv s) as H. unfold wp in H.
  destruct (ParseArgs _ _ _) as [[c|e| |] s'].
  - destruct H as (-> & Hc & Hfit & _). do 3 (split; [done|]). intros i j Hi Hj.
    destruct (request_id_exact c i j Hfit Hi Hj) as [Hid Hlt]. split; [done|].
    intros i' j' Hi' Hj'. rewrite Hid, (proj1 (request_id_exact c i' j' Hfit Hi' Hj')).
    intros Heq. assert (i = i') as -> by nia. split; [done|lia].
  - by destruct H as (-> & e' & [= ->]).
  - done.
  - by destruct H as (_ & e' & ?).
Qed.

(** The response that a client expects is the one that the response table gives,
    for every request identifier, though it is computed once, for the identifier
    0; and every request can be encoded.  Of an accepted configuration, the
    template fails to be built only for work beyond the work limit, which
    [ParseArgs] does not reject. *)
Theorem benchmark_template_expected {S} client_index c (s : S) :
  config_ok c -> config_fits c -> 0 <= client_index ->
  match BuildClientRequestTemplate client_index c s with
  | (Return t, s') => s' = s /\ forall id, is_u64 id ->
      valid_message (RequestMessage id t) /\
      respond_spec (RequestMessage id t) = ExpectedMessage id t
  | (Throw (LogicError _), s') => s' = s /\ message_type c = kWork /\
      kMaxWorkUnits < work_iterations c * payload_size c
  | _ => False
  end.
Proof.
  intros Hc Hfit Hi. pose proof (template_spec client_index c s Hc Hfit Hi) as H. unfold wp in H.
  destruct (BuildClientRequestTemplate _ _ _) as [[t|e| |] s']; [done| |done|].
  - by destruct H as (-> & (text & [= ->]) & H).
  - by destruct H as (_ & (text & ?) & _).
Qed.

(** C28.  The percentile of the sorted latencies is the one of the nearest-rank
    definition, for any order of the latencies: it is a latency [x] such that at
    least [percentile] per cent of the latencies are at most [x], and fewer are
    less than [x]. *)
Theorem percentile_nearest_rank {A B} (R : relation A) `{!RelDecision R, !PreOrder R, !Total R}
    (zero : B) (micros : A -> B) latencies percentile :
  latencies <> [] -> 1 <= percentile <= 100 -> percentile * len latencies + 99 < 2 ^ 64 ->
  exists x, x ∈ latencies /\
    PercentileMicros zero micros (merge_sort R latencies) percentile = Some (micros x) /\
    percentile * len latencies <= 100 * len (filter (fun y => R y x) latencies) /\
    100 * len (filter (fun y => ~ R x y) latencies) < percentile * len latencies.
Proof. exact (percentile_spec R zero micros latencies percentile). Qed.

(** ** Witnesses *)

Definition sample_config : BenchmarkConfig :=
  {| clients := 2; requests_per_client := 3; payload_size := 2; workers := 1; message_type := kWork;
     work_iterations := 4 |}.

Lemma sample_config_ok : config_ok sample_config /\ config_fits sample_config.
Proof. split; unfold config_ok, config_fits; split_and!; by_decide. Qed.

Lemma benchmark_template_expected_witness :
  config_ok sample_config /\
  exists t, BuildClientRequestTemplate 1 sample_config tt = (Return t, tt) /\
    respond_spec (RequestMessage 4 t) = ExpectedMessage 4 t.
Proof.
  split; [apply sample_config_ok|].
  pose proof (benchmark_template_expected 1 sample_config tt (proj1 sample_config_ok) (proj2 sample_config_ok)
    ltac:(lia)) as H.
  assert (fst (BuildClientRequestTemplate 1 sample_config tt) <> Undefined /\
    match fst (BuildClientRequestTemplate 1 sample_config tt) with Return _ => True | _ => False end) as [_ Hr]
    by (vm_compute; done).
  destruct (BuildClientRequestTemplate 1 sample_config tt) as [[t|e| |] []]; try done.
  exists t. split; [done|]. apply H. done.
Defined.

Lemma percentile_nearest_rank_witness :
  PercentileMicros 0 id (merge_sort Z.le [50; 10; 40; 20]) 50 = Some 20 /\
  exists x, x ∈ [50; 10; 40; 20] /\
    PercentileMicros 0 id (merge_sort Z.le [50; 10; 40; 20]) 50 = Some x.
Proof.
  split; [reflexivity|].
  destruct (percentile_nearest_rank Z.le 0 id [50; 10; 40; 20] 50 ltac:(done) ltac:(lia) ltac:(by_decide))
    as (x & Hx & H & _).
  by exists x.
Defined.

(** Work beyond the limit of the handler is accepted on the command line and
    fails in every client. *)
Lemma accepted_work_fails :
  exists c e, ParseArgs 8 ["pulsecore_epoll_benchmark"; "--message-type"; "work"; "--payload-size"; "68";
      "--work-iterations"; "1000000"]%string tt = (Return c, tt) /\
    BuildClientRequestTemplate 0 c tt = (Throw (LogicError e), tt).
Proof. eexists _, _. split; [vm_compute; reflexivity|vm_compute; reflexivity]. Qed.
