(* ===== verification/BenchmarkClient.v ===== *)
(** * The benchmark program: a client

    [RunClient] of [apps/benchmark/epoll_loopback.cpp], after the start signal: one
    connection, the requests of the client one after the other, each answered
    before the next is sent, and the latencies it records. *)

From S2P Require Import Prelude Os Scripted UniqueFd Codec Handler Connection ServerStart BlockingTcp.
From S2P Require Import EpollServer ServerInvariant ServerTheorems BlockingTheorems CommandLine BenchmarkMain.

(** An object [y] that is local to [m]. *)
Definition with_local {X Y A} (y : Y) (m : M (St (X * Y)) A) : M (St X) A := fun st =>
  let '(r, st') := m (mkSt (self st, y) (hist st)) in
  (r, mkSt (fst (self st')) (hist st')).

Lemma wp_with_local {X Y A} (y : Y) (m : M (St (X * Y)) A) Q E (x : X) h :
  wp m (fun a s => Q a (mkSt (self s).1 (hist s))) (fun o s => E o (mkSt (self s).1 (hist s)))
    (mkSt (x, y) h) ->
  wp (with_local y m) Q E (mkSt x h).
Proof. unfold wp, with_local. simpl. by destruct (m _) as [[] s']. Qed.

Section Program.
Context `{Sys : OS} (inet_pton : string -> option Z).

(** [std::chrono::steady_clock::now()], and the difference of two of its values as
    a number of seconds. *)
Context {Time Seconds : Type} (steady_clock_now : History -> Time).
Context (duration : Time -> Time -> Seconds).

(** The vector of latencies, which the clients share, and the decoder of this one. *)
Abbreviation Client := (M (St (list Seconds * FrameDecoder))).

Definition now : Client Time := gets (fun s => steady_clock_now (hist s)).

Definition on_decoder {A} (m : M (St FrameDecoder) A) : Client A :=
  zoom (fun p => Some p.2) (fun d p => (p.1, d)) m.

(** [latencies_seconds[i] = x]: undefined out of range. *)
Definition store_latency (i : Z) (x : Seconds) : Client unit :=
  p ← get_self;
  if bool_decide (0 <= i < len p.1) then put_self (<[Z.to_nat i := x]> p.1, p.2) else undefined.

(** The loop of [RunClient]; [turns] bounds the requests, [fuel] the loops of one
    request. *)
Fixpoint RunClient_loop (turns fuel : nat) (fd client_index : Z) (config : BenchmarkConfig)
    (request_template : ClientRequestTemplate) (request_index : Z) : Client unit :=
  match turns with
  | O => out_of_fuel
  | S turns =>
    if request_index <? requests_per_client config then
      let id := request_id_of config client_index request_index in
      started ← now;
      SendMessage fuel fd (RequestMessage id request_template) ;;
      read ← on_decoder (ReadMessage fuel fd);
      match read_message_status read, read_message read with
      | kMessage, Some m =>
        if negb (bool_decide (type m = expected_response_type request_template)) ||
           negb (request_id m =? id) ||
           negb (bool_decide (payload m = expected_response_payload request_template))
        then throw (RuntimeError "benchmark client received an unexpected response") else
        finished ← now;
        store_latency id (duration started finished) ;;
        RunClient_loop turns fuel fd client_index config request_template (u64 (request_index + 1))
      | _, _ => throw (RuntimeError "benchmark client did not receive a response")
      end
    else mret tt
  end.

Definition RunClient (turns fuel : nat) (port client_index : Z) (config : BenchmarkConfig) :
    M (St (list Seconds)) unit :=
  socket ← ConnectTcp inet_pton fuel "127.0.0.1" port;
  scoped socket (with_local FrameDecoder_new (
    request_template ← BuildClientRequestTemplate client_index config;
    RunClient_loop turns fuel (UniqueFd_get socket) client_index config request_template 0)).
End Program.

(** ** Exchanges on a connection *)

(** The messages [sent] were sent, but for the bytes [unsent], and [got] were
    received. *)
Definition exchanged (fd : Z) (d : FrameDecoder) (h : History) (sent : list Message)
    (unsent : list Byte) (got : list Message) (d' : FrameDecoder) (h' : History) : Prop :=
  exists es, h' = h ++ es /\ Forall (io_on fd) es /\ sent_of fd es ++ unsent = frames sent /\
    Forall valid_message got /\ pending d ++ received_of fd es = frames got ++ pending d' /\
    decoder_ok d' h'.

Lemma exchanged_refl fd d h : decoder_ok d h -> exchanged fd d h [] [] [] d h.
Proof.
  intros Hd. exists []. rewrite app_nil_r. split_and!; try done. apply app_nil_r.
Qed.

Lemma exchanged_trans fd d h sent got d1 h1 sent' unsent got' d2 h2 :
  exchanged fd d h sent [] got d1 h1 -> exchanged fd d1 h1 sent' unsent got' d2 h2 ->
  exchanged fd d h (sent ++ sent') unsent (got ++ got') d2 h2.
Proof.
  intros (es & -> & Hes & Hs & Hg & Hp & _) (es' & -> & Hes' & Hs' & Hg' & Hp' & Hok).
  exists (es ++ es'). rewrite app_nil_r in Hs.
  split; [by rewrite app_assoc|]. split; [by apply Forall_app_2|].
  rewrite sent_of_app, received_of_app, !frames_app, <- Hs, <- Hs', <- !app_assoc, <- Hp'.
  split; [done|]. split; [by apply Forall_app_2|]. split; [by rewrite !app_assoc, Hp|by rewrite app_assoc].
Qed.

Lemma exchanged_sent {X} fd d h m rest (x : X) s :
  decoder_ok d h -> sent_bytes fd x h (frame m) rest s ->
  self s = x /\ exchanged fd d h [m] rest [] d (hist s).
Proof.
  intros (Hwf & Hle & Hlen) (es & -> & Hes & Hs). split; [done|]. simpl.
  destruct (sends_receive_nothing fd es Hes) as [Hr Ha]. exists es. split; [done|].
  split; [by apply io_of_send|]. split; [by rewrite frames_cons, frames_nil, app_nil_r|].
  split; [done|]. rewrite Hr, app_nil_r. split; [done|].
  split; [done|]. by rewrite all_received_app, Ha, app_nil_r.
Qed.

Lemma exchanged_decoded fd d h k s :
  decoded fd d h k s -> exchanged fd d h [] [] k (self s) (hist s).
Proof.
  intros (es & Hh & Hes & Hok & Hk & Hp). exists es. split; [done|].
  split; [by apply io_of_recv|]. rewrite (recvs_send_nothing fd es Hes). by do 3 (split; [done|]).
Qed.

(** ** One client *)

Section Client.
Context `{Sys : OS} {Laws : OSLaws Sys} {Short : ShortRun Sys} {Setup : SetupLaws Sys}.
Context (inet_pton : string -> option Z) {Time Seconds : Type}.
Context (steady_clock_now : History -> Time) (duration : Time -> Time -> Seconds).
Context (config : BenchmarkConfig) (client_index : Z).
Context (Hfits : config_fits config) (Hindex : 0 <= client_index < clients config).

Abbreviation count := (requests_per_client config).
Abbreviation first_id := (client_index * count).

(** The requests of this client from the one with index [i] on, and the responses
    it expects. *)
Definition requests_from (t : ClientRequestTemplate) (i : Z) : list Message :=
  (fun j => RequestMessage (first_id + j) t) <$> seqZ i (count - i).
Definition responses_from (t : ClientRequestTemplate) (i : Z) : list Message :=
  (fun j => ExpectedMessage (first_id + j) t) <$> seqZ i (count - i).

(** Only the latencies of this client's requests were written. *)
Definition own_slots (before after : list Seconds) : Prop :=
  length after = length before /\
  forall k, ~ first_id <= Z.of_nat k < first_id + count -> after !! k = before !! k.

Lemma own_slots_trans a b c : own_slots a b -> own_slots b c -> own_slots a c.
Proof. intros [H1 H2] [H3 H4]. split; [congruence|]. intros k Hk. by rewrite H4, H2. Qed.

Lemma requests_step t i : i < count ->
  requests_from t i = RequestMessage (first_id + i) t :: requests_from t (i + 1).
Proof.
  intros Hi. unfold requests_from. rewrite seqZ_cons by lia. rewrite fmap_cons. do 3 f_equal; lia.
Qed.
Lemma responses_step t i : i < count ->
  responses_from t i = ExpectedMessage (first_id + i) t :: responses_from t (i + 1).
Proof.
  intros Hi. unfold responses_from. rewrite seqZ_cons by lia. rewrite fmap_cons. do 3 f_equal; lia.
Qed.

Lemma first_id_bound i : 0 <= i < count -> is_u64 (first_id + i) /\ first_id + i < clients config * count.
Proof.
  intros Hi. destruct Hfits as [Hmax _]. unfold u64_max, is_u64 in *. nia.
Qed.

Lemma next_index_bound i : 0 <= i < count -> is_u64 (i + 1).
Proof.
  intros Hi. destruct Hfits as [Hmax _]. assert (count <= clients config * count) by nia.
  unfold u64_max, is_u64 in *. lia.
Qed.

(** How the loop of a client on the socket [fd] may fail, after the calls [h], having
    received [got]. *)
Definition client_verdict (turns fuel : nat) (fd : Z) (h : History) (i : Z) (expected got : list Message)
    (o : option Exception) : Prop :=
  match o with
  | None => ~ (ample fuel /\ count - i < Z.of_nat turns)
  | Some e => send_failure fd h e \/ recv_failure fd h e \/
      e = RuntimeError "benchmark client did not receive a response" \/
      (e = RuntimeError "benchmark client received an unexpected response" /\
       ~ got `prefix_of` expected)
  end.

(** The state of a client after it sent [sent] and received [got]. *)
Definition progress fd (lat : list Seconds) d h sent unsent got (s : St (list Seconds * FrameDecoder)) : Prop :=
  exchanged fd d h sent unsent got (self s).2 (hist s) /\ own_slots lat (self s).1.

Lemma progress_trans fd lat d h sent got lat1 d1 h1 sent' unsent got' s :
  progress fd lat d h sent [] got (mkSt (lat1, d1) h1) -> progress fd lat1 d1 h1 sent' unsent got' s ->
  progress fd lat d h (sent ++ sent') unsent (got ++ got') s.
Proof.
  intros [H1 Hs1] [H2 Hs2]. split; [by eapply exchanged_trans|by eapply own_slots_trans].
Qed.
(** One more exchange before a failure. *)
Lemma failed_later turns fuel fd t i lat d h lat1 d1 h1 o s :
  i < count ->
  progress fd lat d h [RequestMessage (first_id + i) t] [] [ExpectedMessage (first_id + i) t]
    (mkSt (lat1, d1) h1) ->
  (exists sent unsent got, progress fd lat1 d1 h1 sent unsent got s /\
     sent `prefix_of` requests_from t (i + 1) /\
     client_verdict turns fuel fd (hist s) (i + 1) (responses_from t (i + 1)) got o) ->
  exists sent unsent got, progress fd lat d h sent unsent got s /\ sent `prefix_of` requests_from t i /\
    client_verdict (S turns) fuel fd (hist s) i (responses_from t i) got o.
Proof.
  intros Hi H1 (sent & unsent & got & H2 & Hsent & Ho).
  eexists _, unsent, _. split; [by eapply progress_trans|].
  rewrite requests_step, responses_step by done. split; [by apply prefix_cons|].
  destruct o as [e|]; unfold client_verdict in *.
  - destruct Ho as [H|[H|[H|[H Hno]]]]; [by left|right; by left|right; right; by left|].
    right; right; right. split; [done|]. by intros Hp%prefix_cons_inv_2.
  - intros [Ha Hlt]. apply Ho. split; [done|]. lia.
Qed.

Lemma expected_fields m id t :
  negb (bool_decide (type m = expected_response_type t)) || negb (request_id m =? id) ||
  negb (bool_decide (payload m = expected_response_payload t)) = negb (bool_decide (m = ExpectedMessage id t)).
Proof.
  destruct (bool_decide_reflect (m = ExpectedMessage id t)) as [->|Hne]; simpl.
  { by rewrite !(bool_decide_eq_true_2 _ eq_refl), Z.eqb_refl. }
  destruct (bool_decide_reflect (type m = expected_response_type t)) as [H1|]; [|done].
  destruct (Z.eqb_spec (request_id m) id) as [H2|]; [|done].
  destruct (bool_decide_reflect (payload m = expected_response_payload t)) as [H3|]; [|done].
  destruct Hne. destruct m. simpl in *. by subst.
Qed.

Lemma store_spec id (v : Seconds) lat d h (Q : unit -> St (list Seconds * FrameDecoder) -> Prop) E :
  0 <= id < len lat -> Q tt (mkSt (<[Z.to_nat id := v]> lat, d) h) ->
  wp (store_latency id v) Q E (mkSt (lat, d) h).
Proof.
  intros Hid HQ. apply wp_bind, wp_get_self. simpl. rewrite bool_decide_eq_true_2 by done.
  by apply wp_put_self.
Qed.

Lemma stored_own_slots id (v : Seconds) lat :
  0 <= id -> first_id <= id < first_id + count -> own_slots lat (<[Z.to_nat id := v]> lat).
Proof.
  intros H0 Hid. split; [apply length_insert|]. intros k Hk. apply list_lookup_insert_ne. lia.
Qed.

(** A request is sent, and a message awaited. *)
Lemma request_reply_spec {A} fuel fd m lat d h (f : ReadMessageResult -> M (St (list Seconds * FrameDecoder)) A) Q E :
  valid_message m -> decoder_ok d h ->
  (forall r k d' h', exchanged fd d h [m] [] k d' h' -> read_message_meaning fd r k d' h' ->
     wp (f r) Q E (mkSt (lat, d') h')) ->
  (forall o rest d' h', exchanged fd d h [m] rest [] d' h' ->
     match o with Some e => send_failure fd h' e \/ recv_failure fd h' e | None => ~ ample fuel end ->
     E o (mkSt (lat, d') h')) ->
  wp (SendMessage fuel fd m ;; r ← on_decoder (ReadMessage fuel fd); f r) Q E (mkSt (lat, d) h).
Proof.
  intros Hvalid Hd HQ HE. eapply wp_call; [by apply SendMessage_spec| |].
  2: { intros o [x h'] [[rest Hrest] Ho]. destruct (exchanged_sent fd d h _ _ _ _ Hd Hrest) as [Hself Hex].
       simpl in Hself, Hex. subst x. eapply HE; [exact Hex|].
       destruct o; [by left|]. intros Ha. apply Ho, ample_enough; [done|]. rewrite len_frame.
       destruct Hvalid as [_ [_ Hmax]]. lia. }
  intros [] [x h1] Hsent. destruct (exchanged_sent fd d h _ _ _ _ Hd Hsent) as [Hself Hex].
  simpl in Hself, Hex. subst x. pose proof Hex as (_ & _ & _ & _ & _ & _ & Hd1).
  apply wp_bind. eapply wp_zoom; [done|]. simpl.
  eapply wp_mono; [by apply ReadMessage_spec| |].
  - intros r [d2 h2] (k & Hk%exchanged_decoded & Hmean). simpl in *.
    apply HQ with (k := k); [by apply (exchanged_trans _ _ _ _ _ _ _ _ _ _ _ _ Hex Hk)|done].
  - intros o [d2 h2] [Hk%exchanged_decoded Ho]. simpl in *. apply HE with (rest := []).
    + by apply (exchanged_trans _ _ _ _ _ _ _ _ _ _ _ _ Hex Hk).
    + destruct o; [by right|]. intros Ha. apply Ho, ample_enough; [done|].
      unfold missing, kHeaderSize, kMaxPayloadSize. pose proof (len_nonneg (pending d)). lia.
Qed.

Lemma RunClient_loop_spec turns fuel fd t i lat d h :
  template_ok t -> 0 <= i <= count -> first_id + count <= len lat -> decoder_ok d h ->
  wp (RunClient_loop steady_clock_now duration turns fuel fd client_index config t i)
    (fun _ s => progress fd lat d h (requests_from t i) [] (responses_from t i) s)
    (fun o s => exists sent unsent got, progress fd lat d h sent unsent got s /\
       sent `prefix_of` requests_from t i /\
       client_verdict turns fuel fd (hist s) i (responses_from t i) got o)
    (mkSt (lat, d) h).
Proof.
  intros Ht. revert i lat d h. induction turns as [|turns IH]; intros i lat d h Hi Hlat Hd; simpl.
  { apply wp_out_of_fuel. exists [], [], []. split; [split; [by apply exchanged_refl|done]|].
    split; [apply prefix_nil|]. intros [_ H]. lia. }
  destruct (Z.ltb_spec i count) as [Hlt|Hge].
  2: { apply wp_ret. unfold requests_from, responses_from. rewrite seqZ_nil by lia.
       split; [by apply exchanged_refl|done]. }
  destruct (request_id_exact config client_index i Hfits Hindex ltac:(lia)) as [-> _].
  destruct (first_id_bound i ltac:(lia)) as [Hu Hbound].
  destruct (Ht (first_id + i) Hu) as [Hvalid Hrespond].
  apply wp_bind. unfold now. apply wp_gets, request_reply_spec; [done|done| |].
  2: { intros o rest d' h' Hex Ho. eexists _, rest, []. split; [by split|].
       rewrite requests_step by done. split; [apply prefix_cons, prefix_nil|].
       destruct o; [destruct Ho; [by left|right; by left]|]. by intros [Ha _]. }
  intros r k d2 h2 Hboth Hmean. pose proof Hboth as (_ & _ & _ & _ & _ & _ & Hd2).
  assert (forall e, client_verdict (S turns) fuel fd h2 i (responses_from t i) k (Some e) ->
    exists sent unsent got, progress fd lat d h sent unsent got (mkSt (lat, d2) h2) /\
      sent `prefix_of` requests_from t i /\
      client_verdict (S turns) fuel fd h2 i (responses_from t i) got (Some e)) as Hfail.
  { intros e He. eexists _, [], k. split; [split; [exact Hboth|done]|].
    rewrite requests_step by done. split; [apply prefix_cons, prefix_nil|done]. }
  unfold read_message_meaning in Hmean. destruct (read_message_status r); [|apply wp_throw, Hfail; right; right; by left..].
  destruct Hmean as (m & -> & ->). rewrite expected_fields.
  destruct (bool_decide_reflect (m = ExpectedMessage (first_id + i) t)) as [->|Hne]; simpl.
  2: { apply wp_throw, Hfail. do 3 right. split; [done|]. rewrite responses_step by done.
       by intros ->%prefix_cons_inv_1. }
  apply wp_bind, wp_gets, wp_bind, store_spec; [unfold is_u64 in Hu; lia|].
  rewrite u64_id by (apply next_index_bound; lia).
  match goal with |- wp _ _ _ (mkSt (?l, _) _) => set (lat2 := l) end.
  assert (progress fd lat d h [RequestMessage (first_id + i) t] [] [ExpectedMessage (first_id + i) t]
    (mkSt (lat2, d2) h2)) as Hnext by (split; [exact Hboth|apply stored_own_slots; unfold is_u64 in *; lia]).
  eapply wp_mono; [apply IH; [lia|unfold lat2, len; by rewrite length_insert|done]| |].
  - intros [] s Hp. rewrite requests_step, responses_step by done.
    by eapply (progress_trans fd lat d h [_] [_]).
  - intros o s Hp. by eapply failed_later.
Qed.

(** The socket [fd] was created and connected, the exchange took place, and the
    socket was closed unless the run stopped inside. *)
Definition connected (port fd : Z) (h : History) sent unsent got (o : option (option Exception)) (h' : History) : Prop :=
  exists connects d' h1, Forall (connecting inet_pton "127.0.0.1" port fd) connects /\
    exchanged fd FrameDecoder_new (h ++ [EvSetup CallSocket (IoOk fd)] ++ connects) sent unsent got d' h1 /\
    h' = h1 ++ match o with Some None => [] | _ => [EvClose fd] end.

Definition built (t : ClientRequestTemplate) : Prop :=
  template_ok t /\ exists s : St (list Seconds * FrameDecoder),
    BuildClientRequestTemplate client_index config s = (Return t, s).

(** Any request: that of a client whose connection was not made. *)
Definition no_request : Message := {| type := kEchoRequest; request_id := 0; payload := [] |}.

Definition run_returns port lat h (s : St (list Seconds)) : Prop :=
  exists fd t, built t /\
    connected port fd h (requests_from t 0) [] (responses_from t 0) None (hist s) /\ own_slots lat (self s).
Definition run_fails turns fuel port lat h (o : option Exception) (s : St (list Seconds)) : Prop :=
  client_post inet_pton fuel "127.0.0.1" port no_request lat h (inl o) s \/
  (exists fd text, o = Some (LogicError text) /\ connected port fd h [] [] [] (Some o) (hist s) /\ self s = lat /\
     message_type config = kWork /\ kMaxWorkUnits < work_iterations config * BenchmarkMain.payload_size config) \/
  exists fd t sent unsent got, built t /\ sent `prefix_of` requests_from t 0 /\
    (exists h1, hist s = h1 ++ match o with None => [] | Some _ => [EvClose fd] end /\
       client_verdict turns fuel fd h1 0 (responses_from t 0) got o) /\
    connected port fd h sent unsent got (Some o) (hist s) /\ own_slots lat (self s).

Lemma RunClient_spec turns fuel port lat h :
  config_ok config -> clients config * count <= len lat -> len (all_received h) < 2 ^ 64 ->
  wp (RunClient inet_pton steady_clock_now duration turns fuel port client_index config)
    (fun _ => run_returns port lat h) (run_fails turns fuel port lat h) (mkSt lat h).
Proof.
  intros Hc Hlat Hlen. assert (0 < count) as Hcount by apply Hc.
  eapply wp_call; [apply (ConnectTcp_spec _ _ _ _ no_request)| |].
  { split; [by split_and!|]. by split; [|by_decide]. }
  2: { intros o s H. by left. }
  intros ? s (fd & connects & -> & Hfd & Hcs & ->). apply wp_scoped; [done|]. apply wp_with_local.
  set (h0 := h ++ _ ++ connects).
  assert (decoder_ok FrameDecoder_new h0) as Hd.
  { pose proof (exchange_decoder_ok _ _ _ fd connects [] h Hlen Hcs ltac:(constructor)) as H. by rewrite app_nil_r in H. }
  eapply wp_call; [apply wp_remember, template_spec; [done|done|lia]| |].
  2: { intros o s (-> & (text & ->) & Hwork). right. left. exists fd, text. split; [done|].
       split; [|done]. exists connects, FrameDecoder_new, h0. split; [done|]. split; [by apply exchanged_refl|done]. }
  intros t s (Hbuild & -> & Ht). assert (built t) as Hbuilt by (split; [done|by eexists]).
  eapply wp_mono; [apply RunClient_loop_spec; [done|lia|nia|done]| |].
  - intros _ s [Hex Hown]. exists fd, t. split; [done|]. split; [|done].
    by exists connects, (self s).2, (hist s).
  - intros o s (sent & unsent & got & [Hex Hown] & Hsent & Ho).
    assert (run_fails turns fuel port lat h o (mkSt (self s).1
      (hist s ++ match o with None => [] | _ => [EvClose fd] end))) as Hfail.
    { right. right. exists fd, t, sent, unsent, got. do 2 (split; [done|]).
      split; [by exists (hist s)|]. split; [|done].
      exists connects, (self s).2, (hist s). split; [done|]. split; [done|]. by destruct o. }
    destruct o; [done|]. by rewrite app_nil_r in Hfail.
Qed.
End Client.

(** ** Clients and the epoll server *)

(** The socket of a connection is the one its history created. *)
Lemma connected_fd inet_pton port fd sent unsent got o h' fc :
  connected inet_pton port fd [] sent unsent got o h' -> created_fds h' = [fc] -> fd = fc.
Proof.
  intros (cs & d & h1 & _ & (es & -> & _) & ->) Hfc.
  change (fd :: created_fds ((cs ++ es) ++ match o with Some None => [] | _ => [EvClose fd] end) = [fc]) in Hfc.
  by injection Hfc.
Qed.

(** What a connection's history says of its socket. *)
Lemma connected_streams inet_pton port fd sent unsent got o h' fc :
  connected inet_pton port fd [] sent unsent got o h' -> created_fds h' = [fc] ->
  Forall valid_message got /\ sent_of fc h' ++ unsent = frames sent /\
  exists more, received_of fc h' = frames got ++ more.
Proof.
  intros Hcon Hfc. rewrite (connected_fd _ _ _ _ _ _ _ _ _ Hcon Hfc) in Hcon.
  destruct Hcon as (connects & d & h1 & Hcs & (es & -> & Hes & Hs & Hg & Hp & _) & ->).
  set (last := match o with Some None => [] | _ => [EvClose fc] end) in *.
  destruct (connecting_silent _ _ _ fc connects Hcs) as (Hc1 & Hc2 & _).
  assert (sent_of fc last = [] /\ received_of fc last = []) as [Hl1 Hl2] by (by destruct o as [[]|]).
  assert (sent_of fc [EvSetup CallSocket (IoOk fc)] = [] /\ received_of fc [EvSetup CallSocket (IoOk fc)] = [])
    as [H1 H2] by done.
  change ([] ++ [EvSetup CallSocket (IoOk fc)] ++ connects) with ([EvSetup CallSocket (IoOk fc)] ++ connects).
  rewrite !sent_of_app, !received_of_app, H1, H2, Hc1, Hc2, Hl1, Hl2, !app_nil_r. simpl.
  split; [done|]. split; [done|]. by exists (pending d).
Qed.

(** A server's stream of responses to a prefix of the requests sent. *)
Lemma responses_determined sent got answered rest unsent unsent' more tail :
  Forall valid_message sent -> Forall valid_message got -> Forall valid_message answered ->
  (frames answered ++ rest) ++ tail ++ unsent = frames sent ->
  frames got ++ more ++ unsent' = frames (respond_spec <$> answered) ->
  got `prefix_of` (respond_spec <$> sent) /\
  (length got = length sent -> more = []).
Proof.
  intros Hsent Hgot Hans Hup Hdown.
  destruct (frames_split answered sent (rest ++ tail ++ unsent) Hans Hsent) as (k & -> & _).
  { by rewrite <- Hup, <- !app_assoc. }
  assert (Forall valid_message (respond_spec <$> answered)) as Hresp.
  { apply Forall_fmap. eapply List.Forall_impl; [|exact Hans]. intros m Hm. by apply respond_spec_valid. }
  destruct (frames_split got (respond_spec <$> answered) (more ++ unsent') Hgot Hresp (eq_sym Hdown))
    as (k' & Hk' & Hmore).
  split.
  - rewrite fmap_app, Hk', <- app_assoc. by exists (k' ++ (respond_spec <$> k)).
  - intros Hlen. apply (f_equal length) in Hk' as Hl. rewrite length_fmap, length_app in Hl.
    rewrite length_app in Hlen. destruct k'; [|simpl in Hl; lia].
    rewrite frames_nil in Hmore. by apply app_nil in Hmore as [-> _].
Qed.

Section Requests.
Context (config : BenchmarkConfig) (client_index : Z).
Context (Hfits : config_fits config) (Hindex : 0 <= client_index < clients config).

Lemma requests_answered {Seconds} t :
  built (Seconds := Seconds) config client_index t ->
  Forall valid_message (requests_from config client_index t 0) /\
  respond_spec <$> requests_from config client_index t 0 = responses_from config client_index t 0.
Proof.
  intros [Ht _]. unfold requests_from, responses_from.
  assert (forall j, j ∈ seqZ 0 (requests_per_client config - 0) ->
    is_u64 (client_index * requests_per_client config + j)) as Hids.
  { intros j Hj%elem_of_seqZ. apply first_id_bound; [done|done|lia]. }
  split.
  - apply Forall_fmap, list.Forall_forall. intros j Hj. by apply Ht, Hids.
  - rewrite <- list_fmap_compose. apply list_fmap_ext. intros k j Hj. simpl.
    apply Ht, Hids. by eapply list_elem_of_lookup_2.
Qed.
(** What the client has received is what it expects, and nothing else is on its
    way once it has received as many messages as it sent. *)
Definition determined {Seconds} (config : BenchmarkConfig) (client_index fc : Z) (h : History) : Prop :=
  forall inet_pton port sent unsent got o t, connected inet_pton port fc [] sent unsent got o h ->
    built (Seconds := Seconds) config client_index t ->
    sent `prefix_of` requests_from config client_index t 0 ->
    got `prefix_of` responses_from config client_index t 0 /\
    (length got = length sent -> sent_of fc h ++ unsent = frames sent /\ received_of fc h = frames got).

Lemma client_determined {Seconds} fc h answered rest tail unsent' :
  created_fds h = [fc] -> Forall valid_message answered ->
  sent_of fc h = (frames answered ++ rest) ++ tail ->
  frames (respond_spec <$> answered) = received_of fc h ++ unsent' ->
  determined (Seconds := Seconds) config client_index fc h.
Proof.
  intros Hfc Hans Hup Hdown inet_pton port sent unsent got o t Hcon Hb Hsent.
  destruct (requests_answered t Hb) as [Hv Hresp].
  destruct (connected_streams _ _ _ _ _ _ _ _ _ Hcon Hfc) as (Hgot & Hsf & more & Hrf).
  destruct (responses_determined sent got answered rest unsent unsent' more tail) as [Hpre Hmore].
  - destruct Hsent as [k Hk]. rewrite Hk in Hv. by apply Forall_app in Hv as [? _].
  - done.
  - done.
  - by rewrite app_assoc, <- Hup.
  - by rewrite Hdown, Hrf, <- !app_assoc.
  - split.
    + rewrite <- Hresp. etransitivity; [exact Hpre|]. destruct Hsent as [k ->].
      rewrite fmap_app. by eexists.
    + intros Hl. split; [done|]. by rewrite Hrf, (Hmore Hl), app_nil_r.
Qed.

(** How a client fails that receives what it expects. *)
Lemma run_fails_verdict `{Sys : OS} inet_pton {Seconds} turns fuel port (lat : list Seconds) o fc s :
  created_fds (hist s) = [fc] -> determined (Seconds := Seconds) config client_index fc (hist s) ->
  run_fails inet_pton config client_index turns fuel port lat [] o s ->
  match o with
  | Some e => e <> RuntimeError "benchmark client received an unexpected response"
  | None => ~ (ample fuel /\ requests_per_client config < Z.of_nat turns)
  end.
Proof.
  intros Hfc Hdet [[(errno & [= ->] & _)|(fd & es & unsent & _ & _ & Hend)]|
    [(fd & text & -> & _)|(fd & t & sent & unsent & got & Hb & Hsent & (h1 & _ & Ho) & Hcon & _)]]; try done.
  - destruct o as [e|]; [|by intros [? _]; destruct Hend]. destruct Hend as [Hbad _].
    by destruct Hbad as [[-> _]|[(? & ? & _ & _ & ->)|[[(? & _ & ->)|(? & ? & _ & _ & ->)]|
      [(? & ? & _ & _ & ->)|[[-> _]|[-> _]]]]]].
  - destruct o as [e|].
    + destruct Ho as [[(? & _ & ->)|(? & ? & _ & _ & ->)]|[(? & ? & _ & _ & ->)|[->|[_ Hno]]]]; try done.
      rewrite (connected_fd _ _ _ _ _ _ _ _ _ Hcon Hfc) in Hcon. by destruct (Hdet _ _ _ _ _ _ _ Hcon Hb Hsent).
    + unfold client_verdict in Ho. by rewrite Z.sub_0_r in Ho.
Qed.
End Requests.

(** ** Properties *)

(** C12.  A client of the benchmark and the epoll server, end to end.  Over a connection
    that carries bytes in order, the client never reports an unexpected response,
    whatever the interleaving, the short reads and writes and the moment at which
    either side fails.  If it returns, it sent exactly its requests, received
    exactly their responses, in order, closed its socket, and wrote the latencies
    of its own requests only, so that no two clients write to the same place.  It
    has no undefined behaviour (every write to the vector is in range), and with
    fuel for the calls that may be interrupted it always ends. *)
Theorem benchmark_client_end_to_end
    `{SysC : OS} `{!OSLaws SysC} `{!ShortRun SysC} `{!SetupLaws SysC}
    `{SysS : OS} `{!OSLaws SysS} `{!ShortRun SysS} `{!EpollLaws SysS}
    `{Env : Environment} `{!EnvironmentLaws Env}
    inet_pton {Time Seconds : Type} (clock : History -> Time) (duration : Time -> Time -> Seconds)
    turns fuelc port client_index config latencies rc stc fc fuel cfg sturns st r st' id :
  config_ok config -> config_fits config -> 0 <= client_index < clients config ->
  clients config * requests_per_client config <= len latencies ->
  RunClient (Sys := SysC) inet_pton clock duration turns fuelc port client_index config
    (mkSt latencies []) = (rc, stc) ->
  config_wf cfg -> limits_wf (cfg_limits cfg) -> fresh_server cfg st ->
  Run (Sys := SysS) default_handler fuel sturns st = (r, st') ->
  created_fds (hist stc) = [fc] ->
  received_of id (hist st') `prefix_of` sent_of fc (hist stc) ->
  received_of fc (hist stc) `prefix_of` sent_of id (hist st') ->
  match rc with
  | Return _ => exists t, built (Seconds := Seconds) config client_index t /\
      sent_of fc (hist stc) = frames (requests_from config client_index t 0) /\
      received_of fc (hist stc) = frames (responses_from config client_index t 0) /\
      own_slots config client_index latencies (self stc)
  | Throw e => e <> RuntimeError "benchmark client received an unexpected response"
  | OutOfFuel => ~ (ample (Sys := SysC) fuelc /\ requests_per_client config < Z.of_nat turns)
  | Undefined => False
  end.
Proof.
  intros Hc Hfits Hindex Hlat Hrunc Hcfg Hlim Hfresh Hruns Hfc [tail Hup] [unsent' Hdown].
  pose proof (wp_run _ _ _ _ _ _ (RunClient_spec inet_pton clock duration config client_index Hfits Hindex
    turns fuelc port latencies [] Hc Hlat ltac:(done)) Hrunc) as Hpost.
  destruct (Run_streams default_handler fuel cfg sturns st r st' id Hcfg Hlim Hfresh Hruns)
    as (answered & rest & un & Hr & Hans & _ & Hs). rewrite answers_default in Hs by done.
  assert (determined (Seconds := Seconds) config client_index fc (hist stc)) as Hdet.
  { intros pton to sent unsent got o t Hcon Hb Hsent.
    eapply (client_determined _ _ Hfits Hindex fc (hist stc) answered rest tail (unsent' ++ un));
      [exact Hfc|exact Hans| | |exact Hcon|exact Hb|exact Hsent].
    - by rewrite <- Hr.
    - by rewrite Hs, Hdown, <- app_assoc. }
  destruct rc; [| |done|]; [|exact (run_fails_verdict _ _ _ _ _ _ _ _ _ _ Hfc Hdet Hpost)..].
  destruct Hpost as (fd & t & Hb & Hcon & Hown). rewrite (connected_fd _ _ _ _ _ _ _ _ _ Hcon Hfc) in Hcon. exists t.
  destruct (Hdet _ _ _ _ _ _ _ Hcon Hb ltac:(done)) as [_ Hall].
  destruct Hall as [Hsent Hgot]; [unfold requests_from, responses_from; by rewrite !length_fmap|].
  rewrite app_nil_r in Hsent. done.
Qed.

(** ** Witnesses

    The second of two clients makes its two work requests; responses arrive in
    parts, and calls are interrupted. *)

Definition bench_config : BenchmarkConfig :=
  {| clients := 2; requests_per_client := 2; BenchmarkMain.payload_size := 1; workers := 1;
     message_type := kWork; work_iterations := 2 |}.

Definition bench_request (id : Z) : Message :=
  {| type := kWorkRequest; request_id := id; payload := EncodeWorkRequestPayload 2 [1] |}.

Definition bench_client_world : Script :=
  {| script_interrupts := 1;
     script_recv := [IoOk (ztake 9 (frame (respond_spec (bench_request 2))));
                     IoOk (zdrop 9 (frame (respond_spec (bench_request 2))));
                     IoOk (frame (respond_spec (bench_request 3)))];
     script_send := [IoOk 6; IoErr EINTR; IoOk 19]; script_accept := []; script_wait := []; script_setup := [] |}.

Definition bench_server_world : Script :=
  {| script_interrupts := 1;
     script_recv := [IoErr EINTR; IoOk (frame (bench_request 2)); IoOk (frame (bench_request 3))];
     script_send := []; script_accept := [IoOk 9];
     script_wait := [IoOk [ListenerEvent]; IoOk [{| events := EPOLLIN; key := 1 |}];
                     IoOk [WorkerWakeupEvent]; IoOk [{| events := EPOLLOUT; key := 1 |}];
                     IoOk [WorkerWakeupEvent]; IoOk [{| events := EPOLLOUT; key := 1 |}];
                     IoOk [WorkerWakeupEvent]];
     script_setup := [] |}.

Abbreviation bench_run := (RunClient (Sys := scripted bench_client_world) sample_inet_pton len
  (fun a b => b - a) 5 10 9000 1 bench_config (mkSt [0; 0; 0; 0] [])).
Abbreviation bench_server_run := (Run (Sys := scripted bench_server_world) (Env := sample_environment)
  default_handler 10 12 sample_start).
#[local] Existing Instance sample_environment_laws.

Lemma bench_config_ok : config_ok bench_config /\ config_fits bench_config.
Proof. split; unfold config_ok, config_fits; split_and!; by_decide. Qed.

Lemma benchmark_client_end_to_end_witness :
  fst bench_run = Return tt /\ self (snd bench_run) = [0; 0; 5; 2] /\
  received_of 3 (hist (snd bench_run)) =
    frame (respond_spec (bench_request 2)) ++ frame (respond_spec (bench_request 3)) /\
  exists t, built (Seconds := Z) bench_config 1 t /\
    sent_of 3 (hist (snd bench_run)) = frames (requests_from bench_config 1 t 0).
Proof.
  assert (fst bench_run = Return tt) as Hr by by_compute.
  assert (bench_run = (Return tt, snd bench_run)) as Hrun by (rewrite <- Hr; apply surjective_pairing).
  split; [exact Hr|]. split; [by_compute|]. split; [by_decide|].
  destruct (benchmark_client_end_to_end (SysC := scripted bench_client_world)
    (SysS := scripted bench_server_world) (Env := sample_environment) sample_inet_pton len (fun a b => b - a)
    5 10 9000 1 bench_config [0; 0; 0; 0] (Return tt) (snd bench_run) 3 10 sample_cfg 12 sample_start
    (fst bench_server_run) (snd bench_server_run) 1
    (proj1 bench_config_ok) (proj2 bench_config_ok) ltac:(by_decide) ltac:(by_decide) Hrun
    sample_cfg_wf sample_limits_wf sample_fresh (surjective_pairing bench_server_run)
    ltac:(by_compute) ltac:(by_decide) ltac:(by_decide)) as (t & Hb & Hsent & _).
  exists t. split; [exact Hb|exact Hsent].
Defined.
