(* ===== verification/BenchmarkThreads.v ===== *)
(** * The benchmark program: its threads

    [main], [ServerThread], [RecordFirstException] and the start of [RunClient] in
    [apps/benchmark/epoll_loopback.cpp]: the client threads are created, wait until
    all of them are ready, run, and are joined; then the server is stopped.

    A step is one access to the variables the threads share, or what a thread does
    between them: a client is served while the server's thread runs ([StepServe]),
    its [RunClient] then returns ([StepRun]), or it throws ([StepFail]); the server's
    [Run] ends ([StepServer], with the exception it threw).  [BenchmarkClient] has
    the details of the client's, and [ServerTheorems] of the server's.  A client
    that has not been served waits in [recv]: a server whose [Run] threw serves no
    one, and its connections stay open until [main] destroys it.

    The members of [ServerThread] are constructed in the order of their declaration:
    [thread_], which starts the server's thread, before [error_], which that thread
    assigns.  Between the two ([Starting]) an exception of [Run] is assigned to an
    object that does not exist yet: the behaviour is undefined ([Corrupt]).

    The creation of a thread may fail ([StepSpawnFail]).  Then the exception leaves
    the scope of the threads that exist: the server's is stopped and joined by
    [~ServerThread], but the clients' are destroyed while they are joinable, which
    ends the process ([std::terminate]). *)

From S2P Require Import Prelude.

Inductive ClientPhase : Type :=
| Arriving                                  (** before [ready_clients.fetch_add] *)
| Waiting                                   (** in the loop on [start] *)
| Running                                   (** after it: connecting, sending, waiting for responses *)
| Answered                                  (** all responses have come *)
| Catching (e : Exception)                  (** in the [catch] clause *)
| Ended (o : option Exception).             (** with the exception it recorded *)

Inductive MainPhase : Type :=
| Constructing                              (** before the constructor of [server_thread] *)
| Starting                                  (** in it: [thread_] is constructed, [error_] is not *)
| Spawning                                  (** the loop of [clients.emplace_back] *)
| Polling                                   (** the loop on [ready_clients] *)
| Joining (client_index : nat)              (** the loop of [client.join()] *)
| Stopping                                  (** in [StopAndJoin], after [Stop] *)
| Unwinding (e : Exception)                 (** in [~ServerThread], after [Stop] *)
| Done (o : option Exception)               (** with the exception that leaves the scope of the threads *)
| Terminated                                (** [std::terminate] was called *)
| Corrupt.                                  (** undefined: [error_] was assigned before its construction *)

#[export] Instance MainPhase_eq_dec : EqDecision MainPhase.
Proof. solve_decision. Defined.

Record Threads : Type := {
  main_phase : MainPhase;
  client_phases : list ClientPhase;
  ready_clients : nat;
  start : bool;
  first_error : option Exception;
  server_stopped : bool;                    (** [server_.Stop()] was called *)
  server_end : option (option Exception);   (** the end of the server's thread, and [error_] *)
}.

Inductive Step : Type :=
| StepMain
| StepSpawnFail (e : Exception)
| StepClient (client_index : nat)
| StepServe (client_index : nat)
| StepRun (client_index : nat)
| StepFail (client_index : nat) (e : Exception)
| StepServer (outcome : option Exception).

Definition set_main (p : MainPhase) (t : Threads) : Threads :=
  {| main_phase := p; client_phases := client_phases t; ready_clients := ready_clients t; start := start t;
     first_error := first_error t; server_stopped := server_stopped t; server_end := server_end t |}.
Definition set_client (i : nat) (p : ClientPhase) (t : Threads) : Threads :=
  {| main_phase := main_phase t; client_phases := <[i := p]> (client_phases t);
     ready_clients := ready_clients t; start := start t; first_error := first_error t;
     server_stopped := server_stopped t; server_end := server_end t |}.

(** [RecordFirstException]. *)
Definition RecordFirstException (e : Exception) (first_error : option Exception) : option Exception :=
  match first_error with None => Some e | Some e' => Some e' end.

Section Program.
Context (clients : nat).

Definition threads_start : Threads :=
  {| main_phase := Constructing; client_phases := []; ready_clients := 0; start := false; first_error := None;
     server_stopped := false; server_end := None |}.

(** One step of [main]; [None] where it waits. *)
Definition main_step (t : Threads) : option Threads :=
  match main_phase t with
  | Constructing => Some (set_main Starting t)
  | Starting => Some (set_main Spawning t)
  | Spawning =>
    if bool_decide (length (client_phases t) < clients)%nat
    then Some {| main_phase := Spawning; client_phases := client_phases t ++ [Arriving];
                 ready_clients := ready_clients t; start := start t; first_error := first_error t;
                 server_stopped := server_stopped t; server_end := server_end t |}
    else Some (set_main Polling t)
  | Polling =>
    if bool_decide (ready_clients t < clients)%nat then None
    else Some {| main_phase := Joining 0; client_phases := client_phases t;
                 ready_clients := ready_clients t; start := true; first_error := first_error t;
                 server_stopped := server_stopped t; server_end := server_end t |}
  | Joining i =>
    match client_phases t !! i with
    | Some (Ended _) => Some (set_main (Joining (S i)) t)
    | Some _ => None
    | None => Some {| main_phase := Stopping; client_phases := client_phases t;
                      ready_clients := ready_clients t; start := start t; first_error := first_error t;
                      server_stopped := true; server_end := server_end t |}
    end
  | Stopping =>
    match server_end t with
    | None => None
    | Some (Some e) => Some (set_main (Done (Some e)) t)
    | Some None => Some (set_main (Done (first_error t)) t)
    end
  | Unwinding e =>
    match server_end t with
    | None => None
    | Some _ => Some (set_main (Done (Some e)) t)
    end
  | Done _ | Terminated | Corrupt => None
  end.

(** The constructor of a thread throws [e] in [main]. *)
Definition spawn_fail_step (e : Exception) (t : Threads) : option Threads :=
  match main_phase t with
  | Constructing => Some (set_main (Done (Some e)) t)
  | Spawning =>
    if bool_decide (length (client_phases t) < clients)%nat then
      match client_phases t with
      | [] => Some {| main_phase := Unwinding e; client_phases := client_phases t;
                      ready_clients := ready_clients t; start := start t; first_error := first_error t;
                      server_stopped := true; server_end := server_end t |}
      | _ => Some (set_main Terminated t)
      end
    else None
  | _ => None
  end.

(** The thread of the server exists. *)
Definition server_thread (t : Threads) : bool :=
  match main_phase t with Constructing | Done _ | Terminated | Corrupt => false | _ => true end.

(** Where [main] is after the server's thread has ended with [outcome]: an exception
    is assigned to [error_]. *)
Definition after_server (outcome : option Exception) (p : MainPhase) : MainPhase :=
  match outcome, p with Some _, Starting => Corrupt | _, p => p end.

(** One step of a client's thread. *)
Definition client_step (i : nat) (t : Threads) : option Threads :=
  match client_phases t !! i with
  | Some Arriving =>
    Some {| main_phase := main_phase t; client_phases := <[i := Waiting]> (client_phases t);
            ready_clients := S (ready_clients t); start := start t; first_error := first_error t;
            server_stopped := server_stopped t; server_end := server_end t |}
  | Some Waiting => if start t then Some (set_client i Running t) else None
  | Some (Catching e) =>
    Some {| main_phase := main_phase t; client_phases := <[i := Ended (Some e)]> (client_phases t);
            ready_clients := ready_clients t; start := start t;
            first_error := RecordFirstException e (first_error t);
            server_stopped := server_stopped t; server_end := server_end t |}
  | _ => None
  end.

(** Nothing happens after the end of the process, and nothing is said of what
    happens once its behaviour is undefined. *)
Definition gone (t : Threads) : Prop := main_phase t = Terminated \/ main_phase t = Corrupt.
#[export] Instance gone_dec t : Decision (gone t).
Proof. unfold gone. apply _. Defined.

Definition threads_step (l : Step) (t : Threads) : option Threads :=
  if bool_decide (gone t) then None else
  match l with
  | StepMain => main_step t
  | StepSpawnFail e => spawn_fail_step e t
  | StepClient i => client_step i t
  | StepServe i =>
    match client_phases t !! i, server_end t with
    | Some Running, None => Some (set_client i Answered t)
    | _, _ => None
    end
  | StepRun i =>
    match client_phases t !! i with
    | Some Answered => Some (set_client i (Ended None) t)
    | _ => None
    end
  | StepFail i e =>
    match client_phases t !! i with
    | Some Running => Some (set_client i (Catching e) t)
    | _ => None
    end
  | StepServer o =>
    if server_thread t && bool_decide (server_end t = None) && (server_stopped t || bool_decide (o <> None))
    then Some {| main_phase := after_server o (main_phase t); client_phases := client_phases t;
                 ready_clients := ready_clients t; start := start t; first_error := first_error t;
                 server_stopped := server_stopped t; server_end := Some o |}
    else None
  end.

Definition threads_reachable (t : Threads) : Prop :=
  rtc (fun t t' => exists l, threads_step l t = Some t') threads_start t.

Fixpoint threads_exec (ls : list Step) (t : Threads) : option Threads :=
  match ls with
  | [] => Some t
  | l :: ls => t' ← threads_step l t; threads_exec ls t'
  end.

(** ** The invariant *)

Definition arrived (p : ClientPhase) : bool := match p with Arriving => false | _ => true end.
Definition past_start (p : ClientPhase) : Prop :=
  match p with Arriving | Waiting => False | _ => True end.
Definition failed_with (e : Exception) (p : ClientPhase) : Prop := p = Ended (Some e).

Definition count_arrived (ps : list ClientPhase) : nat := length (filter (fun p => arrived p = true) ps).

Definition main_inv (t : Threads) : Prop :=
  match main_phase t with
  | Constructing | Starting =>
      client_phases t = [] /\ start t = false /\ server_stopped t = false /\ server_end t = None
  | Spawning => (length (client_phases t) <= clients)%nat /\ start t = false /\ server_stopped t = false
  | Polling => length (client_phases t) = clients /\ start t = false /\ server_stopped t = false
  | Joining k => start t = true /\ server_stopped t = false /\ (k <= clients)%nat /\
      forall i p, (i < k)%nat -> client_phases t !! i = Some p -> exists o, p = Ended o
  | Stopping => start t = true /\ server_stopped t = true /\
      forall p, p ∈ client_phases t -> exists o, p = Ended o
  | Unwinding e => client_phases t = [] /\ start t = false /\ server_stopped t = true
  | Done r =>
      (client_phases t = [] /\ start t = false /\ exists e, r = Some e) \/
      (start t = true /\ (forall p, p ∈ client_phases t -> exists o, p = Ended o) /\
       exists o, server_end t = Some o /\ r = match o with Some e => Some e | None => first_error t end)
  | Terminated => (0 < length (client_phases t) < clients)%nat
  | Corrupt => client_phases t = [] /\ start t = false /\ exists e, server_end t = Some (Some e)
  end.

Record threads_inv (t : Threads) : Prop := {
  inv_ready : ready_clients t = count_arrived (client_phases t);
  inv_start : start t = true ->
    length (client_phases t) = clients /\ Forall (fun p => arrived p = true) (client_phases t);
  inv_waiting : start t = false -> Forall (fun p => ~ past_start p) (client_phases t);
  inv_error : match first_error t with
              | Some e => Ended (Some e) ∈ client_phases t
              | None => forall e, Ended (Some e) ∉ client_phases t
              end;
  inv_server : server_end t = Some None -> server_stopped t = true;
  inv_main : main_inv t;
}.

(** ** Proofs *)

Definition ended (p : ClientPhase) : bool := match p with Ended _ => true | _ => false end.

Lemma ended_update (ps : list ClientPhase) i p p' o :
  ps !! i = Some p -> ended p = false ->
  Ended o ∈ <[i := p']> ps <-> Ended o ∈ ps \/ p' = Ended o.
Proof.
  intros Hi Hp. rewrite !list_elem_of_lookup. split.
  - intros [j Hj]. destruct (decide (j = i)) as [->|Hne].
    + rewrite list_lookup_insert_eq in Hj by (by eapply lookup_lt_Some). right. congruence.
    + rewrite list_lookup_insert_ne in Hj by done. left. by exists j.
  - intros [[j Hj]| ->].
    + assert (i <> j) by (intros ->; rewrite Hi in Hj; injection Hj as ->; done).
      exists j. by rewrite list_lookup_insert_ne.
    + exists i. apply list_lookup_insert_eq. by eapply lookup_lt_Some.
Qed.

Lemma count_arrived_update (ps : list ClientPhase) i p p' :
  ps !! i = Some p ->
  (count_arrived (<[i := p']> ps) + (if arrived p then 1 else 0) =
   count_arrived ps + (if arrived p' then 1 else 0))%nat.
Proof.
  unfold count_arrived. revert i. induction ps as [|q ps IH]; intros [|i] Hi; try done; simpl in *.
  - injection Hi as ->. rewrite !filter_cons. destruct (arrived p), (arrived p'); simpl; lia.
  - specialize (IH i Hi). rewrite !filter_cons. destruct (arrived q); simpl; lia.
Qed.

Lemma count_arrived_all ps :
  count_arrived ps = length ps -> Forall (fun p => arrived p = true) ps.
Proof.
  unfold count_arrived. induction ps as [|p ps IH]; [done|]. rewrite filter_cons.
  destruct (arrived p) eqn:Hp; simpl; intros H.
  - constructor; [done|]. apply IH. lia.
  - pose proof (length_filter (fun p => arrived p = true) ps). lia.
Qed.

Lemma arriving_client ps :
  (count_arrived ps < length ps)%nat -> exists i : nat, ps !! i = Some Arriving.
Proof.
  unfold count_arrived. induction ps as [|p ps IH]; [simpl; lia|]. rewrite filter_cons.
  destruct (arrived p) eqn:Hp; simpl; intros H.
  - destruct IH as [i Hi]; [lia|]. by exists (S i).
  - exists O. by destruct p.
Qed.

(** A thread that has not ended moves on. *)
Lemma main_inv_update t t' i p p' :
  main_inv t -> client_phases t !! i = Some p -> ended p = false ->
  main_phase t' = main_phase t -> client_phases t' = <[i := p']> (client_phases t) ->
  start t' = start t -> server_stopped t' = server_stopped t -> main_inv t'.
Proof.
  intros Hm Hi Hp E1 E2 E3 E4. unfold main_inv in *. rewrite E1, E2, E3, E4.
  pose proof (list_elem_of_lookup_2 _ _ _ Hi) as Hin.
  destruct (main_phase t) as [| | | |k| |e|r| |].
  - destruct Hm as (Hnil & _). rewrite Hnil in Hi. done.
  - destruct Hm as (Hnil & _). rewrite Hnil in Hi. done.
  - by rewrite length_insert.
  - by rewrite length_insert.
  - destruct Hm as (Hs & Hns & Hk & Hjoined). do 3 (split; [done|]). intros j q Hj Hq.
    destruct (decide (i = j)) as [->|Hne].
    + destruct (Hjoined j p Hj Hi) as [o ->]. done.
    + rewrite list_lookup_insert_ne in Hq by done. by apply (Hjoined j).
  - destruct Hm as (_ & _ & Hall). destruct (Hall p Hin) as [o ->]. done.
  - destruct Hm as (Hnil & _). rewrite Hnil in Hi. done.
  - destruct Hm as [(Hnil & _)|(_ & Hall & _)]; [by rewrite Hnil in Hi|].
    destruct (Hall p Hin) as [o ->]. done.
  - by rewrite length_insert.
  - destruct Hm as (Hnil & _). rewrite Hnil in Hi. done.
Qed.

(** A client's step keeps the invariant. *)
Lemma client_inv t t' i p p' :
  threads_inv t -> client_phases t !! i = Some p -> ended p = false ->
  main_phase t' = main_phase t -> client_phases t' = <[i := p']> (client_phases t) ->
  start t' = start t -> server_stopped t' = server_stopped t -> server_end t' = server_end t ->
  arrived p' = true -> (past_start p' -> start t = true) ->
  (ready_clients t' + (if arrived p then 1 else 0) = ready_clients t + 1)%nat ->
  first_error t' = match p' with Ended (Some e) => RecordFirstException e (first_error t)
                               | _ => first_error t end ->
  threads_inv t'.
Proof.
  intros [Hr Hs Hw He Hsv Hm] Hi Hp E1 E2 E3 E4 E5 Ha Hpast Hready Herr. split.
  - rewrite E2. pose proof (count_arrived_update _ _ _ p' Hi) as H. rewrite Ha in H. lia.
  - rewrite E2, E3. intros Hst. destruct (Hs Hst) as [Hl Hall]. rewrite length_insert. split; [done|].
    by apply Forall_insert.
  - rewrite E2, E3. intros Hst. apply Forall_insert; [by apply Hw|]. intros Hps%Hpast. congruence.
  - rewrite Herr, E2. destruct p' as [| | | |e|[e|]]; simpl;
      try (destruct (first_error t) as [e0|];
        [by apply (ended_update _ _ _ _ _ Hi Hp); left|
         intros e' [H|H]%(ended_update _ _ _ _ _ Hi Hp); [by apply (He e')|done]]).
    unfold RecordFirstException. destruct (first_error t) as [e0|].
    + apply (ended_update _ _ _ _ _ Hi Hp). by left.
    + apply (ended_update _ _ _ _ _ Hi Hp). by right.
  - by rewrite E4, E5.
  - by eapply main_inv_update.
Qed.

Lemma threads_start_inv : threads_inv threads_start.
Proof.
  split; simpl; try done.
  intros e H. by apply not_elem_of_nil in H.
Qed.

Lemma spawn_inv t t' :
  threads_inv t -> main_phase t = Spawning -> main_step t = Some t' -> threads_inv t'.
Proof.
  intros [Hr Hs Hw He Hsv Hm] Hph Hstep. unfold main_step in Hstep. unfold main_inv in Hm. rewrite Hph in *.
  destruct Hm as (Hlen & Hst & Hns). destruct (bool_decide_reflect (length (client_phases t) < clients)%nat);
    injection Hstep as <-.
  - split; simpl.
    + unfold count_arrived in *. rewrite list.filter_app, length_app. simpl. lia.
    + congruence.
    + intros _. apply Forall_app_2; [by apply Hw|]. apply Forall_singleton. by intros [].
    + destruct (first_error t); [apply elem_of_app; by left|].
      intros e [H|H%list_elem_of_singleton]%elem_of_app; [by apply (He e)|done].
    + exact Hsv.
    + split; [simpl; rewrite length_app; simpl; lia|done].
  - split; try done. split; [simpl; lia|done].
Qed.

Lemma poll_inv t t' :
  threads_inv t -> main_phase t = Polling -> main_step t = Some t' -> threads_inv t'.
Proof.
  intros [Hr Hs Hw He Hsv Hm] Hph Hstep. unfold main_step in Hstep. unfold main_inv in Hm. rewrite Hph in *.
  destruct Hm as (Hlen & Hst & Hns). destruct (bool_decide_reflect (ready_clients t < clients)%nat); [done|].
  injection Hstep as <-. split; simpl; try done.
  - intros _. split; [done|]. apply count_arrived_all. unfold count_arrived in *.
    pose proof (length_filter (fun p => arrived p = true) (client_phases t)). lia.
  - split; [done|]. split; [done|]. split; [lia|]. intros i p Hi. lia.
Qed.

Lemma join_inv t t' k :
  threads_inv t -> main_phase t = Joining k -> main_step t = Some t' -> threads_inv t'.
Proof.
  intros [Hr Hs Hw He Hsv Hm] Hph Hstep. unfold main_step in Hstep. unfold main_inv in Hm. rewrite Hph in *.
  destruct Hm as (Hst & Hns & Hk & Hjoined). destruct (Hs Hst) as [Hlen _].
  destruct (client_phases t !! k) as [p|] eqn:Hp.
  - destruct p as [| | | | |o]; try done. injection Hstep as <-. split; try done.
    do 2 (split; [done|]). apply lookup_lt_Some in Hp as Hlt. split; [simpl; lia|].
    intros i q Hi Hq. simpl in Hq. destruct (decide (i = k)) as [->|Hne].
    + rewrite Hp in Hq. injection Hq as <-. by exists o.
    + apply (Hjoined i q); [lia|done].
  - injection Hstep as <-. split; simpl; try done. split; [done|]. split; [done|].
    intros p [i Hi]%list_elem_of_lookup. apply (Hjoined i p); [|done].
    apply lookup_ge_None in Hp. apply lookup_lt_Some in Hi. simpl in Hi. lia.
Qed.

Lemma stop_inv t t' :
  threads_inv t -> main_phase t = Stopping -> main_step t = Some t' -> threads_inv t'.
Proof.
  intros [Hr Hs Hw He Hsv Hm] Hph Hstep. unfold main_step in Hstep. unfold main_inv in Hm. rewrite Hph in *.
  destruct Hm as (Hst & Hstop & Hall). destruct (server_end t) as [o|] eqn:Hend; [|done].
  assert (t' = set_main (Done match o with Some e => Some e | None => first_error t end) t) as ->
    by (destruct o; by injection Hstep).
  split; try done. right. do 2 (split; [done|]). by exists o.
Qed.

Lemma unwind_inv t t' e :
  threads_inv t -> main_phase t = Unwinding e -> main_step t = Some t' -> threads_inv t'.
Proof.
  intros [Hr Hs Hw He Hsv Hm] Hph Hstep. unfold main_step in Hstep. unfold main_inv in Hm. rewrite Hph in *.
  destruct Hm as (Hnil & Hst & Hstop). destruct (server_end t) as [o|] eqn:Hend; [|done]. injection Hstep as <-.
  split; simpl; rewrite ?Hend; try done. left. split; [done|]. split; [done|]. by exists e.
Qed.

Lemma spawn_fail_inv t t' e : threads_inv t -> spawn_fail_step e t = Some t' -> threads_inv t'.
Proof.
  intros [Hr Hs Hw He Hsv Hm] Hstep. unfold spawn_fail_step in Hstep. unfold main_inv in Hm.
  destruct (main_phase t) eqn:Hph; try done.
  - injection Hstep as <-. destruct Hm as (Hnil & Hst & _ & Hend). split; try done.
    left. split; [done|]. split; [done|]. by exists e.
  - destruct (bool_decide_reflect (length (client_phases t) < clients)%nat) as [Hlt|]; [|done].
    destruct Hm as (_ & Hst & _). destruct (client_phases t) as [|p ps] eqn:Hps; injection Hstep as <-.
    + by split.
    + split; simpl; rewrite ?Hps; try done. unfold main_inv. simpl. rewrite Hps. simpl in *. lia.
Qed.

Lemma main_step_inv t t' : threads_inv t -> main_step t = Some t' -> threads_inv t'.
Proof.
  intros Ht Hstep. destruct (main_phase t) as [| | | |k| |e|r| |] eqn:Hph.
  1, 2: unfold main_step in Hstep; rewrite Hph in Hstep; injection Hstep as <-;
    destruct Ht as [Hr Hs Hw He Hsv Hm]; unfold main_inv in Hm; rewrite Hph in Hm;
    destruct Hm as (Hnil & Hst & Hns & Hend); split; try done; unfold main_inv; simpl; rewrite Hnil;
    split; done || (simpl; lia).
  - by eapply spawn_inv.
  - by eapply poll_inv.
  - by eapply join_inv.
  - by eapply stop_inv.
  - by eapply unwind_inv.
  - unfold main_step in Hstep. by rewrite Hph in Hstep.
  - unfold main_step in Hstep. by rewrite Hph in Hstep.
  - unfold main_step in Hstep. by rewrite Hph in Hstep.
Qed.

Lemma past_start_started t i p :
  threads_inv t -> client_phases t !! i = Some p -> past_start p -> start t = true.
Proof.
  intros Ht Hi Hp. destruct (start t) eqn:Hs; [done|].
  destruct (proj1 (Forall_lookup _ _) (inv_waiting t Ht Hs) i p Hi Hp).
Qed.

Lemma threads_step_inv l t t' : threads_inv t -> threads_step l t = Some t' -> threads_inv t'.
Proof.
  intros Ht Hstep. unfold threads_step in Hstep. destruct (bool_decide _); [done|]. destruct l as [|e|i|i|i|i e|o].
  - by eapply main_step_inv.
  - by eapply spawn_fail_inv.
  - unfold client_step in Hstep. destruct (client_phases t !! i) as [p|] eqn:Hp; [|done].
    destruct p; try done.
    + injection Hstep as <-. eapply client_inv; [exact Ht|exact Hp|done..| |done]. simpl. lia.
    + destruct (start t) eqn:Hs; [|done]. injection Hstep as <-.
      eapply client_inv; [exact Ht|exact Hp|done..].
    + injection Hstep as <-. eapply client_inv; [exact Ht|exact Hp|done..| | |done]; [|done].
      intros _. by eapply past_start_started.
  - destruct (client_phases t !! i) as [p|] eqn:Hp; [|done]. destruct p; try done.
    destruct (server_end t); [done|]. injection Hstep as <-.
    assert (start t = true) by by eapply past_start_started. by eapply client_inv.
  - destruct (client_phases t !! i) as [p|] eqn:Hp; [|done]. destruct p; try done. injection Hstep as <-.
    assert (start t = true) by by eapply past_start_started. by eapply client_inv.
  - destruct (client_phases t !! i) as [p|] eqn:Hp; [|done]. destruct p; try done. injection Hstep as <-.
    assert (start t = true) by by eapply past_start_started. by eapply client_inv.
  - destruct (server_thread t) eqn:Hthread; [|done].
    destruct (bool_decide_reflect (server_end t = None)) as [Hend|]; [|done]. simpl in Hstep.
    destruct (_ || _) eqn:Hor; [|done]. injection Hstep as <-. destruct Ht as [Hr Hs Hw He Hsv Hm]. split; try done.
    { simpl. intros [= ->]. by destruct (server_stopped t). }
    unfold main_inv, server_thread in *. simpl. destruct (main_phase t); try done; [|by destruct o..].
    destruct Hm as (Hnil & Hst & Hns & _). rewrite Hns in Hor. destruct o as [e|]; [simpl|done].
    do 2 (split; [done|]). by exists e.
Qed.

Lemma threads_reachable_inv t : threads_reachable t -> threads_inv t.
Proof.
  intros Hr. cut (forall t0, threads_inv t0 ->
    rtc (fun t t' => exists l, threads_step l t = Some t') t0 t -> threads_inv t).
  { intros H. by apply (H threads_start threads_start_inv). }
  clear Hr. intros t0 Ht0 Hr. induction Hr as [|t1 t2 t3 [l Hl] _ IH]; [done|]. eauto using threads_step_inv.
Qed.

(** *** Termination *)

Definition phase_weight (p : ClientPhase) : nat :=
  match p with Arriving => 5 | Waiting => 4 | Running => 3 | Answered => 1 | Catching _ => 1 | Ended _ => 0 end.

(** How many steps are left, at most. *)
Definition steps_left (t : Threads) : nat :=
  sum_list_with phase_weight (client_phases t) +
  match main_phase t with
  | Constructing => 7 * clients + 6
  | Starting => 7 * clients + 5
  | Spawning => 6 * (clients - length (client_phases t)) + clients + 4
  | Polling => clients + 3
  | Joining k => (clients - k) + 2
  | Stopping | Unwinding _ => 1
  | Done _ | Terminated | Corrupt => 0
  end + match server_end t with None => 1 | Some _ => 0 end.

Lemma weight_update (ps : list ClientPhase) i p p' :
  ps !! i = Some p ->
  (sum_list_with phase_weight (<[i := p']> ps) + phase_weight p =
   sum_list_with phase_weight ps + phase_weight p')%nat.
Proof.
  revert i. induction ps as [|q ps IH]; intros [|i] Hi; try done; simpl in *.
  - injection Hi as ->. lia.
  - specialize (IH i Hi). lia.
Qed.

Ltac client_weight :=
  match goal with Hstep : Some _ = Some _, Hp : client_phases _ !! ?i = Some _ |- _ =>
    injection Hstep as <-; simpl;
    match goal with |- context [<[i := ?p']> _] =>
      let Hwt := fresh in pose proof (weight_update _ _ _ p' Hp) as Hwt;
      rewrite ?length_insert; simpl in Hwt; lia
    end
  end.

Lemma steps_left_step l t t' :
  threads_inv t -> threads_step l t = Some t' -> (steps_left t' < steps_left t)%nat.
Proof.
  intros Ht Hstep. pose proof (inv_main t Ht) as Hm. pose proof (inv_start t Ht) as Hs.
  unfold main_inv in Hm. unfold threads_step in Hstep. destruct (bool_decide _); [done|].
  unfold steps_left. destruct l as [|e|i|i|i|i e|o].
  - unfold main_step in Hstep. destruct (main_phase t) as [| | | |k| |e|r| |] eqn:Hph.
    + injection Hstep as <-. simpl. lia.
    + injection Hstep as <-. destruct Hm as (Hnil & _). simpl. rewrite Hnil. simpl. lia.
    + destruct (bool_decide_reflect (length (client_phases t) < clients)%nat); injection Hstep as <-; simpl.
      * rewrite sum_list_with_app, length_app. simpl. lia.
      * lia.
    + destruct (bool_decide _); [done|]. injection Hstep as <-. simpl. lia.
    + destruct Hm as (Hst & _ & Hk & _). destruct (Hs Hst) as [Hlen _].
      destruct (client_phases t !! k) as [p|] eqn:Hp.
      * apply lookup_lt_Some in Hp. destruct p; try done. injection Hstep as <-. simpl. lia.
      * injection Hstep as <-. simpl. lia.
    + destruct (server_end t) as [o|] eqn:Hend; [|done].
      assert (exists r, t' = set_main (Done r) t) as [r ->] by (destruct o; eexists; by injection Hstep).
      simpl. rewrite Hend. lia.
    + destruct (server_end t) eqn:Hend; [|done]. injection Hstep as <-. simpl. rewrite Hend. lia.
    + done.
    + done.
    + done.
  - unfold spawn_fail_step in Hstep. destruct (main_phase t); try done.
    + injection Hstep as <-. simpl. lia.
    + destruct (bool_decide _); [|done]. destruct (client_phases t) eqn:Hps; injection Hstep as <-; simpl.
      * lia.
      * rewrite Hps. simpl. lia.
  - unfold client_step in Hstep. destruct (client_phases t !! i) as [p|] eqn:Hp; [|done].
    destruct p; try done; try (destruct (start t); [|done]); by client_weight.
  - destruct (client_phases t !! i) as [p|] eqn:Hp; [|done]. destruct p; try done.
    destruct (server_end t) in Hstep; [done|]. by client_weight.
  - destruct (client_phases t !! i) as [p|] eqn:Hp; [|done]. destruct p; try done. by client_weight.
  - destruct (client_phases t !! i) as [p|] eqn:Hp; [|done]. destruct p; try done. by client_weight.
  - destruct (server_thread t); [|done].
    destruct (bool_decide_reflect (server_end t = None)) as [Hend|]; [|done]. simpl in Hstep.
    destruct (_ || _); [|done]. injection Hstep as <-. simpl. rewrite Hend. unfold after_server.
    destruct o, (main_phase t); lia.
Qed.

(** The steps that do not need a failure. *)
Definition regular (l : Step) : Prop :=
  match l with StepSpawnFail _ | StepFail _ _ | StepServer (Some _) => False | _ => True end.

(** [main] waits for a client that waits for a server that has failed. *)
Definition hanging (t : Threads) : Prop := exists e k,
  server_end t = Some (Some e) /\ main_phase t = Joining k /\ client_phases t !! k = Some Running.

Definition can_go_on (t : Threads) : Prop := exists l t', regular l /\ threads_step l t = Some t'.

Lemma not_gone t : ~ gone t -> bool_decide (gone t) = false.
Proof. apply bool_decide_eq_false_2. Qed.
Ltac not_gone Hph := unfold gone; rewrite Hph; by intros [?|?].

Lemma client_progress t i p :
  ~ gone t -> client_phases t !! i = Some p -> start t = true -> ended p = false ->
  can_go_on t \/ (p = Running /\ server_end t <> None).
Proof.
  intros Hph%not_gone Hp Hst He. unfold can_go_on, threads_step. rewrite Hph. destruct p; try done.
  - left. exists (StepClient i). unfold client_step. rewrite Hp. by eexists.
  - left. exists (StepClient i). unfold client_step. rewrite Hp, Hst. by eexists.
  - destruct (server_end t) eqn:Hend; [by right|left]. exists (StepServe i). rewrite Hp. by eexists.
  - left. exists (StepRun i). rewrite Hp. by eexists.
  - left. exists (StepClient i). unfold client_step. rewrite Hp. by eexists.
Qed.

(** How the part of [main] with the threads ends. *)
Definition main_over (t : Threads) : Prop := (exists r, main_phase t = Done r) \/ main_phase t = Terminated.

Lemma main_goes_on t t' : ~ gone t -> main_step t = Some t' -> can_go_on t.
Proof.
  intros Hph%not_gone Hstep. exists StepMain, t'. unfold threads_step. by rewrite Hph.
Qed.

(** A server that was told to stop ends, and [main] goes on. *)
Lemma stopped_progress t :
  server_thread t = true -> server_stopped t = true ->
  (forall o, server_end t = Some o -> exists t', main_step t = Some t') -> can_go_on t.
Proof.
  intros Hthread Hstop Hmain.
  assert (~ gone t) as Hph by (intros [E|E]; unfold server_thread in Hthread; by rewrite E in Hthread).
  destruct (server_end t) as [o|] eqn:Hend.
  - destruct (Hmain o eq_refl) as [t' Hstep]. by eapply main_goes_on.
  - exists (StepServer None). unfold threads_step. rewrite not_gone by done. rewrite Hthread, Hend, Hstop.
    by eexists.
Qed.

(** Some thread can always go on, until [main] is done, except where the server
    has failed. *)
Lemma threads_progress t :
  threads_inv t -> main_over t \/ main_phase t = Corrupt \/ hanging t \/ can_go_on t.
Proof.
  intros Ht. pose proof (inv_main t Ht) as Hm. pose proof (inv_server t Ht) as Hserver.
  unfold main_inv in Hm.
  destruct (main_phase t) as [| | | |k| |e|r| |] eqn:Hph;
    [do 2 right..|by left; left; exists r|by left; right|by right; left].
  1, 2: right; eapply main_goes_on; [not_gone Hph|]; unfold main_step; by rewrite Hph.
  - right. destruct (main_step t) as [t'|] eqn:Hstep; [eapply main_goes_on; [not_gone Hph|done]|].
    unfold main_step in Hstep. rewrite Hph in Hstep. by destruct (bool_decide _).
  - right. destruct (decide (ready_clients t < clients)%nat) as [Hlt|Hge].
    + destruct Hm as (Hlen & Hst & _). rewrite (inv_ready t Ht) in Hlt.
      destruct (arriving_client (client_phases t)) as [i Hi]; [lia|].
      exists (StepClient i). unfold threads_step, client_step. rewrite not_gone, Hi by not_gone Hph. by eexists.
    + eapply main_goes_on; [not_gone Hph|]. unfold main_step. rewrite Hph. by rewrite bool_decide_eq_false_2.
  - destruct Hm as (Hst & Hns & _). destruct (client_phases t !! k) as [p|] eqn:Hp.
    + destruct (ended p) eqn:He.
      * right. destruct p; try done. eapply main_goes_on; [not_gone Hph|]. unfold main_step. by rewrite Hph, Hp.
      * destruct (client_progress t k p ltac:(not_gone Hph) Hp Hst He) as [|[-> Hend]]; [by right|left].
        destruct (server_end t) as [[e|]|] eqn:Hse; [by exists e, k| |done].
        rewrite (Hserver eq_refl) in Hns. done.
    + right. eapply main_goes_on; [not_gone Hph|]. unfold main_step. by rewrite Hph, Hp.
  - right. destruct Hm as (_ & Hstop & _). apply stopped_progress; [|done|].
    + unfold server_thread. by rewrite Hph.
    + intros o Ho. unfold main_step. rewrite Hph, Ho. destruct o; by eexists.
  - right. destruct Hm as (_ & _ & Hstop). apply stopped_progress; [|done|].
    + unfold server_thread. by rewrite Hph.
    + intros o Ho. unfold main_step. rewrite Hph, Ho. by eexists.
Qed.

Lemma threads_exec_bound ls t t' :
  threads_inv t -> threads_exec ls t = Some t' -> threads_inv t' /\ (length ls + steps_left t' <= steps_left t)%nat.
Proof.
  revert t. induction ls as [|l ls IH]; intros t Ht Hexec; simpl in Hexec.
  { injection Hexec as <-. by split. }
  destruct (threads_step l t) as [t1|] eqn:Hl; [|done]. simpl in Hexec.
  pose proof (steps_left_step l t t1 Ht Hl) as Hlt.
  destruct (IH t1 (threads_step_inv l t t1 Ht Hl) Hexec) as [Ht' Hle]. split; [done|]. simpl. lia.
Qed.

Lemma threads_exec_reachable ls t t' :
  threads_exec ls t = Some t' -> rtc (fun t t' => exists l, threads_step l t = Some t') t t'.
Proof.
  revert t. induction ls as [|l ls IH]; intros t Hexec; simpl in Hexec.
  { by injection Hexec as <-. }
  destruct (threads_step l t) as [t1|] eqn:Hl; [|done]. eapply rtc_l; [by exists l|by apply IH].
Qed.

(** When [main] is done: the creation of the server's thread or of the first
    client's failed, or all threads have ended. *)
Definition outcome_of (t : Threads) (r : option Exception) : Prop :=
  (client_phases t = [] /\ start t = false /\ exists e, r = Some e) \/
  (forall p, p ∈ client_phases t -> exists o, p = Ended o) /\ length (client_phases t) = clients /\
  match server_end t with
  | None => False
  | Some (Some e) => r = Some e
  | Some None =>
    match r with
    | Some e => Ended (Some e) ∈ client_phases t
    | None => forall p, p ∈ client_phases t -> p = Ended None
    end
  end.

Lemma threads_done t r : threads_reachable t -> main_phase t = Done r -> outcome_of t r.
Proof.
  intros Ht%threads_reachable_inv Hr. pose proof (inv_main t Ht) as Hm. unfold main_inv in Hm. rewrite Hr in Hm.
  destruct Hm as [Hfail|(Hst & Hall & o & Hend & ->)]; [by left|right].
  split; [done|]. split; [by apply (inv_start t Ht)|].
  rewrite Hend. destruct o as [e|]; [done|]. pose proof (inv_error t Ht) as He.
  destruct (first_error t) as [e|]; [done|]. intros p Hp. destruct (Hall p Hp) as [[e|] ->]; [|done].
  by destruct (He e).
Qed.

(** Only the server's thread corrupts [error_]. *)
Lemma corrupted t :
  threads_reachable t -> main_phase t = Corrupt ->
  exists t0 e, threads_reachable t0 /\ main_phase t0 = Starting /\ threads_step (StepServer (Some e)) t0 = Some t.
Proof.
  intros Hr Hc. apply rtc_inv_r in Hr as [<-|(t0 & Hr & l & Hstep)]; [done|].
  exists t0. pose proof Hstep as Hs. unfold threads_step in Hs.
  destruct (bool_decide_reflect (gone t0)) as [|Hg]; [done|]. unfold gone in Hg.
  destruct l as [|e|i|i|i|i e|o].
  - unfold main_step in Hs. repeat case_match; by simplify_eq.
  - unfold spawn_fail_step in Hs. repeat case_match; by simplify_eq.
  - unfold client_step, set_client in Hs. repeat case_match; simplify_eq; simpl in Hc; naive_solver.
  - repeat case_match; simplify_eq; simpl in Hc; naive_solver.
  - repeat case_match; simplify_eq; simpl in Hc; naive_solver.
  - repeat case_match; simplify_eq; simpl in Hc; naive_solver.
  - destruct (_ && _); [|done]. injection Hs as <-. unfold after_server in Hc. simpl in Hc.
    destruct o as [e|]; [|destruct Hg; by right]. exists e.
    split; [done|]. split; [|done]. destruct (main_phase t0); try done. destruct Hg. by right.
Qed.

(** *** What one step changes *)

Ltac step_cases H :=
  unfold threads_step, main_step, spawn_fail_step, client_step, set_client, set_main in H;
  repeat case_match; simplify_eq; simpl in *; try done.

Lemma step_server l t t' :
  threads_step l t = Some t' ->
  match l with
  | StepServer o => server_end t = None /\ server_thread t = true /\ server_end t' = Some o /\
      server_stopped t' = server_stopped t
  | _ => server_end t' = server_end t
  end.
Proof.
  intros H. destruct l; [step_cases H..|]. unfold threads_step in H. destruct (bool_decide (gone t)); [done|].
  destruct (server_thread t); [|done]. destruct (bool_decide_reflect (server_end t = None)); [|done].
  destruct (_ || _); [|done]. by injection H as <-.
Qed.

(** How a client gets to a phase. *)
Lemma step_client l t t' i p :
  threads_step l t = Some t' -> client_phases t' !! i = Some p ->
  client_phases t !! i = Some p \/ p = Arriving \/ p = Waiting \/ p = Running \/ p = Answered \/
  (p = Ended None /\ l = StepRun i) \/ (exists e, p = Catching e /\ l = StepFail i e) \/
  (exists e, p = Ended (Some e) /\ client_phases t !! i = Some (Catching e)).
Proof.
  intros H Hi. destruct l; step_cases H; auto;
    try (apply list_lookup_insert_Some in Hi as [(<- & <- & _)|[_ Hi]]; eauto 10).
  apply lookup_app_Some in Hi as [Hi|[_ Hi]]; [by left|]. apply list_lookup_singleton_Some in Hi as [_ <-]. auto.
Qed.

(** A client's run ends where the client is served or fails. *)
Lemma step_run i t t' : threads_step (StepRun i) t = Some t' -> client_phases t !! i = Some Answered.
Proof. intros H. step_cases H. Qed.
Lemma step_fail i e t t' : threads_step (StepFail i e) t = Some t' -> client_phases t !! i = Some Running.
Proof. intros H. step_cases H. Qed.

(** The first client is created by [main]. *)
Lemma step_first_client l t t' :
  threads_step l t = Some t' -> client_phases t' <> [] ->
  client_phases t <> [] \/ (l = StepMain /\ main_phase t = Spawning).
Proof.
  intros H Hne. destruct l; step_cases H; auto.
  all: left; intros Hnil; by rewrite Hnil in *.
Qed.

(** An exception that leaves [main] before a client exists is that of a creation. *)
Definition leaves (t : Threads) (e : Exception) : Prop :=
  client_phases t = [] /\ start t = false /\ (main_phase t = Unwinding e \/ main_phase t = Done (Some e)).

Lemma step_leaves l t t' e :
  threads_inv t -> threads_step l t = Some t' -> leaves t' e ->
  leaves t e \/ l = StepSpawnFail e.
Proof.
  intros Ht H (Hnil & Hst & Hph). unfold leaves.
  assert (main_phase t = Stopping -> start t = true) as Hs
    by (intros Hp; pose proof (inv_main t Ht) as Hm; unfold main_inv in Hm; rewrite Hp in Hm; by apply Hm).
  assert (forall (ps : list ClientPhase) i q q', ps !! i = Some q -> <[i := q']> ps <> []) as Hins.
  { intros ps i q q' Hi Hins. apply (f_equal length) in Hins. rewrite length_insert in Hins.
    apply lookup_lt_Some in Hi. simpl in Hins. lia. }
  destruct l; step_cases H; try naive_solver.
  all: try by (rewrite Hs in Hst by done).
  all: try by (eapply Hins in Hnil).
  left. do 2 (split; [done|]). unfold after_server in Hph. destruct outcome, (main_phase t); naive_solver.
Qed.

Lemma step_done l t t' r :
  threads_step l t = Some t' -> main_phase t = Done r -> main_phase t' = Done r.
Proof.
  intros H Hph. destruct l; [step_cases H; congruence..|].
  unfold threads_step, server_thread in H. rewrite Hph in H. by destruct (bool_decide _).
Qed.

Lemma client_count t : threads_inv t -> (length (client_phases t) <= clients)%nat.
Proof.
  intros Ht. pose proof (inv_main t Ht) as Hm. pose proof (inv_start t Ht) as Hs. unfold main_inv in Hm.
  destruct (start t) eqn:Hst; [by destruct (Hs eq_refl) as [-> _]|].
  assert (client_phases t = [] -> (length (client_phases t) <= clients)%nat) as Hnil by (intros ->; simpl; lia).
  destruct (main_phase t); try (by apply Hnil, Hm); try (destruct Hm as [Hm _]; congruence || lia); [|lia].
  destruct Hm as [[Hm _]|[Hm _]]; [by apply Hnil|congruence].
Qed.

(** ** Properties *)

(** C13.  The threads of the benchmark, in every interleaving.  No client connects
    before all the clients are created and ready.  When [main] goes on after the
    joins, every client has ended and the server has been stopped and has ended;
    it then rethrows the exception of the server if there is one, and otherwise an
    exception that a client threw if any client threw one: it reports success only
    if no thread failed.  A thread that cannot be created makes [main] throw when no
    client exists yet; the process is terminated only when there are clients, and
    not all of them.  One interleaving has no defined behaviour, and [main] gets to
    none of these ends in it: [Run] throws while the constructor of [ServerThread]
    has not constructed [error_] yet; no client exists then. *)
Theorem benchmark_threads_outcome t :
  threads_reachable t ->
  (forall p, p ∈ client_phases t -> past_start p ->
     length (client_phases t) = clients /\ Forall (fun p => arrived p = true) (client_phases t)) /\
  (forall r, main_phase t = Done r -> outcome_of t r) /\
  (main_phase t = Terminated -> (0 < length (client_phases t) < clients)%nat) /\
  (main_phase t = Corrupt <-> exists t0 e, threads_reachable t0 /\ main_phase t0 = Starting /\
     threads_step (StepServer (Some e)) t0 = Some t).
Proof.
  intros Hr. pose proof (threads_reachable_inv t Hr) as Ht. split_and!.
  - intros p [i Hi]%list_elem_of_lookup Hp. apply (inv_start t Ht). by eapply past_start_started.
  - intros r. by apply threads_done.
  - intros Hph. pose proof (inv_main t Ht) as Hm. unfold main_inv in Hm. by rewrite Hph in Hm.
  - split; [by apply corrupted|]. intros (t0 & e & _ & Hph & Hstep).
    unfold threads_step in Hstep. rewrite not_gone in Hstep by not_gone Hph. destruct (_ && _); [|done].
    injection Hstep as <-. simpl. by rewrite Hph.
Qed.

(** C14.  The benchmark's threads terminate and cannot deadlock while the server
    works: a run has at most [7 clients + 7] steps (a turn of a waiting loop is
    none), and a run that no thread can continue has [main] done, or the process
    terminated, with two exceptions: the server's [Run] threw, and [main] waits for
    a client that still waits for a response; or [Run] threw before [error_] was
    constructed, where the behaviour is undefined. *)
Theorem benchmark_threads_terminate ls t :
  threads_exec ls threads_start = Some t ->
  (length ls <= 7 * clients + 7)%nat /\
  ((forall l, regular l -> threads_step l t = None) -> main_over t \/ hanging t \/ main_phase t = Corrupt).
Proof.
  intros Hexec. destruct (threads_exec_bound ls _ _ threads_start_inv Hexec) as [Ht Hle]. split.
  - unfold steps_left in Hle at 2. simpl in Hle. lia.
  - intros Hstuck. destruct (threads_progress t Ht) as [|[|[|(l & t' & Hl & Hstep)]]]; [by left|by do 2 right|by right; left|].
    by rewrite Hstuck in Hstep.
Qed.
End Program.

(** ** Witnesses

    Two clients: the first is served, the second fails. *)

Definition sample_steps : list Step :=
  [StepMain; StepMain; StepMain; StepClient 0; StepMain; StepMain; StepClient 1; StepMain; StepClient 1; StepClient 0;
   StepServe 0; StepFail 1 (RuntimeError "one"); StepClient 1; StepRun 0;
   StepMain; StepMain; StepMain; StepServer None; StepMain].

Definition sample_final : Threads :=
  {| main_phase := Done (Some (RuntimeError "one"));
     client_phases := [Ended None; Ended (Some (RuntimeError "one"))];
     ready_clients := 2; start := true; first_error := Some (RuntimeError "one"); server_stopped := true;
     server_end := Some None |}.

Lemma sample_runs : threads_exec 2 sample_steps threads_start = Some sample_final.
Proof. reflexivity. Qed.

Lemma benchmark_threads_outcome_witness :
  threads_reachable 2 sample_final /\ main_phase sample_final = Done (Some (RuntimeError "one")) /\
  Ended (Some (RuntimeError "one")) ∈ client_phases sample_final.
Proof.
  assert (threads_reachable 2 sample_final) as Hr by (eapply threads_exec_reachable; apply sample_runs).
  split; [exact Hr|]. split; [reflexivity|].
  destruct (benchmark_threads_outcome 2 sample_final Hr) as (_ & H & _).
  destruct (H (Some (RuntimeError "one")) eq_refl) as [(Hnil & _)|(_ & _ & He)]; [discriminate Hnil|exact He].
Defined.

Lemma benchmark_threads_terminate_witness :
  threads_exec 2 sample_steps threads_start = Some sample_final /\ (length sample_steps <= 21)%nat.
Proof.
  split; [apply sample_runs|]. apply (benchmark_threads_terminate 2 sample_steps sample_final sample_runs).
Defined.

(** The exception of [benchmark_threads_terminate] is real: [Run] throws while a
    client waits for its response (say because [accept4] failed for want of
    descriptors).  The error is kept in [error_], but [main] never gets to
    [StopAndJoin]: it joins the clients first. *)
Definition hanging_steps : list Step :=
  [StepMain; StepMain; StepMain; StepMain; StepClient 0; StepMain; StepClient 0;
   StepServer (Some (RuntimeError "accept4"))].

Definition hanging_state : Threads :=
  {| main_phase := Joining 0; client_phases := [Running]; ready_clients := 1; start := true;
     first_error := None; server_stopped := false; server_end := Some (Some (RuntimeError "accept4")) |}.

Lemma benchmark_hangs :
  threads_exec 1 hanging_steps threads_start = Some hanging_state /\
  forall l, regular l -> threads_step 1 l hanging_state = None.
Proof.
  split; [reflexivity|]. intros [|e|[|i]|[|i]|[|i]|i e|o] Hl; done.
Qed.

(** The process is terminated when the second of two clients cannot be created:
    the first one is joinable, and [clients] is destroyed. *)
Lemma benchmark_aborts :
  main_phase <$> threads_exec 2 [StepMain; StepMain; StepMain; StepSpawnFail (RuntimeError "thread")] threads_start =
  Some Terminated.
Proof. reflexivity. Qed.

(** [Run] throws before [main] constructs [error_] (say because [epoll_wait] failed
    at once): the assignment is undefined. *)
Lemma benchmark_error_lost :
  main_phase <$> threads_exec 1 [StepMain; StepServer (Some (RuntimeError "epoll_wait"))] threads_start =
  Some Corrupt.
Proof. reflexivity. Qed.
