(* ===== verification/BenchmarkReport.v ===== *)
(** * The benchmark program: its report

    The end of [main] in [apps/benchmark/epoll_loopback.cpp]: the lines printed after
    a run, from the configuration, the elapsed time and the latencies.
    [BenchmarkProcess] has the rest of [main]. *)

From stdpp Require Import sorting.
From S2P Require Import Prelude Os Codec Handler Connection BlockingTheorems CommandLine Doubles BenchmarkMain.

Definition usage : string :=
  "usage: pulsecore_epoll_benchmark " +:+
  "[--clients N] [--requests-per-client N] [--payload-size N] [--workers N] " +:+
  "[--message-type echo|work] [--work-iterations N]" +:+ newline.

(** [std::chrono::duration<double>(finished - started).count()]: the clock counts
    nanoseconds. *)
Definition seconds (started finished : Z) : double :=
  double_div (double_of_Z (finished - started)) (double_of_Z 1000000000).

Definition micros (x : double) : double := double_mul x (double_of_Z 1000000).

Abbreviation Prog := (M (St Console)).

Definition out (text : string) : Prog unit := print (fun c => c) (fun c _ => c) text.
Definition err (text : string) : Prog unit := print_error (fun c => c) (fun c _ => c) text.
Definition PrintUsage : Prog unit := err usage.

(** [std::cout << name << value << '\n']. *)
Definition line (name value : string) : Prog unit := out (name +:+ value +:+ newline).

(** The end of [main], after the error of a client was not rethrown. *)
Definition report (config : BenchmarkConfig) (elapsed : double) (latencies_seconds : list double) : Prog unit :=
  let total_requests := u64 (clients config * requests_per_client config) in
  frame_size_template ← BuildClientRequestTemplate 0 config;
  let round_trip_frame_bytes := double_mul (double_of_Z total_requests)
    (double_of_Z (u64 (kHeaderSize + len (request_payload frame_size_template) +
                       kHeaderSize + len (expected_response_payload frame_size_template)))) in
  let latencies_seconds := merge_sort double_le latencies_seconds in
  line "clients=" (decimal (clients config)) ;;
  line "workers=" (decimal (workers config)) ;;
  line "message_type=" (MessageTypeName (message_type config)) ;;
  (match message_type config with
   | kWork => line "work_iterations=" (decimal (work_iterations config))
   | kEcho => mret tt
   end) ;;
  line "requests_per_client=" (decimal (requests_per_client config)) ;;
  line "payload_bytes=" (decimal (payload_size config)) ;;
  line "total_requests=" (decimal total_requests) ;;
  line "elapsed_seconds=" (show_fixed elapsed) ;;
  line "requests_per_second=" (show_fixed (double_div (double_of_Z total_requests) elapsed)) ;;
  line "round_trip_frame_mib_per_second=" (show_fixed
    (double_div (double_div round_trip_frame_bytes (double_mul (double_of_Z 1024) (double_of_Z 1024))) elapsed)) ;;
  p50 ← the (PercentileMicros double_zero micros latencies_seconds 50);
  line "latency_p50_us=" (show_fixed p50) ;;
  p95 ← the (PercentileMicros double_zero micros latencies_seconds 95);
  line "latency_p95_us=" (show_fixed p95) ;;
  p99 ← the (PercentileMicros double_zero micros latencies_seconds 99);
  line "latency_p99_us=" (show_fixed p99) ;;
  back ← the (zlookup latencies_seconds (len latencies_seconds - 1));   (** [latencies_seconds.back()] *)
  line "latency_max_us=" (show_fixed (micros back)).

(** ** The report *)

(** The text, with the latencies at the three ranks and the greatest. *)
Definition report_text (config : BenchmarkConfig) (t : ClientRequestTemplate) (elapsed p50 p95 p99 most : double) : string :=
  let total := clients config * requests_per_client config in
  let bytes := 2 * kHeaderSize + len (request_payload t) + len (expected_response_payload t) in
  let item name value := name +:+ value +:+ newline in
  item "clients=" (decimal (clients config)) +:+
  item "workers=" (decimal (workers config)) +:+
  item "message_type=" (MessageTypeName (message_type config)) +:+
  match message_type config with
  | kWork => item "work_iterations=" (decimal (work_iterations config)) | kEcho => "" end +:+
  item "requests_per_client=" (decimal (requests_per_client config)) +:+
  item "payload_bytes=" (decimal (payload_size config)) +:+
  item "total_requests=" (decimal total) +:+
  item "elapsed_seconds=" (show_fixed elapsed) +:+
  item "requests_per_second=" (show_fixed (double_div (double_of_Z total) elapsed)) +:+
  item "round_trip_frame_mib_per_second=" (show_fixed
    (double_div (double_div (double_mul (double_of_Z total) (double_of_Z bytes))
      (double_of_Z 1048576)) elapsed)) +:+
  item "latency_p50_us=" (show_fixed (micros p50)) +:+
  item "latency_p95_us=" (show_fixed (micros p95)) +:+
  item "latency_p99_us=" (show_fixed (micros p99)) +:+
  item "latency_max_us=" (show_fixed (micros most)).

(** [x] is the percentile of [latencies] by the nearest rank. *)
Definition nearest_rank (latencies : list double) (percentile : Z) (x : double) : Prop :=
  x ∈ latencies /\
  percentile * len latencies <= 100 * len (filter (fun y => double_le y x) latencies) /\
  100 * len (filter (fun y => ~ double_le x y) latencies) < percentile * len latencies.

(** The vector of latencies is in memory: 2^57 bytes are addressable. *)
Definition fits_memory {A} (l : list A) : Prop := 8 * len l <= 2 ^ 57.

Lemma percentile_of_latencies latencies percentile :
  latencies <> [] -> fits_memory latencies -> 1 <= percentile <= 100 ->
  exists x, PercentileMicros double_zero micros (merge_sort double_le latencies) percentile = Some (micros x) /\
    nearest_rank latencies percentile x.
Proof.
  intros Hne Hfit Hp. unfold fits_memory in Hfit.
  destruct (percentile_spec double_le double_zero micros latencies percentile) as (x & Hx & Hper & Hle & Hlt);
    [done|done|nia|]. by exists x.
Qed.

Lemma greatest_latency latencies :
  latencies <> [] ->
  exists x, zlookup (merge_sort double_le latencies) (len (merge_sort double_le latencies) - 1) = Some x /\
    x ∈ latencies /\ forall y, y ∈ latencies -> double_le y x.
Proof.
  intros Hne. set (sorted := merge_sort double_le latencies).
  assert (sorted ≡ₚ latencies) as Hperm by apply merge_sort_Permutation.
  assert (StronglySorted double_le sorted) as Hs by (apply (StronglySorted_merge_sort _)).
  destruct sorted as [|x sorted' _] using rev_ind.
  { by apply Permutation_nil_l in Hperm. }
  exists x. split; [|split].
  - unfold zlookup. rewrite len_app. change (len [x]) with 1. rewrite bool_decide_eq_true_2 by len_lia.
    replace (Z.to_nat _) with (length sorted') by (unfold len; lia). by apply list_lookup_middle.
  - rewrite <- Hperm. apply elem_of_app. right. by apply list_elem_of_singleton.
  - intros y Hy. rewrite <- Hperm in Hy. apply StronglySorted_app in Hs as (Hcross & _ & _).
    apply elem_of_app in Hy as [Hy| ->%list_elem_of_singleton]; [|done].
    apply Hcross; [done|by apply list_elem_of_singleton].
Qed.

(** Output only adds to the text of a stream. *)
Lemma wp_line {A} name value (f : unit -> M (St Console) A) Q E c h :
  wp (f tt) Q E (mkSt {| cout := cout c +:+ (name +:+ value +:+ newline); cerr := cerr c |} h) ->
  wp (line name value ≫= f) Q E (mkSt c h).
Proof. intros H. by apply wp_bind, wp_print. Qed.

Lemma report_spec config elapsed latencies t c h E :
  config_ok config -> config_fits config ->
  len latencies = clients config * requests_per_client config -> fits_memory latencies ->
  (forall s : St Console, BuildClientRequestTemplate 0 config s = (Return t, s)) ->
  len (request_payload t) <= kMaxPayloadSize -> len (expected_response_payload t) <= kMaxPayloadSize ->
  wp (report config elapsed latencies)
    (fun _ s => exists p50 p95 p99 most,
       s = mkSt {| cout := cout c +:+ report_text config t elapsed p50 p95 p99 most; cerr := cerr c |} h /\
       nearest_rank latencies 50 p50 /\ nearest_rank latencies 95 p95 /\ nearest_rank latencies 99 p99 /\
       most ∈ latencies /\ forall y, y ∈ latencies -> double_le y most) E (mkSt c h).
Proof.
  intros Hc [Hmax _] Hlen Hmem Ht Hreq Hresp. pose proof Hc as (Hcl & Hrq & _).
  assert (latencies <> []) as Hne by (intros ->; rewrite len_nil in Hlen; nia).
  destruct (percentile_of_latencies latencies 50 Hne Hmem ltac:(lia)) as (p50 & H50 & R50).
  destruct (percentile_of_latencies latencies 95 Hne Hmem ltac:(lia)) as (p95 & H95 & R95).
  destruct (percentile_of_latencies latencies 99 Hne Hmem ltac:(lia)) as (p99 & H99 & R99).
  destruct (greatest_latency latencies Hne) as (most & Hmost & Hin & Hall).
  unfold report. apply wp_bind. unfold wp at 1. rewrite Ht.
  pose proof (len_nonneg (request_payload t)). pose proof (len_nonneg (expected_response_payload t)).
  unfold kMaxPayloadSize, u64_max in *.
  rewrite (u64_id (_ * _)) by (unfold is_u64; nia).
  rewrite (u64_id (_ + _)) by (unfold is_u64, kHeaderSize; lia).
  replace (kHeaderSize + _ + kHeaderSize + _)
    with (2 * kHeaderSize + len (request_payload t) + len (expected_response_payload t)) by lia.
  change (double_mul (double_of_Z 1024) (double_of_Z 1024)) with (double_of_Z 1048576).
  do 3 apply wp_line. apply wp_bind.
  destruct (message_type config) eqn:Htype; [apply wp_ret|apply wp_print].
  all: do 6 apply wp_line; apply wp_bind; eapply wp_the; [exact H50|].
  all: apply wp_line, wp_bind; eapply wp_the; [exact H95|].
  all: apply wp_line, wp_bind; eapply wp_the; [exact H99|].
  all: apply wp_line, wp_bind; eapply wp_the; [exact Hmost|].
  all: apply wp_print; exists p50, p95, p99, most; split; [|by split_and!].
  all: unfold report_text; rewrite Htype; simpl cout; simpl cerr; by rewrite !string_app_assoc.
Qed.
(** The template does not depend on the state it is computed in. *)
Lemma template_anywhere {S S'} i config (s s1 : S) t (s' : S') :
  BuildClientRequestTemplate i config s = (Return t, s1) ->
  BuildClientRequestTemplate i config s' = (Return t, s').
Proof.
  unfold BuildClientRequestTemplate. destruct (message_type config); [by intros [= <- _]|].
  destruct (HandleRequest _) as [m|]; [|done]. unfold mbind, M_bind. simpl.
  case_match; [done|by intros [= <- _]].
Qed.

Lemma template_sizes t :
  template_ok t -> len (request_payload t) <= kMaxPayloadSize /\ len (expected_response_payload t) <= kMaxPayloadSize.
Proof.
  intros Ht. destruct (Ht 0 ltac:(by_decide)) as [Hv Hr].
  pose proof (respond_spec_valid _ Hv) as Hw. rewrite Hr in Hw.
  split; [apply Hv|apply Hw].
Qed.
