(* ===== verification/BenchmarkProcess.v ===== *)
(** * The benchmark program: the process

    [main] of [apps/benchmark/epoll_loopback.cpp]: the server, its thread, the
    threads of the clients, and the report, composed of the models of these parts.

    The interleaving of the threads is a list of the steps of [BenchmarkThreads].
    A step that ends the server's thread is taken with the result of [Run] on the
    server that was constructed, and a step that ends a client's with the result of
    its [RunClient], which also leaves its latencies in the vector: a thread ends
    the way its code ends ([commit]).  Every thread has its own history of system
    calls, and the kernel answers it in a way of its own.

    A client is run at the step that ends it.  It shares nothing with the others
    while it runs but the vector, of which each writes its own part
    ([client_slots_disjoint]). *)

From S2P Require Import Prelude Os Scripted UniqueFd Codec Handler BoundedQueue WorkerPool.
From S2P Require Import Connection ConnectionRegistry EpollServer ServerFrame ServerInvariant.
From S2P Require Import ServerProofs ServerTheorems ServerStart ServerLife CommandLine ServerScope.
From S2P Require Import BlockingTcp BlockingTheorems Doubles BenchmarkMain BenchmarkClient BenchmarkThreads BenchmarkReport.

(** The options [main] sets; the others keep their defaults. *)
Definition server_options (config : BenchmarkConfig) : EpollEchoServerOptions :=
  let o := EpollEchoServerOptions_default in
  {| options_worker_count := workers config;
     options_work_queue_capacity := Z.max 1024 (u64 (clients config * 8));
     options_max_read_bytes_per_event := options_max_read_bytes_per_event o;
     options_max_write_bytes_per_event := options_max_write_bytes_per_event o;
     options_max_connections := options_max_connections o;
     options_max_in_flight_requests_per_connection := options_max_in_flight_requests_per_connection o;
     options_connection_limits := options_connection_limits o;
     options_handler := options_handler o;
     options_shutdown_signals := options_shutdown_signals o |}.

(** How the process ends: by the end of [main], or by [std::terminate]. *)
Inductive Ending : Type := Exited (code : Z) | Aborted.

(** What the threads work on. *)
Record Process : Type := {
  threads : Threads;
  latencies_seconds : list double;
  server_state : St EpollEchoServer;
}.

Definition with_threads (t : Threads) (p : Process) : Process :=
  {| threads := t; latencies_seconds := latencies_seconds p; server_state := server_state p |}.
Definition with_server_state (st : St EpollEchoServer) (p : Process) : Process :=
  {| threads := threads p; latencies_seconds := latencies_seconds p; server_state := st |}.
Definition with_latencies (l : list double) (p : Process) : Process :=
  {| threads := threads p; latencies_seconds := l; server_state := server_state p |}.

Definition system_error (e : Exception) : bool := match e with SystemError _ => true | _ => false end.

(** [main] is between the constructor of [server_thread] and the first client. *)
Definition before_clients (t : Threads) : bool :=
  bool_decide (main_phase t = Spawning) && bool_decide (client_phases t = []).

Section Program.
(** The kernel of the server's thread, those of the clients' threads and their
    clocks, the readings of [main]'s clock, and whether [operator new] provides a
    number of bytes. *)
Context `{SysS : OS} `{Env : Environment} {SysC : nat -> OS} (inet_pton : string -> option Z).
Context (clock : nat -> History -> Z) (started finished : Z) (allocates : Z -> bool).
Context (strerror : Z -> string) (fuel turns : nat) (schedule : list Step).

Abbreviation Server := (M (St EpollEchoServer)).

Section Threads.
Context (config : BenchmarkConfig) (port : Z).

Abbreviation client_count := (Z.to_nat (clients config)).
Abbreviation total_requests := (u64 (clients config * requests_per_client config)).

(** The exception of [clients.reserve] or of the constructor of
    [latencies_seconds]. *)
Definition vectors : option Exception :=
  if max_size sizeof_thread <? clients config then Some (LogicError "vector::reserve") else
  if negb (allocates (sizeof_thread * clients config)) then Some BadAlloc else
  if max_size sizeof_double <? total_requests
  then Some (LogicError "cannot create std::vector larger than max_size()") else
  if negb (allocates (sizeof_double * total_requests)) then Some BadAlloc else None.

(** Whether [main] can take a step: it throws if a vector cannot be created, and
    otherwise only where a thread cannot be. *)
Definition possible (l : Step) (t : Threads) : bool :=
  match l, vectors with
  | StepMain, Some _ => negb (before_clients t)
  | StepSpawnFail e, Some e' => if before_clients t then bool_decide (e = e') else system_error e
  | StepSpawnFail e, None => system_error e
  | _, _ => true
  end.

(** A thread ends with [o]: this happens if its code ends so, in [r], leaving [p]. *)
Definition commit (o : option Exception) (r : Result unit) (p : Process) : M Process unit :=
  match r, o with
  | Return _, None => fun _ => (Return tt, p)
  | Throw e, Some e' => if bool_decide (e = e') then fun _ => (Return tt, p) else mret tt
  | Undefined, _ => undefined
  | _, _ => mret tt
  end.

Definition run_client (i : nat) (latencies : list double) : Result unit * St (list double) :=
  RunClient (Sys := SysC i) inet_pton (clock i) seconds turns fuel port (Z.of_nat i) config (mkSt latencies []).

(** [main] calls [Stop] when the server's thread has ended before. *)
Definition late_stop (t t' : Threads) : bool :=
  negb (server_stopped t) && server_stopped t' && bool_decide (server_end t' <> None).

Definition main_moves (t : Threads) (p : Process) : M Process unit :=
  if late_stop (threads p) t then
    let '(r, st) := Stop fuel (server_state p) in
    commit None r (with_server_state st (with_threads t p))
  else fun _ => (Return tt, with_threads t p).

(** One step; nothing happens if it cannot be taken. *)
Definition process_step (l : Step) : M Process unit := fun p =>
  match (if possible l (threads p) then threads_step client_count l (threads p) else None) with
  | None => (Return tt, p)
  | Some t =>
    match l with
    | StepMain | StepSpawnFail _ => main_moves t p p
    | StepClient _ | StepServe _ => (Return tt, with_threads t p)
    | StepRun i =>
      let '(r, st) := run_client i (latencies_seconds p) in
      commit None r (with_latencies (self st) (with_threads t p)) p
    | StepFail i e =>
      let '(r, st) := run_client i (latencies_seconds p) in
      commit (Some e) r (with_latencies (self st) (with_threads t p)) p
    | StepServer o =>
      let '(r, st) := Run default_handler fuel turns (server_state p) in
      commit o r (with_server_state st (with_threads t p)) p
    end
  end.

Fixpoint run_schedule (ls : list Step) : M Process unit :=
  match ls with
  | [] => mret tt
  | l :: ls => process_step l ;; run_schedule ls
  end.

Definition Process_start (st : St EpollEchoServer) : Process :=
  {| threads := threads_start; latencies_seconds := replicate (Z.to_nat total_requests) double_zero;
     server_state := st |}.

(** The threads run, from the constructor of [server_thread] to [StopAndJoin] and the
    exception of a client: an exception leaves it after [~ServerThread], [None] is
    the end of the process. *)
Definition run_threads : Server (option (list double)) := fun st =>
  let '(r, p) := run_schedule schedule (Process_start st) in
  match r with
  | Return _ =>
    match main_phase (threads p) with
    | Done None => (Return (Some (latencies_seconds p)), server_state p)
    | Done (Some e) => (if start (threads p) then Stop fuel ;; throw e else throw e) (server_state p)
    | Terminated => (Return None, server_state p)
    | Corrupt => (Undefined, server_state p)
    | _ => (OutOfFuel, server_state p)
    end
  | Throw e => (Throw e, server_state p)
  | Undefined => (Undefined, server_state p)
  | OutOfFuel => (OutOfFuel, server_state p)
  end.
End Threads.

Definition on_console {A} (m : M (St Console) A) : Scope A :=
  zoom (fun p => Some p.1) (fun c p => (c, p.2)) m.

(** [main] from the declaration of [server_thread] on, and [~ServerThread]. *)
Definition measure (config : BenchmarkConfig) : Scope Ending :=
  this ← get_self;
  ran ← on_server (run_threads config (EpollEchoServer_port this.2));
  match ran with
  | None => mret Aborted
  | Some latencies_seconds =>
    on_exception (on_console (report config (seconds started finished) latencies_seconds)) (on_server (Stop fuel)) ;;
    on_server (Stop fuel) ;;
    mret (Exited 0)
  end.

(** The scope of the server: it is destroyed when [m] ends or throws, and not when
    the process is terminated. *)
Definition server_block (mask : ShutdownSignalMaskState) (m : Scope Ending) : Scope Ending :=
  ending ← on_exception m (on_server (EpollEchoServer_destroy default_handler fuel mask));
  match ending with
  | Aborted => mret Aborted
  | Exited code => on_server (EpollEchoServer_destroy default_handler fuel mask) ;; mret (Exited code)
  end.
Definition with_server (server : EpollEchoServer) (mask : ShutdownSignalMaskState) (m : Scope Ending) :
    M (St Console) Ending := fun st =>
  let '(r, st') := server_block mask m (mkSt (self st, server) (hist st)) in
  (r, mkSt (fst (self st')) (hist st')).

Definition main (mask0 : gset Z) (hardware_concurrency : Z) (argv : list string) : M (St Console) Ending :=
  try_catch (
    if (len argv =? 2) && bool_decide (argv !! 1%nat = Some "--help"%string)
    then PrintUsage ;; mret (Exited 0) else
    config ← ParseArgs hardware_concurrency argv;
    '(server, mask) ← EpollEchoServer_construct mask0 0 (server_options config);
    with_server server mask (measure config))
  (fun error =>
    PrintUsage ;;
    err ("pulsecore_epoll_benchmark: " +:+ what strerror error +:+ newline) ;;
    mret (Exited 1)).
End Program.

(** ** The process runs its parts *)

Section Proofs.
Context {SysS : OS} {LawsS : OSLaws SysS} {ShortS : ShortRun SysS} {EpollS : EpollLaws SysS} {SetupS : SetupLaws SysS}.
Context {Env : Environment} {EnvLaws : EnvironmentLaws Env}.
Context {SysC : nat -> OS} {LawsC : forall i, OSLaws (SysC i)} {ShortC : forall i, ShortRun (SysC i)}.
Context {SetupC : forall i, SetupLaws (SysC i)}.
Context (inet_pton : string -> option Z) (clock : nat -> History -> Z) (started finished : Z).
Context (allocates : Z -> bool) (strerror : Z -> string) (fuel turns : nat) (schedule : list Step).

Section Threads.
Context (config : BenchmarkConfig) (server : EpollEchoServer) (h1 : History).

Abbreviation count := (requests_per_client config).
Abbreviation total := (clients config * requests_per_client config).
Abbreviation RunOf i := (run_client (SysC := SysC) inet_pton clock fuel turns config (EpollEchoServer_port server) i).
Abbreviation ServerRun := (Run default_handler fuel turns (mkSt server h1)).
Abbreviation the_vectors := (vectors allocates config).

(** The vector at the end has the latencies that the run of client [i] stored. *)
Definition slot (i k : nat) : Prop := Z.of_nat i * count <= Z.of_nat k < Z.of_nat i * count + count.
Definition client_done (latencies : list double) (i : nat) : Prop :=
  exists before s, len before = total /\ RunOf i before = (Return tt, s) /\
    forall k, slot i k -> latencies !! k = self s !! k.
Definition client_failed (i : nat) (e : Exception) : Prop :=
  exists before s, len before = total /\ RunOf i before = (Throw e, s).

(** Why [main] throws before there is a client. *)
Definition creation_failed (e : Exception) : Prop := the_vectors = Some e \/ exists errno, e = SystemError errno.

Record process_inv (p : Process) : Prop := {
  pinv_threads : threads_reachable (Z.to_nat (clients config)) (threads p);
  pinv_length : len (latencies_seconds p) = total;
  pinv_vectors : client_phases (threads p) <> [] -> the_vectors = None;
  pinv_clients i ph : client_phases (threads p) !! i = Some ph ->
    match ph with
    | Ended None => client_done (latencies_seconds p) i
    | Catching e | Ended (Some e) => client_failed i e
    | _ => True
    end;
  pinv_server : match server_end (threads p) with
                | None => server_state p = mkSt server h1
                | Some None => exists st, ServerRun = (Return tt, st)
                | Some (Some e) => exists st, ServerRun = (Throw e, st)
                end;
  pinv_later : tidy (server_state p) /\ kept (own_fds server) h1 (server_state p);
  pinv_leaves e : leaves (threads p) e -> creation_failed e;
}.

Context (Hc : config_ok config) (Hfits : config_fits config).
Context (Hlater : tidy (mkSt server h1) /\ kept (own_fds server) h1 (mkSt server h1)).
Context (Hrun : forall r st, ServerRun = (r, st) ->
  r <> Undefined /\ (r <> OutOfFuel -> tidy st /\ kept (own_fds server) h1 st)).

Lemma run_fails_own i (latencies : list double) o (s : St (list double)) :
  run_fails (Sys := SysC i) inet_pton config (Z.of_nat i) turns fuel (EpollEchoServer_port server) latencies [] o s ->
  own_slots config (Z.of_nat i) latencies (self s).
Proof.
  intros [[(errno & _ & ->)|(fd & es & unsent & _ & _ & Hend)]|
    [(fd & text & _ & _ & -> & _)|(fd & t & sent & unsent & got & _ & _ & _ & _ & Hown)]]; try done.
  destruct o; by destruct Hend as [_ ->].
Qed.

Lemma run_client_spec i latencies r s :
  (i < Z.to_nat (clients config))%nat -> len latencies = total -> RunOf i latencies = (r, s) ->
  r <> Undefined /\ own_slots config (Z.of_nat i) latencies (self s).
Proof.
  intros Hi Hlen Hr.
  pose proof (wp_run _ _ _ _ _ _ (RunClient_spec (Sys := SysC i) inet_pton (clock i) seconds config (Z.of_nat i)
    Hfits ltac:(lia) turns fuel (EpollEchoServer_port server) latencies [] Hc ltac:(lia) ltac:(done)) Hr) as H.
  destruct r as [u|e| |]; [|by split; [|eapply run_fails_own]|done|by split; [|eapply run_fails_own]].
  destruct H as (fd & t & _ & _ & Hown). by split.
Qed.

(** No two clients write to the same place. *)
Lemma client_slots_disjoint i j (before after : list double) k :
  own_slots config (Z.of_nat j) before after -> i <> j -> slot i k -> after !! k = before !! k.
Proof.
  intros [_ Hk] Hne Hs. apply Hk. unfold slot in Hs. destruct Hc as (_ & H0 & _).
  destruct (decide (i < j)%nat); nia.
Qed.

Lemma phase_bound p i ph : process_inv p -> client_phases (threads p) !! i = Some ph -> (i < Z.to_nat (clients config))%nat.
Proof.
  intros Hp Hi%lookup_lt_Some. pose proof (client_count _ _ (threads_reachable_inv _ _ (pinv_threads p Hp))). lia.
Qed.

(** ** One step *)

Lemma reachable_step n l t t' : threads_reachable n t -> threads_step n l t = Some t' -> threads_reachable n t'.
Proof. intros Hr Hl. eapply rtc_r; [exact Hr|by exists l]. Qed.

(** A step keeps the invariant if what it leaves of the server and of the vector is
    right. *)
Lemma process_inv_step l p t latencies st :
  process_inv p -> possible allocates config l (threads p) = true ->
  threads_step (Z.to_nat (clients config)) l (threads p) = Some t ->
  len latencies = total ->
  (forall i, (client_phases (threads p) !! i = Some (Ended None)) ->
     client_done (latencies_seconds p) i -> client_done latencies i) ->
  (forall i, l = StepRun i -> client_done latencies i) -> (forall i e, l = StepFail i e -> client_failed i e) ->
  (tidy st /\ kept (own_fds server) h1 st) ->
  match l with
  | StepServer None => exists st, ServerRun = (Return tt, st)
  | StepServer (Some e) => exists st, ServerRun = (Throw e, st)
  | _ => server_end (threads p) = None -> st = server_state p
  end ->
  process_inv {| threads := t; latencies_seconds := latencies; server_state := st |}.
Proof.
  intros Hp Hpos Hstep Hlen Hkeep Hdone Hfail Hst Hserver.
  pose proof (step_server _ _ _ _ Hstep) as Hend. split; simpl.
  - by eapply reachable_step, Hstep; destruct Hp.
  - done.
  - intros [Hne|[-> Hph]]%(step_first_client _ _ _ _ Hstep); [by apply (pinv_vectors p Hp)|].
    unfold possible in Hpos. destruct the_vectors as [e|] eqn:Hv; [|done].
    destruct (decide (client_phases (threads p) = [])) as [Hnil|Hne].
    + unfold before_clients in Hpos. rewrite Hph, Hnil in Hpos. done.
    + pose proof (pinv_vectors p Hp Hne). congruence.
  - intros i ph Hi. destruct (step_client _ _ _ _ _ _ Hstep Hi) as
      [Hi'|[->|[->|[->|[->|[[-> ->]|[(e & -> & ->)|(e & -> & Hi')]]]]]]]; try done.
    + pose proof (pinv_clients p Hp i ph Hi') as H. destruct ph as [| | | |e|[e|]]; try done. by apply Hkeep.
    + by apply Hdone.
    + by apply Hfail.
    + exact (pinv_clients p Hp i _ Hi').
  - destruct l as [|e|i|i|i|i e|o]; try (rewrite Hend; pose proof (pinv_server p Hp) as H;
      destruct (server_end (threads p)) as [[e'|]|]; [exact H|exact H|rewrite Hserver by done; exact H]).
    destruct Hend as (_ & _ & -> & _). by destruct o.
  - done.
  - intros e Hl. pose proof (threads_reachable_inv _ _ (pinv_threads p Hp)) as Hinv.
    destruct (step_leaves _ _ _ _ _ Hinv Hstep Hl) as [Hl'| ->]; [by apply (pinv_leaves p Hp)|].
    unfold possible in Hpos. unfold creation_failed.
    assert (system_error e = true -> exists errno, e = SystemError errno) as Hsys
      by (intros Hsys; destruct e as [| | | | |errno|]; try done; by exists errno).
    destruct the_vectors as [e'|]; [|by right; apply Hsys].
    destruct (before_clients _); [|by right; apply Hsys]. apply bool_decide_eq_true in Hpos as ->. by left.
Qed.

Lemma Stop_kept st :
  tidy st /\ kept (own_fds server) h1 st ->
  wp (Stop fuel) (fun _ st => tidy st /\ kept (own_fds server) h1 st) (fun o _ => o = None) st.
Proof.
  intros [Ht Hk].
  eapply wp_mono; [eapply wp_follows; [apply Stop_follows, kept_reading|exact Hk|by apply Stop_tidy]|done|].
  by intros o st' [[-> _] _].
Qed.

Lemma commit_spec o r p p' (Q : Process -> Prop) :
  r <> Undefined -> Q p ->
  (match r, o with Return _, None => True | Throw e, Some e' => e = e' | _, _ => False end -> Q p') ->
  wp (commit o r p') (fun _ => Q) (fun _ _ => False) p.
Proof.
  intros Hr Hp Hp'. unfold wp, commit. destruct r as [[]|e| |], o as [e'|]; try done.
  - by apply Hp'.
  - case_bool_decide; [by apply Hp'|done].
Qed.

Lemma process_step_inv l p :
  process_inv p ->
  wp (process_step (SysC := SysC) inet_pton clock allocates fuel turns config (EpollEchoServer_port server) l)
    (fun _ => process_inv) (fun _ _ => False) p.
Proof.
  intros Hp. unfold wp at 1, process_step. destruct (possible _ _ _ _) eqn:Hpos; [|done].
  destruct (threads_step _ _ _) as [t|] eqn:Hstep; [|done].
  pose proof (pinv_length p Hp) as Hlen. pose proof (pinv_later p Hp) as Hold.
  pose proof (step_server _ _ _ _ Hstep) as Hend.
  assert (forall i : nat, client_phases (threads p) !! i = Some (Ended None) ->
    client_done (latencies_seconds p) i -> client_done (latencies_seconds p) i) as Hsame by done.
  assert (match l with StepMain | StepSpawnFail _ | StepClient _ | StepServe _ => True | _ => False end ->
    process_inv (with_threads t p)) as Hplain.
  { intros Hl. apply (process_inv_step l p); try done; try (by intros; subst l). by destruct l. }
  assert (match l with StepMain | StepSpawnFail _ => True | _ => False end ->
    wp (main_moves fuel t p) (fun _ => process_inv) (fun _ _ => False) p) as Hmain.
  { intros Hl. unfold main_moves. destruct (late_stop _ _) eqn:Hlate; [|by apply Hplain; destruct l].
    destruct (Stop fuel (server_state p)) as [r st] eqn:Hstop.
    pose proof (wp_run _ _ _ _ _ _ (Stop_kept _ Hold) Hstop) as Hst. apply commit_spec; [by intros ->|done|].
    intros Hr. destruct r; try done. apply (process_inv_step l p); try done; try (by intros; subst l).
    unfold late_stop in Hlate. destruct l; try done.
    all: intros Hnone; rewrite Hend, Hnone in Hlate; by rewrite andb_false_r in Hlate. }
  assert (forall i o, (i < Z.to_nat (clients config))%nat ->
    match l with StepRun j => i = j /\ o = None | StepFail j e => i = j /\ o = Some e | _ => False end ->
    client_phases (threads p) !! i <> Some (Ended None) ->
    let '(r, st) := RunOf i (latencies_seconds p) in
    wp (commit o r (with_latencies (self st) (with_threads t p))) (fun _ => process_inv) (fun _ _ => False) p) as Hclient.
  { intros i o Hi Hl Hne. destruct (RunOf i (latencies_seconds p)) as [r s] eqn:Hr.
    destruct (run_client_spec i _ r s Hi Hlen Hr) as [Hdef Hown]. apply commit_spec; [done|done|]. intros Ho.
    assert (forall j, i <> j -> client_done (latencies_seconds p) j -> client_done (self s) j) as Hothers.
    { intros j Hj (before & s' & Hb & Hrun' & Hk). exists before, s'. do 2 (split; [done|]). intros k Hs.
      rewrite <- Hk by done. by eapply client_slots_disjoint. }
    apply (process_inv_step l p); try done.
    - unfold len in *. destruct Hown as [-> _]. done.
    - intros j Hj. apply Hothers. by intros ->.
    - intros j ->. destruct Hl as [-> ->]. destruct r as [[]| | |]; try done. by exists (latencies_seconds p), s.
    - intros j e ->. destruct Hl as [-> ->]. destruct r; try done. subst. by exists (latencies_seconds p), s.
    - by destruct l. }
  destruct l as [|e|i|i|i|i e|o].
  - exact (Hmain I).
  - exact (Hmain I).
  - exact (Hplain I).
  - exact (Hplain I).
  - assert (client_phases (threads p) !! i = Some Answered) as Hi by (by eapply step_run).
    specialize (Hclient i None (phase_bound p i _ Hp Hi) ltac:(done) ltac:(congruence)).
    destruct (RunOf i _) as [r st]. exact Hclient.
  - assert (client_phases (threads p) !! i = Some Running) as Hi by (by eapply step_fail).
    specialize (Hclient i (Some e) (phase_bound p i _ Hp Hi) ltac:(done) ltac:(congruence)).
    destruct (RunOf i _) as [r st]. exact Hclient.
  - destruct Hend as (Hnone & _ & Hend & _). pose proof (pinv_server p Hp) as Hs. rewrite Hnone in Hs. rewrite Hs.
    destruct ServerRun as [r st] eqn:Hr. destruct (Hrun r st eq_refl) as [Hdef Hst].
    apply (commit_spec o r p _ process_inv); [done|done|].
    intros Ho. apply (process_inv_step (StepServer o) p); try done.
    + apply Hst. by destruct r, o.
    + destruct r as [[]|e| |], o as [e'|]; try done; [by exists st|]. subst. by exists st.
Qed.

Lemma run_schedule_inv ls p :
  process_inv p ->
  wp (run_schedule (SysC := SysC) inet_pton clock allocates fuel turns config (EpollEchoServer_port server) ls)
    (fun _ => process_inv) (fun _ _ => False) p.
Proof.
  revert p. induction ls as [|l ls IH]; intros p Hp; simpl; [by apply wp_ret|].
  eapply wp_call; [by apply process_step_inv| |done]. intros [] p' Hp'. by apply IH.
Qed.

Lemma total_exact : u64 total = total.
Proof.
  apply u64_id. destruct Hfits as [Hmax _]. destruct Hc as (? & ? & _). unfold u64_max, is_u64 in *. nia.
Qed.

Lemma process_start_inv : process_inv (Process_start config (mkSt server h1)).
Proof.
  split; cbn [threads latencies_seconds server_state Process_start]; try done.
  - apply rtc_refl.
  - unfold len, Process_start. cbn [latencies_seconds]. rewrite length_replicate, total_exact. destruct Hc as (? & ? & _). nia.
  - intros e (_ & _ & [H|H]); done.
Qed.

(** ** How the threads end *)

(** The threads run to [p]. *)
Definition ran_to (p : Process) : Prop :=
  run_schedule (SysC := SysC) inet_pton clock allocates fuel turns config (EpollEchoServer_port server) schedule
    (Process_start config (mkSt server h1)) = (Return tt, p).

(** The exception [e] leaves the threads, which ended as [t]: no vector, no thread,
    or the server's or a client's code threw it. *)
Inductive cause (t : Threads) : Exception -> Prop :=
| cause_vector e : client_phases t = [] -> the_vectors = Some e -> cause t e
| cause_thread errno : client_phases t = [] -> cause t (SystemError errno)
| cause_server e st : server_end t = Some (Some e) -> ServerRun = (Throw e, st) -> cause t e
| cause_client i e st :
    ServerRun = (Return tt, st) -> client_phases t !! i = Some (Ended (Some e)) -> client_failed i e -> cause t e.

Definition unfinished (t : Threads) : Prop := ~ gone t /\ forall r, main_phase t <> Done r.

Lemma process_failed p e : process_inv p -> main_phase (threads p) = Done (Some e) -> cause (threads p) e.
Proof.
  intros Hp Hd. pose proof (pinv_server p Hp) as Hs.
  destruct (threads_done _ _ _ (pinv_threads p Hp) Hd) as [(Hnil & Hst & _)|(_ & _ & Hend)].
  - destruct (pinv_leaves p Hp e) as [H|[errno ->]]; [by split_and!; [..|right]|by apply cause_vector|by apply cause_thread].
  - destruct (server_end (threads p)) as [[e'|]|] eqn:Hse; [| |done].
    + injection Hend as <-. destruct Hs as [st Hs]. by eapply cause_server.
    + apply list_elem_of_lookup in Hend as [i Hi]. destruct Hs as [st Hs].
      eapply cause_client; [exact Hs|exact Hi|exact (pinv_clients p Hp i _ Hi)].
Qed.

Lemma process_succeeded p :
  process_inv p -> main_phase (threads p) = Done None ->
  (exists st, ServerRun = (Return tt, st)) /\
  (forall i, (i < Z.to_nat (clients config))%nat -> client_done (latencies_seconds p) i) /\ the_vectors = None.
Proof.
  intros Hp Hd. pose proof (pinv_server p Hp) as Hs.
  destruct (threads_done _ _ _ (pinv_threads p Hp) Hd) as [(_ & _ & e & [=])|(_ & Hlen & Hend)].
  destruct (server_end (threads p)) as [[e|]|]; try done. split; [done|]. split.
  - intros i Hi. destruct (lookup_lt_is_Some_2 (client_phases (threads p)) i) as [ph Hph]; [lia|].
    assert (ph = Ended None) as -> by by eapply Hend, list_elem_of_lookup_2.
    exact (pinv_clients p Hp i _ Hph).
  - apply (pinv_vectors p Hp). intros Hnil. rewrite Hnil in Hlen. destruct Hc as (? & _). simpl in Hlen. lia.
Qed.

Lemma run_threads_spec : exists p, ran_to p /\ process_inv p /\
  match run_threads (SysC := SysC) inet_pton clock allocates fuel turns schedule config (EpollEchoServer_port server)
    (mkSt server h1) with
  | (Return (Some latencies), st) => main_phase (threads p) = Done None /\ latencies = latencies_seconds p /\
      tidy st /\ kept (own_fds server) h1 st
  | (Return None, _) => main_phase (threads p) = Terminated
  | (Throw e, st) => main_phase (threads p) = Done (Some e) /\ tidy st /\ kept (own_fds server) h1 st
  | (Undefined, _) => main_phase (threads p) = Corrupt
  | (OutOfFuel, _) => unfinished (threads p) \/ exists st, fst (Stop fuel st) = OutOfFuel
  end.
Proof.
  pose proof (run_schedule_inv schedule _ process_start_inv) as H. unfold wp in H. unfold ran_to, run_threads.
  destruct (run_schedule _ _ _ _ _ _ _ _ _) as [[[]|e| |] p]; try done. exists p. split; [done|]. split; [done|].
  pose proof (Stop_kept _ (pinv_later p H)) as Hstop.
  destruct (main_phase (threads p)) as [| | | | | | |[e|]| |] eqn:Hph; try by (left; split; [intros [|]|]; congruence).
  - pose proof (pinv_later p H) as [Ht Hk]. destruct (start (threads p)); [|by split_and!].
    unfold wp, mbind, M_bind in *. destruct (Stop fuel (server_state p)) as [[]] eqn:Heq; try done.
    right. exists (server_state p). by rewrite Heq.
  - pose proof (pinv_later p H) as [Ht Hk]. by split_and!.
  - done.
  - done.
Qed.
End Threads.

(** ** How the process ends *)

Section Main.
Context (mask0 : gset Z) (hardware_concurrency : Z) (argv : list string).

Abbreviation begun := (mkSt console_new []).
Abbreviation the_main := (main (SysC := SysC) inet_pton clock started finished allocates strerror fuel turns schedule
  mask0 hardware_concurrency argv begun).

(** The command line is read as [config]. *)
Definition reads_as (config : BenchmarkConfig) : Prop :=
  ~ help argv /\ ParseArgs hardware_concurrency argv begun = (Return config, begun).

(** The server is constructed, and the threads run to [p]. *)
Definition went_to (config : BenchmarkConfig) (server : EpollEchoServer) (mask : ShutdownSignalMaskState)
    (h1 : History) (p : Process) : Prop :=
  reads_as config /\
  EpollEchoServer_construct mask0 0 (server_options config) begun = (Return (server, mask), mkSt console_new h1) /\
  ran_to config server h1 p.

(** What is printed when [e] ends the process. *)
Definition failed (e : Exception) : Console :=
  {| cout := ""; cerr := usage +:+ "pulsecore_epoll_benchmark: " +:+ what strerror e +:+ newline |}.

(** What is printed of the latencies that the clients stored. *)
Definition reported (config : BenchmarkConfig) (latencies : list double) (c : Console) : Prop :=
  exists template p50 p95 p99 most,
    (forall s : St Console, BuildClientRequestTemplate 0 config s = (Return template, s)) /\ template_ok template /\
    len latencies = clients config * requests_per_client config /\
    nearest_rank latencies 50 p50 /\ nearest_rank latencies 95 p95 /\ nearest_rank latencies 99 p99 /\
    (most ∈ latencies /\ forall y, y ∈ latencies -> double_le y most) /\
    c = {| cout := report_text config template (seconds started finished) p50 p95 p99 most; cerr := "" |}.

(** The exit code and the output: for [--help]; for a command line that is not
    accepted; for a server that cannot be constructed; for threads that end with an
    exception; and for threads that end without one: then [Run] has returned, and so
    has the code of every client, which stored its latencies. *)
Inductive exits : Z -> Console -> Prop :=
| exits_help : help argv -> exits 0 {| cout := ""; cerr := usage |}
| exits_arguments e :
    ~ help argv -> ParseArgs hardware_concurrency argv begun = (Throw e, begun) -> exits 1 (failed e)
| exits_start config e st1 :
    reads_as config -> EpollEchoServer_construct mask0 0 (server_options config) begun = (Throw e, st1) ->
    exits 1 (failed e)
| exits_threads config server mask h1 p e :
    went_to config server mask h1 p -> main_phase (threads p) = Done (Some e) ->
    cause config server h1 (threads p) e -> exits 1 (failed e)
| exits_report config server mask h1 p st c :
    went_to config server mask h1 p -> main_phase (threads p) = Done None ->
    Run default_handler fuel turns (mkSt server h1) = (Return tt, st) ->
    (forall i, (i < Z.to_nat (clients config))%nat -> client_done config server (latencies_seconds p) i) ->
    reported config (latencies_seconds p) c -> exits 0 c.

(** Why [main] does not get on: the threads have not ended, or a loop of a
    destructor has not. *)
Definition stuck : Prop := exists config server mask h1 p,
  went_to config server mask h1 p /\
  (unfinished (threads p) \/ exists st, fst (Stop fuel st) = OutOfFuel \/
     fst (EpollEchoServer_destroy default_handler fuel mask st) = OutOfFuel).

Context (Hmemory : forall n, allocates n = true -> n <= 2 ^ 57).

(** A server constructed for [config]. *)
Section Constructed.
Context (config : BenchmarkConfig) (server : EpollEchoServer) (mask : ShutdownSignalMaskState) (h1 : History).
Context (Hreads : reads_as config) (Hc : config_ok config) (Hfits : config_fits config).
Context (Hopt : options_wf (server_options config)).
Context (Hstart : EpollEchoServer_construct mask0 0 (server_options config) begun =
  (Return (server, mask), mkSt console_new h1)).

Abbreviation the_threads := (run_threads (SysC := SysC) inet_pton clock allocates fuel turns schedule config
  (EpollEchoServer_port server) (mkSt server h1)).

Lemma threads_spec : exists p, went_to config server mask h1 p /\ process_inv config server h1 p /\
  match the_threads with
  | (Return (Some latencies), st) => main_phase (threads p) = Done None /\ latencies = latencies_seconds p /\
      later server (mkSt console_new h1) st
  | (Return None, _) => main_phase (threads p) = Terminated
  | (Throw e, st) => main_phase (threads p) = Done (Some e) /\ later server (mkSt console_new h1) st
  | (Undefined, _) => main_phase (threads p) = Corrupt
  | (OutOfFuel, _) => unfinished (threads p) \/ exists st, fst (Stop fuel st) = OutOfFuel
  end.
Proof.
  destruct (run_threads_spec config server h1 Hc Hfits) as (p & Hp & Hinv & H).
  - exact (built_later mask0 default_handler 0 (server_options config) console_new server mask (mkSt console_new h1) Hopt Hstart).
  - exact (run_later mask0 default_handler fuel turns 0 (server_options config) console_new server mask
      (mkSt console_new h1) Hopt Hstart).
  - exists p. split; [by split_and!|]. split; [done|]. exact H.
Qed.

(** What is left when the scope of [server_thread] is left, in the block of the
    server. *)
Definition after_threads (p : Process) (ending : Ending) (s : St (Console * EpollEchoServer)) : Prop :=
  match ending with
  | Exited code => code = 0 /\ main_phase (threads p) = Done None /\
      reported config (latencies_seconds p) (self s).1 /\ later server (mkSt console_new h1) (mkSt (self s).2 (hist s))
  | Aborted => main_phase (threads p) = Terminated /\ (self s).1 = console_new
  end.
Definition after_failure (p : Process) (o : option Exception) (s : St (Console * EpollEchoServer)) : Prop :=
  match o with
  | Some e => main_phase (threads p) = Done (Some e) /\ (self s).1 = console_new /\
      later server (mkSt console_new h1) (mkSt (self s).2 (hist s))
  | None => stuck
  end.


Lemma stuck_if p st : went_to config server mask h1 p ->
  unfinished (threads p) \/ fst (Stop fuel st) = OutOfFuel \/
  fst (EpollEchoServer_destroy default_handler fuel mask st) = OutOfFuel -> stuck.
Proof. intros Hp H. exists config, server, mask, h1, p. split; [done|]. destruct H as [H|H]; [by left|right; by exists st]. Qed.

(** The vector of latencies is in memory. *)
Lemma latencies_fit p :
  process_inv config server h1 p -> vectors allocates config = None -> fits_memory (latencies_seconds p).
Proof.
  intros Hp Hv. unfold fits_memory. rewrite (pinv_length _ _ _ _ Hp). unfold vectors in Hv.
  rewrite (total_exact config Hc Hfits) in Hv. repeat case_match; try done.
  match goal with H : negb (allocates (sizeof_double * _)) = false |- _ =>
    apply negb_false_iff, Hmemory in H; unfold sizeof_double in H; lia end.
Qed.

Lemma client_built i latencies :
  (i < Z.to_nat (clients config))%nat -> client_done config server latencies i ->
  exists t, template_ok t /\ forall s : St Console, BuildClientRequestTemplate (Z.of_nat i) config s = (Return t, s).
Proof.
  intros Hi (before & s & Hlen & Hrun & _).
  pose proof (wp_run _ _ _ _ _ _ (RunClient_spec (Sys := SysC i) inet_pton (clock i) seconds config (Z.of_nat i)
    Hfits ltac:(lia) turns fuel (EpollEchoServer_port server) before [] Hc ltac:(lia) ltac:(done)) Hrun)
    as (fd & t & [Ht [s' Hs']] & _).
  exists t. split; [done|]. intros s2. by eapply template_anywhere.
Qed.

Lemma report_succeeds p h :
  process_inv config server h1 p -> main_phase (threads p) = Done None ->
  wp (report config (seconds started finished) (latencies_seconds p))
    (fun _ s => reported config (latencies_seconds p) (self s) /\ hist s = h) (fun _ _ => False) (mkSt console_new h).
Proof.
  intros Hp Hd. destruct (process_succeeded config server h1 Hc p Hp Hd) as (_ & Hclients & Hv).
  assert (0 < Z.to_nat (clients config))%nat as H0 by (destruct Hc; lia).
  destruct (client_built 0 _ H0 (Hclients 0%nat H0)) as (template & Ht & Hbuild).
  destruct (template_sizes template Ht) as [Hreq Hresp].
  pose proof (pinv_length _ _ _ _ Hp) as Hlen.
  eapply wp_mono with (E := fun _ _ => False); [apply (report_spec config (seconds started finished) (latencies_seconds p) template);
    [done|done|exact Hlen|by eapply latencies_fit|exact Hbuild|done|done]| |done].
  intros _ s (p50 & p95 & p99 & most & -> & R50 & R95 & R99 & Hmost). split; [|done].
  by exists template, p50, p95, p99, most.
Qed.

Lemma on_server_later {A} (m : M (St EpollEchoServer) A) p (c : Console) s h :
  went_to config server mask h1 p ->
  (wp m (fun _ st => later server (mkSt console_new h1) st) (fun o _ => o = None) (mkSt s h)) ->
  (fst (m (mkSt s h)) = OutOfFuel -> stuck) ->
  wp (on_server m) (fun _ st => (self st).1 = c /\ later server (mkSt console_new h1) (mkSt (self st).2 (hist st)))
    (fun o _ => o = None /\ stuck) (mkSt (c, s) h).
Proof.
  intros Hp Hm Hf. apply wp_on_server. unfold wp in *. destruct (m _) as [[a|e| |] [s' h']]; try done.
  split; [done|]. by apply Hf.
Qed.

Lemma measure_spec p :
  went_to config server mask h1 p -> process_inv config server h1 p ->
  match the_threads with
  | (Return (Some latencies), st) => main_phase (threads p) = Done None /\ latencies = latencies_seconds p /\
      later server (mkSt console_new h1) st
  | (Return None, _) => main_phase (threads p) = Terminated
  | (Throw e, st) => main_phase (threads p) = Done (Some e) /\ later server (mkSt console_new h1) st
  | (Undefined, _) => False
  | (OutOfFuel, _) => unfinished (threads p) \/ exists st, fst (Stop fuel st) = OutOfFuel
  end ->
  wp (measure (SysC := SysC) inet_pton clock started finished allocates fuel turns schedule config)
    (after_threads p) (after_failure p) (mkSt (console_new, server) h1).
Proof.
  intros Hp Hinv H. unfold measure. apply wp_bind, wp_get_self. cbn [self snd].
  eapply wp_call with (Q1 := fun ran s => (self s).1 = console_new /\
      match ran with
      | Some latencies => main_phase (threads p) = Done None /\ latencies = latencies_seconds p /\
          later server (mkSt console_new h1) (mkSt (self s).2 (hist s))
      | None => main_phase (threads p) = Terminated
      end) (E1 := after_failure p); [| |done].
  { apply wp_on_server. unfold wp. destruct the_threads as [[[latencies|]|e| |] [s h]]; try done.
    { by destruct H as [Hd Hl]. }
    destruct H as [H|[st H]]; [apply (stuck_if p (mkSt s h) Hp); by left|apply (stuck_if p st Hp); right; by left]. }
  intros [latencies|] [[c s] h] [Hcon Hst]; simpl in Hcon, Hst; subst c; [|by apply wp_ret].
  destruct Hst as (Hd & -> & Hst).
  assert (forall c st, later server (mkSt console_new h1) (mkSt (self st).2 (hist st)) -> (self st).1 = c ->
    wp (on_server (Stop fuel))
      (fun _ st => (self st).1 = c /\ later server (mkSt console_new h1) (mkSt (self st).2 (hist st)))
      (fun o _ => o = None /\ stuck) st) as Hstop.
  { intros c [[c' s'] h'] Hl Hc'. simpl in Hl, Hc'. subst c'. apply (on_server_later _ p); [done| |].
    - eapply wp_mono; [by eapply Stop_later|done|by intros o st [-> _]].
    - intros Hf. eapply stuck_if; [exact Hp|right; by left]. }
  eapply wp_call with (Q1 := fun _ st => reported config (latencies_seconds p) (self st).1 /\
    later server (mkSt console_new h1) (mkSt (self st).2 (hist st))) (E1 := after_failure p); [| |done].
  { apply wp_on_exception. eapply wp_zoom; [done|]. cbn [hist fst snd].
    eapply wp_mono; [by apply report_succeeds| |done]. intros _ [c h'] [Hr ->]. by split. }
  intros [] st [Hr Hl]. eapply wp_call; [by apply (Hstop (self st).1)| |by intros o st' [-> ?]].
  intros [] st' [Heq Hl']. apply wp_ret. split; [done|]. rewrite Heq. by split_and!.
Qed.

(** *** The scope of the server *)

Definition exits_as (ending : Ending) (st : St Console) : Prop :=
  match ending with
  | Exited code => clean mask0 (hist st) /\ exits code (self st)
  | Aborted => self st = console_new /\ exists p, went_to config server mask h1 p /\ main_phase (threads p) = Terminated
  end.

Lemma destroy_spec_in_block p (c : Console) s h :
  went_to config server mask h1 p -> later server (mkSt console_new h1) (mkSt s h) ->
  wp (on_server (EpollEchoServer_destroy default_handler fuel mask))
    (fun _ st => clean mask0 (hist st) /\ (self st).1 = c) (fun o _ => o = None /\ stuck) (mkSt (c, s) h).
Proof.
  intros Hp Hl.
  pose proof (destroy_in_block mask0 fuel 0 (server_options config) console_new server mask (mkSt console_new h1)
    Hopt Hstart c (mkSt s h) Hl) as H. unfold wp in *. cbn [self hist] in H.
  pose proof (on_server_fuel (EpollEchoServer_destroy default_handler fuel mask) c s h) as Hf.
  destruct (on_server _ _) as [[a|e| |] st]; try done.
  - by destruct H as (H1 & _ & H2).
  - split; [done|]. eapply stuck_if; [exact Hp|]. right. right. by apply Hf.
Qed.

Lemma with_server_spec p :
  went_to config server mask h1 p -> process_inv config server h1 p ->
  wp (measure (SysC := SysC) inet_pton clock started finished allocates fuel turns schedule config)
    (after_threads p) (after_failure p) (mkSt (console_new, server) h1) ->
  wp (with_server fuel server mask
       (measure (SysC := SysC) inet_pton clock started finished allocates fuel turns schedule config))
    exits_as
    (fun o st => match o with
       | Some e => clean mask0 (hist st) /\ self st = console_new /\ exits 1 (failed e)
       | None => stuck end) (mkSt console_new h1).
Proof.
  intros Hp Hinv Hmeasure.
  assert (wp (server_block fuel mask
       (measure (SysC := SysC) inet_pton clock started finished allocates fuel turns schedule config))
    (fun ending st => exits_as ending (mkSt (self st).1 (hist st)))
    (fun o st => match o with
       | Some e => clean mask0 (hist st) /\ (self st).1 = console_new /\ exits 1 (failed e)
       | None => stuck end) (mkSt (console_new, server) h1)) as H.
  2: { unfold wp, with_server in *. cbn [self hist]. by destruct (server_block _ _ _ _) as [[] st]. }
  set (E := fun o (st : St (Console * EpollEchoServer)) => match o with
    | Some e => clean mask0 (hist st) /\ (self st).1 = console_new /\ exits 1 (failed e)
    | None => stuck end).
  eapply wp_call with (Q1 := after_threads p) (E1 := E);
    [apply wp_on_exception; eapply wp_mono; [exact Hmeasure|done|]| |done].
  - intros [e|] [[c s] h] H; [|exact H]. destruct H as (Hd & Hcon & Hl). simpl in Hcon, Hl. subst c.
    eapply wp_mono; [by eapply (destroy_spec_in_block p)| |by intros o st [-> ?]].
    intros _ st [Hclean Hcon]. split; [done|]. split; [done|].
    eapply exits_threads; [exact Hp|exact Hd|]. by apply (process_failed config server h1).
  - intros [code|] [[c s] h] H; simpl in H.
    + destruct H as (-> & Hd & Hr & Hl). simpl in Hr, Hl.
      eapply wp_call; [by eapply (destroy_spec_in_block p)| |by intros o st [-> ?]].
      intros [] st [Hclean Hcon]. apply wp_ret. split; [done|]. simpl. rewrite Hcon.
      destruct (process_succeeded config server h1 Hc p Hinv Hd) as ([st' Hrun] & Hclients & _).
      by eapply exits_report.
    + destruct H as [Ht ->]. apply wp_ret. split; [done|]. by exists p.
Qed.

(** The threads' undefined behaviour is that of [main]. *)
Lemma undefined_threads st :
  the_threads = (Undefined, st) -> fst the_main = Undefined.
Proof.
  intros H. destruct Hreads as [Hno Hparse]. unfold main, try_catch.
  destruct (_ && _) eqn:Hhelp; [by apply help_spec in Hhelp|].
  rewrite (bind_return _ _ _ _ _ Hparse), (bind_return _ _ _ _ _ Hstart).
  unfold with_server, server_block, measure, on_server, zoom, on_exception, mbind, M_bind, get_self.
  simpl. by rewrite H.
Qed.
End Constructed.

Lemma server_options_wf config : config_ok config -> is_u64 (workers config) -> options_wf (server_options config).
Proof.
  intros Hc Hw. pose proof (is_u64_u64 (clients config * 8)) as Hu. unfold options_wf, server_options.
  split; [exact Hw|]. split; [cbn [options_work_queue_capacity]; unfold is_u64 in *; lia|].
  split_and!; by_decide.
Qed.

Context (Hconcurrency : is_u32 hardware_concurrency).

(** The behaviour of the threads is undefined: [Run] threw too early. *)
Definition corrupt : Prop := exists config server mask h1 p e st,
  went_to config server mask h1 p /\ main_phase (threads p) = Corrupt /\
  Run default_handler fuel turns (mkSt server h1) = (Throw e, st).

Definition aborted (st : St Console) : Prop := self st = console_new /\ exists config server mask h1 p,
  went_to config server mask h1 p /\ main_phase (threads p) = Terminated.

Definition main_ends (ending : Ending) (st : St Console) : Prop :=
  match ending with Exited code => clean mask0 (hist st) /\ exits code (self st) | Aborted => aborted st end.

Lemma construct_returns config server mask st1 :
  EpollEchoServer_construct mask0 0 (server_options config) begun = (Return (server, mask), st1) ->
  st1 = mkSt console_new (hist st1).
Proof.
  intros H. pose proof (construct_same mask0 0 (server_options config) console_new begun eq_refl) as Hs.
  rewrite H in Hs. unfold same in Hs. destruct st1. simpl in *. by subst.
Qed.

Lemma parsed_config config :
  ParseArgs hardware_concurrency argv begun = (Return config, begun) ->
  config_ok config /\ config_fits config /\ options_wf (server_options config).
Proof.
  intros Hparse. pose proof (wp_run _ _ _ _ _ _ (bench_ParseArgs_spec hardware_concurrency argv begun) Hparse)
    as (_ & Hc & Hfits & Hw). split; [done|]. split; [done|]. by apply server_options_wf, Hw.
Qed.

(** The middle of [main]: a server that was constructed. *)
Lemma with_server_ends config server mask h1 :
  reads_as config ->
  EpollEchoServer_construct mask0 0 (server_options config) begun = (Return (server, mask), mkSt console_new h1) ->
  wp (with_server fuel server mask
       (measure (SysC := SysC) inet_pton clock started finished allocates fuel turns schedule config))
    main_ends
    (fun o st => match o with
       | Some e => clean mask0 (hist st) /\ self st = console_new /\ exits 1 (failed e)
       | None => stuck end) (mkSt console_new h1) \/
  fst the_main = Undefined /\ corrupt.
Proof.
  intros Hreads Hstart. pose proof Hreads as [_ Hparse]. destruct (parsed_config config Hparse) as (Hc & Hfits & Hopt).
  destruct (threads_spec config server mask h1 Hreads Hc Hfits Hopt Hstart) as (p & Hp & Hinv & H).
  destruct (run_threads _ _ _ _ _ _ _ _ _) as [r st] eqn:Hthreads.
  assert (r <> Undefined -> wp (measure (SysC := SysC) inet_pton clock started finished allocates fuel turns schedule config)
    (after_threads config server h1 p) (after_failure server h1 p) (mkSt (console_new, server) h1)) as Hmeasure.
  { intros Hr. eapply measure_spec; [done..|]. rewrite Hthreads. by destruct r. }
  assert (r = Undefined \/ r <> Undefined) as [->|Hr] by (destruct r; auto).
  - right. split; [by eapply undefined_threads|].
    pose proof (inv_main _ _ (threads_reachable_inv _ _ (pinv_threads _ _ _ _ Hinv))) as Hm.
    unfold main_inv in Hm. rewrite H in Hm. destruct Hm as (_ & _ & e & He).
    pose proof (pinv_server _ _ _ _ Hinv) as Hs. rewrite He in Hs. destruct Hs as [st' Hs].
    by exists config, server, mask, h1, p, e, st'.
  - left. specialize (Hmeasure Hr). eapply wp_mono; [by eapply (with_server_spec config server mask h1)| |done].
    intros [code|] st' H'; [exact H'|]. destruct H' as [Hcon (p' & Hp' & Ht)]. split; [done|].
    by exists config, server, mask, h1, p'.
Qed.

Lemma benchmark_main_spec :
  wp (main (SysC := SysC) inet_pton clock started finished allocates strerror fuel turns schedule mask0
        hardware_concurrency argv) main_ends (fun o _ => o = None /\ stuck) begun \/
  fst the_main = Undefined /\ corrupt.
Proof.
  set (E := fun o (st : St Console) => match o with
    | Some e => clean mask0 (hist st) /\ self st = console_new /\ exits 1 (failed e)
    | None => stuck end).
  assert (forall m, wp m main_ends E begun ->
    wp (try_catch m (fun error => PrintUsage ;;
      err ("pulsecore_epoll_benchmark: " +:+ what strerror error +:+ newline) ;; mret (Exited 1)))
      main_ends (fun o _ => o = None /\ stuck) begun) as Hcatch.
  { intros m Hm. apply wp_try_catch. eapply wp_mono; [exact Hm|done|]. intros [e|] [c h] H; [|by split].
    destruct H as (Hclean & Hcon & Hexit). simpl in Hcon. subst c.
    apply wp_bind, wp_print_error, wp_bind, wp_print_error, wp_ret. by split. }
  unfold main at 1. destruct (_ && _) eqn:Hhelp.
  { left. apply Hcatch. apply help_spec in Hhelp. apply wp_bind, wp_print_error, wp_ret.
    split; [apply clean_nil|by apply exits_help]. }
  assert (~ help argv) as Hno by (rewrite <- help_spec; congruence).
  pose proof (bench_ParseArgs_spec hardware_concurrency argv begun) as Hspec. unfold wp in Hspec.
  destruct (ParseArgs hardware_concurrency argv begun) as [[config|e| |] st] eqn:Hparse; try done.
  3: by destruct Hspec as (_ & e & ?).
  2: { destruct Hspec as [-> _]. left. apply Hcatch. apply wp_bind. unfold wp. rewrite Hparse.
       split; [apply clean_nil|]. split; [done|by apply exits_arguments]. }
  destruct Hspec as [-> _]. pose proof (parsed_config config Hparse) as (_ & _ & Hopt).
  pose proof (construct_throws mask0 0 (server_options config) console_new Hopt) as Hstart. unfold wp in Hstart.
  destruct (EpollEchoServer_construct mask0 0 (server_options config) begun) as [[[server mask]|e| |] st1] eqn:Hs.
  - pose proof (construct_returns _ _ _ _ Hs) as Hst. rewrite Hst in Hs.
    destruct (with_server_ends config server mask (hist st1) ltac:(by split) Hs) as [H|H]; [left|by right].
    apply Hcatch. eapply wp_known; [exact Hparse|]. by eapply wp_known; [exact Hs|].
  - left. destruct Hstart as (Hclean & Hcon & _). apply Hcatch. eapply wp_known; [exact Hparse|].
    apply wp_bind. unfold wp. rewrite Hs. split; [done|]. split; [done|]. by eapply exits_start.
  - done.
  - by destruct Hstart as (_ & _ & e & ? & _).
Qed.
(** ** Properties *)

(** C24.  The whole process of the benchmark, in every interleaving of its threads.
    With [--help] as the only argument it prints the usage and exits with code 0.
    A command line that is not accepted, a server that cannot be constructed, a
    vector or a thread that cannot be created, an exception of the server's [Run],
    and an exception of a client's [RunClient] each make it exit with code 1, with
    nothing on the standard output, after the usage and the message of that
    exception.  Otherwise [Run] and the code of every client have returned, and it
    exits with code 0 after the report: the figures of the command line, the rates
    over the time between the two readings of the clock, and the nearest-rank
    percentiles and the greatest of the latencies that these runs of the clients
    stored.  However it exits, every descriptor of the server is closed and the
    signal mask is what it was.  It may also be terminated, with nothing printed,
    when some threads of clients are created and one is not; it may wait for ever for
    the threads ([stuck]); and its behaviour is undefined only if [Run] throws
    before [error_] is constructed.  No exception leaves [main]. *)
Theorem benchmark_main_exits :
  match the_main with
  | (Return (Exited code), st) => clean mask0 (hist st) /\ exits code (self st)
  | (Return Aborted, st) => aborted st
  | (Undefined, _) => corrupt
  | (OutOfFuel, _) => stuck
  | (Throw _, _) => False
  end.
Proof.
  destruct benchmark_main_spec as [H|[Hu Hc]].
  - unfold wp in H. destruct the_main as [[[code|]|e| |] st]; try done; by destruct H.
  - by destruct the_main as [r st]; simpl in Hu; subst r.
Qed.
End Main.
End Proofs.

(** ** Witness: one client makes one echo request *)

Definition report_argv : list string :=
  ["pulsecore_epoll_benchmark"; "--clients"; "1"; "--requests-per-client"; "1"; "--payload-size"; "1";
   "--workers"; "2"]%string.
Definition report_config : BenchmarkConfig :=
  {| clients := 1; requests_per_client := 1; BenchmarkMain.payload_size := 1; workers := 2;
     message_type := kEcho; work_iterations := 1000 |}.

Definition report_world : Script :=
  {| script_interrupts := 0;
     script_recv := [IoOk (frame {| type := kEchoResponse; request_id := 0; payload := [0] |})];
     script_send := []; script_accept := []; script_wait := []; script_setup := [] |}.
Definition report_clock (i : nat) (h : History) : Z := 700000 * len h.

Definition report_steps : list Step :=
  [StepMain; StepMain; StepMain; StepMain; StepClient 0; StepMain; StepClient 0; StepServe 0; StepRun 0;
   StepMain; StepMain; StepServer None; StepMain].

Definition report_memory (n : Z) : bool := n <=? 2 ^ 30.

#[local] Existing Instance ServerTheorems.sample_kernel.
#[local] Existing Instance ServerTheorems.sample_environment.
#[local] Existing Instance ServerTheorems.sample_environment_laws.

Abbreviation report_main := (main (SysC := fun _ => scripted report_world) sample_inet_pton report_clock
  0 2000000 report_memory (fun _ => "error"%string) 10 7 report_steps ∅ 8 report_argv (mkSt console_new [])).

(** The latencies the clients leave. *)
Definition report_latencies : list double :=
  match EpollEchoServer_construct ∅ 0 (server_options report_config) (mkSt console_new []) with
  | (Return (server, _), st) => latencies_seconds (snd (run_schedule (SysC := fun _ => scripted report_world)
      sample_inet_pton report_clock report_memory 10 7 report_config (EpollEchoServer_port server) report_steps
      (Process_start report_config (mkSt server (hist st)))))
  | _ => []
  end.

Lemma benchmark_main_exits_witness :
  fst report_main = Return (Exited 0) /\ clean ∅ (hist (snd report_main)) /\
  cerr (self (snd report_main)) = ""%string /\
  exists t p50 p95 p99 most, nearest_rank [seconds 0 1400000] 99 p99 /\
    cout (self (snd report_main)) = report_text report_config t (seconds 0 2000000) p50 p95 p99 most.
Proof.
  assert (fst report_main = Return (Exited 0)) as Hr by by_compute.
  assert (cerr (self (snd report_main)) = ""%string) as He by by_compute.
  assert (report_latencies = [seconds 0 1400000]) as Hl by by_compute.
  assert (forall n, report_memory n = true -> n <= 2 ^ 57) as Hmemory
    by (intros n Hn%Z.leb_le; pose proof (Z.pow_le_mono_r 2 30 57); lia).
  pose proof (benchmark_main_exits (SysC := fun _ => scripted report_world) sample_inet_pton report_clock
    0 2000000 report_memory (fun _ => "error"%string) 10 7 report_steps ∅ 8 report_argv Hmemory ltac:(by_decide)) as H.
  destruct report_main as [r st]. cbn [fst snd] in *. subst r. destruct H as [Hclean H].
  split; [reflexivity|]. split; [exact Hclean|]. split; [exact He|].
  destruct (self st) as [co ce] eqn:Hself. simpl in He. subst ce.
  inversion H as [| | | |config server mask h1 p st' c ((_ & Hparse) & Hstart & Hran) Hdone Hrun Hclients Hrep Hcode Hc].
  assert (ParseArgs 8 report_argv (mkSt console_new []) = (Return report_config, mkSt console_new [])) as Hconfig
    by by_compute.
  rewrite Hconfig in Hparse. injection Hparse as <-.
  assert (latencies_seconds p = [seconds 0 1400000]) as Hlat
    by (rewrite <- Hl; unfold report_latencies; rewrite Hstart; unfold ran_to in Hran; cbn [hist]; by rewrite Hran).
  rewrite Hlat in Hrep. destruct Hrep as (t & p50 & p95 & p99 & most & _ & _ & _ & _ & _ & H99 & _ & Hcon).
  exists t, p50, p95, p99, most. split; [exact H99|]. by injection Hcon.
Defined.
