(* ===== verification/UnitTests.v ===== *)
(** * The unit tests, evaluated on the model

    The tests of [tests/unit] as examples: what they assert of the compiled code
    holds of the definitions of the development.  One module per file, an example
    per test (or a few), named as the tests are.  A socket pair is a kernel whose
    socket holds the bytes the peer has sent so far. *)

From S2P Require Import Prelude Os Scripted UniqueFd Codec Handler BoundedQueue WorkerPool Connection.
From S2P Require Import ConnectionRegistry ServerTheorems.

Ltac test_passes := vm_compute; repeat split.

(** ** [protocol_codec_test.cpp] *)

Module ProtocolCodecTest.
Definition MakeHeader (magic version type payload_size request_id : Z) : list Byte :=
  AppendU64 (Codec.AppendU32 (AppendU16 (AppendU16 (Codec.AppendU32 [] magic) version) type) payload_size)
    request_id.

Definition EchoRequest (id : Z) (bytes : list Byte) : Message :=
  {| type := kEchoRequest; request_id := id; payload := bytes |}.
Definition EchoResponse (id : Z) (bytes : list Byte) : Message :=
  {| type := kEchoResponse; request_id := id; payload := bytes |}.
Definition EncodedEcho (id : Z) (bytes : list Byte) : list Byte :=
  default [] (EncodeMessage (EchoRequest id bytes)).

Definition rejects (bytes : list Byte) (e : ProtocolError) : Prop :=
  TryDecodeFrame bytes = Some (DecodeResult_Error e).

Example EncodesHeaderAsGoldenBigEndianBytes :
  EncodeMessage (EchoRequest 0x0102030405060708 [0x41; 0x42]) =
  Some [0x50; 0x55; 0x4C; 0x53; 0x00; 0x01; 0x00; 0x01; 0x00; 0x00; 0x00; 0x02;
        0x01; 0x02; 0x03; 0x04; 0x05; 0x06; 0x07; 0x08; 0x41; 0x42].
Proof. test_passes. Qed.

Example DecodesEncodedFrame :
  let encoded := EncodedEcho 42 [0xAA; 0xBB; 0xCC] in
  TryDecodeFrame encoded = Some (DecodeResult_Decoded (EchoRequest 42 [0xAA; 0xBB; 0xCC]) (len encoded)).
Proof. test_passes. Qed.

Example AllowsZeroPayloadFrame :
  (result ← TryDecodeFrame (EncodedEcho 7 []); m ← message result; Some (payload m)) = Some [].
Proof. test_passes. Qed.

(** The largest payload, and one byte more. *)
Example AllowsMaximumPayloadFrame :
  let bytes := replicate (Z.to_nat kMaxPayloadSize) 0x5A in
  bool_decide ((encoded ← EncodeMessage (EchoRequest 1 bytes); result ← TryDecodeFrame encoded;
                payload <$> message result) = Some bytes) = true.
Proof. test_passes. Qed.

Example EncodeRejectsOversizedPayload :
  EncodeMessage (EchoRequest 1 (replicate (Z.to_nat (kMaxPayloadSize + 1)) 0x00)) = None.
Proof. test_passes. Qed.

Example NeedsMoreDataForPartialHeader :
  TryDecodeFrame (replicate (Z.to_nat (kHeaderSize - 1)) 0x00) = Some DecodeResult_NeedMoreData.
Proof. test_passes. Qed.

Example NeedsMoreDataForPartialPayload :
  TryDecodeFrame (MakeHeader kMagic kVersion 1 3 9 ++ [0xAA; 0xBB]) = Some DecodeResult_NeedMoreData.
Proof. test_passes. Qed.

Example RejectsMalformedHeaders :
  rejects (MakeHeader 0xDEADBEEF kVersion 1 0 1) kInvalidMagic /\
  rejects (MakeHeader kMagic (kVersion + 1) 1 0 1) kUnsupportedVersion /\
  rejects (MakeHeader kMagic kVersion 0xFFFF 0 1) kUnknownMessageType /\
  rejects (MakeHeader kMagic kVersion 1 (kMaxPayloadSize + 1) 1) kPayloadTooLarge.
Proof. test_passes. Qed.

(** *** The incremental decoder *)

(** The bytes buffered after a result. *)
Definition next (d : FrameDecoder) : option (DecodeStatus * option Message * Z * FrameDecoder) :=
  '(result, d) ← FrameDecoder_Next d; Some (status result, message result, FrameDecoder_BufferedSize d, d).
Definition result_of (r : option (DecodeStatus * option Message * Z * FrameDecoder)) :
    option (DecodeStatus * option Message * Z) := fst <$> r.

Definition split_at (encoded : list Byte) (split : nat) :
    option (DecodeStatus * option Message * Z) * option (DecodeStatus * option Message * Z) :=
  let first := next (FrameDecoder_Append FrameDecoder_new (take split encoded)) in
  (result_of first,
   '(_, d) ← first; result_of (next (FrameDecoder_Append d (drop split encoded)))).

Example HandlesEverySplitPosition :
  let m := EchoRequest 99 [0x10; 0x20; 0x30; 0x40] in
  let encoded := EncodedEcho 99 [0x10; 0x20; 0x30; 0x40] in
  let decoded := Some (kDecoded, Some m, 0) in
  (split_at encoded <$> seq 0 (length encoded)) =
    ((fun split => (Some (kNeedMoreData, None, Z.of_nat split), decoded)) <$> seq 0 (length encoded)) /\
  fst (split_at encoded (length encoded)) = decoded.
Proof. test_passes. Qed.

Example HandlesMultipleFramesInOneBuffer :
  let r1 := next (FrameDecoder_Append FrameDecoder_new (EncodedEcho 1 [0x01] ++ EncodedEcho 2 [0x02; 0x03])) in
  let r2 := '(_, d) ← r1; next d in
  let r3 := '(_, d) ← r2; next d in
  result_of r1 = Some (kDecoded, Some (EchoRequest 1 [0x01]), 22) /\
  result_of r2 = Some (kDecoded, Some (EchoRequest 2 [0x02; 0x03]), 0) /\
  result_of r3 = Some (kNeedMoreData, None, 0).
Proof. test_passes. Qed.
End ProtocolCodecTest.
Import ProtocolCodecTest.

(** ** [handler_test.cpp] *)

Module HandlerTest.
Definition work (id : Z) (bytes : list Byte) : Message :=
  {| type := kWorkRequest; request_id := id; payload := bytes |}.

(** The type and the id of a response, and whether it has a payload. *)
Definition shape (r : option Message) : option (MessageType * Z * bool) :=
  (fun m => (type m, request_id m, negb (len (payload m) =? 0))) <$> r.

Example EchoRequestReturnsEchoResponseWithSameRequestIdAndPayload :
  HandleRequest (EchoRequest 42 [0x01; 0x02; 0x03]) = Some (EchoResponse 42 [0x01; 0x02; 0x03]) /\
  HandleOwnedRequest (EchoRequest 123 [0x10; 0x20]) = Some (EchoResponse 123 [0x10; 0x20]).
Proof. test_passes. Qed.

Example EncodeWorkRequestPayloadPrefixesBigEndianIterationCount :
  EncodeWorkRequestPayload 0x01020304 [0xAA; 0xBB] = [0x01; 0x02; 0x03; 0x04; 0xAA; 0xBB].
Proof. test_passes. Qed.

Example WorkRequestReturnsDeterministicDigest :
  HandleRequest (work 99 (EncodeWorkRequestPayload 3 [0xAA; 0xBB])) =
  Some {| type := kWorkResponse; request_id := 99;
          payload := [0xA2; 0x89; 0x7E; 0x00; 0x44; 0x62; 0x2F; 0x90] |}.
Proof. test_passes. Qed.

Example WorkRequestRejectsMissingIterationPrefix :
  shape (HandleRequest (work 100 [0xAA])) = Some (kErrorResponse, 100, true).
Proof. test_passes. Qed.

Example WorkRequestRejectsExcessiveWork :
  let seed_size := kMaxWorkUnits / kMaxWorkIterations + 1 in
  shape (HandleRequest (work 101 (EncodeWorkRequestPayload (kMaxWorkIterations + 1) []))) =
    Some (kErrorResponse, 101, true) /\
  shape (HandleRequest (work 102 (EncodeWorkRequestPayload kMaxWorkIterations
                                    (replicate (Z.to_nat seed_size) 0xAA)))) =
    Some (kErrorResponse, 102, true).
Proof. test_passes. Qed.

Example ResponseMessageFromClientReturnsErrorResponse :
  shape (HandleRequest (EchoResponse 77 [])) = Some (kErrorResponse, 77, true).
Proof. test_passes. Qed.
End HandlerTest.

(** ** [bounded_queue_test.cpp] *)

Module BoundedQueueTest.
(** A run with one consumer: the results of the calls of [Pop], and the consumer at the end. *)
Definition popped_by (capacity : Z) (ls : list (QueueStep Z)) : option (list Z * list Z * list ConsumerState) :=
  s ← queue_exec ls (queue_start capacity 1); Some (pushed s, popped s, consumers s).

Example TryPushAndPopPreserveFifoOrder :
  popped_by 2 [StepTryPush 1; StepTryPush 2; StepPop 0; StepPop 0] = Some ([1; 2], [1; 2], [Outside]).
Proof. test_passes. Qed.

Example TryPushFailsWhenQueueIsFull :
  popped_by 1 [StepTryPush 1; StepTryPush 2; StepPop 0] = Some ([1], [1], [Outside]).
Proof. test_passes. Qed.

Example TryPushFailsAfterClose : popped_by 1 [StepClose; StepTryPush 1] = Some ([], [], [Outside]).
Proof. test_passes. Qed.

Example PopDrainsQueuedItemsAfterClose :
  popped_by 1 [StepTryPush 7; StepClose; StepPop 0; StepPop 0] = Some ([7], [7], [Outside]).
Proof. test_passes. Qed.

(** The consumer blocks; the notification of [Close] wakes it and [Pop] returns. *)
Example CloseWakesBlockedPop :
  popped_by 1 [StepPop 0] = Some ([], [], [Waiting]) /\
  popped_by 1 [StepPop 0; StepClose; StepNotifyAll; StepPop 0] = Some ([], [], [Outside]).
Proof. test_passes. Qed.

Example RejectsZeroCapacity :
  BoundedQueue_make (T := Z) 0 = Throw (InvalidArgument "bounded queue capacity must be greater than zero").
Proof. test_passes. Qed.
End BoundedQueueTest.

(** ** [worker_pool_test.cpp] *)

Module WorkerPoolTest.
Definition config (workers capacity : Z) : WorkerPoolConfig :=
  {| worker_count := workers; queue_capacity := capacity |}.
Definition make (workers capacity : Z) (has_callback : bool) : Result WorkerPool :=
  WorkerPool_make (config workers capacity) has_callback true (fun _ => None).
Definition item : WorkItem :=
  {| item_connection_id := 7; item_sequence := 3; item_request := EchoRequest 42 [42] |}.
Definition throws : WorkHandler := fun _ => Throw (RuntimeError "boom").

(** What is accepted and completed in a run of a pool. *)
Definition run (handler : WorkHandler) (workers capacity : Z) (ls : list PoolStep) :
    option (nat * list (Result WorkResult) * bool) :=
  match make workers capacity true with
  | Return p => s ← pool_exec handler ls (pool_start p);
                Some (length (accepted s), completed s, Stop_joined (pool s))
  | _ => None
  end.

(** One item, run by worker [i], and the end of the workers after [Stop]. *)
Definition one_item (i : nat) (workers : list nat) : list PoolStep :=
  [PSubmit item; PWorker (WTake i); PWorker (WFinish i); PWorker (WReturn i); PStop] ++
  ((fun w => PWorker (WTake w)) <$> workers).

Example ProcessesSubmittedWorkAndInvokesCompletionCallback :
  let result := Return {| result_connection_id := 7; result_sequence := 3;
                          result_response := EchoResponse 42 [42] |} in
  run default_handler 2 4 (one_item 0 [0; 1]%nat) = Some (1%nat, [result], true) /\
  run default_handler 2 4 (one_item 1 [1; 0]%nat) = Some (1%nat, [result], true).
Proof. test_passes. Qed.

Example RejectsSubmissionsAfterStop :
  run default_handler 1 1 [PStop; PWorker (WTake 0); PSubmit item] = Some (0%nat, [], true).
Proof. test_passes. Qed.

Example ConvertsHandlerExceptionToErrorResponse :
  run throws 1 1 (one_item 0 [0]%nat) =
  Some (1%nat, [Return {| result_connection_id := 7; result_sequence := 3;
                          result_response := WorkerHandlerErrorResponse 42 |}], true).
Proof. test_passes. Qed.

Example RejectsInvalidConfiguration :
  make 0 1 true = Throw (InvalidArgument "worker count must be greater than zero") /\
  make 1 0 true = Throw (InvalidArgument "bounded queue capacity must be greater than zero") /\
  make 1 1 false = Throw (InvalidArgument "worker completion callback must be set").
Proof. test_passes. Qed.
End WorkerPoolTest.

(** ** A socket pair

    The socket of the connection: [arrived] is what the peer has sent so far,
    [peer_closed] whether it has closed its end; [recv] gives what was not yet
    received, [send] takes everything.  The flags of a descriptor are those last
    set. *)
Definition flags_of (fd : Z) : History -> Z :=
  foldl (fun flags e => match e with
    | EvSetFlags f set_to (IoOk _) => if f =? fd then set_to else flags
    | _ => flags end) 2.

Definition socket_pair (arrived : list Byte) (peer_closed : bool) : OS :=
  let nothing := scripted {| script_interrupts := 0; script_recv := []; script_send := []; script_accept := [];
                             script_wait := []; script_setup := [] |} in
  {| os_recv := fun h fd size =>
       match zdrop (len (all_received h)) arrived with
       | [] => if peer_closed then IoOk [] else IoErr EAGAIN
       | bytes => IoOk (ztake size bytes)
       end;
     os_send := fun h fd bytes => IoOk (len bytes);
     os_fcntl_getfl := fun h fd => IoOk (flags_of fd h);
     os_fcntl_setfl := fun h fd flags => IoOk tt;
     os_accept := os_accept (OS := nothing); os_epoll_ctl := os_epoll_ctl (OS := nothing);
     os_epoll_wait := os_epoll_wait (OS := nothing); os_read_counter := os_read_counter (OS := nothing);
     os_write_counter := os_write_counter (OS := nothing); os_read_signal := os_read_signal (OS := nothing);
     os_connect := os_connect (OS := nothing); os_setup := os_setup (OS := nothing) |}.

Definition quiet_pair : OS := socket_pair [] false.

(** ** [unique_fd_test.cpp] *)

Module UniqueFdTest.
(** The values held by the objects 1 and 2 after a run, and the descriptors closed. *)
Definition held (s : St Objects) : option Z * option Z := (fd_ <$> self s !! 1, fd_ <$> self s !! 2).
Definition after_ops (ops : list FdOp) : option (option Z * option Z * list Z * list Z) :=
  '(s, l) ← fd_run ops (mkSt ∅ []) {| handed := []; released := [] |};
  Some (held s, closed_fds (hist s), released l).

Example DefaultConstructedFdIsInvalid :
  UniqueFd_is_valid UniqueFd_default = false /\ UniqueFd_get UniqueFd_default = -1.
Proof. test_passes. Qed.

Example DestructorClosesOwnedFd : after_ops [OpConstruct 1 5; OpDestroy 1] = Some (None, None, [5], []).
Proof. test_passes. Qed.

Example MoveConstructorTransfersOwnership :
  after_ops [OpConstruct 1 5; OpMoveConstruct 2 1] = Some (Some (-1), Some 5, [], []).
Proof. test_passes. Qed.

Example MoveAssignmentClosesPreviousFdAndTransfersOwnership :
  after_ops [OpConstruct 1 5; OpConstruct 2 6; OpMoveAssign 1 2] = Some (Some 6, Some (-1), [5], []).
Proof. test_passes. Qed.

Example ReleaseReturnsFdWithoutClosingIt :
  after_ops [OpConstruct 1 5; OpRelease 1] = Some (Some (-1), None, [], [5]).
Proof. test_passes. Qed.

Example ResetClosesOldFdAndOwnsNewFd :
  after_ops [OpConstruct 1 5; OpReset 1 6] = Some (Some 6, None, [5], []).
Proof. test_passes. Qed.

Example ResetToSameFdIsNoOp :
  after_ops [OpConstruct 1 5; OpReset 1 5] = Some (Some 5, None, [], []).
Proof. test_passes. Qed.
End UniqueFdTest.

(** ** [connection_registry_test.cpp] *)

Module ConnectionRegistryTest.
Definition registry : St ConnectionRegistry := mkSt (ConnectionRegistry_make ConnectionLimits_default) [].
Definition Add (fd : Z) : M (St ConnectionRegistry) Z := Registry_Add (Sys := quiet_pair) (UniqueFd_make fd).
Definition Remove (id : Z) : M (St ConnectionRegistry) bool := Registry_Remove id.

Example AddReturnsOpaqueMonotonicConnectionId :
  fst ((first ← Add 5; removed ← Remove first; second ← Add 6; mret (removed, second - first)) registry) =
  Return (true, 1).
Proof. test_passes. Qed.

Example FindReturnsRegisteredConnectionById :
  fst ((id ← Add 5; r ← get_self; nonblocking ← IsNonBlocking (Sys := quiet_pair) 5;
        mret (bool_decide (Registry_Find id r = Some id), nonblocking)) registry) = Return (true, true).
Proof. test_passes. Qed.

Example RemoveDropsConnectionAndClosesFd :
  let '(result, s) := (id ← Add 5; removed ← Remove id; r ← get_self;
                       mret (removed, Registry_Find id r, Registry_empty r)) registry in
  result = Return (true, None, true) /\ closed_fds (hist s) = [5].
Proof. test_passes. Qed.

Example RemovingUnknownConnectionReturnsFalse : fst (Remove 123 registry) = Return false.
Proof. test_passes. Qed.

Example RejectsInvalidFd :
  fst (Add kInvalidFd registry) = Throw (InvalidArgument "cannot register invalid connection fd").
Proof. test_passes. Qed.
End ConnectionRegistryTest.

(** ** [nonblocking_connection_test.cpp] *)

Module NonBlockingConnectionTest.
Definition connection (limits : ConnectionLimits) : St Connection :=
  mkSt (Connection_make 7 (UniqueFd_make 5) limits) [].
Definition fresh_connection : St Connection := connection ConnectionLimits_default.

Definition first_frame : list Byte := EncodedEcho 1 [0x01].
Definition second_frame : list Byte := EncodedEcho 2 [0x02; 0x03].

(** A call of [ReadAvailable] when the peer has sent [arrived]: its result, and
    the bytes then buffered. *)
Definition ReadAvailable_at (arrived : list Byte) (peer_closed : bool) (budget : Z) :
    M (St Connection) (ReadAvailableResult * Z) :=
  result ← ReadAvailable (Sys := socket_pair arrived peer_closed) 40 budget;
  this ← get_self; mret (result, buffered_input_bytes this).
Definition read_once (arrived : list Byte) (peer_closed : bool) : Result (ReadAvailableResult * Z) :=
  fst (ReadAvailable_at arrived peer_closed kDefaultMaxReadBytesPerEvent fresh_connection).

Example SetNonBlockingMarksFdNonBlocking :
  fst ((before ← IsNonBlocking (Sys := quiet_pair) 5; _ ← SetNonBlocking (Sys := quiet_pair) 5;
        after ← IsNonBlocking (Sys := quiet_pair) 5; mret (before, after)) (mkSt tt [])) = Return (false, true).
Proof. test_passes. Qed.

Example ReadAvailableReturnsWouldBlockWithoutData :
  read_once [] false = Return (ReadAvailableResult_WouldBlock, 0).
Proof. test_passes. Qed.

Example ReadsCompleteFrame :
  read_once first_frame false = Return (ReadAvailableResult_Ok [EchoRequest 1 [0x01]], 0).
Proof. test_passes. Qed.

Example BuffersFragmentedFrameUntilComplete :
  let split := kHeaderSize - 1 in
  fst ((first ← ReadAvailable_at (ztake split first_frame) false 4096;
        second ← ReadAvailable_at first_frame false 4096; mret (first, second)) fresh_connection) =
  Return ((ReadAvailableResult_Ok [], split), (ReadAvailableResult_Ok [EchoRequest 1 [0x01]], 0)).
Proof. test_passes. Qed.

Example ReadsMultipleFramesFromOneReadableEvent :
  read_once (first_frame ++ second_frame) false =
  Return (ReadAvailableResult_Ok [EchoRequest 1 [0x01]; EchoRequest 2 [0x02; 0x03]], 0).
Proof. test_passes. Qed.

(** A frame of the largest size and another one arrive together; two calls, each
    within its budget, read both. *)
Example ReadsCoalescedMaximumFrameAndFollowingFrameWithinInputLimit :
  let bytes := EncodedEcho 1 (replicate (Z.to_nat kMaxPayloadSize) 0x41) ++ second_frame in
  match fst ((r1 ← ReadAvailable_at bytes false kDefaultMaxReadBytesPerEvent;
              r2 ← ReadAvailable_at bytes false kDefaultMaxReadBytesPerEvent;
              mret (r1, r2)) fresh_connection) with
  | Return ((r1, _), (r2, _)) =>
    (read_status r1, read_status r2,
     (fun m => (request_id m, len (payload m))) <$> messages r1 ++ messages r2) =
    (ReadOk, ReadOk, [(1, kMaxPayloadSize); (2, 2)])
  | _ => False
  end.
Proof. test_passes. Qed.

Example ReadAvailableHonorsReadByteBudget :
  let bytes := first_frame ++ second_frame in
  fst ((r1 ← ReadAvailable_at bytes false (len first_frame);
        r2 ← ReadAvailable_at bytes false (len second_frame); mret (r1, r2)) fresh_connection) =
  Return ((ReadAvailableResult_Ok [EchoRequest 1 [0x01]], 0),
          (ReadAvailableResult_Ok [EchoRequest 2 [0x02; 0x03]], 0)).
Proof. test_passes. Qed.

Example ReportsPeerClosed : read_once [] true = Return (ReadAvailableResult_PeerClosed [], 0).
Proof. test_passes. Qed.

Example ReportsProtocolError :
  read_once (replicate (Z.to_nat kHeaderSize) 0) false =
  Return (ReadAvailableResult_ProtocolError kInvalidMagic [], kHeaderSize).
Proof. test_passes. Qed.

(** *** Writing *)

(** What a call leaves: its result, the bytes pending, and all that the peer received. *)
Definition WriteAvailable_at (sc : OS) (budget : Z) :
    M (St Connection) (WriteAvailableResult * Z * list Byte) := fun s =>
  match WriteAvailable (Sys := sc) 400 budget s with
  | (Return r, s) => (Return (r, pending_output_bytes (self s), sent_of 7 (hist s)), s)
  | (Throw e, s) => (Throw e, s)
  | (Undefined, s) => (Undefined, s)
  | (OutOfFuel, s) => (OutOfFuel, s)
  end.

Definition written (n : Z) : WriteAvailableResult := {| write_status := WriteOk; bytes_written := n |}.
Definition kDefaultBudget : Z := kDefaultMaxWriteBytesPerEvent.

Example QueuesAndFlushesOutputFrame :
  match fst ((queued ← QueueOutput (EchoResponse 88 [0x10; 0x20]); this ← get_self;
              r ← WriteAvailable_at quiet_pair kDefaultBudget;
              mret (queued, has_pending_output this, r)) fresh_connection) with
  | Return (queued, pending, (r, remaining, received)) =>
    (queued, pending, r, remaining) = (true, true, written 22, 0) /\
    result_of (next (FrameDecoder_Append FrameDecoder_new received)) =
      Some (kDecoded, Some (EchoResponse 88 [0x10; 0x20]), 0)
  | _ => False
  end.
Proof. test_passes. Qed.

(** The kernel's buffer takes 30 bytes and is full; later it takes 5 bytes, is
    full again, and takes the rest: 8 small frames (128 large ones in the test)
    come out whole and in order. *)
Definition full_socket : OS :=
  scripted {| script_interrupts := 1; script_recv := [];
              script_send := [IoOk 30; IoErr EAGAIN; IoOk 5; IoErr EINTR; IoErr EAGAIN]; script_accept := [];
              script_wait := []; script_setup := [] |}.

Definition queue_frames (ids : list Z) : M (St Connection) unit :=
  foldr (fun id k => QueueOutput (EchoResponse id [0xCC; 0xCC]) ;; k) (mret tt) ids.

Fixpoint decode_all (n : nat) (d : FrameDecoder) : list Z * Z :=
  match n, next d with
  | S n, Some (_, Some m, _, d) => let '(ids, remaining) := decode_all n d in (request_id m :: ids, remaining)
  | _, _ => ([], FrameDecoder_BufferedSize d)
  end.

Example PreservesPendingOutputAfterWouldBlock :
  match fst ((_ ← queue_frames (seqZ 1 8); r1 ← WriteAvailable_at full_socket kDefaultBudget;
              r2 ← WriteAvailable_at full_socket kDefaultBudget; r3 ← WriteAvailable_at full_socket kDefaultBudget;
              mret (r1, r2, r3)) fresh_connection) with
  | Return ((r1, remaining1, _), (r2, remaining2, _), (r3, remaining3, received)) =>
    (write_status r1, remaining1, write_status r2, remaining2, write_status r3, remaining3) =
      (WriteWouldBlock, 8 * 22 - 30, WriteWouldBlock, 8 * 22 - 35, WriteOk, 0) /\
    decode_all 9 (FrameDecoder_Append FrameDecoder_new received) = (seqZ 1 8, 0)
  | _ => False
  end.
Proof. test_passes. Qed.

Example WriteAvailableHonorsWriteByteBudget :
  match fst ((_ ← queue_frames [1; 2]; r1 ← WriteAvailable_at quiet_pair 22;
              r2 ← WriteAvailable_at quiet_pair kDefaultBudget; mret (r1, r2)) fresh_connection) with
  | Return ((r1, remaining1, received), (r2, remaining2, _)) =>
    (r1, remaining1, r2, remaining2) = (written 22, 22, written 22, 0) /\
    result_of (next (FrameDecoder_Append FrameDecoder_new received)) =
      Some (kDecoded, Some (EchoResponse 1 [0xCC; 0xCC]), 0)
  | _ => False
  end.
Proof. test_passes. Qed.

(** A frame is written and another queued, a thousand times: the limit of two
    frames bounds the storage as well. *)
Definition two_frames : ConnectionLimits :=
  {| max_input_buffer := max_input_buffer ConnectionLimits_default; max_output_buffer := 2 * (kHeaderSize + 1) |}.
Definition response : Message := EchoResponse 88 [0x10].

Fixpoint compaction_rounds (n : nat) : M (St Connection) bool :=
  match n with
  | O => mret true
  | S n =>
    r ← WriteAvailable (Sys := quiet_pair) 10 (kHeaderSize + 1);
    queued ← QueueOutput response;
    this ← get_self;
    ok ← compaction_rounds n;
    mret (ok && bool_decide (write_status r = WriteOk) && (bytes_written r =? kHeaderSize + 1) && queued &&
          (pending_output_bytes this =? max_output_buffer two_frames) &&
          (output_storage_bytes this <=? max_output_buffer two_frames))
  end.

Example CompactsStoredOutputBeforeAppendingAfterPartialWrites :
  fst ((first ← QueueOutput response; second ← QueueOutput response;
        third ← QueueOutput response; ok ← compaction_rounds 1000;
        mret (first, second, third, ok)) (connection two_frames)) = Return (true, true, false, true).
Proof. test_passes. Qed.

Example RejectsOutputAboveConfiguredLimit :
  let one_frame := {| max_input_buffer := max_input_buffer ConnectionLimits_default;
                      max_output_buffer := kHeaderSize + 1 |} in
  fst ((queued ← QueueOutput (EchoResponse 88 [0x10; 0x20]); this ← get_self;
        mret (queued, has_pending_output this)) (connection one_frame)) = Return (false, false).
Proof. test_passes. Qed.
End NonBlockingConnectionTest.
